(* ===== verification/_CoqProject ===== *)
-Q . S2P
Prelude.v
Proto.v
KWritePath.v
KHash.v
KScore.v
KPlacement.v
Crc32c.v
Disk.v
Framing.v
Segment.v
Wal.v
Codec.v
CodecType.v
CorePlacement.v
FuseWritePath.v
Ioctl.v
RedundancySpec.v
Replicator.v
Redb.v
Store.v
StoreSpec.v
StoreRefine.v
StoreRecovery.v
StoreTorn.v
StoreReads.v
Pool.v
PoolSpec.v
PoolRefine.v
PoolFormat.v
PoolLife.v
PoolOpen.v
PoolLogged.v
PoolSound.v
PoolReopen.v
PoolCrash.v
PoolRuns.v
PoolCrashRuns.v
PoolLive.v
Fuse.v
FuseSpec.v
FuseMount.v
FuseDir.v
FuseRuns.v
Ctl.v
CtlMount.v
Daemon.v
DaemonCrash.v
Testing.v
KcoreTests.v
CoreTests.v
FuseTests.v
MetaTests.v
PoolTests.v
