(* ===== verification/Prelude.v ===== *)
(** * TartineFS: a verification development

    TartineFS is a pooled file system.  Files start append-only (a log of
    chunks) and can be converted, once, to randomly writable ones (extents).
    Chunks are placed on the disks of a pool by weighted rendezvous hashing;
    metadata goes through a replicated write-ahead log.  The workspace has a
    core that is shared with a kernel module ([tartine-kcore]), the types
    ([tartine-proto]), the storage layer ([tartine-core]), the metadata layer
    ([tartine-meta]) and a FUSE front end ([tartine-fuse], [tartined],
    [tartinectl]).

    ** The files and what they model (all paths under [src/crates/])

    - [Prelude]: results with a panic outcome, the state-and-error monad [io],
      [w]-bit arithmetic, bytes and little-endian numbers, list lemmas,
      tactics and hint databases.  Models no code of the repository.
    - [Proto] ([tartine-proto/src/lib.rs]): the shared types, one Inductive or
      Record per enum or struct, with the well-formedness that Rust's types
      give for free (widths, valid UTF-8).  A [HashMap] is a [gmap]; the order
      it iterates in is the class [HashIter], about which only what the
      standard library promises is assumed, and theorems hold for every
      instance.
    - [KWritePath] ([tartine-kcore/src/write_path.rs]): the state machine of a
      file's mode, over the integers of the C interface.
    - [KHash] ([hash.rs]), [KScore] and [KPlacement] ([placement.rs], the same
      crate): FNV-1a; the fixed-point logarithm and the score; the selection
      loops, the redundancy slots and the C entry points.
    - [Crc32c], [Disk], [Framing], [Segment] ([tartine-core/src/crc32c.rs],
      [disk.rs], [segment.rs]): the checksum; the [Disk] trait as the class
      [Disk] with the laws [DiskLaws] its clients use, and [FileDisk] and
      [Arc] as instances over a model of files with write caches (a file has
      the image that reads see and the one on stable storage, and only a sync
      that succeeds makes them agree for certain) in which a device may fail
      in the middle of a write; the scanning argument that segment log and
      write-ahead log share; the segment log.
    - [CorePlacement], [RedundancySpec] ([tartine-core/src/placement.rs],
      [redundancy_spec.rs]): placement over a pool map; the text form of a
      redundancy policy.
    - [Wal], [Codec], [CodecType], [Replicator] ([tartine-meta/src/wal.rs],
      [codec.rs], [lib.rs]): frames, the binary encoding of operations and
      inodes and what its decoders can return, the two-disk commit.
    - [Redb], [Store], [StoreSpec], [StoreRefine], [StoreRecovery],
      [StoreTorn], [StoreReads] ([tartine-meta/src/store.rs]): the database as
      a parameter, the store, its abstract specification, and the proofs;
      [StoreTorn] is about what a log write that was cut short, or lost in
      part with the power, leaves for the next scan.
    - [FuseWritePath], [Ioctl] ([tartine-fuse/src/write_path.rs], [ioctl.rs]):
      the typed adapter of the state machine, the ioctl buffers.
    - [Pool] ([tartine-meta/src/pool.rs]): the pool, which joins placement,
      segments and the store.  [PoolSpec] says when disks hold a file's content,
      on stable storage, and what one replica's write keeps; [PoolRefine] has the invariant
      [pool_inv], the [course] of an operation (it stops while it writes data,
      or its metadata operation is refused or applied) and the [effect] of
      each under the invariant; [PoolFormat] creates a pool; [PoolLife] has the
      abstract file system [fs] and the refinement.  [PoolOpen] says what an
      opening makes of the disks; [PoolLogged] that every operation leaves the
      log holding the store's state, on stable storage, so that a reopened pool
      [answers] as before; [PoolSound] and [PoolReopen] what else holds as long
      as no extent is written: every chunk is in a run of synced records from
      the start of its disk, so a scan after a loss of power finds it;
      [PoolCrash] what a crash in the middle of an operation leaves.  [PoolLive] shows that a healthy pool refuses nothing;
      [PoolRuns] and [PoolCrashRuns] run the model.
    - [Fuse] ([tartine-fuse/src/lib.rs]): the callbacks with their errno codes.
      [FuseSpec] has requests as steps of the mount and their effect on the
      abstract file system, [FuseMount] what a mount promises, [FuseDir]
      directory listing in pages, [FuseRuns] runs.
    - [Ctl], [CtlMount] ([tartinectl/src/main.rs]): the control tool's
      commands, alone and on a mount.
    - [Daemon] ([tartined/src/main.rs]): the command line, and the choice
      between formatting and reopening.  [DaemonCrash] joins mount, pool and
      daemon: a request during which power is lost, and the next start.
    - [Testing], [KcoreTests], [CoreTests], [FuseTests], [MetaTests],
      [PoolTests]: the repository's own unit tests as programs of the model,
      which run them; a check of the definitions that does not depend on the
      theorems.

    ** State and operations

    Pure functions are Rocq functions.  A method that reads or changes a
    structure takes and returns it; one that also reaches disks runs in [io]
    over the pair of world and structure ([os_world * Pool] for the pool and the
    callbacks above it; a callback holds the pool's lock, so it is one step).
    A program's exit code is its error.  [?] is [let?] or [let!], an error
    is [Err] of the source's enum, and a panic ([unwrap], index out of range,
    [unreachable!], [assert!]) is the outcome [Panic], which theorems exclude
    or exhibit.  Integers are [Z] with the wrap-around of a release build
    written where the code can reach it ([as_u64], [wrap]).  A [Vec] is a
    list, bytes are [Byte.byte].

    ** What the theorems show

    - Placement: the selection is the top of a total ranking, independent of
      the candidates' order, and adding a disk moves data only onto it; slots
      are filled in order, with distinct disks that fit; the adapter over the
      pool map gives the same answer for every hash-table order; the score is
      positive, monotone and within 128 bits, and the logarithm is within two
      units in the last place.
    - Storage: the checksum is CRC-32C and detects every changed byte; a scan
      always returns, and what it returns is stored and checksummed; through
      any sequence of appends, torn appends, syncs and recoveries every
      acknowledged record is found again at its offset, and through losses of
      power every one that was synced.
    - Metadata: encoding round trips; the commit protocol, which ends on stable
      storage; the store refines
      the specification operation by operation, through crashes and
      reopenings, and so does a backup that takes over; reads return the
      abstract state.  Decoding any bytes gives well-typed operations.
    - Pool: under any operations, with devices that fail at any moment and
      whatever becomes of data that has not been synced, the pool shows a file
      system that the abstract one can reach, and reads return what was
      written.  As long as no operation has failed in the log, a pool opened
      again answers as before, and a crash at any byte of an operation, which
      takes with it any part of what had not been synced, leaves it done or
      failed for the pool opened next, and done if it was acknowledged; if
      moreover no extent has been written, that pool has all that a pool is
      shown to have, and so has one that has lost its power and been reopened
      any number of times.  On devices that work, with room and enough disks, every
      operation that the file's mode allows succeeds.
    - Mount: whatever the kernel asks for, files stay, modes only advance, and
      until a file is writable its content only grows at the end; the answer to
      a write on every branch; a directory read in pages is listed completely
      and once.
    - Interfaces and programs: the redundancy text and ioctl round trips; the
      write-path adapter; what the control tool sets it shows; the daemon
      stopped, or without power, and started again mounts the same file system,
      and after a crash in the middle of a request one in which the request was served or not.
    - Behaviour that differs from what the comments promise or that loses
      data is stated and proved as such (the properties of kind error, and
      [neg_log2_q16_not_exact], [parse_count]): a refused conversion that makes
      the pool unreadable, a torn log write that makes every opening panic,
      extents overwritten after a restart, a format that was interrupted, and
      others.

    ** Termination, fuel and bounds

    Every definition is total.  The loops that are not structural are the two
    scans, which advance by at least a header per record; they run on fuel
    capacity / header + 2, and [Framing] proves that this is always enough, so
    the theorems about scans have no "if it returns".  The log and segment
    capacities are the source's constants.  The pool's theorems ask of an
    operation what [op_fits] says (and of a request [request_fits]): room in the
    log and in the address space, contents below 4 GiB where the code truncates
    a length, a policy with at least one slot; the runs show that these can be
    met, and the properties of kind error what happens without some of them.

    ** Parameters and assumptions

    [redb] is a third-party crate: the class [Redb] lists the operations the
    store calls and [RedbLaws] their documented behaviour; [RedbReliable]
    (no operation fails) is assumed only by the theorems about recovery, reads,
    the pool and what runs on it.
    An in-memory instance meets all of them and is what witnesses run on.  The
    laws of [Disk] are proved for [FileDisk].  A device that dies takes a
    prefix of one write and nothing after it.  When power is lost ([crashed])
    every byte that has not been synced, and the length of every file, becomes
    the cached or the durable one, each on its own, so acknowledged writes can
    be lost, torn and reordered up to the next sync; the creation of a file and
    the length it is created with are taken to be durable.  The life of the
    store alone ([store_durable]) is about the death of the process, which loses
    no cached data; [PoolCrash] is about the store under a loss of power.  A
    scan after a failed write may meet bytes of that write: the steps of
    [StoreRecovery] assume of what it accepts there only that it is a frame of
    some operation, and [PoolCrash] names the case, [misread], and shows one
    that occurs.  After such a write a history goes no further: what the log
    then shows need not be on stable storage ([replayed_not_durable]).  Theorems
    about reopening assume a readable disk.

    ** Not modelled

    The four unit tests that gather statistics of the placement over thousands
    of keys; Display texts and messages; the [From] instances of the error types, which
    are the [map_err]s of the model; the default of the database's path and the
    mount options in [tartined]; the panic handler of the kernel build; the C
    kernel module ([kernel/]), whose calls into the shared core are modelled at
    their C entry points.  [fuser]'s dispatch and [mount2], the kernel's path
    resolution and the [ioctl] system call are parameters.  Memory is taken to
    suffice, and two paths of a pool that name one file ([a] and [./a]) are not
    recognised as such. *)

From Stdlib Require Import ZArith Lia.
From Stdlib Require Export Init.Byte.
From Stdlib Require Strings.Byte.
From stdpp Require Export prelude list gmap fin_maps.

#[global] Open Scope Z_scope.
#[global] Set Default Goal Selector "1".

(** ** Results

    Rust's [Result] with one more outcome: [Panic] stands for an
    out-of-range index, a failed [unwrap], an [unreachable!] or a failed
    [assert!], each of which aborts the process (the workspace builds with
    [panic = "abort"]). *)
Inductive result (E A : Type) : Type :=
  | Ok (a : A)
  | Err (e : E)
  | Panic.
Arguments Ok {E A} a.
Arguments Err {E A} e.
Arguments Panic {E A}.

Definition result_bind {E A B} (m : result E A) (k : A -> result E B) : result E B :=
  match m with
  | Ok a => k a
  | Err e => Err e
  | Panic => Panic
  end.

(** [map_err], and the [From] conversions that the [?] operator inserts. *)
Definition map_err {E F A} (f : E -> F) (m : result E A) : result F A :=
  match m with
  | Ok a => Ok a
  | Err e => Err (f e)
  | Panic => Panic
  end.

(** [Option::ok_or]. *)
Definition ok_or {E A} (o : option A) (e : E) : result E A :=
  match o with Some a => Ok a | None => Err e end.

(** [unwrap]/[expect] of an option. *)
Definition unwrap {E A} (o : option A) : result E A :=
  match o with Some a => Ok a | None => Panic end.

Definition is_ok {E A} (m : result E A) : bool :=
  match m with Ok _ => true | _ => false end.

Declare Scope tartine_scope.
Delimit Scope tartine_scope with tartine.
Notation "'let?' x := m 'in' k" := (result_bind m (fun x => k))
  (at level 10, x pattern, m at level 100, k at level 200)
  : tartine_scope.
#[global] Open Scope tartine_scope.

(** ** Effects

    An operation on a world [W] (disks, a store, a pool) that can fail: it
    returns the new world whatever the outcome, because a Rust function that
    returns [Err] keeps every side effect it made before. *)
Definition io (W E A : Type) : Type := W -> W * result E A.
Definition io_ret {W E A} (a : A) : io W E A := fun w => (w, Ok a).
Definition io_err {W E A} (e : E) : io W E A := fun w => (w, Err e).
Definition io_panic {W E A} : io W E A := fun w => (w, Panic).
Definition io_lift {W E A} (r : result E A) : io W E A := fun w => (w, r).
Definition io_get {W E} : io W E W := fun w => (w, Ok w).
Definition io_bind {W E A B} (m : io W E A) (k : A -> io W E B) : io W E B :=
  fun w =>
    match m w with
    | (w', Ok a) => k a w'
    | (w', Err e) => (w', Err e)
    | (w', Panic) => (w', Panic)
    end.
Definition io_map_err {W E F A} (f : E -> F) (m : io W E A) : io W F A :=
  fun w => let '(w', r) := m w in (w', map_err f r).

(** Operations of a component with state [S] of its own ([&mut self]) in a
    world [W]: an effect on the world alone, and access to [self]. *)
Definition io_world {W S E A} (m : io W E A) : io (W * S) E A :=
  fun ws => let '(w', r) := m ws.1 in ((w', ws.2), r).
Definition io_on_self {W S E A} (m : io S E A) : io (W * S) E A :=
  fun ws => let '(s', r) := m ws.2 in ((ws.1, s'), r).
Definition io_self {W S E} : io (W * S) E S := fun ws => (ws, Ok ws.2).
(** A method that only reads. *)
Definition io_query {W E A} (f : W -> result E A) : io W E A := fun w => (w, f w).
Definition io_set_self {W S E} (s : S) : io (W * S) E unit := fun ws => ((ws.1, s), Ok tt).

Notation "'let!' x := m 'in' k" := (io_bind m (fun x => k))
  (at level 10, x pattern, m at level 100, k at level 200)
  : tartine_scope.

(** ** Machine integers

    Integers are [Z]; an operation that can leave its width is wrapped as
    Rust's release profile does (the workspace does not turn on
    [overflow-checks]). *)
Definition wrap (w z : Z) : Z := z mod 2 ^ w.
Definition u8_max : Z := 2 ^ 8 - 1.
Definition u32_max : Z := 2 ^ 32 - 1.
Definition u64_max : Z := 2 ^ 64 - 1.

(** [fits w z]: [z] is a value of the unsigned [w]-bit type. *)
Definition fits (w z : Z) : Prop := 0 <= z < 2 ^ w.
Abbreviation u8 := (fits 8).
Abbreviation u32 := (fits 32).
Abbreviation u64 := (fits 64).
Abbreviation u128 := (fits 128).

#[export] Instance fits_dec w z : Decision (fits w z).
Proof. unfold fits. apply _. Defined.

(** [a as u32] and the like: truncation of a wider unsigned value. *)
Definition as_u8 (z : Z) : Z := wrap 8 z.
Definition as_u32 (z : Z) : Z := wrap 32 z.
Definition as_u64 (z : Z) : Z := wrap 64 z.

(** Lengths are [usize] in the source; [Zlen] is [len() as u64]. *)
Definition Zlen {A} (l : list A) : Z := Z.of_nat (length l).

(** ** Bytes and little-endian integers *)
Definition byte_of_Z (z : Z) : byte :=
  match Byte.of_N (Z.to_N (z mod 256)) with
  | Some b => b
  | None => x00
  end.
Definition Z_of_byte (b : byte) : Z := Z.of_N (Byte.to_N b).

(** [to_le_bytes] of an [n]-byte integer. *)
Fixpoint to_le (n : nat) (z : Z) : list byte :=
  match n with
  | O => []
  | S n' => byte_of_Z z :: to_le n' (z / 256)
  end.

(** [from_le_bytes]. *)
Fixpoint from_le (bs : list byte) : Z :=
  match bs with
  | [] => 0
  | b :: bs' => Z_of_byte b + 256 * from_le bs'
  end.

(** [buf[a..b]]: panics ([None]) unless [a <= b <= buf.len()]. *)
Definition slice {A} (l : list A) (a b : nat) : option (list A) :=
  if decide (a <= b /\ b <= length l)%nat then Some (take (b - a) (drop a l)) else None.

(** [header[a..b]] of an array whose length is known. *)
Definition field {A} (l : list A) (a b : nat) : list A := take (b - a) (drop a l).

(** [buf[off..off + len].copy_from_slice(bytes)]. *)
Definition splice (off : nat) (bs : list byte) (buf : list byte) : list byte :=
  take off buf ++ bs ++ drop (off + length bs) buf.

#[export] Instance byte_eq_dec : EqDecision byte := Byte.byte_eq_dec.
#[export] Instance byte_countable : Countable byte.
Proof.
  refine (inj_countable Byte.to_N Byte.of_N _). intros b. apply Byte.of_to_N.
Defined.
#[export] Instance byte_inhabited : Inhabited byte := populate x00.

(** ** Loops

    A Rust [loop] is a body from a state to either a next state ([inl]) or
    the value of the [break] ([inr]).  The fuel is a binary number, so a
    bound such as 64 MiB costs nothing to write down or to evaluate. *)
Fixpoint loop_pos {A B} (body : A -> A + B) (p : positive) (a : A) : A + B :=
  match p with
  | xH => body a
  | xO q =>
      match loop_pos body q a with
      | inl a' => loop_pos body q a'
      | inr b => inr b
      end
  | xI q =>
      match body a with
      | inl a0 =>
          match loop_pos body q a0 with
          | inl a' => loop_pos body q a'
          | inr b => inr b
          end
      | inr b => inr b
      end
  end.

(** The same loop with unary fuel, the form the lemmas are proved on. *)
Fixpoint loop_nat {A B} (body : A -> A + B) (n : nat) (a : A) : A + B :=
  match n with
  | O => inl a
  | S n' =>
      match body a with
      | inl a' => loop_nat body n' a'
      | inr b => inr b
      end
  end.

(** ** Tactics and hint databases *)

(** [tartine]: lemmas that close the routine side conditions (lengths of
    encodings, widths of constants); [tartine_len] rewrites lengths. *)
Create HintDb tartine.
Create Rewrite HintDb tartine_len.

Ltac len := unfold Zlen in *; autorewrite with tartine_len in *; simpl in *; try lia.
Ltac case_if := match goal with
  | |- context [if ?c then _ else _] => destruct c eqn:?
  | H : context [if ?c then _ else _] |- _ => destruct c eqn:?
  end.

(** ** Lemmas *)

#[export] Hint Rewrite @length_app @length_take @length_drop @length_cons
  @length_replicate @length_fmap @length_nil @length_insert : tartine_len.

Lemma Zlen_nonneg {A} (l : list A) : 0 <= Zlen l.
Proof. unfold Zlen; lia. Qed.

Lemma Zlen_app {A} (l1 l2 : list A) : Zlen (l1 ++ l2) = Zlen l1 + Zlen l2.
Proof. unfold Zlen. rewrite length_app. lia. Qed.

Lemma Zlen_cons {A} (x : A) l : Zlen (x :: l) = 1 + Zlen l.
Proof. unfold Zlen. simpl length. lia. Qed.

Lemma length_splice off bs buf :
  (off + length bs <= length buf)%nat -> length (splice off bs buf) = length buf.
Proof. intros. unfold splice. rewrite !length_app, length_take, length_drop. lia. Qed.

Lemma wrap_small w z : fits w z -> wrap w z = z.
Proof. unfold fits, wrap. intros. apply Z.mod_small. lia. Qed.

Lemma wrap_fits w z : 0 <= w -> fits w (wrap w z).
Proof. intros. unfold fits, wrap. apply Z.mod_pos_bound. lia. Qed.

(** *** Bytes *)

Lemma byte_of_Z_of_byte b : byte_of_Z (Z_of_byte b) = b.
Proof. destruct b; reflexivity. Qed.

Lemma Z_of_byte_bound b : 0 <= Z_of_byte b < 256.
Proof. destruct b; vm_compute; split; congruence. Qed.

Lemma Z_of_byte_of_Z z : Z_of_byte (byte_of_Z z) = z mod 256.
Proof.
  unfold byte_of_Z, Z_of_byte.
  pose proof (Z.mod_pos_bound z 256 ltac:(lia)) as Hb.
  destruct (Byte.of_N (Z.to_N (z mod 256))) as [b|] eqn:E.
  - apply Byte.to_of_N in E. rewrite E. lia.
  - apply Byte.of_N_None_iff in E. lia.
Qed.

Lemma length_to_le n z : length (to_le n z) = n.
Proof. revert z; induction n; simpl; auto. Qed.
#[export] Hint Rewrite length_to_le : tartine_len.

Lemma from_le_bound bs : 0 <= from_le bs < 2 ^ (8 * Zlen bs).
Proof.
  induction bs as [|b bs IH]; simpl from_le.
  - change (2 ^ (8 * Zlen (@nil byte))) with 1. lia.
  - rewrite Zlen_cons, Z.mul_add_distr_l, Z.pow_add_r by (pose proof (Zlen_nonneg bs); lia).
    change (2 ^ (8 * 1)) with 256. set (P := 2 ^ (8 * Zlen bs)) in *.
    pose proof (Z_of_byte_bound b). lia.
Qed.

Lemma from_le_fits bs w : 8 * Zlen bs = w -> fits w (from_le bs).
Proof. intros <-. apply from_le_bound. Qed.

Lemma from_to_le n z : from_le (to_le n z) = z mod 2 ^ (8 * Z.of_nat n).
Proof.
  revert z; induction n as [|n IH]; intros z.
  - simpl. rewrite Z.mod_1_r. reflexivity.
  - cbn [to_le from_le]. rewrite IH, Z_of_byte_of_Z.
    replace (8 * Z.of_nat (S n)) with (8 + 8 * Z.of_nat n) by lia.
    rewrite Z.pow_add_r by lia. change (2 ^ 8) with 256.
    rewrite Z.rem_mul_r by lia. reflexivity.
Qed.

Lemma from_to_le_fits n w z : 8 * Z.of_nat n = w -> fits w z -> from_le (to_le n z) = z.
Proof. intros <- H. rewrite from_to_le. apply Z.mod_small. exact H. Qed.

Lemma to_from_le bs n : length bs = n -> to_le n (from_le bs) = bs.
Proof.
  intros <-. induction bs as [|b bs IH]; cbn [to_le from_le length]; [reflexivity|].
  pose proof (Z_of_byte_bound b).
  assert (E : (Z_of_byte b + 256 * from_le bs) / 256 = from_le bs).
  { symmetry. apply Z.div_unique with (Z_of_byte b); lia. }
  rewrite E, IH. f_equal.
  rewrite <- (byte_of_Z_of_byte b) at 2. unfold byte_of_Z.
  replace ((Z_of_byte b + 256 * from_le bs) mod 256) with (Z_of_byte b mod 256); [reflexivity|].
  rewrite Z.mul_comm, Z_mod_plus_full. reflexivity.
Qed.

Lemma to_le_inj n w a b :
  8 * Z.of_nat n = w -> fits w a -> fits w b -> to_le n a = to_le n b -> a = b.
Proof.
  intros Hn Ha Hb E. apply (f_equal from_le) in E.
  rewrite !(from_to_le_fits n w) in E by auto. exact E.
Qed.

(** *** Slices *)

Lemma slice_app {A} (l1 l2 l3 : list A) a b :
  a = length l1 -> b = (length l1 + length l2)%nat -> slice (l1 ++ l2 ++ l3) a b = Some l2.
Proof.
  intros -> ->. unfold slice. rewrite decide_True.
  - rewrite drop_app_length, Nat.add_sub_swap, Nat.sub_diag by lia.
    simpl. rewrite take_app_length. reflexivity.
  - rewrite !length_app. lia.
Qed.

Lemma slice_Some {A} (l : list A) a b s :
  slice l a b = Some s -> (a <= b <= length l)%nat /\ length s = (b - a)%nat.
Proof.
  unfold slice. case_decide; [|discriminate]. intros [= <-].
  split; [lia|]. rewrite length_take, length_drop. lia.
Qed.

(** *** Loops *)

Lemma loop_nat_add {A B} (body : A -> A + B) n m a :
  loop_nat body (n + m) a =
    match loop_nat body n a with inl a' => loop_nat body m a' | inr b => inr b end.
Proof.
  revert a; induction n as [|n IH]; intros a; simpl; [reflexivity|].
  destruct (body a); auto.
Qed.

Lemma loop_pos_nat {A B} (body : A -> A + B) p a :
  loop_pos body p a = loop_nat body (Pos.to_nat p) a.
Proof.
  revert a; induction p as [p IH|p IH|]; intros a; cbn [loop_pos].
  - rewrite Pos2Nat.inj_xI. cbn [loop_nat]. destruct (body a) as [a0|b]; [|reflexivity].
    replace (2 * Pos.to_nat p)%nat with (Pos.to_nat p + Pos.to_nat p)%nat by lia.
    rewrite loop_nat_add, <- IH. destruct (loop_pos body p a0); auto.
  - rewrite Pos2Nat.inj_xO.
    replace (2 * Pos.to_nat p)%nat with (Pos.to_nat p + Pos.to_nat p)%nat by lia.
    rewrite loop_nat_add, <- IH. destruct (loop_pos body p a); auto.
  - simpl. destruct (body a); reflexivity.
Qed.

Lemma loop_nat_mono {A B} (body : A -> A + B) n m a b :
  loop_nat body n a = inr b -> (n <= m)%nat -> loop_nat body m a = inr b.
Proof.
  intros H Hle. replace m with (n + (m - n))%nat by lia. now rewrite loop_nat_add, H.
Qed.

(** Enough fuel: a body that keeps [I] and decreases a measure breaks. *)
Lemma loop_nat_terminates {A B} (body : A -> A + B) (I : A -> Prop) (m : A -> nat) :
  (forall a a', I a -> body a = inl a' -> I a' /\ (m a' < m a)%nat) ->
  forall n a, I a -> (m a < n)%nat -> exists b, loop_nat body n a = inr b.
Proof.
  intros Hstep n; induction n as [|n IH]; intros a HI Hm; [lia|]. simpl.
  destruct (body a) as [a'|b] eqn:E; [|eauto].
  destruct (Hstep _ _ HI E). apply IH; [auto|lia].
Qed.

(** What holds at every [break]. *)
Lemma loop_nat_inv {A B} (body : A -> A + B) (I : A -> Prop) (Q : B -> Prop) :
  (forall a a', I a -> body a = inl a' -> I a') ->
  (forall a b, I a -> body a = inr b -> Q b) ->
  forall n a b, I a -> loop_nat body n a = inr b -> Q b.
Proof.
  intros Hs Hb n; induction n as [|n IH]; intros a b HI; simpl; [discriminate|].
  destruct (body a) as [a'|b'] eqn:E; eauto. intros [= <-]. eauto.
Qed.

(** A loop whose [break] value is converted. *)
Lemma loop_nat_map {A B C} (body : A -> A + B) (body' : A -> A + C) (f : B -> C) :
  (forall a, body' a = match body a with inl a' => inl a' | inr b => inr (f b) end) ->
  forall n a, loop_nat body' n a = match loop_nat body n a with inl a' => inl a' | inr b => inr (f b) end.
Proof.
  intros E n; induction n as [|n IH]; intros a; simpl; [reflexivity|]. rewrite E.
  destruct (body a); auto.
Qed.

Lemma loop_pos_map {A B C} (body : A -> A + B) (body' : A -> A + C) (f : B -> C) :
  (forall a, body' a = match body a with inl a' => inl a' | inr b => inr (f b) end) ->
  forall p a, loop_pos body' p a = match loop_pos body p a with inl a' => inl a' | inr b => inr (f b) end.
Proof. intros E p a. rewrite !loop_pos_nat. now apply loop_nat_map. Qed.

(** *** Effects *)

Lemma field_app {A} (l1 l2 l3 : list A) a b :
  a = length l1 -> b = (length l1 + length l2)%nat -> field (l1 ++ l2 ++ l3) a b = l2.
Proof.
  intros -> ->. unfold field. rewrite drop_app_length.
  replace (length l1 + length l2 - length l1)%nat with (length l2) by lia. apply take_app_length.
Qed.

Lemma length_field {A} (l : list A) a b : (b <= length l)%nat -> length (field l a b) = (b - a)%nat.
Proof. intros. unfold field. rewrite length_take, length_drop. lia. Qed.

Lemma field_split {A} (l : list A) a b :
  (a <= b)%nat -> drop a l = field l a b ++ drop b l.
Proof.
  intros. unfold field. rewrite <- (take_drop (b - a) (drop a l)) at 1. f_equal.
  rewrite drop_drop. f_equal. lia.
Qed.
