(* ===== verification/Proto.v ===== *)
(** * Shared types ([crates/tartine-proto/src/lib.rs])

    The vocabulary of every crate: ids, disks, the pool map, inode records,
    redundancy schemes and metadata operations.  [Uuid] is a [u128], an inode
    id a [u64], an [f64] weight its 64 raw bits, a [String] its UTF-8 bytes.
    The [wf_*] predicates say that every field is a value of its Rust type and
    that every vector is short enough for the codec's 32-bit length prefix. *)

From Stdlib Require Import ZArith Lia.
From S2P Require Import Prelude.

(** ** Identifiers *)
Definition Uuid : Type := Z.
Definition Uuid_nil : Uuid := 0.
Definition InodeId : Type := Z.
Definition DiskId : Type := Uuid.
Definition PoolId : Type := Uuid.

(** ** Disks *)
Record DiskRoles := { role_data : bool; role_metadata : bool }.

Inductive DiskState := Active | Draining | Dead.

Inductive DiskClass := Hdd | Ssd | Nvme.

Definition to_ffi (c : DiskClass) : Z :=
  match c with Hdd => 1 | Ssd => 2 | Nvme => 3 end.

Record DiskEntry := {
  de_roles : DiskRoles;
  de_state : DiskState;
  de_class : DiskClass;
  de_weight : Z; (* the bits of the f64 *)
  de_used_bytes : Z;
  de_capacity_bytes : Z;
}.

Record PoolMap := {
  pm_epoch : Z;
  pm_disks : gmap Z DiskEntry;
}.

(** The order in which a [HashMap] iterates is unspecified (it varies from
    run to run); code that iterates one takes an instance of this class, and
    its theorems hold for every instance. *)
Class HashIter := {
  hm_iter : gmap Z DiskEntry -> list (Z * DiskEntry);
  hm_iter_perm m : hm_iter m ≡ₚ map_to_list m;
}.

Record SuperBlock := {
  sb_pool_id : PoolId;
  sb_disk_id : DiskId;
  sb_roles : DiskRoles;
  sb_format_version : Z;
  sb_created_at_unix : Z;
  sb_last_seen_epoch : Z;
}.

(** [SuperBlock::new]; [now] is the clock the source reads. *)
Definition SuperBlock_new (now : Z) (pool_id : PoolId) (disk_id : DiskId)
    (roles : DiskRoles) : SuperBlock := {|
  sb_pool_id := pool_id;
  sb_disk_id := disk_id;
  sb_roles := roles;
  sb_format_version := 1;
  sb_created_at_unix := now;
  sb_last_seen_epoch := 0;
|}.

Record MetaGroup := {
  mg_primary : DiskId;
  mg_backup : option DiskId;
  mg_epoch : Z;
}.

(** ** Files *)
Inductive InodeMode := AppendOnly | Converting | Writable.

Record ChunkPointer := {
  cp_chunk_seq : Z;
  cp_replicas : list (Z * Z);
  cp_len : Z;
  cp_checksum : Z;
}.

Record Extent := {
  ex_file_offset : Z;
  ex_len : Z;
  ex_replicas : list (Z * Z);
  ex_checksum : Z;
}.

Inductive DataLocator :=
  | ChunkLog (chunks : list ChunkPointer)
  | Extents (extents : list Extent).

Inductive ReplicaSlot :=
  | AnyOfClass (c : option DiskClass)
  | Pinned (id : DiskId).

Inductive RedundancyScheme :=
  | Replicated (slots : list ReplicaSlot)
  | ErasureCoded (data_shards parity_shards : Z).

Definition replica_count (s : RedundancyScheme) : Z :=
  match s with
  | Replicated slots => Zlen slots
  | ErasureCoded d p => d + p
  end.

Record InodeRecord := {
  ir_inode : InodeId;
  ir_mode : InodeMode;
  ir_size : Z;
  ir_redundancy : RedundancyScheme;
  ir_data : DataLocator;
  ir_uid : Z;
  ir_gid : Z;
  ir_unix_mode : Z;
  ir_mtime_unix : Z;
}.

(** ** Metadata operations *)
Inductive MetaOp :=
  | CreateInode (rec : InodeRecord)
  | Link (parent : InodeId) (name : list byte) (child : InodeId)
  | Unlink (parent : InodeId) (name : list byte)
  | AppendChunk (inode : InodeId) (chunk : ChunkPointer)
  | BeginConvert (inode : InodeId)
  | CompleteConvert (inode : InodeId) (extents : list Extent)
  | UpdateExtents (inode : InodeId) (extents : list Extent)
  | SetRedundancyScheme (inode : InodeId) (scheme : RedundancyScheme)
  | PoolMapChange (pm : PoolMap)
  | MetaGroupChange (mg : MetaGroup).

(** Record updates, as the source's field assignments. *)
Definition set_mode (m : InodeMode) (r : InodeRecord) : InodeRecord :=
  {| ir_inode := ir_inode r; ir_mode := m; ir_size := ir_size r;
     ir_redundancy := ir_redundancy r; ir_data := ir_data r; ir_uid := ir_uid r;
     ir_gid := ir_gid r; ir_unix_mode := ir_unix_mode r; ir_mtime_unix := ir_mtime_unix r |}.
Definition set_size (sz : Z) (r : InodeRecord) : InodeRecord :=
  {| ir_inode := ir_inode r; ir_mode := ir_mode r; ir_size := sz;
     ir_redundancy := ir_redundancy r; ir_data := ir_data r; ir_uid := ir_uid r;
     ir_gid := ir_gid r; ir_unix_mode := ir_unix_mode r; ir_mtime_unix := ir_mtime_unix r |}.
Definition set_data (d : DataLocator) (r : InodeRecord) : InodeRecord :=
  {| ir_inode := ir_inode r; ir_mode := ir_mode r; ir_size := ir_size r;
     ir_redundancy := ir_redundancy r; ir_data := d; ir_uid := ir_uid r;
     ir_gid := ir_gid r; ir_unix_mode := ir_unix_mode r; ir_mtime_unix := ir_mtime_unix r |}.
Definition set_redundancy_of (s : RedundancyScheme) (r : InodeRecord) : InodeRecord :=
  {| ir_inode := ir_inode r; ir_mode := ir_mode r; ir_size := ir_size r;
     ir_redundancy := s; ir_data := ir_data r; ir_uid := ir_uid r;
     ir_gid := ir_gid r; ir_unix_mode := ir_unix_mode r; ir_mtime_unix := ir_mtime_unix r |}.

(** ** Well-formedness *)
Definition wf_vec {A} (P : A -> Prop) (l : list A) : Prop := u32 (Zlen l) /\ Forall P l.

(** UTF-8 validity of a byte string (what a Rust [String] guarantees):
    the well-formed sequences of RFC 3629, with neither overlong forms,
    surrogates nor values past U+10FFFF.  [utf8_next n lo hi] is the state
    inside a sequence: [n] continuation bytes to come, the next in [lo, hi]. *)
Fixpoint utf8_scan (n : nat) (lo hi : Z) (bs : list byte) : bool :=
  match bs with
  | [] => match n with O => true | _ => false end
  | b :: bs' =>
      let z := Z_of_byte b in
      match n with
      | S n' => (lo <=? z) && (z <=? hi) && utf8_scan n' 128 191 bs'
      | O =>
          if z <? 128 then utf8_scan 0 128 191 bs'
          else if z <? 194 then false
          else if z <? 224 then utf8_scan 1 128 191 bs'
          else if z =? 224 then utf8_scan 2 160 191 bs'
          else if z =? 237 then utf8_scan 2 128 159 bs'
          else if z <? 240 then utf8_scan 2 128 191 bs'
          else if z =? 240 then utf8_scan 3 144 191 bs'
          else if z <? 244 then utf8_scan 3 128 191 bs'
          else if z =? 244 then utf8_scan 3 128 143 bs'
          else false
      end
  end.
Definition utf8_valid (bs : list byte) : bool := utf8_scan 0 128 191 bs.

Definition wf_str (s : list byte) : Prop := u32 (Zlen s) /\ utf8_valid s = true.

Definition wf_replicas (l : list (Z * Z)) : Prop :=
  wf_vec (fun '(id, off) => u128 id /\ u64 off) l.
Definition wf_chunk (c : ChunkPointer) : Prop :=
  u64 (cp_chunk_seq c) /\ wf_replicas (cp_replicas c) /\ u32 (cp_len c) /\ u32 (cp_checksum c).
Definition wf_extent (x : Extent) : Prop :=
  u64 (ex_file_offset x) /\ u32 (ex_len x) /\ wf_replicas (ex_replicas x) /\ u32 (ex_checksum x).
Definition wf_data (d : DataLocator) : Prop :=
  match d with
  | ChunkLog cs => wf_vec wf_chunk cs
  | Extents xs => wf_vec wf_extent xs
  end.
Definition wf_slot (s : ReplicaSlot) : Prop :=
  match s with AnyOfClass _ => True | Pinned id => u128 id end.
Definition wf_scheme (s : RedundancyScheme) : Prop :=
  match s with
  | Replicated slots => wf_vec wf_slot slots
  | ErasureCoded d p => u8 d /\ u8 p
  end.
Definition wf_inode (r : InodeRecord) : Prop :=
  u64 (ir_inode r) /\ u64 (ir_size r) /\ wf_scheme (ir_redundancy r) /\ wf_data (ir_data r) /\
  u32 (ir_uid r) /\ u32 (ir_gid r) /\ u32 (ir_unix_mode r) /\ u64 (ir_mtime_unix r).
Definition wf_entry (e : DiskEntry) : Prop :=
  u64 (de_weight e) /\ u64 (de_used_bytes e) /\ u64 (de_capacity_bytes e).
Definition wf_pool_map (pm : PoolMap) : Prop :=
  u64 (pm_epoch pm) /\ u32 (Z.of_nat (size (pm_disks pm))) /\
  map_Forall (fun id e => u128 id /\ wf_entry e) (pm_disks pm).
Definition wf_group (g : MetaGroup) : Prop :=
  u128 (mg_primary g) /\ match mg_backup g with Some b => u128 b | None => True end /\
  u64 (mg_epoch g).
Definition wf_op (op : MetaOp) : Prop :=
  match op with
  | CreateInode r => wf_inode r
  | Link p n c => u64 p /\ wf_str n /\ u64 c
  | Unlink p n => u64 p /\ wf_str n
  | AppendChunk i c => u64 i /\ wf_chunk c
  | BeginConvert i => u64 i
  | CompleteConvert i xs | UpdateExtents i xs => u64 i /\ wf_vec wf_extent xs
  | SetRedundancyScheme i s => u64 i /\ wf_scheme s
  | PoolMapChange pm => wf_pool_map pm
  | MetaGroupChange g => wf_group g
  end.

(** ** Decidable equality *)
#[export] Instance DiskRoles_eq_dec : EqDecision DiskRoles.
Proof. solve_decision. Defined.
#[export] Instance DiskState_eq_dec : EqDecision DiskState.
Proof. solve_decision. Defined.
#[export] Instance DiskClass_eq_dec : EqDecision DiskClass.
Proof. solve_decision. Defined.
#[export] Instance DiskEntry_eq_dec : EqDecision DiskEntry.
Proof. solve_decision. Defined.
#[export] Instance InodeMode_eq_dec : EqDecision InodeMode.
Proof. solve_decision. Defined.
#[export] Instance ChunkPointer_eq_dec : EqDecision ChunkPointer.
Proof. solve_decision. Defined.
#[export] Instance Extent_eq_dec : EqDecision Extent.
Proof. solve_decision. Defined.
#[export] Instance DataLocator_eq_dec : EqDecision DataLocator.
Proof. solve_decision. Defined.
#[export] Instance ReplicaSlot_eq_dec : EqDecision ReplicaSlot.
Proof. unfold EqDecision, Decision, DiskId, Uuid. repeat decide equality. Defined.
#[export] Instance RedundancyScheme_eq_dec : EqDecision RedundancyScheme.
Proof. solve_decision. Defined.
#[export] Instance MetaGroup_eq_dec : EqDecision MetaGroup.
Proof. unfold EqDecision, Decision, DiskId, Uuid. repeat decide equality. Defined.
#[export] Instance InodeRecord_eq_dec : EqDecision InodeRecord.
Proof. unfold EqDecision, Decision, InodeId. intros x y. decide equality; solve_decision. Defined.

(** The order that lists a map by key, one instance among others. *)
Definition hash_iter_by_key : HashIter :=
  {| hm_iter := map_to_list; hm_iter_perm m := reflexivity _ |}.

(** Its reverse, to run order-independent code on another order. *)
Definition hash_iter_reversed : HashIter :=
  {| hm_iter m := reverse (map_to_list m); hm_iter_perm m := reverse_Permutation _ |}.
