(* ===== verification/KWritePath.v ===== *)
(** * The write-path state machine of the kernel core
      ([crates/tartine-kcore/src/write_path.rs])

    Modes and results are the raw integers of the C ABI ([u32] in, [i32]
    out).  [mode_step] is the file's life cycle as a relation: the edges are
    exactly the two calls that return a mode. *)

From Stdlib Require Import ZArith Lia.
From S2P Require Import Prelude.

Definition MODE_APPEND_ONLY : Z := 0.
Definition MODE_CONVERTING : Z := 1.
Definition MODE_WRITABLE : Z := 2.

Definition WRITE_KIND_APPEND : Z := 0.
Definition WRITE_KIND_RANDOM : Z := 1.

Definition ERR_NOT_APPEND_ORDER : Z := -1.
Definition ERR_RANDOM_WRITE_DENIED : Z := -2.
Definition ERR_CONVERSION_IN_PROGRESS : Z := -3.
Definition ERR_ALREADY_WRITABLE : Z := -4.
Definition ERR_ALREADY_CONVERTING : Z := -5.
Definition ERR_BAD_MODE : Z := -6.

Definition tartine_classify_write (mode size offset : Z) : Z :=
  if mode =? MODE_APPEND_ONLY then
    if offset =? size then WRITE_KIND_APPEND else ERR_NOT_APPEND_ORDER
  else if mode =? MODE_CONVERTING then
    if offset =? size then WRITE_KIND_APPEND else ERR_CONVERSION_IN_PROGRESS
  else if mode =? MODE_WRITABLE then WRITE_KIND_RANDOM
  else ERR_BAD_MODE.

Definition tartine_truncate_allowed (mode : Z) : Z :=
  if mode =? MODE_WRITABLE then 0
  else if (mode =? MODE_APPEND_ONLY) || (mode =? MODE_CONVERTING) then ERR_RANDOM_WRITE_DENIED
  else ERR_BAD_MODE.

Definition tartine_begin_convert (mode : Z) : Z :=
  if mode =? MODE_APPEND_ONLY then MODE_CONVERTING
  else if mode =? MODE_WRITABLE then ERR_ALREADY_WRITABLE
  else if mode =? MODE_CONVERTING then ERR_ALREADY_CONVERTING
  else ERR_BAD_MODE.

Definition tartine_complete_convert (mode : Z) : Z :=
  if mode =? MODE_CONVERTING then MODE_WRITABLE else ERR_BAD_MODE.

(** The life cycle: a call that answers with a mode moves the file there. *)
Inductive mode_step : Z -> Z -> Prop :=
  | step_begin m m' : tartine_begin_convert m = m' -> 0 <= m' -> mode_step m m'
  | step_complete m m' : tartine_complete_convert m = m' -> 0 <= m' -> mode_step m m'.

Definition valid_mode (m : Z) : Prop :=
  m = MODE_APPEND_ONLY \/ m = MODE_CONVERTING \/ m = MODE_WRITABLE.

(** The promise to clients: what a write may do in each mode. *)
Definition write_permitted (mode size offset : Z) : Prop :=
  (mode = MODE_WRITABLE) \/
  ((mode = MODE_APPEND_ONLY \/ mode = MODE_CONVERTING) /\ offset = size).

Ltac write_path_cases :=
  unfold tartine_classify_write, tartine_truncate_allowed, tartine_begin_convert,
    tartine_complete_convert, write_permitted, valid_mode,
    MODE_APPEND_ONLY, MODE_CONVERTING, MODE_WRITABLE, WRITE_KIND_APPEND,
    WRITE_KIND_RANDOM, ERR_NOT_APPEND_ORDER, ERR_RANDOM_WRITE_DENIED,
    ERR_CONVERSION_IN_PROGRESS, ERR_ALREADY_WRITABLE, ERR_ALREADY_CONVERTING,
    ERR_BAD_MODE in *;
  repeat match goal with
  | |- context [?a =? ?b] => destruct (Z.eqb_spec a b)
  | H : context [?a =? ?b] |- _ => destruct (Z.eqb_spec a b)
  end; simpl in *.

Lemma mode_step_inv m m' :
  mode_step m m' ->
  (m = MODE_APPEND_ONLY /\ m' = MODE_CONVERTING) \/ (m = MODE_CONVERTING /\ m' = MODE_WRITABLE).
Proof. intros [? ? E H|? ? E H]; write_path_cases; lia. Qed.

Lemma mode_step_up m m' : mode_step m m' -> m < m'.
Proof.
  intros [[-> ->]|[-> ->]]%mode_step_inv;
    unfold MODE_APPEND_ONLY, MODE_CONVERTING, MODE_WRITABLE; lia.
Qed.

Lemma rtc_mode_step_up m m' : rtc mode_step m m' -> m <= m'.
Proof. induction 1 as [|? ? ? H%mode_step_up]; lia. Qed.

Lemma mode_step_valid m m' : mode_step m m' -> valid_mode m'.
Proof. intros [[-> ->]|[-> ->]]%mode_step_inv; unfold valid_mode; auto. Qed.

Lemma rtc_mode_step_valid m m' : valid_mode m -> rtc mode_step m m' -> valid_mode m'.
Proof. intros Hv Hr. induction Hr; eauto using mode_step_valid. Qed.

(** The conversion is one way.  From a valid mode every reachable mode is
    valid, a file never comes back to a mode it has left, [Writable] has no
    successor, and a file goes from [AppendOnly] to [Writable] by exactly two
    steps, through [Converting]. *)
Theorem convert_one_way m m' :
  valid_mode m -> rtc mode_step m m' ->
  valid_mode m' /\
  (rtc mode_step m' m -> m' = m) /\
  (forall m'', ~ mode_step MODE_WRITABLE m'') /\
  (m = MODE_APPEND_ONLY -> m' = MODE_WRITABLE ->
     mode_step m MODE_CONVERTING /\ mode_step MODE_CONVERTING m').
Proof.
  intros Hv Hr. split; [eauto using rtc_mode_step_valid|]. split; [|split].
  - intros Hr'. apply rtc_mode_step_up in Hr, Hr'. lia.
  - intros m'' H%mode_step_inv.
    unfold MODE_APPEND_ONLY, MODE_CONVERTING, MODE_WRITABLE in H. lia.
  - intros -> ->. split.
    + apply step_begin; [reflexivity|]. discriminate.
    + apply step_complete; [reflexivity|]. discriminate.
Qed.

(** A write is accepted exactly when the mode permits it: anywhere in a
    [Writable] file, only at the end of file in an [AppendOnly] or
    [Converting] one.  An accepted write in the latter two is an append, in
    the former a random write; a refused one gets the code of its mode, and a
    truncate is allowed exactly in [Writable]. *)
Theorem classify_write_spec mode size offset :
  (0 <= tartine_classify_write mode size offset <-> write_permitted mode size offset) /\
  (tartine_classify_write mode size offset = WRITE_KIND_RANDOM <-> mode = MODE_WRITABLE) /\
  (tartine_classify_write mode size offset = ERR_NOT_APPEND_ORDER <->
     mode = MODE_APPEND_ONLY /\ offset <> size) /\
  (tartine_classify_write mode size offset = ERR_CONVERSION_IN_PROGRESS <->
     mode = MODE_CONVERTING /\ offset <> size) /\
  (tartine_classify_write mode size offset = ERR_BAD_MODE <-> ~ valid_mode mode) /\
  (tartine_truncate_allowed mode = 0 <-> mode = MODE_WRITABLE).
Proof. write_path_cases; lia. Qed.
