(* ===== verification/KHash.v ===== *)
(** * FNV-1a ([crates/tartine-kcore/src/hash.rs]) *)

From Stdlib Require Import ZArith Lia Znumtheory.
From S2P Require Import Prelude.

Definition FNV_OFFSET : Z := 0xcbf29ce484222325.
Definition FNV_PRIME : Z := 0x00000100000001b3.

(** [Fnv1a] is its 64-bit state. *)
Definition Fnv1a : Type := Z.
Definition Fnv1a_new : Fnv1a := FNV_OFFSET.

(** One iteration of [write]: xor the byte in, multiply modulo 2^64. *)
Definition fnv_step (h : Fnv1a) (b : byte) : Fnv1a :=
  wrap 64 (Z.lxor h (Z_of_byte b) * FNV_PRIME).
Definition Fnv1a_write (h : Fnv1a) (bytes : list byte) : Fnv1a := foldl fnv_step h bytes.
Definition Fnv1a_finish (h : Fnv1a) : Z := h.

Definition hash_u128_u64 (a b : Z) : Z :=
  let h := Fnv1a_new in
  let h := Fnv1a_write h (to_le 16 a) in
  let h := Fnv1a_write h (to_le 8 b) in
  Fnv1a_finish h.

Lemma fnv_step_fits h b : u64 (fnv_step h b).
Proof. apply wrap_fits. lia. Qed.

Lemma Fnv1a_write_fits h bs : u64 h -> u64 (Fnv1a_write h bs).
Proof. revert h. induction bs; simpl; auto using fnv_step_fits. Qed.

Lemma hash_u128_u64_fits a b : u64 (hash_u128_u64 a b).
Proof. apply Fnv1a_write_fits, Fnv1a_write_fits. split; vm_compute; congruence. Qed.

Lemma Fnv1a_write_app h l1 l2 : Fnv1a_write h (l1 ++ l2) = Fnv1a_write (Fnv1a_write h l1) l2.
Proof. apply foldl_app. Qed.

(** The multiplier is odd, so one step loses nothing of the state. *)
Definition FNV_INV : Z := 14886173955864302971.

Lemma fnv_prime_inv : FNV_PRIME * FNV_INV mod 2 ^ 64 = 1.
Proof. vm_compute. reflexivity. Qed.

Lemma lxor_fits w a b : 0 <= w -> fits w a -> fits w b -> fits w (Z.lxor a b).
Proof.
  intros Hw [Ha1 Ha2] [Hb1 Hb2]. split; [apply Z.lxor_nonneg; lia|].
  rewrite <- (Z.mod_small a (2 ^ w)), <- (Z.mod_small b (2 ^ w)) by lia.
  rewrite <- !Z.land_ones by lia.
  replace (Z.lxor (Z.land a (Z.ones w)) (Z.land b (Z.ones w)))
    with (Z.land (Z.lxor a b) (Z.ones w)).
  - rewrite Z.land_ones by lia. apply Z.mod_pos_bound. lia.
  - apply Z.bits_inj'; intros n Hn. rewrite !Z.land_spec, !Z.lxor_spec, !Z.land_spec.
    destruct (Z.testbit a n), (Z.testbit b n), (Z.testbit (Z.ones w) n); reflexivity.
Qed.

Lemma fnv_mul_inj x y : u64 x -> u64 y ->
  wrap 64 (x * FNV_PRIME) = wrap 64 (y * FNV_PRIME) -> x = y.
Proof.
  unfold wrap. intros Hx Hy E.
  assert (G : forall z, u64 z -> (z * FNV_PRIME mod 2 ^ 64) * FNV_INV mod 2 ^ 64 = z).
  { intros z Hz. rewrite Z.mul_mod_idemp_l, <- Z.mul_assoc by discriminate.
    rewrite <- Z.mul_mod_idemp_r, fnv_prime_inv, Z.mul_1_r by discriminate.
    apply Z.mod_small. exact Hz. }
  rewrite <- (G x), <- (G y), E by auto. reflexivity.
Qed.

Lemma byte_fits64 b : u64 (Z_of_byte b).
Proof. pose proof (Z_of_byte_bound b). split; lia. Qed.

Lemma fnv_step_inj h1 h2 b1 b2 :
  u64 h1 -> u64 h2 -> fnv_step h1 b1 = fnv_step h2 b2 ->
  Z.lxor h1 (Z_of_byte b1) = Z.lxor h2 (Z_of_byte b2).
Proof. intros. apply fnv_mul_inj; auto; apply lxor_fits; auto using byte_fits64; lia. Qed.

Lemma lxor_cancel_r a b c : Z.lxor a c = Z.lxor b c -> a = b.
Proof.
  intros E. apply (f_equal (fun z => Z.lxor z c)) in E.
  now rewrite !Z.lxor_assoc, !Z.lxor_nilpotent, !Z.lxor_0_r in E.
Qed.

Lemma Fnv1a_write_inj h1 h2 bs :
  u64 h1 -> u64 h2 -> Fnv1a_write h1 bs = Fnv1a_write h2 bs -> h1 = h2.
Proof.
  revert h1 h2. induction bs as [|b bs IH]; intros h1 h2 H1 H2 E; [exact E|].
  apply IH in E; auto using fnv_step_fits.
  apply fnv_step_inj in E; auto. eapply lxor_cancel_r; eauto.
Qed.

(** Hashing never leaves 64 bits, and two inputs of the same length that
    differ in a single byte never collide: the xor-and-multiply step is
    injective in the state, so the difference survives to the end. *)
Theorem fnv_single_byte_change h pre b1 b2 post :
  u64 h ->
  u64 (Fnv1a_write h (pre ++ b1 :: post)) /\
  (Fnv1a_write h (pre ++ b1 :: post) = Fnv1a_write h (pre ++ b2 :: post) -> b1 = b2).
Proof.
  intros Hh. split; [now apply Fnv1a_write_fits|].
  rewrite !Fnv1a_write_app. change (Fnv1a_write ?h (?b :: ?l)) with (Fnv1a_write (fnv_step h b) l).
  intros E%Fnv1a_write_inj; [|apply fnv_step_fits..].
  apply fnv_step_inj in E; [|now apply Fnv1a_write_fits..].
  rewrite !(Z.lxor_comm (Fnv1a_write h pre)) in E. apply lxor_cancel_r in E.
  rewrite <- (byte_of_Z_of_byte b1), E. apply byte_of_Z_of_byte.
Qed.

Lemma fnv_single_byte_change_witness :
  u64 (Fnv1a_write Fnv1a_new [x01; x02]).
Proof.
  apply (fnv_single_byte_change Fnv1a_new [x01] x02 x03 []). split; vm_compute; congruence.
Defined.
