(* ===== verification/KScore.v ===== *)
(** * Logarithmic rendezvous scores
      ([crates/tartine-kcore/src/placement.rs], lines 83-125)

    The Q16 fixed-point [-log2] and the score, at machine width: every shift
    and sum is wrapped, and the lemmas show that no wrap ever happens. *)

From Stdlib Require Import ZArith Lia.
From S2P Require Import Prelude.

(** [u64::leading_zeros]. *)
Definition leading_zeros64 (x : Z) : Z := if x =? 0 then 64 else 63 - Z.log2 x.

(** One round of square-and-shift: the state is [(m, frac)]. *)
Definition log2_round (st : Z * Z) : Z * Z :=
  let '(m, frac) := st in
  let sq := wrap 128 (m * m) in
  let frac := wrap 64 (Z.shiftl frac 1) in
  if 2 ^ 65 <=? sq then (as_u64 (Z.shiftr sq 33), Z.lor frac 1)
  else (as_u64 (Z.shiftr sq 32), frac).

Definition neg_log2_q16 (h : Z) : Z :=
  if h =? u64_max then 0 else
  let x := h + 1 in
  let int_part := 63 - leading_zeros64 x in
  let m := if 32 <=? int_part then Z.shiftr x (int_part - 32)
           else wrap 64 (Z.shiftl x (32 - int_part)) in
  let '(_, frac) := Nat.iter 16 log2_round (m, 0) in
  wrap 64 (Z.shiftl 64 16 - Z.lor (wrap 64 (Z.shiftl int_part 16)) frac).

Definition score_from (raw weight : Z) : Z :=
  let denom := wrap 64 (neg_log2_q16 raw + 1) in
  wrap 128 (Z.shiftl (Z.max weight 1) 64) / denom.

Example neg_log2_q16_sanity :
  neg_log2_q16 u64_max = 0 /\ neg_log2_q16 0 = 64 * 2 ^ 16 /\ neg_log2_q16 (2 ^ 63 - 1) = 2 ^ 16.
Proof. vm_compute. auto. Qed.

(** ** The round without wrap-around, at any precision

    [log2_step P] is the round on a mantissa with [P] fractional bits; the
    source's round is the case [P = 32]. *)
Definition log2_step (P : Z) (st : Z * Z) : Z * Z :=
  let '(m, f) := st in
  if 2 ^ (2 * P + 1) <=? m * m then (m * m / 2 ^ (P + 1), 2 * f + 1)
  else (m * m / 2 ^ P, 2 * f).

(** A normalised mantissa. *)
Definition normal (P m : Z) : Prop := 2 ^ P <= m < 2 ^ (P + 1).

(** The order that the fractional bits and the mantissa are read in. *)
Definition log_le (a b : Z * Z) : Prop := a.2 < b.2 \/ (a.2 = b.2 /\ a.1 <= b.1).

(** The mantissa the loop starts from, for [x] of integer part [i]. *)
Definition mantissa (P x i : Z) : Z :=
  if P <=? i then x / 2 ^ (i - P) else x * 2 ^ (P - i).

Lemma log2_step_spec P m f m' f' :
  0 <= P -> normal P m -> log2_step P (m, f) = (m', f') ->
  normal P m' /\ exists b, (b = 0 \/ b = 1) /\ f' = 2 * f + b /\
    m' * 2 ^ (P + b) <= m * m < (m' + 1) * 2 ^ (P + b).
Proof.
  unfold normal, log2_step. intros HP Hm.
  replace (2 * P + 1) with (P + (P + 1)) by lia.
  pose proof (Z.pow_pos_nonneg 2 P ltac:(lia) HP) as Hp.
  rewrite (Z.pow_add_r 2 P (P + 1)) by lia. rewrite Z.pow_add_r, Z.pow_1_r in * by lia.
  set (q := 2 ^ P) in *. destruct (Z.leb_spec (q * (q * 2)) (m * m)) as [Hb|Hb]; intros [= <- <-].
  - pose proof (Z.div_mod (m * m) (q * 2) ltac:(lia)).
    pose proof (Z.mod_pos_bound (m * m) (q * 2) ltac:(lia)).
    split; [|exists 1; rewrite Z.pow_add_r, Z.pow_1_r by lia; fold q; split; [auto|]; split; nia].
    split; [apply Z.div_le_lower_bound; nia|apply Z.div_lt_upper_bound; nia].
  - pose proof (Z.div_mod (m * m) q ltac:(lia)). pose proof (Z.mod_pos_bound (m * m) q ltac:(lia)).
    split; [|exists 0; rewrite (Z.add_0_r P); fold q; split; [auto|]; split; nia].
    split; [apply Z.div_le_lower_bound; nia|apply Z.div_lt_upper_bound; nia].
Qed.

Lemma log2_step_mono P m1 f1 m2 f2 :
  0 <= P -> normal P m1 -> normal P m2 ->
  log_le (m1, f1) (m2, f2) -> log_le (log2_step P (m1, f1)) (log2_step P (m2, f2)).
Proof.
  intros HP [Hl1 Hu1] [Hl2 Hu2] H. unfold log_le, log2_step in *.
  pose proof (Z.pow_pos_nonneg 2 P ltac:(lia) HP).
  pose proof (Z.pow_pos_nonneg 2 (P + 1) ltac:(lia) ltac:(lia)).
  destruct (Z.leb_spec (2 ^ (2 * P + 1)) (m1 * m1));
    destruct (Z.leb_spec (2 ^ (2 * P + 1)) (m2 * m2)); simpl in *; try (lia || nia).
  - destruct H as [H|[-> H]]; [lia|right; split; [lia|]]. apply Z.div_le_mono; nia.
  - destruct H as [H|[-> H]]; [lia|right; split; [lia|]]. apply Z.div_le_mono; nia.
Qed.

Lemma log2_steps_mono P n s1 s2 :
  0 <= P -> normal P s1.1 -> normal P s2.1 -> log_le s1 s2 ->
  log_le (Nat.iter n (log2_step P) s1) (Nat.iter n (log2_step P) s2) /\
  normal P (Nat.iter n (log2_step P) s1).1 /\ normal P (Nat.iter n (log2_step P) s2).1.
Proof.
  intros HP H1 H2 Hle. induction n as [|n (IH & I1 & I2)]; simpl; [auto|].
  destruct (Nat.iter n (log2_step P) s1) as [m1 f1], (Nat.iter n (log2_step P) s2) as [m2 f2].
  split; [apply log2_step_mono; auto|].
  destruct (log2_step P (m1, f1)) as [] eqn:E1, (log2_step P (m2, f2)) as [] eqn:E2.
  apply log2_step_spec in E1, E2; simpl in *; intuition.
Qed.

Lemma log2_steps_frac P n m :
  0 <= P -> normal P m ->
  normal P (Nat.iter n (log2_step P) (m, 0)).1 /\
  0 <= (Nat.iter n (log2_step P) (m, 0)).2 < 2 ^ Z.of_nat n.
Proof.
  intros HP Hm. induction n as [|n [IHm IHf]]; [simpl; split; [auto|lia]|].
  rewrite Nat2Z.inj_succ, Z.pow_succ_r by lia. rewrite ?Nat.iter_succ.
  destruct (Nat.iter n (log2_step P) (m, 0)) as [m1 f1].
  destruct (log2_step P (m1, f1)) as [m2 f2] eqn:E.
  apply log2_step_spec in E as (? & b & [-> | ->] & -> & _); cbn [fst snd] in *; auto; split; auto; lia.
Qed.

Lemma log2_steps_frac_mono P n m1 m2 :
  0 <= P -> normal P m1 -> normal P m2 -> m1 <= m2 ->
  (Nat.iter n (log2_step P) (m1, 0)).2 <= (Nat.iter n (log2_step P) (m2, 0)).2.
Proof.
  intros HP H1 H2 Hle.
  destruct (log2_steps_mono P n (m1, 0) (m2, 0)) as [[H|[H _]] _]; auto; [|lia..].
  right. auto.
Qed.

Lemma log2_round_eq m f n :
  normal 32 m -> 0 <= f < 2 ^ Z.of_nat n -> (n < 16)%nat ->
  log2_round (m, f) = log2_step 32 (m, f).
Proof.
  intros [Hl Hu] Hf Hn. unfold log2_round, log2_step.
  assert (2 ^ Z.of_nat n <= 2 ^ 16) by (apply Z.pow_le_mono_r; lia).
  change (2 ^ (32 + 1)) with (2 ^ 33) in *. change (2 * 32 + 1) with 65.
  rewrite (wrap_small 128) by (unfold fits; nia).
  rewrite Z.shiftl_mul_pow2, Z.pow_1_r, (Z.mul_comm f) by lia.
  rewrite (wrap_small 64 (2 * f)).
  2:{ unfold fits. lia. }
  unfold as_u64. rewrite !Z.shiftr_div_pow2 by lia.
  destruct (Z.leb_spec (2 ^ 65) (m * m)); rewrite (wrap_small 64);
    try (split; [apply Z.div_pos; nia|apply Z.div_lt_upper_bound; nia]); [|reflexivity].
  f_equal. rewrite <- Z.add_nocarry_lor; [reflexivity|].
  apply Z.bits_inj'; intros k Hk. rewrite Z.land_spec, Z.bits_0.
  destruct (Z.eq_dec k 0) as [->|Hne]; [now rewrite Z.testbit_even_0|].
  replace (Z.testbit 1 k) with false; [apply andb_false_r|].
  symmetry. apply (Z.bits_above_log2 1); [lia|]. change (Z.log2 1) with 0. lia.
Qed.

Lemma log2_rounds_eq m n :
  normal 32 m -> (n <= 16)%nat ->
  Nat.iter n log2_round (m, 0) = Nat.iter n (log2_step 32) (m, 0).
Proof.
  intros Hm Hn. induction n as [|n IH]; [reflexivity|]. rewrite ?Nat.iter_succ. rewrite IH by lia.
  pose proof (log2_steps_frac 32 n m ltac:(lia) Hm) as [H1 H2].
  destruct (Nat.iter n (log2_step 32) (m, 0)) as [m1 f1]. apply (log2_round_eq _ _ n); auto.
Qed.

Lemma mantissa_normal P x :
  0 <= P -> 0 < x -> normal P (mantissa P x (Z.log2 x)).
Proof.
  intros HP Hx. pose proof (Z.log2_spec x Hx) as [Hl Hu]. unfold Z.succ in Hu.
  set (i := Z.log2 x) in *. pose proof (Z.log2_nonneg x : 0 <= i) as Hi.
  unfold mantissa, normal. destruct (Z.leb_spec P i).
  - assert (0 < 2 ^ (i - P)) by (apply Z.pow_pos_nonneg; lia).
    split; [apply Z.div_le_lower_bound|apply Z.div_lt_upper_bound]; auto;
      rewrite <- Z.pow_add_r by lia.
    + replace (i - P + P) with i by lia. lia.
    + replace (i - P + (P + 1)) with (i + 1) by lia. lia.
  - assert (0 < 2 ^ (P - i)) by (apply Z.pow_pos_nonneg; lia).
    replace (2 ^ P) with (2 ^ i * 2 ^ (P - i)) by (rewrite <- Z.pow_add_r by lia; f_equal; lia).
    replace (2 ^ (P + 1)) with (2 ^ (i + 1) * 2 ^ (P - i))
      by (rewrite <- Z.pow_add_r by lia; f_equal; lia).
    nia.
Qed.

Lemma mantissa_mono P x1 x2 i : x1 <= x2 -> mantissa P x1 i <= mantissa P x2 i.
Proof.
  intros H. unfold mantissa. case_if.
  - destruct (Z.le_gt_cases 0 (i - P)) as [Hi|Hi].
    + apply Z.div_le_mono; [apply Z.pow_pos_nonneg|]; lia.
    + rewrite Z.pow_neg_r by lia. rewrite !Z.div_0_r. lia.
  - apply Z.mul_le_mono_nonneg_r; [apply Z.pow_nonneg|]; lia.
Qed.

(** The value of [-log2] without wrap-around: the integer part and the
    sixteen fractional bits subtracted from 64.0. *)
Definition frac_bits (x : Z) : Z :=
  (Nat.iter 16 (log2_step 32) (mantissa 32 x (Z.log2 x), 0)).2.
Definition log2_q16 (x : Z) : Z := Z.log2 x * 2 ^ 16 + frac_bits x.

Lemma frac_bits_bound x : 0 < x -> 0 <= frac_bits x < 2 ^ 16.
Proof.
  intros Hx. apply (log2_steps_frac 32 16); [lia|]. now apply mantissa_normal.
Qed.

Lemma neg_log2_q16_eq h :
  u64 h -> h <> u64_max -> neg_log2_q16 h = 2 ^ 22 - log2_q16 (h + 1).
Proof.
  unfold fits, u64_max. intros Hh Hne. unfold neg_log2_q16.
  replace (h =? u64_max) with false by (symmetry; apply Z.eqb_neq; unfold u64_max; lia).
  set (x := h + 1). assert (Hx : 0 < x < 2 ^ 64) by lia.
  assert (Hi : 63 - leading_zeros64 x = Z.log2 x).
  { unfold leading_zeros64. replace (x =? 0) with false by (symmetry; apply Z.eqb_neq; lia). lia. }
  pose proof (Z.log2_nonneg x) as Hi0.
  assert (Hi63 : Z.log2 x < 64) by (apply Z.log2_lt_pow2; lia).
  pose proof (mantissa_normal 32 x ltac:(lia) ltac:(lia)) as Hn.
  cbv zeta. rewrite Hi.
  replace (if 32 <=? Z.log2 x then _ else _) with (mantissa 32 x (Z.log2 x)).
  2:{ unfold mantissa in *. destruct (Z.leb_spec 32 (Z.log2 x)).
      - now rewrite Z.shiftr_div_pow2 by lia.
      - rewrite Z.shiftl_mul_pow2 by lia. rewrite wrap_small; [reflexivity|].
        unfold normal, fits in *. change (2 ^ (32 + 1)) with (2 ^ 33) in Hn. lia. }
  rewrite log2_rounds_eq by auto. pose proof (frac_bits_bound x ltac:(lia)) as Hf.
  unfold log2_q16, frac_bits in *.
  destruct (Nat.iter 16 (log2_step 32) _) as [m f]. cbn [snd] in *.
  rewrite !Z.shiftl_mul_pow2 by lia. rewrite (wrap_small 64 (_ * _)) by (unfold fits; lia).
  rewrite <- (Z.shiftl_mul_pow2 (Z.log2 x)) by lia.
  rewrite <- Z.add_nocarry_lor; [rewrite Z.shiftl_mul_pow2 by lia; apply wrap_small; unfold fits; lia|].
  apply Z.bits_inj'; intros k Hk. rewrite Z.land_spec, Z.bits_0, Z.shiftl_spec by lia.
  destruct (Z.lt_ge_cases k 16) as [Hk16|Hk16].
  - now rewrite Z.testbit_neg_r by lia.
  - rewrite <- (Z.mod_small f (2 ^ 16)) by lia. rewrite Z.mod_pow2_bits_high by lia.
    apply andb_false_r.
Qed.

Lemma log2_q16_bound x : 0 < x < 2 ^ 64 -> 0 <= log2_q16 x < 2 ^ 22.
Proof.
  intros Hx. pose proof (frac_bits_bound x ltac:(lia)). pose proof (Z.log2_nonneg x).
  assert (Z.log2 x < 64) by (apply Z.log2_lt_pow2; lia). unfold log2_q16. lia.
Qed.

Lemma log2_q16_mono x1 x2 : 0 < x1 -> x1 <= x2 -> log2_q16 x1 <= log2_q16 x2.
Proof.
  intros H1 H12. unfold log2_q16.
  pose proof (frac_bits_bound x1 ltac:(lia)). pose proof (frac_bits_bound x2 ltac:(lia)).
  pose proof (Z.log2_le_mono x1 x2 H12).
  destruct (Z.eq_dec (Z.log2 x1) (Z.log2 x2)) as [E|]; [|lia].
  enough (frac_bits x1 <= frac_bits x2) by lia. unfold frac_bits. rewrite <- E.
  pose proof (log2_steps_frac_mono 32 16 (mantissa 32 x1 (Z.log2 x1)) (mantissa 32 x2 (Z.log2 x1))) as L.
  apply L.
  - lia.
  - apply mantissa_normal; lia.
  - rewrite E. apply mantissa_normal; lia.
  - apply mantissa_mono. exact H12.
Qed.

Lemma neg_log2_q16_bound h :
  u64 h -> 0 <= neg_log2_q16 h <= 2 ^ 22 /\ (neg_log2_q16 h = 0 <-> h = u64_max).
Proof.
  intros Hh. destruct (Z.eq_dec h u64_max) as [->|Hne].
  - unfold neg_log2_q16. rewrite Z.eqb_refl. lia.
  - rewrite neg_log2_q16_eq by auto. unfold fits, u64_max in *.
    pose proof (log2_q16_bound (h + 1) ltac:(lia)). lia.
Qed.

Lemma neg_log2_q16_antitone h1 h2 :
  u64 h1 -> u64 h2 -> h1 <= h2 -> neg_log2_q16 h2 <= neg_log2_q16 h1.
Proof.
  intros H1 H2 Hle. destruct (Z.eq_dec h2 u64_max) as [->|Hne2].
  - pose proof (neg_log2_q16_bound h1 H1). unfold neg_log2_q16 at 1. rewrite Z.eqb_refl. lia.
  - assert (h1 <> u64_max) by (unfold fits, u64_max in *; lia).
    rewrite !neg_log2_q16_eq by auto. unfold fits in *.
    pose proof (log2_q16_mono (h1 + 1) (h2 + 1)). lia.
Qed.

(** ** Accuracy

    [A] stands for the exact power, [F * m * B] for the approximation the
    state stands for; one round squares both. *)
Lemma log2_lower_step A B F m m' P b q :
  0 <= F -> 0 <= B -> 0 <= m -> 0 <= P -> b = 0 \/ b = 1 -> q = 2 ^ P ->
  F * m * B <= A -> m' * 2 ^ (P + b) <= m * m ->
  F * F * 2 ^ b * m' * (B * B * q) <= A * A.
Proof.
  intros HF HB Hm HP Hb -> Hle Hsq.
  replace (F * F * 2 ^ b * m' * (B * B * 2 ^ P)) with ((F * B) * (F * B) * (m' * 2 ^ (P + b)))
    by (rewrite Z.pow_add_r by lia; ring).
  transitivity ((F * B) * (F * B) * (m * m)); [apply Z.mul_le_mono_nonneg_l; nia|].
  replace ((F * B) * (F * B) * (m * m)) with ((F * m * B) * (F * m * B)) by ring.
  apply Z.mul_le_mono_nonneg; nia.
Qed.

Lemma log2_upper_step A B F m m' b d d' W :
  0 <= A -> 0 < F -> 0 < B -> 0 < m -> W <= m' -> 0 < W -> 0 <= d -> 0 <= b -> W = 2 ^ 32 ->
  A * W < F * m * (W + d) * B -> m * m < (m' + 1) * 2 ^ (32 + b) ->
  (W + d) * (W + d) * (W + 1) <= W * W * (W + d') ->
  A * A * W < F * F * 2 ^ b * m' * (W + d') * (B * B * W).
Proof.
  intros HA HF HB Hm Hm' HW Hd Hb EW Hlt Hsq Hd'.
  assert (Hsq' : m * m * W <= m' * (W + 1) * (W * 2 ^ b)).
  { rewrite Z.pow_add_r, <- EW in Hsq by lia. pose proof (Z.pow_pos_nonneg 2 b ltac:(lia) Hb). nia. }
  assert (H1 : (A * W) * (A * W) < (F * m * (W + d) * B) * (F * m * (W + d) * B)) by (apply Z.mul_lt_mono_nonneg; nia).
  set (K := F * F * 2 ^ b * m' * (B * B * W)).
  pose proof (Z.pow_pos_nonneg 2 b ltac:(lia) Hb).
  assert (HK : 0 < K) by (unfold K; repeat apply Z.mul_pos_pos; lia).
  assert (H2 : (F * m * (W + d) * B) * (F * m * (W + d) * B) * W <= K * ((W + d) * (W + d) * (W + 1))).
  { replace ((F * m * (W + d) * B) * (F * m * (W + d) * B) * W)
      with ((F * F * (B * B) * ((W + d) * (W + d))) * (m * m * W)) by ring.
    replace (K * ((W + d) * (W + d) * (W + 1)))
      with ((F * F * (B * B) * ((W + d) * (W + d))) * (m' * (W + 1) * (W * 2 ^ b)))
      by (unfold K; ring).
    apply Z.mul_le_mono_nonneg_l; [repeat apply Z.mul_nonneg_nonneg; lia|exact Hsq']. }
  assert (H3 : K * ((W + d) * (W + d) * (W + 1)) <= K * (W * W * (W + d'))) by nia.
  replace (F * F * 2 ^ b * m' * (W + d') * (B * B * W)) with (K * (W + d')) by (unfold K; ring).
  apply (Z.mul_lt_mono_pos_r (W * W)); [nia|].
  replace (A * A * W * (W * W)) with ((A * W) * (A * W) * W) by ring.
  replace (K * (W + d') * (W * W)) with (K * (W * W * (W + d'))) by ring. nia.
Qed.

(** The relative error bound after [k] rounds, in units of [2^-32]. *)
Fixpoint err_bound (k : nat) : Z :=
  match k with
  | O => 1
  | S k' => let d := err_bound k' in
            ((2 ^ 32 + d) * (2 ^ 32 + d) * (2 ^ 32 + 1)) / (2 ^ 32 * 2 ^ 32) - 2 ^ 32 + 1
  end.

(** The scale of the approximation after [k] rounds at precision [P]. *)
Fixpoint log_scale (P i : Z) (k : nat) : Z :=
  match k with O => 2 ^ i | S k' => log_scale P i k' * log_scale P i k' * 2 ^ P end.

Lemma log_scale_eq P i k :
  0 <= P -> 0 <= i -> log_scale P i k = 2 ^ (i * 2 ^ Z.of_nat k + P * (2 ^ Z.of_nat k - 1)).
Proof.
  intros HP Hi. induction k as [|k IH]; simpl log_scale.
  - simpl Z.of_nat. f_equal. lia.
  - rewrite IH, Nat2Z.inj_succ, Z.pow_succ_r by lia.
    pose proof (Z.pow_pos_nonneg 2 (Z.of_nat k) ltac:(lia) ltac:(lia)).
    rewrite <- !Z.pow_add_r by nia. f_equal. ring.
Qed.

(** Repeated squaring. *)
Fixpoint sqr_iter (y : Z) (k : nat) : Z :=
  match k with O => y | S k' => sqr_iter y k' * sqr_iter y k' end.

Lemma sqr_iter_eq y k : sqr_iter y k = y ^ (2 ^ Z.of_nat k).
Proof.
  induction k as [|k IH]; cbn [sqr_iter].
  - change (2 ^ Z.of_nat 0) with 1. now rewrite Z.pow_1_r.
  - rewrite IH, Nat2Z.inj_succ, Z.pow_succ_r by lia.
    pose proof (Z.pow_pos_nonneg 2 (Z.of_nat k) ltac:(lia) ltac:(lia)).
    rewrite <- Z.pow_add_r by lia. f_equal. lia.
Qed.

Lemma sqr_iter_nonneg y k : 0 <= y -> 0 <= sqr_iter y k.
Proof. induction k; simpl; nia. Qed.

Lemma log_scale_pos P i k : 0 <= P -> 0 <= i -> 0 < log_scale P i k.
Proof.
  intros. rewrite log_scale_eq by auto. apply Z.pow_pos_nonneg; [lia|].
  pose proof (Z.pow_pos_nonneg 2 (Z.of_nat k) ltac:(lia) ltac:(lia)). nia.
Qed.

Lemma mantissa_bracket P x :
  0 <= P -> 0 < x ->
  mantissa P x (Z.log2 x) * 2 ^ Z.log2 x <= x * 2 ^ P
    < (mantissa P x (Z.log2 x) + 1) * 2 ^ Z.log2 x.
Proof.
  intros HP Hx. pose proof (Z.log2_nonneg x). set (i := Z.log2 x) in *. unfold mantissa.
  destruct (Z.leb_spec P i).
  - replace (2 ^ i) with (2 ^ (i - P) * 2 ^ P) by (rewrite <- Z.pow_add_r by lia; f_equal; lia).
    set (q := 2 ^ (i - P)). assert (0 < q) by (apply Z.pow_pos_nonneg; lia).
    assert (0 < 2 ^ P) by (apply Z.pow_pos_nonneg; lia).
    pose proof (Z.div_mod x q ltac:(lia)). pose proof (Z.mod_pos_bound x q ltac:(lia)). nia.
  - replace (2 ^ P) with (2 ^ (P - i) * 2 ^ i) by (rewrite <- Z.pow_add_r by lia; f_equal; lia).
    assert (0 < 2 ^ i) by (apply Z.pow_pos_nonneg; lia). nia.
Qed.

Lemma log2_lower P x k :
  0 <= P -> 0 < x ->
  let st := Nat.iter k (log2_step P) (mantissa P x (Z.log2 x), 0) in
  2 ^ st.2 * st.1 * log_scale P (Z.log2 x) k <= sqr_iter (x * 2 ^ P) k.
Proof.
  intros HP Hx. pose proof (Z.log2_nonneg x) as Hi.
  pose proof (mantissa_normal P x HP Hx) as Hn. cbv zeta.
  induction k as [|k IH].
  - pose proof (mantissa_bracket P x HP Hx). simpl. lia.
  - rewrite Nat.iter_succ. cbn [sqr_iter log_scale].
    pose proof (log2_steps_frac P k _ HP Hn) as [Hk Hf].
    pose proof (log_scale_pos P (Z.log2 x) k HP Hi).
    destruct (Nat.iter k (log2_step P) _) as [m f]. cbn [fst snd] in *.
    destruct (log2_step P (m, f)) as [m' f'] eqn:E. cbn [fst snd].
    apply log2_step_spec in E as (_ & b & Hb & -> & Hsq); auto.
    replace (2 ^ (2 * f + b)) with (2 ^ f * 2 ^ f * 2 ^ b)
      by (rewrite <- !Z.pow_add_r by lia; f_equal; lia).
    destruct Hk. pose proof (Z.pow_nonneg 2 P). pose proof (Z.pow_nonneg 2 f).
    apply log2_lower_step with m P; auto; lia.
Qed.

Lemma err_bound_step k :
  0 <= err_bound k ->
  (2 ^ 32 + err_bound k) * (2 ^ 32 + err_bound k) * (2 ^ 32 + 1)
    <= 2 ^ 32 * 2 ^ 32 * (2 ^ 32 + err_bound (S k)) /\ 0 <= err_bound (S k).
Proof.
  intros Hd. cbn [err_bound]. set (d := err_bound k) in *. set (W := 2 ^ 32).
  assert (0 < W) by reflexivity.
  pose proof (Z.div_mod ((W + d) * (W + d) * (W + 1)) (W * W) ltac:(lia)).
  pose proof (Z.mod_pos_bound ((W + d) * (W + d) * (W + 1)) (W * W) ltac:(lia)).
  set (Q := (W + d) * (W + d) * (W + 1) / (W * W)) in *.
  assert (W <= Q) by (apply Z.div_le_lower_bound; nia). nia.
Qed.

Lemma log2_upper x k :
  0 < x ->
  let st := Nat.iter k (log2_step 32) (mantissa 32 x (Z.log2 x), 0) in
  0 <= err_bound k /\
  sqr_iter (x * 2 ^ 32) k * 2 ^ 32
    < 2 ^ st.2 * st.1 * (2 ^ 32 + err_bound k) * log_scale 32 (Z.log2 x) k.
Proof.
  intros Hx. pose proof (Z.log2_nonneg x) as Hi.
  pose proof (mantissa_normal 32 x ltac:(lia) Hx) as Hn. cbv zeta.
  induction k as [|k [Hd IH]].
  - pose proof (mantissa_bracket 32 x ltac:(lia) Hx) as [_ Hb]. destruct Hn as [Hn _].
    assert (0 < 2 ^ Z.log2 x) by (apply Z.pow_pos_nonneg; lia).
    split; [simpl; lia|]. cbn [sqr_iter log_scale err_bound]. cbn [Nat.iter nat_rect fst snd].
    set (W := 2 ^ 32) in *. set (q := 2 ^ Z.log2 x) in *. rewrite Z.pow_0_r. nia.
  - destruct (err_bound_step k Hd) as [Hs Hd']. split; [exact Hd'|].
    rewrite Nat.iter_succ. cbn [sqr_iter log_scale].
    pose proof (log2_steps_frac 32 k _ ltac:(lia) Hn) as [Hk Hf].
    pose proof (log_scale_pos 32 (Z.log2 x) k ltac:(lia) Hi).
    destruct (Nat.iter k (log2_step 32) _) as [m f]. cbn [fst snd] in *.
    destruct (log2_step 32 (m, f)) as [m' f'] eqn:E. cbn [fst snd].
    apply log2_step_spec in E as (Hm' & b & Hb & -> & Hsq); auto; [|lia].
    replace (2 ^ (2 * f + b)) with (2 ^ f * 2 ^ f * 2 ^ b)
      by (rewrite <- !Z.pow_add_r by lia; f_equal; lia).
    destruct Hk, Hm'. pose proof (sqr_iter_nonneg (x * 2 ^ 32) k ltac:(lia)).
    pose proof (Z.pow_pos_nonneg 2 f ltac:(lia) ltac:(lia)).
    apply log2_upper_step with m (err_bound k); auto; lia.
Qed.

(** The approximation after [k] rounds brackets the exact power. *)
Definition log2_approx (P x : Z) (k : nat) : Z :=
  Z.log2 x * 2 ^ Z.of_nat k + (Nat.iter k (log2_step P) (mantissa P x (Z.log2 x), 0)).2.

Lemma log2_approx_lower P x k :
  0 <= P -> 0 < x -> 2 ^ log2_approx P x k <= x ^ (2 ^ Z.of_nat k).
Proof.
  intros HP Hx. pose proof (Z.log2_nonneg x) as Hi.
  pose proof (mantissa_normal P x HP Hx) as Hn.
  pose proof (log2_steps_frac P k _ HP Hn) as [[Hm _] Hf].
  pose proof (log2_lower P x k HP Hx) as L. cbv zeta in L.
  unfold log2_approx. set (st := Nat.iter k (log2_step P) _) in *. clearbody st.
  rewrite sqr_iter_eq, log_scale_eq in L by auto.
  assert (HN : 0 < 2 ^ Z.of_nat k) by (apply Z.pow_pos_nonneg; lia).
  set (N := 2 ^ Z.of_nat k) in *. clearbody N.
  rewrite Z.pow_mul_l, <- (Z.pow_mul_r 2 P) in L by lia.
  apply (Z.mul_le_mono_pos_r _ _ (2 ^ (P * N))); [apply Z.pow_pos_nonneg; nia|].
  etransitivity; [|exact L]. rewrite <- Z.pow_add_r by nia.
  replace (Z.log2 x * N + st.2 + P * N) with (st.2 + P + (Z.log2 x * N + P * (N - 1))) by ring.
  rewrite !(Z.pow_add_r 2 (st.2 + P)), (Z.pow_add_r 2 st.2) by nia.
  apply Z.mul_le_mono_nonneg_r; [apply Z.pow_nonneg; lia|].
  apply Z.mul_le_mono_nonneg_l; [apply Z.pow_nonneg; lia|exact Hm].
Qed.

Lemma log2_approx_upper x k :
  0 < x -> err_bound k <= 2 ^ 32 -> x ^ (2 ^ Z.of_nat k) < 2 ^ (log2_approx 32 x k + 2).
Proof.
  intros Hx Hd. pose proof (Z.log2_nonneg x) as Hi.
  pose proof (mantissa_normal 32 x ltac:(lia) Hx) as Hn.
  pose proof (log2_steps_frac 32 k _ ltac:(lia) Hn) as [[Hm0 Hm] Hf].
  pose proof (log2_upper x k Hx) as [Hd0 L].
  unfold log2_approx. set (st := Nat.iter k (log2_step 32) _) in *. clearbody st.
  rewrite sqr_iter_eq, log_scale_eq in L by lia.
  assert (HN : 0 < 2 ^ Z.of_nat k) by (apply Z.pow_pos_nonneg; lia).
  set (N := 2 ^ Z.of_nat k) in *. clearbody N.
  set (W := 2 ^ 32 + err_bound k) in *. assert (HW : 0 <= W <= 2 ^ 33) by lia. clearbody W.
  change (2 ^ (32 + 1)) with (2 ^ 33) in Hm.
  rewrite Z.pow_mul_l, <- (Z.pow_mul_r 2 32) in L by lia.
  apply (Z.mul_lt_mono_pos_r (2 ^ (32 * N) * 2 ^ 32)).
  { apply Z.mul_pos_pos; apply Z.pow_pos_nonneg; lia. }
  rewrite Z.mul_assoc. eapply Z.lt_le_trans; [exact L|].
  rewrite <- !Z.pow_add_r by lia.
  replace (Z.log2 x * N + st.2 + 2 + (32 * N + 32))
    with (st.2 + 66 + (Z.log2 x * N + 32 * (N - 1))) by ring.
  rewrite !(Z.pow_add_r 2 (st.2 + 66)), (Z.pow_add_r 2 st.2) by nia.
  apply Z.mul_le_mono_nonneg_r; [apply Z.pow_nonneg; lia|].
  rewrite <- Z.mul_assoc. apply Z.mul_le_mono_nonneg_l; [apply Z.pow_nonneg; lia|].
  change (2 ^ 66) with (2 ^ 33 * 2 ^ 33). apply Z.mul_le_mono_nonneg; lia.
Qed.

Lemma log2_q16_approx x : log2_q16 x = log2_approx 32 x 16.
Proof. reflexivity. Qed.

(** ** Scores *)

Lemma score_from_eq r w :
  u64 r -> u32 w -> score_from r w = Z.max w 1 * 2 ^ 64 / (neg_log2_q16 r + 1).
Proof.
  intros Hr Hw. pose proof (neg_log2_q16_bound r Hr) as [Hb _]. unfold score_from, fits in *.
  rewrite Z.shiftl_mul_pow2 by lia. rewrite !wrap_small; [reflexivity|..]; unfold fits; lia.
Qed.

Lemma score_from_fits r w : u64 r -> u32 w -> u128 (score_from r w).
Proof.
  intros Hr Hw. rewrite score_from_eq by auto.
  pose proof (neg_log2_q16_bound r Hr) as [Hb _]. unfold fits in *. split.
  - apply Z.div_pos; lia.
  - apply Z.div_lt_upper_bound; [lia|]. nia.
Qed.

Lemma score_from_pos r w : u64 r -> u32 w -> 0 < score_from r w.
Proof.
  intros Hr Hw. rewrite score_from_eq by auto.
  pose proof (neg_log2_q16_bound r Hr) as [Hb _]. unfold fits in *.
  apply Z.div_str_pos. lia.
Qed.

(** The score is a positive 128-bit number, computed without overflow, and
    it is monotone: a larger hash draw or a larger weight never lowers it. *)
Theorem score_from_monotone r1 r2 w1 w2 :
  u64 r1 -> u64 r2 -> u32 w1 -> u32 w2 -> r1 <= r2 -> w1 <= w2 ->
  0 < score_from r1 w1 <= score_from r2 w2 /\ score_from r2 w2 < 2 ^ 128.
Proof.
  intros Hr1 Hr2 Hw1 Hw2 Hr Hw. pose proof (score_from_fits r2 w2 Hr2 Hw2) as [_ Hf].
  split; [split|exact Hf]; [now apply score_from_pos|]. rewrite !score_from_eq by auto.
  pose proof (neg_log2_q16_antitone r1 r2 Hr1 Hr2 Hr).
  pose proof (neg_log2_q16_bound r1 Hr1) as [Hb1 _].
  pose proof (neg_log2_q16_bound r2 Hr2) as [Hb2 _].
  transitivity (Z.max w2 1 * 2 ^ 64 / (neg_log2_q16 r1 + 1)).
  - apply Z.div_le_mono; [lia|]. unfold fits in *. lia.
  - apply Z.div_le_compat_l; unfold fits in *; lia.
Qed.

(** C28: the fixed-point logarithm is right to within two units in the last
    place.  With [L] the Q16 value of [log2 (h + 1)] that the code subtracts
    from 64.0, [L <= 65536 * log2 (h + 1) < L + 2], stated on exact integer
    powers; the result lies in [0, 64.0], is 0 only for the largest hash, and
    never increases with the hash. *)
Theorem neg_log2_q16_accurate h :
  u64 h -> h <> u64_max ->
  let L := 2 ^ 22 - neg_log2_q16 h in
  2 ^ L <= (h + 1) ^ (2 ^ 16) < 2 ^ (L + 2) /\
  0 < neg_log2_q16 h <= 2 ^ 22 /\
  (forall h', u64 h' -> h <= h' -> neg_log2_q16 h' <= neg_log2_q16 h).
Proof.
  intros Hh Hne L. assert (EL : L = log2_approx 32 (h + 1) 16).
  { unfold L. rewrite neg_log2_q16_eq, log2_q16_approx by auto. lia. }
  assert (Hx : 0 < h + 1) by (unfold fits in Hh; lia).
  split; [|split].
  - rewrite EL. change (2 ^ 16) with (2 ^ Z.of_nat 16). split.
    + apply log2_approx_lower; lia.
    + apply log2_approx_upper; [exact Hx|]. vm_compute. congruence.
  - pose proof (neg_log2_q16_bound h Hh). lia.
  - intros h' Hh' Hle. now apply neg_log2_q16_antitone.
Qed.

Lemma neg_log2_q16_accurate_witness : 0 < neg_log2_q16 41 <= 2 ^ 22.
Proof.
  apply (neg_log2_q16_accurate 41); [unfold fits; lia|]. vm_compute. congruence.
Defined.

(** The sixteen fractional bits are not exact to the last bit, which the
    comment above [neg_log2_q16] claims: the mantissa is truncated at every
    squaring, and for this hash the true logarithm is at least one unit higher
    than the value used. *)
Theorem neg_log2_q16_not_exact :
  exists h, u64 h /\ h <> u64_max /\
    2 ^ (2 ^ 22 - neg_log2_q16 h + 1) <= (h + 1) ^ (2 ^ 16).
Proof.
  exists 3297789071568119189. split; [unfold fits; lia|]. split; [vm_compute; congruence|].
  assert (E : 2 ^ 22 - neg_log2_q16 3297789071568119189 + 1
              = log2_approx 96 (3297789071568119189 + 1) 16) by (vm_compute; reflexivity).
  rewrite E. change (2 ^ 16) with (2 ^ Z.of_nat 16). apply log2_approx_lower; lia.
Qed.
