(* ===== verification/KPlacement.v ===== *)
(** * Rendezvous placement of the kernel core
      ([crates/tartine-kcore/src/placement.rs])

    [hrw_select_one], [hrw_select] and [place_redundancy] are the
    selection loops over the caller's arrays, with the stack scratch array
    [excluded] and its fill count.  An output array [&mut [u32]] is passed in
    and returned.  [rank_code] reads a rank tuple as one integer, so that the
    lexicographic comparison of the source is the order of [Z]; [topk] is the
    reference selection: sort the codes and keep the first ones. *)

From Stdlib Require Import ZArith Lia.
From stdpp Require Import sorting.
From S2P Require Import Prelude KHash KScore.

Record DiskCandidate := {
  disk_id_hi : Z;
  disk_id_lo : Z;
  weight_milli : Z;
  active : Z;
  class : Z;
}.

Definition CLASS_ANY : Z := 0.
Definition CLASS_HDD : Z := 1.
Definition CLASS_SSD : Z := 2.
Definition CLASS_NVME : Z := 3.

Definition MAX_SELECT : nat := 16.

Definition id_of (hi lo : Z) : Z := Z.lor (wrap 128 (Z.shiftl hi 64)) lo.

Definition hrw_score (hi lo key weight : Z) : Z :=
  score_from (hash_u128_u64 (id_of hi lo) key) weight.

Record Ranked := { score : Z; raw : Z; id_hi : Z; id_lo : Z; idx : Z }.

(** [(a.score, a.raw, a.id_hi, a.id_lo) > (b.score, ...)]: Rust compares
    tuples lexicographically. *)
Definition beats (a b : Ranked) : bool :=
  if score a =? score b then
    if raw a =? raw b then
      if id_hi a =? id_hi b then id_lo b <? id_lo a
      else id_hi b <? id_hi a
    else raw b <? raw a
  else score b <? score a.

Definition rank (key : Z) (i : nat) (c : DiskCandidate) : Ranked :=
  let id := id_of (disk_id_hi c) (disk_id_lo c) in
  let r := hash_u128_u64 id key in
  {| score := score_from r (weight_milli c); raw := r;
     id_hi := disk_id_hi c; id_lo := disk_id_lo c; idx := as_u32 (Z.of_nat i) |}.

(** The three [continue] guards of the selection loop. *)
Definition skipped (excluded : list Z) (required_class : Z) (i : nat) (c : DiskCandidate) : bool :=
  if active c =? 0 then true
  else if bool_decide (as_u32 (Z.of_nat i) ∈ excluded) then true
  else negb (required_class =? CLASS_ANY) && negb (class c =? required_class).

Fixpoint select_one_loop (key : Z) (excluded : list Z) (required_class : Z)
    (i : nat) (cs : list DiskCandidate) (best : option Ranked) : option Ranked :=
  match cs with
  | [] => best
  | c :: cs' =>
      if skipped excluded required_class i c then
        select_one_loop key excluded required_class (S i) cs' best
      else
        let entry := rank key i c in
        let best' := match best with
                     | None => Some entry
                     | Some b => if beats entry b then Some entry else best
                     end in
        select_one_loop key excluded required_class (S i) cs' best'
  end.

Definition hrw_select_one (candidates : list DiskCandidate) (key : Z)
    (excluded : list Z) (required_class : Z) : option Z :=
  idx <$> select_one_loop key excluded required_class 0 candidates None.

(** [while filled < want]: [fuel] is [want - filled], which every iteration
    that does not [break] lowers by one. *)
Fixpoint hrw_select_loop (candidates : list DiskCandidate) (key : Z) (fuel filled : nat)
    (excluded out : list Z) : list Z * nat :=
  match fuel with
  | O => (out, filled)
  | S fuel' =>
      match hrw_select_one candidates key (take filled excluded) CLASS_ANY with
      | Some i =>
          hrw_select_loop candidates key fuel' (S filled)
            (<[filled := i]> excluded) (<[filled := i]> out)
      | None => (out, filled)
      end
  end.

Definition hrw_select (candidates : list DiskCandidate) (key : Z) (out : list Z)
    : list Z * nat :=
  let want := (length out `min` MAX_SELECT)%nat in
  hrw_select_loop candidates key want 0 (replicate MAX_SELECT 0) out.

Record ReplicaSlotSpec := {
  required_class : Z;
  pinned : Z;
  pad : list Z;
  pinned_id_hi : Z;
  pinned_id_lo : Z;
}.

Definition UNPLACED : Z := u32_max.

(** The [find_map] of a pinned slot. *)
Fixpoint find_pinned (excluded : list Z) (hi lo : Z) (i : nat) (cs : list DiskCandidate)
    : option Z :=
  match cs with
  | [] => None
  | c :: cs' =>
      let already_used := bool_decide (as_u32 (Z.of_nat i) ∈ excluded) in
      if negb (active c =? 0) && negb already_used
         && (disk_id_hi c =? hi) && (disk_id_lo c =? lo)
      then Some (as_u32 (Z.of_nat i))
      else find_pinned excluded hi lo (S i) cs'
  end.

Definition choose_slot (candidates : list DiskCandidate) (key : Z) (excluded : list Z)
    (slot : ReplicaSlotSpec) : option Z :=
  if negb (pinned slot =? 0)
  then find_pinned excluded (pinned_id_hi slot) (pinned_id_lo slot) 0 candidates
  else hrw_select_one candidates key excluded (required_class slot).

Fixpoint place_loop (candidates : list DiskCandidate) (key : Z) (i filled_excl : nat)
    (excluded out : list Z) (slots : list ReplicaSlotSpec) : list Z :=
  match slots with
  | [] => out
  | slot :: slots' =>
      match choose_slot candidates key (take filled_excl excluded) slot with
      | Some j =>
          if (filled_excl <? MAX_SELECT)%nat then
            place_loop candidates key (S i) (S filled_excl)
              (<[filled_excl := j]> excluded) (<[i := j]> out) slots'
          else place_loop candidates key (S i) filled_excl excluded (<[i := j]> out) slots'
      | None => place_loop candidates key (S i) filled_excl excluded (<[i := UNPLACED]> out) slots'
      end
  end.

Definition place_redundancy (candidates : list DiskCandidate) (key : Z)
    (slots : list ReplicaSlotSpec) (out : list Z) : list Z * nat :=
  let n := (length slots `min` (length out `min` MAX_SELECT))%nat in
  (place_loop candidates key 0 0 (replicate MAX_SELECT 0) out (take n slots), n).

(** C ABI entry points: a null pointer is [None]. *)
Definition tartine_hrw_select (candidates : option (list DiskCandidate)) (key : Z)
    (out : option (list Z)) : option (list Z) * nat :=
  match candidates, out with
  | Some cs, Some o => let '(o', n) := hrw_select cs key o in (Some o', n)
  | _, _ => (out, 0%nat)
  end.

Definition tartine_place_redundancy (candidates : option (list DiskCandidate)) (key : Z)
    (slots : option (list ReplicaSlotSpec)) (out : option (list Z)) : option (list Z) * nat :=
  match candidates, slots, out with
  | Some cs, Some ss, Some o => let '(o', n) := place_redundancy cs key ss o in (Some o', n)
  | _, _, _ => (out, 0%nat)
  end.

Definition tartine_hash_key (inode seq : Z) : Z := hash_u128_u64 inode seq.

(** ** Specification *)

(** A candidate whose fields are values of their types. *)
Definition wf_candidate (c : DiskCandidate) : Prop :=
  u64 (disk_id_hi c) /\ u64 (disk_id_lo c) /\ u32 (weight_milli c) /\
  u8 (active c) /\ u8 (class c).

Definition disk_id (c : DiskCandidate) : Z := id_of (disk_id_hi c) (disk_id_lo c).

(** What the callers guarantee: well-formed candidates, no two with the same
    id, and indices that fit the [u32] they are reported in. *)
Definition wf_candidates (cs : list DiskCandidate) : Prop :=
  Forall wf_candidate cs /\ NoDup (disk_id <$> cs) /\ Zlen cs < u32_max.

(** A rank as one integer: the tuple's lexicographic order is this order. *)
Definition rank_code (r : Ranked) : Z :=
  ((score r * 2 ^ 64 + raw r) * 2 ^ 64 + id_hi r) * 2 ^ 64 + id_lo r.
Definition code (key : Z) (c : DiskCandidate) : Z := rank_code (rank key 0 c).

(** The disk a code stands for. *)
Definition code_id (z : Z) : Z := z mod 2 ^ 128.

Definition is_active (c : DiskCandidate) : Prop := active c <> 0.
#[export] Instance is_active_dec c : Decision (is_active c).
Proof. unfold is_active. apply _. Defined.

Definition class_ok (k : Z) (c : DiskCandidate) : Prop := k = CLASS_ANY \/ class c = k.
#[export] Instance class_ok_dec k c : Decision (class_ok k c).
Proof. unfold class_ok. apply _. Defined.

Definition geZ (a b : Z) : Prop := b <= a.
#[export] Instance geZ_dec a b : Decision (geZ a b).
Proof. unfold geZ. apply _. Defined.
#[export] Instance geZ_trans : Transitive geZ.
Proof. intros x y z. unfold geZ. lia. Qed.
#[export] Instance geZ_antisymm : AntiSymm (=) geZ.
Proof. intros x y. unfold geZ. lia. Qed.
#[export] Instance geZ_total : Total geZ.
Proof. intros x y. unfold geZ. lia. Qed.

(** The reference selection: the active disks by decreasing rank. *)
Definition ranking (key : Z) (cs : list DiskCandidate) : list Z :=
  merge_sort geZ (code key <$> filter is_active cs).
Definition topk (n : nat) (key : Z) (cs : list DiskCandidate) : list Z :=
  code_id <$> take n (ranking key cs).

(** The disk ids that a list of indices denotes. *)
Definition ids_at (cs : list DiskCandidate) (l : list Z) : list Z :=
  omap (fun i => disk_id <$> cs !! Z.to_nat i) l.


(** The scores are only compared below, never computed. *)
#[local] Opaque hash_u128_u64 score_from.

(** ** Ranks *)

Lemma id_of_eq hi lo : u64 hi -> u64 lo -> id_of hi lo = hi * 2 ^ 64 + lo.
Proof.
  intros Hhi Hlo. unfold id_of, fits in *. rewrite Z.shiftl_mul_pow2 by lia.
  rewrite wrap_small by (unfold fits; lia). rewrite <- Z.shiftl_mul_pow2 by lia.
  symmetry. apply Z.add_nocarry_lor, Z.bits_inj'. intros k Hk.
  rewrite Z.land_spec, Z.bits_0, Z.shiftl_spec by lia.
  destruct (Z.lt_ge_cases k 64).
  - now rewrite Z.testbit_neg_r by lia.
  - rewrite <- (Z.mod_small lo (2 ^ 64)), Z.mod_pow2_bits_high by lia. apply andb_false_r.
Qed.

(** A rank whose tuple fits its types, which is where codes are faithful. *)
Definition wf_rank (r : Ranked) : Prop :=
  u128 (score r) /\ u64 (raw r) /\ u64 (id_hi r) /\ u64 (id_lo r).

Lemma wf_rank_rank key i c : wf_candidate c -> wf_rank (rank key i c).
Proof.
  intros (H1 & H2 & H3 & _). unfold wf_rank, rank; simpl.
  pose proof (hash_u128_u64_fits (id_of (disk_id_hi c) (disk_id_lo c)) key).
  auto using score_from_fits.
Qed.

Lemma beats_code a b : wf_rank a -> wf_rank b -> beats a b = (rank_code b <? rank_code a).
Proof.
  intros (? & ? & ? & ?) (? & ? & ? & ?). unfold beats, rank_code, fits in *.
  symmetry. repeat case_if; rewrite ?Z.eqb_eq, ?Z.eqb_neq, ?Z.ltb_lt, ?Z.ltb_ge in *;
    first [lia | (destruct (Z.ltb_spec (id_lo b) (id_lo a)); [apply Z.ltb_lt|apply Z.ltb_ge]; lia)
      | (destruct (Z.ltb_spec (id_hi b) (id_hi a)); [apply Z.ltb_lt|apply Z.ltb_ge]; lia)
      | (destruct (Z.ltb_spec (raw b) (raw a)); [apply Z.ltb_lt|apply Z.ltb_ge]; lia)
      | (destruct (Z.ltb_spec (score b) (score a)); [apply Z.ltb_lt|apply Z.ltb_ge]; lia)].
Qed.

Lemma rank_code_rank key i c : rank_code (rank key i c) = code key c.
Proof. unfold code, rank_code, rank. cbn [score raw id_hi id_lo]. reflexivity. Qed.

Lemma rank_code_mod r :
  wf_rank r -> rank_code r mod 2 ^ 128 = id_hi r * 2 ^ 64 + id_lo r.
Proof.
  destruct r as [s r hi lo i]. unfold wf_rank, rank_code, fits. cbn [score raw id_hi id_lo].
  intros (? & ? & ? & ?).
  replace (((s * 2 ^ 64 + r) * 2 ^ 64 + hi) * 2 ^ 64 + lo)
    with ((hi * 2 ^ 64 + lo) + (s * 2 ^ 64 + r) * 2 ^ 128) by ring.
  rewrite Z_mod_plus_full. apply Z.mod_small. lia.
Qed.

Lemma code_id_code key c : wf_candidate c -> code_id (code key c) = disk_id c.
Proof.
  intros Hc. unfold code_id, code, disk_id.
  rewrite rank_code_mod by now apply wf_rank_rank.
  destruct Hc as (H1 & H2 & _). symmetry. now apply id_of_eq.
Qed.

(** ** Selecting one *)

Lemma skipped_false excl k i c :
  skipped excl k i c = false <->
  is_active c /\ (as_u32 (Z.of_nat i) ∉ excl) /\ class_ok k c.
Proof.
  unfold skipped, is_active, class_ok. destruct (Z.eqb_spec (active c) 0); [intuition congruence|].
  case_bool_decide; [intuition congruence|].
  destruct (Z.eqb_spec k CLASS_ANY), (Z.eqb_spec (class c) k); simpl; intuition congruence.
Qed.

Lemma select_one_loop_spec key excl k i cs best :
  Forall wf_candidate cs -> (forall b, best = Some b -> wf_rank b) ->
  match select_one_loop key excl k i cs best with
  | None => best = None /\ forall j c, cs !! j = Some c -> skipped excl k (i + j) c = true
  | Some b =>
      (best = Some b \/ exists j c, cs !! j = Some c /\ skipped excl k (i + j) c = false
                                    /\ b = rank key (i + j) c) /\
      (forall b0, best = Some b0 -> rank_code b0 <= rank_code b) /\
      (forall j c, cs !! j = Some c -> skipped excl k (i + j) c = false -> code key c <= rank_code b)
  end.
Proof.
  revert i best. induction cs as [|c cs IH]; intros i best Hwf Hb; simpl.
  - destruct best as [b|]; [split; [auto|]|split; [auto|]].
    + split; [intros ? [= ->]; lia|]. intros j c Hj. now rewrite lookup_nil in Hj.
    + intros j c Hj. now rewrite lookup_nil in Hj.
  - inversion Hwf as [|? ? Hc Hcs]; subst.
    assert (Hidx : forall j, (i + S j = S i + j)%nat) by (intros; lia).
    destruct (skipped excl k i c) eqn:Hsk.
    + specialize (IH (S i) best Hcs Hb). destruct (select_one_loop _ _ _ _ _ _) as [b|].
      * destruct IH as (H1 & H2 & H3). split; [|split; [exact H2|]].
        -- destruct H1 as [|(j & c' & ?)]; [auto|right]. exists (S j), c'. now rewrite Hidx.
        -- intros [|j] c'; simpl; [rewrite Nat.add_0_r; congruence|rewrite Hidx; apply H3].
      * destruct IH as [-> H]. split; [auto|]. intros [|j] c'; simpl.
        -- rewrite Nat.add_0_r. congruence.
        -- rewrite Hidx. apply H.
    + set (best' := match best with None => _ | Some b => _ end).
      assert (Hcase : exists b', best' = Some b' /\ wf_rank b' /\ code key c <= rank_code b' /\
        (best = Some b' \/ b' = rank key i c) /\
        forall b0, best = Some b0 -> rank_code b0 <= rank_code b').
      { pose proof (wf_rank_rank key i c Hc) as Hr. unfold best'. destruct best as [b0|].
        - specialize (Hb b0 eq_refl). rewrite beats_code, rank_code_rank by auto.
          destruct (Z.ltb_spec (rank_code b0) (code key c)).
          + exists (rank key i c). rewrite rank_code_rank. repeat split; auto; try lia; try apply Hr.
            intros ? [= <-]. lia.
          + exists b0. repeat split; auto; try apply Hb. intros ? [= <-]. lia.
        - exists (rank key i c). rewrite rank_code_rank. repeat split; auto; try lia; try apply Hr.
          discriminate. }
      destruct Hcase as (b' & -> & Hb' & Hc' & Hor & Hle).
      specialize (IH (S i) (Some b') Hcs). destruct (select_one_loop _ _ _ _ _ _) as [b|].
      * destruct IH as (H1 & H2 & H3); [intros ? [= <-]; auto|]. specialize (H2 b' eq_refl).
        split; [|split].
        -- destruct H1 as [E1|(j & c' & ?)].
           ++ injection E1 as ->. destruct Hor as [-> | ->]; [auto|right]. exists 0%nat, c. now rewrite Nat.add_0_r.
           ++ right. exists (S j), c'. now rewrite Hidx.
        -- intros b0 E. specialize (Hle b0 E). lia.
        -- intros [|j] c'; simpl; [intros [= <-] _; lia|rewrite Hidx; apply H3].
      * destruct IH as [? _]; [intros ? [= <-]; auto|discriminate].
Qed.

Lemma index_fits {A} (cs : list A) j c :
  Zlen cs < u32_max -> cs !! j = Some c -> as_u32 (Z.of_nat j) = Z.of_nat j /\ Z.of_nat j < u32_max.
Proof.
  intros Hl Hj%lookup_lt_Some. unfold Zlen, u32_max in *. split; [|lia].
  apply wrap_small. unfold fits. lia.
Qed.

(** The winner: eligible, and of maximal code among the eligible. *)
Lemma hrw_select_one_Some cs key excl k z :
  wf_candidates cs -> hrw_select_one cs key excl k = Some z ->
  exists j c, z = Z.of_nat j /\ cs !! j = Some c /\ is_active c /\ class_ok k c /\ (z ∉ excl) /\
    forall j' c', cs !! j' = Some c' -> is_active c' -> class_ok k c' -> Z.of_nat j' ∉ excl ->
      code key c' <= code key c.
Proof.
  intros (Hwf & _ & Hl) E. unfold hrw_select_one in E.
  pose proof (select_one_loop_spec key excl k 0 cs None Hwf) as H.
  destruct (select_one_loop _ _ _ _ _ _) as [b|]; [|discriminate].
  destruct H as (H1 & _ & H3); [discriminate|]. injection E as <-.
  destruct H1 as [|(j & c & Hj & Hs & ->)]; [discriminate|]. simpl in Hs.
  destruct (index_fits cs j c Hl Hj) as [Ej _]. exists j, c. simpl. rewrite Ej in *.
  apply skipped_false in Hs as (Ha & Hx & Hk). rewrite Ej in Hx. repeat split; auto.
  intros j' c' Hj' Ha' Hk' Hx'. apply (H3 j' c' Hj'). apply skipped_false.
  destruct (index_fits cs j' c' Hl Hj') as [Ej' _]. simpl. rewrite Ej'. auto.
Qed.

Lemma hrw_select_one_None cs key excl k :
  wf_candidates cs -> hrw_select_one cs key excl k = None ->
  forall j c, cs !! j = Some c -> is_active c -> class_ok k c -> Z.of_nat j ∈ excl.
Proof.
  intros (Hwf & _ & Hl) E j c Hj Ha Hk. unfold hrw_select_one in E.
  pose proof (select_one_loop_spec key excl k 0 cs None Hwf) as H.
  destruct (select_one_loop _ _ _ _ _ _) as [b|]; [discriminate|].
  destruct H as [_ H]; [discriminate|]. specialize (H j c Hj). simpl in H.
  destruct (decide (Z.of_nat j ∈ excl)) as [|Hx]; [assumption|].
  assert (skipped excl k j c = false); [|congruence].
  apply skipped_false. destruct (index_fits cs j c Hl Hj) as [-> _]. auto.
Qed.

(** ** Selecting several *)

(** The selection loop on lists: what it appends to what is chosen already. *)
Fixpoint hrw_list (n : nat) (cs : list DiskCandidate) (key : Z) (chosen : list Z) : list Z :=
  match n with
  | O => []
  | S n' =>
      match hrw_select_one cs key chosen CLASS_ANY with
      | Some i => i :: hrw_list n' cs key (chosen ++ [i])
      | None => []
      end
  end.

Lemma take_S_insert {A} (l : list A) i x :
  (i < length l)%nat -> take (S i) (<[i := x]> l) = take i l ++ [x].
Proof.
  intros H. rewrite (take_S_r _ _ x) by now apply list_lookup_insert_eq.
  now rewrite take_insert_ge.
Qed.

Lemma hrw_select_loop_list cs key fuel filled excl out :
  (filled + fuel <= length excl)%nat -> (filled + fuel <= length out)%nat ->
  let l := hrw_list fuel cs key (take filled excl) in
  let '(out', n) := hrw_select_loop cs key fuel filled excl out in
  n = (filled + length l)%nat /\ length out' = length out /\
  take n out' = take filled out ++ l /\ drop n out' = drop n out.
Proof.
  revert filled excl out. induction fuel as [|fuel IH]; intros filled excl out He Ho; simpl.
  - rewrite app_nil_r. auto with lia.
  - destruct (hrw_select_one _ _ _ _) as [i|] eqn:E; simpl; [|rewrite app_nil_r; auto with lia].
    specialize (IH (S filled) (<[filled := i]> excl) (<[filled := i]> out)).
    rewrite !length_insert, take_S_insert in IH by lia. simpl in IH.
    specialize (IH ltac:(lia) ltac:(lia)).
    destruct (hrw_select_loop _ _ _ _ _ _) as [out' n]. destruct IH as (-> & Hl & Ht & Hd).
    split; [lia|]. split; [exact Hl|]. rewrite take_S_insert in Ht by lia.
    split; [rewrite Ht, <- app_assoc; reflexivity|]. rewrite Hd. apply drop_insert_lt. lia.
Qed.

Lemma hrw_select_list cs key out :
  let want := (length out `min` MAX_SELECT)%nat in
  let l := hrw_list want cs key [] in
  let '(out', n) := hrw_select cs key out in
  n = length l /\ length out' = length out /\ take n out' = l /\ drop n out' = drop n out.
Proof.
  unfold hrw_select. cbv zeta.
  pose proof (hrw_select_loop_list cs key (length out `min` MAX_SELECT) 0
    (replicate MAX_SELECT 0) out) as H.
  rewrite length_replicate in H. specialize (H ltac:(lia) ltac:(lia)). cbv zeta in H.
  rewrite take_0 in H. destruct (hrw_select_loop _ _ _ _ _ _) as [out' n]. exact H.
Qed.

(** The codes of the eligible candidates not excluded, in list order. *)
Fixpoint remaining (key : Z) (excl : list Z) (k : Z) (i : nat) (cs : list DiskCandidate) : list Z :=
  match cs with
  | [] => []
  | c :: cs' =>
      let rest := remaining key excl k (S i) cs' in
      if skipped excl k i c then rest else code key c :: rest
  end.

Lemma remaining_nil key i cs : remaining key [] CLASS_ANY i cs = code key <$> filter is_active cs.
Proof.
  revert i. induction cs as [|c cs IH]; intros i; simpl; [reflexivity|]. rewrite IH, filter_cons.
  destruct (skipped [] CLASS_ANY i c) eqn:E.
  - rewrite decide_False; [reflexivity|]. intros Ha.
    assert (skipped [] CLASS_ANY i c = false); [|congruence].
    apply skipped_false. split; [auto|split; [set_solver|left; reflexivity]].
  - apply skipped_false in E as (Ha & _). now rewrite decide_True.
Qed.

Lemma elem_of_remaining key excl k i cs z :
  z ∈ remaining key excl k i cs <->
  exists j c, cs !! j = Some c /\ skipped excl k (i + j) c = false /\ z = code key c.
Proof.
  revert i. induction cs as [|c cs IH]; intros i; simpl.
  - split; [set_solver|]. intros (j & c & H & _). now rewrite lookup_nil in H.
  - assert (Hrest : z ∈ remaining key excl k (S i) cs <-> exists j c0, (c :: cs) !! S j = Some c0 /\
      skipped excl k (i + S j) c0 = false /\ z = code key c0).
    { rewrite IH. simpl. split; intros (j & c0 & ?); exists j, c0; now rewrite Nat.add_succ_r in *. }
    destruct (skipped excl k i c) eqn:E; rewrite ?elem_of_cons, Hrest.
    + split; [intros (j & c0 & ?); eauto|]. intros ([|j] & c0 & H1 & H2 & H3); [|eauto].
      rewrite Nat.add_0_r in H2. simpl in H1. congruence.
    + split.
      * intros [-> | (j & c0 & ?)]; [exists 0%nat, c; now rewrite Nat.add_0_r|eauto].
      * intros ([|j] & c0 & H1 & H2 & H3); [left; simpl in H1; congruence|right; eauto].
Qed.

Lemma skipped_snoc excl k i c x :
  skipped (excl ++ [x]) k i c = skipped excl k i c || bool_decide (as_u32 (Z.of_nat i) = x).
Proof.
  unfold skipped. destruct (active c =? 0); [reflexivity|].
  destruct (decide (as_u32 (Z.of_nat i) ∈ excl)) as [Hx|Hx].
  - rewrite !bool_decide_true by set_solver. reflexivity.
  - rewrite (bool_decide_false (_ ∈ excl)) by auto.
    destruct (decide (as_u32 (Z.of_nat i) = x)) as [E|E].
    + rewrite !bool_decide_true by set_solver. now rewrite orb_true_r.
    + rewrite !bool_decide_false by set_solver. now rewrite orb_false_r.
Qed.

(** Choosing candidate [j] takes exactly its code out of what remains. *)
Lemma remaining_choose key excl k i cs j c :
  Z.of_nat i + Zlen cs < u32_max -> cs !! j = Some c -> skipped excl k (i + j) c = false ->
  remaining key excl k i cs ≡ₚ
    code key c :: remaining key (excl ++ [Z.of_nat (i + j)]) k i cs.
Proof.
  revert i j. induction cs as [|c0 cs IH]; intros i j Hl Hj Hs; [now rewrite lookup_nil in Hj|].
  rewrite Zlen_cons in Hl. pose proof (Zlen_nonneg cs). unfold u32_max in Hl.
  assert (Hi : forall n, Z.of_nat n < 2 ^ 32 -> as_u32 (Z.of_nat n) = Z.of_nat n)
    by (intros; apply wrap_small; unfold fits; lia).
  cbn [remaining]. rewrite skipped_snoc, Hi by lia.
  destruct j as [|j]; simpl in Hj.
  - injection Hj as ->. rewrite Nat.add_0_r in *. rewrite Hs, bool_decide_true by auto. simpl.
    f_equiv. enough (forall m, (i < m)%nat -> Z.of_nat m + Zlen cs < 2 ^ 32 ->
      remaining key excl k m cs = remaining key (excl ++ [Z.of_nat i]) k m cs) as -> by (auto; lia).
    clear -Hi. induction cs as [|c1 cs IH]; intros m Hm Hlm; [reflexivity|].
    rewrite Zlen_cons in Hlm. pose proof (Zlen_nonneg cs). cbn [remaining].
    rewrite skipped_snoc, Hi, bool_decide_false, orb_false_r, IH by lia. reflexivity.
  - rewrite bool_decide_false, orb_false_r by lia.
    replace (i + S j)%nat with (S i + j)%nat in * by lia.
    specialize (IH (S i) j ltac:(unfold u32_max; lia) Hj Hs).
    destruct (skipped excl k i c0); [exact IH|]. rewrite IH. apply perm_swap.
Qed.

Lemma sort_max x R R' :
  (forall y, y ∈ R -> y <= x) -> R ≡ₚ x :: R' -> merge_sort geZ R = x :: merge_sort geZ R'.
Proof.
  intros Hmax HP. apply (StronglySorted_unique geZ).
  - apply StronglySorted_merge_sort; apply _.
  - constructor; [apply StronglySorted_merge_sort; apply _|].
    apply Forall_forall. intros y Hy. apply Hmax. rewrite HP, elem_of_cons. right.
    now rewrite merge_sort_Permutation in Hy.
  - now rewrite !merge_sort_Permutation.
Qed.

Lemma sort_perm l1 l2 : l1 ≡ₚ l2 -> merge_sort geZ l1 = merge_sort geZ l2.
Proof.
  intros H. apply (StronglySorted_unique geZ); try (apply StronglySorted_merge_sort; apply _).
  now rewrite !merge_sort_Permutation.
Qed.

(** An index that the loop may report: of an active candidate. *)
Definition valid_index (cs : list DiskCandidate) (z : Z) : Prop :=
  exists j c, z = Z.of_nat j /\ cs !! j = Some c /\ is_active c.

Definition codes_at (key : Z) (cs : list DiskCandidate) (l : list Z) : list Z :=
  omap (fun i => code key <$> cs !! Z.to_nat i) l.

Lemma hrw_list_spec n cs key chosen :
  wf_candidates cs ->
  let l := hrw_list n cs key chosen in
  codes_at key cs l = take n (merge_sort geZ (remaining key chosen CLASS_ANY 0 cs)) /\
  Forall (valid_index cs) l /\ NoDup l /\ (forall z, z ∈ l -> z ∉ chosen).
Proof.
  intros Hwf. cbv zeta. revert chosen. induction n as [|n IH]; intros chosen; cbn [hrw_list].
  - repeat split; [constructor..|]. set_solver.
  - destruct (hrw_select_one cs key chosen CLASS_ANY) as [z|] eqn:E.
    + apply hrw_select_one_Some in E as (j & c & -> & Hj & Ha & Hk & Hx & Hmax); [|auto].
      destruct Hwf as (Hf & Hn & Hl). destruct (index_fits cs j c Hl Hj) as [Ej _].
      assert (Hs : skipped chosen CLASS_ANY (0 + j) c = false)
        by (apply skipped_false; simpl; rewrite Ej; auto).
      pose proof (remaining_choose key chosen CLASS_ANY 0 cs j c ltac:(simpl; lia) Hj Hs) as HP.
      simpl (0 + j)%nat in HP. specialize (IH (chosen ++ [Z.of_nat j])) as (H1 & H2 & H3 & H4).
      rewrite (sort_max (code key c) _ _) by
        (try exact HP; intros y (j' & c' & Hj' & Hs' & ->)%elem_of_remaining;
         apply skipped_false in Hs' as (Ha' & Hx' & Hk');
         destruct (index_fits cs j' c' Hl Hj') as [Ej' _]; simpl in Hx'; rewrite Ej' in Hx'; eauto).
      split; [|split; [|split]].
      * unfold codes_at. simpl omap. rewrite Nat2Z.id, Hj. simpl. f_equal. exact H1.
      * constructor; [exists j, c; auto|exact H2].
      * constructor; [|exact H3]. intros Hin. apply (H4 _ Hin). set_solver.
      * intros z [-> | Hz]%elem_of_cons; [auto|]. specialize (H4 z Hz). set_solver.
    + pose proof (hrw_select_one_None cs key chosen CLASS_ANY Hwf E) as Hnone.
      replace (remaining key chosen CLASS_ANY 0 cs) with (@nil Z).
      * repeat split; [constructor..|]. set_solver.
      * destruct (remaining key chosen CLASS_ANY 0 cs) as [|z l] eqn:R; [reflexivity|].
        assert (Hz : z ∈ remaining key chosen CLASS_ANY 0 cs) by (rewrite R; left).
        apply elem_of_remaining in Hz as (j & c & Hj & Hs & _).
        apply skipped_false in Hs as (Ha & Hx & Hk). destruct Hwf as (_ & _ & Hl).
        destruct (index_fits cs j c Hl Hj) as [Ej _]. simpl in Hx. rewrite Ej in Hx.
        destruct (Hx (Hnone j c Hj Ha Hk)).
Qed.

Lemma codes_at_length key cs l :
  Forall (valid_index cs) l -> length (codes_at key cs l) = length l.
Proof.
  induction 1 as [|z l (j & c & -> & Hj & _) _ IH]; [reflexivity|].
  unfold codes_at in *. simpl. rewrite Nat2Z.id, Hj. simpl. f_equal. exact IH.
Qed.

Lemma ids_at_codes key cs l :
  Forall wf_candidate cs -> ids_at cs l = code_id <$> codes_at key cs l.
Proof.
  intros Hwf. induction l as [|z l IH]; [reflexivity|]. unfold ids_at, codes_at in *. simpl.
  destruct (cs !! Z.to_nat z) as [c|] eqn:E; simpl; [|exact IH].
  rewrite code_id_code by now apply (Forall_lookup_1 _ _ _ _ Hwf E). f_equal. exact IH.
Qed.

(** The whole selection against the reference. *)
Lemma hrw_select_topk cs key out out' n :
  wf_candidates cs -> hrw_select cs key out = (out', n) ->
  let want := (length out `min` MAX_SELECT)%nat in
  ids_at cs (take n out') = topk want key cs /\
  n = (want `min` length (filter is_active cs))%nat /\
  Forall (valid_index cs) (take n out') /\ NoDup (take n out') /\
  drop n out' = drop n out /\ length out' = length out.
Proof.
  intros Hwf E. cbv zeta. pose proof (hrw_select_list cs key out) as H. cbv zeta in H.
  rewrite E in H. destruct H as (Hn & Hlen & Ht & Hd).
  destruct (hrw_list_spec (length out `min` MAX_SELECT) cs key [] Hwf) as (H1 & H2 & H3 & _).
  rewrite remaining_nil in H1. rewrite Ht. repeat split; auto.
  - destruct Hwf as [Hf _]. rewrite (ids_at_codes key) by auto. rewrite H1. reflexivity.
  - rewrite Hn, <- (codes_at_length key cs) by auto. rewrite H1, length_take.
    now rewrite (Permutation_length (merge_sort_Permutation geZ _)), length_fmap.
Qed.

Lemma wf_candidates_perm cs cs' : cs ≡ₚ cs' -> wf_candidates cs -> wf_candidates cs'.
Proof.
  intros HP (H1 & H2 & H3). unfold wf_candidates, Zlen in *. split; [|split].
  - eapply Permutation_Forall; eauto.
  - assert (HP' : disk_id <$> cs ≡ₚ disk_id <$> cs') by now apply fmap_Permutation.
    now rewrite <- HP'.
  - now rewrite <- (Permutation_length HP).
Qed.

Lemma topk_perm n key cs cs' : cs ≡ₚ cs' -> topk n key cs = topk n key cs'.
Proof.
  intros HP. unfold topk, ranking. do 2 f_equal. apply sort_perm. now rewrite HP.
Qed.

(** Sorting one more element inserts it somewhere. *)
Lemma sort_insert x l :
  exists l1 l2, merge_sort geZ l = l1 ++ l2 /\ merge_sort geZ (x :: l) = l1 ++ x :: l2.
Proof.
  assert (Hx : x ∈ merge_sort geZ (x :: l)) by (rewrite merge_sort_Permutation; left).
  apply list_elem_of_split in Hx as (l1 & l2 & E). exists l1, l2. split; [|exact E].
  apply (StronglySorted_unique geZ).
  - apply StronglySorted_merge_sort; apply _.
  - assert (Hs : StronglySorted geZ (l1 ++ x :: l2))
      by (rewrite <- E; apply StronglySorted_merge_sort; apply _).
    clear E. induction l1 as [|y l1 IH]; simpl in *; inversion Hs as [|? ? Hs' Hy]; subst; [auto|].
    constructor; [auto|]. rewrite Forall_app, Forall_cons in *. tauto.
  - rewrite merge_sort_Permutation. apply (Permutation_cons_inv (a := x)).
    rewrite <- (merge_sort_Permutation geZ (x :: l)), E. now rewrite Permutation_middle.
Qed.

Lemma topk_cons_prefix n key c cs :
  wf_candidates (c :: cs) ->
  filter (fun id => id <> disk_id c) (topk n key (c :: cs)) `prefix_of` topk n key cs.
Proof.
  intros (Hwf & Hnd & _). inversion Hwf as [|? ? Hc Hcs]; subst. simpl in Hnd.
  apply NoDup_cons in Hnd as [Hni _].
  assert (Hne : forall z, z ∈ ranking key cs -> code_id z <> disk_id c).
  { intros z Hz. unfold ranking in Hz. rewrite merge_sort_Permutation in Hz.
    apply list_elem_of_fmap in Hz as (c' & -> & Hc'). apply list_elem_of_filter in Hc' as [_ Hc'].
    rewrite code_id_code by now apply (Forall_forall wf_candidate cs).
    intros E. apply Hni. rewrite <- E. now apply list_elem_of_fmap_2. }
  assert (Hf : forall l, l `prefix_of` ranking key cs ->
    filter (fun id => id <> disk_id c) (code_id <$> l) = code_id <$> l).
  { intros l [k E]. rewrite E in Hne. clear E. induction l as [|z l IH]; [reflexivity|].
    simpl. rewrite filter_cons_True by (apply Hne; set_solver). f_equal. apply IH. set_solver. }
  unfold topk. destruct (decide (is_active c)) as [Ha|Ha].
  - assert (E0 : ranking key (c :: cs)
                 = merge_sort geZ (code key c :: (code key <$> filter is_active cs)))
      by (unfold ranking; rewrite filter_cons_True by auto; reflexivity).
    destruct (sort_insert (code key c) (code key <$> filter is_active cs)) as (l1 & l2 & E1 & E2).
    change (ranking key cs = l1 ++ l2) in E1. rewrite E0, E2, E1 in *. clear E0 E1 E2.
    destruct (decide (n <= length l1)%nat) as [Hn|Hn].
    + rewrite (take_app_le l1 _ n Hn), (take_app_le l1 l2 n Hn), Hf; [reflexivity|].
      exists (drop n l1 ++ l2). now rewrite app_assoc, take_drop.
    + rewrite !take_app_ge by lia. destruct (n - length l1)%nat as [|k] eqn:Ek; [lia|]. simpl take at 1.
      rewrite fmap_app, filter_app. simpl. rewrite filter_cons_False.
      2:{ rewrite code_id_code by auto. tauto. }
      rewrite <- filter_app, <- fmap_app, Hf.
      * rewrite !fmap_app. apply prefix_app.
        exists (code_id <$> take 1 (drop k l2)). rewrite <- fmap_app. f_equal.
        replace (S k) with (k + 1)%nat by lia. now rewrite take_take_drop.
      * exists (drop k l2). now rewrite <- app_assoc, take_drop.
  - assert (E0 : ranking key (c :: cs) = ranking key cs)
      by (unfold ranking; now rewrite filter_cons_False).
    rewrite E0, Hf; [reflexivity|]. exists (drop n (ranking key cs)). now rewrite take_drop.
Qed.

(** ** Placing a redundancy policy *)

(** What a slot asks of a candidate. *)
Definition slot_accepts (slot : ReplicaSlotSpec) (c : DiskCandidate) : Prop :=
  is_active c /\
  (if pinned slot =? 0 then class_ok (required_class slot) c
   else disk_id_hi c = pinned_id_hi slot /\ disk_id_lo c = pinned_id_lo slot).

(** The answer for one slot, [used] being the indices of earlier slots: a
    candidate the slot accepts that is not in use (for an unpinned slot the
    one of highest rank), or [UNPLACED] when there is none. *)
Definition slot_answer (cs : list DiskCandidate) (key : Z) (used : list Z)
    (slot : ReplicaSlotSpec) (z : Z) : Prop :=
  (z = UNPLACED /\
   forall j c, cs !! j = Some c -> slot_accepts slot c -> Z.of_nat j ∈ used) \/
  (exists j c, z = Z.of_nat j /\ cs !! j = Some c /\ slot_accepts slot c /\ (z ∉ used) /\
   (pinned slot = 0 -> forall j' c', cs !! j' = Some c' -> slot_accepts slot c' ->
      Z.of_nat j' ∉ used -> code key c' <= code key c)).

(** The loop on lists. *)
Fixpoint place_list (cs : list DiskCandidate) (key : Z) (chosen : list Z)
    (slots : list ReplicaSlotSpec) : list Z :=
  match slots with
  | [] => []
  | s :: ss =>
      match choose_slot cs key chosen s with
      | Some j => j :: place_list cs key (chosen ++ [j]) ss
      | None => UNPLACED :: place_list cs key chosen ss
      end
  end.

Lemma length_place_list cs key chosen slots : length (place_list cs key chosen slots) = length slots.
Proof.
  revert chosen. induction slots as [|s ss IH]; intros; simpl; [auto|].
  case_match; simpl; now rewrite IH.
Qed.

Lemma place_loop_list cs key i filled excl out slots :
  (filled + length slots <= length excl)%nat -> length excl = MAX_SELECT ->
  (i + length slots <= length out)%nat ->
  place_loop cs key i filled excl out slots =
    take i out ++ place_list cs key (take filled excl) slots ++ drop (i + length slots) out.
Proof.
  revert i filled excl out. induction slots as [|s ss IH]; intros i filled excl out He Hx Ho.
  - simpl. now rewrite Nat.add_0_r, take_drop.
  - cbn [place_loop place_list length] in *.
    assert (Hins : forall z l, take (S i) (<[i := z]> out) ++ l ++ drop (S i + length ss) (<[i := z]> out)
      = take i out ++ (z :: l) ++ drop (i + S (length ss)) out).
    { intros z l. rewrite take_S_insert, drop_insert_lt, <- app_assoc by lia.
      now rewrite Nat.add_succ_r. }
    destruct (choose_slot _ _ _ _) as [j|].
    + destruct (Nat.ltb_spec filled MAX_SELECT); [|lia].
      rewrite IH by (rewrite ?length_insert; lia). rewrite (take_S_insert excl) by lia. apply Hins.
    + rewrite IH by (rewrite ?length_insert; lia). apply Hins.
Qed.

Lemma find_pinned_spec cs excl hi lo i :
  Z.of_nat i + Zlen cs < u32_max ->
  match find_pinned excl hi lo i cs with
  | Some z => exists j c, z = Z.of_nat (i + j) /\ cs !! j = Some c /\ is_active c /\ (z ∉ excl) /\
                disk_id_hi c = hi /\ disk_id_lo c = lo
  | None => forall j c, cs !! j = Some c -> is_active c -> disk_id_hi c = hi -> disk_id_lo c = lo ->
              Z.of_nat (i + j) ∈ excl
  end.
Proof.
  revert i. induction cs as [|c cs IH]; intros i Hl; cbn [find_pinned].
  - intros j c Hj. now rewrite lookup_nil in Hj.
  - rewrite Zlen_cons in Hl. pose proof (Zlen_nonneg cs).
    assert (Ei : as_u32 (Z.of_nat i) = Z.of_nat i)
      by (apply wrap_small; unfold fits, u32_max in *; lia).
    rewrite Ei. destruct (_ && _) eqn:E.
    + rewrite !andb_true_iff, !negb_true_iff, bool_decide_eq_false, Z.eqb_neq, !Z.eqb_eq in E.
      exists 0%nat, c. rewrite Nat.add_0_r. unfold is_active. tauto.
    + specialize (IH (S i) ltac:(lia)). destruct (find_pinned _ _ _ _ _).
      * destruct IH as (j & c' & ? & ?). exists (S j), c'. now rewrite Nat.add_succ_r.
      * intros [|j] c' Hj Ha Hhi Hlo; simpl in Hj.
        -- injection Hj as ->. rewrite Nat.add_0_r. destruct (decide (Z.of_nat i ∈ excl)); [auto|].
           rewrite !andb_false_iff, !negb_false_iff, bool_decide_eq_true, Z.eqb_eq, !Z.eqb_neq in E.
           unfold is_active in Ha. tauto.
        -- rewrite Nat.add_succ_r. eauto.
Qed.

Lemma choose_slot_spec cs key excl slot :
  wf_candidates cs ->
  slot_answer cs key excl slot (default UNPLACED (choose_slot cs key excl slot)) /\
  (forall z, choose_slot cs key excl slot = Some z -> z < u32_max).
Proof.
  intros Hwf. pose proof Hwf as (_ & _ & Hl). unfold choose_slot, slot_answer, slot_accepts.
  destruct (Z.eqb_spec (pinned slot) 0) as [E|E]; simpl negb; cbv iota.
  - destruct (hrw_select_one cs key excl (required_class slot)) as [z|] eqn:Es; simpl.
    + apply hrw_select_one_Some in Es as (j & c & -> & Hj & Ha & Hk & Hx & Hmax); [|auto].
      destruct (index_fits cs j c Hl Hj) as [_ Hlt]. split; [|intros ? [= <-]; exact Hlt].
      right. exists j, c. repeat split; auto. intros _ j' c' Hj' [Ha' Hk']. eauto.
    + split; [|discriminate]. left. split; [auto|]. intros j c Hj [Ha Hk].
      eapply hrw_select_one_None; eauto.
  - pose proof (find_pinned_spec cs excl (pinned_id_hi slot) (pinned_id_lo slot) 0 ltac:(simpl; lia)) as H.
    destruct (find_pinned _ _ _ _ _) as [z|]; simpl in *.
    + destruct H as (j & c & -> & Hj & Ha & Hx & Hhi & Hlo).
      destruct (index_fits cs j c Hl Hj) as [_ Hlt]. split; [|intros ? [= <-]; exact Hlt].
      right. exists j, c. repeat split; auto. congruence.
    + split; [|discriminate]. left. split; [auto|]. intros j c Hj (Ha & Hhi & Hlo). eauto.
Qed.

Lemma slot_answer_ext cs key u1 u2 slot z :
  Zlen cs < u32_max -> (forall x, x < u32_max -> x ∈ u1 <-> x ∈ u2) ->
  slot_answer cs key u1 slot z -> slot_answer cs key u2 slot z.
Proof.
  intros Hl Hu. assert (Hj : forall j c, cs !! j = Some c -> Z.of_nat j ∈ u1 <-> Z.of_nat j ∈ u2).
  { intros j c Hc. apply Hu. now destruct (index_fits cs j c Hl Hc). }
  intros [[-> H]|(j & c & -> & Hc & Ha & Hx & Hmax)]; [left|right].
  - split; [auto|]. intros j c Hc Ha. rewrite <- Hj by eauto. eauto.
  - exists j, c. repeat split; auto; try apply Ha; [rewrite <- Hj by eauto; auto|].
    intros Hp j' c' Hc' Ha'. rewrite <- Hj by eauto. eauto.
Qed.

Lemma place_list_spec cs key chosen slots i slot :
  wf_candidates cs -> slots !! i = Some slot ->
  let l := place_list cs key chosen slots in
  exists z, l !! i = Some z /\ slot_answer cs key (chosen ++ take i l) slot z.
Proof.
  intros Hwf. cbv zeta. revert chosen i. induction slots as [|s ss IH]; intros chosen i Hi.
  { now rewrite lookup_nil in Hi. }
  destruct (choose_slot_spec cs key chosen s Hwf) as [Ha Hlt]. cbn [place_list].
  destruct i as [|i]; simpl in Hi.
  - injection Hi as ->. destruct (choose_slot cs key chosen slot) as [z|]; simpl in *;
      rewrite app_nil_r; eauto.
  - destruct (choose_slot cs key chosen s) as [z|]; simpl in *.
    + destruct (IH (chosen ++ [z]) i Hi) as (z' & Hz & Hans). exists z'. split; [exact Hz|].
      now rewrite <- app_assoc in Hans.
    + destruct (IH chosen i Hi) as (z' & Hz & Hans). exists z'. split; [exact Hz|].
      eapply slot_answer_ext; [apply Hwf| |exact Hans]. intros x Hx.
      rewrite !elem_of_app, elem_of_cons. unfold UNPLACED. split; [tauto|].
      intros [?|[->|?]]; [auto|lia|auto].
Qed.

(** The slot that constrains nothing. *)
Definition any_slot : ReplicaSlotSpec :=
  {| required_class := CLASS_ANY; pinned := 0; pad := [0; 0]; pinned_id_hi := 0; pinned_id_lo := 0 |}.

Lemma place_list_any cs key chosen slots :
  Forall (fun s => pinned s = 0 /\ required_class s = CLASS_ANY) slots ->
  let l := hrw_list (length slots) cs key chosen in
  place_list cs key chosen slots = l ++ replicate (length slots - length l) UNPLACED.
Proof.
  intros Hs. cbv zeta. revert chosen. induction Hs as [|s ss [Hp Hk] Hs IH]; intros chosen; [reflexivity|].
  cbn [place_list hrw_list length]. unfold choose_slot at 1. rewrite Hp, Hk. simpl negb. cbv iota.
  destruct (hrw_select_one cs key chosen CLASS_ANY) as [z|] eqn:E; simpl.
  - now rewrite IH.
  - f_equal. rewrite IH. destruct (length ss) as [|n]; simpl; [reflexivity|]. now rewrite E.
Qed.

(** Concrete candidates for the witnesses: two HDDs, an SSD, an idle disk. *)
Definition demo_disk (id w a k : Z) : DiskCandidate :=
  {| disk_id_hi := 0; disk_id_lo := id; weight_milli := w; active := a; class := k |}.
Definition demo_disks : list DiskCandidate :=
  [demo_disk 1 1000 1 CLASS_HDD; demo_disk 2 3000 1 CLASS_HDD;
   demo_disk 3 1000 1 CLASS_SSD; demo_disk 4 1000 0 CLASS_SSD].

Lemma wf_demo_disks : wf_candidates demo_disks.
Proof.
  split; [|split].
  - repeat constructor; vm_compute; congruence.
  - apply (bool_decide_unpack _). vm_compute. reflexivity.
  - vm_compute. reflexivity.
Qed.

(** C15: [hrw_select] is the textbook rendezvous selection.  It writes the
    indices of the active candidates of highest rank, in decreasing order: the
    disks they name are the first [want] of the active disks sorted by score
    (ties by hash, then id).  It returns as many as there are, at most 16,
    never the same index twice, and leaves the rest of [out] alone. *)
Theorem hrw_select_reference cs key out out' n :
  wf_candidates cs -> hrw_select cs key out = (out', n) ->
  let want := (length out `min` MAX_SELECT)%nat in
  ids_at cs (take n out') = topk want key cs /\
  n = (want `min` length (filter is_active cs))%nat /\
  Forall (valid_index cs) (take n out') /\ NoDup (take n out') /\
  drop n out' = drop n out /\ length out' = length out.
Proof. apply hrw_select_topk. Qed.

Lemma hrw_select_reference_witness :
  ids_at demo_disks (take 2 (hrw_select demo_disks 42 [0; 0]).1) = topk 2 42 demo_disks.
Proof.
  apply (hrw_select_reference demo_disks 42 [0; 0] (hrw_select demo_disks 42 [0; 0]).1 2).
  - exact wf_demo_disks.
  - vm_compute. reflexivity.
Defined.

(** The selected disks do not depend on the order in which the caller
    listed the candidates (the prototype iterates a hash map, whose order
    varies from run to run). *)
Theorem hrw_select_order_independent cs cs' key out o1 n1 o2 n2 :
  wf_candidates cs -> cs ≡ₚ cs' ->
  hrw_select cs key out = (o1, n1) -> hrw_select cs' key out = (o2, n2) ->
  n1 = n2 /\ ids_at cs (take n1 o1) = ids_at cs' (take n2 o2).
Proof.
  intros Hwf HP E1 E2. pose proof (wf_candidates_perm _ _ HP Hwf) as Hwf'.
  apply hrw_select_topk in E1 as (I1 & N1 & _); [|auto].
  apply hrw_select_topk in E2 as (I2 & N2 & _); [|auto].
  rewrite I1, I2. split; [|now apply topk_perm]. rewrite N1, N2. now rewrite HP.
Qed.

(** C22: minimal disruption.  When a disk joins the pool, a key's replicas stay
    where they were except that the new disk may enter the list: without it,
    the new selection is a prefix of the old one, so at most one replica
    moves, and it moves to the new disk. *)
Theorem hrw_select_minimal_disruption c cs cs' key out o1 n1 o2 n2 :
  wf_candidates cs' -> cs' ≡ₚ c :: cs ->
  hrw_select cs key out = (o1, n1) -> hrw_select cs' key out = (o2, n2) ->
  filter (fun id => id <> disk_id c) (ids_at cs' (take n2 o2))
    `prefix_of` ids_at cs (take n1 o1).
Proof.
  intros Hwf' HP E1 E2. pose proof (wf_candidates_perm _ _ HP Hwf') as Hwf1.
  assert (Hwf : wf_candidates cs).
  { destruct Hwf1 as (H1 & H2 & H3). rewrite Zlen_cons in H3. inversion H1; inversion H2; subst.
    repeat split; auto. lia. }
  apply hrw_select_topk in E1 as (-> & _); [|auto].
  apply hrw_select_topk in E2 as (-> & _); [|auto].
  rewrite (topk_perm _ _ cs' (c :: cs)) by auto. now apply topk_cons_prefix.
Qed.

Lemma hrw_select_minimal_disruption_witness :
  filter (fun id => id <> disk_id (demo_disk 3 1000 1 CLASS_SSD))
    (ids_at (take 3 demo_disks) (take 2 (hrw_select (take 3 demo_disks) 9 [0; 0]).1))
  `prefix_of` ids_at (take 2 demo_disks) (take 2 (hrw_select (take 2 demo_disks) 9 [0; 0]).1).
Proof.
  apply (hrw_select_minimal_disruption (demo_disk 3 1000 1 CLASS_SSD) (take 2 demo_disks)
    (take 3 demo_disks) 9 [0; 0] (hrw_select (take 2 demo_disks) 9 [0; 0]).1 2
    (hrw_select (take 3 demo_disks) 9 [0; 0]).1 2).
  - destruct wf_demo_disks as (H1 & H2 & _). split; [|split].
    + now apply Forall_take.
    + apply (bool_decide_unpack _). vm_compute. reflexivity.
    + vm_compute. reflexivity.
  - simpl. change [demo_disk 1 1000 1 CLASS_HDD; demo_disk 2 3000 1 CLASS_HDD; demo_disk 3 1000 1 CLASS_SSD]
      with ([demo_disk 1 1000 1 CLASS_HDD; demo_disk 2 3000 1 CLASS_HDD] ++ [demo_disk 3 1000 1 CLASS_SSD]).
    symmetry. apply Permutation_cons_append.
  - vm_compute. reflexivity.
  - vm_compute. reflexivity.
Defined.

(** C21: [place_redundancy] answers every slot, in order, as the policy says:
    an active disk of the required class (the best-ranked one left) or exactly
    the pinned disk, never a disk already given to an earlier slot; a slot is
    [UNPLACED] only if every disk it accepts is taken, and an unplaced slot
    does not stop the later ones. *)
Theorem place_redundancy_spec cs key slots out out' n :
  wf_candidates cs -> place_redundancy cs key slots out = (out', n) ->
  n = (length slots `min` (length out `min` MAX_SELECT))%nat /\
  length out' = length out /\ drop n out' = drop n out /\
  forall i slot, (i < n)%nat -> slots !! i = Some slot ->
    exists z, out' !! i = Some z /\ slot_answer cs key (take i out') slot z.
Proof.
  intros Hwf. unfold place_redundancy.
  set (n0 := (length slots `min` (length out `min` MAX_SELECT))%nat).
  assert (Hlen : length (take n0 slots) = n0) by (rewrite length_take; lia).
  rewrite place_loop_list by (rewrite ?length_replicate, ?Hlen; lia).
  rewrite take_0, Hlen. cbn [app Nat.add]. intros [= <- <-].
  pose proof (length_place_list cs key [] (take n0 slots)) as Hp. rewrite Hlen in Hp.
  split; [reflexivity|]. split; [rewrite length_app, length_drop, Hp; lia|].
  split; [rewrite drop_app_ge, Hp, Nat.sub_diag by lia; apply drop_0|].
  intros i slot Hi Hs.
  destruct (place_list_spec cs key [] (take n0 slots) i slot Hwf) as (z & Hz & Ha).
  { rewrite lookup_take_lt by lia. exact Hs. }
  exists z. rewrite lookup_app_l, take_app_le by lia. auto.
Qed.

Lemma place_redundancy_spec_witness :
  exists z, (place_redundancy demo_disks 5 [any_slot; any_slot] [0; 0]).1 !! 1%nat = Some z /\
    slot_answer demo_disks 5 (take 1 (place_redundancy demo_disks 5 [any_slot; any_slot] [0; 0]).1) any_slot z.
Proof.
  apply (place_redundancy_spec demo_disks 5 [any_slot; any_slot] [0; 0]
    (place_redundancy demo_disks 5 [any_slot; any_slot] [0; 0]).1 2).
  - exact wf_demo_disks.
  - vm_compute. reflexivity.
  - lia.
  - reflexivity.
Defined.

(** Plain replication is not a special case: for a policy of [n]
    unconstrained slots, [place_redundancy] gives exactly the disks that
    [hrw_select] gives, and [UNPLACED] for the slots beyond them. *)
Theorem place_redundancy_any_is_hrw_select cs key slots out o1 n1 o2 n2 :
  Forall (fun s => pinned s = 0 /\ required_class s = CLASS_ANY) slots ->
  length out = length slots -> (length slots <= MAX_SELECT)%nat ->
  place_redundancy cs key slots out = (o1, n1) -> hrw_select cs key out = (o2, n2) ->
  n1 = length slots /\ o1 = take n2 o2 ++ replicate (n1 - n2) UNPLACED.
Proof.
  intros Hs Ho Hm E1 E2. pose proof (hrw_select_list cs key out) as H. cbv zeta in H.
  rewrite E2, Ho, Nat.min_l in H by lia. destruct H as (-> & _ & -> & _).
  unfold place_redundancy in E1. rewrite Ho, !Nat.min_l, firstn_all in E1 by lia.
  injection E1 as <- <-. split; [reflexivity|]. unfold MAX_SELECT in Hm.
  rewrite place_loop_list by (unfold MAX_SELECT; simpl; lia).
  rewrite place_list_any by auto. rewrite !take_0, (drop_ge out) by (simpl; lia).
  now rewrite app_nil_r.
Qed.

Lemma place_redundancy_any_is_hrw_select_witness :
  (place_redundancy demo_disks 5 (replicate 4 any_slot) [0; 0; 0; 0]).1
  = take 3 (hrw_select demo_disks 5 [0; 0; 0; 0]).1 ++ [UNPLACED].
Proof.
  apply (place_redundancy_any_is_hrw_select demo_disks 5 (replicate 4 any_slot) [0; 0; 0; 0]
    (place_redundancy demo_disks 5 (replicate 4 any_slot) [0; 0; 0; 0]).1 4
    (hrw_select demo_disks 5 [0; 0; 0; 0]).1 3).
  - repeat constructor.
  - reflexivity.
  - unfold MAX_SELECT. simpl. lia.
  - vm_compute. reflexivity.
  - vm_compute. reflexivity.
Defined.
