(* ===== verification/Crc32c.v ===== *)
(** * CRC32C ([crates/tartine-core/src/crc32c.rs])

    The table-driven checksum over the table that the [const fn] builds, with
    the bit-at-a-time polynomial division as its reference. *)

From Stdlib Require Import ZArith Lia.
From S2P Require Import Prelude.

Definition POLY : Z := 0x82f63b78.

(** One iteration of the inner [while j < 8]. *)
Definition crc_bit (c : Z) : Z :=
  if negb (Z.land c 1 =? 0) then Z.lxor POLY (Z.shiftr c 1) else Z.shiftr c 1.

Definition build_table : list Z := (fun i => Nat.iter 8 crc_bit (Z.of_nat i)) <$> seq 0 256.

Definition TABLE : list Z := Eval vm_compute in build_table.

(** One iteration of the loop of [checksum]; the index is masked to 8 bits,
    so it is always in the table. *)
Definition crc_step (crc : Z) (b : byte) : Z :=
  let i := Z.to_nat (Z.land (Z.lxor crc (Z_of_byte b)) 0xff) in
  Z.lxor (nth i TABLE 0) (Z.shiftr crc 8).

(** [!x] on [u32]. *)
Definition not32 (x : Z) : Z := Z.lxor x u32_max.

Definition checksum (data : list byte) : Z := not32 (foldl crc_step (not32 0) data).

(** The reference: feed the message to the division one bit at a time. *)
Definition crc_ref_byte (crc : Z) (b : byte) : Z := Nat.iter 8 crc_bit (Z.lxor crc (Z_of_byte b)).
Definition crc_ref (data : list byte) : Z := not32 (foldl crc_ref_byte (not32 0) data).

Lemma TABLE_build : TABLE = build_table.
Proof. vm_compute. reflexivity. Qed.

Example checksum_check_value :
  checksum [x31; x32; x33; x34; x35; x36; x37; x38; x39] = 0xe3069283 /\ checksum [] = 0.
Proof. vm_compute. auto. Qed.

(** ** The division is linear *)

Lemma crc_bit_odd c : crc_bit c = Z.lxor (if Z.odd c then POLY else 0) (Z.shiftr c 1).
Proof.
  unfold crc_bit. change 1 with (Z.ones 1) at 1. rewrite Z.land_ones by lia.
  change (2 ^ 1) with 2. rewrite Zmod_odd. destruct (Z.odd c); simpl; [reflexivity|].
  now rewrite Z.lxor_0_l.
Qed.

Lemma odd_lxor a b : Z.odd (Z.lxor a b) = xorb (Z.odd a) (Z.odd b).
Proof. rewrite <- !Z.bit0_odd. apply Z.lxor_spec. Qed.

Ltac xor_ac := apply Z.bits_inj'; intros ? ?; rewrite !Z.lxor_spec, ?Z.bits_0;
  repeat match goal with |- context [Z.testbit ?a ?n] => destruct (Z.testbit a n) end; reflexivity.

Lemma crc_bit_lxor a b : crc_bit (Z.lxor a b) = Z.lxor (crc_bit a) (crc_bit b).
Proof.
  rewrite !crc_bit_odd, odd_lxor, Z.shiftr_lxor.
  destruct (Z.odd a), (Z.odd b); cbn [xorb]; xor_ac.
Qed.

Lemma crc_bits_lxor k a b :
  Nat.iter k crc_bit (Z.lxor a b) = Z.lxor (Nat.iter k crc_bit a) (Nat.iter k crc_bit b).
Proof. induction k as [|k IH]; [reflexivity|]. rewrite !Nat.iter_succ, IH. apply crc_bit_lxor. Qed.

Lemma crc_bit_double y : crc_bit (Z.shiftl y 1) = y.
Proof.
  rewrite crc_bit_odd, Z.shiftl_mul_pow2 by lia. change (2 ^ 1) with 2.
  rewrite Z.odd_mul, andb_false_r, Z.lxor_0_l, Z.shiftr_div_pow2 by lia.
  apply Z.div_mul. discriminate.
Qed.

Lemma crc_bits_shiftl k y : Nat.iter k crc_bit (Z.shiftl y (Z.of_nat k)) = y.
Proof.
  induction k as [|k IH]; [apply Z.shiftl_0_r|].
  rewrite Nat.iter_succ_r.
  replace (Z.of_nat (S k)) with (Z.of_nat k + 1) by lia.
  rewrite <- Z.shiftl_shiftl, crc_bit_double by lia. exact IH.
Qed.

Lemma split_low x k : 0 <= k -> x = Z.lxor (Z.shiftl (Z.shiftr x k) k) (Z.land x (Z.ones k)).
Proof.
  intros Hk. apply Z.bits_inj'. intros n Hn.
  rewrite Z.lxor_spec, Z.land_spec, Z.shiftl_spec by lia.
  destruct (Z.lt_ge_cases n k).
  - rewrite (Z.ones_spec_low k n) by lia. rewrite (Z.testbit_neg_r _ (n - k)) by lia.
    now rewrite andb_true_r, xorb_false_l.
  - rewrite (Z.ones_spec_high k n), Z.shiftr_spec by lia. rewrite andb_false_r, xorb_false_r. f_equal. lia.
Qed.

Lemma crc_bits_split k x :
  Nat.iter k crc_bit x =
    Z.lxor (Z.shiftr x (Z.of_nat k)) (Nat.iter k crc_bit (Z.land x (Z.ones (Z.of_nat k)))).
Proof.
  rewrite (split_low x (Z.of_nat k)) at 1 by lia. now rewrite crc_bits_lxor, crc_bits_shiftl.
Qed.

Lemma nth_TABLE i : (i < 256)%nat -> nth i TABLE 0 = Nat.iter 8 crc_bit (Z.of_nat i).
Proof.
  intros Hi. rewrite TABLE_build. unfold build_table. rewrite nth_lookup, list_lookup_fmap.
  now rewrite lookup_seq_lt by lia.
Qed.

Lemma land_ff_bound x : 0 <= Z.land x 0xff < 256.
Proof. change 0xff with (Z.ones 8). rewrite Z.land_ones by lia. apply Z.mod_pos_bound. lia. Qed.

Lemma shiftr8_byte crc b : Z.shiftr (Z.lxor crc (Z_of_byte b)) 8 = Z.shiftr crc 8.
Proof.
  pose proof (Z_of_byte_bound b). rewrite Z.shiftr_lxor, (Z.shiftr_div_pow2 (Z_of_byte b)) by lia.
  rewrite (Z.div_small (Z_of_byte b)) by lia. apply Z.lxor_0_r.
Qed.

Lemma crc_step_ref crc b : crc_step crc b = crc_ref_byte crc b.
Proof.
  unfold crc_step, crc_ref_byte. set (x := Z.lxor crc (Z_of_byte b)).
  pose proof (land_ff_bound x). rewrite nth_TABLE, Z2Nat.id by lia.
  rewrite (crc_bits_split 8 x). change (Z.of_nat 8) with 8. change (Z.ones 8) with 0xff.
  replace (Z.shiftr x 8) with (Z.shiftr crc 8) by (symmetry; apply shiftr8_byte).
  apply Z.lxor_comm.
Qed.

(** ** Injectivity *)

Lemma lxor_cancel_l a b c : Z.lxor a b = Z.lxor a c -> b = c.
Proof.
  intros E. apply (f_equal (Z.lxor a)) in E.
  now rewrite <- !Z.lxor_assoc, !Z.lxor_nilpotent, !Z.lxor_0_l in E.
Qed.

Lemma crc_bit_bound c : u32 c -> u32 (crc_bit c).
Proof.
  intros [H1 H2]. rewrite crc_bit_odd, Z.shiftr_div_pow2 by lia. change (2 ^ 1) with 2.
  assert (0 <= c / 2 < 2 ^ 31) by (split; [apply Z.div_pos|apply Z.div_lt_upper_bound]; lia).
  destruct (Z.odd c); [|rewrite Z.lxor_0_l; unfold fits; lia].
  split; [apply Z.lxor_nonneg; unfold POLY; lia|].
  destruct (Z.eq_dec (Z.lxor POLY (c / 2)) 0) as [->|Hne]; [lia|].
  apply Z.log2_lt_pow2; [|].
  - assert (0 <= Z.lxor POLY (c / 2)) by (apply Z.lxor_nonneg; unfold POLY; lia). lia.
  - eapply Z.le_lt_trans; [apply Z.log2_lxor; unfold POLY; lia|]. apply Z.max_lub_lt.
    + vm_compute. reflexivity.
    + destruct (Z.eq_dec (c / 2) 0) as [->|]; [vm_compute; reflexivity|].
      apply Z.log2_lt_pow2; lia.
Qed.

(** The high bit of the result tells whether the polynomial was added, so one
    bit of division can be undone. *)
Lemma crc_bit_inj a b : u32 a -> u32 b -> crc_bit a = crc_bit b -> a = b.
Proof.
  intros Ha Hb E. rewrite !crc_bit_odd in E.
  assert (Hs : forall c, u32 c -> Z.testbit (Z.shiftr c 1) 31 = false).
  { intros c [Hc1 Hc2]. rewrite Z.shiftr_spec by lia.
    rewrite <- (Z.mod_small c (2 ^ 32)) by lia. apply Z.mod_pow2_bits_high. lia. }
  assert (Ho : Z.odd a = Z.odd b).
  { apply (f_equal (fun z => Z.testbit z 31)) in E. rewrite !Z.lxor_spec, !Hs in E by auto.
    destruct (Z.odd a), (Z.odd b); vm_compute in E; congruence. }
  rewrite Ho in E. apply lxor_cancel_l in E. rewrite !Z.shiftr_div_pow2 in E by lia.
  change (2 ^ 1) with 2 in E. pose proof (Zmod_odd a). pose proof (Zmod_odd b).
  rewrite Ho in *. pose proof (Z.div_mod a 2). pose proof (Z.div_mod b 2). lia.
Qed.

Lemma crc_bits_inj k a b :
  u32 a -> u32 b ->
  u32 (Nat.iter k crc_bit a) /\ (Nat.iter k crc_bit a = Nat.iter k crc_bit b -> a = b).
Proof.
  revert a b. induction k as [|k IH]; intros a b Ha Hb; [auto|]. rewrite !Nat.iter_succ_r.
  destruct (IH (crc_bit a) (crc_bit b)) as [H1 H2]; auto using crc_bit_bound.
  split; [exact H1|]. intros E. apply crc_bit_inj; auto.
Qed.

Lemma lxor_byte_fits crc b : u32 crc -> u32 (Z.lxor crc (Z_of_byte b)).
Proof.
  intros [H1 H2]. pose proof (Z_of_byte_bound b).
  split; [apply Z.lxor_nonneg; lia|].
  destruct (Z.eq_dec (Z.lxor crc (Z_of_byte b)) 0) as [->|Hne]; [lia|].
  assert (0 <= Z.lxor crc (Z_of_byte b)) by (apply Z.lxor_nonneg; lia).
  apply Z.log2_lt_pow2; [lia|].
  eapply Z.le_lt_trans; [apply Z.log2_lxor; lia|]. apply Z.max_lub_lt.
  - destruct (Z.eq_dec crc 0) as [->|]; [vm_compute; reflexivity|]. apply Z.log2_lt_pow2; lia.
  - destruct (Z.eq_dec (Z_of_byte b) 0) as [->|]; [vm_compute; reflexivity|].
    apply Z.log2_lt_pow2; lia.
Qed.

Lemma crc_step_fits crc b : u32 crc -> u32 (crc_step crc b).
Proof.
  intros H. rewrite crc_step_ref. apply (crc_bits_inj 8 _ 0); [|unfold fits; lia].
  now apply lxor_byte_fits.
Qed.

Lemma crc_fold_fits crc l : u32 crc -> u32 (foldl crc_step crc l).
Proof. revert crc. induction l; simpl; auto using crc_step_fits. Qed.

Lemma crc_step_inj c1 c2 b1 b2 :
  u32 c1 -> u32 c2 -> crc_step c1 b1 = crc_step c2 b2 ->
  Z.lxor c1 (Z_of_byte b1) = Z.lxor c2 (Z_of_byte b2).
Proof.
  intros H1 H2 E. rewrite !crc_step_ref in E.
  apply (crc_bits_inj 8) in E; auto using lxor_byte_fits.
Qed.

Lemma crc_fold_inj c1 c2 l :
  u32 c1 -> u32 c2 -> foldl crc_step c1 l = foldl crc_step c2 l -> c1 = c2.
Proof.
  revert c1 c2. induction l as [|b l IH]; intros c1 c2 H1 H2 E; [exact E|].
  apply IH in E; auto using crc_step_fits. apply crc_step_inj in E; auto.
  rewrite !(Z.lxor_comm _ (Z_of_byte b)) in E. eapply lxor_cancel_l; eauto.
Qed.

Lemma not32_fits x : u32 x -> u32 (not32 x).
Proof.
  intros [H1 H2]. unfold not32. destruct (Z.eq_dec (Z.lxor x u32_max) 0) as [->|Hne]; [unfold fits; lia|].
  assert (0 <= Z.lxor x u32_max) by (apply Z.lxor_nonneg; unfold u32_max; lia).
  split; [lia|]. apply Z.log2_lt_pow2; [lia|].
  eapply Z.le_lt_trans; [apply Z.log2_lxor; unfold u32_max; lia|]. apply Z.max_lub_lt.
  - destruct (Z.eq_dec x 0) as [->|]; [vm_compute; reflexivity|]. apply Z.log2_lt_pow2; lia.
  - vm_compute. reflexivity.
Qed.

Lemma checksum_fits data : u32 (checksum data).
Proof. apply not32_fits, crc_fold_fits, not32_fits. unfold fits; lia. Qed.
#[export] Hint Resolve checksum_fits : tartine.

(** C27: the table-driven checksum is CRC32C: it equals the bit-at-a-time
    division by the Castagnoli polynomial on every message, and is a 32-bit
    value. *)
Theorem checksum_is_crc32c data : checksum data = crc_ref data /\ u32 (checksum data).
Proof.
  split; [|apply checksum_fits]. unfold checksum, crc_ref. f_equal. generalize (not32 0).
  induction data as [|b l IH]; intros c; [reflexivity|]. simpl. rewrite crc_step_ref. apply IH.
Qed.

Lemma checksum_byte_inj pre b1 b2 post :
  checksum (pre ++ b1 :: post) = checksum (pre ++ b2 :: post) -> b1 = b2.
Proof.
  unfold checksum, not32. rewrite !foldl_app. simpl. intros E.
  rewrite !(Z.lxor_comm _ u32_max) in E. apply lxor_cancel_l in E.
  set (c := foldl crc_step (Z.lxor u32_max 0) pre) in *.
  assert (Hc : u32 c) by (apply crc_fold_fits; vm_compute; split; congruence).
  apply crc_fold_inj in E; auto using crc_step_fits. apply crc_step_inj in E; auto.
  apply lxor_cancel_l in E. rewrite <- (byte_of_Z_of_byte b1), E. apply byte_of_Z_of_byte.
Qed.

(** A corrupted byte never goes unnoticed: two messages that differ in
    exactly one byte have different checksums. *)
Theorem checksum_detects_byte pre b1 b2 post :
  b1 <> b2 -> checksum (pre ++ b1 :: post) <> checksum (pre ++ b2 :: post).
Proof. intros Hne E. apply Hne. eapply checksum_byte_inj; eauto. Qed.
