(* ===== verification/Disk.v ===== *)
(** * Pool disks ([crates/tartine-core/src/disk.rs])

    The [Disk] trait is a class over the world its disks live in, with a
    second class for what its clients rely on; [FileDisk] (a regular file
    standing in for a block device) and [Arc] (a shared handle) are its
    instances.  The segment log, the write-ahead log, the replicator and the
    store are modelled and proved against the classes. *)

From Stdlib Require Import ZArith Lia.
From S2P Require Import Prelude.

(** The kinds of [io::Error] the code makes or meets. *)
Inductive io_error := UnexpectedEof | WriteZero | NotFound | AlreadyExists | FileTooLarge | OtherIo.

#[export] Instance io_error_eq_dec : EqDecision io_error.
Proof. solve_decision. Defined.

(** ** Files

    A sparse file: its length, and the bytes that are not zero by default. *)
Record file := { f_len : Z; f_bytes : gmap Z byte }.

Definition byte_at (f : file) (i : Z) : byte := default x00 (f_bytes f !! i).

(** [n] bytes from [off], whether or not they are inside the file. *)
Definition get_bytes (f : file) (off : Z) (n : nat) : list byte :=
  (fun i => byte_at f (off + Z.of_nat i)) <$> seq 0 n.

Fixpoint put_bytes (m : gmap Z byte) (off : Z) (bs : list byte) : gmap Z byte :=
  match bs with
  | [] => m
  | b :: bs' => put_bytes (<[off := b]> m) (off + 1) bs'
  end.

(** [pread] until the buffer is full: an empty buffer needs nothing, and a
    read that reaches past the end of the file fails. *)
Definition file_read (f : file) (off : Z) (n : nat) : option (list byte) :=
  if decide (n = 0%nat \/ off + Z.of_nat n <= f_len f) then Some (get_bytes f off n) else None.

(** [pwrite] of the whole buffer: extends the file if it reaches past the
    end, and leaves it alone if the buffer is empty. *)
Definition file_write (f : file) (off : Z) (bs : list byte) : file :=
  match bs with
  | [] => f
  | _ => {| f_len := Z.max (f_len f) (off + Zlen bs); f_bytes := put_bytes (f_bytes f) off bs |}
  end.

(** [bs] is what the file holds at [off]. *)
Definition file_has (f : file) (off : Z) (bs : list byte) : Prop :=
  file_read f off (length bs) = Some bs.

(** ** Write caches

    A disk has two images of its file: the one that reads see, and the one
    that is on stable storage.  A byte, or the length, of the second is taken
    over from the first by a sync, or earlier if the system writes it back. *)

(** Everything in [g] is from one of the files [fs]. *)
Definition mixes (fs : list file) (g : file) : Prop :=
  f_len g ∈ (f_len <$> fs) /\ forall i, byte_at g i ∈ ((fun f => byte_at f i) <$> fs).

(** What becomes of a value with the cached copy [c] and the durable copy [d]
    while nothing is written: nothing, or it is written back, or the cache is
    lost. *)
Definition settles {A} (c d c' d' : A) : Prop :=
  c' = c /\ d' = d \/ c' = c /\ d' = c \/ c' = d /\ d' = d.

(** The same of a file, each byte of which goes its own way. *)
Definition file_settles (f g f' g' : file) : Prop :=
  settles (f_len f) (f_len g) (f_len f') (f_len g') /\
  forall i, settles (byte_at f i) (byte_at g i) (byte_at f' i) (byte_at g' i).

(** ** The trait *)
Class Disk (W D : Type) := {
  read_at : D -> Z -> nat -> W -> result io_error (list byte);
  write_at : D -> Z -> list byte -> io W io_error unit;
  sync : D -> io W io_error unit;
  capacity_bytes : D -> Z;
}.

(** What the clients rely on.  [contents d w] is the file behind [d] as reads
    see it, [durable d w] what is left of it if power is lost; [same_disk]
    relates handles to one file.  A write that fails may have changed any part
    of the range it was asked to write (a torn write), and nothing else.  Only
    a sync that succeeds makes anything durable for certain. *)
Class DiskLaws (W D : Type) `{Disk W D} := {
  contents : D -> W -> file;
  durable : D -> W -> file;
  same_disk : D -> D -> Prop;
  same_disk_dec d d' : Decision (same_disk d d');
  contents_same d d' w : same_disk d d' -> contents d w = contents d' w;
  durable_same d d' w : same_disk d d' -> durable d w = durable d' w;
  read_ok d off n w bs : read_at d off n w = Ok bs -> file_read (contents d w) off n = Some bs;
  write_ok d off bs w w' :
    write_at d off bs w = (w', Ok tt) -> contents d w' = file_write (contents d w) off bs;
  write_frame d off bs w i :
    ~ off <= i < off + Zlen bs ->
    byte_at (contents d (write_at d off bs w).1) i = byte_at (contents d w) i;
  write_len d off bs w : f_len (contents d w) <= f_len (contents d (write_at d off bs w).1);
  write_other d d' off bs w :
    ~ same_disk d d' -> contents d' (write_at d off bs w).1 = contents d' w;
  sync_contents d d' w : contents d' (sync d w).1 = contents d' w;
  sync_ok d w w' : sync d w = (w', Ok tt) -> durable d w' = contents d w';
  write_durable d d' off bs w :
    let w' := (write_at d off bs w).1 in mixes [durable d' w; contents d' w; contents d' w'] (durable d' w');
  sync_durable d d' w : mixes [durable d' w; contents d' w] (durable d' (sync d w).1);
  write_no_panic d off bs w : (write_at d off bs w).2 <> Panic;
  sync_no_panic d w : (sync d w).2 <> Panic;
}.

(** The disk answers reads: every read inside the file succeeds. *)
Definition readable {W D} `{DiskLaws W D} (d : D) (w : W) : Prop :=
  forall off n bs, file_read (contents d w) off n = Some bs -> read_at d off n w = Ok bs.

(** The disk takes writes and syncs. *)
Definition writable {W D} `{DiskLaws W D} (d : D) (w : W) : Prop :=
  (forall off bs, 0 <= off -> off + Zlen bs < 2 ^ 63 -> (write_at d off bs w).2 = Ok tt) /\
  (sync d w).2 = Ok tt.

(** ** [FileDisk]

    The world is the files by path, as reads see them ([w_files]) and as they
    are on stable storage ([w_durable]).  [w_fault] holds the paths whose device
    is about to fail: it accepts that many more bytes, then every write and
    sync fails (power loss in the middle of a write, or a dead disk). *)
Definition path : Type := list byte.
Record os_world := { w_files : gmap path file; w_durable : gmap path file; w_fault : gmap path Z }.

Definition empty_file : file := {| f_len := 0; f_bytes := ∅ |}.
Definition file_at (w : os_world) (p : path) : file := default empty_file (w_files w !! p).
Definition durable_at (w : os_world) (p : path) : file := default empty_file (w_durable w !! p).

(** Power is lost, or the system writes something back, or neither: every byte
    of every file that has not been synced goes its own way. *)
Definition crashed (w w' : os_world) : Prop :=
  (forall p, is_Some (w_files w' !! p) <-> is_Some (w_files w !! p)) /\
  forall p, file_settles (file_at w p) (durable_at w p) (file_at w' p) (durable_at w' p).

Record FileDisk := { fd_path : path; fd_capacity : Z }.

(** [FileDisk::create]: fails if the path exists.  The new file and its length
    are taken to be durable. *)
Definition FileDisk_create (p : path) (capacity : Z) : io os_world io_error FileDisk := fun w =>
  match w_files w !! p with
  | Some _ => (w, Err AlreadyExists)
  | None =>
      let f := {| f_len := capacity; f_bytes := ∅ |} in
      ({| w_files := <[p := f]> (w_files w); w_durable := <[p := f]> (w_durable w);
          w_fault := w_fault w |}, Ok {| fd_path := p; fd_capacity := capacity |})
  end.

(** [FileDisk::open]: the capacity is the file's length. *)
Definition FileDisk_open (p : path) : io os_world io_error FileDisk := fun w =>
  match w_files w !! p with
  | Some f => (w, Ok {| fd_path := p; fd_capacity := f_len f |})
  | None => (w, Err NotFound)
  end.

Definition FileDisk_read_at (d : FileDisk) (off : Z) (n : nat) (w : os_world) :
    result io_error (list byte) :=
  match file_read (file_at w (fd_path d)) off n with
  | Some bs => Ok bs
  | None => Err UnexpectedEof
  end.

(** How many more bytes the device takes, of the [n] it is asked to. *)
Definition fault_budget (w : os_world) (p : path) (n : Z) : Z :=
  match w_fault w !! p with Some k => Z.min (Z.max 0 k) n | None => n end.

Definition FileDisk_write_at (d : FileDisk) (off : Z) (bs : list byte) :
    io os_world io_error unit := fun w =>
  if decide (bs = []) then (w, Ok tt)
  else if 2 ^ 63 - 1 <? off + Zlen bs then (w, Err FileTooLarge)
  else
    let p := fd_path d in
    let k := fault_budget w p (Zlen bs) in
    let w' := {| w_files := <[p := file_write (file_at w p) off (take (Z.to_nat k) bs)]> (w_files w);
                 w_durable := w_durable w;
                 w_fault := alter (fun j => j - k) p (w_fault w) |} in
    (w', if k =? Zlen bs then Ok tt else Err OtherIo).

Definition flush (p : path) (w : os_world) : os_world :=
  {| w_files := w_files w; w_durable := <[p := file_at w p]> (w_durable w); w_fault := w_fault w |}.

Definition FileDisk_sync (d : FileDisk) : io os_world io_error unit := fun w =>
  match w_fault w !! fd_path d with
  | Some k => if k <=? 0 then (w, Err OtherIo) else (flush (fd_path d) w, Ok tt)
  | None => (flush (fd_path d) w, Ok tt)
  end.

#[export] Instance FileDisk_Disk : Disk os_world FileDisk := {
  read_at := FileDisk_read_at;
  write_at := FileDisk_write_at;
  sync := FileDisk_sync;
  capacity_bytes := fd_capacity;
}.

(** ** [Arc]: a shared handle delegates every method. *)
Record Arc (D : Type) := { deref : D }.
Arguments deref {D} _.

#[export] Instance Arc_Disk {W D} `{Disk W D} : Disk W (Arc D) := {
  read_at a off n := read_at (deref a) off n;
  write_at a off bs := write_at (deref a) off bs;
  sync a := sync (deref a);
  capacity_bytes a := capacity_bytes (deref a);
}.

(** ** Lemmas on files *)

Lemma length_get_bytes f off n : length (get_bytes f off n) = n.
Proof. unfold get_bytes. now rewrite length_fmap, length_seq. Qed.
#[export] Hint Rewrite length_get_bytes : tartine_len.

Lemma lookup_get_bytes f off n i :
  (i < n)%nat -> get_bytes f off n !! i = Some (byte_at f (off + Z.of_nat i)).
Proof. intros. unfold get_bytes. now rewrite list_lookup_fmap, lookup_seq_lt by lia. Qed.

Lemma get_bytes_app f off n m :
  get_bytes f off (n + m) = get_bytes f off n ++ get_bytes f (off + Z.of_nat n) m.
Proof.
  unfold get_bytes. rewrite seq_app, fmap_app. f_equal.
  rewrite <- (Nat.add_0_r (0 + n)), <- fmap_add_seq, <- list_fmap_compose.
  apply list_fmap_ext. intros i x _. simpl. f_equal. lia.
Qed.

Lemma get_bytes_ext f f' off n :
  (forall i, off <= i < off + Z.of_nat n -> byte_at f i = byte_at f' i) ->
  get_bytes f off n = get_bytes f' off n.
Proof.
  intros E. unfold get_bytes. apply list_fmap_ext. intros i x Hx.
  apply lookup_seq in Hx as [-> ?]. apply E. simpl. lia.
Qed.

Lemma get_bytes_zero f off n :
  (forall i, off <= i < off + Z.of_nat n -> byte_at f i = x00) -> get_bytes f off n = replicate n x00.
Proof.
  intros E. apply list_eq. intros i. destruct (lt_dec i n).
  - rewrite lookup_get_bytes, lookup_replicate_2 by lia. f_equal. apply E. lia.
  - rewrite !lookup_ge_None_2; auto; rewrite ?length_get_bytes, ?length_replicate; lia.
Qed.

Lemma put_bytes_lookup m off bs i :
  put_bytes m off bs !! i =
    if decide (off <= i < off + Zlen bs) then bs !! Z.to_nat (i - off) else m !! i.
Proof.
  revert m off. induction bs as [|b bs IH]; intros m off; simpl.
  - rewrite decide_False; [reflexivity|]. unfold Zlen; simpl; lia.
  - rewrite IH, Zlen_cons. pose proof (Zlen_nonneg bs). destruct (decide (i = off)) as [->|Hne].
    + rewrite Z.sub_diag, lookup_insert_eq. repeat case_decide; try lia. reflexivity.
    + rewrite lookup_insert_ne by auto. repeat case_decide; try lia; [|reflexivity].
      replace (Z.to_nat (i - off)) with (S (Z.to_nat (i - (off + 1)))) by lia. reflexivity.
Qed.

Lemma byte_at_write f off bs i :
  byte_at (file_write f off bs) i =
    if decide (off <= i < off + Zlen bs) then default x00 (bs !! Z.to_nat (i - off))
    else byte_at f i.
Proof.
  destruct bs as [|b bs].
  - simpl. rewrite decide_False; [reflexivity|]. unfold Zlen; simpl; lia.
  - cbn [file_write byte_at f_bytes]. unfold byte_at at 1. cbn [f_bytes].
    rewrite put_bytes_lookup. now case_decide.
Qed.

Lemma f_len_write f off bs :
  f_len f <= f_len (file_write f off bs) /\
  (bs <> [] -> off + Zlen bs <= f_len (file_write f off bs)).
Proof. destruct bs; cbn [file_write f_len]; split; try lia; congruence. Qed.

Lemma file_read_length f off n bs : file_read f off n = Some bs -> length bs = n.
Proof. unfold file_read. case_decide; intros [= <-]. apply length_get_bytes. Qed.

Lemma file_has_nil f off : file_has f off [].
Proof. unfold file_has, file_read. case_decide as Hd; [reflexivity|]. exfalso. auto. Qed.

Lemma file_has_bytes f off bs :
  file_has f off bs <->
  (bs = [] \/ off + Zlen bs <= f_len f) /\ get_bytes f off (length bs) = bs.
Proof.
  unfold file_has, file_read, Zlen. case_decide as Hd; split.
  - intros [= E]. split; [|exact E]. destruct Hd; [left|right; lia]. now apply nil_length_inv.
  - intros [_ ->]. reflexivity.
  - discriminate.
  - intros [[-> | H] _]; exfalso; apply Hd; [now left|right; lia].
Qed.

Lemma file_has_app f off b1 b2 :
  0 <= off -> file_has f off (b1 ++ b2) <-> file_has f off b1 /\ file_has f (off + Zlen b1) b2.
Proof.
  intros Hoff. rewrite !file_has_bytes, length_app, get_bytes_app, Zlen_app.
  fold (Zlen b1). pose proof (Zlen_nonneg b1). pose proof (Zlen_nonneg b2).
  assert (Hn : forall l : list byte, l = [] <-> Zlen l = 0).
  { intros [|x l]; rewrite ?Zlen_cons; [tauto|]. pose proof (Zlen_nonneg l). split; [discriminate|lia]. }
  rewrite !Hn, Zlen_app. split.
  - intros [Hl E]. apply app_inj_1 in E as [E1 E2]; [|now len]. rewrite E1, E2.
    repeat split; lia.
  - intros [[Hl1 E1] [Hl2 E2]]. rewrite E1, E2. split; [lia|reflexivity].
Qed.

Lemma get_bytes_write f off bs :
  get_bytes (file_write f off bs) off (length bs) = bs.
Proof.
  apply list_eq. intros i. destruct (lt_dec i (length bs)).
  - rewrite lookup_get_bytes, byte_at_write by lia. rewrite decide_True by (unfold Zlen; lia).
    replace (Z.to_nat (off + Z.of_nat i - off)) with i by lia.
    destruct (lookup_lt_is_Some_2 bs i) as [x Hx]; [lia|]. now rewrite Hx.
  - rewrite !lookup_ge_None_2; auto; [|rewrite length_get_bytes]; lia.
Qed.

(** What was written is what is read. *)
Lemma file_has_write f off bs : file_has (file_write f off bs) off bs.
Proof.
  apply file_has_bytes. split; [|apply get_bytes_write].
  destruct (decide (bs = [])); [auto|right]. now apply f_len_write.
Qed.

(** Bytes that did not change are still there. *)
Lemma file_has_same f f' off bs :
  (off + Zlen bs <= f_len f -> off + Zlen bs <= f_len f') ->
  (forall i, off <= i < off + Zlen bs -> byte_at f' i = byte_at f i) ->
  file_has f off bs -> file_has f' off bs.
Proof.
  intros Hl Hb. rewrite !file_has_bytes. intros [[-> | Hn] E].
  - split; [now left|]. reflexivity.
  - split; [right; lia|]. rewrite <- E at 2. apply get_bytes_ext. exact Hb.
Qed.

Lemma file_has_keep f f' off bs :
  f_len f <= f_len f' ->
  (forall i, off <= i < off + Zlen bs -> byte_at f' i = byte_at f i) ->
  file_has f off bs -> file_has f' off bs.
Proof. intros Hl. apply file_has_same. lia. Qed.

Lemma file_has_write_keep f o1 b1 off bs :
  off + Zlen bs <= o1 \/ o1 + Zlen b1 <= off ->
  file_has f off bs -> file_has (file_write f o1 b1) off bs.
Proof.
  intros Hd. apply file_has_keep; [apply f_len_write|].
  intros i Hi. rewrite byte_at_write, decide_False by lia. reflexivity.
Qed.

(** ** Consequences of the laws *)
Section Laws.
Context {W D : Type} `{DiskLaws W D}.

Lemma write_at_outcome d off bs w :
  (write_at d off bs w).2 = Ok tt \/ exists e, (write_at d off bs w).2 = Err e.
Proof.
  pose proof (write_no_panic d off bs w). destruct ((write_at d off bs w).2) as [[]|e|]; eauto.
  congruence.
Qed.

Lemma write_ok_contents d off bs w :
  (write_at d off bs w).2 = Ok tt ->
  contents d (write_at d off bs w).1 = file_write (contents d w) off bs.
Proof.
  destruct (write_at d off bs w) as [w' r] eqn:E. simpl. intros ->. eapply write_ok; eauto.
Qed.

(** A write, even a torn one, keeps the data outside its range, on every
    handle. *)
Lemma write_keeps d d' off bs w o2 b2 :
  o2 + Zlen b2 <= off \/ off + Zlen bs <= o2 ->
  file_has (contents d' w) o2 b2 -> file_has (contents d' (write_at d off bs w).1) o2 b2.
Proof.
  intros Hd. destruct (same_disk_dec d d') as [Hs|Hs].
  - rewrite <- !(contents_same d d') by exact Hs. apply file_has_keep; [apply write_len|].
    intros i Hi. apply write_frame. lia.
  - now rewrite write_other.
Qed.
End Laws.

(** ** Ranges of a disk that stay as they are *)
Section Kept.
Context {W D : Type} `{DiskLaws W D}.

Definition kept (d : D) (w w' : W) (a b : Z) : Prop :=
  f_len (contents d w) <= f_len (contents d w') /\
  forall i, a <= i < b -> byte_at (contents d w') i = byte_at (contents d w) i.

Lemma kept_eq (d : D) (w w' : W) a b : contents d w' = contents d w -> kept d w w' a b.
Proof. intros E. unfold kept. rewrite E. auto with lia. Qed.

Lemma kept_trans (d : D) (w1 w2 w3 : W) a b : kept d w1 w2 a b -> kept d w2 w3 a b -> kept d w1 w3 a b.
Proof. intros [H1 H2] [H3 H4]. split; [lia|]. intros i Hi. now rewrite H4, H2. Qed.

Lemma kept_write (d d' : D) off bs (w : W) a b :
  b <= off \/ off + Zlen bs <= a -> kept d' w (write_at d off bs w).1 a b.
Proof.
  intros Hd. destruct (same_disk_dec d d') as [Hs|Hs].
  - unfold kept. rewrite <- !(contents_same d d') by exact Hs. split; [apply write_len|].
    intros i Hi. apply write_frame. lia.
  - apply kept_eq. now apply write_other.
Qed.

Lemma kept_has (d : D) (w w' : W) a b o bs :
  kept d w w' a b -> a <= o -> o + Zlen bs <= b -> file_has (contents d w) o bs -> file_has (contents d w') o bs.
Proof. intros [Hl Hk] Ho Hb. apply file_has_keep; [exact Hl|]. intros i Hi. apply Hk. lia. Qed.

End Kept.

(** ** Ranges of a disk that a loss of power leaves as they are

    A range is settled if both images have it, and agree on it. *)
Section Settled.
Context {W D : Type} `{DiskLaws W D}.

Definition settled (d : D) (w : W) (a b : Z) : Prop :=
  b <= f_len (contents d w) /\ b <= f_len (durable d w) /\
  forall i, a <= i < b -> byte_at (durable d w) i = byte_at (contents d w) i.

(** What is settled inside [a, b) stays settled. *)
Definition lasting (d : D) (w w' : W) (a b : Z) : Prop :=
  forall x y, a <= x -> y <= b -> settled d w x y -> settled d w' x y.

Lemma settled_same (d d' : D) (w : W) a b : same_disk d d' -> settled d w a b -> settled d' w a b.
Proof. intros Hs. unfold settled. now rewrite (contents_same _ _ w Hs), (durable_same _ _ w Hs). Qed.

Lemma lasting_refl (d : D) (w : W) a b : lasting d w w a b.
Proof. now intros x y _ _. Qed.

Lemma lasting_trans (d : D) (w1 w2 w3 : W) a b : lasting d w1 w2 a b -> lasting d w2 w3 a b -> lasting d w1 w3 a b.
Proof. intros H1 H2 x y Hx Hy Hs. apply H2; auto. Qed.

Lemma mixes_length (fs : list file) g n : mixes fs g -> Forall (fun f => n <= f_len f) fs -> n <= f_len g.
Proof. intros [Hl _] Hf. apply list_elem_of_fmap in Hl as (f & -> & Hin). rewrite Forall_forall in Hf. auto. Qed.

Lemma mixes_byte (fs : list file) g i b : mixes fs g -> Forall (fun f => byte_at f i = b) fs -> byte_at g i = b.
Proof.
  intros [_ Hb] Hf. specialize (Hb i). apply list_elem_of_fmap in Hb as (f & -> & Hin). rewrite Forall_forall in Hf. auto.
Qed.

Lemma mixes_has (fs : list file) g off bs : mixes fs g -> Forall (fun f => file_has f off bs) fs -> file_has g off bs.
Proof.
  intros Hm Hf. destruct (decide (bs = [])) as [->|Hne]; [apply file_has_nil|].
  assert (Hall : Forall (fun f => off + Zlen bs <= f_len f /\ get_bytes f off (length bs) = bs) fs).
  { eapply Forall_impl; [exact Hf|]. intros f Hx. apply file_has_bytes in Hx as [[|Hl] E]; [contradiction|auto]. }
  apply file_has_bytes. split.
  - right. eapply mixes_length; [exact Hm|]. eapply Forall_impl; [exact Hall|]. now intros f [].
  - apply list_eq. intros i. destruct (lt_dec i (length bs)) as [Hi|Hi].
    + rewrite lookup_get_bytes by exact Hi. destruct (lookup_lt_is_Some_2 bs i Hi) as [b Hb]. rewrite Hb. f_equal.
      eapply mixes_byte; [exact Hm|]. eapply Forall_impl; [exact Hall|]. intros f [_ E].
      rewrite <- E, lookup_get_bytes in Hb by exact Hi. now injection Hb.
    + rewrite !lookup_ge_None_2; auto; [|rewrite length_get_bytes]; lia.
Qed.

(** A write settles nothing, and unsettles nothing outside its range. *)
Lemma lasting_write (d d' : D) off bs (w : W) a b :
  ~ same_disk d d' \/ b <= a \/ b <= off \/ off + Zlen bs <= a -> lasting d' w (write_at d off bs w).1 a b.
Proof.
  intros Hd x y Hx Hy (H1 & H2 & H3). pose proof (write_durable d d' off bs w) as Hm. cbv zeta in Hm.
  assert (Hc : f_len (contents d' w) <= f_len (contents d' (write_at d off bs w).1) /\
    forall i, x <= i < y -> byte_at (contents d' (write_at d off bs w).1) i = byte_at (contents d' w) i).
  { destruct Hd as [Hd|Hd]; [rewrite write_other by exact Hd; auto with lia|].
    destruct (decide (b <= a)) as [He|He].
    - destruct (kept_write d d' off bs w off off ltac:(lia)) as [Hl _]. split; [exact Hl|]. intros i Hi. lia.
    - destruct (kept_write d d' off bs w a b ltac:(lia)) as [Hl Hk]. split; [exact Hl|]. intros i Hi. apply Hk. lia. }
  destruct Hc as [Hl Hk]. split; [lia|]. split.
  - eapply mixes_length; [exact Hm|]. repeat (constructor; [lia|]). constructor.
  - intros i Hi. rewrite Hk by exact Hi. eapply mixes_byte; [exact Hm|].
    repeat (constructor; [auto|]). constructor.
Qed.

Lemma lasting_sync (d d' : D) (w : W) a b : lasting d' w (sync d w).1 a b.
Proof.
  intros x y Hx Hy (H1 & H2 & H3). pose proof (sync_durable d d' w) as Hm. unfold settled. rewrite sync_contents.
  split; [exact H1|]. split.
  - eapply mixes_length; [exact Hm|]. repeat (constructor; [lia|]). constructor.
  - intros i Hi. eapply mixes_byte; [exact Hm|]. repeat (constructor; [auto|]). constructor.
Qed.

(** A sync that succeeds settles the file. *)
Lemma settled_sync (d : D) (w w' : W) a b : sync d w = (w', Ok tt) -> b <= f_len (contents d w') -> settled d w' a b.
Proof. intros E Hb. unfold settled. rewrite (sync_ok _ _ _ E). auto. Qed.

(** Both images of a settled range survive a loss of power. *)
Lemma settles_settled (d : D) (w w' : W) a b :
  file_settles (contents d w) (durable d w) (contents d w') (durable d w') -> settled d w a b ->
  settled d w' a b /\ forall i, a <= i < b -> byte_at (contents d w') i = byte_at (contents d w) i.
Proof.
  intros [Hl Hb] (H1 & H2 & H3).
  assert (forall i, a <= i < b -> byte_at (contents d w') i = byte_at (contents d w) i /\
    byte_at (durable d w') i = byte_at (contents d w) i) as Hboth.
  { intros i Hi. specialize (H3 i Hi). destruct (Hb i) as [[-> ->]|[[-> ->]|[-> ->]]]; auto. }
  split; [|intros i Hi; now apply Hboth]. split_and!; [destruct Hl as [[]|[[]|[]]]; lia..|].
  intros i Hi. destruct (Hboth i Hi). congruence.
Qed.

(** What a settled range holds is durable. *)
Definition stable (d : D) (w : W) (off : Z) (bs : list byte) : Prop :=
  file_has (contents d w) off bs /\ file_has (durable d w) off bs.

Lemma settled_stable (d : D) (w : W) a b off bs :
  settled d w a b -> a <= off -> off + Zlen bs <= b -> file_has (contents d w) off bs -> stable d w off bs.
Proof.
  intros (_ & Hl & Hk) Ha Hb Hf. split; [exact Hf|]. eapply file_has_same; [|intros i Hi; apply Hk; lia|exact Hf]. lia.
Qed.
End Settled.

(** ** The instances satisfy the laws *)

Lemma file_at_insert w p q f du fl :
  file_at {| w_files := <[p := f]> (w_files w); w_durable := du; w_fault := fl |} q =
    if decide (p = q) then f else file_at w q.
Proof.
  unfold file_at. simpl. case_decide as E; [subst|]; [now rewrite lookup_insert_eq|].
  now rewrite lookup_insert_ne.
Qed.

Lemma fault_budget_bound w p n : 0 <= n -> 0 <= fault_budget w p n <= n.
Proof. unfold fault_budget. destruct (w_fault w !! p); lia. Qed.

Lemma Zlen_take_budget w p (bs : list byte) :
  Zlen (take (Z.to_nat (fault_budget w p (Zlen bs))) bs) = fault_budget w p (Zlen bs).
Proof.
  pose proof (fault_budget_bound w p (Zlen bs) (Zlen_nonneg bs)).
  unfold Zlen in *. rewrite length_take. lia.
Qed.

Lemma FileDisk_write_cases d off bs w :
  FileDisk_write_at d off bs w = (w, Ok tt) /\ bs = [] \/
  (exists e, FileDisk_write_at d off bs w = (w, Err e)) \/
  exists fl r,
  FileDisk_write_at d off bs w =
    ({| w_files := <[fd_path d := file_write (file_at w (fd_path d)) off
                     (take (Z.to_nat (fault_budget w (fd_path d) (Zlen bs))) bs)]>
                     (w_files w); w_durable := w_durable w; w_fault := fl |}, r) /\ r <> Panic /\
  (r = Ok tt -> fault_budget w (fd_path d) (Zlen bs) = Zlen bs).
Proof.
  unfold FileDisk_write_at. case_decide; [left; auto|]. case_if; [right; left; eauto|].
  do 2 right. simpl. do 2 eexists. split; [reflexivity|]. case_if; split; try congruence. lia.
Qed.

Lemma FileDisk_sync_cases d w :
  FileDisk_sync d w = (flush (fd_path d) w, Ok tt) \/ FileDisk_sync d w = (w, Err OtherIo).
Proof. unfold FileDisk_sync. destruct (w_fault w !! fd_path d); [case_if|]; auto. Qed.

Lemma durable_at_flush p q w : durable_at (flush p w) q = if decide (p = q) then file_at w q else durable_at w q.
Proof.
  unfold durable_at, flush. cbn [w_durable]. case_decide as E; [subst|]; [now rewrite lookup_insert_eq|].
  now rewrite lookup_insert_ne.
Qed.

Lemma mixes_in fs f : f ∈ fs -> mixes fs f.
Proof. intros Hf. split; [|intros i]; apply list_elem_of_fmap; eauto. Qed.

#[export] Instance FileDisk_laws : DiskLaws os_world FileDisk.
Proof.
  refine {| contents d w := file_at w (fd_path d); durable d w := durable_at w (fd_path d);
            same_disk d d' := fd_path d = fd_path d' |}.
  - intros d d'. exact _.
  - now intros d d' w ->.
  - now intros d d' w ->.
  - intros d off n w bs. simpl. unfold FileDisk_read_at.
    destruct (file_read _ _ _); intros [= ->]; auto.
  - intros d off bs w w' E. simpl in E.
    destruct (FileDisk_write_cases d off bs w) as [[E' ->]|[[e E']|(fl & r & E' & _ & Hr)]];
      rewrite E' in E; [injection E as <-; reflexivity|discriminate|].
    apply pair_equal_spec in E as [<- Hr'].
    rewrite file_at_insert, decide_True, (Hr Hr') by reflexivity. f_equal.
    apply take_ge. unfold Zlen. lia.
  - intros d off bs w i Hi. simpl.
    destruct (FileDisk_write_cases d off bs w) as [[-> ?]|[[e ->]|(fl & r & -> & _)]]; try reflexivity.
    cbn [fst]. rewrite file_at_insert, decide_True, byte_at_write, Zlen_take_budget by reflexivity.
    rewrite decide_False; [reflexivity|].
    pose proof (fault_budget_bound w (fd_path d) (Zlen bs) (Zlen_nonneg bs)). lia.
  - intros d off bs w. simpl.
    destruct (FileDisk_write_cases d off bs w) as [[-> ?]|[[e ->]|(fl & r & -> & _)]];
      cbn [fst]; try lia.
    rewrite file_at_insert, decide_True by reflexivity. apply f_len_write.
  - intros d d' off bs w Hs. simpl.
    destruct (FileDisk_write_cases d off bs w) as [[-> ?]|[[e ->]|(fl & r & -> & _)]]; try reflexivity.
    cbn [fst]. now rewrite file_at_insert, decide_False.
  - intros d d' w. simpl. destruct (FileDisk_sync_cases d w) as [-> | ->]; reflexivity.
  - intros d w w' E. simpl in E. destruct (FileDisk_sync_cases d w) as [E' | E']; rewrite E' in E; [|discriminate].
    injection E as <-. now rewrite durable_at_flush, decide_True.
  - intros d d' off bs w. simpl. apply mixes_in.
    destruct (FileDisk_write_cases d off bs w) as [[-> ?]|[[e ->]|(fl & r & -> & _)]]; left.
  - intros d d' w. simpl. apply mixes_in.
    destruct (FileDisk_sync_cases d w) as [-> | ->]; [|left]. cbn [fst]. rewrite durable_at_flush. case_decide; [right; left|left].
  - intros d off bs w. simpl.
    destruct (FileDisk_write_cases d off bs w) as [[-> ?]|[[e ->]|(fl & r & -> & Hp & _)]];
      try discriminate. exact Hp.
  - intros d w. simpl. destruct (FileDisk_sync_cases d w) as [-> | ->]; discriminate.
Defined.

#[export] Instance Arc_laws {W D} `{DiskLaws W D} : DiskLaws W (Arc D).
Proof.
  refine {| contents (d : Arc D) w := contents (deref d) w; durable (d : Arc D) w := durable (deref d) w;
            same_disk (d d' : Arc D) := same_disk (deref d) (deref d') |}; intros; simpl in *.
  - apply same_disk_dec.
  - now apply contents_same.
  - now apply durable_same.
  - now apply read_ok.
  - now apply write_ok.
  - now apply write_frame.
  - apply write_len.
  - now apply write_other.
  - apply sync_contents.
  - now apply (sync_ok _ w).
  - apply write_durable.
  - apply sync_durable.
  - apply write_no_panic.
  - apply sync_no_panic.
Defined.

Lemma FileDisk_readable (d : FileDisk) (w : os_world) : readable d w.
Proof. intros off n bs E. simpl in *. unfold FileDisk_read_at. now rewrite E. Qed.
#[export] Hint Resolve FileDisk_readable : tartine.

(** Two handles of one file. *)
Lemma same_file (d d' : Arc FileDisk) : same_disk d d' <-> fd_path (deref d) = fd_path (deref d').
Proof. reflexivity. Qed.

(** ** Crashes of [FileDisk]s *)

Lemma crashed_settles w w' (d : Arc FileDisk) :
  crashed w w' -> file_settles (contents d w) (durable d w) (contents d w') (durable d w').
Proof. intros [_ Hc]. apply Hc. Qed.

Lemma crashed_refl w : crashed w w.
Proof. split; [reflexivity|]. intros p. split; [left|intros i; left]; auto. Qed.

(** Everything that has not been synced is lost. *)
Definition power_loss (w : os_world) : os_world :=
  {| w_files := w_durable w; w_durable := w_durable w; w_fault := w_fault w |}.

Lemma power_loss_crashed w : dom (w_durable w) = dom (w_files w) -> crashed w (power_loss w).
Proof.
  intros Hd. split; [|intros p; split; [right; right|intros i; right; right]; auto].
  intros p. now rewrite <- !elem_of_dom, <- Hd.
Qed.

(** Both images of a settled range are as they were. *)
Lemma crashed_settled w w' (d : Arc FileDisk) a b :
  crashed w w' -> settled d w a b ->
  settled d w' a b /\ forall i, a <= i < b -> byte_at (contents d w') i = byte_at (contents d w) i.
Proof. intros Hc. exact (settles_settled d w w' a b (crashed_settles _ _ d Hc)). Qed.

Lemma crashed_has w w' (d : Arc FileDisk) a b o bs :
  crashed w w' -> settled d w a b -> a <= o -> o + Zlen bs <= b ->
  file_has (contents d w) o bs -> file_has (contents d w') o bs.
Proof.
  intros Hc Hs Ha Hb. destruct (crashed_settled _ _ _ _ _ Hc Hs) as [(Hl & _) Hk].
  apply file_has_same; [lia|]. intros i Hi. apply Hk. lia.
Qed.

Lemma FileDisk_writable (d : FileDisk) (w : os_world) :
  w_fault w !! fd_path d = None -> writable d w.
Proof.
  intros Hf. split.
  - intros off bs Ho Hb. simpl. unfold FileDisk_write_at, fault_budget. rewrite Hf.
    case_decide; [reflexivity|]. case_if; [lia|]. simpl. now rewrite Z.eqb_refl.
  - simpl. unfold FileDisk_sync. now rewrite Hf.
Qed.

(** A [FileDisk] is a disk: after a write that succeeds, reading the range
    gives back the bytes written, through the handle and through a handle
    opened later on the same path, and every read of a disjoint range that
    succeeded before gives the same bytes. *)
Theorem FileDisk_write_read d off bs (w w' : os_world) :
  0 <= off -> bs <> [] -> write_at d off bs w = (w', Ok tt) ->
  read_at d off (length bs) w' = Ok bs /\
  (exists cap, FileDisk_open (fd_path d) w' = (w', Ok {| fd_path := fd_path d; fd_capacity := cap |}) /\
     off + Zlen bs <= cap) /\
  (forall o n b, o + Z.of_nat n <= off \/ off + Zlen bs <= o ->
     read_at d o n w = Ok b -> read_at d o n w' = Ok b).
Proof.
  intros Ho Hne E. pose proof (write_ok _ _ _ _ _ E) as C.
  split; [|split].
  - apply FileDisk_readable. rewrite C. apply file_has_write.
  - simpl in E, C. unfold FileDisk_write_at in E.
    rewrite decide_False in E by auto. case_if; [discriminate|]. apply pair_equal_spec in E as [<- _].
    unfold FileDisk_open. simpl. rewrite lookup_insert_eq. eexists. split; [reflexivity|].
    rewrite file_at_insert, decide_True in C by reflexivity. rewrite C. now apply f_len_write.
  - intros o n b Hd Hr. apply read_ok in Hr. pose proof (file_read_length _ _ _ _ Hr) as <-.
    apply FileDisk_readable.
    change w' with (w', @Ok io_error unit tt).1. rewrite <- E. apply write_keeps; auto.
Qed.

Definition demo_path : path := [x64].
Definition demo_world : os_world :=
  {| w_files := {[ demo_path := {| f_len := 4096; f_bytes := ∅ |} ]};
     w_durable := {[ demo_path := {| f_len := 4096; f_bytes := ∅ |} ]}; w_fault := ∅ |}.
Definition demo_disk : FileDisk := {| fd_path := demo_path; fd_capacity := 4096 |}.

Lemma FileDisk_write_read_witness :
  read_at demo_disk 100 2 (write_at demo_disk 100 [x68; x69] demo_world).1 = Ok [x68; x69].
Proof.
  refine (proj1 (FileDisk_write_read demo_disk 100 [x68; x69] demo_world
           (write_at demo_disk 100 [x68; x69] demo_world).1 _ _ _));
    [lia|discriminate|vm_compute; reflexivity].
Defined.
