(* ===== verification/Framing.v ===== *)
(** * Scanning a log of framed entries

    [segment::scan] and [wal::scan] are separate implementations of one idea:
    read a fixed header, check its magic, read the payload it announces,
    check the payload's checksum, and stop at the first entry that is not
    there.  This file states the idea once, over an abstract frame format
    ([Format]), and proves what a scan finds; the two logs instantiate it. *)

From Stdlib Require Import ZArith Lia.
From S2P Require Import Prelude Disk.

(** A frame format: entries [R], header length, capacity of the region, how a
    header is read ([None]: not the magic) and how the payload is checked
    ([None]: checksum mismatch). *)
Record Format (R A : Type) := {
  hdr_len : nat;
  cap : Z;
  parse_hdr : list byte -> option (A * Z);
  check_payload : A -> list byte -> option R;
  enc : R -> list byte;
  wf_entry_of : R -> Prop;
}.
Arguments hdr_len {R A} _.
Arguments cap {R A} _.
Arguments parse_hdr {R A} _ _.
Arguments check_payload {R A} _ _ _.
Arguments enc {R A} _ _.
Arguments wf_entry_of {R A} _ _.

(** The format is consistent: an entry is encoded as a header that announces
    its payload, and a header and payload that pass the checks are the
    encoding of what they decode to. *)
Class FormatLaws {R A} (F : Format R A) := {
  hdr_pos : (0 < hdr_len F)%nat;
  cap_pos : 0 <= cap F;
  enc_split r : wf_entry_of F r -> exists h p a,
    enc F r = h ++ p /\ length h = hdr_len F /\ parse_hdr F h = Some (a, Zlen p) /\
    check_payload F a p = Some r;
  dec_enc h p a r :
    length h = hdr_len F -> parse_hdr F h = Some (a, Zlen p) -> check_payload F a p = Some r ->
    enc F r = h ++ p /\ wf_entry_of F r;
  parse_len h a n : parse_hdr F h = Some (a, n) -> 0 <= n;
}.

(** The outcome of a scan. *)
Record log_scan (R : Type) := { ls_entries : list R; ls_resume : Z; ls_corrupt : option Z }.
Arguments ls_entries {R} _.
Arguments ls_resume {R} _.
Arguments ls_corrupt {R} _.

Section Scan.
Context {R A : Type} (F : Format R A) `{!FormatLaws F}.
Context {W D : Type} `{DiskLaws W D}.

Definition stop_at (cursor : Z) (rs : list R) (c : option Z) : log_scan R :=
  {| ls_entries := rs; ls_resume := cursor; ls_corrupt := c |}.

Definition scan_body (d : D) (base : Z) (w : W) (st : Z * list R) : (Z * list R) + log_scan R :=
  let '(cursor, rs) := st in
  if cap F <? cursor + Z.of_nat (hdr_len F) then inr (stop_at cursor rs None)
  else match read_at d (as_u64 (base + cursor)) (hdr_len F) w with
  | Ok h =>
      match parse_hdr F h with
      | None => inr (stop_at cursor rs None)
      | Some (a, len) =>
          if cap F <? cursor + Z.of_nat (hdr_len F) + len then inr (stop_at cursor rs None)
          else match read_at d (as_u64 (base + cursor + Z.of_nat (hdr_len F))) (Z.to_nat len) w with
          | Ok p =>
              match check_payload F a p with
              | None => inr (stop_at cursor rs (Some cursor))
              | Some r => inl (cursor + Z.of_nat (hdr_len F) + len, rs ++ [r])
              end
          | _ => inr (stop_at cursor rs None)
          end
      end
  | _ => inr (stop_at cursor rs None)
  end.

(** Enough fuel: every round consumes at least a header. *)
Definition scan_fuel : positive := Z.to_pos (cap F / Z.of_nat (hdr_len F) + 2).

(** The bytes of a sequence of entries. *)
Definition enc_log (rs : list R) : list byte := concat (enc F <$> rs).

Lemma enc_log_app r1 r2 : enc_log (r1 ++ r2) = enc_log r1 ++ enc_log r2.
Proof. unfold enc_log. now rewrite fmap_app, concat_app. Qed.

Lemma enc_log_snoc rs r : enc_log (rs ++ [r]) = enc_log rs ++ enc F r.
Proof. rewrite enc_log_app. unfold enc_log at 2. simpl. now rewrite app_nil_r. Qed.

(** One round over a stored frame, valid or not. *)
Lemma scan_body_frame d base w cursor rs h p a :
  readable d w -> 0 <= base -> 0 <= cursor -> base + cap F < 2 ^ 64 ->
  length h = hdr_len F -> parse_hdr F h = Some (a, Zlen p) ->
  cursor + Zlen (h ++ p) <= cap F -> file_has (contents d w) (base + cursor) (h ++ p) ->
  scan_body d base w (cursor, rs) =
    match check_payload F a p with
    | None => inr (stop_at cursor rs (Some cursor))
    | Some r => inl (cursor + Zlen (h ++ p), rs ++ [r])
    end.
Proof.
  intros Hr Hb Hc Hcap Hh Hp Hfit Hhas.
  apply file_has_app in Hhas as [Hx Hy]; [|lia].
  rewrite Zlen_app in *. assert (Hzh : Zlen h = Z.of_nat (hdr_len F)) by (unfold Zlen; lia).
  pose proof (Zlen_nonneg p). pose proof hdr_pos. unfold scan_body.
  case_if; [lia|]. unfold as_u64. rewrite (wrap_small 64 (base + cursor)) by (unfold fits; lia).
  rewrite <- Hh at 1. rewrite (Hr _ _ _ Hx), Hp. case_if; [lia|].
  rewrite wrap_small by (unfold fits; lia).
  rewrite <- Hzh, Z.add_assoc. unfold Zlen at 2. rewrite Nat2Z.id.
  now rewrite (Hr _ _ _ Hy).
Qed.

Lemma scan_body_entry d base w cursor rs r :
  readable d w -> wf_entry_of F r -> 0 <= base -> 0 <= cursor -> base + cap F < 2 ^ 64 ->
  cursor + Zlen (enc F r) <= cap F ->
  file_has (contents d w) (base + cursor) (enc F r) ->
  scan_body d base w (cursor, rs) = inl (cursor + Zlen (enc F r), rs ++ [r]).
Proof.
  intros Hr Hwf Hb Hc Hcap Hfit Hhas.
  destruct (enc_split r Hwf) as (h & p & a & E & Hh & Hp & Hk). rewrite E in *.
  now rewrite (scan_body_frame d base w cursor rs h p a), Hk.
Qed.

(** A scan steps over every stored entry. *)
Lemma scan_body_log d base w rs cursor rs0 n :
  readable d w -> Forall (wf_entry_of F) rs -> 0 <= base -> 0 <= cursor -> base + cap F < 2 ^ 64 ->
  cursor + Zlen (enc_log rs) <= cap F ->
  file_has (contents d w) (base + cursor) (enc_log rs) ->
  loop_nat (scan_body d base w) (length rs + n) (cursor, rs0) =
  loop_nat (scan_body d base w) n (cursor + Zlen (enc_log rs), rs0 ++ rs).
Proof.
  intros Hr Hwf Hb. revert cursor rs0. induction Hwf as [|r rs Hw Hwf IH]; intros cursor rs0 Hc Hcap Hfit Hhas.
  - simpl. unfold enc_log, Zlen. simpl. now rewrite Z.add_0_r, app_nil_r.
  - cbn [length Nat.add loop_nat]. change (enc_log (r :: rs)) with (enc F r ++ enc_log rs) in *.
    rewrite Zlen_app in *. pose proof (Zlen_nonneg (enc F r)). pose proof (Zlen_nonneg (enc_log rs)).
    apply file_has_app in Hhas as [Hx Hy]; [|lia].
    rewrite (scan_body_entry d base w cursor rs0 r) by (auto; lia). rewrite IH; auto; try lia.
    + now rewrite Z.add_assoc, <- app_assoc.
    + now rewrite Z.add_assoc.
Qed.

(** Everything a scan returns is really stored, as one run of valid entries
    from the start of the region. *)
Definition scan_inv (d : D) (base : Z) (w : W) (st : Z * list R) : Prop :=
  let '(cursor, rs) := st in
  cursor = Zlen (enc_log rs) /\ cursor <= cap F /\ Forall (wf_entry_of F) rs /\
  file_has (contents d w) base (enc_log rs).

Lemma scan_inv_init d base w : scan_inv d base w (0, []).
Proof. repeat split; auto using file_has_nil, cap_pos. Qed.

Lemma scan_body_inv d base w st st' :
  0 <= base -> base + cap F < 2 ^ 64 ->
  scan_inv d base w st -> scan_body d base w st = inl st' ->
  scan_inv d base w st' /\ st.1 + Z.of_nat (hdr_len F) <= st'.1.
Proof.
  destruct st as [cursor rs]. intros Hb Hcap (Hc & Hle & Hwf & Hhas) E. unfold scan_body in E.
  pose proof (Zlen_nonneg (enc_log rs)). pose proof hdr_pos.
  case_if; [discriminate|]. destruct (read_at d _ _ w) as [h| |] eqn:E1; try discriminate.
  destruct (parse_hdr F h) as [[a n]|] eqn:E2; [|discriminate]. pose proof (parse_len _ _ _ E2).
  case_if; [discriminate|]. destruct (read_at d _ (Z.to_nat n) w) as [p| |] eqn:E3; try discriminate.
  destruct (check_payload F a p) as [r|] eqn:E4; [|discriminate]. injection E as <-.
  apply read_ok in E1, E3. unfold as_u64 in *. rewrite wrap_small in E1, E3 by (unfold fits; lia).
  pose proof (file_read_length _ _ _ _ E1) as L1. pose proof (file_read_length _ _ _ _ E3) as L3.
  destruct (dec_enc h p a r) as [E5 Hr]; auto. { rewrite E2. do 2 f_equal. unfold Zlen. lia. }
  assert (Z2 : Zlen (enc F r) = Z.of_nat (hdr_len F) + n) by (rewrite E5, Zlen_app; unfold Zlen; lia).
  cbn [fst]. split; [|lia]. unfold scan_inv. rewrite enc_log_snoc, Zlen_app.
  split; [lia|]. split; [lia|]. split; [apply Forall_app; auto|].
  apply file_has_app; [lia|]. split; [exact Hhas|]. rewrite E5. apply file_has_app; [lia|].
  rewrite <- Hc. split.
  - unfold file_has. now rewrite L1.
  - unfold file_has. rewrite L3. rewrite <- E3. f_equal. unfold Zlen. lia.
Qed.

(** How a scan can end. *)
Lemma scan_body_stop d base w st r :
  scan_body d base w st = inr r -> exists c, r = stop_at st.1 st.2 c /\ (c = None \/ c = Some st.1).
Proof.
  destruct st as [cursor rs]. unfold scan_body. intros E. cbn [fst snd].
  repeat first [case_match | progress simplify_eq/=]; eauto.
Qed.

Lemma scan_terminates d base w st :
  0 <= base -> base + cap F < 2 ^ 64 -> scan_inv d base w st -> 0 <= st.1 ->
  exists r, loop_pos (scan_body d base w) scan_fuel st = inr r.
Proof.
  intros Hb Hcap Hi Hst. pose proof hdr_pos. rewrite loop_pos_nat.
  set (m := fun st : Z * list R => Z.to_nat ((cap F - st.1) / Z.of_nat (hdr_len F))).
  apply (loop_nat_terminates _ (scan_inv d base w) m); [|exact Hi|].
  - intros [c rs] [c' rs'] Hs E. destruct (scan_body_inv _ _ _ _ _ Hb Hcap Hs E) as [Hs' Hlt].
    split; [exact Hs'|]. destruct Hs' as (? & ? & _), Hs as (? & ? & _). unfold m. cbn [fst] in *.
    pose proof (Z.div_pos (cap F - c') (Z.of_nat (hdr_len F))).
    assert ((cap F - c') / Z.of_nat (hdr_len F) < (cap F - c) / Z.of_nat (hdr_len F)); [|lia].
    apply Z.le_lt_trans with ((cap F - c + (-1) * Z.of_nat (hdr_len F)) / Z.of_nat (hdr_len F)).
    + apply Z.div_le_mono; lia.
    + rewrite Z.div_add by lia. lia.
  - unfold m, scan_fuel. pose proof cap_pos.
    assert ((cap F - st.1) / Z.of_nat (hdr_len F) <= cap F / Z.of_nat (hdr_len F))
      by (apply Z.div_le_mono; lia).
    pose proof (Z.div_pos (cap F) (Z.of_nat (hdr_len F))). lia.
Qed.

(** The whole scan: it returns, what it returns is stored, and it returns
    every entry of a stored run. *)
Definition scanned (d : D) (base : Z) (w : W) (r : log_scan R) : Prop :=
  ls_resume r = Zlen (enc_log (ls_entries r)) /\ ls_resume r <= cap F /\
  Forall (wf_entry_of F) (ls_entries r) /\
  file_has (contents d w) base (enc_log (ls_entries r)) /\
  (ls_corrupt r = None \/ ls_corrupt r = Some (ls_resume r)).

Lemma scan_total d base w :
  0 <= base -> base + cap F < 2 ^ 64 ->
  exists r, loop_pos (scan_body d base w) scan_fuel (0, []) = inr r /\ scanned d base w r.
Proof.
  intros Hb Hcap. destruct (scan_terminates d base w (0, [])) as [r Hr];
    auto using scan_inv_init; [simpl; lia|].
  exists r. split; [exact Hr|]. rewrite loop_pos_nat in Hr.
  refine (loop_nat_inv _ (scan_inv d base w) (scanned d base w) _ _ _ _ _ (scan_inv_init _ _ _) Hr).
  - intros st st' Hi E. now apply (scan_body_inv _ _ _ _ _ Hb Hcap Hi E).
  - intros [c rs] q (Hc & Hle & Hwf & Hhas) E. apply scan_body_stop in E as (o & -> & Ho).
    unfold scanned, stop_at. cbn [ls_resume ls_entries ls_corrupt fst snd] in *. auto.
Qed.

(** A stored run is found: the scan resumes after it. *)
Lemma scan_finds d base w rs r :
  readable d w -> Forall (wf_entry_of F) rs -> 0 <= base -> base + cap F < 2 ^ 64 ->
  Zlen (enc_log rs) <= cap F -> file_has (contents d w) base (enc_log rs) ->
  loop_pos (scan_body d base w) scan_fuel (0, []) = inr r ->
  exists n, loop_nat (scan_body d base w) n (Zlen (enc_log rs), rs) = inr r.
Proof.
  intros Hr Hwf Hb Hcap Hfit Hhas E. rewrite loop_pos_nat in E.
  exists (Pos.to_nat scan_fuel).
  apply (loop_nat_mono _ _ (length rs + Pos.to_nat scan_fuel)) in E; [|lia].
  rewrite scan_body_log in E; auto; rewrite ?Z.add_0_r; auto; lia.
Qed.

Lemma scan_keeps_prefix d base w st n r :
  loop_nat (scan_body d base w) n st = inr r -> st.2 `prefix_of` ls_entries r.
Proof.
  apply (loop_nat_inv _ (fun st' => st.2 `prefix_of` st'.2) (fun r => st.2 `prefix_of` ls_entries r)); [| |reflexivity].
  - intros [c rs] st' Hp E. unfold scan_body in E. cbn [snd] in Hp.
    repeat first [case_match | progress simplify_eq/=]; auto using prefix_app_r.
  - intros st' q Hp E. apply scan_body_stop in E as (c & -> & _). exact Hp.
Qed.

(** Every entry of a stored run comes first in what the scan returns. *)
Lemma scan_prefix d base w rs r :
  readable d w -> Forall (wf_entry_of F) rs -> 0 <= base -> base + cap F < 2 ^ 64 ->
  Zlen (enc_log rs) <= cap F -> file_has (contents d w) base (enc_log rs) ->
  loop_pos (scan_body d base w) scan_fuel (0, []) = inr r -> rs `prefix_of` ls_entries r.
Proof.
  intros. edestruct scan_finds as [n Hn]; eauto. apply (scan_keeps_prefix _ _ _ _ _ _ Hn).
Qed.

(** ... and it is all that it returns when no frame starts after it. *)
Lemma scan_exact d base w rs r :
  readable d w -> Forall (wf_entry_of F) rs -> 0 <= base -> base + cap F < 2 ^ 64 ->
  Zlen (enc_log rs) <= cap F -> file_has (contents d w) base (enc_log rs) ->
  (Zlen (enc_log rs) + Z.of_nat (hdr_len F) <= cap F ->
   forall h, file_read (contents d w) (base + Zlen (enc_log rs)) (hdr_len F) = Some h ->
     parse_hdr F h = None) ->
  loop_pos (scan_body d base w) scan_fuel (0, []) = inr r ->
  r = stop_at (Zlen (enc_log rs)) rs None.
Proof.
  intros Hr Hwf Hb Hcap Hfit Hhas Hend E. destruct (scan_finds d base w rs r) as [[|n] Hn]; auto; [discriminate|].
  cbn [loop_nat] in Hn.
  assert (scan_body d base w (Zlen (enc_log rs), rs) = inr (stop_at (Zlen (enc_log rs)) rs None)) as Es;
    [|rewrite Es in Hn; congruence].
  unfold scan_body. case_if; [reflexivity|]. destruct (read_at d _ (hdr_len F) w) eqn:E1; auto.
  apply read_ok in E1. unfold as_u64 in E1. pose proof (Zlen_nonneg (enc_log rs)).
  rewrite wrap_small in E1 by (unfold fits; lia). rewrite (Hend ltac:(lia) _ E1). reflexivity.
Qed.

(** A frame that is there but fails its check stops the scan and is
    reported. *)
Lemma scan_corrupt d base w rs h p a r :
  readable d w -> Forall (wf_entry_of F) rs -> 0 <= base -> base + cap F < 2 ^ 64 ->
  length h = hdr_len F -> parse_hdr F h = Some (a, Zlen p) -> check_payload F a p = None ->
  Zlen (enc_log rs) + Zlen (h ++ p) <= cap F ->
  file_has (contents d w) base (enc_log rs ++ h ++ p) ->
  loop_pos (scan_body d base w) scan_fuel (0, []) = inr r ->
  r = stop_at (Zlen (enc_log rs)) rs (Some (Zlen (enc_log rs))).
Proof.
  intros Hr Hwf Hb Hcap Hh Hp Hk Hfit Hhas E. apply file_has_app in Hhas as [Hx Hy]; [|lia].
  pose proof (Zlen_nonneg (h ++ p)). pose proof (Zlen_nonneg (enc_log rs)).
  destruct (scan_finds d base w rs r) as [[|n] Hn]; auto; [lia|discriminate|].
  cbn [loop_nat] in Hn. rewrite (scan_body_frame d base w _ rs h p a), Hk in Hn by auto. congruence.
Qed.
End Scan.
