(* ===== verification/Segment.v ===== *)
(** * The chunk-log segment ([crates/tartine-core/src/segment.rs])

    Records are appended to a segment behind a magic number and a checksum;
    after a crash [scan] finds how far the writer got.  The definitions
    follow the source; the proofs instantiate [Framing].  The life of a
    segment (appends, failed appends, syncs, crashes, losses of power and
    recoveries) is a step relation, and the durability theorems are by
    induction on it. *)

From Stdlib Require Import ZArith Lia.
From S2P Require Import Prelude Crc32c Disk Framing.

Definition SEGMENT_SIZE_BYTES : Z := 256 * 1024 * 1024.
Definition RECORD_MAGIC : Z := 0x54415243.
Definition HEADER_LEN : nat := (4 + 8 + 8 + 4 + 4)%nat.

(** [Record]. *)
Record SegRecord := {
  sr_inode : Z;
  sr_chunk_seq : Z;
  sr_checksum : Z;
  sr_payload : list byte;
}.

(** [Record::new]. *)
Definition Record_new (inode chunk_seq : Z) (payload : list byte) : SegRecord :=
  {| sr_inode := inode; sr_chunk_seq := chunk_seq; sr_checksum := checksum payload;
     sr_payload := payload |}.

Definition encode (r : SegRecord) : list byte :=
  to_le 4 RECORD_MAGIC ++ to_le 8 (sr_inode r) ++ to_le 8 (sr_chunk_seq r) ++
  to_le 4 (sr_checksum r) ++ to_le 4 (as_u32 (Zlen (sr_payload r))) ++ sr_payload r.

(** [SegmentWriter]. *)
Record SegmentWriter (D : Type) := { sw_disk : D; sw_base_offset : Z; sw_cursor : Z }.
Arguments sw_disk {D} _.
Arguments sw_base_offset {D} _.
Arguments sw_cursor {D} _.

Record ScanResult := { records : list SegRecord; resume_at : Z; corruption_at : option Z }.

Section Ops.
Context {W D : Type} `{Disk W D}.

Definition SegmentWriter_new (d : D) (base_offset : Z) : SegmentWriter D :=
  {| sw_disk := d; sw_base_offset := base_offset; sw_cursor := 0 |}.

Definition SegmentWriter_resume (d : D) (base_offset resume_at : Z) : SegmentWriter D :=
  {| sw_disk := d; sw_base_offset := base_offset; sw_cursor := resume_at |}.

Definition remaining (s : SegmentWriter D) : Z := Z.max 0 (SEGMENT_SIZE_BYTES - sw_cursor s).

Definition append (r : SegRecord) : io (W * SegmentWriter D) io_error Z :=
  let encoded := encode r in
  let! s := io_self in
  if remaining s <? Zlen encoded then io_err WriteZero
  else
    let offset := as_u64 (sw_base_offset s + sw_cursor s) in
    let! _ := io_world (write_at (sw_disk s) offset encoded) in
    let! _ := io_set_self {| sw_disk := sw_disk s; sw_base_offset := sw_base_offset s;
                             sw_cursor := as_u64 (sw_cursor s + Zlen encoded) |} in
    io_ret offset.

Definition SegmentWriter_sync : io (W * SegmentWriter D) io_error unit :=
  let! s := io_self in io_world (sync (sw_disk s)).

(** The body of the [loop] of [scan]; a [break] carries the result. *)
Definition scan_loop (d : D) (base_offset : Z) (w : W) (st : Z * list SegRecord) :
    (Z * list SegRecord) + ScanResult :=
  let '(cursor, rs) := st in
  let done c := inr {| records := rs; resume_at := cursor; corruption_at := c |} in
  if SEGMENT_SIZE_BYTES <? cursor + Z.of_nat HEADER_LEN then done None
  else match read_at d (as_u64 (base_offset + cursor)) HEADER_LEN w with
  | Ok header =>
      if bool_decide (field header 0 4 <> to_le 4 RECORD_MAGIC) then done None
      else
        let inode := from_le (field header 4 12) in
        let chunk_seq := from_le (field header 12 20) in
        let sum := from_le (field header 20 24) in
        let len := from_le (field header 24 28) in
        if SEGMENT_SIZE_BYTES <? cursor + Z.of_nat HEADER_LEN + len then done None
        else match read_at d (as_u64 (base_offset + cursor + Z.of_nat HEADER_LEN))
                     (Z.to_nat len) w with
        | Ok payload =>
            if negb (checksum payload =? sum) then done (Some cursor)
            else inl (cursor + Z.of_nat HEADER_LEN + len,
                      rs ++ [{| sr_inode := inode; sr_chunk_seq := chunk_seq;
                                sr_checksum := sum; sr_payload := payload |}])
        | _ => done None
        end
  | _ => done None
  end.

(** [scan].  The fuel (one round per possible header, plus two) is never
    used up, so the [Panic] is dead. *)
Definition scan (d : D) (base_offset : Z) (w : W) : result io_error ScanResult :=
  match loop_pos (scan_loop d base_offset w)
          (Z.to_pos (SEGMENT_SIZE_BYTES / Z.of_nat HEADER_LEN + 2)) (0, []) with
  | inr r => Ok r
  | inl _ => Panic
  end.
End Ops.

(** ** The segment as a frame format *)

Definition wf_record (r : SegRecord) : Prop :=
  u64 (sr_inode r) /\ u64 (sr_chunk_seq r) /\ u32 (Zlen (sr_payload r)) /\
  sr_checksum r = checksum (sr_payload r).

Definition seg_format : Format SegRecord (Z * Z * Z) := {|
  hdr_len := HEADER_LEN;
  cap := SEGMENT_SIZE_BYTES;
  parse_hdr h :=
    if bool_decide (field h 0 4 <> to_le 4 RECORD_MAGIC) then None
    else Some (from_le (field h 4 12), from_le (field h 12 20), from_le (field h 20 24),
               from_le (field h 24 28));
  check_payload a p :=
    let '(i, s, c) := a in
    if negb (checksum p =? c) then None
    else Some {| sr_inode := i; sr_chunk_seq := s; sr_checksum := c; sr_payload := p |};
  enc := encode;
  wf_entry_of := wf_record;
|}.

Lemma length_encode r : length (encode r) = (HEADER_LEN + length (sr_payload r))%nat.
Proof. unfold encode, HEADER_LEN. len. Qed.

Lemma Zlen_encode r : Zlen (encode r) = 28 + Zlen (sr_payload r).
Proof. unfold Zlen. rewrite length_encode. unfold HEADER_LEN. lia. Qed.

(** The header of a record, and the five fields it is cut into. *)
Definition header_of (r : SegRecord) : list byte :=
  to_le 4 RECORD_MAGIC ++ to_le 8 (sr_inode r) ++ to_le 8 (sr_chunk_seq r) ++
  to_le 4 (sr_checksum r) ++ to_le 4 (as_u32 (Zlen (sr_payload r))).

Lemma encode_header r : encode r = header_of r ++ sr_payload r.
Proof. unfold encode, header_of. now rewrite <- !app_assoc. Qed.

Lemma length_header_of r : length (header_of r) = HEADER_LEN.
Proof. unfold header_of, HEADER_LEN. len. Qed.

Lemma header_fields r :
  field (header_of r) 0 4 = to_le 4 RECORD_MAGIC /\
  field (header_of r) 4 12 = to_le 8 (sr_inode r) /\
  field (header_of r) 12 20 = to_le 8 (sr_chunk_seq r) /\
  field (header_of r) 20 24 = to_le 4 (sr_checksum r) /\
  field (header_of r) 24 28 = to_le 4 (as_u32 (Zlen (sr_payload r))).
Proof. unfold header_of. generalize (as_u32 (Zlen (sr_payload r))). intros n. repeat split. Qed.

Lemma header_parses r :
  wf_record r ->
  parse_hdr seg_format (header_of r) =
    Some (sr_inode r, sr_chunk_seq r, sr_checksum r, Zlen (sr_payload r)).
Proof.
  intros (Hi & Hs & Hl & Hc). destruct (header_fields r) as (E0 & E1 & E2 & E3 & E4).
  unfold seg_format, parse_hdr. rewrite E0, E1, E2, E3, E4, bool_decide_false by auto.
  unfold as_u32. rewrite (wrap_small 32) by exact Hl.
  rewrite !(from_to_le_fits 8 64), !(from_to_le_fits 4 32) by (auto; rewrite Hc; apply checksum_fits).
  reflexivity.
Qed.

Lemma header_rebuild h i s c n :
  length h = HEADER_LEN ->
  parse_hdr seg_format h = Some (i, s, c, n) ->
  h = to_le 4 RECORD_MAGIC ++ to_le 8 i ++ to_le 8 s ++ to_le 4 c ++ to_le 4 n /\
  u64 i /\ u64 s /\ u32 c /\ u32 n.
Proof.
  intros Hh. unfold HEADER_LEN in Hh. unfold seg_format, parse_hdr.
  case_bool_decide as Hm; [discriminate|]. intros [= <- <- <- <-].
  assert (Hl : forall a b, (b <= 28)%nat -> length (field h a b) = (b - a)%nat).
  { intros. apply length_field. rewrite Hh. lia. }
  split_and!; try (apply from_le_fits; unfold Zlen; rewrite Hl by lia; reflexivity).
  rewrite !to_from_le, <- Hm by (apply Hl; lia).
  transitivity (drop 0 h); [reflexivity|].
  rewrite (field_split h 0 4), (field_split h 4 12), (field_split h 12 20), (field_split h 20 24),
    (field_split h 24 28) by lia.
  rewrite (drop_ge h 28), app_nil_r by lia. reflexivity.
Qed.

#[export] Instance seg_format_laws : FormatLaws seg_format.
Proof.
  constructor.
  - unfold seg_format, hdr_len, HEADER_LEN. lia.
  - discriminate.
  - intros r Hwf. exists (header_of r), (sr_payload r), (sr_inode r, sr_chunk_seq r, sr_checksum r).
    split; [apply encode_header|]. split; [apply length_header_of|].
    split; [now apply header_parses|]. destruct Hwf as (_ & _ & _ & Hc).
    cbn [check_payload seg_format]. rewrite Hc, Z.eqb_refl. simpl. rewrite <- Hc. now destruct r.
  - intros h p [[i s] c] r Hh Hp Hk. destruct (header_rebuild _ _ _ _ _ Hh Hp) as (-> & Hi & Hs & Hc & Hn).
    cbn [check_payload seg_format] in Hk. case_if; [discriminate|]. injection Hk as <-.
    apply negb_false_iff, Z.eqb_eq in Heqb. split; [|unfold wf_record; simpl; split_and!; auto].
    cbn [enc seg_format]. unfold encode, as_u32. cbn [sr_inode sr_chunk_seq sr_checksum sr_payload].
    rewrite wrap_small by exact Hn. now rewrite <- !app_assoc.
  - intros h [[i s] c] n Hp. unfold seg_format, parse_hdr in Hp. case_bool_decide; [discriminate|].
    injection Hp as <- <- <- <-. apply from_le_bound.
Qed.

Definition to_result (r : log_scan SegRecord) : ScanResult :=
  {| records := ls_entries r; resume_at := ls_resume r; corruption_at := ls_corrupt r |}.

Section Proofs.
Context {W D : Type} `{DiskLaws W D}.

Lemma scan_loop_generic (d : D) base (w : W) st :
  scan_loop d base w st =
    match scan_body seg_format d base w st with inl st' => inl st' | inr r => inr (to_result r) end.
Proof.
  destruct st as [cursor rs]. unfold scan_loop, scan_body.
  cbn [cap hdr_len parse_hdr check_payload seg_format].
  case_if; [reflexivity|]. destruct (read_at d _ HEADER_LEN w) as [h| |]; try reflexivity.
  case_bool_decide; [reflexivity|]. case_if; [reflexivity|].
  destruct (read_at d _ _ w); try reflexivity. case_if; reflexivity.
Qed.

Lemma scan_generic (d : D) base (w : W) :
  scan d base w =
    match loop_pos (scan_body seg_format d base w) (scan_fuel seg_format) (0, []) with
    | inr r => Ok (to_result r)
    | inl _ => Panic
    end.
Proof.
  unfold scan. rewrite (loop_pos_map _ _ to_result (scan_loop_generic d base w)).
  change (Z.to_pos _) with (scan_fuel seg_format).
  destruct (loop_pos (scan_body seg_format d base w) _ _); reflexivity.
Qed.

(** The segment's bytes for a run of records. *)
Abbreviation seg_bytes := (enc_log seg_format).

Lemma seg_bytes_one r : seg_bytes [r] = encode r.
Proof. apply app_nil_r. Qed.

(** The segment region lies in the address space. *)
Definition wf_base (base : Z) : Prop := 0 <= base /\ base + SEGMENT_SIZE_BYTES < 2 ^ 64.

Lemma scan_returns (d : D) base (w : W) :
  wf_base base -> exists r, scan d base w = Ok (to_result r) /\ scanned seg_format d base w r /\
    loop_pos (scan_body seg_format d base w) (scan_fuel seg_format) (0, []) = inr r.
Proof.
  intros [Hb Hc]. destruct (scan_total seg_format d base w) as (r & Hr & Hs); auto.
  exists r. split; [|split; assumption]. rewrite scan_generic, Hr. reflexivity.
Qed.

(** One append, by outcome. *)
Lemma append_cases r (w : W) (s : SegmentWriter D) ws' out :
  append r (w, s) = (ws', out) ->
  (ws' = (w, s) /\ out = Err WriteZero /\ remaining s < Zlen (encode r)) \/
  (Zlen (encode r) <= remaining s /\
   let off := as_u64 (sw_base_offset s + sw_cursor s) in
   ws'.1 = (write_at (sw_disk s) off (encode r) w).1 /\
   ((out = Ok off /\ (write_at (sw_disk s) off (encode r) w).2 = Ok tt /\
     ws'.2 = {| sw_disk := sw_disk s; sw_base_offset := sw_base_offset s;
                sw_cursor := as_u64 (sw_cursor s + Zlen (encode r)) |}) \/
    (exists e, out = Err e /\ (write_at (sw_disk s) off (encode r) w).2 = Err e /\ ws'.2 = s))).
Proof.
  unfold append, io_bind, io_self. cbn [snd]. case_if.
  - unfold io_err. intros [= <- <-]. left. apply Z.ltb_lt in Heqb. auto.
  - apply Z.ltb_ge in Heqb. intros E. right. split; [lia|].
    pose proof (write_no_panic (sw_disk s) (as_u64 (sw_base_offset s + sw_cursor s)) (encode r) w) as Hp.
    unfold io_world, io_set_self, io_ret in E. simpl in *.
    destruct (write_at _ _ _ w) as [w1 [[]|e|]]; simplify_eq/=; eauto 8.
Qed.

(** ** The life of a segment

    The ghost state beside the world and the writer is the list of records
    whose append was acknowledged, and whether a write has failed since the
    region was fresh.  A crash is [step_recover]: the writer is lost, the
    segment is scanned and a new writer resumes. *)
Record seg_state := {
  ss_world : W;
  ss_writer : SegmentWriter D;
  ss_acked : list SegRecord;
  ss_torn : bool;
}.

Inductive seg_step (d : D) (base : Z) : seg_state -> seg_state -> Prop :=
  | step_append w s acked torn r w' s' off :
      wf_record r -> append r (w, s) = ((w', s'), Ok off) ->
      seg_step d base {| ss_world := w; ss_writer := s; ss_acked := acked; ss_torn := torn |}
        {| ss_world := w'; ss_writer := s'; ss_acked := acked ++ [r]; ss_torn := torn |}
  | step_append_fails w s acked torn r w' s' e :
      append r (w, s) = ((w', s'), Err e) ->
      seg_step d base {| ss_world := w; ss_writer := s; ss_acked := acked; ss_torn := torn |}
        {| ss_world := w'; ss_writer := s'; ss_acked := acked; ss_torn := true |}
  | step_sync w s acked torn w' s' out :
      SegmentWriter_sync (w, s) = ((w', s'), out) ->
      seg_step d base {| ss_world := w; ss_writer := s; ss_acked := acked; ss_torn := torn |}
        {| ss_world := w'; ss_writer := s'; ss_acked := acked; ss_torn := torn |}
  | step_recover w s acked torn res :
      readable d w -> scan d base w = Ok res ->
      seg_step d base {| ss_world := w; ss_writer := s; ss_acked := acked; ss_torn := torn |}
        {| ss_world := w; ss_writer := SegmentWriter_resume d base (resume_at res);
           ss_acked := records res; ss_torn := torn |}
  | step_others w w' s acked torn :
      (** other users of the world: nothing in the region changes, and what of
          it is on stable storage stays there *)
      f_len (contents d w) <= f_len (contents d w') ->
      (forall i, base <= i < base + SEGMENT_SIZE_BYTES ->
         byte_at (contents d w') i = byte_at (contents d w) i) ->
      lasting d w w' base (base + SEGMENT_SIZE_BYTES) ->
      seg_step d base {| ss_world := w; ss_writer := s; ss_acked := acked; ss_torn := torn |}
        {| ss_world := w'; ss_writer := s; ss_acked := acked; ss_torn := torn |}.

(** A fresh region holds zeros. *)
Definition fresh (d : D) (base : Z) (w : W) : Prop :=
  forall i, base <= i < base + SEGMENT_SIZE_BYTES -> byte_at (contents d w) i = x00.

Definition seg_init (d : D) (base : Z) (w : W) : seg_state :=
  {| ss_world := w; ss_writer := SegmentWriter_new d base; ss_acked := []; ss_torn := false |}.

(** The invariant: the acknowledged records are on disk from the start of
    the region, the writer stands right after them, and unless a write
    failed nothing was written past it. *)
Record seg_inv (d : D) (base : Z) (st : seg_state) : Prop := {
  inv_disk : sw_disk (ss_writer st) = d;
  inv_base : sw_base_offset (ss_writer st) = base;
  inv_cursor : sw_cursor (ss_writer st) = Zlen (seg_bytes (ss_acked st));
  inv_fits : Zlen (seg_bytes (ss_acked st)) <= SEGMENT_SIZE_BYTES;
  inv_wf : Forall wf_record (ss_acked st);
  inv_stored : file_has (contents d (ss_world st)) base (seg_bytes (ss_acked st));
  inv_rest : ss_torn st = false ->
    forall i, base + Zlen (seg_bytes (ss_acked st)) <= i < base + SEGMENT_SIZE_BYTES ->
      byte_at (contents d (ss_world st)) i = x00;
}.

Lemma seg_inv_init d base w : fresh d base w -> seg_inv d base (seg_init d base w).
Proof.
  intros Hf. constructor; simpl; auto using file_has_nil; [discriminate|].
  intros _ i Hi. apply Hf. change (Zlen (enc_log seg_format [])) with 0 in Hi. lia.
Qed.

(** The bytes an append writes lie between the cursor and the end. *)
Lemma append_range d base st r :
  wf_base base -> seg_inv d base st -> Zlen (encode r) <= remaining (ss_writer st) ->
  as_u64 (sw_base_offset (ss_writer st) + sw_cursor (ss_writer st)) =
    base + Zlen (seg_bytes (ss_acked st)) /\
  Zlen (seg_bytes (ss_acked st)) + Zlen (encode r) <= SEGMENT_SIZE_BYTES /\
  as_u64 (sw_cursor (ss_writer st) + Zlen (encode r)) = Zlen (seg_bytes (ss_acked st ++ [r])).
Proof.
  intros [Hb Hc] [Hd Hbase Hcur Hfit _ _ _] Hr. unfold remaining in Hr. rewrite Hcur in *.
  rewrite Hbase. pose proof (Zlen_nonneg (seg_bytes (ss_acked st))). pose proof (Zlen_nonneg (encode r)).
  assert (SEGMENT_SIZE_BYTES < 2 ^ 64) by reflexivity.
  assert (Hle : Zlen (seg_bytes (ss_acked st)) + Zlen (encode r) <= SEGMENT_SIZE_BYTES).
  { destruct (Z.max_spec 0 (SEGMENT_SIZE_BYTES - Zlen (seg_bytes (ss_acked st)))); lia. }
  rewrite enc_log_snoc, Zlen_app. cbn [enc seg_format].
  unfold as_u64. rewrite !wrap_small by (unfold fits; lia). auto.
Qed.

Lemma seg_inv_append d base w s acked torn r w' s' off :
  wf_base base -> wf_record r ->
  seg_inv d base {| ss_world := w; ss_writer := s; ss_acked := acked; ss_torn := torn |} ->
  append r (w, s) = ((w', s'), Ok off) ->
  off = base + Zlen (seg_bytes acked) /\
  seg_inv d base {| ss_world := w'; ss_writer := s'; ss_acked := acked ++ [r]; ss_torn := torn |}.
Proof.
  intros Hb Hwf Hi E. apply append_cases in E as [(_ & ? & _)|(Hrem & Ew & [(Eo & Ok1 & Es)|(e & ? & _)])];
    try discriminate. cbn [fst snd] in *.
  destruct (append_range d base _ r Hb Hi Hrem) as (Eoff & Hle & Ecur).
  destruct Hi as [Hd Hbase Hcur Hfit Hall Hst Hrest]. simpl in *. rewrite Hd in *.
  rewrite Eoff in *. injection Eo as ->. split; [reflexivity|].
  apply write_ok_contents in Ok1. rewrite <- Ew in Ok1. subst s'. destruct Hb.
  pose proof (Zlen_nonneg (seg_bytes acked)).
  constructor; simpl; auto.
  - rewrite enc_log_snoc, Zlen_app. exact Hle.
  - apply Forall_app; auto.
  - rewrite enc_log_snoc, Ok1. apply file_has_app; [lia|]. split.
    + apply file_has_write_keep; [lia|exact Hst].
    + apply file_has_write.
  - intros Ht i Hx. rewrite enc_log_snoc, Zlen_app in Hx. cbn [enc seg_format] in Hx.
    pose proof (Zlen_nonneg (encode r)).
    rewrite Ok1, byte_at_write, decide_False by lia. apply Hrest; [exact Ht|lia].
Qed.

Lemma seg_inv_append_fails d base w s acked torn r w' s' e :
  wf_base base ->
  seg_inv d base {| ss_world := w; ss_writer := s; ss_acked := acked; ss_torn := torn |} ->
  append r (w, s) = ((w', s'), Err e) ->
  seg_inv d base {| ss_world := w'; ss_writer := s'; ss_acked := acked; ss_torn := true |}.
Proof.
  intros Hb Hi E. apply append_cases in E as [(Ew & _ & _)|(Hrem & Ew & [(? & _)|(e' & Eo & _ & Es)])];
    try discriminate; cbn [fst snd] in *.
  - injection Ew as -> ->. destruct Hi. constructor; simpl in *; auto; discriminate.
  - destruct (append_range d base _ r Hb Hi Hrem) as (Eoff & Hle & Ecur).
    destruct Hi as [Hd Hbase Hcur Hfit Hall Hst Hrest]. simpl in *. rewrite Hd, Eoff in *. subst s' w'.
    constructor; simpl; auto; [|discriminate]. apply write_keeps; auto. lia.
Qed.

(** Whatever is in the region, what a scan finds makes a segment. *)
Lemma seg_inv_scanned d base w res :
  wf_base base -> scan d base w = Ok res ->
  seg_inv d base {| ss_world := w; ss_writer := SegmentWriter_resume d base (resume_at res);
                    ss_acked := records res; ss_torn := true |}.
Proof.
  intros Hb E. destruct (scan_returns d base w Hb) as (r & E' & (Hra & Hle & Hwf & Hhas & _) & _).
  rewrite E in E'. injection E' as ->. constructor; simpl; auto; [rewrite <- Hra; exact Hle|discriminate].
Qed.

(** It finds every run of records from the start. *)
Lemma scan_finds_run d base w rs res :
  wf_base base -> readable d w -> scan d base w = Ok res -> Forall wf_record rs ->
  Zlen (seg_bytes rs) <= SEGMENT_SIZE_BYTES -> file_has (contents d w) base (seg_bytes rs) -> rs `prefix_of` records res.
Proof.
  intros Hb Hr E Hwf Hle Hf. destruct (scan_returns d base w Hb) as (r & E' & _ & El).
  rewrite E in E'. injection E' as ->. destruct Hb. eapply (scan_prefix seg_format); eauto.
Qed.

Lemma seg_inv_recover d base w s acked torn res :
  wf_base base -> readable d w -> scan d base w = Ok res ->
  seg_inv d base {| ss_world := w; ss_writer := s; ss_acked := acked; ss_torn := torn |} ->
  acked `prefix_of` records res /\
  (torn = false -> res = {| records := acked; resume_at := Zlen (seg_bytes acked); corruption_at := None |}) /\
  seg_inv d base {| ss_world := w; ss_writer := SegmentWriter_resume d base (resume_at res);
                    ss_acked := records res; ss_torn := torn |}.
Proof.
  intros Hb Hr E [Hd Hbase Hcur Hfit Hall Hst Hrest]. simpl in *.
  pose proof (scan_finds_run _ _ _ _ _ Hb Hr E Hall Hfit Hst) as Hp. pose proof (seg_inv_scanned _ _ _ _ Hb E) as Hsc.
  destruct (scan_returns d base w Hb) as (r & E' & _ & El). rewrite E in E'. injection E' as ->. destruct Hb as [Hb Hc].
  assert (Hx : torn = false -> r = stop_at (Zlen (seg_bytes acked)) acked None).
  { intros ->. eapply (scan_exact seg_format); eauto. intros Hin h Hh.
    unfold file_read in Hh. case_decide; [|discriminate]. injection Hh as <-.
    rewrite get_bytes_zero; [reflexivity|]. intros i Hi. apply Hrest; [reflexivity|].
    cbn [hdr_len cap seg_format] in *. lia. }
  split; [exact Hp|]. split.
  - intros Ht. now rewrite (Hx Ht).
  - destruct Hsc as [G1 G2 G3 G4 G5 G6 _]. split; [exact G1|exact G2|exact G3|exact G4|exact G5|exact G6|].
    cbn [ss_torn]. intros Ht. rewrite (Hx Ht). simpl. auto.
Qed.

Lemma seg_step_inv d base st st' :
  wf_base base -> seg_inv d base st -> seg_step d base st st' ->
  seg_inv d base st' /\ ss_acked st `prefix_of` ss_acked st'.
Proof.
  intros Hb Hi Hs. destruct Hs as [w s acked torn r w' s' off Hwf E|w s acked torn r w' s' e E
    |w s acked torn w' s' out E|w s acked torn res Hr E|w w' s acked torn Hl Hk _]; cbn [ss_acked].
  - split; [|now apply prefix_app_r]. eapply seg_inv_append; eauto.
  - split; [|reflexivity]. eapply seg_inv_append_fails; eauto.
  - split; [|reflexivity]. unfold SegmentWriter_sync, io_bind, io_self, io_world in E. simpl in E.
    pose proof (fun d' => sync_contents (sw_disk s) d' w) as C.
    destruct (sync (sw_disk s) w) as [w1 r1]. simplify_eq. simpl in C.
    destruct Hi. constructor; simpl in *; rewrite ?C; auto.
  - edestruct seg_inv_recover as (Hp & _ & Hi'); eauto.
  - split; [|reflexivity]. destruct Hb as [Hb Hc], Hi as [? ? ? Hfit ? Hst Hrest]. constructor; simpl in *; auto.
    + eapply file_has_keep; [exact Hl| |exact Hst]. intros i Hi. apply Hk. lia.
    + intros Ht i Hi. rewrite Hk; [apply Hrest; auto|]. pose proof (Zlen_nonneg (seg_bytes acked)). lia.
Qed.

Lemma seg_steps_inv d base st st' :
  wf_base base -> seg_inv d base st -> rtc (seg_step d base) st st' ->
  seg_inv d base st' /\ ss_acked st `prefix_of` ss_acked st'.
Proof.
  intros Hb Hi Hs. induction Hs as [|st st1 st' Hs1 _ IH]; [auto|].
  destruct (seg_step_inv _ _ _ _ Hb Hi Hs1) as [Hi1 Hp1]. destruct (IH Hi1) as [Hi' Hp'].
  split; [exact Hi'|]. now transitivity (ss_acked st1).
Qed.

(** ** Losses of power

    The second component is the list of records that a sync has followed.  Only
    they are sure to be there when the power comes back. *)
Inductive seg_life (d : D) (base : Z) : seg_state * list SegRecord -> seg_state * list SegRecord -> Prop :=
  | power_on st st' synced : seg_step d base st st' -> seg_life d base (st, synced) (st', synced)
  | all_synced w s acked torn w' s' synced :
      SegmentWriter_sync (w, s) = ((w', s'), Ok tt) ->
      seg_life d base ({| ss_world := w; ss_writer := s; ss_acked := acked; ss_torn := torn |}, synced)
        ({| ss_world := w'; ss_writer := s'; ss_acked := acked; ss_torn := torn |}, acked)
  | power_lost st w' res synced :
      file_settles (contents d (ss_world st)) (durable d (ss_world st)) (contents d w') (durable d w') ->
      readable d w' -> scan d base w' = Ok res ->
      seg_life d base (st, synced)
        ({| ss_world := w'; ss_writer := SegmentWriter_resume d base (resume_at res);
            ss_acked := records res; ss_torn := true |}, synced).

Definition seg_life_inv (d : D) (base : Z) (x : seg_state * list SegRecord) : Prop :=
  seg_inv d base x.1 /\ x.2 `prefix_of` ss_acked x.1 /\
  (x.2 = [] \/ settled d (ss_world x.1) base (base + Zlen (seg_bytes x.2))).

Lemma seg_life_init d base w : fresh d base w -> seg_life_inv d base (seg_init d base w, []).
Proof. intros Hf. split; [now apply seg_inv_init|]. split; [reflexivity|now left]. Qed.

Lemma seg_bytes_prefix rs rs' : rs `prefix_of` rs' -> exists bs, seg_bytes rs' = seg_bytes rs ++ bs.
Proof. intros [k ->]. exists (seg_bytes k). apply enc_log_app. Qed.

(** What is durable of the records stays durable as long as the power is on. *)
Lemma seg_step_lasting d base st st' :
  wf_base base -> seg_inv d base st -> seg_step d base st st' ->
  lasting d (ss_world st) (ss_world st') base (base + Zlen (seg_bytes (ss_acked st))).
Proof.
  intros Hb Hi Hs. destruct Hs as [w s acked torn r w' s' off Hwf E|w s acked torn r w' s' e E
    |w s acked torn w' s' out E|w s acked torn res Hr E|w w' s acked torn Hl Hk Hla]; cbn [ss_world ss_acked].
  1,2: apply append_cases in E as [([= -> ->] & _)|(Hrem & Ew & _)]; [apply lasting_refl|];
    destruct (append_range d base _ r Hb Hi Hrem) as (Eoff & _); destruct Hi as [Hd _ _ _ _ _ _];
    cbn [fst ss_writer ss_acked] in *; rewrite Ew, Eoff; apply lasting_write; lia.
  - unfold SegmentWriter_sync, io_bind, io_self, io_world in E. simpl in E.
    pose proof (lasting_sync (sw_disk s) d w base (base + Zlen (seg_bytes acked))) as Hx.
    destruct (sync (sw_disk s) w) as [w1 r1]. now simplify_eq/=.
  - apply lasting_refl.
  - pose proof (inv_fits _ _ _ Hi) as Hf. cbn [ss_acked] in Hf. intros x y Hx Hy. apply Hla; lia.
Qed.

Lemma seg_life_step d base x x' :
  wf_base base -> seg_life_inv d base x -> seg_life d base x x' -> seg_life_inv d base x' /\ x.2 `prefix_of` x'.2.
Proof.
  intros Hb (Hi & Hp & Hset) Hs. destruct Hs as [st st' synced Hs|w s acked torn w' s' synced E|st w' res synced Hc Hr E];
    cbn [fst snd] in *.
  - split; [|reflexivity]. destruct (seg_step_inv _ _ _ _ Hb Hi Hs) as [Hi' Hp']. split; [exact Hi'|].
    split; [now transitivity (ss_acked st)|]. destruct Hset as [->|Hset]; [now left|right].
    apply (seg_step_lasting d base st st' Hb Hi Hs); [lia| |exact Hset]. cbn [fst snd].
    destruct (seg_bytes_prefix _ _ Hp) as [bs ->]. rewrite Zlen_app. pose proof (Zlen_nonneg bs). lia.
  - split; [|exact Hp]. destruct (seg_step_inv _ _ _ _ Hb Hi (step_sync d base w s acked torn w' s' _ E)) as [Hi' _].
    split; [exact Hi'|]. split; [reflexivity|]. cbn [fst snd ss_acked ss_world].
    pose proof (proj1 (file_has_bytes _ _ _) (inv_stored _ _ _ Hi')) as [[En|Hl] _]; cbn [ss_acked ss_world] in *.
    + left. destruct acked as [|r acked]; [reflexivity|]. change (r :: acked) with ([r] ++ acked) in En.
      rewrite enc_log_app, seg_bytes_one in En. apply (f_equal length) in En. rewrite length_app, length_encode in En. discriminate.
    + right. unfold SegmentWriter_sync, io_bind, io_self, io_world in E. simpl in E.
      pose proof (inv_disk _ _ _ Hi) as Hd. simpl in Hd. rewrite Hd in E.
      destruct (sync d w) as [w1 [[]|e|]] eqn:Es; simplify_eq/=. now apply (settled_sync _ w).
  - split; [|reflexivity]. split; [now apply seg_inv_scanned|]. cbn [fst snd ss_acked ss_world].
    destruct Hset as [->|Hset]; [split; [apply prefix_nil|now left]|]. destruct (settles_settled _ _ _ _ _ Hc Hset) as [Hset' Hk].
    split; [|now right]. destruct (seg_bytes_prefix _ _ Hp) as [bs Ebs]. pose proof (inv_fits _ _ _ Hi) as Hf.
    pose proof (inv_stored _ _ _ Hi) as Hst. rewrite Ebs in *. rewrite Zlen_app in Hf. pose proof (Zlen_nonneg bs).
    apply (scan_finds_run d base w'); auto; [|lia|].
    + destruct Hp as [k Ek]. pose proof (inv_wf _ _ _ Hi) as Hwf. rewrite Ek in Hwf. now apply Forall_app in Hwf as [? _].
    + destruct Hb as [Hb _]. apply file_has_app in Hst as [Hst _]; [|lia]. destruct Hset' as [Hl _].
      eapply file_has_same; [|exact Hk|exact Hst]. lia.
Qed.

Lemma seg_life_steps d base x x' :
  wf_base base -> seg_life_inv d base x -> rtc (seg_life d base) x x' -> seg_life_inv d base x' /\ x.2 `prefix_of` x'.2.
Proof.
  intros Hb Hi Hs. induction Hs as [|x x1 x' Hs1 _ IH]; [auto|].
  destruct (seg_life_step _ _ _ _ Hb Hi Hs1) as [Hi1 Hp1]. destruct (IH Hi1) as [Hi' Hp'].
  split; [exact Hi'|]. now transitivity x1.2.
Qed.

(** C17: recovery of a segment.  From a fresh region, after any sequence of
    appends, failed (torn) appends, syncs, crashes and recoveries, losses of
    power that take any part of what had not been synced, and writes of others
    elsewhere, a scan succeeds and returns first, in order, every record that
    was synced at any earlier point, and every record that has been appended
    since the last crash; if no write failed and no power was lost it returns
    exactly those, with the resume point right after them and no corruption. *)
Theorem segment_recovery d base w0 st synced st' synced' :
  wf_base base -> fresh d base w0 -> rtc (seg_life d base) (seg_init d base w0, []) (st, synced) ->
  rtc (seg_life d base) (st, synced) (st', synced') -> readable d (ss_world st') ->
  exists res, scan d base (ss_world st') = Ok res /\ synced `prefix_of` records res /\
    ss_acked st' `prefix_of` records res /\
    (ss_torn st' = false ->
     res = {| records := ss_acked st'; resume_at := sw_cursor (ss_writer st'); corruption_at := None |}).
Proof.
  intros Hb Hf Hs Hs' Hr. destruct (seg_life_steps _ _ _ _ Hb (seg_life_init _ _ _ Hf) Hs) as [Hl _].
  destruct (seg_life_steps _ _ _ _ Hb Hl Hs') as [(Hi & Hsy & _) Hp]. cbn [fst snd] in *.
  destruct (scan_returns d base (ss_world st') Hb) as (r & E & _). exists (to_result r).
  pose proof (inv_cursor _ _ _ Hi) as Hc. destruct st' as [w s acked torn].
  destruct (seg_inv_recover _ _ _ _ _ _ _ Hb Hr E Hi) as (Hpa & Hx & _). simpl in *. rewrite Hc. split_and!; auto.
  transitivity synced'; [exact Hp|]. now transitivity acked.
Qed.

(** A stored record's payload is behind its header. *)
Lemma stored_payload d base st acked r rest :
  wf_base base -> seg_inv d base st -> ss_acked st = (acked ++ [r]) ++ rest -> readable d (ss_world st) ->
  read_at d (base + Zlen (seg_bytes acked) + Z.of_nat HEADER_LEN) (length (sr_payload r)) (ss_world st) = Ok (sr_payload r).
Proof.
  intros [Hb _] Hi Hrest Hr. apply Hr. pose proof (inv_stored _ _ _ Hi) as Hst. pose proof (Zlen_nonneg (seg_bytes acked)).
  rewrite Hrest, !enc_log_app, <- !app_assoc in Hst. apply file_has_app in Hst as [_ Hst]; [|lia].
  apply file_has_app in Hst as [Hst _]; [|lia].
  rewrite seg_bytes_one, encode_header in Hst. apply file_has_app in Hst as [_ Hst]; [|lia].
  replace (Z.of_nat HEADER_LEN) with (Zlen (header_of r)) by (unfold Zlen; now rewrite length_header_of).
  exact Hst.
Qed.

(** C18: a chunk pointer stays good.  The offset an append returned is where
    its payload is read back, [HEADER_LEN] further, at every later point of the
    segment's life while the power is on, crashes and torn writes included;
    and if the append is followed by a sync, at every later point, losses of
    power included. *)
Theorem append_then_read d base w0 st synced r w' s' off st' :
  wf_base base -> fresh d base w0 -> rtc (seg_life d base) (seg_init d base w0, []) (st, synced) ->
  wf_record r -> append r (ss_world st, ss_writer st) = ((w', s'), Ok off) ->
  let st1 w s := {| ss_world := w; ss_writer := s; ss_acked := ss_acked st ++ [r]; ss_torn := ss_torn st |} in
  rtc (seg_step d base) (st1 w' s') st' \/
  (exists w2 s2 synced', SegmentWriter_sync (w', s') = ((w2, s2), Ok tt) /\
     rtc (seg_life d base) (st1 w2 s2, ss_acked st ++ [r]) (st', synced')) ->
  readable d (ss_world st') ->
  read_at d (off + Z.of_nat HEADER_LEN) (length (sr_payload r)) (ss_world st') = Ok (sr_payload r).
Proof.
  intros Hb Hf Hs Hwf E st1 Hs' Hr. destruct (seg_life_steps _ _ _ _ Hb (seg_life_init _ _ _ Hf) Hs) as [Hl _].
  destruct st as [w s acked torn]. cbn [ss_world ss_writer ss_acked ss_torn] in *. pose proof Hl as (Hi & Hp & Hset). cbn [fst snd] in *.
  destruct (seg_inv_append _ _ _ _ _ _ _ _ _ _ Hb Hwf Hi E) as [-> Hi1].
  assert (seg_inv d base st' /\ acked ++ [r] `prefix_of` ss_acked st') as [Hi' [rest Hrest]].
  { destruct Hs' as [Hs'|(w2 & s2 & synced' & Esy & Hs')]; [exact (seg_steps_inv _ _ _ _ Hb Hi1 Hs')|].
    destruct (seg_life_step _ _ _ _ Hb Hl (power_on _ _ _ _ synced (step_append _ _ _ _ _ torn _ _ _ _ Hwf E))) as [Hl1 _].
    destruct (seg_life_step _ _ _ _ Hb Hl1 (all_synced _ _ _ _ _ _ _ _ synced Esy)) as [Hl2 _].
    destruct (seg_life_steps _ _ _ _ Hb Hl2 Hs') as [(Hi' & Hp' & _) Hp2]. split; [exact Hi'|]. now transitivity synced'. }
  exact (stored_payload _ _ _ _ _ _ Hb Hi' Hrest Hr).
Qed.

(** C25: a scan always returns, whatever the disk holds, and what it returns
    is really there: its records, encoded one after the other, are the
    region's bytes up to the resume point, every one carries its payload's
    checksum, and a corruption is reported at the resume point. *)
Theorem scan_sound d base w :
  wf_base base ->
  exists res, scan d base w = Ok res /\
    file_has (contents d w) base (concat (encode <$> records res)) /\
    resume_at res = Zlen (concat (encode <$> records res)) /\ resume_at res <= SEGMENT_SIZE_BYTES /\
    Forall wf_record (records res) /\
    (corruption_at res = None \/ corruption_at res = Some (resume_at res)).
Proof.
  intros Hb. destruct (scan_returns d base w Hb) as (r & E & (? & ? & ? & ? & ?) & _).
  exists (to_result r). auto 10.
Qed.

(** A read error is not reported: on a disk that cannot be read at all, the
    scan succeeds with an empty result, so a writer would resume at the
    start of the region (the source documents that real I/O errors
    propagate). *)
Theorem scan_hides_read_errors d base (w : W) :
  wf_base base -> (forall off n, is_ok (read_at d off n w) = false) ->
  scan d base w = Ok {| records := []; resume_at := 0; corruption_at := None |}.
Proof.
  intros Hb Hbad. destruct (scan_returns d base w Hb) as (r & E & _ & El). rewrite E. f_equal.
  rewrite loop_pos_nat in El. destruct (Pos.to_nat (scan_fuel seg_format)) as [|n]; [discriminate|].
  cbn [loop_nat] in El. unfold scan_body in El. cbn [cap hdr_len seg_format] in El.
  assert ((SEGMENT_SIZE_BYTES <? 0 + Z.of_nat HEADER_LEN) = false) as Ec by reflexivity. rewrite Ec in El.
  specialize (Hbad (as_u64 (base + 0)) HEADER_LEN).
  destruct (read_at d _ _ w); [discriminate| |]; now injection El as <-.
Qed.

Lemma checksum_insert_ne p k b b0 :
  p !! k = Some b0 -> b <> b0 -> checksum (<[k := b]> p) <> checksum p.
Proof.
  intros Hk Hne E. pose proof (lookup_lt_Some _ _ _ Hk).
  rewrite insert_take_drop in E by assumption. rewrite <- (take_drop_middle p k b0 Hk) in E at 3.
  apply Hne. eapply checksum_byte_inj, E.
Qed.

Lemma file_write_byte f off p k b :
  0 <= off -> (k < length p)%nat -> file_has f off p ->
  file_has (file_write f (off + Z.of_nat k) [b]) off (<[k := b]> p).
Proof.
  intros Ho Hk. rewrite !file_has_bytes, length_insert. intros [[-> | Hl] E]; [simpl in Hk; lia|].
  assert (Hz : Zlen (<[k := b]> p) = Zlen p) by (unfold Zlen; now rewrite length_insert).
  split; [right; rewrite Hz; pose proof (f_len_write f (off + Z.of_nat k) [b]); lia|].
  apply list_eq. intros i. destruct (lt_dec i (length p)).
  - rewrite lookup_get_bytes, byte_at_write by lia. case_decide as Hd; change (Zlen [b]) with 1 in Hd.
    + replace i with k by lia. rewrite list_lookup_insert_eq by lia.
      now replace (Z.to_nat _) with 0%nat by lia.
    + rewrite list_lookup_insert_ne by lia. rewrite <- E at 1. now rewrite lookup_get_bytes by lia.
  - rewrite !lookup_ge_None_2; auto; rewrite ?length_get_bytes, ?length_insert; lia.
Qed.

(** One payload byte of a stored record changes. *)
Lemma stored_byte f base pre r p k b :
  0 <= base -> (k < length p)%nat -> file_has f base (pre ++ header_of r ++ p) ->
  file_has (file_write f (base + Zlen pre + Z.of_nat HEADER_LEN + Z.of_nat k) [b]) base
    (pre ++ header_of r ++ <[k := b]> p).
Proof.
  intros Hb Hk Hst. pose proof (Zlen_nonneg pre).
  assert (Lh : Zlen (header_of r) = Z.of_nat HEADER_LEN) by (unfold Zlen; now rewrite length_header_of).
  apply file_has_app in Hst as [S1 S2]; [|lia]. apply file_has_app in S2 as [S2 S3]; [|lia].
  rewrite Lh in *. apply file_has_app; [lia|]. split; [apply file_has_write_keep; [lia|exact S1]|].
  apply file_has_app; [lia|]. split; [apply file_has_write_keep; [lia|exact S2]|].
  rewrite Lh. apply file_write_byte; [lia|exact Hk|exact S3].
Qed.

(** C26: bit rot is found.  If one payload byte of a stored record changes on
    disk, a scan returns exactly the records before it and reports the
    corruption at that record's offset. *)
Theorem scan_detects_corruption d base w0 st synced pre r post k b b0 w' :
  wf_base base -> fresh d base w0 -> rtc (seg_life d base) (seg_init d base w0, []) (st, synced) ->
  ss_acked st = pre ++ r :: post -> sr_payload r !! k = Some b0 -> b <> b0 ->
  contents d w' =
    file_write (contents d (ss_world st))
      (base + Zlen (concat (encode <$> pre)) + Z.of_nat HEADER_LEN + Z.of_nat k) [b] ->
  readable d w' ->
  scan d base w' =
    Ok {| records := pre; resume_at := Zlen (concat (encode <$> pre));
          corruption_at := Some (Zlen (concat (encode <$> pre))) |}.
Proof.
  intros Hb Hf Hs Ea Hk Hne Ew Hr. destruct (seg_life_steps _ _ _ _ Hb (seg_life_init _ _ _ Hf) Hs) as [[Hi _] _].
  cbn [fst] in Hi. destruct Hi as [_ _ _ Hfit Hwf Hst _]. rewrite Ea in *. clear Hs Ea.
  change (concat (encode <$> pre)) with (seg_bytes pre) in *.
  change (pre ++ r :: post) with (pre ++ [r] ++ post) in *.
  rewrite !enc_log_app, seg_bytes_one, encode_header, app_assoc, Zlen_app in *.
  apply Forall_app in Hwf as [[Hwf1 Hwr]%Forall_app _]. apply Forall_cons_1 in Hwr as [Hwr _].
  destruct Hb as [Hb Hc]. apply file_has_app in Hst as [Hst _]; [|lia].
  pose proof (stored_byte _ _ _ _ _ _ b Hb (lookup_lt_Some _ _ _ Hk) Hst) as Hst'. rewrite <- Ew in Hst'.
  destruct (scan_returns d base w') as (q & E & _ & El); [now split|]. rewrite E. f_equal.
  rewrite (scan_corrupt seg_format d base w' pre (header_of r) (<[k := b]> (sr_payload r))
    (sr_inode r, sr_chunk_seq r, sr_checksum r) q); auto using length_header_of.
  - rewrite header_parses by exact Hwr. do 2 f_equal. unfold Zlen. now rewrite length_insert.
  - cbn [check_payload seg_format]. destruct Hwr as (_ & _ & _ & ->).
    pose proof (checksum_insert_ne _ _ _ _ Hk Hne) as Hx. apply Z.eqb_neq in Hx. now rewrite Hx.
  - pose proof (Zlen_nonneg (seg_bytes post)). cbn [cap seg_format].
    
    assert (Zlen (<[k := b]> (sr_payload r)) = Zlen (sr_payload r)) by (unfold Zlen; now rewrite length_insert).
    rewrite !Zlen_app in *. lia.
Qed.
End Proofs.

(** ** Runs on a [FileDisk] *)

Definition rec1 : SegRecord := Record_new 1 0 [x61; x62; x63].
Definition rec2 : SegRecord := Record_new 1 1 [x64; x65].

(** The demo disk after [rec1] was appended and synced; the second append is
    cut short after 29 bytes; then the power is lost. *)
Definition demo_one : os_world * SegmentWriter FileDisk :=
  (append rec1 (demo_world, SegmentWriter_new demo_disk 0)).1.
Definition demo_synced : os_world * SegmentWriter FileDisk := (SegmentWriter_sync demo_one).1.
Definition demo_faulty : os_world :=
  {| w_files := w_files demo_synced.1; w_durable := w_durable demo_synced.1; w_fault := {[ demo_path := 30 - 1 ]} |}.
Definition demo_torn : os_world * SegmentWriter FileDisk := (append rec2 (demo_faulty, demo_synced.2)).1.
Definition demo_dark : os_world := power_loss demo_torn.1.

Lemma demo_fresh : fresh demo_disk 0 demo_world.
Proof. intros i _. reflexivity. Qed.

Lemma demo_wf_base : wf_base 0.
Proof. split; [lia|reflexivity]. Qed.

Lemma rec1_wf : wf_record rec1.
Proof. apply (bool_decide_unpack (wf_record rec1)). vm_compute. exact I. Qed.

Definition demo_state1 : seg_state :=
  {| ss_world := demo_synced.1; ss_writer := demo_synced.2; ss_acked := [rec1]; ss_torn := false |}.
Definition demo_state2 : seg_state :=
  {| ss_world := demo_torn.1; ss_writer := demo_torn.2; ss_acked := [rec1]; ss_torn := true |}.
Definition demo_state3 : seg_state :=
  {| ss_world := demo_dark; ss_writer := SegmentWriter_resume demo_disk 0 31; ss_acked := [rec1]; ss_torn := true |}.

Lemma demo_step1 : rtc (seg_life demo_disk 0) (seg_init demo_disk 0 demo_world, []) (demo_state1, [rec1]).
Proof.
  eapply rtc_l.
  - apply power_on, (step_append demo_disk 0 _ _ [] false rec1 demo_one.1 demo_one.2 0 rec1_wf). vm_compute. reflexivity.
  - apply rtc_once, all_synced. vm_compute. reflexivity.
Qed.

Lemma demo_step2 : rtc (seg_life demo_disk 0) (demo_state1, [rec1]) (demo_state2, [rec1]).
Proof.
  eapply rtc_l.
  - apply power_on, (step_others demo_disk 0 demo_synced.1 demo_faulty); [reflexivity|intros i _; reflexivity|now intros x y _ _].
  - apply rtc_once, power_on, (step_append_fails demo_disk 0 _ _ _ _ rec2 _ _ OtherIo). vm_compute. reflexivity.
Qed.

Lemma demo_step3 : rtc (seg_life demo_disk 0) (demo_state2, [rec1]) (demo_state3, [rec1]).
Proof.
  apply rtc_once. apply (power_lost demo_disk 0 demo_state2 demo_dark {| records := [rec1]; resume_at := 31; corruption_at := None |}).
  - split; [now right; right|intros i; now right; right].
  - apply FileDisk_readable.
  - vm_compute. reflexivity.
Qed.

Lemma segment_recovery_witness :
  exists res, scan demo_disk 0 demo_dark = Ok res /\ [rec1] `prefix_of` records res.
Proof.
  destruct (segment_recovery demo_disk 0 demo_world demo_state1 [rec1] demo_state3 [rec1] demo_wf_base demo_fresh
    demo_step1 (transitivity demo_step2 demo_step3) (FileDisk_readable _ _)) as (res & E & Hp & _).
  exists res. exact (conj E Hp).
Defined.

Lemma append_then_read_witness :
  read_at demo_disk 28 3 demo_dark = Ok [x61; x62; x63].
Proof.
  apply (append_then_read demo_disk 0 demo_world (seg_init demo_disk 0 demo_world) [] rec1
    demo_one.1 demo_one.2 0 demo_state3 demo_wf_base demo_fresh (rtc_refl _ _) rec1_wf);
    [vm_compute; reflexivity| |apply FileDisk_readable].
  right. exists demo_synced.1, demo_synced.2, [rec1]. split; [vm_compute; reflexivity|].
  exact (transitivity demo_step2 demo_step3).
Defined.

Lemma scan_sound_witness : exists res, scan demo_disk 0 demo_torn.1 = Ok res.
Proof.
  destruct (scan_sound demo_disk 0 demo_torn.1 demo_wf_base) as (res & E & _). exact (ex_intro _ res E).
Defined.

(** A disk on which every read fails. *)
Definition dead_disk : Disk unit unit :=
  {| read_at _ _ _ _ := Err OtherIo; write_at _ _ _ w := (w, Err OtherIo);
     sync _ w := (w, Err OtherIo); capacity_bytes _ := 0 |}.

Definition dead_laws : @DiskLaws unit unit dead_disk.
Proof.
  refine (@Build_DiskLaws unit unit dead_disk (fun _ _ => empty_file) (fun _ _ => empty_file) (fun _ _ => True)
    _ _ _ _ _ _ _ _ _ _ _ _ _ _); simpl; intros; first [reflexivity|discriminate|apply _|apply mixes_in; left].
Defined.

Lemma scan_hides_read_errors_witness :
  @scan unit unit dead_disk tt 0 tt = Ok {| records := []; resume_at := 0; corruption_at := None |}.
Proof.
  apply (@scan_hides_read_errors unit unit dead_disk dead_laws tt 0 tt demo_wf_base). reflexivity.
Defined.

(** The demo disk with one flipped byte in the payload of [rec1]. *)
Definition demo_rotten : os_world := (write_at demo_disk 29 [x7a] demo_synced.1).1.

Lemma scan_detects_corruption_witness :
  scan demo_disk 0 demo_rotten = Ok {| records := []; resume_at := 0; corruption_at := Some 0 |}.
Proof.
  apply (scan_detects_corruption demo_disk 0 demo_world demo_state1 [rec1] [] rec1 [] 1 x7a x62 demo_rotten
    demo_wf_base demo_fresh demo_step1);
    [reflexivity|reflexivity|discriminate|vm_compute; reflexivity|apply FileDisk_readable].
Defined.

(** ** Resuming over a corrupt record

    A writer that resumes at a corrupt record overwrites it, and the records
    behind it, which the scan had dropped, become reachable again. *)
Definition rec2' : SegRecord := Record_new 1 1 [x71; x72].
Definition rec3 : SegRecord := Record_new 1 2 [x66].
Definition stale_world : os_world :=
  let ws := (append rec3 (append rec2 demo_one).1).1 in
  (write_at demo_disk (31 + 28) [x00] ws.1).1.

