(* ===== verification/Wal.v ===== *)
(** * Write-ahead-log framing ([crates/tartine-meta/src/wal.rs])

    Each encoded metadata operation is one frame: magic, length, checksum,
    payload.  [scan] replays a log from the start of its region. *)

From Stdlib Require Import ZArith Lia.
From S2P Require Import Prelude Crc32c Disk Framing.

Definition WAL_MAGIC : Z := 0x57414c31.
Definition HEADER_LEN : nat := (4 + 4 + 4)%nat.
Definition WAL_CAPACITY_BYTES : Z := 64 * 1024 * 1024.

Definition frame (payload : list byte) : list byte :=
  to_le 4 WAL_MAGIC ++ to_le 4 (as_u32 (Zlen payload)) ++ to_le 4 (checksum payload) ++ payload.

Definition build_frame (payload : list byte) : list byte := frame payload.

Record WalScanResult := { entries : list (list byte); resume_at : Z; corruption_at : option Z }.

Section Ops.
Context {W D : Type} `{Disk W D}.

(** The body of the [loop] of [scan]. *)
Definition scan_loop (d : D) (base_offset : Z) (w : W) (st : Z * list (list byte)) :
    (Z * list (list byte)) + WalScanResult :=
  let '(cursor, es) := st in
  let done c := inr {| entries := es; resume_at := cursor; corruption_at := c |} in
  if WAL_CAPACITY_BYTES <? cursor + Z.of_nat HEADER_LEN then done None
  else match read_at d (as_u64 (base_offset + cursor)) HEADER_LEN w with
  | Ok header =>
      if bool_decide (field header 0 4 <> to_le 4 WAL_MAGIC) then done None
      else
        let len := from_le (field header 4 8) in
        let sum := from_le (field header 8 12) in
        if WAL_CAPACITY_BYTES <? cursor + Z.of_nat HEADER_LEN + len then done None
        else match read_at d (as_u64 (base_offset + cursor + Z.of_nat HEADER_LEN))
                     (Z.to_nat len) w with
        | Ok payload =>
            if negb (checksum payload =? sum) then done (Some cursor)
            else inl (cursor + Z.of_nat HEADER_LEN + len, es ++ [payload])
        | _ => done None
        end
  | _ => done None
  end.

(** [scan]; its fuel is never used up. *)
Definition scan (d : D) (base_offset : Z) (w : W) : result io_error WalScanResult :=
  match loop_pos (scan_loop d base_offset w)
          (Z.to_pos (WAL_CAPACITY_BYTES / Z.of_nat HEADER_LEN + 2)) (0, []) with
  | inr r => Ok r
  | inl _ => Panic
  end.
End Ops.

(** ** The log as a frame format *)

Definition wal_format : Format (list byte) Z := {|
  hdr_len := HEADER_LEN;
  cap := WAL_CAPACITY_BYTES;
  parse_hdr h :=
    if bool_decide (field h 0 4 <> to_le 4 WAL_MAGIC) then None
    else Some (from_le (field h 8 12), from_le (field h 4 8));
  check_payload c p := if negb (checksum p =? c) then None else Some p;
  enc := frame;
  wf_entry_of p := u32 (Zlen p);
|}.

Definition wal_header_of (p : list byte) : list byte :=
  to_le 4 WAL_MAGIC ++ to_le 4 (as_u32 (Zlen p)) ++ to_le 4 (checksum p).

Lemma frame_header p : frame p = wal_header_of p ++ p.
Proof. unfold frame, wal_header_of. now rewrite <- !app_assoc. Qed.

Lemma length_wal_header p : length (wal_header_of p) = HEADER_LEN.
Proof. unfold wal_header_of, HEADER_LEN. len. Qed.

Lemma Zlen_frame p : Zlen (frame p) = 12 + Zlen p.
Proof. rewrite frame_header, Zlen_app. unfold Zlen. rewrite length_wal_header. reflexivity. Qed.

Lemma wal_header_fields p :
  field (wal_header_of p) 0 4 = to_le 4 WAL_MAGIC /\
  field (wal_header_of p) 4 8 = to_le 4 (as_u32 (Zlen p)) /\
  field (wal_header_of p) 8 12 = to_le 4 (checksum p).
Proof.
  unfold wal_header_of. generalize (as_u32 (Zlen p)) (checksum p). intros n c. repeat split.
Qed.

#[export] Instance wal_format_laws : FormatLaws wal_format.
Proof.
  constructor.
  - unfold wal_format, hdr_len, HEADER_LEN. lia.
  - discriminate.
  - intros p Hwf. exists (wal_header_of p), p, (checksum p).
    split; [apply frame_header|]. split; [apply length_wal_header|].
    destruct (wal_header_fields p) as (E0 & E1 & E2). cbn [parse_hdr check_payload wal_format wf_entry_of] in *.
    rewrite E0, E1, E2, bool_decide_false, Z.eqb_refl by auto. unfold as_u32. rewrite (wrap_small 32) by exact Hwf.
    rewrite !(from_to_le_fits 4 32) by auto using checksum_fits. auto.
  - intros h p c r Hh Hp Hk. cbn [parse_hdr check_payload wal_format wf_entry_of enc hdr_len] in *.
    unfold HEADER_LEN in Hh. case_if; [discriminate|]. injection Hk as <-.
    apply negb_false_iff, Z.eqb_eq in Heqb. case_bool_decide as Hm; [discriminate|]. injection Hp as <- Hl.
    assert (Hf : forall a b, (b <= 12)%nat -> length (field h a b) = (b - a)%nat).
    { intros. apply length_field. rewrite Hh. lia. }
    assert (Hw : u32 (Zlen p)) by (rewrite <- Hl; apply from_le_fits; unfold Zlen; now rewrite Hf by lia).
    split; [|exact Hw]. unfold frame, as_u32. rewrite (wrap_small 32) by exact Hw.
    rewrite Heqb, <- Hl, !to_from_le, <- Hm by (apply Hf; lia). rewrite !app_assoc. f_equal.
    rewrite <- !app_assoc. transitivity (drop 0 h); [|reflexivity]. symmetry.
    rewrite (field_split h 0 4), (field_split h 4 8), (field_split h 8 12) by lia.
    now rewrite (drop_ge h 12), app_nil_r by lia.
  - intros h c n Hp. cbn [parse_hdr wal_format] in Hp. case_bool_decide; [discriminate|].
    injection Hp as <- <-. apply from_le_bound.
Qed.

Definition wal_result (r : log_scan (list byte)) : WalScanResult :=
  {| entries := ls_entries r; resume_at := ls_resume r; corruption_at := ls_corrupt r |}.

(** The log's bytes for a run of payloads. *)
Abbreviation wal_bytes := (enc_log wal_format).

Section Proofs.
Context {W D : Type} `{DiskLaws W D}.

Lemma wal_loop_generic (d : D) base (w : W) st :
  scan_loop d base w st =
    match scan_body wal_format d base w st with inl st' => inl st' | inr r => inr (wal_result r) end.
Proof.
  destruct st as [cursor rs]. unfold scan_loop, scan_body.
  cbn [cap hdr_len parse_hdr check_payload wal_format].
  case_if; [reflexivity|]. destruct (read_at d _ HEADER_LEN w) as [h| |]; try reflexivity.
  case_bool_decide; [reflexivity|]. case_if; [reflexivity|].
  destruct (read_at d _ _ w); try reflexivity. case_if; reflexivity.
Qed.

Definition wf_wal_base (base : Z) : Prop := 0 <= base /\ base + WAL_CAPACITY_BYTES < 2 ^ 64.

Lemma wal_scan_returns (d : D) base (w : W) :
  wf_wal_base base -> exists r, scan d base w = Ok (wal_result r) /\ scanned wal_format d base w r /\
    loop_pos (scan_body wal_format d base w) (scan_fuel wal_format) (0, []) = inr r.
Proof.
  intros [Hb Hc]. destruct (scan_total wal_format d base w) as (r & Hr & Hs); auto.
  exists r. split; [|split; assumption].
  unfold scan. rewrite (loop_pos_map _ _ wal_result (wal_loop_generic d base w)).
  change (Z.to_pos _) with (scan_fuel wal_format). rewrite Hr. reflexivity.
Qed.

(** What a scan finds in a region that starts with the frames of [ps]. *)
Lemma wal_scan_stored (d : D) base (w : W) ps :
  wf_wal_base base -> readable d w -> Forall (fun p => u32 (Zlen p)) ps ->
  Zlen (wal_bytes ps) <= WAL_CAPACITY_BYTES -> file_has (contents d w) base (wal_bytes ps) ->
  exists r, scan d base w = Ok r /\ ps `prefix_of` entries r /\
    resume_at r = Zlen (wal_bytes (entries r)) /\ resume_at r <= WAL_CAPACITY_BYTES /\
    Forall (fun p => u32 (Zlen p)) (entries r) /\ file_has (contents d w) base (wal_bytes (entries r)).
Proof.
  intros Hb Hr Hwf Hfit Hhas. destruct (wal_scan_returns d base w Hb) as (r & E & (? & ? & ? & ? & _) & El).
  exists (wal_result r). destruct Hb. split; [exact E|]. split; [|auto].
  eapply (scan_prefix wal_format); eauto.
Qed.

(** ... and in one where zeros follow. *)
Lemma wal_scan_exact (d : D) base (w : W) ps :
  wf_wal_base base -> readable d w -> Forall (fun p => u32 (Zlen p)) ps ->
  Zlen (wal_bytes ps) <= WAL_CAPACITY_BYTES -> file_has (contents d w) base (wal_bytes ps) ->
  (forall i, base + Zlen (wal_bytes ps) <= i < base + WAL_CAPACITY_BYTES ->
     byte_at (contents d w) i = x00) ->
  scan d base w = Ok {| entries := ps; resume_at := Zlen (wal_bytes ps); corruption_at := None |}.
Proof.
  intros Hb Hr Hwf Hfit Hhas Hz. destruct (wal_scan_returns d base w Hb) as (r & E & _ & El).
  rewrite E. f_equal. destruct Hb as [Hb Hc].
  rewrite (scan_exact wal_format d base w ps r); auto. intros Hin h Hh.
  unfold file_read in Hh. case_decide; [|discriminate]. injection Hh as <-.
  rewrite get_bytes_zero; [reflexivity|]. intros i Hi. apply Hz.
  cbn [hdr_len cap wal_format] in *. lia.
Qed.
End Proofs.
