(* ===== verification/Codec.v ===== *)
(** * The metadata codec ([crates/tartine-meta/src/codec.rs])

    The binary format of [MetaOp] and of everything it embeds.  An encoding
    function only ever appends to the encoder's vector, so it is modelled as
    the bytes it appends; a [Decoder] is a buffer and a position, and a read
    outside the buffer, an unknown tag or invalid UTF-8 panics ([None]).
    [decodes] relates a decoding function to the bytes it reads wherever
    they stand in a buffer; one lemma per function, composed by the
    [codec] hints, gives the round trips. *)

From Stdlib Require Import ZArith Lia.
From S2P Require Import Prelude Proto.

(** ** Encoder *)
Definition put_u8 (v : Z) : list byte := to_le 1 v.
Definition put_bool (v : bool) : list byte := put_u8 (Z.b2z v).
Definition put_u32 (v : Z) : list byte := to_le 4 v.
Definition put_u64 (v : Z) : list byte := to_le 8 v.
Definition put_u128 (v : Z) : list byte := to_le 16 v.
Definition put_f64 (v : Z) : list byte := to_le 8 v. (* the bits of the float *)
Definition put_bytes (b : list byte) : list byte := put_u32 (as_u32 (Zlen b)) ++ b.
Definition put_str (s : list byte) : list byte := put_bytes s.

(** [e.u32(v.len() as u32)] and a [for] loop over [v]. *)
Definition put_vec {A} (f : A -> list byte) (v : list A) : list byte :=
  put_u32 (as_u32 (Zlen v)) ++ concat (f <$> v).

(** ** Decoder *)
Record Decoder := { d_buf : list byte; d_pos : nat }.
Definition dec (A : Type) : Type := Decoder -> option (A * Decoder).
Definition dec_ret {A} (a : A) : dec A := fun d => Some (a, d).
Definition dec_panic {A} : dec A := fun _ => None.
Definition dec_bind {A B} (m : dec A) (k : A -> dec B) : dec B :=
  fun d => match m d with Some (a, d') => k a d' | None => None end.
Notation "'let*' x := m 'in' k" := (dec_bind m (fun x => k))
  (at level 10, x pattern, m at level 100, k at level 200) : tartine_scope.

Definition Decoder_new (buf : list byte) : Decoder := {| d_buf := buf; d_pos := 0 |}.

(** [buf[pos..pos + n]], then [pos += n]. *)
Definition get_raw (n : nat) : dec (list byte) := fun d =>
  match slice (d_buf d) (d_pos d) (d_pos d + n) with
  | Some bs => Some (bs, {| d_buf := d_buf d; d_pos := d_pos d + n |})
  | None => None
  end.
Definition get_uint (n : nat) : dec Z := let* bs := get_raw n in dec_ret (from_le bs).
Definition get_u8 : dec Z := get_uint 1.
Definition get_bool : dec bool := let* b := get_u8 in dec_ret (negb (b =? 0)).
Definition get_u32 : dec Z := get_uint 4.
Definition get_u64 : dec Z := get_uint 8.
Definition get_u128 : dec Z := get_uint 16.
Definition get_f64 : dec Z := get_uint 8.
Definition get_bytes_vec : dec (list byte) := let* len := get_u32 in get_raw (Z.to_nat len).
Definition get_str : dec (list byte) :=
  let* bs := get_bytes_vec in if utf8_valid bs then dec_ret bs else dec_panic.

(** [(0..n).map(|_| f(d)).collect()]. *)
Fixpoint get_n {A} (f : dec A) (n : nat) : dec (list A) :=
  match n with
  | O => dec_ret []
  | S n' => let* x := f in let* xs := get_n f n' in dec_ret (x :: xs)
  end.
Definition get_vec {A} (f : dec A) : dec (list A) := let* n := get_u32 in get_n f (Z.to_nat n).

(** ** Types *)
Definition encode_uuid (id : Uuid) : list byte := put_u128 id.
Definition decode_uuid : dec Uuid := get_u128.

Definition encode_disk_class (c : DiskClass) : list byte :=
  put_u8 match c with Hdd => 0 | Ssd => 1 | Nvme => 2 end.
Definition decode_disk_class : dec DiskClass :=
  let* t := get_u8 in
  match t with 0 => dec_ret Hdd | 1 => dec_ret Ssd | 2 => dec_ret Nvme | _ => dec_panic end.

Definition encode_replica_slot (slot : ReplicaSlot) : list byte :=
  match slot with
  | AnyOfClass None => put_u8 0
  | AnyOfClass (Some c) => put_u8 1 ++ encode_disk_class c
  | Pinned id => put_u8 2 ++ encode_uuid id
  end.
Definition decode_replica_slot : dec ReplicaSlot :=
  let* t := get_u8 in
  match t with
  | 0 => dec_ret (AnyOfClass None)
  | 1 => let* c := decode_disk_class in dec_ret (AnyOfClass (Some c))
  | 2 => let* id := decode_uuid in dec_ret (Pinned id)
  | _ => dec_panic
  end.

Definition encode_redundancy_scheme (s : RedundancyScheme) : list byte :=
  match s with
  | Replicated slots => put_u8 0 ++ put_vec encode_replica_slot slots
  | ErasureCoded data_shards parity_shards => put_u8 1 ++ put_u8 data_shards ++ put_u8 parity_shards
  end.
Definition decode_redundancy_scheme : dec RedundancyScheme :=
  let* t := get_u8 in
  match t with
  | 0 => let* slots := get_vec decode_replica_slot in dec_ret (Replicated slots)
  | 1 => let* a := get_u8 in let* b := get_u8 in dec_ret (ErasureCoded a b)
  | _ => dec_panic
  end.

Definition encode_inode_mode (m : InodeMode) : list byte :=
  put_u8 match m with AppendOnly => 0 | Converting => 1 | Writable => 2 end.
Definition decode_inode_mode : dec InodeMode :=
  let* t := get_u8 in
  match t with 0 => dec_ret AppendOnly | 1 => dec_ret Converting | 2 => dec_ret Writable | _ => dec_panic end.

Definition encode_replica_offsets (replicas : list (Z * Z)) : list byte :=
  put_vec (fun '(id, offset) => encode_uuid id ++ put_u64 offset) replicas.
Definition decode_replica_offsets : dec (list (Z * Z)) :=
  get_vec (let* id := decode_uuid in let* off := get_u64 in dec_ret (id, off)).

Definition encode_chunk_pointer (c : ChunkPointer) : list byte :=
  put_u64 (cp_chunk_seq c) ++ encode_replica_offsets (cp_replicas c) ++
  put_u32 (cp_len c) ++ put_u32 (cp_checksum c).
Definition decode_chunk_pointer : dec ChunkPointer :=
  let* chunk_seq := get_u64 in
  let* replicas := decode_replica_offsets in
  let* len := get_u32 in
  let* sum := get_u32 in
  dec_ret {| cp_chunk_seq := chunk_seq; cp_replicas := replicas; cp_len := len; cp_checksum := sum |}.

Definition encode_extent (x : Extent) : list byte :=
  put_u64 (ex_file_offset x) ++ put_u32 (ex_len x) ++
  encode_replica_offsets (ex_replicas x) ++ put_u32 (ex_checksum x).
Definition decode_extent : dec Extent :=
  let* file_offset := get_u64 in
  let* len := get_u32 in
  let* replicas := decode_replica_offsets in
  let* sum := get_u32 in
  dec_ret {| ex_file_offset := file_offset; ex_len := len; ex_replicas := replicas; ex_checksum := sum |}.

Definition encode_data_locator (dl : DataLocator) : list byte :=
  match dl with
  | ChunkLog v => put_u8 0 ++ put_vec encode_chunk_pointer v
  | Extents v => put_u8 1 ++ put_vec encode_extent v
  end.
Definition decode_data_locator : dec DataLocator :=
  let* t := get_u8 in
  match t with
  | 0 => let* v := get_vec decode_chunk_pointer in dec_ret (ChunkLog v)
  | 1 => let* v := get_vec decode_extent in dec_ret (Extents v)
  | _ => dec_panic
  end.

Definition encode_inode_record (r : InodeRecord) : list byte :=
  put_u64 (ir_inode r) ++ encode_inode_mode (ir_mode r) ++ put_u64 (ir_size r) ++
  encode_redundancy_scheme (ir_redundancy r) ++ encode_data_locator (ir_data r) ++
  put_u32 (ir_uid r) ++ put_u32 (ir_gid r) ++ put_u32 (ir_unix_mode r) ++ put_u64 (ir_mtime_unix r).
Definition decode_inode_record : dec InodeRecord :=
  let* inode := get_u64 in
  let* mode := decode_inode_mode in
  let* size := get_u64 in
  let* redundancy := decode_redundancy_scheme in
  let* data := decode_data_locator in
  let* uid := get_u32 in
  let* gid := get_u32 in
  let* unix_mode := get_u32 in
  let* mtime_unix := get_u64 in
  dec_ret {| ir_inode := inode; ir_mode := mode; ir_size := size; ir_redundancy := redundancy;
             ir_data := data; ir_uid := uid; ir_gid := gid; ir_unix_mode := unix_mode;
             ir_mtime_unix := mtime_unix |}.

Definition encode_disk_roles (r : DiskRoles) : list byte :=
  put_u8 (Z.lor (Z.b2z (role_data r)) (Z.shiftl (Z.b2z (role_metadata r)) 1)).
Definition decode_disk_roles : dec DiskRoles :=
  let* b := get_u8 in
  dec_ret {| role_data := negb (Z.land b 1 =? 0); role_metadata := negb (Z.land b 2 =? 0) |}.

Definition encode_disk_state (s : DiskState) : list byte :=
  put_u8 match s with Active => 0 | Draining => 1 | Dead => 2 end.
Definition decode_disk_state : dec DiskState :=
  let* t := get_u8 in
  match t with 0 => dec_ret Active | 1 => dec_ret Draining | 2 => dec_ret Dead | _ => dec_panic end.

Definition encode_disk_entry (e : DiskEntry) : list byte :=
  encode_disk_roles (de_roles e) ++ encode_disk_state (de_state e) ++ encode_disk_class (de_class e) ++
  put_f64 (de_weight e) ++ put_u64 (de_used_bytes e) ++ put_u64 (de_capacity_bytes e).
Definition decode_disk_entry : dec DiskEntry :=
  let* roles := decode_disk_roles in
  let* state := decode_disk_state in
  let* class := decode_disk_class in
  let* weight := get_f64 in
  let* used := get_u64 in
  let* capacity := get_u64 in
  dec_ret {| de_roles := roles; de_state := state; de_class := class; de_weight := weight;
             de_used_bytes := used; de_capacity_bytes := capacity |}.

(** The disks come in the order the [HashMap] iterates. *)
Definition encode_pool_map `{HashIter} (pm : PoolMap) : list byte :=
  put_u64 (pm_epoch pm) ++ put_u32 (as_u32 (Z.of_nat (size (pm_disks pm)))) ++
  concat ((fun '(id, entry) => encode_uuid id ++ encode_disk_entry entry) <$> hm_iter (pm_disks pm)).

Fixpoint decode_disks (n : nat) (disks : gmap Z DiskEntry) : dec (gmap Z DiskEntry) :=
  match n with
  | O => dec_ret disks
  | S n' =>
      let* id := decode_uuid in
      let* entry := decode_disk_entry in
      decode_disks n' (<[id := entry]> disks)
  end.
Definition decode_pool_map : dec PoolMap :=
  let* epoch := get_u64 in
  let* n := get_u32 in
  let* disks := decode_disks (Z.to_nat n) ∅ in
  dec_ret {| pm_epoch := epoch; pm_disks := disks |}.

Definition encode_meta_group (g : MetaGroup) : list byte :=
  encode_uuid (mg_primary g) ++ put_bool (bool_decide (is_Some (mg_backup g))) ++
  match mg_backup g with Some backup => encode_uuid backup | None => [] end ++ put_u64 (mg_epoch g).
Definition decode_meta_group : dec MetaGroup :=
  let* primary := decode_uuid in
  let* has_backup := get_bool in
  let* backup := (if has_backup : bool then let* b := decode_uuid in dec_ret (Some b) else dec_ret None) in
  let* epoch := get_u64 in
  dec_ret {| mg_primary := primary; mg_backup := backup; mg_epoch := epoch |}.

Definition encode_op `{HashIter} (op : MetaOp) : list byte :=
  match op with
  | CreateInode rec => put_u8 0 ++ encode_inode_record rec
  | Link parent name child => put_u8 1 ++ put_u64 parent ++ put_str name ++ put_u64 child
  | Unlink parent name => put_u8 2 ++ put_u64 parent ++ put_str name
  | AppendChunk inode chunk => put_u8 3 ++ put_u64 inode ++ encode_chunk_pointer chunk
  | BeginConvert inode => put_u8 4 ++ put_u64 inode
  | CompleteConvert inode extents => put_u8 5 ++ put_u64 inode ++ put_vec encode_extent extents
  | SetRedundancyScheme inode scheme => put_u8 6 ++ put_u64 inode ++ encode_redundancy_scheme scheme
  | PoolMapChange pm => put_u8 7 ++ encode_pool_map pm
  | MetaGroupChange mg => put_u8 8 ++ encode_meta_group mg
  | UpdateExtents inode extents => put_u8 9 ++ put_u64 inode ++ put_vec encode_extent extents
  end.

Definition decode_op_at : dec MetaOp :=
  let* t := get_u8 in
  match t with
  | 0 => let* rec := decode_inode_record in dec_ret (CreateInode rec)
  | 1 => let* parent := get_u64 in let* name := get_str in let* child := get_u64 in
         dec_ret (Link parent name child)
  | 2 => let* parent := get_u64 in let* name := get_str in dec_ret (Unlink parent name)
  | 3 => let* inode := get_u64 in let* chunk := decode_chunk_pointer in dec_ret (AppendChunk inode chunk)
  | 4 => let* inode := get_u64 in dec_ret (BeginConvert inode)
  | 5 => let* inode := get_u64 in let* xs := get_vec decode_extent in dec_ret (CompleteConvert inode xs)
  | 6 => let* inode := get_u64 in let* s := decode_redundancy_scheme in
         dec_ret (SetRedundancyScheme inode s)
  | 7 => let* pm := decode_pool_map in dec_ret (PoolMapChange pm)
  | 8 => let* mg := decode_meta_group in dec_ret (MetaGroupChange mg)
  | 9 => let* inode := get_u64 in let* xs := get_vec decode_extent in dec_ret (UpdateExtents inode xs)
  | _ => dec_panic
  end.

(** Run a decoding function on a whole buffer. *)
Definition run_dec {A} (m : dec A) (buf : list byte) : option A := fst <$> m (Decoder_new buf).
Definition decode_op (bytes : list byte) : option MetaOp := run_dec decode_op_at bytes.

(** ** Round trips *)

(** [m] reads exactly [bs] and returns [x], wherever [bs] stands. *)
Definition decodes {A} (m : dec A) (bs : list byte) (x : A) : Prop :=
  forall pre post,
    m {| d_buf := pre ++ bs ++ post; d_pos := length pre |} =
      Some (x, {| d_buf := pre ++ bs ++ post; d_pos := length pre + length bs |}).

Lemma decodes_ret {A} (x : A) : decodes (dec_ret x) [] x.
Proof. intros pre post. unfold dec_ret. do 3 f_equal. simpl. lia. Qed.

Lemma decodes_bind {A B} (m : dec A) (k : A -> dec B) b1 b2 x y :
  decodes m b1 x -> decodes (k x) b2 y -> decodes (dec_bind m k) (b1 ++ b2) y.
Proof.
  intros H1 H2 pre post. unfold dec_bind. rewrite <- app_assoc, H1.
  specialize (H2 (pre ++ b1) post). rewrite length_app, <- app_assoc in H2. rewrite H2.
  now rewrite length_app, Nat.add_assoc.
Qed.

Lemma decodes_last {A B} (m : dec A) (f : A -> B) bs x y :
  decodes m bs x -> y = f x -> decodes (dec_bind m (fun a => dec_ret (f a))) bs y.
Proof. intros ? ->. rewrite <- (app_nil_r bs). eapply decodes_bind; eauto using decodes_ret. Qed.

Lemma decodes_raw bs n : n = length bs -> decodes (get_raw n) bs bs.
Proof. intros -> pre post. unfold get_raw. simpl. now rewrite (slice_app pre bs post). Qed.

Lemma decodes_uint n w z :
  8 * Z.of_nat n = w -> fits w z -> decodes (get_uint n) (to_le n z) z.
Proof.
  intros Hn Hz. unfold get_uint. eapply decodes_last; [|symmetry; eapply from_to_le_fits; eauto].
  apply decodes_raw. now rewrite length_to_le.
Qed.

(** The hints; [codec] closes a round trip by composing them. *)
Create HintDb codec discriminated.

Lemma decodes_u8 z : u8 z -> decodes get_u8 (put_u8 z) z.
Proof. now apply decodes_uint. Qed.
Lemma decodes_u32 z : u32 z -> decodes get_u32 (put_u32 z) z.
Proof. now apply decodes_uint. Qed.
Lemma decodes_u64 z : u64 z -> decodes get_u64 (put_u64 z) z.
Proof. now apply decodes_uint. Qed.
Lemma decodes_f64 z : u64 z -> decodes get_f64 (put_f64 z) z.
Proof. now apply decodes_uint. Qed.
Lemma decodes_uuid z : u128 z -> decodes decode_uuid (encode_uuid z) z.
Proof. now apply decodes_uint. Qed.
#[export] Hint Resolve decodes_u8 decodes_u32 decodes_u64 decodes_f64 decodes_uuid decodes_ret : codec.

#[local] Opaque put_u8 put_u32 put_u64 put_f64 encode_uuid.

(** A tag, then what it selects. *)
Lemma decodes_tag {A} (k : Z -> dec A) t bs x :
  u8 t -> decodes (k t) bs x -> decodes (dec_bind get_u8 k) (put_u8 t ++ bs) x.
Proof. intros. eapply decodes_bind; eauto with codec. Qed.

Lemma decodes_tag_only {A} (k : Z -> dec A) t x :
  u8 t -> k t = dec_ret x -> decodes (dec_bind get_u8 k) (put_u8 t) x.
Proof. intros Ht E. rewrite <- (app_nil_r (put_u8 t)). apply decodes_tag; auto. rewrite E. apply decodes_ret. Qed.

Ltac width := vm_compute; split; [discriminate|reflexivity].
Ltac decode_seq :=
  repeat first
    [ eapply decodes_last; [solve [eauto with codec]|reflexivity]
    | eapply decodes_bind; [solve [eauto with codec]|] ].
Ltac decode_tag := apply decodes_tag; [width|].

Lemma decodes_n {A} (f : dec A) (g : A -> list byte) l :
  Forall (fun x => decodes f (g x) x) l -> decodes (get_n f (length l)) (concat (g <$> l)) l.
Proof.
  induction 1 as [|x l Hx _ IH]; simpl; [apply decodes_ret|].
  eapply decodes_bind; [exact Hx|]. now eapply decodes_last.
Qed.

Lemma decodes_vec {A} (f : dec A) (g : A -> list byte) (P : A -> Prop) l :
  (forall x, P x -> decodes f (g x) x) -> wf_vec P l -> decodes (get_vec f) (put_vec g l) l.
Proof.
  intros Hf [Hl Hp]. unfold get_vec, put_vec, as_u32. rewrite wrap_small by exact Hl.
  eapply decodes_bind; [eauto with codec|]. unfold Zlen. rewrite Nat2Z.id. apply decodes_n.
  eapply Forall_impl; eauto.
Qed.

Lemma decodes_str s : wf_str s -> decodes get_str (put_str s) s.
Proof.
  intros [Hl Hu]. unfold get_str, put_str. rewrite <- (app_nil_r (put_bytes s)).
  eapply decodes_bind with (x := s); [|rewrite Hu; apply decodes_ret].
  unfold put_bytes, as_u32. rewrite wrap_small by exact Hl.
  eapply decodes_bind; [eauto with codec|]. apply decodes_raw. unfold Zlen. apply Nat2Z.id.
Qed.
#[export] Hint Resolve decodes_str : codec.

Lemma decodes_class c : decodes decode_disk_class (encode_disk_class c) c.
Proof. destruct c; apply decodes_tag_only; [width|reflexivity|width|reflexivity|width|reflexivity]. Qed.
Lemma decodes_mode m : decodes decode_inode_mode (encode_inode_mode m) m.
Proof. destruct m; apply decodes_tag_only; [width|reflexivity|width|reflexivity|width|reflexivity]. Qed.
Lemma decodes_state s : decodes decode_disk_state (encode_disk_state s) s.
Proof. destruct s; apply decodes_tag_only; [width|reflexivity|width|reflexivity|width|reflexivity]. Qed.
Lemma decodes_roles r : decodes decode_disk_roles (encode_disk_roles r) r.
Proof.
  unfold decode_disk_roles, encode_disk_roles.
  destruct r as [[] []]; apply decodes_tag_only; [width|reflexivity|width|reflexivity|width|reflexivity|width|reflexivity].
Qed.
Lemma decodes_bool b : decodes get_bool (put_bool b) b.
Proof. destruct b; apply decodes_tag_only; [width|reflexivity|width|reflexivity]. Qed.
#[export] Hint Resolve decodes_class decodes_mode decodes_state decodes_roles decodes_bool : codec.

Lemma decodes_slot s : wf_slot s -> decodes decode_replica_slot (encode_replica_slot s) s.
Proof.
  destruct s as [[c|]|id]; simpl; intros Hw.
  - decode_tag. decode_seq.
  - apply decodes_tag_only; [width|reflexivity].
  - decode_tag. decode_seq.
Qed.

Lemma decodes_scheme s :
  wf_scheme s -> decodes decode_redundancy_scheme (encode_redundancy_scheme s) s.
Proof.
  destruct s as [slots|a b]; simpl; intros Hw; decode_tag.
  - eapply decodes_last; [|reflexivity]. eapply decodes_vec; eauto using decodes_slot.
  - destruct Hw. decode_seq.
Qed.

Lemma decodes_replicas l :
  wf_replicas l -> decodes decode_replica_offsets (encode_replica_offsets l) l.
Proof.
  apply decodes_vec. intros [id off] [Hi Ho]. decode_seq.
Qed.
#[export] Hint Resolve decodes_scheme decodes_replicas : codec.

Lemma decodes_chunk c : wf_chunk c -> decodes decode_chunk_pointer (encode_chunk_pointer c) c.
Proof. destruct c. intros (? & ? & ? & ?). unfold decode_chunk_pointer, encode_chunk_pointer. simpl in *. decode_seq. Qed.

Lemma decodes_extent x : wf_extent x -> decodes decode_extent (encode_extent x) x.
Proof. destruct x. intros (? & ? & ? & ?). unfold decode_extent, encode_extent. simpl in *. decode_seq. Qed.

Lemma decodes_extents l : wf_vec wf_extent l -> decodes (get_vec decode_extent) (put_vec encode_extent l) l.
Proof. apply decodes_vec, decodes_extent. Qed.
Lemma decodes_chunks l :
  wf_vec wf_chunk l -> decodes (get_vec decode_chunk_pointer) (put_vec encode_chunk_pointer l) l.
Proof. apply decodes_vec, decodes_chunk. Qed.
#[export] Hint Resolve decodes_chunk decodes_extent decodes_extents decodes_chunks : codec.

Lemma decodes_data d : wf_data d -> decodes decode_data_locator (encode_data_locator d) d.
Proof. destruct d; simpl; intros Hw; decode_tag; decode_seq. Qed.
#[export] Hint Resolve decodes_data : codec.

Lemma decodes_inode r : wf_inode r -> decodes decode_inode_record (encode_inode_record r) r.
Proof.
  destruct r. intros (? & ? & ? & ? & ? & ? & ? & ?). unfold decode_inode_record, encode_inode_record.
  simpl in *. decode_seq.
Qed.

Lemma decodes_entry e : wf_entry e -> decodes decode_disk_entry (encode_disk_entry e) e.
Proof.
  destruct e. intros (? & ? & ?). unfold decode_disk_entry, encode_disk_entry. simpl in *. decode_seq.
Qed.
#[export] Hint Resolve decodes_inode decodes_entry : codec.

Lemma decodes_disks l m :
  Forall (fun '(id, e) => u128 id /\ wf_entry e) l ->
  decodes (decode_disks (length l) m)
    (concat ((fun '(id, entry) => encode_uuid id ++ encode_disk_entry entry) <$> l))
    (foldl (fun m '(id, e) => <[id := e]> m) m l).
Proof.
  revert m. induction l as [|[id e] l IH]; intros m Hl; simpl; [apply decodes_ret|].
  apply Forall_cons_1 in Hl as [[Hi He] Hl]. rewrite <- app_assoc.
  eapply decodes_bind; [eauto with codec|]. eapply decodes_bind; [eauto with codec|]. now apply IH.
Qed.

(** Inserting the pairs of a map in any order rebuilds it. *)
Lemma foldl_insert_reverse (l : list (Z * DiskEntry)) :
  foldl (fun m '(id, e) => <[id := e]> m) ∅ l = (list_to_map (reverse l) : gmap Z DiskEntry).
Proof.
  induction l as [|[k e] l IH] using rev_ind; [reflexivity|].
  now rewrite foldl_snoc, reverse_snoc, IH.
Qed.

Lemma foldl_insert_perm (m : gmap Z DiskEntry) l :
  l ≡ₚ map_to_list m -> foldl (fun m '(id, e) => <[id := e]> m) ∅ l = m.
Proof.
  intros HP. assert (HR : reverse l ≡ₚ map_to_list m) by now rewrite reverse_Permutation.
  rewrite foldl_insert_reverse, <- (list_to_map_to_list m) at 1. apply list_to_map_proper; [|exact HR].
  rewrite HR. apply NoDup_fst_map_to_list.
Qed.

Lemma decodes_pool_map `{HashIter} pm :
  wf_pool_map pm -> decodes decode_pool_map (encode_pool_map pm) pm.
Proof.
  destruct pm as [epoch disks]. intros (He & Hs & Hd). unfold decode_pool_map, encode_pool_map.
  cbn [pm_epoch pm_disks] in *. unfold as_u32. rewrite wrap_small by exact Hs.
  eapply decodes_bind; [eauto with codec|]. eapply decodes_bind; [eauto with codec|].
  eapply decodes_last; [|reflexivity]. rewrite Nat2Z.id.
  replace (size disks) with (length (hm_iter disks)) by now rewrite hm_iter_perm, length_map_to_list.
  rewrite <- (foldl_insert_perm disks (hm_iter disks)) at 3 by apply hm_iter_perm.
  apply decodes_disks. rewrite hm_iter_perm. apply map_Forall_to_list in Hd.
  eapply Forall_impl; [exact Hd|]. now intros [id e].
Qed.

Lemma decodes_group g : wf_group g -> decodes decode_meta_group (encode_meta_group g) g.
Proof.
  destruct g as [p [b|] e]; intros (Hp & Hb & He); unfold decode_meta_group, encode_meta_group;
    cbn [mg_primary mg_backup mg_epoch] in *.
  - rewrite bool_decide_true by eauto. decode_seq. eapply decodes_bind; [|decode_seq]. decode_seq.
  - rewrite bool_decide_false by (intros [? ?]; discriminate). decode_seq.
Qed.
#[export] Hint Resolve decodes_pool_map decodes_group : codec.

Lemma decodes_op `{HashIter} op : wf_op op -> decodes decode_op_at (encode_op op) op.
Proof.
  destruct op; simpl; intros Hw; decode_tag;
    repeat match goal with H : _ /\ _ |- _ => destruct H end; decode_seq.
Qed.

Lemma run_decodes {A} (m : dec A) bs x rest : decodes m bs x -> run_dec m (bs ++ rest) = Some x.
Proof. intros Hd. unfold run_dec. specialize (Hd [] rest). simpl in Hd. unfold Decoder_new. now rewrite Hd. Qed.

(** C19: the log's codec round-trips: every well-formed metadata operation is
    decoded from its encoding, whatever the order the pool map's hash table
    iterates in and whatever bytes follow, and never panics. *)
Theorem decode_encode_op `{HashIter} op rest :
  wf_op op -> decode_op (encode_op op ++ rest) = Some op.
Proof. intros. apply run_decodes. now apply decodes_op. Qed.

(** The inode table's codec round-trips. *)
Theorem decode_encode_inode r rest :
  wf_inode r -> run_dec decode_inode_record (encode_inode_record r ++ rest) = Some r.
Proof. intros. apply run_decodes. now apply decodes_inode. Qed.

(** ** Runs *)
Definition demo_inode : InodeRecord :=
  {| ir_inode := 2; ir_mode := AppendOnly; ir_size := 5; ir_redundancy := Replicated [AnyOfClass (Some Ssd); Pinned 7];
     ir_data := ChunkLog [{| cp_chunk_seq := 0; cp_replicas := [(7, 4096)]; cp_len := 5; cp_checksum := 99 |}];
     ir_uid := 1000; ir_gid := 1000; ir_unix_mode := 420; ir_mtime_unix := 1700000000 |}.
Definition demo_entry : DiskEntry :=
  {| de_roles := {| role_data := true; role_metadata := true |}; de_state := Active; de_class := Ssd;
     de_weight := 0x3ff0000000000000; de_used_bytes := 10; de_capacity_bytes := 1000 |}.
Definition demo_pool_map : PoolMap :=
  {| pm_epoch := 3; pm_disks := {[ 7 := demo_entry; 2 ^ 100 := demo_entry ]} |}.

#[export] Instance wf_replicas_dec l : Decision (wf_replicas l).
Proof. unfold wf_replicas, wf_vec. apply and_dec; [apply _|]. apply Forall_dec. intros []. apply _. Defined.
#[export] Instance wf_chunk_dec c : Decision (wf_chunk c).
Proof. unfold wf_chunk. apply _. Defined.
#[export] Instance wf_extent_dec c : Decision (wf_extent c).
Proof. unfold wf_extent. apply _. Defined.
#[export] Instance wf_data_dec d : Decision (wf_data d).
Proof. destruct d; unfold wf_data, wf_vec; apply _. Defined.
#[export] Instance wf_slot_dec s : Decision (wf_slot s).
Proof. destruct s; simpl; apply _. Defined.
#[export] Instance wf_scheme_dec s : Decision (wf_scheme s).
Proof. destruct s; unfold wf_scheme, wf_vec; apply _. Defined.
#[export] Instance wf_inode_dec r : Decision (wf_inode r).
Proof. unfold wf_inode. apply _. Defined.
#[export] Instance wf_entry_dec e : Decision (wf_entry e).
Proof. unfold wf_entry. apply _. Defined.
#[export] Instance wf_pool_map_dec pm : Decision (wf_pool_map pm).
Proof. unfold wf_pool_map. apply _. Defined.
#[export] Instance wf_group_dec g : Decision (wf_group g).
Proof. unfold wf_group. destruct (mg_backup g); apply _. Defined.
#[export] Instance wf_op_dec op : Decision (wf_op op).
Proof. destruct op; unfold wf_op, wf_str, wf_vec; apply _. Defined.

Lemma decode_encode_op_witness :
  decode_op (@encode_op hash_iter_reversed (PoolMapChange demo_pool_map) ++ [x00]) =
    Some (PoolMapChange demo_pool_map).
Proof.
  apply (@decode_encode_op hash_iter_reversed (PoolMapChange demo_pool_map) [x00]).
  apply (bool_decide_unpack _). vm_compute. exact I.
Defined.
