(* ===== verification/CodecType.v ===== *)
(** * What the metadata codec's decoders return

    The converse side of the round trips of [Codec]: whatever the bytes, a
    value that a decoder returns fits the Rust types it is made of. *)

From Stdlib Require Import ZArith Lia.
From S2P Require Import Prelude Proto Codec.

(** Everything [m] returns satisfies [P]. *)
Definition yields {A} (m : dec A) (P : A -> Prop) : Prop := forall d a d', m d = Some (a, d') -> P a.

Create HintDb yields.

Lemma yields_ret {A} (a : A) (P : A -> Prop) : P a -> yields (dec_ret a) P.
Proof. intros Ha d a' d' [= <- <-]. exact Ha. Qed.
Lemma yields_panic {A} (P : A -> Prop) : yields dec_panic P.
Proof. intros d a d' [=]. Qed.
Lemma yields_bind {A B} (m : dec A) (k : A -> dec B) (P : A -> Prop) (Q : B -> Prop) :
  yields m P -> (forall a, P a -> yields (k a) Q) -> yields (dec_bind m k) Q.
Proof.
  intros Hm Hk d b d' E. unfold dec_bind in E. destruct (m d) as [[a d1]|] eqn:Em; [|discriminate].
  exact (Hk a (Hm _ _ _ Em) _ _ _ E).
Qed.
Lemma yields_any {A} (m : dec A) : yields m (fun _ => True).
Proof. now intros d a d' _. Qed.
Lemma yields_weaken {A} (m : dec A) (P Q : A -> Prop) : yields m P -> (forall a, P a -> Q a) -> yields m Q.
Proof. intros Hm Hpq d a d' E. exact (Hpq a (Hm _ _ _ E)). Qed.

(** ** Numbers, strings, vectors *)
Lemma yields_raw n : yields (get_raw n) (fun bs => length bs = n).
Proof.
  intros d bs d' E. unfold get_raw in E. destruct (slice _ _ _) as [bs'|] eqn:Es; [|discriminate]. injection E as <- _.
  apply slice_Some in Es. lia.
Qed.

Lemma yields_uint n w : w = 8 * Z.of_nat n -> yields (get_uint n) (fits w).
Proof.
  intros ->. eapply yields_bind; [apply yields_raw|]. intros bs <-. apply yields_ret. now apply from_le_fits.
Qed.

Lemma yields_u8 : yields get_u8 u8.
Proof. now apply yields_uint. Qed.
Lemma yields_u32 : yields get_u32 u32.
Proof. now apply yields_uint. Qed.
Lemma yields_u64 : yields get_u64 u64.
Proof. now apply yields_uint. Qed.
Lemma yields_f64 : yields get_f64 u64.
Proof. now apply yields_uint. Qed.
Lemma yields_u128 : yields get_u128 u128.
Proof. now apply yields_uint. Qed.
Lemma yields_uuid : yields decode_uuid u128.
Proof. exact yields_u128. Qed.
#[export] Hint Resolve yields_u8 yields_u32 yields_u64 yields_f64 yields_u128 yields_uuid : yields.

Lemma u32_Zlen {A} (l : list A) n : u32 n -> length l = Z.to_nat n -> u32 (Zlen l).
Proof. intros Hn Hl. unfold Zlen. rewrite Hl, Z2Nat.id by apply Hn. exact Hn. Qed.

Lemma yields_str : yields get_str wf_str.
Proof.
  eapply yields_bind with (P := fun bs => u32 (Zlen bs)).
  - eapply yields_bind; [apply yields_u32|]. intros n Hn. eapply yields_weaken; [apply yields_raw|].
    intros bs Hl. exact (u32_Zlen _ _ Hn Hl).
  - intros bs Hl. destruct (utf8_valid bs) eqn:E; [now apply yields_ret|apply yields_panic].
Qed.

Lemma yields_n {A} (f : dec A) P n : yields f P -> yields (get_n f n) (fun l => length l = n /\ Forall P l).
Proof.
  intros Hf. induction n as [|n IH]; cbn [get_n]; [now apply yields_ret|].
  eapply yields_bind; [exact Hf|]. intros x Hx. eapply yields_bind; [exact IH|]. intros xs [Hl Hxs].
  apply yields_ret. split; [cbn; congruence|now constructor].
Qed.

Lemma yields_vec {A} (f : dec A) P : yields f P -> yields (get_vec f) (wf_vec P).
Proof.
  intros Hf. eapply yields_bind; [apply yields_u32|]. intros n Hn. eapply yields_weaken; [exact (yields_n _ _ _ Hf)|].
  intros l [Hl HP]. split; [|exact HP]. exact (u32_Zlen _ _ Hn Hl).
Qed.
#[export] Hint Resolve yields_str yields_vec : yields.

(** A decoder reads field after field, and by cases on a tag. *)
Ltac yields_seq :=
  repeat first
    [ apply yields_panic
    | apply yields_ret
    | eapply yields_bind; [first [solve [eauto with yields] | apply yields_any]|]; intros
    | match goal with |- yields (match ?x with _ => _ end) _ => destruct x end ];
  simpl; auto.

(** ** The types, from the leaves up *)
Lemma yields_slot : yields decode_replica_slot wf_slot.
Proof. yields_seq. Qed.
#[export] Hint Resolve yields_slot : yields.
Lemma yields_scheme : yields decode_redundancy_scheme wf_scheme.
Proof. yields_seq. Qed.
Lemma yields_replicas : yields decode_replica_offsets wf_replicas.
Proof. apply yields_vec. yields_seq. Qed.
#[export] Hint Resolve yields_scheme yields_replicas : yields.
Lemma yields_chunk : yields decode_chunk_pointer wf_chunk.
Proof. yields_seq. unfold wf_chunk; auto. Qed.
Lemma yields_extent : yields decode_extent wf_extent.
Proof. yields_seq. unfold wf_extent; auto. Qed.
#[export] Hint Resolve yields_chunk yields_extent : yields.
Lemma yields_data : yields decode_data_locator wf_data.
Proof. yields_seq. Qed.
#[export] Hint Resolve yields_data : yields.
Lemma yields_inode : yields decode_inode_record wf_inode.
Proof. yields_seq. unfold wf_inode; cbn; auto 10. Qed.
Lemma yields_entry : yields decode_disk_entry wf_entry.
Proof. yields_seq. unfold wf_entry; auto. Qed.
#[export] Hint Resolve yields_inode yields_entry : yields.

(** The table of disks: keys that come twice make it smaller than its count. *)
Lemma yields_disks n m :
  map_Forall (fun id e => u128 id /\ wf_entry e) m ->
  yields (decode_disks n m) (fun m' => map_Forall (fun id e => u128 id /\ wf_entry e) m' /\ (size m' <= size m + n)%nat).
Proof.
  revert m. induction n as [|n IH]; intros m Hm; cbn [decode_disks].
  - apply yields_ret. split; [exact Hm|lia].
  - eapply yields_bind; [apply yields_uuid|]. intros id Hid. eapply yields_bind; [apply yields_entry|]. intros e He.
    eapply yields_weaken; [apply IH; now apply map_Forall_insert_2|]. intros m' [Hf Hs]. split; [exact Hf|].
    destruct (m !! id) eqn:E.
    + rewrite map_size_insert_Some in Hs by eauto. lia.
    + rewrite map_size_insert_None in Hs by exact E. lia.
Qed.

Lemma yields_pool_map : yields decode_pool_map wf_pool_map.
Proof.
  eapply yields_bind; [apply yields_u64|]. intros epoch He. eapply yields_bind; [apply yields_u32|]. intros n Hn.
  eapply yields_bind; [apply (yields_disks _ ∅), map_Forall_empty|]. intros m [Hf Hs]. apply yields_ret.
  split; [exact He|]. split; [|exact Hf]. cbn [pm_disks]. rewrite map_size_empty in Hs. unfold fits in *. lia.
Qed.

Lemma yields_group : yields decode_meta_group wf_group.
Proof.
  eapply yields_bind; [apply yields_uuid|]. intros p Hp. eapply yields_bind; [apply yields_any|]. intros has _.
  eapply yields_bind with (P := fun b => match b with Some b => u128 b | None => True end); [destruct has; yields_seq|].
  intros b Hb. eapply yields_bind; [apply yields_u64|]. intros e He. apply yields_ret. unfold wf_group; auto.
Qed.
#[export] Hint Resolve yields_pool_map yields_group : yields.

Lemma yields_op : yields decode_op_at wf_op.
Proof. yields_seq. Qed.

(** C20: decoding makes typed values of any bytes.  What [decode_op] returns,
    from a log or from anything else, has every number within its width, every
    string valid UTF-8 and every length within 32 bits; so it can be logged
    again, and is decoded from its own encoding, in any hash-table order. *)
Theorem decode_op_typed `{HashIter} bytes op :
  decode_op bytes = Some op -> wf_op op /\ forall rest, decode_op (encode_op op ++ rest) = Some op.
Proof.
  unfold decode_op, run_dec. destruct (decode_op_at _) as [[op' d]|] eqn:E; [|discriminate]. intros [= ->].
  assert (Hw : wf_op op) by exact (yields_op _ _ _ E). split; [exact Hw|]. intros rest. now apply run_decodes, decodes_op.
Qed.

(** ** A run *)

(** A pool map in which a disk comes twice, with a role bit nobody knows. *)
Definition twice_bytes : list byte :=
  put_u8 7 ++ put_u64 3 ++ put_u32 2 ++
  put_u128 9 ++ put_u8 255 ++ put_u8 0 ++ put_u8 1 ++ put_u64 5 ++ put_u64 6 ++ put_u64 7 ++
  put_u128 9 ++ put_u8 2 ++ put_u8 1 ++ put_u8 2 ++ put_u64 5 ++ put_u64 6 ++ put_u64 8.
Definition twice_op : MetaOp :=
  PoolMapChange {| pm_epoch := 3; pm_disks := {[ 9 :=
    {| de_roles := {| role_data := false; role_metadata := true |}; de_state := Draining; de_class := Nvme;
       de_weight := 5; de_used_bytes := 6; de_capacity_bytes := 8 |} ]} |}.

Lemma decode_op_typed_witness :
  wf_op twice_op /\ forall rest, decode_op (@encode_op hash_iter_reversed twice_op ++ rest) = Some twice_op.
Proof. apply (@decode_op_typed hash_iter_reversed twice_bytes). vm_compute. reflexivity. Defined.
