(* ===== verification/CorePlacement.v ===== *)
(** * Placement over the pool map ([crates/tartine-core/src/placement.rs])

    The wrapper that turns a [PoolMap] into the kernel core's candidate array
    and its answers back into disk ids.  The array comes in the order the
    pool map's hash table iterates in; the theorems show that the answers do
    not depend on it.  An index outside an array or a map panics. *)

From Stdlib Require Import ZArith Lia SpecFloat.
From S2P Require Import Prelude Proto KHash KScore KPlacement Codec.

Definition placement_key (inode seq : Z) : Z := tartine_hash_key inode seq.

Definition disk_id_to_hi_lo (id : DiskId) : Z * Z := (as_u64 (Z.shiftr id 64), as_u64 id).
Definition disk_id_from_hi_lo (hi lo : Z) : DiskId := Z.lor (wrap 128 (Z.shiftl hi 64)) lo.

(** ** The weight of a disk

    [(weight.max(0.0) * 1000.0) as u32] on the bits of the [f64]: IEEE
    multiplication, then truncation towards zero that saturates; NaN is 0. *)
Definition f64_of_bits (b : Z) : spec_float :=
  let s := Z.testbit b 63 in
  let e := Z.land (Z.shiftr b 52) 0x7ff in
  let m := Z.land b (2 ^ 52 - 1) in
  if e =? 0x7ff then if m =? 0 then S754_infinity s else S754_nan
  else if e =? 0 then match m with Zpos p => S754_finite s p (-1074) | _ => S754_zero s end
  else match m + 2 ^ 52 with Zpos p => S754_finite s p (e - 1075) | _ => S754_nan end.

(** [f64::max(x, 0.0)]: the other operand if one is NaN. *)
Definition f64_max0 (x : spec_float) : spec_float :=
  match x with
  | S754_nan | S754_zero _ => S754_zero false
  | S754_infinity s => if s then S754_zero false else x
  | S754_finite s _ _ => if s then S754_zero false else x
  end.

Definition f64_1000 : spec_float := f64_of_bits 0x408f400000000000.

(** [x as u32]. *)
Definition f64_as_u32 (x : spec_float) : Z :=
  match x with
  | S754_nan | S754_zero _ => 0
  | S754_infinity s => if s then 0 else u32_max
  | S754_finite s m e =>
      if s then 0
      else Z.min u32_max (if 0 <=? e then Z.pos m * 2 ^ e else Z.pos m / 2 ^ (- e))
  end.

Definition weight_milli_of (weight : Z) : Z :=
  f64_as_u32 (SFmul 53 1024 (f64_max0 (f64_of_bits weight)) f64_1000).

Definition to_candidate (id : DiskId) (entry : DiskEntry) : DiskCandidate :=
  let '(hi, lo) := disk_id_to_hi_lo id in
  {| disk_id_hi := hi; disk_id_lo := lo; weight_milli := weight_milli_of (de_weight entry);
     active := if decide (de_state entry = Active) then 1 else 0; class := to_ffi (de_class entry) |}.

Definition has_role (role : DiskEntry -> bool) (e : Z * DiskEntry) : Prop := role e.2 = true.
#[export] Instance has_role_dec role e : Decision (has_role role e).
Proof. unfold has_role. apply _. Defined.

(** [ids] and [candidates], as both functions build them; [pool.disks[id]]
    panics if the id is missing. *)
Definition eligible_ids `{HashIter} (pool : PoolMap) (require_role : DiskEntry -> bool) : list DiskId :=
  fst <$> filter (has_role require_role) (hm_iter (pm_disks pool)).
Definition candidates_of (pool : PoolMap) (ids : list DiskId) : option (list DiskCandidate) :=
  mapM (fun id : Z => to_candidate id <$> pm_disks pool !! id) ids.

Definition targets `{HashIter} (pool : PoolMap) (key : Z) (n : nat) (require_role : DiskEntry -> bool) :
    option (list DiskId) :=
  let ids := eligible_ids pool require_role in
  candidates ← candidates_of pool ids;
  let out := replicate (n `min` MAX_SELECT) 0 in
  let '(out, filled) := hrw_select candidates key out in
  mapM (fun i => ids !! Z.to_nat i) (take filled out).

Inductive PlaceError := ErasureCodedUnimplemented.

Definition slot_to_spec (slot : ReplicaSlot) : ReplicaSlotSpec :=
  match slot with
  | AnyOfClass None =>
      {| required_class := CLASS_ANY; pinned := 0; pad := [0; 0]; pinned_id_hi := 0; pinned_id_lo := 0 |}
  | AnyOfClass (Some c) =>
      {| required_class := to_ffi c; pinned := 0; pad := [0; 0]; pinned_id_hi := 0; pinned_id_lo := 0 |}
  | Pinned id =>
      let '(hi, lo) := disk_id_to_hi_lo id in
      {| required_class := CLASS_ANY; pinned := 1; pad := [0; 0]; pinned_id_hi := hi; pinned_id_lo := lo |}
  end.

Definition place_redundancy `{HashIter} (pool : PoolMap) (scheme : RedundancyScheme) (key : Z)
    (require_role : DiskEntry -> bool) : result PlaceError (list (option DiskId)) :=
  match scheme with
  | ErasureCoded _ _ => Err ErasureCodedUnimplemented
  | Replicated slots =>
      let ids := eligible_ids pool require_role in
      let? candidates := unwrap (candidates_of pool ids) in
      let specs := slot_to_spec <$> slots in
      let out := replicate (length specs `min` MAX_SELECT) 0 in
      let '(out, n) := KPlacement.place_redundancy candidates key specs out in
      unwrap (mapM (fun i => if i =? UNPLACED then Some None else Some <$> ids !! Z.to_nat i) (take n out))
  end.

Example weight_one : weight_milli_of 0x3ff0000000000000 = 1000.
Proof. vm_compute. reflexivity. Qed.
Example weight_odd : (weight_milli_of 0x3fb999999999999a, weight_milli_of 0xbff0000000000000,
  weight_milli_of 0x7ff8000000000000, weight_milli_of 0x7ff0000000000000) = (100, 0, 0, u32_max).
Proof. vm_compute. reflexivity. Qed.

(** ** Ids *)

Lemma disk_id_hi_lo id : u128 id ->
  u64 (as_u64 (Z.shiftr id 64)) /\ u64 (as_u64 id) /\
  id_of (as_u64 (Z.shiftr id 64)) (as_u64 id) = id.
Proof.
  intros [H1 H2]. unfold as_u64. split; [apply wrap_fits; lia|]. split; [apply wrap_fits; lia|].
  rewrite id_of_eq by (apply wrap_fits; lia). unfold wrap. rewrite Z.shiftr_div_pow2 by lia.
  rewrite (Z.mod_small (id / 2 ^ 64)).
  - rewrite Z.mul_comm. symmetry. apply Z.div_mod. discriminate.
  - split; [apply Z.div_pos; lia|]. apply Z.div_lt_upper_bound; lia.
Qed.

Lemma disk_id_to_candidate id e : u128 id -> disk_id (to_candidate id e) = id.
Proof. intros H. unfold disk_id, to_candidate. simpl. now apply disk_id_hi_lo. Qed.

Lemma f64_as_u32_fits x : u32 (f64_as_u32 x).
Proof.
  unfold fits, f64_as_u32, u32_max. destruct x as [s|s| |s m e]; try destruct s; try lia.
  destruct (Z.leb_spec 0 e).
  - pose proof (Z.pow_nonneg 2 e). nia.
  - pose proof (Z.div_pos (Z.pos m) (2 ^ (- e))). pose proof (Z.pow_pos_nonneg 2 (- e)). lia.
Qed.

Lemma to_candidate_wf id e : u128 id -> wf_candidate (to_candidate id e).
Proof.
  intros H. destruct (disk_id_hi_lo id H) as (? & ? & _). unfold wf_candidate, to_candidate. simpl.
  split_and!; auto; [apply f64_as_u32_fits| |].
  - case_decide; split; lia.
  - destruct (de_class e); split; simpl; lia.
Qed.

#[local] Opaque weight_milli_of hash_u128_u64 score_from.

(** ** The candidates *)


Definition entry_candidate (e : Z * DiskEntry) : DiskCandidate := to_candidate e.1 e.2.

(** The candidates in an order of their own, that of the map's keys. *)
Definition canonical (pool : PoolMap) (role : DiskEntry -> bool) : list DiskCandidate :=
  entry_candidate <$> filter (has_role role) (map_to_list (pm_disks pool)).

(** A pool map whose disks can be indexed by a [u32]. *)
Definition placeable (pool : PoolMap) : Prop :=
  wf_pool_map pool /\ Z.of_nat (size (pm_disks pool)) < u32_max.

Lemma candidates_of_eligible `{HashIter} pool role :
  candidates_of pool (eligible_ids pool role) =
    Some (entry_candidate <$> filter (has_role role) (hm_iter (pm_disks pool))).
Proof.
  unfold candidates_of, eligible_ids. apply mapM_Some. apply Forall2_fmap_2, Forall_Forall2_diag.
  apply Forall_forall. intros [id e] He. apply list_elem_of_filter in He as [_ He].
  rewrite hm_iter_perm in He. apply elem_of_map_to_list in He. simpl. now rewrite He.
Qed.

Lemma canonical_perm `{HashIter} pool role :
  entry_candidate <$> filter (has_role role) (hm_iter (pm_disks pool)) ≡ₚ canonical pool role.
Proof. unfold canonical. apply fmap_Permutation. now rewrite hm_iter_perm. Qed.

Lemma canonical_wf pool role : placeable pool -> wf_candidates (canonical pool role).
Proof.
  intros [(_ & _ & Hd) Hs]. unfold canonical. set (l := filter _ _).
  assert (Hl : Forall (fun e => u128 e.1) l).
  { apply Forall_forall. intros [id e] He. apply list_elem_of_filter in He as [_ He].
    apply elem_of_map_to_list in He. now destruct (Hd _ _ He). }
  split; [|split].
  - apply Forall_fmap. eapply Forall_impl; [exact Hl|]. intros [id e] Hid. exact (to_candidate_wf id e Hid).
  - match goal with |- NoDup ?x => assert (E : x = l.*1) end.
    { rewrite <- list_fmap_compose. apply list_fmap_ext. intros i [id e] He. pose proof (Forall_lookup_1 _ _ _ _ Hl He) as Hid.
      unfold compose, entry_candidate. cbn [fst snd] in *. now rewrite (disk_id_to_candidate id e Hid). }
    rewrite E. eapply sublist_NoDup; [apply (NoDup_fst_map_to_list (pm_disks pool))|].
    apply fmap_sublist, sublist_filter.
  - unfold Zlen. rewrite length_fmap.
    assert (length l <= length (map_to_list (pm_disks pool)))%nat by apply sublist_length, sublist_filter.
    rewrite length_map_to_list in *. lia.
Qed.

(** An index of the candidate array names the id of its disk. *)
Lemma eligible_lookup `{HashIter} pool role i :
  placeable pool ->
  eligible_ids pool role !! i =
    disk_id <$> (entry_candidate <$> filter (has_role role) (hm_iter (pm_disks pool))) !! i.
Proof.
  intros [(_ & _ & Hd) _]. unfold eligible_ids. rewrite !list_lookup_fmap.
  destruct (filter (has_role role) (hm_iter (pm_disks pool)) !! i) as [[id e]|] eqn:E; simpl; [|reflexivity].
  apply list_elem_of_lookup_2, list_elem_of_filter in E as [_ E].
  rewrite hm_iter_perm in E. apply elem_of_map_to_list in E. destruct (Hd _ _ E) as [Hid _].
  unfold entry_candidate. cbn [fst snd]. now rewrite (disk_id_to_candidate id e Hid).
Qed.

Lemma mapM_valid cs l (f : Z -> option Z) :
  (forall i, f i = disk_id <$> cs !! Z.to_nat i) -> Forall (valid_index cs) l -> mapM f l = Some (ids_at cs l).
Proof.
  intros Hf. induction 1 as [|z l (j & c & -> & Hj & _) _ IH]; [reflexivity|].
  unfold ids_at in *. simpl. rewrite Hf, IH, Nat2Z.id, Hj. reflexivity.
Qed.

(** C30: [targets] is the reference selection.  Whatever order the hash table
    iterates in, it returns, without a panic, the disks of highest rank among
    the pool's active disks with the role, at most [n] and at most sixteen. *)
Theorem targets_reference pool key n role :
  placeable pool ->
  forall HI : HashIter, @targets HI pool key n role = Some (topk (n `min` MAX_SELECT) key (canonical pool role)).
Proof.
  intros Hp HI. unfold targets. rewrite candidates_of_eligible. cbn [mbind option_bind].
  set (cs := entry_candidate <$> filter (has_role role) (hm_iter (pm_disks pool))).
  assert (HP : cs ≡ₚ canonical pool role) by apply canonical_perm.
  assert (Hwf : wf_candidates cs) by (eapply wf_candidates_perm; [symmetry; exact HP|]; now apply canonical_wf).
  destruct (hrw_select cs key (replicate (n `min` MAX_SELECT) 0)) as [out' filled] eqn:E.
  destruct (hrw_select_topk _ _ _ _ _ Hwf E) as (Hids & _ & Hv & _). rewrite length_replicate in Hids.
  rewrite (mapM_valid cs) by (auto; intros i; now apply eligible_lookup). f_equal.
  rewrite Hids, Nat.min_l by lia. now apply topk_perm.
Qed.

(** ** Redundancy slots *)

(** The disk that an answer of the kernel core names. *)
Definition placed_id (cs : list DiskCandidate) (z : Z) : option Z :=
  if z =? UNPLACED then None else disk_id <$> cs !! Z.to_nat z.

Lemma answer_cases cs key used s :
  wf_candidates cs ->
  match choose_slot cs key used s with
  | Some z => exists j c, z = Z.of_nat j /\ z < u32_max /\ cs !! j = Some c /\ slot_accepts s c /\ (z ∉ used) /\
      (pinned s = 0 -> forall j' c', cs !! j' = Some c' -> slot_accepts s c' ->
         Z.of_nat j' ∉ used -> code key c' <= code key c)
  | None => forall j c, cs !! j = Some c -> slot_accepts s c -> Z.of_nat j ∈ used
  end.
Proof.
  intros Hwf. destruct (choose_slot_spec cs key used s Hwf) as [Ha Hlt]. destruct Hwf as (_ & _ & Hl).
  destruct (choose_slot cs key used s) as [z|]; simpl in Ha.
  - specialize (Hlt z eq_refl). destruct Ha as [[-> _]|(j & c & -> & Hj & Hx)]; [unfold UNPLACED in Hlt; lia|].
    exists j, c. tauto.
  - destruct Ha as [[_ Ha]|(j & c & E & Hj & _)]; [exact Ha|].
    destruct (index_fits cs j c Hl Hj). unfold UNPLACED in E. lia.
Qed.

Lemma same_candidate cs c c' :
  wf_candidates cs -> c ∈ cs -> c' ∈ cs -> disk_id c = disk_id c' -> c = c'.
Proof.
  intros (_ & Hn & _) [i Hi]%list_elem_of_lookup [j Hj]%list_elem_of_lookup E.
  assert (i = j) as <-; [|congruence].
  apply (NoDup_lookup (disk_id <$> cs) i j (disk_id c) Hn); rewrite list_lookup_fmap; [now rewrite Hi|].
  rewrite Hj. simpl. now rewrite E.
Qed.

(** The used indices of two orders of the candidates name the same disks. *)
Definition same_used (cs : list DiskCandidate) (u : list Z) (cs' : list DiskCandidate) (u' : list Z) : Prop :=
  forall j j' c, cs !! j = Some c -> cs' !! j' = Some c -> (Z.of_nat j ∈ u <-> Z.of_nat j' ∈ u').

(** Two unused candidates that both orders prefer are the same disk. *)
Lemma best_same cs cs' key u u' s j j' c c' :
  wf_candidates cs -> cs ≡ₚ cs' -> same_used cs u cs' u' ->
  cs !! j = Some c -> cs' !! j' = Some c' -> slot_accepts s c -> slot_accepts s c' ->
  (Z.of_nat j ∉ u) -> (Z.of_nat j' ∉ u') ->
  (pinned s = 0 -> forall i d, cs !! i = Some d -> slot_accepts s d -> Z.of_nat i ∉ u -> code key d <= code key c) ->
  (pinned s = 0 -> forall i d, cs' !! i = Some d -> slot_accepts s d -> Z.of_nat i ∉ u' -> code key d <= code key c') ->
  c = c'.
Proof.
  intros Hwf HP Hu Hj Hj' Ha Ha' Hn Hn' Hb Hb'.
  assert (Hc : c ∈ cs) by (apply list_elem_of_lookup; eauto).
  assert (Hc' : c' ∈ cs) by (rewrite HP; apply list_elem_of_lookup; eauto).
  apply (same_candidate cs); auto.
  destruct (Z.eq_dec (pinned s) 0) as [Ep|Ep].
  - assert (Hw : Forall wf_candidate cs) by apply Hwf. rewrite Forall_forall in Hw.
    pose proof Hc' as [i Hi]%list_elem_of_lookup. assert (c ∈ cs') as [i' Hi']%list_elem_of_lookup by (rewrite <- HP; exact Hc).
    assert (code key c' <= code key c) by (apply (Hb Ep i); auto; rewrite (Hu i j' c'); auto).
    assert (code key c <= code key c') by (apply (Hb' Ep i'); auto; rewrite <- (Hu j i' c); auto).
    rewrite <- (code_id_code key c), <- (code_id_code key c') by auto. f_equal. lia.
  - destruct Ha as [_ Ha], Ha' as [_ Ha']. apply Z.eqb_neq in Ep. rewrite Ep in Ha, Ha'.
    destruct Ha as [H1 H2], Ha' as [H1' H2']. unfold disk_id. congruence.
Qed.

Lemma choose_perm cs cs' key u u' s :
  wf_candidates cs -> cs ≡ₚ cs' -> same_used cs u cs' u' ->
  match choose_slot cs key u s, choose_slot cs' key u' s with
  | Some z, Some z' => z < u32_max /\ z' < u32_max /\
      exists j j' c, z = Z.of_nat j /\ z' = Z.of_nat j' /\ cs !! j = Some c /\ cs' !! j' = Some c
  | None, None => True
  | _, _ => False
  end.
Proof.
  intros Hwf HP Hu. pose proof (wf_candidates_perm _ _ HP Hwf) as Hwf'.
  pose proof (answer_cases cs key u s Hwf) as H1. pose proof (answer_cases cs' key u' s Hwf') as H2.
  destruct (choose_slot cs key u s) as [z|], (choose_slot cs' key u' s) as [z'|]; auto.
  - destruct H1 as (j & c & -> & Hlt & Hj & Ha & Hn & Hb), H2 as (j' & c' & -> & Hlt' & Hj' & Ha' & Hn' & Hb').
    assert (c = c') as <- by (eapply (best_same cs cs' key u u' s j j'); eauto).
    split; [exact Hlt|]. split; [exact Hlt'|]. exists j, j', c. auto.
  - destruct H1 as (j & c & -> & _ & Hj & Ha & Hn & _).
    assert (c ∈ cs') as [i Hi]%list_elem_of_lookup by (rewrite <- HP; apply list_elem_of_lookup; eauto).
    apply Hn. rewrite (Hu j i c); eauto.
  - destruct H2 as (j & c & -> & _ & Hj & Ha & Hn & _).
    assert (c ∈ cs) as [i Hi]%list_elem_of_lookup by (rewrite HP; apply list_elem_of_lookup; eauto).
    apply Hn. rewrite <- (Hu i j c); eauto.
Qed.

Lemma lookup_inj cs i j c : wf_candidates cs -> cs !! i = Some c -> cs !! j = Some c -> i = j.
Proof.
  intros (_ & Hn & _) Hi Hj. apply (NoDup_lookup (disk_id <$> cs) i j (disk_id c) Hn);
    rewrite list_lookup_fmap; [now rewrite Hi|now rewrite Hj].
Qed.

Lemma placed_id_index cs j c : Z.of_nat j < u32_max -> cs !! j = Some c -> placed_id cs (Z.of_nat j) = Some (disk_id c).
Proof.
  intros Hlt Hj. unfold placed_id, UNPLACED. destruct (Z.eqb_spec (Z.of_nat j) u32_max); [lia|].
  now rewrite Nat2Z.id, Hj.
Qed.

(** The disks that fill a policy do not depend on the order of the
    candidates. *)
Lemma place_list_perm cs cs' key u u' slots :
  wf_candidates cs -> cs ≡ₚ cs' -> same_used cs u cs' u' ->
  placed_id cs <$> place_list cs key u slots = placed_id cs' <$> place_list cs' key u' slots.
Proof.
  intros Hwf HP. pose proof (wf_candidates_perm _ _ HP Hwf) as Hwf'. revert u u'.
  induction slots as [|s ss IH]; intros u u' Hu; [reflexivity|]. cbn [place_list].
  pose proof (choose_perm cs cs' key u u' s Hwf HP Hu) as Hc.
  destruct (choose_slot cs key u s) as [z|], (choose_slot cs' key u' s) as [z'|]; try contradiction.
  - destruct Hc as (Hlt & Hlt' & j & j' & c & -> & -> & Hj & Hj'). rewrite !fmap_cons.
    rewrite (placed_id_index cs j c), (placed_id_index cs' j' c) by auto. f_equal. apply IH.
    intros i i' d Hi Hi'. rewrite !elem_of_app, !list_elem_of_singleton, (Hu i i' d Hi Hi').
    assert (Z.of_nat i = Z.of_nat j <-> Z.of_nat i' = Z.of_nat j') as ->; [|reflexivity].
    rewrite !Nat2Z.inj_iff. split; intros ->.
    + assert (d = c) as -> by congruence. apply (lookup_inj cs' i' j' c); auto.
    + assert (d = c) as -> by congruence. apply (lookup_inj cs i j c); auto.
  - rewrite !fmap_cons. f_equal. now apply IH.
Qed.

(** What a slot of a policy asks of a disk of the pool. *)
Definition slot_matches (slot : ReplicaSlot) (id : Z) (e : DiskEntry) : Prop :=
  de_state e = Active /\
  match slot with
  | AnyOfClass None => True
  | AnyOfClass (Some c) => de_class e = c
  | Pinned pid => id = pid
  end.

Lemma slot_accepts_matches slot id e :
  u128 id -> wf_slot slot -> slot_accepts (slot_to_spec slot) (to_candidate id e) <-> slot_matches slot id e.
Proof.
  intros Hid Hs. unfold slot_accepts, slot_matches, is_active.
  assert (Hact : active (to_candidate id e) <> 0 <-> de_state e = Active).
  { unfold to_candidate. simpl. case_decide; split; congruence. }
  rewrite Hact. apply and_iff_compat_l. destruct slot as [[c|]|pid]; simpl.
  - unfold class_ok, CLASS_ANY. change (class (to_candidate id e)) with (to_ffi (de_class e)).
    destruct (de_class e), c; simpl; split; intros H; try discriminate; auto; destruct H; discriminate.
  - unfold class_ok. tauto.
  - split; [|now intros ->]. intros [E1 E2]. simpl in Hs.
    destruct (disk_id_hi_lo id Hid) as (_ & _ & <-), (disk_id_hi_lo pid Hs) as (_ & _ & <-). congruence.
Qed.

Lemma canonical_lookup pool role j c :
  canonical pool role !! j = Some c ->
  exists id e, pm_disks pool !! id = Some e /\ role e = true /\ c = to_candidate id e.
Proof.
  unfold canonical. rewrite list_lookup_fmap. intros E.
  destruct (filter _ _ !! j) as [[id e]|] eqn:Ee; simplify_eq/=.
  apply list_elem_of_lookup_2, list_elem_of_filter in Ee as [Hr Ee]. apply elem_of_map_to_list in Ee.
  exists id, e. auto.
Qed.

Lemma canonical_complete pool role id e :
  pm_disks pool !! id = Some e -> role e = true -> exists j, canonical pool role !! j = Some (to_candidate id e).
Proof.
  intros He Hr. apply list_elem_of_lookup. unfold canonical. apply list_elem_of_fmap. exists (id, e).
  split; [reflexivity|]. apply list_elem_of_filter. split; [exact Hr|]. now apply elem_of_map_to_list.
Qed.

(** The policy's disks in the canonical order of the candidates. *)
Definition placement (pool : PoolMap) (slots : list ReplicaSlot) (key : Z) (role : DiskEntry -> bool) : list (option Z) :=
  let cs := canonical pool role in
  placed_id cs <$> place_list cs key [] (slot_to_spec <$> take MAX_SELECT slots).

Lemma place_list_index cs key slots z :
  wf_candidates cs -> z ∈ place_list cs key [] slots ->
  z = UNPLACED \/ exists j c, z = Z.of_nat j /\ z < u32_max /\ cs !! j = Some c.
Proof.
  intros Hwf [i Hi]%list_elem_of_lookup.
  destruct (lookup_lt_is_Some_2 slots i) as [s Hs];
    [rewrite <- (length_place_list cs key []); eapply lookup_lt_Some; eauto|].
  destruct (place_list_spec cs key [] slots i s Hwf Hs) as (z' & Hz' & Ha). assert (z' = z) as -> by congruence.
  destruct Ha as [[-> _]|(j & c & -> & Hj & _)]; [now left|right]. exists j, c.
  destruct Hwf as (_ & _ & Hl). destruct (index_fits cs j c Hl Hj). auto.
Qed.

Lemma placement_runs pool slots key role (HI : HashIter) :
  placeable pool -> place_redundancy pool (Replicated slots) key role = Ok (placement pool slots key role).
Proof.
  intros Hp. unfold place_redundancy. rewrite candidates_of_eligible. cbn [unwrap result_bind].
  set (cs := entry_candidate <$> filter (has_role role) (hm_iter (pm_disks pool))).
  assert (HP : cs ≡ₚ canonical pool role) by apply canonical_perm.
  assert (Hwf : wf_candidates cs) by (eapply wf_candidates_perm; [symmetry; exact HP|]; now apply canonical_wf).
  unfold KPlacement.place_redundancy. rewrite length_replicate, !length_fmap.
  set (n := (length slots `min` ((length slots `min` MAX_SELECT) `min` MAX_SELECT))%nat).
  assert (Hn : n = (length slots `min` MAX_SELECT)%nat) by lia.
  assert (Hsp : take n (slot_to_spec <$> slots) = slot_to_spec <$> take MAX_SELECT slots).
  { rewrite <- fmap_take. f_equal. rewrite Hn. destruct (le_dec (length slots) MAX_SELECT).
    - rewrite Nat.min_l, !take_ge by lia. reflexivity.
    - now rewrite Nat.min_r by lia. }
  assert (Hlen : length (slot_to_spec <$> take MAX_SELECT slots) = n) by (rewrite length_fmap, length_take; lia).
  rewrite Hsp, place_loop_list by (rewrite ?length_replicate, ?Hlen; lia). rewrite !take_0. cbn [app].
  rewrite take_app_le, take_ge by (rewrite length_place_list; lia).
  set (l := place_list cs key [] _).
  match goal with |- unwrap ?x = _ => assert (E : x = Some (placed_id cs <$> l)) end.
  { apply mapM_Some, Forall2_fmap_r, Forall_Forall2_diag, Forall_forall. intros z Hz.
    unfold compose. destruct (place_list_index _ _ _ _ Hwf Hz) as [-> |(j & c & -> & Hlt & Hj)]; [reflexivity|].
    destruct (Z.eqb_spec (Z.of_nat j) UNPLACED); [unfold UNPLACED in *; lia|].
    rewrite eligible_lookup by exact Hp. fold cs.
    now rewrite (placed_id_index cs j c Hlt Hj), Nat2Z.id, Hj. }
  rewrite E. cbn [unwrap]. f_equal. unfold placement, l. apply place_list_perm; auto.
  intros j j' c _ _. rewrite !elem_of_nil. reflexivity.
Qed.

Lemma placed_in cs key slots i j c :
  wf_candidates cs -> cs !! j = Some c ->
  Some (disk_id c) ∈ take i (placed_id cs <$> place_list cs key [] slots) <->
  Z.of_nat j ∈ take i (place_list cs key [] slots).
Proof.
  intros Hwf Hj. assert (Hlt : Z.of_nat j < u32_max) by (destruct Hwf as (_ & _ & Hl); now apply (index_fits cs j c)).
  rewrite <- fmap_take, list_elem_of_fmap. split.
  - intros (z & E & Hz). assert (Hin : z ∈ place_list cs key [] slots) by (eapply subseteq_take; exact Hz).
    destruct (place_list_index _ _ _ _ Hwf Hin) as [-> |(k & d & -> & Hk & Hd)]; [discriminate|].
    rewrite (placed_id_index cs k d) in E by auto. injection E as E.
    assert (c = d) as <- by (apply (same_candidate cs); auto; apply list_elem_of_lookup; eauto).
    now rewrite (lookup_inj cs j k c).
  - intros Hz. exists (Z.of_nat j). split; [|exact Hz]. now rewrite (placed_id_index cs j c).
Qed.

(** What each slot gets. *)
Lemma placement_spec pool slots key role :
  placeable pool -> Forall wf_slot slots ->
  let l := placement pool slots key role in
    length l = (length slots `min` MAX_SELECT)%nat /\
    forall i slot, slots !! i = Some slot -> (i < length l)%nat ->
      exists o, l !! i = Some o /\
      match o with
      | Some id => (exists e, pm_disks pool !! id = Some e /\ role e = true /\ slot_matches slot id e) /\
                   (Some id ∉ take i l)
      | None => forall id e, pm_disks pool !! id = Some e -> role e = true -> slot_matches slot id e ->
                  Some id ∈ take i l
      end.
Proof.
  intros Hp Hws. cbv zeta. pose proof (canonical_wf pool role Hp) as Hwf. destruct Hp as [(_ & _ & Hd) _].
  unfold placement. rewrite length_fmap, length_place_list, length_fmap, length_take. split; [lia|].
  intros i slot Hs Hi.
  assert (Hs' : (slot_to_spec <$> take MAX_SELECT slots) !! i = Some (slot_to_spec slot))
    by (rewrite list_lookup_fmap, lookup_take_lt, Hs by lia; reflexivity).
  destruct (place_list_spec _ key [] _ i _ Hwf Hs') as (z & Hz & Ha). cbn [app] in Ha.
  exists (placed_id (canonical pool role) z). split; [now rewrite list_lookup_fmap, Hz|].
  assert (Hslot : wf_slot slot) by (apply (Forall_lookup_1 _ _ _ _ Hws Hs)).
  destruct Ha as [[-> Hall]|(j & c & -> & Hj & Hac & Hnot & _)].
  - change (placed_id (canonical pool role) UNPLACED) with (@None Z). intros id e He Hr Hm.
    assert (Hid : u128 id) by (now destruct (Hd _ _ He)).
    destruct (canonical_complete pool role id e He Hr) as [j Hj].
    rewrite <- (disk_id_to_candidate id e Hid). apply (placed_in _ _ _ _ j); [exact Hwf|exact Hj|].
    apply (Hall j _ Hj). now apply slot_accepts_matches.
  - destruct (canonical_lookup _ _ _ _ Hj) as (id & e & He & Hr & ->).
    assert (Hid : u128 id) by (now destruct (Hd _ _ He)).
    assert (Hlt : Z.of_nat j < u32_max) by (destruct Hwf as (_ & _ & Hl); eapply index_fits; eauto).
    rewrite (placed_id_index _ j _ Hlt Hj), (disk_id_to_candidate id e Hid). split.
    + exists e. split; [exact He|]. split; [exact Hr|]. now apply slot_accepts_matches in Hac.
    + rewrite <- (disk_id_to_candidate id e Hid). rewrite (placed_in _ _ _ _ j); auto.
Qed.

(** C29: a redundancy policy over the pool map.  Whatever order the hash table
    iterates in, the same list of answers comes back, one per slot (at most
    sixteen): a slot gets an active disk that has the role and the class, or
    exactly the pinned disk, never one that an earlier slot got; a slot gets
    nothing only if every disk it accepts went to an earlier slot. *)
Theorem place_redundancy_on_pool pool slots key role :
  placeable pool -> Forall wf_slot slots ->
  exists l, (forall HI : HashIter, @place_redundancy HI pool (Replicated slots) key role = Ok l) /\
    length l = (length slots `min` MAX_SELECT)%nat /\
    forall i slot, slots !! i = Some slot -> (i < length l)%nat ->
      exists o, l !! i = Some o /\
      match o with
      | Some id => (exists e, pm_disks pool !! id = Some e /\ role e = true /\ slot_matches slot id e) /\
                   (Some id ∉ take i l)
      | None => forall id e, pm_disks pool !! id = Some e -> role e = true -> slot_matches slot id e ->
                  Some id ∈ take i l
      end.
Proof.
  intros Hp Hws. exists (placement pool slots key role). split; [intros; now apply placement_runs|].
  now apply placement_spec.
Qed.

(** ** Runs *)
Definition de_is_data (e : DiskEntry) : bool := role_data (de_roles e).

Lemma demo_placeable : placeable demo_pool_map.
Proof. split; [apply (bool_decide_unpack _); vm_compute; exact I|vm_compute; reflexivity]. Qed.

Lemma targets_reference_witness :
  @targets hash_iter_reversed demo_pool_map 5 1 de_is_data = Some (topk 1 5 (canonical demo_pool_map de_is_data)).
Proof. exact (targets_reference demo_pool_map 5 1 de_is_data demo_placeable hash_iter_reversed). Defined.

Lemma place_redundancy_on_pool_witness :
  exists l, (forall HI : HashIter,
    @place_redundancy HI demo_pool_map (Replicated [Pinned 7; AnyOfClass None; AnyOfClass (Some Nvme)]) 5 de_is_data = Ok l) /\
    length l = 3%nat.
Proof.
  destruct (place_redundancy_on_pool demo_pool_map [Pinned 7; AnyOfClass None; AnyOfClass (Some Nvme)] 5 de_is_data
    demo_placeable) as (l & H1 & H2 & _).
  - repeat constructor. discriminate.
  - exists l. exact (conj H1 H2).
Defined.

Example placement_demo :
  @place_redundancy hash_iter_reversed demo_pool_map (Replicated [Pinned 7; AnyOfClass None; AnyOfClass (Some Nvme)]) 5 de_is_data
  = Ok [Some 7; Some (2 ^ 100); None].
Proof. vm_compute. reflexivity. Qed.
