(* ===== verification/FuseWritePath.v ===== *)
(** * The prototype's write-path adapter ([crates/tartine-fuse/src/write_path.rs])

    The typed wrapper over the kernel core's decisions.  An [unreachable!]
    arm or a failed [assert!] is [Panic]. *)

From Stdlib Require Import ZArith Lia.
From S2P Require Import Prelude Proto KWritePath.

Definition mode_to_u32 (mode : InodeMode) : Z :=
  match mode with
  | AppendOnly => MODE_APPEND_ONLY
  | Converting => MODE_CONVERTING
  | Writable => MODE_WRITABLE
  end.

Definition u32_to_mode {E} (mode : Z) : result E InodeMode :=
  if mode =? MODE_APPEND_ONLY then Ok AppendOnly
  else if mode =? MODE_CONVERTING then Ok Converting
  else if mode =? MODE_WRITABLE then Ok Writable
  else Panic.

Inductive WriteError := NotAppendOnlyOrder | RandomWriteDenied | ConversionInProgress.
Inductive WriteKind := WkAppend | RandomWrite.

Definition classify_write (inode : InodeRecord) (offset : Z) (len : nat) : result WriteError WriteKind :=
  let code := tartine_classify_write (mode_to_u32 (ir_mode inode)) (ir_size inode) offset in
  if code =? WRITE_KIND_APPEND then Ok WkAppend
  else if code =? WRITE_KIND_RANDOM then Ok RandomWrite
  else if code =? ERR_NOT_APPEND_ORDER then Err NotAppendOnlyOrder
  else if code =? ERR_CONVERSION_IN_PROGRESS then Err ConversionInProgress
  else Panic.

Definition truncate_allowed (inode : InodeRecord) : result WriteError unit :=
  let code := tartine_truncate_allowed (mode_to_u32 (ir_mode inode)) in
  if code =? 0 then Ok tt
  else if code =? ERR_RANDOM_WRITE_DENIED then Err RandomWriteDenied
  else Panic.

Inductive ConvertError := AlreadyWritable | AlreadyConverting.

(** [&mut inode]: the record after the call, and the result. *)
Definition begin_convert (inode : InodeRecord) : InodeRecord * result ConvertError unit :=
  let code := tartine_begin_convert (mode_to_u32 (ir_mode inode)) in
  if code =? ERR_ALREADY_WRITABLE then (inode, Err AlreadyWritable)
  else if code =? ERR_ALREADY_CONVERTING then (inode, Err AlreadyConverting)
  else if 0 <=? code then
    match u32_to_mode (E := ConvertError) code with
    | Ok m => (set_mode m inode, Ok tt)
    | _ => (inode, Panic)
    end
  else (inode, Panic).

Definition complete_convert (inode : InodeRecord) (extents : list Extent) : result unit InodeRecord :=
  let new_mode := tartine_complete_convert (mode_to_u32 (ir_mode inode)) in
  if negb (0 <=? new_mode) then Panic
  else
    let inode := set_data (Extents extents) inode in
    let? m := u32_to_mode new_mode in Ok (set_mode m inode).

(** The adapter's answers, branch by branch.  No call panics except
    [complete_convert] outside of a conversion; an append-only or converting
    file takes exactly the writes at its end and no truncation, a writable one
    takes everything, and a conversion begins only from append-only. *)
Theorem write_path_adapter inode offset len extents :
  classify_write inode offset len =
    match ir_mode inode with
    | AppendOnly => if offset =? ir_size inode then Ok WkAppend else Err NotAppendOnlyOrder
    | Converting => if offset =? ir_size inode then Ok WkAppend else Err ConversionInProgress
    | Writable => Ok RandomWrite
    end /\
  truncate_allowed inode =
    match ir_mode inode with Writable => Ok tt | _ => Err RandomWriteDenied end /\
  begin_convert inode =
    match ir_mode inode with
    | AppendOnly => (set_mode Converting inode, Ok tt)
    | Converting => (inode, Err AlreadyConverting)
    | Writable => (inode, Err AlreadyWritable)
    end /\
  complete_convert inode extents =
    match ir_mode inode with
    | Converting => Ok (set_mode Writable (set_data (Extents extents) inode))
    | _ => Panic
    end.
Proof.
  unfold classify_write, truncate_allowed, begin_convert, complete_convert, tartine_classify_write.
  destruct (ir_mode inode); simpl; repeat split; destruct (offset =? ir_size inode); reflexivity.
Qed.
