(* ===== verification/Ioctl.v ===== *)
(** * The ioctl wire format ([crates/tartine-fuse/src/ioctl.rs])

    The fixed-size buffers of the state and redundancy ioctls.  A buffer is a
    list of bytes of known length; [splice] is [copy_from_slice] into a range
    of it. *)

From Stdlib Require Import ZArith Lia.
From S2P Require Import Prelude Proto KPlacement CorePlacement Codec.

Definition TARTINE_IOC_MAKE_WRITABLE : Z := 0x40045401.
Definition TARTINE_IOC_GET_STATE : Z := 0x80185402.
Definition TARTINE_CONVERT_FLAG_WAIT : Z := Z.shiftl 1 0.
Definition TARTINE_MODE_APPEND_ONLY : Z := 0.
Definition TARTINE_MODE_CONVERTING : Z := 1.
Definition TARTINE_MODE_WRITABLE : Z := 2.
Definition TARTINE_REDUNDANCY_REPLICATED : Z := 0.
Definition TARTINE_REDUNDANCY_ERASURE_CODED : Z := 1.
Definition REDUNDANCY_WIRE_SIZE : nat := (16 + MAX_SELECT * 24)%nat.
Definition TARTINE_IOC_SET_REDUNDANCY : Z := 0x41905403.
Definition TARTINE_IOC_GET_REDUNDANCY : Z := 0x81905404.

(** [_IOW(type, nr, size)] and [_IOR]: direction, size, type and number in
    one word (Linux [asm-generic/ioctl.h]). *)
Definition ioc (dir size nr : Z) : Z :=
  Z.lor (Z.shiftl dir 30) (Z.lor (Z.shiftl size 16) (Z.lor (Z.shiftl 0x54 8) nr)).

Record TartineState := { ts_mode : Z; ts_pad : Z; ts_bytes_total : Z; ts_bytes_converted : Z }.

Definition TartineState_to_bytes (s : TartineState) : list byte :=
  splice 16 (to_le 8 (ts_bytes_converted s)) (splice 8 (to_le 8 (ts_bytes_total s))
    (splice 0 (to_le 4 (ts_mode s)) (replicate 24 x00))).

Definition disk_class_to_wire (c : DiskClass) : Z := to_ffi c.
Definition disk_class_from_wire (v : Z) : option DiskClass :=
  if v =? CLASS_HDD then Some Hdd
  else if v =? CLASS_SSD then Some Ssd
  else if v =? CLASS_NVME then Some Nvme
  else None.

(** [(required_class, pinned, hi, lo)] of a slot. *)
Definition slot_wire (slot : ReplicaSlot) : Z * Z * Z * Z :=
  match slot with
  | AnyOfClass None => (CLASS_ANY, 0, 0, 0)
  | AnyOfClass (Some c) => (disk_class_to_wire c, 0, 0, 0)
  | Pinned id => let '(hi, lo) := disk_id_to_hi_lo id in (CLASS_ANY, 1, hi, lo)
  end.

(** One round of the [for] loop of [encode_set_redundancy]. *)
Definition encode_slot (i : nat) (slot : ReplicaSlot) (buf : list byte) : list byte :=
  let base := (16 + i * 24)%nat in
  let '(required_class, pinned, hi, lo) := slot_wire slot in
  splice (base + 16) (to_le 8 lo) (splice (base + 8) (to_le 8 hi)
    (splice (base + 1) (to_le 1 pinned) (splice base (to_le 1 required_class) buf))).

Fixpoint encode_slots (i : nat) (slots : list ReplicaSlot) (buf : list byte) : list byte :=
  match slots with
  | [] => buf
  | slot :: rest => encode_slots (S i) rest (encode_slot i slot buf)
  end.

Definition encode_set_redundancy (scheme : RedundancyScheme) : list byte :=
  let buf := replicate REDUNDANCY_WIRE_SIZE x00 in
  match scheme with
  | Replicated slots =>
      let buf := splice 0 (to_le 4 TARTINE_REDUNDANCY_REPLICATED) buf in
      let buf := splice 4 (to_le 4 (Z.of_nat (length slots `min` MAX_SELECT))) buf in
      encode_slots 0 (take MAX_SELECT slots) buf
  | ErasureCoded data_shards parity_shards =>
      let buf := splice 0 (to_le 4 TARTINE_REDUNDANCY_ERASURE_CODED) buf in
      splice 9 (to_le 1 parity_shards) (splice 8 (to_le 1 data_shards) buf)
  end.

(** One round of the loop of [decode_set_redundancy]; [None] is the [?]. *)
Definition decode_slot (buf : list byte) (i : nat) : option ReplicaSlot :=
  let base := (16 + i * 24)%nat in
  let required_class := from_le (field buf base (base + 1)) in
  let pinned := from_le (field buf (base + 1) (base + 2)) in
  let hi := from_le (field buf (base + 8) (base + 16)) in
  let lo := from_le (field buf (base + 16) (base + 24)) in
  if negb (pinned =? 0) then Some (Pinned (disk_id_from_hi_lo hi lo))
  else if required_class =? CLASS_ANY then Some (AnyOfClass None)
  else c ← disk_class_from_wire required_class; Some (AnyOfClass (Some c)).

Definition decode_set_redundancy (buf : list byte) : option RedundancyScheme :=
  if negb (length buf =? REDUNDANCY_WIRE_SIZE)%nat then None
  else
    let scheme_kind := from_le (field buf 0 4) in
    if scheme_kind =? TARTINE_REDUNDANCY_REPLICATED then
      let n_slots := from_le (field buf 4 8) in
      if Z.of_nat MAX_SELECT <? n_slots then None
      else Replicated <$> mapM (decode_slot buf) (seq 0 (Z.to_nat n_slots))
    else if scheme_kind =? TARTINE_REDUNDANCY_ERASURE_CODED then
      Some (ErasureCoded (from_le (field buf 8 9)) (from_le (field buf 9 10)))
    else None.

(** The command numbers are the kernel header's encodings of direction, size
    and number. *)
Example command_numbers :
  TARTINE_IOC_MAKE_WRITABLE = ioc 1 4 1 /\ TARTINE_IOC_GET_STATE = ioc 2 24 2 /\
  TARTINE_IOC_SET_REDUNDANCY = ioc 1 (Z.of_nat REDUNDANCY_WIRE_SIZE) 3 /\
  TARTINE_IOC_GET_REDUNDANCY = ioc 2 (Z.of_nat REDUNDANCY_WIRE_SIZE) 4.
Proof. vm_compute. auto. Qed.

(** ** Splices *)

Lemma field_splice_same off bs buf b :
  (off + length bs <= length buf)%nat -> b = (off + length bs)%nat -> field (splice off bs buf) off b = bs.
Proof.
  intros H ->. unfold splice. apply field_app; rewrite length_take; lia.
Qed.

Lemma field_splice_other off bs buf a b :
  (off + length bs <= length buf)%nat -> (b <= off \/ off + length bs <= a)%nat -> (a <= b)%nat ->
  field (splice off bs buf) a b = field buf a b.
Proof.
  intros Hl Hd Hab. unfold field. apply list_eq. intros i. destruct (lt_dec i (b - a)).
  - rewrite !lookup_take_lt, !lookup_drop by lia. unfold splice. destruct Hd.
    + rewrite lookup_app_l by (rewrite length_take; lia). apply lookup_take_lt. lia.
    + rewrite !lookup_app_r by (rewrite ?length_take; lia). rewrite lookup_drop, length_take. f_equal. lia.
  - rewrite !lookup_take_ge by lia. reflexivity.
Qed.

(** Lengths of nested splices. *)
Ltac splen :=
  rewrite ?length_to_le, ?length_replicate; unfold REDUNDANCY_WIRE_SIZE, MAX_SELECT in *;
  first [lia | rewrite length_splice; splen].

(** Everything but the slot's own 24 bytes is unchanged. *)
Lemma encode_slot_keeps i slot buf a b :
  (16 + (i + 1) * 24 <= length buf)%nat -> (a <= b)%nat ->
  (b <= 16 + i * 24 \/ 16 + (i + 1) * 24 <= a)%nat ->
  field (encode_slot i slot buf) a b = field buf a b /\ length (encode_slot i slot buf) = length buf.
Proof.
  intros Hl Hab Hd. unfold encode_slot. destruct (slot_wire slot) as [[[k p] hi] lo].
  split; [|splen]. do 4 (rewrite field_splice_other by splen). reflexivity.
Qed.

(** The slot's own fields. *)
Lemma decode_encode_slot i slot buf :
  (16 + (i + 1) * 24 <= length buf)%nat -> wf_slot slot -> decode_slot (encode_slot i slot buf) i = Some slot.
Proof.
  intros Hl Hs. unfold decode_slot.
  assert (E : let '(k, p, hi, lo) := slot_wire slot in
    let b := encode_slot i slot buf in let base := (16 + i * 24)%nat in
    field b base (base + 1) = to_le 1 k /\ field b (base + 1) (base + 2) = to_le 1 p /\
    field b (base + 8) (base + 16) = to_le 8 hi /\ field b (base + 16) (base + 24) = to_le 8 lo).
  { unfold encode_slot. destruct (slot_wire slot) as [[[k p] hi] lo]. cbv zeta. split_and!;
      repeat (rewrite field_splice_other by splen); apply field_splice_same; splen. }
  destruct slot as [[c|]|id]; cbn [slot_wire] in E; cbv zeta in E.
  - destruct E as (E1 & E2 & _). rewrite E1, E2. destruct c; reflexivity.
  - destruct E as (E1 & E2 & _). rewrite E1, E2. reflexivity.
  - unfold disk_id_to_hi_lo in E. destruct E as (_ & E2 & E3 & E4). rewrite E2, E3, E4.
    destruct (disk_id_hi_lo id Hs) as (Hh & Hlo & Hid).
    rewrite !(from_to_le_fits 8 64) by auto. simpl. f_equal. f_equal. exact Hid.
Qed.

Lemma decode_slot_ext b1 b2 i :
  (forall a b, (16 + i * 24 <= a)%nat -> (a <= b)%nat -> (b <= 16 + (i + 1) * 24)%nat -> field b1 a b = field b2 a b) ->
  decode_slot b1 i = decode_slot b2 i.
Proof. intros H. unfold decode_slot. now rewrite !H by lia. Qed.

Lemma encode_slots_keeps i slots buf :
  (16 + (i + length slots) * 24 <= length buf)%nat ->
  length (encode_slots i slots buf) = length buf /\
  forall a b, (a <= b)%nat -> (b <= 16 + i * 24)%nat -> field (encode_slots i slots buf) a b = field buf a b.
Proof.
  revert i buf. induction slots as [|s ss IH]; intros i buf Hl; [auto|]. cbn [encode_slots length] in *.
  pose proof (fun a b => encode_slot_keeps i s buf a b ltac:(lia)) as Hk.
  destruct (Hk 0 0 ltac:(lia) ltac:(lia))%nat as [_ Hlen].
  destruct (IH (S i) (encode_slot i s buf)) as [IHl IHf]; [lia|]. split; [lia|].
  intros a b Hab Hb. rewrite IHf by lia. apply Hk; lia.
Qed.

Lemma decode_encode_slots i slots buf :
  (16 + (i + length slots) * 24 <= length buf)%nat -> Forall wf_slot slots ->
  mapM (decode_slot (encode_slots i slots buf)) (seq i (length slots)) = Some slots.
Proof.
  revert i buf. induction slots as [|s ss IH]; intros i buf Hl Hw; [reflexivity|].
  apply Forall_cons_1 in Hw as [Hs Hw]. cbn [encode_slots length seq] in *.
  destruct (encode_slot_keeps i s buf 0 0) as [_ Hlen]; try lia.
  destruct (encode_slots_keeps (S i) ss (encode_slot i s buf)) as [_ Hk]; [lia|].
  apply mapM_Some. constructor; [|apply mapM_Some, IH; auto; lia].
  rewrite (decode_slot_ext _ (encode_slot i s buf)) by (intros; apply Hk; lia).
  apply decode_encode_slot; auto. lia.
Qed.

(** The header of the buffer of a replicated policy. *)
Lemma replicated_header (n : nat) :
  let b0 := splice 4 (to_le 4 (Z.of_nat n)) (splice 0 (to_le 4 TARTINE_REDUNDANCY_REPLICATED)
    (replicate REDUNDANCY_WIRE_SIZE x00)) in
  length b0 = REDUNDANCY_WIRE_SIZE /\ field b0 0 4 = to_le 4 TARTINE_REDUNDANCY_REPLICATED /\
  field b0 4 8 = to_le 4 (Z.of_nat n).
Proof.
  cbv zeta. split; [splen|]. split.
  - rewrite field_splice_other by splen. apply field_splice_same; splen.
  - apply field_splice_same; splen.
Qed.

Lemma decode_encode_replicated slots :
  Forall wf_slot slots ->
  let b := encode_set_redundancy (Replicated slots) in
  length b = REDUNDANCY_WIRE_SIZE /\ decode_set_redundancy b = Some (Replicated (take MAX_SELECT slots)).
Proof.
  intros Hw. cbv zeta. unfold encode_set_redundancy. set (n := (length slots `min` MAX_SELECT)%nat).
  destruct (replicated_header n) as (H0 & E0 & E1). revert H0 E0 E1.
  generalize (splice 4 (to_le 4 (Z.of_nat n)) (splice 0 (to_le 4 TARTINE_REDUNDANCY_REPLICATED)
    (replicate REDUNDANCY_WIRE_SIZE x00))). intros b0 H0 E0 E1.
  assert (Hn : (n <= 16)%nat) by (unfold n, MAX_SELECT; lia).
  assert (Ht : length (take MAX_SELECT slots) = n) by (rewrite length_take; unfold n; lia).
  assert (Hfit : (16 + (0 + length (take MAX_SELECT slots)) * 24 <= length b0)%nat)
    by (rewrite Ht, H0; unfold REDUNDANCY_WIRE_SIZE, MAX_SELECT; lia).
  destruct (encode_slots_keeps 0 (take MAX_SELECT slots) b0 Hfit) as [Hl Hk].
  split; [congruence|]. unfold decode_set_redundancy. rewrite Hl, H0, Nat.eqb_refl, !Hk by lia. cbn [negb].
  rewrite E0, E1, (from_to_le_fits 4 32 (Z.of_nat n)) by (unfold fits; lia).
  change (from_le (to_le 4 TARTINE_REDUNDANCY_REPLICATED) =? TARTINE_REDUNDANCY_REPLICATED) with true. cbv iota.
  destruct (Z.ltb_spec (Z.of_nat MAX_SELECT) (Z.of_nat n)); [unfold MAX_SELECT in *; lia|].
  rewrite Nat2Z.id, <- Ht, decode_encode_slots; [reflexivity|exact Hfit|now apply Forall_take].
Qed.

Lemma decode_encode_erasure d p :
  u8 d -> u8 p ->
  let b := encode_set_redundancy (ErasureCoded d p) in
  length b = REDUNDANCY_WIRE_SIZE /\ decode_set_redundancy b = Some (ErasureCoded d p).
Proof.
  intros Hd Hp. cbv zeta. unfold encode_set_redundancy.
  set (b := splice 9 _ _). assert (Hl : length b = REDUNDANCY_WIRE_SIZE) by (unfold b; splen).
  assert (E0 : field b 0 4 = to_le 4 TARTINE_REDUNDANCY_ERASURE_CODED)
    by (unfold b; do 2 (rewrite field_splice_other by splen); apply field_splice_same; splen).
  assert (E1 : field b 8 9 = to_le 1 d)
    by (unfold b; rewrite field_splice_other by splen; apply field_splice_same; splen).
  assert (E2 : field b 9 10 = to_le 1 p) by (apply field_splice_same; splen).
  split; [exact Hl|]. unfold decode_set_redundancy. rewrite Hl, Nat.eqb_refl, E0, E1, E2.
  rewrite (from_to_le_fits 1 8 d), (from_to_le_fits 1 8 p) by auto. reflexivity.
Qed.

(** C32: the redundancy ioctl round-trips: a policy of at most sixteen slots, or
    an erasure code, is decoded from its 400-byte buffer; of a longer policy
    the first sixteen slots are. *)
Theorem decode_encode_redundancy scheme :
  wf_scheme scheme ->
  length (encode_set_redundancy scheme) = REDUNDANCY_WIRE_SIZE /\
  decode_set_redundancy (encode_set_redundancy scheme) =
    Some match scheme with
         | Replicated slots => Replicated (take MAX_SELECT slots)
         | ErasureCoded d p => ErasureCoded d p
         end.
Proof.
  destruct scheme as [slots|d p]; intros Hw.
  - apply decode_encode_replicated, Hw.
  - destruct Hw. now apply decode_encode_erasure.
Qed.

Lemma decode_encode_redundancy_witness :
  decode_set_redundancy (encode_set_redundancy (Replicated [AnyOfClass (Some Ssd); Pinned (2 ^ 127)])) =
    Some (Replicated [AnyOfClass (Some Ssd); Pinned (2 ^ 127)]).
Proof.
  refine (proj2 (decode_encode_redundancy (Replicated [AnyOfClass (Some Ssd); Pinned (2 ^ 127)]) _)).
  apply (bool_decide_unpack _). vm_compute. exact I.
Defined.

(** A buffer that cannot be a policy is refused. *)
Example bad_buffers :
  decode_set_redundancy [] = None /\
  decode_set_redundancy (splice 4 (to_le 4 17) (replicate REDUNDANCY_WIRE_SIZE x00)) = None /\
  decode_set_redundancy (splice 16 [x09] (splice 4 (to_le 4 1) (replicate REDUNDANCY_WIRE_SIZE x00))) = None.
Proof. vm_compute. auto. Qed.
