(* ===== verification/RedundancySpec.v ===== *)
(** * The redundancy grammar ([crates/tartine-core/src/redundancy_spec.rs])

    A [str] is a list of Unicode scalar values.  The pieces of the standard
    library the parser uses are written out: [trim], [strip_prefix],
    [split_once], [split], and integer parsing with its optional sign and its
    overflow check. *)

From Stdlib Require Import ZArith Lia Strings.String Strings.Ascii.
From S2P Require Import Prelude Proto KPlacement Codec.
#[local] Open Scope list_scope.

Definition chars : Type := list Z.

(** A literal. *)
Definition lit (s : string) : chars := (fun a => Z.of_N (N_of_ascii a)) <$> list_ascii_of_string s.

(** [char::is_whitespace]: the Unicode property White_Space. *)
Definition is_whitespace (c : Z) : bool :=
  ((9 <=? c) && (c <=? 13)) || (c =? 32) || (c =? 0x85) || (c =? 0xa0) || (c =? 0x1680) ||
  ((0x2000 <=? c) && (c <=? 0x200a)) || (c =? 0x2028) || (c =? 0x2029) || (c =? 0x202f) ||
  (c =? 0x205f) || (c =? 0x3000).

Fixpoint trim_start (s : chars) : chars :=
  match s with
  | c :: s' => if is_whitespace c then trim_start s' else s
  | [] => []
  end.
Definition trim (s : chars) : chars := rev (trim_start (rev (trim_start s))).

Fixpoint strip_prefix (p s : chars) : option chars :=
  match p, s with
  | [], _ => Some s
  | a :: p', b :: s' => if a =? b then strip_prefix p' s' else None
  | _ :: _, [] => None
  end.

(** [split_once(c)]: before and after the first [c]. *)
Fixpoint split_once (c : Z) (s : chars) : option (chars * chars) :=
  match s with
  | [] => None
  | b :: s' => if b =? c then Some ([], s') else
      match split_once c s' with Some (x, y) => Some (b :: x, y) | None => None end
  end.

(** [split(c)]: the pieces between the [c]s, at least one. *)
Fixpoint split (c : Z) (s : chars) : list chars :=
  match s with
  | [] => [[]]
  | b :: s' =>
      if b =? c then [] :: split c s'
      else match split c s' with
           | x :: xs => (b :: x) :: xs
           | [] => [[b]]
           end
  end.

(** [to_digit(radix)]. *)
Definition to_digit (radix c : Z) : option Z :=
  let d :=
    if (48 <=? c) && (c <=? 57) then c - 48
    else if (97 <=? c) && (c <=? 122) then c - 97 + 10
    else if (65 <=? c) && (c <=? 90) then c - 65 + 10
    else 36 in
  if d <? radix then Some d else None.

(** The digits of [from_str_radix], with [checked_mul] and [checked_add] at
    [w] bits. *)
Fixpoint digits_value (w radix acc : Z) (s : chars) : option Z :=
  match s with
  | [] => Some acc
  | c :: s' =>
      d ← to_digit radix c;
      if acc * radix + d <? 2 ^ w then digits_value w radix (acc * radix + d) s' else None
  end.

(** [from_str_radix] of an unsigned type: one leading plus is allowed. *)
Definition from_str_radix (w radix : Z) (s : chars) : option Z :=
  match s with
  | [] => None
  | 43 :: s' => match s' with [] => None | _ => digits_value w radix 0 s' end
  | _ => digits_value w radix 0 s
  end.

Inductive ParseError :=
  | Empty
  | UnknownSlot (s : chars)
  | BadUuid (s : chars)
  | BadErasureCoding (s : chars)
  | TooManySlots (n : Z).

#[export] Instance ParseError_eq_dec : EqDecision ParseError.
Proof. solve_decision. Defined.
#[export] Instance result_eq_dec {E A} `{EqDecision E, EqDecision A} : EqDecision (result E A).
Proof. solve_decision. Defined.

Definition parse_uuid_hex (s : chars) : result ParseError Uuid :=
  let digits := List.filter (fun c => negb (c =? 45)) s in
  ok_or (from_str_radix 128 16 digits) (BadUuid s).

Definition parse_slot (term : chars) : result ParseError ReplicaSlot :=
  if decide (term = lit "any") then Ok (AnyOfClass None)
  else if decide (term = lit "hdd") then Ok (AnyOfClass (Some Hdd))
  else if decide (term = lit "ssd") then Ok (AnyOfClass (Some Ssd))
  else if decide (term = lit "nvme") then Ok (AnyOfClass (Some Nvme))
  else match strip_prefix (lit "disk:") term with
       | Some id => let? u := parse_uuid_hex id in Ok (Pinned u)
       | None => Err (UnknownSlot term)
       end.

(** [.map(f).collect::<Result<_, _>>()]: stops at the first error. *)
Fixpoint collect {A B E} (f : A -> result E B) (l : list A) : result E (list B) :=
  match l with
  | [] => Ok []
  | x :: l' => let? y := f x in let? ys := collect f l' in Ok (y :: ys)
  end.

Definition parse (spec : chars) : result ParseError RedundancyScheme :=
  let spec := trim spec in
  if decide (spec = []) then Err Empty
  else match strip_prefix (lit "rs:") spec with
  | Some rs =>
      let? (k, m) := ok_or (split_once 43 rs) (BadErasureCoding spec) in
      let? data_shards := ok_or (from_str_radix 8 10 k) (BadErasureCoding spec) in
      let? parity_shards := ok_or (from_str_radix 8 10 m) (BadErasureCoding spec) in
      Ok (ErasureCoded data_shards parity_shards)
  | None =>
      match from_str_radix 64 10 spec with
      | Some n =>
          if Z.of_nat MAX_SELECT <? n then Err (TooManySlots n)
          else Ok (Replicated (replicate (Z.to_nat n) (AnyOfClass None)))
      | None =>
          let? slots := collect (fun t => parse_slot (trim t)) (split 44 spec) in
          if (MAX_SELECT <? length slots)%nat then Err (TooManySlots (Zlen slots))
          else Ok (Replicated slots)
      end
  end.

(** ** Formatting *)
Definition hex_digit (d : Z) : Z := if d <? 10 then 48 + d else 87 + d.
(** [{:0nx}] for a value of at most [n] digits. *)
Fixpoint hex (n : nat) (z : Z) : chars :=
  match n with
  | O => []
  | S n' => hex n' (z / 16) ++ [hex_digit (z mod 16)]
  end.
(** [{}] of a [u8]. *)
Definition dec_u8 (z : Z) : chars :=
  if z <? 10 then [48 + z]
  else if z <? 100 then [48 + z / 10; 48 + z mod 10]
  else [48 + z / 100; 48 + (z / 10) mod 10; 48 + z mod 10].

Definition format_slot (slot : ReplicaSlot) : chars :=
  match slot with
  | AnyOfClass None => lit "any"
  | AnyOfClass (Some Hdd) => lit "hdd"
  | AnyOfClass (Some Ssd) => lit "ssd"
  | AnyOfClass (Some Nvme) => lit "nvme"
  | Pinned id => lit "disk:" ++ hex 32 id
  end.

(** [join]. *)
Fixpoint join (sep : chars) (l : list chars) : chars :=
  match l with
  | [] => []
  | [x] => x
  | x :: l' => x ++ sep ++ join sep l'
  end.

Definition format (scheme : RedundancyScheme) : chars :=
  match scheme with
  | Replicated slots => join (lit ",") (format_slot <$> slots)
  | ErasureCoded data_shards parity_shards =>
      lit "rs:" ++ dec_u8 data_shards ++ lit "+" ++ dec_u8 parity_shards
  end.

Example parse_examples :
  parse (lit "3") = Ok (Replicated [AnyOfClass None; AnyOfClass None; AnyOfClass None]) /\
  parse (lit " hdd , ssd ") = Ok (Replicated [AnyOfClass (Some Hdd); AnyOfClass (Some Ssd)]) /\
  parse (lit "disk:00ff-10") = Ok (Replicated [Pinned 0xff10]) /\
  parse (lit "rs:4+2") = Ok (ErasureCoded 4 2) /\
  parse (lit "17") = Err (TooManySlots 17) /\
  parse (lit "tape") = Err (UnknownSlot (lit "tape")) /\
  parse (lit "  ") = Err Empty.
Proof. vm_compute. repeat split. Qed.

(** ** The pieces of the standard library on printed text *)
Lemma trim_start_id s : Forall (fun c => is_whitespace c = false) s -> trim_start s = s.
Proof. intros Hs. destruct Hs as [|c s Hc _]; simpl; [done|now rewrite Hc]. Qed.

Lemma trim_id s : Forall (fun c => is_whitespace c = false) s -> trim s = s.
Proof.
  intros Hs. unfold trim. rewrite (trim_start_id s Hs), trim_start_id, rev_involutive; [done|].
  rewrite List.Forall_forall in *. intros c Hc. apply Hs. now apply in_rev.
Qed.

Lemma split_no_sep c s : Forall (fun b => b <> c) s -> split c s = [s].
Proof.
  induction 1 as [|b s Hb _ IH]; simpl; [done|].
  rewrite (proj2 (Z.eqb_neq b c) Hb), IH. done.
Qed.

Lemma split_app c s t :
  Forall (fun b => b <> c) s -> split c (s ++ c :: t) = s :: split c t.
Proof.
  induction 1 as [|b s Hb _ IH]; simpl.
  - now rewrite Z.eqb_refl.
  - rewrite (proj2 (Z.eqb_neq b c) Hb), IH. done.
Qed.

Lemma split_join c x l :
  Forall (fun s => Forall (fun b => b <> c) s) (x :: l) -> split c (join [c] (x :: l)) = x :: l.
Proof.
  revert x. induction l as [|y l IH]; intros x Hx; apply Forall_cons in Hx as [Hx Hl].
  - now apply split_no_sep.
  - change (join [c] (x :: y :: l)) with (x ++ c :: join [c] (y :: l)).
    rewrite split_app by done. f_equal. now apply IH.
Qed.

Lemma split_once_app c s t :
  Forall (fun b => b <> c) s -> split_once c (s ++ c :: t) = Some (s, t).
Proof.
  induction 1 as [|b s Hb _ IH]; simpl.
  - now rewrite Z.eqb_refl.
  - rewrite (proj2 (Z.eqb_neq b c) Hb), IH. done.
Qed.

Lemma collect_fmap {A B E} (f : A -> result E B) (g : B -> A) l :
  Forall (fun y => f (g y) = Ok y) l -> collect f (g <$> l) = Ok l.
Proof.
  induction 1 as [|y l Hy _ IH]; [done|]. rewrite fmap_cons. cbn [collect].
  rewrite Hy. cbn [result_bind]. now rewrite IH.
Qed.

(** ** Numbers *)
Lemma digits_value_app w r acc s t :
  digits_value w r acc (s ++ t) = digits_value w r acc s ≫= fun a => digits_value w r a t.
Proof.
  revert acc. induction s as [|c s IH]; intros acc; simpl; [done|].
  destruct (to_digit r c) as [d|]; simpl; [|done]. case_match; [apply IH|done].
Qed.

Lemma below_cases (n : nat) (P : Z -> bool) :
  forallb P (seqZ 0 (Z.of_nat n)) = true -> forall z, 0 <= z < Z.of_nat n -> P z = true.
Proof.
  intros Hall z Hz. rewrite forallb_forall in Hall. apply Hall.
  apply list_elem_of_In, elem_of_seqZ. lia.
Qed.

(** The characters a printed number or word is made of. *)
Definition printed (c : Z) : bool :=
  negb (is_whitespace c) && negb (c =? 44) && negb (c =? 43).

Lemma Forall_printed s : forallb printed s = true -> Forall (fun c => printed c = true) s.
Proof. intros Hs. apply List.Forall_forall. rewrite forallb_forall in Hs. exact Hs. Qed.

Lemma hex_digit_ok d :
  0 <= d < 16 ->
  to_digit 16 (hex_digit d) = Some d /\ hex_digit d <> 45 /\ printed (hex_digit d) = true.
Proof.
  intros Hd.
  pose proof (below_cases 16 (fun d => bool_decide (to_digit 16 (hex_digit d) = Some d) &&
    negb (hex_digit d =? 45) && printed (hex_digit d)) eq_refl d ltac:(lia)) as E.
  apply andb_true_iff in E as [E Hp]. apply andb_true_iff in E as [E Hm].
  apply bool_decide_eq_true in E. apply negb_true_iff, Z.eqb_neq in Hm. done.
Qed.

Lemma hex_chars n z : Forall (fun c => c <> 45 /\ printed c = true) (hex n z).
Proof.
  revert z. induction n as [|n IH]; intros z; simpl; [constructor|].
  apply Forall_app. split; [apply IH|]. constructor; [|constructor].
  apply hex_digit_ok, Z.mod_pos_bound. lia.
Qed.

Lemma digits_value_hex w n z acc :
  0 <= acc -> 0 <= z < 16 ^ Z.of_nat n -> acc * 16 ^ Z.of_nat n + z < 2 ^ w ->
  digits_value w 16 acc (hex n z) = Some (acc * 16 ^ Z.of_nat n + z).
Proof.
  intros Ha. revert z. induction n as [|n IH]; intros z Hz Hw.
  - simpl in *. f_equal. lia.
  - rewrite Nat2Z.inj_succ, Z.pow_succ_r in * by lia. simpl hex.
    pose proof (Z.div_mod z 16 ltac:(lia)). pose proof (Z.mod_pos_bound z 16 ltac:(lia)).
    assert (0 <= z / 16) by (apply Z.div_pos; lia).
    rewrite digits_value_app, IH by nia. simpl.
    destruct (hex_digit_ok (z mod 16)) as [-> _]; [done|]. simpl.
    rewrite (proj2 (Z.ltb_lt _ _)) by nia. f_equal. nia.
Qed.

Lemma hex_S n z : exists c s, hex (S n) z = c :: s /\ c <> 43.
Proof.
  pose proof (hex_chars (S n) z) as Hc. destruct (hex (S n) z) as [|c s] eqn:E.
  - simpl in E. now destruct (hex n (z / 16)).
  - exists c, s. split; [done|]. apply Forall_cons in Hc as [[_ Hp] _]. intros ->. done.
Qed.

Lemma from_str_radix_plain w r c s :
  c <> 43 -> from_str_radix w r (c :: s) = digits_value w r 0 (c :: s).
Proof.
  intros Hc. unfold from_str_radix. repeat (case_match; try done).
Qed.

Lemma parse_uuid_hex_print id : u128 id -> parse_uuid_hex (hex 32 id) = Ok id.
Proof.
  intros Hid. unfold parse_uuid_hex.
  assert (Hf : List.filter (fun c => negb (c =? 45)) (hex 32 id) = hex 32 id).
  { induction (hex_chars 32 id) as [|c s [Hc _] _ IH]; cbn [List.filter]; [done|].
    rewrite (proj2 (Z.eqb_neq c 45) Hc). cbn [negb]. now rewrite IH. }
  rewrite Hf. destruct (hex_S 31 id) as (c & s & E & Hc).
  rewrite E, from_str_radix_plain, <- E by done.
  rewrite digits_value_hex; [done|lia|exact Hid|exact (proj2 Hid)].
Qed.

Lemma dec_u8_ok z :
  u8 z -> from_str_radix 8 10 (dec_u8 z) = Some z /\ Forall (fun c => printed c = true) (dec_u8 z).
Proof.
  intros Hz.
  pose proof (below_cases 256 (fun z => bool_decide (from_str_radix 8 10 (dec_u8 z) = Some z) &&
    forallb printed (dec_u8 z)) eq_refl z Hz) as E.
  apply andb_true_iff in E as [E Hp]. apply bool_decide_eq_true in E.
  split; [done|]. now apply Forall_printed.
Qed.

(** ** Slots *)
Lemma printed_spec c : printed c = true -> is_whitespace c = false /\ c <> 44 /\ c <> 43.
Proof.
  unfold printed. rewrite !andb_true_iff, !negb_true_iff, !Z.eqb_neq. tauto.
Qed.

Lemma format_slot_chars slot : Forall (fun c => printed c = true) (format_slot slot).
Proof.
  destruct slot as [[[]|]|id]; cbn [format_slot]; [now apply Forall_printed..|].
  apply Forall_app. split; [now apply Forall_printed|].
  eapply Forall_impl; [apply hex_chars|]. intros c Hc. apply Hc.
Qed.

Lemma parse_format_slot slot : wf_slot slot -> parse_slot (trim (format_slot slot)) = Ok slot.
Proof.
  intros Hw. rewrite trim_id by
    (eapply Forall_impl; [apply format_slot_chars|intros c Hc; apply (printed_spec c Hc)]).
  destruct slot as [[[]|]|id]; try reflexivity.
  change (format_slot (Pinned id)) with (lit "disk:" ++ hex 32 id).
  pose proof (parse_uuid_hex_print id Hw) as E. revert E. generalize (hex 32 id) as h. intros h E.
  unfold parse_slot.
  repeat (rewrite decide_False by (vm_compute; discriminate)).
  change (strip_prefix (lit "disk:") (lit "disk:" ++ h)) with (Some h).
  cbn iota. now rewrite E.
Qed.

(** A printed slot list is neither a number nor an erasure code. *)
Lemma format_slots_head slot slots :
  exists c s, join [44] (format_slot <$> slot :: slots) = c :: s /\
    from_str_radix 64 10 (c :: s) = None /\ strip_prefix (lit "rs:") (c :: s) = None.
Proof.
  assert (exists c s, format_slot slot = c :: s /\ In c [97; 104; 115; 110; 100]) as (c & s & E & Hc).
  { destruct slot as [[[]|]|id]; eexists _, _; (split; [reflexivity|]); vm_compute; tauto. }
  exists c. destruct slots as [|s2 slots]; cbn [fmap list_fmap join]; rewrite E; eexists;
    (split; [reflexivity|]); simpl in Hc; destruct Hc as [<-|[<-|[<-|[<-|[<-|[]]]]]]; split; reflexivity.
Qed.

Lemma join_printed sep l :
  Forall (fun s => Forall (fun c => is_whitespace c = false) s) (sep :: l) ->
  Forall (fun c => is_whitespace c = false) (join sep l).
Proof.
  intros Hl. apply Forall_cons in Hl as [Hs Hl].
  induction Hl as [|x [|y l] Hx _ IH]; cbn [join]; [constructor|done|].
  rewrite !Forall_app. split_and!; [done|done|exact IH].
Qed.

Lemma parse_format_slots slot slots :
  Forall wf_slot (slot :: slots) ->
  parse (format (Replicated (slot :: slots))) =
    if (MAX_SELECT <? length (slot :: slots))%nat then Err (TooManySlots (Zlen (slot :: slots)))
    else Ok (Replicated (slot :: slots)).
Proof.
  intros Hw. unfold parse, format. change (lit ",") with [44].
  rewrite trim_id.
  2: { apply join_printed. constructor; [vm_compute; repeat constructor|].
       apply Forall_fmap, Forall_true. intros x. eapply Forall_impl; [apply format_slot_chars|].
       intros c Hc. apply (printed_spec c Hc). }
  destruct (format_slots_head slot slots) as (c & s & E & En & Er).
  rewrite E. rewrite decide_False by done. rewrite En, Er, <- E, fmap_cons, split_join.
  2: { rewrite <- fmap_cons. apply Forall_fmap, Forall_true. intros x.
       eapply Forall_impl; [apply format_slot_chars|]. intros b Hb. apply (printed_spec b Hb). }
  pose proof (collect_fmap (fun t => parse_slot (trim t)) format_slot (slot :: slots)) as Hc.
  rewrite fmap_cons in Hc. unfold chars in *. rewrite Hc; [done|].
  eapply Forall_impl; [exact Hw|]. apply parse_format_slot.
Qed.

Lemma parse_format_erasure k m : u8 k -> u8 m -> parse (format (ErasureCoded k m)) = Ok (ErasureCoded k m).
Proof.
  intros Hk Hm. destruct (dec_u8_ok k Hk) as [Ek Pk], (dec_u8_ok m Hm) as [Em Pm].
  unfold parse, format. change (lit "+") with [43].
  assert (Hp : forall s, Forall (fun c => printed c = true) s -> Forall (fun c => is_whitespace c = false) s).
  { intros s Hs. eapply Forall_impl; [exact Hs|]. intros c Hc. apply (printed_spec c Hc). }
  rewrite trim_id.
  2: { rewrite !Forall_app. split_and!; auto; vm_compute; repeat constructor. }
  rewrite decide_False by done.
  change (strip_prefix (lit "rs:") (lit "rs:" ++ dec_u8 k ++ [43] ++ dec_u8 m)) with
    (Some (dec_u8 k ++ [43] ++ dec_u8 m)). cbn iota.
  change ([43] ++ dec_u8 m) with (43 :: dec_u8 m). rewrite split_once_app.
  2: { eapply Forall_impl; [exact Pk|]. intros c Hc. apply (printed_spec c Hc). }
  cbn [ok_or result_bind]. rewrite Ek. cbn [ok_or result_bind]. rewrite Em. reflexivity.
Qed.

(** ** What [parse] returns is well formed *)

Lemma to_digit_nonneg radix c d : to_digit radix c = Some d -> 0 <= d.
Proof.
  unfold to_digit. destruct (Z.leb_spec 48 c), (Z.leb_spec c 57), (Z.leb_spec 97 c), (Z.leb_spec c 122),
    (Z.leb_spec 65 c), (Z.leb_spec c 90); simpl; case_match; intros [= <-]; lia.
Qed.

Lemma digits_value_bound w radix acc s n :
  0 <= radix -> 0 <= acc < 2 ^ w -> digits_value w radix acc s = Some n -> 0 <= n < 2 ^ w.
Proof.
  intros Hr. revert acc. induction s as [|c s IH]; intros acc Ha E; cbn [digits_value] in E; [now injection E as <-|].
  destruct (to_digit radix c) as [d|] eqn:Ed; [|discriminate]. apply to_digit_nonneg in Ed. cbn in E.
  destruct (Z.ltb_spec (acc * radix + d) (2 ^ w)); [|discriminate]. apply IH in E; [exact E|]. split; [nia|lia].
Qed.

Lemma from_str_radix_bound w radix s n : 0 <= radix -> 0 <= w -> from_str_radix w radix s = Some n -> 0 <= n < 2 ^ w.
Proof.
  intros Hr Hw. assert (H0w : 0 <= 0 < 2 ^ w) by (split; [lia|now apply Z.pow_pos_nonneg]). unfold from_str_radix.
  repeat case_match; intros E; try discriminate E; exact (digits_value_bound _ _ _ _ _ Hr H0w E).
Qed.

Lemma collect_Forall {A B F} (f : A -> result F B) (P : B -> Prop) l ys :
  (forall x y, f x = Ok y -> P y) -> collect f l = Ok ys -> Forall P ys.
Proof.
  intros Hf. revert ys. induction l as [|x l IH]; intros ys E; cbn [collect] in E; [injection E as <-; constructor|].
  destruct (f x) as [y|e|] eqn:Ex; [|discriminate..]. cbn [result_bind] in E.
  destruct (collect f l) as [ys'|e|]; [|discriminate..]. injection E as <-. constructor; eauto.
Qed.

Lemma parse_slot_wf t slot : parse_slot t = Ok slot -> wf_slot slot.
Proof.
  unfold parse_slot. repeat case_decide; try (intros [= <-]; exact I).
  destruct (strip_prefix _ t) as [u|]; [|discriminate]. unfold parse_uuid_hex.
  destruct (from_str_radix 128 16 _) as [n|] eqn:E; [|discriminate]. intros [= <-].
  apply from_str_radix_bound in E; [|lia..]. exact E.
Qed.

(** [parse] accepts only text, and only into values of the scheme's types: at
    most sixteen slots, ids of 128 bits, shard counts of 8. *)
Lemma parse_wf spec scheme :
  parse spec = Ok scheme ->
  wf_scheme scheme /\ match scheme with Replicated slots => (length slots <= MAX_SELECT)%nat | _ => True end.
Proof.
  unfold parse. case_decide; [discriminate|]. destruct (strip_prefix _ _) as [rs|].
  - destruct (split_once 43 rs) as [[k m]|]; [|discriminate]. cbn [ok_or result_bind].
    destruct (from_str_radix 8 10 k) as [d|] eqn:Ek; [|discriminate]. cbn [ok_or result_bind].
    destruct (from_str_radix 8 10 m) as [q|] eqn:Em; [|discriminate]. intros [= <-].
    apply from_str_radix_bound in Ek, Em; [|lia..]. split; [split; assumption|exact I].
  - destruct (from_str_radix 64 10 _) as [n|] eqn:En.
    + apply from_str_radix_bound in En; [|lia..]. destruct (Z.ltb_spec (Z.of_nat MAX_SELECT) n); [discriminate|].
      intros [= <-]. unfold MAX_SELECT in *. split; [|rewrite length_replicate; lia].
      split; [unfold Zlen; rewrite length_replicate; split; lia|]. apply Forall_replicate. exact I.
    + destruct (collect _ _) as [slots|e|] eqn:Ec; [|discriminate..]. cbn [result_bind].
      destruct (Nat.ltb_spec MAX_SELECT (length slots)); [discriminate|]. intros [= <-].
      split; [|assumption]. split; [unfold MAX_SELECT, Zlen in *; split; lia|].
      eapply collect_Forall; [|exact Ec]. intros t slot. apply parse_slot_wf.
Qed.

(** C31: [parse] after [format], for every well-formed scheme: an erasure code
    and a policy of one to sixteen slots come back as they were, a longer
    policy is refused with its number of slots and the empty one with [Empty]. *)
Theorem parse_format scheme :
  wf_scheme scheme ->
  parse (format scheme) =
    match scheme with
    | ErasureCoded _ _ => Ok scheme
    | Replicated [] => Err Empty
    | Replicated slots =>
        if (MAX_SELECT <? length slots)%nat then Err (TooManySlots (Zlen slots)) else Ok scheme
    end.
Proof.
  destruct scheme as [[|slot slots]|k m]; intros Hw.
  - reflexivity.
  - apply parse_format_slots, Hw.
  - destruct Hw. now apply parse_format_erasure.
Qed.

Lemma parse_format_witness :
  parse (format (Replicated [AnyOfClass (Some Hdd); Pinned (2 ^ 127 + 5)])) =
    Ok (Replicated [AnyOfClass (Some Hdd); Pinned (2 ^ 127 + 5)]).
Proof.
  refine (parse_format (Replicated [AnyOfClass (Some Hdd); Pinned (2 ^ 127 + 5)]) _).
  apply (bool_decide_unpack _). vm_compute. exact I.
Defined.

(** The count form gives that many unconstrained slots, up to sixteen, and
    its printed form parses back, except for the count 0: it is accepted, but
    prints as the empty text, which [parse] refuses. *)
Theorem parse_count n :
  u8 n ->
  (n <= 16 -> parse (dec_u8 n) = Ok (Replicated (replicate (Z.to_nat n) (AnyOfClass None)))) /\
  (16 < n -> parse (dec_u8 n) = Err (TooManySlots n)) /\
  (forall scheme, parse (dec_u8 n) = Ok scheme ->
     parse (format scheme) = if n =? 0 then Err Empty else Ok scheme).
Proof.
  intros Hn.
  assert (E : parse (dec_u8 n) =
    if n <=? 16 then Ok (Replicated (replicate (Z.to_nat n) (AnyOfClass None))) else Err (TooManySlots n)).
  { apply (proj1 (bool_decide_eq_true _)).
    refine (below_cases 256 (fun n => bool_decide (parse (dec_u8 n) = if n <=? 16 then
      Ok (Replicated (replicate (Z.to_nat n) (AnyOfClass None))) else Err (TooManySlots n))) _ n Hn).
    vm_compute. reflexivity. }
  rewrite E. split_and!; intros.
  - now rewrite (proj2 (Z.leb_le n 16)).
  - now rewrite (proj2 (Z.leb_gt n 16)).
  - destruct (Z.leb_spec n 16); [|done]. simplify_eq.
    apply (proj1 (bool_decide_eq_true _)).
    refine (below_cases 17 (fun n => bool_decide (parse (format (Replicated
      (replicate (Z.to_nat n) (AnyOfClass None)))) = if n =? 0 then Err Empty else
      Ok (Replicated (replicate (Z.to_nat n) (AnyOfClass None))))) _ n ltac:(unfold fits in *; lia)).
    vm_compute. reflexivity.
Qed.

Lemma parse_count_witness :
  parse (lit "0") = Ok (Replicated []) /\ parse (format (Replicated [])) = Err Empty.
Proof.
  destruct (parse_count 0 ltac:(unfold fits; lia)) as (Ha & _ & Hb).
  split; [exact (Ha ltac:(lia))|exact (Hb (Replicated []) (Ha ltac:(lia)))].
Defined.
