(* ===== verification/Replicator.v ===== *)
(** * The metadata replicator ([crates/tartine-meta/src/lib.rs])

    [MetaReplicator] writes every encoded operation to the primary, then to
    the backup if the group has one, each write followed by a sync. *)

From Stdlib Require Import ZArith Lia.
From S2P Require Import Prelude Proto Disk.

Record MetaReplicator (D : Type) := {
  mr_group : MetaGroup;
  mr_primary_disk : D;
  mr_backup_disk : option D;
}.
Arguments mr_group {D} _.
Arguments mr_primary_disk {D} _.
Arguments mr_backup_disk {D} _.

Inductive CommitError := BackupUnavailable (e : io_error) | PrimaryUnavailable (e : io_error).

Section Ops.
Context {W D : Type} `{Disk W D}.

Definition MetaReplicator_new (group : MetaGroup) (primary : D) (backup : option D) : MetaReplicator D :=
  {| mr_group := group; mr_primary_disk := primary; mr_backup_disk := backup |}.

(** [disk.write_at(offset, bytes).and_then(|_| disk.sync())]. *)
Definition write_and_sync (d : D) (offset : Z) (bytes : list byte) : io W io_error unit :=
  let! _ := write_at d offset bytes in sync d.

Definition commit (r : MetaReplicator D) (encoded_op : list byte) (offset : Z) : io W CommitError unit :=
  let! _ := io_map_err PrimaryUnavailable (write_and_sync (mr_primary_disk r) offset encoded_op) in
  match mr_backup_disk r with
  | Some backup => io_map_err BackupUnavailable (write_and_sync backup offset encoded_op)
  | None => io_ret tt
  end.

Definition fence_backup (r : MetaReplicator D) : MetaReplicator D :=
  {| mr_group := {| mg_primary := mg_primary (mr_group r); mg_backup := None;
                    mg_epoch := as_u64 (mg_epoch (mr_group r) + 1) |};
     mr_primary_disk := mr_primary_disk r; mr_backup_disk := None |}.

Definition promote_new_backup (disk_id : DiskId) (disk : D) (r : MetaReplicator D) : MetaReplicator D :=
  {| mr_group := {| mg_primary := mg_primary (mr_group r); mg_backup := Some disk_id;
                    mg_epoch := as_u64 (mg_epoch (mr_group r) + 1) |};
     mr_primary_disk := mr_primary_disk r; mr_backup_disk := Some disk |}.
End Ops.

Section Proofs.
Context {W D : Type} `{DiskLaws W D}.

(** What a write and sync can have done: on success the bytes are there; in
    any case nothing outside the range changed, on no handle. *)
Lemma write_and_sync_spec (d : D) off bytes (w w' : W) out :
  write_and_sync d off bytes w = (w', out) ->
  out <> Panic /\
  (out = Ok tt -> contents d w' = file_write (contents d w) off bytes) /\
  (forall d' o b, o + Zlen b <= off \/ off + Zlen bytes <= o ->
     file_has (contents d' w) o b -> file_has (contents d' w') o b) /\
  (forall d', ~ same_disk d d' -> contents d' w' = contents d' w) /\
  (forall i, ~ off <= i < off + Zlen bytes -> byte_at (contents d w') i = byte_at (contents d w) i).
Proof.
  unfold write_and_sync, io_bind. intros E.
  pose proof (write_no_panic d off bytes w) as Hp. pose proof (write_ok_contents d off bytes w) as Hc.
  pose proof (fun d' o b => write_keeps d d' off bytes w o b) as Hk.
  pose proof (fun d' => write_other d d' off bytes w) as Ho.
  pose proof (write_frame d off bytes w) as Hf.
  destruct (write_at d off bytes w) as [w1 [[]|e|]]; simpl in *; [| |congruence].
  - pose proof (sync_no_panic d w1) as Hp2. pose proof (fun d' => sync_contents d d' w1) as Hs.
    destruct (sync d w1) as [w2 r2]. simplify_eq/=. repeat setoid_rewrite Hs. auto.
  - simplify_eq. split; [congruence|]. split; [congruence|]. auto.
Qed.

(** A commit by its outcome. *)
Lemma commit_outcome (r : MetaReplicator D) bytes off (w w' : W) out :
  commit r bytes off w = (w', out) ->
  (exists e, out = Err (PrimaryUnavailable e) /\ write_and_sync (mr_primary_disk r) off bytes w = (w', Err e)) \/
  (exists w1, write_and_sync (mr_primary_disk r) off bytes w = (w1, Ok tt) /\
    match mr_backup_disk r with
    | None => w' = w1 /\ out = Ok tt
    | Some b =>
        (out = Ok tt /\ write_and_sync b off bytes w1 = (w', Ok tt)) \/
        (exists e, out = Err (BackupUnavailable e) /\ write_and_sync b off bytes w1 = (w', Err e))
    end).
Proof.
  unfold commit, io_bind, io_map_err. intros E.
  destruct (write_and_sync (mr_primary_disk r) off bytes w) as [w1 [[]|e|]] eqn:E1; simpl in E.
  - right. exists w1. split; [reflexivity|]. destruct (mr_backup_disk r) as [b|].
    + destruct (write_and_sync b off bytes w1) as [w2 [[]|e|]] eqn:E2; simplify_eq/=; eauto.
      now apply write_and_sync_spec in E2 as [? _].
    + unfold io_ret in E. now simplify_eq.
  - left. simplify_eq. eauto.
  - now apply write_and_sync_spec in E1 as [? _].
Qed.

(** A commit leaves what lies outside its range as it is, on every disk. *)
Lemma write_and_sync_kept d d' off bytes (w w' : W) out a b :
  write_and_sync d off bytes w = (w', out) -> b <= off \/ off + Zlen bytes <= a -> kept d' w w' a b.
Proof.
  unfold write_and_sync, io_bind. intros E Hd. pose proof (kept_write d d' off bytes w a b Hd) as Hk.
  destruct (write_at d off bytes w) as [w1 [[]|e|]]; cbn [fst] in Hk; [|now injection E as <- _..].
  pose proof (sync_contents d d' w1) as Hs. destruct (sync d w1) as [w2 r2]. injection E as <- _.
  eapply kept_trans; [exact Hk|now apply kept_eq].
Qed.

Lemma commit_kept (r : MetaReplicator D) bytes off (w w' : W) out d a b :
  commit r bytes off w = (w', out) -> b <= off \/ off + Zlen bytes <= a -> kept d w w' a b.
Proof.
  intros Ec Hd. apply commit_outcome in Ec as [(e & _ & Ec)|(w2 & E1 & E2)].
  - now apply (write_and_sync_kept _ d _ _ _ _ _ _ _ Ec).
  - apply (kept_trans d w w2); [now apply (write_and_sync_kept _ d _ _ _ _ _ _ _ E1)|].
    destruct (mr_backup_disk _); [|destruct E2 as [-> _]; now apply kept_eq].
    destruct E2 as [[_ E2]|(e & _ & E2)]; now apply (write_and_sync_kept _ d _ _ _ _ _ _ _ E2).
Qed.

(** The same of what is durable outside the range, or on another disk. *)
Lemma write_and_sync_lasting d d' off bytes (w w' : W) out a b :
  write_and_sync d off bytes w = (w', out) ->
  ~ same_disk d d' \/ b <= a \/ b <= off \/ off + Zlen bytes <= a -> lasting d' w w' a b.
Proof.
  unfold write_and_sync, io_bind. intros E Hd. pose proof (lasting_write d d' off bytes w a b Hd) as Hk.
  destruct (write_at d off bytes w) as [w1 [[]|e|]]; cbn [fst] in Hk; [|now injection E as <- _..].
  pose proof (lasting_sync d d' w1 a b) as Hs. destruct (sync d w1) as [w2 r2]. injection E as <- _.
  eapply lasting_trans; [exact Hk|exact Hs].
Qed.

Lemma commit_lasting (r : MetaReplicator D) bytes off (w w' : W) out d a b :
  commit r bytes off w = (w', out) -> b <= a \/ b <= off \/ off + Zlen bytes <= a -> lasting d w w' a b.
Proof.
  intros Ec Hd. apply commit_outcome in Ec as [(e & _ & Ec)|(w2 & E1 & E2)].
  - now apply (write_and_sync_lasting _ d _ _ _ _ _ _ _ Ec); right.
  - apply (lasting_trans d w w2); [now apply (write_and_sync_lasting _ d _ _ _ _ _ _ _ E1); right|].
    destruct (mr_backup_disk _); [|destruct E2 as [-> _]; now apply lasting_refl].
    destruct E2 as [[_ E2]|(e & _ & E2)]; now apply (write_and_sync_lasting _ d _ _ _ _ _ _ _ E2); right.
Qed.

(** A write and sync that succeeds settles the whole disk. *)
Lemma write_and_sync_settles d off bytes (w w' : W) a b :
  write_and_sync d off bytes w = (w', Ok tt) -> b <= f_len (contents d w') -> settled d w' a b.
Proof.
  unfold write_and_sync, io_bind. destruct (write_at d off bytes w) as [w1 [[]|e|]]; [|discriminate..].
  apply settled_sync.
Qed.

Lemma write_and_sync_stable d off bytes (w w' : W) :
  write_and_sync d off bytes w = (w', Ok tt) -> stable d w' off bytes.
Proof.
  intros E. pose proof (write_and_sync_spec _ _ _ _ _ _ E) as (_ & Hc & _). specialize (Hc eq_refl).
  destruct (decide (bytes = [])) as [->|Hne]; [split; apply file_has_nil|].
  apply (settled_stable _ _ off (off + Zlen bytes)); [|lia..|rewrite Hc; apply file_has_write].
  apply (write_and_sync_settles _ _ _ _ _ _ _ E). rewrite Hc. now apply f_len_write.
Qed.

(** Another disk keeps what is stable on it. *)
Lemma write_and_sync_elsewhere d d' off bytes (w w' : W) out bs :
  write_and_sync d off bytes w = (w', out) -> ~ same_disk d d' -> stable d' w off bs -> stable d' w' off bs.
Proof.
  intros E Hd [Hc Hf]. split; [apply write_and_sync_spec in E as (_ & _ & _ & Ho & _); now rewrite Ho|].
  unfold write_and_sync, io_bind in E. pose proof (write_durable d d' off bytes w) as Hw. cbv zeta in Hw.
  rewrite (write_other d d') in Hw by exact Hd. pose proof (write_other d d' off bytes w Hd) as Ho.
  destruct (write_at d off bytes w) as [w1 r1]. cbn [fst] in Hw, Ho.
  assert (H1 : file_has (durable d' w1) off bs) by (eapply mixes_has; [exact Hw|repeat constructor; assumption]).
  destruct r1 as [[]|e|]; [|now injection E as <- _..].
  pose proof (sync_durable d d' w1) as Hs. destruct (sync d w1) as [w2 r2]. injection E as <- _.
  eapply mixes_has; [exact Hs|]. rewrite Ho. repeat constructor; assumption.
Qed.

(** So does a commit that the primary takes, the primary. *)
Lemma commit_settles (r : MetaReplicator D) bytes off (w w' : W) out a b :
  commit r bytes off w = (w', out) -> (forall e, out <> Err (PrimaryUnavailable e)) ->
  (forall bd, mr_backup_disk r = Some bd -> ~ same_disk bd (mr_primary_disk r)) ->
  b <= f_len (contents (mr_primary_disk r) w') -> settled (mr_primary_disk r) w' a b.
Proof.
  intros Ec Ho Hd Hb. apply commit_outcome in Ec as [(e & -> & _)|(w2 & E1 & E2)]; [now destruct (Ho e)|].
  destruct (mr_backup_disk r) as [bd|]; [|destruct E2 as [-> _]; exact (write_and_sync_settles _ _ _ _ _ _ _ E1 Hb)].
  assert (exists o, write_and_sync bd off bytes w2 = (w', o)) as [o E3] by (destruct E2 as [[_ E2]|(e & _ & E2)]; eauto).
  specialize (Hd bd eq_refl). apply (write_and_sync_lasting _ _ _ _ _ _ _ a b E3 (or_introl Hd)); [lia..|].
  apply (write_and_sync_settles _ _ _ _ _ _ _ E1). apply write_and_sync_spec in E3 as (_ & _ & _ & Hx & _). now rewrite <- Hx.
Qed.

(** C23: the replication protocol.  A commit that succeeds has put the operation
    on stable storage of every disk of the group; one that loses the backup has
    put it on the primary's; one that loses the primary has not touched the backup; and no
    commit, whatever its outcome, changes anything outside the range it
    writes, on any disk. *)
Theorem commit_replicates r bytes off (w w' : W) out :
  commit r bytes off w = (w', out) ->
  (forall b, mr_backup_disk r = Some b -> ~ same_disk b (mr_primary_disk r) /\ ~ same_disk (mr_primary_disk r) b) ->
  match out with
  | Ok _ =>
      stable (mr_primary_disk r) w' off bytes /\
      (forall b, mr_backup_disk r = Some b -> stable b w' off bytes)
  | Err (BackupUnavailable _) => stable (mr_primary_disk r) w' off bytes
  | Err (PrimaryUnavailable _) =>
      forall b, mr_backup_disk r = Some b -> contents b w' = contents b w
  | Panic => False
  end /\
  (forall d o bs, o + Zlen bs <= off \/ off + Zlen bytes <= o ->
     file_has (contents d w) o bs -> file_has (contents d w') o bs).
Proof.
  intros E Hd. apply commit_outcome in E as [(e & -> & E)|(w1 & E1 & E2)].
  - apply write_and_sync_spec in E as (_ & _ & Hk & Ho & _). split; [|exact Hk].
    intros b Hb. apply Ho. now apply Hd.
  - pose proof (write_and_sync_spec _ _ _ _ _ _ E1) as (_ & _ & Hk1 & _). apply write_and_sync_stable in E1.
    destruct (mr_backup_disk r) as [b|]; [|destruct E2 as [-> ->]; split; [split; [exact E1|discriminate]|exact Hk1]].
    destruct (Hd b eq_refl) as [Hd1 _].
    destruct E2 as [[-> E2]|(e & -> & E2)]; pose proof (write_and_sync_spec _ _ _ _ _ _ E2) as (_ & _ & Hk2 & _);
      (split; [|eauto]); pose proof (write_and_sync_elsewhere _ _ _ _ _ _ _ _ E2 Hd1 E1) as Hp; [|exact Hp].
    split; [exact Hp|]. intros b' [= <-]. exact (write_and_sync_stable _ _ _ _ _ E2).
Qed.
End Proofs.

(** Two demo disks of 4 KiB; [demo_two_fault] loses the second. *)
Definition path_a : path := [x61].
Definition path_b : path := [x62].
Definition disk_a : FileDisk := {| fd_path := path_a; fd_capacity := 4096 |}.
Definition disk_b : FileDisk := {| fd_path := path_b; fd_capacity := 4096 |}.
Definition two_disks (fault : gmap path Z) : os_world :=
  {| w_files := {[ path_a := {| f_len := 4096; f_bytes := ∅ |}; path_b := {| f_len := 4096; f_bytes := ∅ |} ]};
     w_durable := {[ path_a := {| f_len := 4096; f_bytes := ∅ |}; path_b := {| f_len := 4096; f_bytes := ∅ |} ]};
     w_fault := fault |}.
Definition demo_group : MetaGroup := {| mg_primary := 1; mg_backup := Some 2; mg_epoch := 0 |}.
Definition demo_replicator : MetaReplicator FileDisk := MetaReplicator_new demo_group disk_a (Some disk_b).

Lemma commit_replicates_witness :
  stable disk_b (commit demo_replicator [x01; x02] 10 (two_disks ∅)).1 10 [x01; x02].
Proof.
  refine (proj2 (proj1 (commit_replicates demo_replicator [x01; x02] 10 (two_disks ∅)
    (commit demo_replicator [x01; x02] 10 (two_disks ∅)).1 (Ok tt) _ _)) disk_b eq_refl).
  - vm_compute. reflexivity.
  - intros b [= <-]. split; discriminate.
Defined.

(** Fencing.  A backup that failed is out of the group for good: the next
    group has no backup and a later epoch, and a commit under it writes to the
    primary only; a promoted replacement comes with a later epoch still. *)
Theorem fence_then_promote {W D} `{DiskLaws W D} (r : MetaReplicator D) id d bytes off (w w' : W) out :
  mg_epoch (mr_group r) + 2 < 2 ^ 64 -> 0 <= mg_epoch (mr_group r) ->
  commit (fence_backup r) bytes off w = (w', out) ->
  (forall d', ~ same_disk (mr_primary_disk r) d' -> contents d' w' = contents d' w) /\
  mg_backup (mr_group (fence_backup r)) = None /\
  mg_epoch (mr_group r) < mg_epoch (mr_group (fence_backup r)) <
    mg_epoch (mr_group (promote_new_backup id d (fence_backup r))) /\
  mg_primary (mr_group (promote_new_backup id d (fence_backup r))) = mg_primary (mr_group r) /\
  mr_backup_disk (promote_new_backup id d (fence_backup r)) = Some d.
Proof.
  intros He Hz E. split.
  - intros d' Hd. apply commit_outcome in E as [(e & _ & E)|(w1 & E1 & E2)].
    + apply write_and_sync_spec in E as (_ & _ & _ & Ho & _). now apply Ho.
    + simpl in E2. destruct E2 as [-> _]. apply write_and_sync_spec in E1 as (_ & _ & _ & Ho & _). now apply Ho.
  - simpl. unfold as_u64. rewrite !(wrap_small 64) by (rewrite ?(wrap_small 64) by (unfold fits; lia); unfold fits; lia).
    auto with lia.
Qed.

Lemma fence_then_promote_witness :
  mg_epoch (mr_group (fence_backup demo_replicator)) < 2 /\
  file_at (commit (fence_backup demo_replicator) [x01] 0 (two_disks ∅)).1 path_b = file_at (two_disks ∅) path_b.
Proof.
  split; [vm_compute; reflexivity|].
  refine (proj1 (fence_then_promote demo_replicator 3 disk_b [x01] 0 (two_disks ∅)
    (commit (fence_backup demo_replicator) [x01] 0 (two_disks ∅)).1 (Ok tt) _ _ _) disk_b _);
    [vm_compute; reflexivity|simpl; lia|vm_compute; reflexivity|discriminate].
Defined.
