(* ===== verification/Redb.v ===== *)
(** * The embedded database

    [redb] is a third-party crate, so it is a parameter of the store: the
    operations the store calls ([Redb]), and the documented behaviour the
    store relies on ([RedbLaws]): a write transaction sees its own writes,
    commits atomically, and leaves the database as it was when it is dropped
    or its commit fails; a range is in key order.  Every operation may fail.
    [RedbReliable] says that none does. *)

From Stdlib Require Import ZArith Lia.
From stdpp Require Import sorting.
From S2P Require Import Prelude.

Inductive redb_error := RedbFailure.

Inductive redb_table := INODES | DIR_ENTRIES.

(** Keys of [DIR_ENTRIES] are compared byte by byte. *)
Fixpoint key_le (a b : list byte) : bool :=
  match a, b with
  | [], _ => true
  | _ :: _, [] => false
  | x :: a', y :: b' =>
      if Z_of_byte x =? Z_of_byte y then key_le a' b' else Z_of_byte x <? Z_of_byte y
  end.

(** Both tables: inode id to record bytes, directory key to inode id. *)
Record tables := { t_inodes : gmap Z (list byte); t_dirs : gmap (list byte) Z }.
Definition no_tables : tables := {| t_inodes := ∅; t_dirs := ∅ |}.

Class Redb (DB : Type) := {
  WTxn : Type;
  RTxn : Type;
  (** [remove_file] on the path, then [Database::create]. *)
  db_recreate : result redb_error DB;
  begin_write : DB -> result redb_error WTxn;
  w_open_table : WTxn -> redb_table -> result redb_error unit;
  inodes_get : WTxn -> Z -> result redb_error (option (list byte));
  inodes_insert : WTxn -> Z -> list byte -> result redb_error WTxn;
  dirs_insert : WTxn -> list byte -> Z -> result redb_error WTxn;
  dirs_remove : WTxn -> list byte -> result redb_error WTxn;
  txn_commit : WTxn -> DB -> DB * result redb_error unit;
  begin_read : DB -> result redb_error RTxn;
  r_open_table : RTxn -> redb_table -> result redb_error unit;
  r_inodes_get : RTxn -> Z -> result redb_error (option (list byte));
  r_dirs_get : RTxn -> list byte -> result redb_error (option Z);
  (** The iterator of [range(key..)], each item of which may be an error. *)
  r_dirs_range : RTxn -> list byte -> result redb_error (list (result redb_error (list byte * Z)));
}.

(** [l] lists the entries of [m] from [key] on, in key order. *)
Definition range_of (m : gmap (list byte) Z) (key : list byte) (l : list (list byte * Z)) : Prop :=
  StronglySorted (fun a b => key_le a.1 b.1 = true) l /\ NoDup l.*1 /\
  forall k v, (k, v) ∈ l <-> m !! k = Some v /\ key_le key k = true.

Class RedbLaws (DB : Type) `{Redb DB} := {
  view : DB -> tables;
  wview : WTxn -> tables;
  rview : RTxn -> tables;
  recreate_ok db : db_recreate = Ok db -> view db = no_tables;
  begin_write_ok db t : begin_write db = Ok t -> wview t = view db;
  inodes_get_ok t k o : inodes_get t k = Ok o -> o = t_inodes (wview t) !! k;
  inodes_insert_ok t k v t' : inodes_insert t k v = Ok t' ->
    wview t' = {| t_inodes := <[k := v]> (t_inodes (wview t)); t_dirs := t_dirs (wview t) |};
  dirs_insert_ok t k v t' : dirs_insert t k v = Ok t' ->
    wview t' = {| t_inodes := t_inodes (wview t); t_dirs := <[k := v]> (t_dirs (wview t)) |};
  dirs_remove_ok t k t' : dirs_remove t k = Ok t' ->
    wview t' = {| t_inodes := t_inodes (wview t); t_dirs := delete k (t_dirs (wview t)) |};
  commit_ok t db db' : txn_commit t db = (db', Ok tt) -> view db' = wview t;
  commit_fails t db db' e : txn_commit t db = (db', Err e) -> view db' = view db;
  begin_read_ok db t : begin_read db = Ok t -> rview t = view db;
  r_inodes_get_ok t k o : r_inodes_get t k = Ok o -> o = t_inodes (rview t) !! k;
  r_dirs_get_ok t k o : r_dirs_get t k = Ok o -> o = t_dirs (rview t) !! k;
  r_dirs_range_ok t k items : r_dirs_range t k = Ok items ->
    exists l, range_of (t_dirs (rview t)) k l /\ length items = length l /\
      forall i x, items !! i = Some (Ok x) -> l !! i = Some x;
  (** No call panics. *)
  recreate_np : db_recreate <> Panic;
  begin_write_np db : begin_write db <> Panic;
  w_open_np t n : w_open_table t n <> Panic;
  inodes_get_np t k : inodes_get t k <> Panic;
  inodes_insert_np t k v : inodes_insert t k v <> Panic;
  dirs_insert_np t k v : dirs_insert t k v <> Panic;
  dirs_remove_np t k : dirs_remove t k <> Panic;
  commit_np t db : (txn_commit t db).2 <> Panic;
}.

(** No call fails. *)
Class RedbReliable (DB : Type) `{RedbLaws DB} := {
  recreate_total : exists db, db_recreate = Ok db;
  begin_write_total db : exists t, begin_write db = Ok t;
  w_open_total t n : w_open_table t n = Ok tt;
  inodes_get_total t k : exists o, inodes_get t k = Ok o;
  inodes_insert_total t k v : exists t', inodes_insert t k v = Ok t';
  dirs_insert_total t k v : exists t', dirs_insert t k v = Ok t';
  dirs_remove_total t k : exists t', dirs_remove t k = Ok t';
  commit_total t db : (txn_commit t db).2 = Ok tt;
  begin_read_total db : exists t, begin_read db = Ok t;
  r_open_total t n : r_open_table t n = Ok tt;
  r_inodes_get_total t k : exists o, r_inodes_get t k = Ok o;
  r_dirs_get_total t k : exists o, r_dirs_get t k = Ok o;
  r_dirs_range_total t k : exists l, r_dirs_range t k = Ok (Ok <$> l);
}.

(** ** An in-memory database

    A concrete instance, so that the hypotheses can be met and the store
    run. *)
#[export] Instance entry_le_dec (a b : list byte * Z) : Decision (key_le a.1 b.1 = true).
Proof. apply _. Defined.

Definition sort_entries (l : list (list byte * Z)) : list (list byte * Z) :=
  merge_sort (fun a b => key_le a.1 b.1 = true) l.

#[export] Instance mem_redb : Redb tables := {
  WTxn := tables;
  RTxn := tables;
  db_recreate := Ok no_tables;
  begin_write db := Ok db;
  w_open_table _ _ := Ok tt;
  inodes_get t k := Ok (t_inodes t !! k);
  inodes_insert t k v := Ok {| t_inodes := <[k := v]> (t_inodes t); t_dirs := t_dirs t |};
  dirs_insert t k v := Ok {| t_inodes := t_inodes t; t_dirs := <[k := v]> (t_dirs t) |};
  dirs_remove t k := Ok {| t_inodes := t_inodes t; t_dirs := delete k (t_dirs t) |};
  txn_commit t _ := (t, Ok tt);
  begin_read db := Ok db;
  r_open_table _ _ := Ok tt;
  r_inodes_get t k := Ok (t_inodes t !! k);
  r_dirs_get t k := Ok (t_dirs t !! k);
  r_dirs_range t k :=
    Ok (Ok <$> sort_entries (filter (fun e => key_le k e.1 = true) (map_to_list (t_dirs t))));
}.

Lemma key_le_trans a b c : key_le a b = true -> key_le b c = true -> key_le a c = true.
Proof.
  revert b c. induction a as [|x a IH]; intros [|y b] [|z c]; simpl; try discriminate; auto.
  destruct (Z.eqb_spec (Z_of_byte x) (Z_of_byte y)) as [E1|E1],
    (Z.eqb_spec (Z_of_byte y) (Z_of_byte z)) as [E2|E2]; rewrite ?E1, ?E2, ?Z.eqb_refl; eauto.
  - intros _ Hlt. destruct (Z.eqb_spec (Z_of_byte y) (Z_of_byte z)); [contradiction|exact Hlt].
  - intros Hlt _. destruct (Z.eqb_spec (Z_of_byte x) (Z_of_byte z)); [congruence|exact Hlt].
  - rewrite !Z.ltb_lt. intros. destruct (Z.eqb_spec (Z_of_byte x) (Z_of_byte z)); [lia|]. apply Z.ltb_lt. lia.
Qed.

Lemma key_le_total a b : key_le a b = true \/ key_le b a = true.
Proof.
  revert b. induction a as [|x a IH]; intros [|y b]; simpl; auto.
  rewrite (Z.eqb_sym (Z_of_byte y)). destruct (Z.eqb_spec (Z_of_byte x) (Z_of_byte y)); auto.
  rewrite !Z.ltb_lt. lia.
Qed.

Lemma sort_entries_range m k :
  range_of m k (sort_entries (filter (fun e => key_le k e.1 = true) (map_to_list m))).
Proof.
  unfold sort_entries.
  assert (HP := merge_sort_Permutation (fun a b : list byte * Z => key_le a.1 b.1 = true)
    (filter (fun e => key_le k e.1 = true) (map_to_list m))).
  split; [|split].
  - apply StronglySorted_merge_sort; [|intros a b; apply key_le_total].
    intros a b c. apply key_le_trans.
  - rewrite HP. eapply sublist_NoDup; [apply (NoDup_fst_map_to_list m)|]. apply fmap_sublist, sublist_filter.
  - intros k' v. rewrite HP, list_elem_of_filter, elem_of_map_to_list. simpl. tauto.
Qed.

#[export] Instance mem_redb_laws : RedbLaws tables.
Proof.
  refine {| view := fun t => t; wview := fun t : @WTxn _ mem_redb => t; rview := fun t : @RTxn _ mem_redb => t |};
    simpl; try (intros; simplify_eq; reflexivity); try discriminate.
  intros t k items [= <-]. eexists. split; [apply sort_entries_range|]. split; [now rewrite length_fmap|].
  intros i x Hi. rewrite list_lookup_fmap in Hi. destruct (_ !! i); now simplify_eq/=.
Defined.

#[export] Instance mem_redb_reliable : RedbReliable tables.
Proof. constructor; simpl; eauto. Qed.
