(* ===== verification/Store.v ===== *)
(** * The metadata store ([crates/tartine-meta/src/store.rs])

    [MetaStore] logs every operation through the replicator and keeps the
    materialised state in a [redb] database that it rebuilds from the log
    when it opens.  Definitions only; [StoreSpec] holds the abstract state,
    [StoreRefine] the proofs. *)

From Stdlib Require Import ZArith Lia.
From S2P Require Import Prelude Proto KWritePath Disk Wal Codec Replicator Redb.

(** [dir_key]: parent inode (8 bytes LE), then the name. *)
Definition dir_key (parent : InodeId) (name : list byte) : list byte := to_le 8 parent ++ name.

(** The messages of [MetaStoreError::InvalidOp]. *)
Inductive invalid_op :=
  | AppendChunkToExtents
  | BeginConvertTwice
  | CompleteConvertOutOfOrder
  | UpdateExtentsNotWritable
  | NoSuchInode.

Inductive MetaStoreError :=
  | CommitErr (e : CommitError)
  | RedbErr (e : redb_error)
  | RedbUtf8
  | IoErr (e : io_error)
  | InvalidOp (m : invalid_op).

Record MetaStore (D DB : Type) := {
  ms_replicator : MetaReplicator D;
  ms_wal_base_offset : Z;
  ms_wal_cursor : Z;
  ms_db : DB;
  ms_next_inode : InodeId;
}.
Arguments ms_replicator {D DB} _.
Arguments ms_wal_base_offset {D DB} _.
Arguments ms_wal_cursor {D DB} _.
Arguments ms_db {D DB} _.
Arguments ms_next_inode {D DB} _.

Definition mode_to_u32 (m : InodeMode) : Z :=
  match m with
  | AppendOnly => MODE_APPEND_ONLY
  | Converting => MODE_CONVERTING
  | Writable => MODE_WRITABLE
  end.

(** [unreachable!] for anything but a mode. *)
Definition u32_to_mode {E} (m : Z) : result E InodeMode :=
  if m =? MODE_APPEND_ONLY then Ok AppendOnly
  else if m =? MODE_CONVERTING then Ok Converting
  else if m =? MODE_WRITABLE then Ok Writable
  else Panic.

Section Store.
Context {W D DB : Type} `{!Disk W D} `{!Redb DB} `{!HashIter}.
Abbreviation Store := (MetaStore D DB).

Definition set_replicator (r : MetaReplicator D) (s : Store) : Store :=
  {| ms_replicator := r; ms_wal_base_offset := ms_wal_base_offset s;
     ms_wal_cursor := ms_wal_cursor s; ms_db := ms_db s; ms_next_inode := ms_next_inode s |}.
Definition set_wal_cursor (c : Z) (s : Store) : Store :=
  {| ms_replicator := ms_replicator s; ms_wal_base_offset := ms_wal_base_offset s;
     ms_wal_cursor := c; ms_db := ms_db s; ms_next_inode := ms_next_inode s |}.
Definition set_db (db : DB) (s : Store) : Store :=
  {| ms_replicator := ms_replicator s; ms_wal_base_offset := ms_wal_base_offset s;
     ms_wal_cursor := ms_wal_cursor s; ms_db := db; ms_next_inode := ms_next_inode s |}.
Definition set_next_inode (n : InodeId) (s : Store) : Store :=
  {| ms_replicator := ms_replicator s; ms_wal_base_offset := ms_wal_base_offset s;
     ms_wal_cursor := ms_wal_cursor s; ms_db := ms_db s; ms_next_inode := n |}.

(** [read_inode]: the record in the table, or [InvalidOp]. *)
Definition read_inode (t : WTxn) (id : InodeId) : result MetaStoreError InodeRecord :=
  let? o := map_err RedbErr (inodes_get t id) in
  let? bytes := ok_or o (InvalidOp NoSuchInode) in
  unwrap (run_dec decode_inode_record bytes).

Definition write_inode (t : WTxn) (rec : InodeRecord) : result MetaStoreError WTxn :=
  map_err RedbErr (inodes_insert t (ir_inode rec) (encode_inode_record rec)).

(** The [match op] of [apply_locally], inside the transaction. *)
Definition apply_in_txn (op : MetaOp) (t : WTxn) : io Store MetaStoreError WTxn :=
  match op with
  | CreateInode rec =>
      let! s := io_get in
      let! _ := (fun _ => (set_next_inode (Z.max (ms_next_inode s) (as_u64 (ir_inode rec + 1))) s, Ok tt)) in
      io_lift (map_err RedbErr (inodes_insert t (ir_inode rec) (encode_inode_record rec)))
  | Link parent name child => io_lift (map_err RedbErr (dirs_insert t (dir_key parent name) child))
  | Unlink parent name => io_lift (map_err RedbErr (dirs_remove t (dir_key parent name)))
  | AppendChunk inode chunk => io_lift (
      let? rec := read_inode t inode in
      match ir_data rec with
      | ChunkLog chunks =>
          let rec := set_data (ChunkLog (chunks ++ [chunk])) rec in
          write_inode t (set_size (as_u64 (ir_size rec + cp_len chunk)) rec)
      | Extents _ => Err (InvalidOp AppendChunkToExtents)
      end)
  | BeginConvert inode => io_lift (
      let? rec := read_inode t inode in
      let new_mode := tartine_begin_convert (mode_to_u32 (ir_mode rec)) in
      if new_mode <? 0 then Err (InvalidOp BeginConvertTwice)
      else let? m := u32_to_mode new_mode in write_inode t (set_mode m rec))
  | CompleteConvert inode extents => io_lift (
      let? rec := read_inode t inode in
      let new_mode := tartine_complete_convert (mode_to_u32 (ir_mode rec)) in
      if new_mode <? 0 then Err (InvalidOp CompleteConvertOutOfOrder)
      else let? m := u32_to_mode new_mode in
           write_inode t (set_data (Extents extents) (set_mode m rec)))
  | SetRedundancyScheme inode scheme => io_lift (
      let? rec := read_inode t inode in write_inode t (set_redundancy_of scheme rec))
  | UpdateExtents inode extents => io_lift (
      let? rec := read_inode t inode in
      if bool_decide (ir_mode rec <> Writable) then Err (InvalidOp UpdateExtentsNotWritable)
      else
        let size := foldr Z.max 0 ((fun x => as_u64 (ex_file_offset x + ex_len x)) <$> extents) in
        write_inode t (set_data (Extents extents) (set_size size rec)))
  | PoolMapChange _ | MetaGroupChange _ => io_ret t
  end.

(** A transaction that is not committed is dropped, so an early return
    leaves the database as it was. *)
Definition apply_locally (op : MetaOp) : io Store MetaStoreError unit :=
  let! s := io_get in
  let! t := io_lift (map_err RedbErr (begin_write (ms_db s))) in
  let! _ := io_lift (map_err RedbErr (w_open_table t INODES)) in
  let! _ := io_lift (map_err RedbErr (w_open_table t DIR_ENTRIES)) in
  let! t := apply_in_txn op t in
  fun s => let '(db, r) := txn_commit t (ms_db s) in (set_db db s, map_err RedbErr r).

(** [apply]. *)
Definition apply (op : MetaOp) : io (W * Store) MetaStoreError unit :=
  let payload := encode_op op in
  let frame := build_frame payload in
  let! s := io_self in
  let offset := as_u64 (ms_wal_base_offset s + ms_wal_cursor s) in
  let! _ := (fun ws =>
    match commit (ms_replicator s) frame offset ws.1 with
    | (w', Ok _) => ((w', ws.2), Ok tt)
    | (w', Err (BackupUnavailable _)) =>
        ((w', set_replicator (fence_backup (ms_replicator ws.2)) ws.2), Ok tt)
    | (w', Err (PrimaryUnavailable e)) => ((w', ws.2), Err (CommitErr (PrimaryUnavailable e)))
    | (w', Panic) => ((w', ws.2), Panic)
    end) in
  let! s := io_self in
  let! _ := io_set_self (set_wal_cursor (as_u64 (ms_wal_cursor s + Zlen frame)) s) in
  io_on_self (apply_locally op).

Fixpoint replay (payloads : list (list byte)) : io Store MetaStoreError unit :=
  match payloads with
  | [] => io_ret tt
  | payload :: rest =>
      let! op := io_lift (unwrap (decode_op payload)) in
      let! _ := apply_locally op in
      replay rest
  end.

(** [open]: scan the log at offset 0, recreate the database with its two
    tables, replay. *)
Definition open (group : MetaGroup) (primary : D) (backup : option D) (w : W) :
    result MetaStoreError Store :=
  let? scan := map_err IoErr (Wal.scan primary 0 w) in
  let? db := map_err RedbErr db_recreate in
  let? t := map_err RedbErr (begin_write db) in
  let? _ := map_err RedbErr (w_open_table t INODES) in
  let? _ := map_err RedbErr (w_open_table t DIR_ENTRIES) in
  let '(db, r) := txn_commit t db in
  let? _ := map_err RedbErr r in
  let store := {| ms_replicator := MetaReplicator_new group primary backup;
                  ms_wal_base_offset := 0; ms_wal_cursor := Wal.resume_at scan;
                  ms_db := db; ms_next_inode := 1 |} in
  let '(store, r) := replay (Wal.entries scan) store in
  let? _ := r in Ok store.

Definition group (s : Store) : MetaGroup := mr_group (ms_replicator s).

Definition alloc_inode (s : Store) : Store * InodeId :=
  (set_next_inode (as_u64 (ms_next_inode s + 1)) s, ms_next_inode s).

Definition get_inode (s : Store) (id : InodeId) : result MetaStoreError (option InodeRecord) :=
  let? t := map_err RedbErr (begin_read (ms_db s)) in
  let? _ := map_err RedbErr (r_open_table t INODES) in
  let? o := map_err RedbErr (r_inodes_get t id) in
  match o with
  | Some bytes => let? r := unwrap (run_dec decode_inode_record bytes) in Ok (Some r)
  | None => Ok None
  end.

Definition lookup_entry (s : Store) (parent : InodeId) (name : list byte) :
    result MetaStoreError (option InodeId) :=
  let? t := map_err RedbErr (begin_read (ms_db s)) in
  let? _ := map_err RedbErr (r_open_table t DIR_ENTRIES) in
  map_err RedbErr (r_dirs_get t (dir_key parent name)).

(** The [for] loop of [readdir] over the range's items. *)
Fixpoint readdir_loop (prefix : list byte) (items : list (result redb_error (list byte * Z))) :
    result MetaStoreError (list (list byte * InodeId)) :=
  match items with
  | [] => Ok []
  | item :: rest =>
      let? (key, value) := map_err RedbErr item in
      if bool_decide (take 8 key <> prefix) then Ok []
      else if utf8_valid (drop 8 key) then
        let? out := readdir_loop prefix rest in Ok ((drop 8 key, value) :: out)
      else Err RedbUtf8
  end.

Definition readdir (s : Store) (parent : InodeId) : result MetaStoreError (list (list byte * InodeId)) :=
  let? t := map_err RedbErr (begin_read (ms_db s)) in
  let? _ := map_err RedbErr (r_open_table t DIR_ENTRIES) in
  let prefix := to_le 8 parent in
  let? items := map_err RedbErr (r_dirs_range t prefix) in
  readdir_loop prefix items.
End Store.
