(* ===== verification/StoreSpec.v ===== *)
(** * What the metadata store promises

    The abstract state of the namespace (inodes, directory entries, the next
    inode id), the effect of each operation on it, and its invariant.  The
    store refines it ([StoreRefine]). *)

From Stdlib Require Import ZArith Lia.
From S2P Require Import Prelude Proto Codec Store.

Record meta := {
  m_inodes : gmap Z InodeRecord;
  m_dirs : gmap (Z * list byte) Z;
  m_next : Z;
}.
Definition meta_init : meta := {| m_inodes := ∅; m_dirs := ∅; m_next := 1 |}.

Definition with_inode (r : InodeRecord) (m : meta) : meta :=
  {| m_inodes := <[ir_inode r := r]> (m_inodes m); m_dirs := m_dirs m; m_next := m_next m |}.

(** An operation on an existing inode. *)
Definition on_inode (m : meta) (id : Z) (f : InodeRecord -> result invalid_op InodeRecord) :
    result invalid_op meta :=
  let? r := ok_or (m_inodes m !! id) NoSuchInode in
  let? r' := f r in Ok (with_inode r' m).

Definition file_end (x : Extent) : Z := as_u64 (ex_file_offset x + ex_len x).

Definition spec_apply (op : MetaOp) (m : meta) : result invalid_op meta :=
  match op with
  | CreateInode r =>
      Ok {| m_inodes := <[ir_inode r := r]> (m_inodes m); m_dirs := m_dirs m;
            m_next := Z.max (m_next m) (as_u64 (ir_inode r + 1)) |}
  | Link p n c => Ok {| m_inodes := m_inodes m; m_dirs := <[(p, n) := c]> (m_dirs m); m_next := m_next m |}
  | Unlink p n => Ok {| m_inodes := m_inodes m; m_dirs := delete (p, n) (m_dirs m); m_next := m_next m |}
  | AppendChunk i c => on_inode m i (fun r =>
      match ir_data r with
      | ChunkLog cs => Ok (set_size (as_u64 (ir_size r + cp_len c)) (set_data (ChunkLog (cs ++ [c])) r))
      | Extents _ => Err AppendChunkToExtents
      end)
  | BeginConvert i => on_inode m i (fun r =>
      match ir_mode r with AppendOnly => Ok (set_mode Converting r) | _ => Err BeginConvertTwice end)
  | CompleteConvert i xs => on_inode m i (fun r =>
      match ir_mode r with
      | Converting => Ok (set_data (Extents xs) (set_mode Writable r))
      | _ => Err CompleteConvertOutOfOrder
      end)
  | SetRedundancyScheme i s => on_inode m i (fun r => Ok (set_redundancy_of s r))
  | UpdateExtents i xs => on_inode m i (fun r =>
      match ir_mode r with
      | Writable => Ok (set_data (Extents xs) (set_size (foldr Z.max 0 (file_end <$> xs)) r))
      | _ => Err UpdateExtentsNotWritable
      end)
  | PoolMapChange _ | MetaGroupChange _ => Ok m
  end.

(** A sequence of operations, up to the first that is rejected. *)
Fixpoint spec_run (ops : list MetaOp) (m : meta) : result invalid_op meta :=
  match ops with
  | [] => Ok m
  | op :: rest => let? m' := spec_apply op m in spec_run rest m'
  end.

(** ** Invariant *)
Definition chunk_count (r : InodeRecord) : Z :=
  match ir_data r with ChunkLog cs => Zlen cs | Extents _ => 0 end.

(** How many chunk pointers an operation can add to an inode. *)
Definition op_weight (op : MetaOp) : Z :=
  match op with CreateInode r => chunk_count r | AppendChunk _ _ => 1 | _ => 0 end.

(** Every record is well formed, filed under its own id and holds at most [n]
    chunk pointers; every directory key and child is well formed. *)
Record wf_meta (n : Z) (m : meta) : Prop := {
  wf_inodes : map_Forall (fun id r => wf_inode r /\ ir_inode r = id /\ chunk_count r <= n) (m_inodes m);
  wf_dirs : map_Forall (fun '(p, name) c => u64 p /\ wf_str name /\ u64 c) (m_dirs m);
  wf_next : u64 (m_next m);
}.

(** *** Lemmas *)

Lemma spec_run_app ops1 ops2 m :
  spec_run (ops1 ++ ops2) m = let? m' := spec_run ops1 m in spec_run ops2 m'.
Proof.
  revert m. induction ops1 as [|op ops1 IH]; intros m; simpl; [reflexivity|].
  destruct (spec_apply op m); simpl; auto.
Qed.

Lemma spec_run_snoc ops op m m' : spec_run ops m = Ok m' -> spec_run (ops ++ [op]) m = spec_apply op m'.
Proof. intros E. rewrite spec_run_app, E. simpl. now destruct (spec_apply op m'). Qed.

Lemma on_inode_Ok m id f m' :
  on_inode m id f = Ok m' ->
  exists r r', m_inodes m !! id = Some r /\ f r = Ok r' /\ m' = with_inode r' m.
Proof.
  unfold on_inode. destruct (m_inodes m !! id) as [r|]; [|discriminate]. simpl.
  destruct (f r) as [r'| |] eqn:E; intros [= <-]. eauto 6.
Qed.

Lemma spec_apply_no_panic op m : spec_apply op m <> Panic.
Proof.
  intros E. destruct op; simpl in E; try discriminate;
    unfold on_inode, ok_or, result_bind in E; repeat case_match; simplify_eq.
Qed.

Lemma wf_meta_init n : wf_meta n meta_init.
Proof. split; [apply map_Forall_empty|apply map_Forall_empty|]. split; [simpl; lia|reflexivity]. Qed.

Lemma wf_meta_weaken n n' m : n <= n' -> wf_meta n m -> wf_meta n' m.
Proof.
  intros Hn [Hi Hd Hx]. split; auto. eapply map_Forall_impl; [exact Hi|].
  simpl. intros id r (? & ? & ?). split_and!; auto; lia.
Qed.

Lemma wf_with_inode n n' m r :
  wf_meta n m -> n <= n' -> wf_inode r -> chunk_count r <= n' -> wf_meta n' (with_inode r m).
Proof.
  intros Hm Hn Hr Hc. destruct (wf_meta_weaken _ _ _ Hn Hm) as [Hi Hd Hx]. split; simpl; auto.
  apply map_Forall_insert_2; auto.
Qed.

Lemma foldr_max_fits xs : (forall x, x ∈ xs -> 0 <= file_end x < 2 ^ 64) -> u64 (foldr Z.max 0 (file_end <$> xs)).
Proof.
  unfold fits. induction xs as [|x xs IH]; intros Hx; [simpl; lia|]. rewrite fmap_cons. cbn [foldr].
  destruct IH as [H1 H2]; [intros; apply Hx; now right|]. pose proof (Hx x ltac:(now left)). lia.
Qed.

Lemma wf_spec_apply n op m m' :
  wf_meta n m -> 0 <= n -> n + op_weight op < 2 ^ 32 -> wf_op op -> spec_apply op m = Ok m' ->
  wf_meta (n + op_weight op) m'.
Proof.
  intros Hm Hn Hw Hop E. pose proof Hm as [Hi Hd Hx].
  assert (Hw0 : 0 <= op_weight op).
  { destruct op; simpl; try lia. unfold chunk_count. destruct (ir_data rec); [apply Zlen_nonneg|lia]. }
  assert (Hget : forall id r, m_inodes m !! id = Some r -> wf_inode r /\ ir_inode r = id /\ chunk_count r <= n)
    by (intros; now apply Hi).
  destruct op as [r|p nm c|p nm|i c|i|i xs|i xs|i s|pm|g]; simpl in *;
    try (apply on_inode_Ok in E as (r & r' & Eg & E & ->); destruct (Hget _ _ Eg) as (Hr & Hid & Hc)).
  - injection E as <-. destruct (wf_meta_weaken n (n + chunk_count r) m) as [? ? ?]; [lia|exact Hm|]. split; simpl; auto.
    + apply map_Forall_insert_2; auto. split_and!; auto. lia.
    + pose proof (wrap_fits 64 (ir_inode r + 1)). unfold fits, as_u64 in *. lia.
  - injection E as <-. rewrite Z.add_0_r. split; simpl; auto. now apply map_Forall_insert_2.
  - injection E as <-. rewrite Z.add_0_r. split; simpl; auto. now apply map_Forall_delete.
  - destruct (ir_data r) as [cs|xs] eqn:Ed; [|discriminate]. injection E as <-.
    unfold chunk_count in Hc. rewrite Ed in Hc. destruct Hr as (? & ? & ? & Hdat & ? & ? & ? & ?).
    rewrite Ed in Hdat. destruct Hop as [_ Hck], Hdat as [Hl Hf].
    assert (Zlen (cs ++ [c]) = Zlen cs + 1) as El by (rewrite Zlen_app; reflexivity).
    eapply wf_with_inode; [exact Hm|lia| |unfold chunk_count; simpl; lia].
    unfold wf_inode; simpl. split_and!; auto; [apply wrap_fits; lia|]. split.
    + unfold fits in *. pose proof (Zlen_nonneg cs). lia.
    + apply Forall_app; auto.
  - destruct (ir_mode r); try discriminate. injection E as <-. rewrite Z.add_0_r.
    now apply (wf_with_inode n).
  - destruct (ir_mode r); try discriminate. injection E as <-. rewrite Z.add_0_r.
    destruct Hop, Hr as (? & ? & ? & ? & ? & ? & ? & ?). apply (wf_with_inode n); [auto|lia| |exact Hn].
    now repeat (split; [assumption|]).
  - destruct (ir_mode r); try discriminate. injection E as <-. rewrite Z.add_0_r.
    destruct Hop, Hr as (? & ? & ? & ? & ? & ? & ? & ?). apply (wf_with_inode n); [auto|lia| |exact Hn].
    unfold wf_inode; simpl; split_and!; auto. apply foldr_max_fits. intros. apply wrap_fits. lia.
  - injection E as <-. rewrite Z.add_0_r. destruct Hop, Hr as (? & ? & ? & ? & ? & ? & ? & ?).
    apply (wf_with_inode n); [auto|lia| |exact Hc]. unfold wf_inode; simpl; split_and!; auto.
  - injection E as <-. now rewrite Z.add_0_r.
  - injection E as <-. now rewrite Z.add_0_r.
Qed.
