(* ===== verification/StoreRefine.v ===== *)
(** * The metadata store refines its specification

    [refines] relates a store to an abstract state: its tables hold the
    encodings of the abstract inodes and directory entries.  One operation at
    a time first ([apply_locally]), then the replay of a log ([open]), then
    the life of a store (applies, failed commits, crashes and reopenings) as a
    step relation, with the recovery theorems. *)

From Stdlib Require Import ZArith Lia.
From stdpp Require Import sorting.
From S2P Require Import Prelude Proto KWritePath Disk Framing Wal Codec Replicator Redb Store StoreSpec.

Lemma dir_key_inj p n p' n' :
  u64 p -> u64 p' -> dir_key p n = dir_key p' n' -> p = p' /\ n = n'.
Proof.
  intros Hp Hp' E. unfold dir_key in E. apply app_inj_1 in E as [E1 E2]; [|now rewrite !length_to_le].
  split; [|exact E2]. now apply (to_le_inj 8 64).
Qed.

(** The tables hold the abstract state. *)
Record tables_refine (tb : tables) (m : meta) : Prop := {
  ref_inodes : t_inodes tb = encode_inode_record <$> m_inodes m;
  ref_dirs : forall p n, u64 p -> t_dirs tb !! dir_key p n = m_dirs m !! (p, n);
  ref_keys : forall k v, t_dirs tb !! k = Some v -> exists p n, u64 p /\ k = dir_key p n;
}.

Lemma tables_refine_init : tables_refine no_tables meta_init.
Proof.
  split; simpl; [now rewrite fmap_empty| |].
  - intros. now rewrite !lookup_empty.
  - intros k v E. now rewrite lookup_empty in E.
Qed.

Lemma tables_refine_inode tb m r :
  tables_refine tb m ->
  tables_refine {| t_inodes := <[ir_inode r := encode_inode_record r]> (t_inodes tb); t_dirs := t_dirs tb |}
    (with_inode r m).
Proof. intros [Hi Hd Hk]. split; simpl; auto. now rewrite fmap_insert, Hi. Qed.

Lemma tables_refine_next tb m i d x :
  tables_refine tb {| m_inodes := i; m_dirs := d; m_next := m |} ->
  tables_refine tb {| m_inodes := i; m_dirs := d; m_next := x |}.
Proof. intros [Hi Hd Hk]. now split. Qed.

Lemma tables_refine_link tb m p n c :
  u64 p -> tables_refine tb m ->
  tables_refine {| t_inodes := t_inodes tb; t_dirs := <[dir_key p n := c]> (t_dirs tb) |}
    {| m_inodes := m_inodes m; m_dirs := <[(p, n) := c]> (m_dirs m); m_next := m_next m |}.
Proof.
  intros Hp [Hi Hd Hk]. split; simpl; auto.
  - intros p' n' Hp'. destruct (decide ((p, n) = (p', n'))) as [[= -> ->]|Hne].
    + now rewrite !lookup_insert_eq.
    + rewrite !lookup_insert_ne; auto. intros E. apply Hne. apply dir_key_inj in E as [-> ->]; auto.
  - intros k v E. apply lookup_insert_Some in E as [[<- _]|[_ E]]; eauto.
Qed.

Lemma tables_refine_unlink tb m p n :
  u64 p -> tables_refine tb m ->
  tables_refine {| t_inodes := t_inodes tb; t_dirs := delete (dir_key p n) (t_dirs tb) |}
    {| m_inodes := m_inodes m; m_dirs := delete (p, n) (m_dirs m); m_next := m_next m |}.
Proof.
  intros Hp [Hi Hd Hk]. split; simpl; auto.
  - intros p' n' Hp'. destruct (decide ((p, n) = (p', n'))) as [[= -> ->]|Hne].
    + now rewrite !lookup_delete_eq.
    + rewrite !lookup_delete_ne; auto. intros E. apply Hne. apply dir_key_inj in E as [-> ->]; auto.
  - intros k v E. apply lookup_delete_Some in E as [_ E]; eauto.
Qed.

Section Local.
Context {W D DB : Type} `{!Disk W D} `{!Redb DB} `{!RedbLaws DB}.
Implicit Types (s : MetaStore D DB) (t : @WTxn DB _).

(** What an outcome inside a transaction promises, for an abstract result
    [spec]. *)
Definition txn_outcome (spec : result invalid_op meta) (r : result MetaStoreError WTxn) : Prop :=
  match r with
  | Ok t' => exists m', spec = Ok m' /\ tables_refine (wview t') m'
  | Err (InvalidOp x) => spec = Err x
  | Err (RedbErr _) => True
  | _ => False
  end.

Lemma write_inode_refines t m r :
  tables_refine (wview t) m -> txn_outcome (Ok (with_inode r m)) (write_inode t r).
Proof.
  intros Hr. unfold write_inode. pose proof (inodes_insert_np t (ir_inode r) (encode_inode_record r)).
  destruct (inodes_insert _ _ _) as [t'|e|] eqn:E; simpl; auto.
  apply inodes_insert_ok in E. exists (with_inode r m). split; [reflexivity|]. rewrite E.
  now apply tables_refine_inode.
Qed.

(** Reading a record, then continuing, against [on_inode]. *)
Lemma on_inode_refines n t m id (f : InodeRecord -> result invalid_op InodeRecord)
    (k : InodeRecord -> result MetaStoreError WTxn) :
  tables_refine (wview t) m -> wf_meta n m ->
  (forall r, wf_inode r -> txn_outcome (let? r' := f r in Ok (with_inode r' m)) (k r)) ->
  txn_outcome (on_inode m id f) (let? r := read_inode t id in k r).
Proof.
  intros [Hi _ _] [Hw _ _] Hk. unfold read_inode, on_inode. pose proof (inodes_get_np t id).
  destruct (inodes_get t id) as [o|e|] eqn:E; simpl; auto.
  apply inodes_get_ok in E. rewrite Hi, lookup_fmap in E. rewrite E.
  destruct (m_inodes m !! id) as [r|] eqn:Er; simpl; [|reflexivity].
  destruct (Hw _ _ Er) as (Hwr & _). pose proof (run_decodes _ _ _ [] (decodes_inode r Hwr)) as Hd.
  rewrite app_nil_r in Hd. rewrite Hd. simpl. now apply Hk.
Qed.

(** The result of the [match op], and what it does to the store. *)
Lemma apply_in_txn_refines n op t m s s' r :
  tables_refine (wview t) m -> wf_meta n m -> wf_op op -> apply_in_txn op t s = (s', r) ->
  txn_outcome (spec_apply op m) r /\
  s' = set_next_inode (ms_next_inode s') s /\
  (forall m', spec_apply op m = Ok m' -> ms_next_inode s = m_next m -> ms_next_inode s' = m_next m') /\
  (is_ok (spec_apply op m) = false -> s' = s).
Proof.
  intros Hr Hw Hop E.
  assert (Hs : forall s0 : MetaStore D DB, s0 = set_next_inode (ms_next_inode s0) s0) by now intros [].
  assert (Hon : forall id f m', on_inode m id f = Ok m' -> m_next m' = m_next m).
  { intros id f m' Eo. apply on_inode_Ok in Eo as (? & ? & _ & _ & ->). reflexivity. }
  destruct op as [r0|p nm c|p nm|i c|i|i xs|i xs|i sc|pm|g]; simpl in E |- *;
    try (unfold io_lift in E; injection E as <- <-; split;
         [|split; [apply Hs|split; [intros m' Em ->; first [symmetry; eapply Hon; eassumption|now simplify_eq]|reflexivity]]]).
  - unfold io_bind, io_get, io_lift in E. injection E as <- <-. split; [|split; [reflexivity|split; [|discriminate]]].
    + pose proof (inodes_insert_np t (ir_inode r0) (encode_inode_record r0)).
      destruct (inodes_insert _ _ _) as [t'|e|] eqn:E; simpl; auto. apply inodes_insert_ok in E.
      eexists. split; [reflexivity|]. rewrite E. eapply tables_refine_next.
      apply (tables_refine_inode _ m r0 Hr).
    + intros m' [= <-] ->. reflexivity.
  - pose proof (dirs_insert_np t (dir_key p nm) c).
    destruct (dirs_insert _ _ _) as [t'|e|] eqn:E; simpl; auto. apply dirs_insert_ok in E. rewrite E.
    eexists. split; [reflexivity|]. destruct Hop. now apply tables_refine_link.
  - pose proof (dirs_remove_np t (dir_key p nm)).
    destruct (dirs_remove _ _) as [t'|e|] eqn:E; simpl; auto. apply dirs_remove_ok in E. rewrite E.
    eexists. split; [reflexivity|]. destruct Hop. now apply tables_refine_unlink.
  - eapply on_inode_refines; eauto. intros r _. destruct (ir_data r) as [cs|xs]; simpl; [|reflexivity].
    now apply (write_inode_refines t m).
  - eapply on_inode_refines; eauto. intros r _. destruct (ir_mode r); simpl; try reflexivity.
    now apply (write_inode_refines t m).
  - eapply on_inode_refines; eauto. intros r _. destruct (ir_mode r); simpl; try reflexivity.
    now apply (write_inode_refines t m).
  - eapply on_inode_refines; eauto. intros r _. destruct (ir_mode r); simpl; try reflexivity.
    now apply (write_inode_refines t m).
  - eapply on_inode_refines; eauto. intros r _. now apply (write_inode_refines t m).
  - simpl. eauto.
  - simpl. eauto.
Qed.

(** A store that holds the abstract state. *)
Definition refines s (m : meta) : Prop :=
  tables_refine (view (ms_db s)) m /\ ms_next_inode s = m_next m.

(** Local application does not touch the log. *)
Definition same_log s s' : Prop :=
  ms_replicator s' = ms_replicator s /\ ms_wal_base_offset s' = ms_wal_base_offset s /\
  ms_wal_cursor s' = ms_wal_cursor s.

(** What an outcome of local application promises. *)
Definition local_outcome (spec : result invalid_op meta) (m : meta) s s' (r : result MetaStoreError unit) : Prop :=
  match r with
  | Ok _ => exists m', spec = Ok m' /\ refines s' m'
  | Err (InvalidOp x) => spec = Err x /\ s' = s
  | Err (RedbErr _) => tables_refine (view (ms_db s')) m
  | _ => False
  end.

Lemma apply_locally_spec n op s m s' r :
  refines s m -> wf_meta n m -> wf_op op -> apply_locally op s = (s', r) ->
  same_log s s' /\ local_outcome (spec_apply op m) m s s' r.
Proof.
  intros [Hr Hn] Hw Hop E. unfold apply_locally, io_bind, io_get, io_lift in E.
  pose proof (begin_write_np (ms_db s)). destruct (begin_write (ms_db s)) as [t|e|] eqn:Eb;
    simpl in E; [|injection E as <- <-; split; [now split_and!|exact Hr]|congruence].
  pose proof (w_open_np t INODES). destruct (w_open_table t INODES) as [[]|e|];
    simpl in E; [|injection E as <- <-; split; [now split_and!|exact Hr]|congruence].
  pose proof (w_open_np t DIR_ENTRIES). destruct (w_open_table t DIR_ENTRIES) as [[]|e|];
    simpl in E; [|injection E as <- <-; split; [now split_and!|exact Hr]|congruence].
  apply begin_write_ok in Eb. rewrite <- Eb in Hr.
  destruct (apply_in_txn op t s) as [s1 rt] eqn:Et.
  destruct (apply_in_txn_refines _ _ _ _ _ _ _ Hr Hw Hop Et) as (Hout & Es & Hnext & Hsame).
  rewrite Eb in Hr. destruct rt as [t'|e|]; [| |destruct Hout].
  - destruct Hout as (m' & Hm' & Hr').
    pose proof (commit_np t' (ms_db s1)) as Hnp. destruct (txn_commit t' (ms_db s1)) as [db [[]|e|]] eqn:Ec;
      simpl in E, Hnp; [| |congruence]; injection E as <- <-; rewrite Es; (split; [now split_and!|]).
    + apply commit_ok in Ec. exists m'. split; [exact Hm'|]. split; simpl; [now rewrite Ec|eauto].
    + apply commit_fails in Ec. simpl. rewrite Ec, Es. exact Hr.
  - injection E as <- <-. split; [rewrite Es; now split_and!|]. destruct e as [| | | |x]; try contradiction.
    + simpl. rewrite Es. exact Hr.
    + split; [exact Hout|]. apply Hsame. simpl in Hout. now rewrite Hout.
Qed.

(** Replaying the log is running the operations it holds. *)
Definition total_weight (ops : list MetaOp) : Z := foldr (fun op z => op_weight op + z) 0 ops.

Lemma op_weight_nonneg op : 0 <= op_weight op.
Proof. destruct op; simpl; try lia. unfold chunk_count. destruct (ir_data rec); [apply Zlen_nonneg|lia]. Qed.

Lemma total_weight_nonneg ops : 0 <= total_weight ops.
Proof. induction ops as [|op ops IH]; simpl; [lia|]. pose proof (op_weight_nonneg op). lia. Qed.

Lemma wf_spec_run n ops m m' :
  wf_meta n m -> 0 <= n -> n + total_weight ops < 2 ^ 32 -> Forall wf_op ops -> spec_run ops m = Ok m' ->
  wf_meta (n + total_weight ops) m'.
Proof.
  intros Hw Hn Hlt Hop. revert n m Hw Hn Hlt. induction Hop as [|op ops Ho Hop IH]; intros n m Hw Hn Hlt E; simpl in *.
  - injection E as <-. now rewrite Z.add_0_r.
  - destruct (spec_apply op m) as [m1| |] eqn:E1; try discriminate.
    pose proof (op_weight_nonneg op). pose proof (total_weight_nonneg ops).
    rewrite Z.add_assoc. apply (IH (n + op_weight op) m1); auto; try lia.
    eapply wf_spec_apply; eauto. lia.
Qed.

Lemma replay_spec n ps ops s m s' r :
  Forall2 (fun p op => decode_op p = Some op) ps ops -> Forall wf_op ops ->
  refines s m -> wf_meta n m -> 0 <= n -> n + total_weight ops < 2 ^ 32 -> replay ps s = (s', r) ->
  same_log s s' /\
  match r with
  | Ok _ => exists m', spec_run ops m = Ok m' /\ refines s' m'
  | Err (InvalidOp x) => spec_run ops m = Err x
  | Err (RedbErr _) => True
  | _ => False
  end.
Proof.
  intros Hd. revert n s m. induction Hd as [|p op ps ops Hp Hd IH]; intros n s m Hop Hr Hw Hn Hlt E.
  - unfold replay, io_ret in E. injection E as <- <-. split; [now split_and!|]. simpl. eauto.
  - cbn [replay] in E. unfold io_bind, io_lift in E. rewrite Hp in E. simpl in E.
    apply Forall_cons_1 in Hop as [Ho Hop]. simpl in Hlt.
    pose proof (op_weight_nonneg op). pose proof (total_weight_nonneg ops).
    destruct (apply_locally op s) as [s1 r1] eqn:E1.
    destruct (apply_locally_spec _ _ _ _ _ _ Hr Hw Ho E1) as [Hl Hout].
    destruct r1 as [[]|e|]; simpl in Hout.
    + destruct Hout as (m1 & Hm1 & Hr1). simpl. rewrite Hm1. simpl.
      destruct (IH (n + op_weight op) s1 m1) as [Hl' Hout']; auto; try lia.
      * eapply wf_spec_apply; eauto. lia.
      * split; [|exact Hout']. destruct Hl as (? & ? & ?), Hl' as (? & ? & ?).
        split_and!; congruence.
    + injection E as <- <-. split; [exact Hl|]. destruct e; auto. destruct Hout as [Hout _].
      simpl. now rewrite Hout.
    + destruct Hout.
Qed.

(** With a database that does not fail, local application and replay
    follow the specification exactly. *)
Lemma write_inode_reliable `{!RedbReliable DB} t r e : write_inode t r <> Err (RedbErr e).
Proof.
  unfold write_inode. now destruct (inodes_insert_total t (ir_inode r) (encode_inode_record r)) as [t' ->].
Qed.

Lemma read_inode_reliable `{!RedbReliable DB} t i e : read_inode t i <> Err (RedbErr e).
Proof.
  unfold read_inode. destruct (inodes_get_total t i) as [[bs|] ->]; simpl; [|discriminate].
  destruct (run_dec decode_inode_record bs); discriminate.
Qed.

Lemma apply_in_txn_reliable `{!RedbReliable DB} op t s e : (apply_in_txn op t s).2 <> Err (RedbErr e).
Proof.
  destruct op as [r0|p nm c|p nm|i c|i|i xs|i xs|i sc|pm|g]; simpl; try discriminate;
    try (pose proof (read_inode_reliable t i e); destruct (read_inode t i) as [r|x|]; simpl; try congruence).
  - now destruct (inodes_insert_total t (ir_inode r0) (encode_inode_record r0)) as [t' ->].
  - now destruct (dirs_insert_total t (dir_key p nm) c) as [t' ->].
  - now destruct (dirs_remove_total t (dir_key p nm)) as [t' ->].
  - destruct (ir_data r); [apply write_inode_reliable|discriminate].
  - destruct (ir_mode r); simpl; try discriminate; apply write_inode_reliable.
  - destruct (ir_mode r); simpl; try discriminate; apply write_inode_reliable.
  - case_bool_decide; [discriminate|]. apply write_inode_reliable.
  - apply write_inode_reliable.
Qed.

Lemma apply_locally_reliable `{!RedbReliable DB} op s e : (apply_locally op s).2 <> Err (RedbErr e).
Proof.
  unfold apply_locally, io_bind, io_get, io_lift.
  destruct (begin_write_total (ms_db s)) as [t ->]. simpl. rewrite !w_open_total. simpl.
  pose proof (apply_in_txn_reliable op t s e) as Ht.
  destruct (apply_in_txn op t s) as [s1 [t'|e1|]] eqn:Et; simpl in *; [|congruence|discriminate].
  pose proof (commit_total t' (ms_db s1)). destruct (txn_commit t' (ms_db s1)) as [db r]. simpl in *. now subst r.
Qed.

Lemma replay_reliable `{!RedbReliable DB} ps s e : (replay ps s).2 <> Err (RedbErr e).
Proof.
  revert s. induction ps as [|p ps IH]; intros s; [discriminate|]. cbn [replay]. unfold io_bind, io_lift.
  destruct (decode_op p) as [op|]; simpl; [|discriminate].
  pose proof (apply_locally_reliable op s e). destruct (apply_locally op s) as [s1 [[]|x|]]; simpl in *; auto.
Qed.

(** C16: the store implements its specification, one operation at a time: from
    a store that holds an abstract state, applying a well-formed operation
    locally either succeeds exactly as the specification says, or is
    rejected with the specification's reason and leaves the store alone, or
    the database failed and its tables are unchanged; it never panics and
    never touches the log. *)
Theorem apply_locally_refines n op s m s' r :
  refines s m -> wf_meta n m -> wf_op op -> apply_locally op s = (s', r) ->
  same_log s s' /\
  match r with
  | Ok _ => exists m', spec_apply op m = Ok m' /\ refines s' m'
  | Err (InvalidOp x) => spec_apply op m = Err x /\ s' = s
  | Err (RedbErr _) => tables_refine (view (ms_db s')) m
  | _ => False
  end.
Proof. apply apply_locally_spec. Qed.
End Local.

(** ** A run: [CreateInode] and [BeginConvert] on the empty store. *)
Definition demo_store : MetaStore FileDisk tables :=
  {| ms_replicator := demo_replicator; ms_wal_base_offset := 0; ms_wal_cursor := 0;
     ms_db := no_tables; ms_next_inode := 1 |}.

Lemma apply_locally_refines_witness :
  exists m', spec_apply (CreateInode demo_inode) meta_init = Ok m' /\
    refines (apply_locally (CreateInode demo_inode) demo_store).1 m'.
Proof.
  refine (proj2 (apply_locally_refines 0 (CreateInode demo_inode) demo_store meta_init
    (apply_locally (CreateInode demo_inode) demo_store).1 (Ok tt) _ (wf_meta_init 0) _ _)).
  - split; [apply tables_refine_init|reflexivity].
  - apply (bool_decide_unpack _). vm_compute. exact I.
  - vm_compute. reflexivity.
Defined.
