(* ===== verification/StoreRecovery.v ===== *)
(** * Recovery of the metadata store

    [open] is the replay of the log; [apply] keeps the log and the tables in
    step; the life of a store is a step relation over applies, failed commits,
    crashes and reopenings. *)

From Stdlib Require Import ZArith Lia.
From stdpp Require Import relations.
From S2P Require Import Prelude Proto KWritePath Disk Framing Wal Codec Replicator Redb Store StoreSpec StoreRefine.

(** A log payload of an operation: its encoding, whatever order the hash
    table iterated in when it was written. *)
Definition logged (p : list byte) (op : MetaOp) : Prop := exists HI : HashIter, p = @encode_op HI op.

Lemma logged_decode p op : wf_op op -> logged p op -> decode_op p = Some op.
Proof.
  intros Hw [HI ->]. pose proof (run_decodes _ _ _ [] (decodes_op op Hw)) as E.
  now rewrite app_nil_r in E.
Qed.

Lemma length_concat_ge {A} (f : A -> list byte) l :
  (forall x, (1 <= length (f x))%nat) -> (length l <= length (concat (f <$> l)))%nat.
Proof.
  intros Hf. induction l as [|x l IH]; [simpl; lia|]. rewrite fmap_cons. cbn [concat length].
  rewrite length_app. specialize (Hf x). lia.
Qed.

Lemma logged_weight p op : logged p op -> op_weight op <= Zlen p.
Proof.
  intros [HI ->]. destruct op as [r| | | | | | | | |]; cbn [encode_op op_weight]; try apply Zlen_nonneg.
  - unfold chunk_count. destruct (ir_data r) as [cs|] eqn:Ed; [|apply Zlen_nonneg].
    unfold encode_inode_record, encode_data_locator, put_vec. rewrite Ed, !Zlen_app.
    pose proof (length_concat_ge encode_chunk_pointer cs) as Hc.
    unfold Zlen. specialize (Hc ltac:(intros x; unfold encode_chunk_pointer, put_u64; rewrite length_app, length_to_le; lia)).
    lia.
  - unfold put_u8. rewrite Zlen_app. unfold Zlen. rewrite length_to_le. lia.
Qed.

Lemma wal_bytes_cons p ps : Zlen (wal_bytes (p :: ps)) = 12 + Zlen p + Zlen (wal_bytes ps).
Proof.
  change (wal_bytes (p :: ps)) with (frame p ++ wal_bytes ps). now rewrite Zlen_app, Zlen_frame.
Qed.

Lemma logged_total ps ops : Forall2 logged ps ops -> total_weight ops <= Zlen (wal_bytes ps).
Proof.
  induction 1 as [|p op ps ops Hp _ IH]; [reflexivity|]. rewrite wal_bytes_cons. simpl.
  pose proof (logged_weight _ _ Hp). pose proof (Zlen_nonneg p). lia.
Qed.

Lemma wf_base_0 : wf_wal_base 0.
Proof. split; [lia|reflexivity]. Qed.

Section Recovery.
Context {W D DB : Type} `{!Disk W D} `{!DiskLaws W D} `{!Redb DB} `{!RedbLaws DB} `{!RedbReliable DB}.
Implicit Types (s : MetaStore D DB) (primary : D) (backup : option D) (w : W).

(** [open] is a replay of the log into empty tables. *)
Lemma open_replay g primary backup w sc :
  Wal.scan primary 0 w = Ok sc ->
  exists s0 : MetaStore D DB, refines s0 meta_init /\ ms_replicator s0 = MetaReplicator_new g primary backup /\
    ms_wal_base_offset s0 = 0 /\ ms_wal_cursor s0 = Wal.resume_at sc /\
    open g primary backup w = let '(s, r) := replay (Wal.entries sc) s0 in let? _ := r in Ok s.
Proof.
  intros Es. unfold open. rewrite Es. simpl. destruct (recreate_total (DB := DB)) as [db Edb]. rewrite Edb. simpl.
  destruct (begin_write_total db) as [t Et]. rewrite Et. simpl. rewrite !w_open_total. simpl.
  pose proof (commit_total t db) as Hc. destruct (txn_commit t db) as [db' rc] eqn:Ec. simpl in Hc. subst rc. simpl.
  apply commit_ok in Ec. apply begin_write_ok in Et. apply recreate_ok in Edb.
  eexists. split; [|split; [|split; [|split; [|reflexivity]]]]; try reflexivity.
  split; simpl; [|reflexivity]. rewrite Ec, Et, Edb. apply tables_refine_init.
Qed.

Lemma decode_logged ps ops :
  Forall2 logged ps ops -> Forall wf_op ops -> Forall2 (fun p op => decode_op p = Some op) ps ops.
Proof. intros Hl Hw. induction Hl; constructor; apply Forall_cons_1 in Hw as [? ?]; eauto using logged_decode. Qed.

(** What the replay of the frames that a scan found gives. *)
Lemma replay_logged primary w sc ps ops s0 s r :
  Wal.scan primary 0 w = Ok sc -> ps `prefix_of` Wal.entries sc -> Forall2 logged ps ops -> Forall wf_op ops ->
  refines s0 meta_init -> replay ps s0 = (s, r) ->
  same_log s0 s /\
  match r with
  | Ok _ => exists m', spec_run ops meta_init = Ok m' /\ refines s m'
  | Err (InvalidOp x) => spec_run ops meta_init = Err x
  | _ => False
  end.
Proof.
  intros Es [l Hp] Hl Hw Hr Er. destruct (wal_scan_returns primary 0 w wf_base_0) as (q & Es' & (Hra & Hle & _) & _).
  rewrite Es in Es'. injection Es' as ->. cbn [Wal.entries Wal.resume_at wal_result] in *.
  pose proof (logged_total _ _ Hl) as Ht. rewrite Hra, Hp, (enc_log_app wal_format), Zlen_app in Hle.
  pose proof (Zlen_nonneg (wal_bytes l)). assert (WAL_CAPACITY_BYTES < 2 ^ 32) by reflexivity. cbn [cap wal_format] in Hle.
  pose proof (replay_reliable ps s0) as Hrel. rewrite Er in Hrel.
  destruct (replay_spec 0 _ _ _ _ _ _ (decode_logged _ _ Hl Hw) Hw Hr (wf_meta_init 0) ltac:(lia) ltac:(lia) Er) as [Hlog Hout].
  split; [exact Hlog|]. destruct r as [|[]|]; auto. now destruct (Hrel e).
Qed.

Lemma open_spec g primary backup w sc ops :
  Wal.scan primary 0 w = Ok sc -> Forall2 logged (Wal.entries sc) ops -> Forall wf_op ops ->
  match spec_run ops meta_init with
  | Ok m => exists s : MetaStore D DB, open g primary backup w = Ok s /\ refines s m /\
      ms_replicator s = MetaReplicator_new g primary backup /\
      ms_wal_base_offset s = 0 /\ ms_wal_cursor s = Wal.resume_at sc
  | Err x => open (DB := DB) g primary backup w = Err (InvalidOp x)
  | Panic => False
  end.
Proof.
  intros Es Hl Hw. destruct (open_replay g primary backup w sc Es) as (s0 & Hr0 & H1 & H2 & H3 & Eo).
  destruct (replay (Wal.entries sc) s0) as [s1 r1] eqn:Er.
  destruct (replay_logged primary w sc _ ops s0 s1 r1 Es ltac:(reflexivity) Hl Hw Hr0 Er) as [Hlog Hout].
  destruct r1 as [[]|[| | | |x]|]; simpl in *; try contradiction.
  - destruct Hout as (m' & -> & Hr'). exists s1. destruct Hlog as (-> & -> & ->). auto.
  - now rewrite Hout.
Qed.

Lemma replay_app l1 l2 s :
  replay (l1 ++ l2) s = let '(s1, r) := replay l1 s in
    match r with Ok _ => replay l2 s1 | Err e => (s1, Err e) | Panic => (s1, Panic) end.
Proof.
  revert s. induction l1 as [|p l1 IH]; intros s; [reflexivity|]. cbn [app replay]. unfold io_bind, io_lift.
  destruct (unwrap (decode_op p)) as [op| |]; [|reflexivity..]. destruct (apply_locally op s) as [s1 [[]|e|]]; [apply IH|reflexivity..].
Qed.

(** A log with a frame that does not decode. *)
Lemma open_undecodable g primary backup w sc ps bad l ops m :
  Wal.scan primary 0 w = Ok sc -> Wal.entries sc = ps ++ bad :: l -> Forall2 logged ps ops -> Forall wf_op ops ->
  spec_run ops meta_init = Ok m -> decode_op bad = None ->
  open (DB := DB) g primary backup w = Panic.
Proof.
  intros Es Een Hl Hw Hm Hbad. destruct (open_replay g primary backup w sc Es) as (s0 & Hr0 & _ & _ & _ & ->).
  rewrite Een, replay_app. destruct (replay ps s0) as [s1 r1] eqn:Er.
  destruct (replay_logged primary w sc ps ops s0 s1 r1 Es ltac:(rewrite Een; now apply prefix_app_r) Hl Hw Hr0 Er) as [_ Hout].
  destruct r1 as [[]|[| | | |x]|]; try contradiction; [|congruence].
  cbn [replay]. unfold io_bind, io_lift. now rewrite Hbad.
Qed.

(** ** The log on a disk *)

(** The log region of [d] starts with the frames of [ps]; unless a write
    failed, only zeros follow. *)
Definition log_on (d : D) w (ps : list (list byte)) (torn : bool) : Prop :=
  file_has (contents d w) 0 (wal_bytes ps) /\
  (torn = false -> forall i, Zlen (wal_bytes ps) <= i < WAL_CAPACITY_BYTES -> byte_at (contents d w) i = x00).

Lemma log_on_torn d w ps torn : log_on d w ps torn -> log_on d w ps true.
Proof. intros [? ?]. split; [assumption|discriminate]. Qed.

Lemma log_on_eq d w w' ps torn : contents d w' = contents d w -> log_on d w ps torn -> log_on d w' ps torn.
Proof. unfold log_on. now intros ->. Qed.

Lemma wal_bytes_snoc ps p : wal_bytes (ps ++ [p]) = wal_bytes ps ++ frame p.
Proof. apply (enc_log_snoc wal_format). Qed.

(** Writing the next frame at the end of the log. *)
Lemma log_on_append d w w' ps p torn out :
  write_and_sync d (Zlen (wal_bytes ps)) (frame p) w = (w', out) -> log_on d w ps torn ->
  log_on d w' ps true /\ (out = Ok tt -> log_on d w' (ps ++ [p]) torn).
Proof.
  intros E [Hs Hz]. apply write_and_sync_spec in E as (_ & Hc & Hk & _ & Hf).
  pose proof (Zlen_nonneg (wal_bytes ps)). split; [split; [apply Hk; auto; lia|discriminate]|].
  intros Ho. specialize (Hc Ho). unfold log_on. rewrite wal_bytes_snoc, Zlen_app, Hc. split.
  - apply file_has_app; [lia|]. split; [apply file_has_write_keep; [lia|exact Hs]|apply file_has_write].
  - intros Ht i Hi. pose proof (Zlen_nonneg (frame p)).
    rewrite byte_at_write, decide_False by lia. apply Hz; [exact Ht|lia].
Qed.

(** Primary and backup are different disks. *)
Definition distinct (r : MetaReplicator D) : Prop :=
  forall b, mr_backup_disk r = Some b ->
    ~ same_disk b (mr_primary_disk r) /\ ~ same_disk (mr_primary_disk r) b.

Lemma commit_log r w w' ps p out torn :
  commit r (frame p) (Zlen (wal_bytes ps)) w = (w', out) -> distinct r ->
  log_on (mr_primary_disk r) w ps torn ->
  match out with
  | Err (PrimaryUnavailable _) => log_on (mr_primary_disk r) w' ps true
  | Panic => False
  | _ => log_on (mr_primary_disk r) w' (ps ++ [p]) torn
  end /\
  forall b, mr_backup_disk r = Some b -> log_on b w ps torn ->
    match out with
    | Ok _ => log_on b w' (ps ++ [p]) torn
    | Err (PrimaryUnavailable _) => log_on b w' ps torn
    | _ => log_on b w' ps true
    end.
Proof.
  intros E Hd Hp. apply commit_outcome in E as [(e & -> & E)|(w1 & E1 & E2)].
  - pose proof (log_on_append _ _ _ _ _ _ _ E Hp) as [Ht _]. split; [exact Ht|].
    intros b Hb. apply log_on_eq. apply write_and_sync_spec in E as (_ & _ & _ & Ho & _).
    apply Ho. now apply Hd.
  - pose proof (log_on_append _ _ _ _ _ _ _ E1 Hp) as [_ Hk]. specialize (Hk eq_refl).
    destruct (mr_backup_disk r) as [b|] eqn:Eb.
    + destruct (Hd b Eb) as [Hd1 Hd2].
      assert (Hb1 : forall ps torn, log_on b w ps torn -> log_on b w1 ps torn).
      { intros ? ?. apply log_on_eq. apply write_and_sync_spec in E1 as (_ & _ & _ & Ho & _). now apply Ho. }
      destruct E2 as [[-> E2]|(e & -> & E2)]; (split;
        [eapply log_on_eq; [|exact Hk]; apply write_and_sync_spec in E2 as (_ & _ & _ & Ho & _); now apply Ho|]);
        intros b' [= <-] Hb; destruct (log_on_append _ _ _ _ _ _ _ E2 (Hb1 _ _ Hb)) as [Ht Hok]; auto.
    + destruct E2 as [-> ->]. split; [exact Hk|discriminate].
Qed.

(** ** The store and its log *)

(** The store [s] in world [w] has logged [ps], the payloads of [ops], and
    holds the state those operations give. *)
Record store_inv w s (ps : list (list byte)) (ops : list MetaOp) (torn : bool) : Prop := {
  si_base : ms_wal_base_offset s = 0;
  si_cursor : ms_wal_cursor s = Zlen (wal_bytes ps);
  si_fits : Zlen (wal_bytes ps) <= WAL_CAPACITY_BYTES;
  si_logged : Forall2 logged ps ops;
  si_wf : Forall wf_op ops;
  si_log : log_on (mr_primary_disk (ms_replicator s)) w ps torn;
  si_distinct : distinct (ms_replicator s);
  si_state : exists m, spec_run ops meta_init = Ok m /\ refines s m;
}.

Lemma small_payloads ps : Zlen (wal_bytes ps) <= WAL_CAPACITY_BYTES -> Forall (fun p => u32 (Zlen p)) ps.
Proof.
  assert (WAL_CAPACITY_BYTES < 2 ^ 32) by reflexivity.
  induction ps as [|p ps IH]; [constructor|]. rewrite wal_bytes_cons. intros Hc.
  pose proof (Zlen_nonneg p). pose proof (Zlen_nonneg (wal_bytes ps)).
  constructor; [split; lia|]. apply IH. lia.
Qed.

Lemma store_inv_wf w s ps ops torn m :
  store_inv w s ps ops torn -> spec_run ops meta_init = Ok m -> wf_meta (total_weight ops) m /\
    total_weight ops <= WAL_CAPACITY_BYTES.
Proof.
  intros Hi E. pose proof (logged_total _ _ (si_logged _ _ _ _ _ Hi)).
  pose proof (si_fits _ _ _ _ _ Hi). assert (WAL_CAPACITY_BYTES < 2 ^ 32) by reflexivity.
  pose proof (si_wf _ _ _ _ _ Hi).
  split; [|lia]. apply (wf_spec_run 0 ops meta_init); auto using wf_meta_init; lia.
Qed.

(** The end of [apply]: the operation is in the log, apply it. *)
Lemma apply_finish w s1 ps ops torn op p s' out :
  logged p op -> Forall2 logged ps ops -> Forall wf_op ops -> wf_op op ->
  Zlen (wal_bytes (ps ++ [p])) <= WAL_CAPACITY_BYTES ->
  (exists m, spec_run ops meta_init = Ok m /\ refines s1 m /\ wf_meta (total_weight ops) m) ->
  ms_wal_base_offset s1 = 0 -> ms_wal_cursor s1 = Zlen (wal_bytes (ps ++ [p])) ->
  distinct (ms_replicator s1) -> log_on (mr_primary_disk (ms_replicator s1)) w (ps ++ [p]) torn ->
  apply_locally op s1 = (s', out) ->
  ms_replicator s' = ms_replicator s1 /\
  match out with
  | Ok _ => store_inv w s' (ps ++ [p]) (ops ++ [op]) torn
  | Err (InvalidOp x) => spec_run (ops ++ [op]) meta_init = Err x
  | _ => False
  end.
Proof.
  intros Hlg Hlgs Hwfs Hop Hfit (m & Hm & Hr & Hw) Hb Hc Hd Hlog E.
  pose proof (fun e => apply_locally_reliable op s1 e) as Hrel. rewrite E in Hrel.
  destruct (apply_locally_spec _ _ _ _ _ _ Hr Hw Hop E) as [(Erep & Ebase & Ecur) Hout].
  split; [exact Erep|]. destruct out as [[]|[| | | |x]|]; simpl in *; try contradiction.
  - destruct Hout as (m' & Hm' & Hr'). constructor; rewrite ?Erep, ?Ebase, ?Ecur; auto.
    + apply Forall2_app; auto.
    + apply Forall_app; auto.
    + exists m'. split; [|exact Hr']. rewrite (spec_run_snoc _ _ _ m); auto.
  - now destruct (Hrel e).
  - destruct Hout as [Hout _]. rewrite (spec_run_snoc _ _ _ m); auto.
Qed.

(** The two stages of [apply]: the commit, and what follows it. *)
Lemma apply_stages `{!HashIter} w s op w' s' out :
  ms_wal_base_offset s = 0 -> 0 <= ms_wal_cursor s -> ms_wal_cursor s + Zlen (frame (encode_op op)) < 2 ^ 64 ->
  apply op (w, s) = ((w', s'), out) ->
  let c' := ms_wal_cursor s + Zlen (frame (encode_op op)) in
  exists rc, commit (ms_replicator s) (frame (encode_op op)) (ms_wal_cursor s) w = (w', rc) /\
    match rc with
    | Ok _ => apply_locally op (set_wal_cursor c' s) = (s', out)
    | Err (BackupUnavailable _) =>
        apply_locally op (set_wal_cursor c' (set_replicator (fence_backup (ms_replicator s)) s)) = (s', out)
    | Err (PrimaryUnavailable e) => s' = s /\ out = Err (CommitErr (PrimaryUnavailable e))
    | Panic => False
    end.
Proof.
  intros Hb Hc Hlt E c'. pose proof (Zlen_nonneg (frame (encode_op op))).
  unfold apply, io_bind, io_self, io_set_self, io_on_self, build_frame in E. cbn [fst snd] in E.
  rewrite Hb, Z.add_0_l in E. unfold as_u64 in E. rewrite (wrap_small 64 (ms_wal_cursor s)) in E by (unfold fits; lia).
  destruct (commit _ _ _ w) as [w1 rc] eqn:Ec. pose proof Ec as Hnp. apply commit_outcome in Hnp.
  destruct rc as [[]|[e|e]|]; cbn [fst snd] in E.
  - rewrite wrap_small in E by (unfold fits; lia). fold c' in E. destruct (apply_locally _ _) as [s2 r2] eqn:El.
    injection E as <- <- <-. eexists. split; reflexivity.
  - cbn [ms_wal_cursor set_replicator] in E. rewrite wrap_small in E by (unfold fits; lia). fold c' in E.
    destruct (apply_locally _ _) as [s2 r2] eqn:El. injection E as <- <- <-. eexists. split; reflexivity.
  - injection E as <- <- <-. eexists. split; [reflexivity|now split].
  - exfalso. destruct Hnp as [(e & ? & _)|(w2 & _ & E2)]; [discriminate|].
    destruct (mr_backup_disk _); [|now destruct E2]. destruct E2 as [[? _]|(e & ? & _)]; discriminate.
Qed.

(** [apply], by outcome. *)
Lemma apply_spec `{!HashIter} w s ps ops torn op w' s' out :
  store_inv w s ps ops torn -> wf_op op ->
  Zlen (wal_bytes ps) + Zlen (frame (encode_op op)) <= WAL_CAPACITY_BYTES ->
  apply op (w, s) = ((w', s'), out) ->
  mr_primary_disk (ms_replicator s') = mr_primary_disk (ms_replicator s) /\
  match out with
  | Ok _ => store_inv w' s' (ps ++ [encode_op op]) (ops ++ [op]) torn
  | Err (CommitErr _) => s' = s /\ store_inv w' s ps ops true
  | Err (InvalidOp x) => spec_run (ops ++ [op]) meta_init = Err x /\
      log_on (mr_primary_disk (ms_replicator s)) w' (ps ++ [encode_op op]) torn
  | _ => False
  end.
Proof.
  intros Hi Hop Hfit E. pose proof Hi as [Hb Hc Hf Hlg Hwf Hlog Hdist (m & Hm & Hr)].
  destruct (store_inv_wf _ _ _ _ _ _ Hi Hm) as [Hwm _].
  assert (Hcap : WAL_CAPACITY_BYTES < 2 ^ 64) by reflexivity. pose proof (Zlen_nonneg (wal_bytes ps)).
  pose proof (Zlen_nonneg (frame (encode_op op))) as Hfr. assert (H64 : ms_wal_cursor s + Zlen (frame (encode_op op)) < 2 ^ 64) by lia.
  destruct (apply_stages _ _ _ _ _ _ Hb ltac:(rewrite Hc; assumption) H64 E) as (rc & Ec & Hrc). rewrite Hc in Ec, Hrc.
  destruct (commit_log _ _ _ _ _ _ _ Ec Hdist Hlog) as [Hl _].
  assert (Hsn : Zlen (wal_bytes (ps ++ [encode_op op])) = Zlen (wal_bytes ps) + Zlen (frame (encode_op op)))
    by now rewrite wal_bytes_snoc, Zlen_app.
  assert (Hlo : logged (encode_op op) op) by now eexists.
  destruct rc as [[]|[e|e]|]; [| | |destruct Hl]; rewrite <- ?Hsn in Hrc.
  - destruct (apply_finish w' (set_wal_cursor (Zlen (wal_bytes (ps ++ [encode_op op]))) s) ps ops torn op
      (encode_op op) s' out Hlo Hlg Hwf Hop ltac:(lia) (ex_intro _ m (conj Hm (conj Hr Hwm))) Hb eq_refl Hdist Hl Hrc) as [Er Hout].
    split; [now rewrite Er|]. destruct out as [|[]|]; auto; contradiction.
  - destruct (apply_finish w' (set_wal_cursor (Zlen (wal_bytes (ps ++ [encode_op op])))
      (set_replicator (fence_backup (ms_replicator s)) s)) ps ops torn op (encode_op op) s' out Hlo Hlg Hwf Hop
      ltac:(lia) (ex_intro _ m (conj Hm (conj Hr Hwm))) Hb eq_refl ltac:(intros ?; discriminate) Hl Hrc) as [Er Hout].
    split; [now rewrite Er|]. destruct out as [|[]|]; auto; contradiction.
  - destruct Hrc as [-> ->]. split; [reflexivity|]. split; [reflexivity|]. constructor; eauto.
Qed.

(** The backup follows the primary for as long as it is in the group. *)
Lemma apply_backup `{!HashIter} w s ps ops torn op w' s' out b :
  store_inv w s ps ops torn -> wf_op op -> mr_backup_disk (ms_replicator s) = Some b ->
  Zlen (wal_bytes ps) + Zlen (frame (encode_op op)) <= WAL_CAPACITY_BYTES ->
  log_on b w ps torn -> apply op (w, s) = ((w', s'), out) ->
  match out with
  | Err (CommitErr _) => log_on b w' ps torn
  | _ => mr_backup_disk (ms_replicator s') = None \/
      mr_backup_disk (ms_replicator s') = Some b /\ log_on b w' (ps ++ [encode_op op]) torn
  end.
Proof.
  intros Hi Hop Hbk Hfit Hb E. pose proof Hi as [Hbase Hc Hf _ _ Hlog Hdist (m & Hm & Hr)].
  destruct (store_inv_wf _ _ _ _ _ _ Hi Hm) as [Hwm _].
  assert (Hcap : WAL_CAPACITY_BYTES < 2 ^ 64) by reflexivity. pose proof (Zlen_nonneg (wal_bytes ps)).
  assert (H64 : ms_wal_cursor s + Zlen (frame (encode_op op)) < 2 ^ 64) by lia.
  destruct (apply_stages _ _ _ _ _ _ Hbase ltac:(rewrite Hc; assumption) H64 E) as (rc & Ec & Hrc). rewrite Hc in Ec, Hrc.
  destruct (commit_log _ _ _ _ _ _ _ Ec Hdist Hlog) as [Hp Hl]. specialize (Hl b Hbk Hb).
  assert (Hloc : forall s1 s2 r, refines s1 m -> apply_locally op s1 = (s2, r) ->
    ms_replicator s2 = ms_replicator s1 /\ forall e, r <> Err (CommitErr e)).
  { intros s1 s2 r Hr1 E1. destruct (apply_locally_spec _ _ _ _ _ _ Hr1 Hwm Hop E1) as [[-> _] Ho].
    split; [reflexivity|]. intros e ->. exact Ho. }
  destruct rc as [[]|[e|e]|]; [| | |destruct Hp].
  - apply Hloc in Hrc as [Er Hne]; [|exact Hr]. rewrite Er.
    destruct out as [|[]|]; cbn [set_wal_cursor ms_replicator]; eauto; now destruct (Hne _ eq_refl).
  - apply Hloc in Hrc as [Er Hne]; [|exact Hr]. rewrite Er.
    destruct out as [|[]|]; cbn [set_wal_cursor set_replicator ms_replicator fence_backup mr_backup_disk]; eauto; now destruct (Hne _ eq_refl).
  - now destruct Hrc as [_ ->].
Qed.

(** ** The life of a store *)
Record store_state := {
  st_world : W;
  st_store : MetaStore D DB;
  st_ops : list MetaOp; (* ghost: the operations acknowledged or recovered *)
  st_torn : bool; (* ghost: a commit to the primary has failed *)
}.

(** Within a process: applies that succeed, and applies whose commit to the
    primary fails. *)
Inductive session_step : store_state -> store_state -> Prop :=
  | step_apply (HI : HashIter) w s ops torn op w' s' :
      wf_op op -> ms_wal_cursor s + Zlen (frame (encode_op op)) <= WAL_CAPACITY_BYTES ->
      apply op (w, s) = ((w', s'), Ok tt) ->
      session_step {| st_world := w; st_store := s; st_ops := ops; st_torn := torn |}
        {| st_world := w'; st_store := s'; st_ops := ops ++ [op]; st_torn := torn |}
  | step_apply_fails (HI : HashIter) w s ops torn op w' s' e :
      wf_op op -> ms_wal_cursor s + Zlen (frame (encode_op op)) <= WAL_CAPACITY_BYTES ->
      apply op (w, s) = ((w', s'), Err (CommitErr e)) ->
      session_step {| st_world := w; st_store := s; st_ops := ops; st_torn := torn |}
        {| st_world := w'; st_store := s'; st_ops := ops; st_torn := true |}.

(** Across processes: a crash at any point, then [open] on the same primary.
    What the scan accepts after a torn write is assumed to be frames of
    operations (no checksum collision). *)
Inductive store_step (primary : D) : store_state -> store_state -> Prop :=
  | step_session st st' : session_step st st' -> store_step primary st st'
  | step_reopen g backup w s ops torn s' sc ops' :
      readable primary w -> distinct (MetaReplicator_new g primary backup) ->
      open g primary backup w = Ok s' ->
      Wal.scan primary 0 w = Ok sc -> Forall2 logged (Wal.entries sc) ops' -> Forall wf_op ops' ->
      store_step primary {| st_world := w; st_store := s; st_ops := ops; st_torn := torn |}
        {| st_world := w; st_store := s'; st_ops := ops'; st_torn := torn |}.

(** The invariant of a life on [primary]. *)
Definition life_inv (primary : D) (st : store_state) : Prop :=
  mr_primary_disk (ms_replicator (st_store st)) = primary /\
  exists ps, store_inv (st_world st) (st_store st) ps (st_ops st) (st_torn st).

Lemma logged_fun ps ops ops' :
  Forall2 logged ps ops -> Forall wf_op ops -> Forall2 logged ps ops' -> Forall wf_op ops' -> ops = ops'.
Proof.
  intros Hl. revert ops'. induction Hl as [|p op ps ops Hp Hl IH]; intros ops' Hw Hl' Hw'.
  - now apply Forall2_nil_inv_l in Hl'.
  - apply Forall2_cons_inv_l in Hl' as (op' & ops1 & Hp' & Hl' & ->).
    apply Forall_cons_1 in Hw as [Ho Hw], Hw' as [Ho' Hw'].
    apply logged_decode in Hp, Hp'; auto. f_equal; [congruence|auto].
Qed.

Lemma session_step_inv primary st st' :
  life_inv primary st -> session_step st st' ->
  life_inv primary st' /\ st_ops st `prefix_of` st_ops st'.
Proof.
  intros [Hpr [ps Hi]] Hs. destruct Hs as [HI w s ops torn op w' s' Hop Hroom E|HI w s ops torn op w' s' e Hop Hroom E];
    simpl in *; rewrite (si_cursor _ _ _ _ _ Hi) in Hroom;
    destruct (apply_spec _ _ _ _ _ _ _ _ _ Hi Hop Hroom E) as [Ep Hout].
  - split; [|now apply prefix_app_r]. split; simpl; [congruence|]. eauto.
  - destruct Hout as [-> Hi']. split; [|reflexivity]. split; simpl; eauto.
Qed.

(** What the scan of the primary finds at any point of its life. *)
Lemma life_scan primary st :
  life_inv primary st -> readable primary (st_world st) ->
  exists ps sc, Wal.scan primary 0 (st_world st) = Ok sc /\ ps `prefix_of` Wal.entries sc /\
    Forall2 logged ps (st_ops st) /\ Forall wf_op (st_ops st) /\
    Wal.resume_at sc = Zlen (wal_bytes (Wal.entries sc)) /\ Wal.resume_at sc <= WAL_CAPACITY_BYTES /\
    log_on primary (st_world st) (Wal.entries sc) (st_torn st) /\
    (st_torn st = false -> Wal.entries sc = ps).
Proof.
  intros [Hpr [ps [Hb Hc Hf Hlg Hwf [Hst Hz] Hd _]]] Hr. rewrite Hpr in *. exists ps.
  destruct (wal_scan_stored primary 0 (st_world st) ps wf_base_0 Hr (small_payloads _ Hf) Hf Hst)
    as (sc & E & Hp & Hra & Hle & _ & Hhas).
  exists sc. split_and!; auto.
  - split; [exact Hhas|]. intros Ht i Hi. apply Hz; [exact Ht|]. split; [|lia].
    destruct Hp as [k Hk]. rewrite Hk, enc_log_app, Zlen_app in Hi.
    pose proof (Zlen_nonneg (wal_bytes k)). lia.
  - intros Ht. rewrite (wal_scan_exact primary 0 (st_world st) ps wf_base_0 Hr (small_payloads _ Hf) Hf Hst) in E.
    + now injection E as <-.
    + intros i Hi. apply Hz; [exact Ht|lia].
Qed.

(** Opening on a log of operations that the specification accepts. *)
Lemma open_inv g primary backup w sc ops m torn :
  Wal.scan primary 0 w = Ok sc -> Forall2 logged (Wal.entries sc) ops -> Forall wf_op ops ->
  Wal.resume_at sc = Zlen (wal_bytes (Wal.entries sc)) -> Wal.resume_at sc <= WAL_CAPACITY_BYTES ->
  log_on primary w (Wal.entries sc) torn -> distinct (MetaReplicator_new g primary backup) ->
  spec_run ops meta_init = Ok m ->
  exists s : MetaStore D DB, open g primary backup w = Ok s /\ refines s m /\
    mr_primary_disk (ms_replicator s) = primary /\ store_inv w s (Wal.entries sc) ops torn.
Proof.
  intros Es Hl Hw Hra Hle Hlog Hd Hm. pose proof (open_spec g primary backup w sc ops Es Hl Hw) as Ho.
  rewrite Hm in Ho. destruct Ho as (s & E & Hr & Er & Eb & Ec). exists s.
  split; [exact E|]. split; [exact Hr|]. split; [now rewrite Er|].
  constructor; rewrite ?Er, ?Ec; eauto. lia.
Qed.

Lemma store_step_inv primary st st' :
  life_inv primary st -> store_step primary st st' ->
  life_inv primary st' /\ st_ops st `prefix_of` st_ops st'.
Proof.
  intros Hi Hs. destruct Hs as [st st' Hs|g backup w s ops torn s' sc ops' Hr Hd E Es Hl Hw].
  - now apply session_step_inv.
  - destruct (life_scan _ _ Hi Hr) as (ps & sc' & Es' & [k Hk] & Hlg & Hwf & Hra & Hle & Hlog & _).
    simpl in *. rewrite Es in Es'. injection Es' as <-. split.
    + pose proof (open_spec g primary backup w sc ops' Es Hl Hw) as Ho.
      destruct (spec_run ops' meta_init) as [m|x|] eqn:Em; [|congruence|contradiction].
      destruct (open_inv g primary backup w sc ops' m torn) as (s2 & E2 & _ & Ep & Hi2); auto.
      rewrite E in E2. injection E2 as <-. split; simpl; eauto.
    + rewrite Hk in Hl. apply Forall2_app_inv_l in Hl as (o1 & o2 & H1 & H2 & ->).
      apply Forall_app in Hw as [Hw1 _]. rewrite (logged_fun ps ops o1); auto. now apply prefix_app_r.
Qed.

Lemma store_steps_inv primary st st' :
  life_inv primary st -> rtc (store_step primary) st st' ->
  life_inv primary st' /\ st_ops st `prefix_of` st_ops st'.
Proof.
  intros Hi Hs. induction Hs as [|st st1 st' Hs1 _ IH]; [auto|].
  destruct (store_step_inv _ _ _ Hi Hs1) as [Hi1 Hp1]. destruct (IH Hi1) as [Hi' Hp'].
  split; [exact Hi'|]. now transitivity (st_ops st1).
Qed.

(** A fresh log region. *)
Definition fresh_log (d : D) w : Prop :=
  forall i, 0 <= i < WAL_CAPACITY_BYTES -> byte_at (contents d w) i = x00.

(** The first opening, on a fresh primary. *)
Definition first_open g primary backup w s : Prop :=
  fresh_log primary w /\ readable primary w /\ distinct (MetaReplicator_new g primary backup) /\
  open g primary backup w = Ok s.

Lemma fresh_log_on d w : fresh_log d w -> log_on d w [] false.
Proof. intros Hf. split; [apply file_has_nil|]. intros _ i Hi. apply Hf. exact Hi. Qed.

Lemma first_open_inv g primary backup w s :
  first_open g primary backup w s ->
  life_inv primary {| st_world := w; st_store := s; st_ops := []; st_torn := false |} /\
  store_inv w s [] [] false /\ ms_replicator s = MetaReplicator_new g primary backup.
Proof.
  intros (Hf & Hr & Hd & E). apply fresh_log_on in Hf as Hl. destruct Hl as [Hst Hz].
  assert (Hcap : Zlen (wal_bytes []) <= WAL_CAPACITY_BYTES) by discriminate.
  pose proof (wal_scan_exact primary 0 w [] wf_base_0 Hr (Forall_nil_2 _) Hcap Hst
    (Hz eq_refl)) as Es.
  destruct (open_inv g primary backup w _ [] meta_init false Es) as (s' & E' & _ & Ep & Hi);
    [constructor|constructor|reflexivity|discriminate|now split|exact Hd|reflexivity|].
  rewrite E in E'. injection E' as <-.
  split; [split; simpl; eauto|]. split; [exact Hi|].
  pose proof (open_spec g primary backup w _ [] Es ltac:(constructor) ltac:(constructor)) as Ho.
  simpl in Ho. destruct Ho as (s' & E' & _ & Er & _). rewrite E in E'. now injection E' as <-.
Qed.



(** C33: a rejected operation makes the store unopenable.  [apply] logs an
    operation before it checks it; if the check then rejects it, every later
    [open] of the primary fails with the same error. *)
Theorem rejected_op_blocks_open `{!HashIter} g primary backup w0 s0 st op w' s' x g' backup' :
  first_open g primary backup w0 s0 ->
  rtc (store_step primary) {| st_world := w0; st_store := s0; st_ops := []; st_torn := false |} st ->
  st_torn st = false -> wf_op op ->
  ms_wal_cursor (st_store st) + Zlen (frame (encode_op op)) <= WAL_CAPACITY_BYTES ->
  apply op (st_world st, st_store st) = ((w', s'), Err (InvalidOp x)) ->
  readable primary w' ->
  open (DB := DB) g' primary backup' w' = Err (InvalidOp x).
Proof.
  intros Hf H1 Ht Hop Hroom E Hr. destruct (first_open_inv _ _ _ _ _ Hf) as [Hi _].
  destruct (store_steps_inv _ _ _ Hi H1) as [[Ep [ps Hi1]] _].
  rewrite (si_cursor _ _ _ _ _ Hi1) in Hroom. rewrite Ht in Hi1.
  destruct (apply_spec _ _ _ _ _ _ _ _ _ Hi1 Hop Hroom E) as [_ [Hrun [Hst Hz]]]. rewrite Ep in *.
  assert (Hfit : Zlen (wal_bytes (ps ++ [encode_op op])) <= WAL_CAPACITY_BYTES) by now rewrite wal_bytes_snoc, Zlen_app.
  pose proof (wal_scan_exact primary 0 w' _ wf_base_0 Hr (small_payloads _ Hfit) Hfit Hst (Hz eq_refl)) as Es.
  pose proof (open_spec g' primary backup' w' _ (st_ops st ++ [op]) Es) as Ho. rewrite Hrun in Ho. apply Ho.
  - apply Forall2_app; [apply (si_logged _ _ _ _ _ Hi1)|]. constructor; [now eexists|constructor].
  - apply Forall_app; split; [apply (si_wf _ _ _ _ _ Hi1)|auto].
Qed.

(** The backup, if it is still in the group, holds the same log. *)
Definition in_sync (b : D) (st : store_state) : Prop :=
  exists ps, store_inv (st_world st) (st_store st) ps (st_ops st) (st_torn st) /\
    (mr_backup_disk (ms_replicator (st_store st)) = None \/
     mr_backup_disk (ms_replicator (st_store st)) = Some b /\ log_on b (st_world st) ps (st_torn st)).

Lemma fenced_stays `{!HashIter} w s ps ops torn op w' s' out :
  store_inv w s ps ops torn -> wf_op op -> mr_backup_disk (ms_replicator s) = None ->
  apply op (w, s) = ((w', s'), out) -> mr_backup_disk (ms_replicator s') = None.
Proof.
  intros Hi Hop Hn E. pose proof Hi as [_ _ _ _ _ _ _ (m & Hm & Hr)].
  destruct (store_inv_wf _ _ _ _ _ _ Hi Hm) as [Hwm _].
  unfold apply, io_bind, io_self, io_set_self, io_on_self in E. cbn [fst snd] in E.
  destruct (commit _ _ _ w) as [w1 [[]|[e|e]|]]; cbn [fst snd] in E;
    try (now injection E as <- <- <-);
    destruct (apply_locally _ _) as [s2 r2] eqn:El; injection E as <- <- <-;
    (eapply apply_locally_spec in El; [destruct El as [[-> _] _]; auto|exact Hr|exact Hwm|exact Hop]).
Qed.

Lemma session_step_in_sync b st st' : in_sync b st -> session_step st st' -> in_sync b st'.
Proof.
  intros (ps & Hi & Hb) Hs. destruct Hs as [HI w s ops torn op w' s' Hop Hroom E|HI w s ops torn op w' s' e Hop Hroom E];
    simpl in *; rewrite (si_cursor _ _ _ _ _ Hi) in Hroom;
    destruct (apply_spec _ _ _ _ _ _ _ _ _ Hi Hop Hroom E) as [_ Hout].
  - exists (ps ++ [encode_op op]). split; [exact Hout|]. simpl. destruct Hb as [Hn|[Hs Hl]].
    + left. exact (fenced_stays _ _ _ _ _ _ _ _ _ Hi Hop Hn E).
    + apply (apply_backup _ _ _ _ _ _ _ _ _ _ Hi Hop Hs Hroom Hl E).
  - destruct Hout as [-> Hi']. exists ps. split; [exact Hi'|]. simpl. destruct Hb as [Hn|[Hs Hl]]; [auto|].
    right. split; [exact Hs|]. eapply log_on_torn. apply (apply_backup _ _ _ _ _ _ _ _ _ _ Hi Hop Hs Hroom Hl E).
Qed.

Lemma session_in_sync b st st' : in_sync b st -> rtc session_step st st' -> in_sync b st'.
Proof. intros Hi Hs. induction Hs; eauto using session_step_in_sync. Qed.

End Recovery.

(** ** Runs on two [FileDisk]s and the in-memory database *)
#[local] Instance demo_iter : HashIter := hash_iter_by_key.

Definition demo_w0 : os_world := two_disks ∅.
Definition dummy_store : MetaStore FileDisk tables := demo_store.
Definition get_ok {E A} (d : A) (r : result E A) : A := match r with Ok a => a | _ => d end.

Definition demo_s0 : MetaStore FileDisk tables :=
  get_ok dummy_store (open demo_group disk_a (Some disk_b) demo_w0).
Definition demo_create : MetaOp := CreateInode demo_inode.
Definition demo_ws1 : os_world * MetaStore FileDisk tables := (apply demo_create (demo_w0, demo_s0)).1.
Definition demo_begin : MetaOp := BeginConvert 2.
Definition demo_ws2 : os_world * MetaStore FileDisk tables := (apply demo_begin demo_ws1).1.

Definition demo_st0 : store_state (W := os_world) (D := FileDisk) (DB := tables) :=
  {| st_world := demo_w0; st_store := demo_s0; st_ops := []; st_torn := false |}.
Definition demo_st2 : store_state (W := os_world) (D := FileDisk) (DB := tables) :=
  {| st_world := demo_ws2.1; st_store := demo_ws2.2; st_ops := [demo_create; demo_begin]; st_torn := false |}.

Lemma demo_first_open : first_open demo_group disk_a (Some disk_b) demo_w0 demo_s0.
Proof.
  split; [|split; [apply FileDisk_readable|split]].
  - intros i _. reflexivity.
  - intros b [= <-]. split; discriminate.
  - vm_compute. reflexivity.
Qed.

Lemma demo_op_wf : wf_op demo_create /\ wf_op demo_begin.
Proof. split; apply (bool_decide_unpack _); vm_compute; exact I. Qed.

Lemma demo_session : rtc session_step demo_st0 demo_st2.
Proof.
  destruct demo_op_wf as [H1 H2].
  apply (rtc_l _ _ {| st_world := demo_ws1.1; st_store := demo_ws1.2; st_ops := [demo_create]; st_torn := false |}).
  - apply (step_apply demo_iter demo_w0 demo_s0 [] false demo_create); [exact H1|vm_compute; discriminate|].
    vm_compute. reflexivity.
  - apply rtc_once. apply (step_apply demo_iter demo_ws1.1 demo_ws1.2 [demo_create] false demo_begin);
      [exact H2|vm_compute; discriminate|]. vm_compute. reflexivity.
Qed.

Lemma demo_life : rtc (store_step disk_a) demo_st0 demo_st2.
Proof. refine (rtc_subrel _ _ _ _ _ demo_session). intros x y. apply step_session. Qed.



(** A second [BeginConvert] is rejected, and the store is lost. *)
Definition demo_rejected : os_world * MetaStore FileDisk tables :=
  (apply demo_begin (st_world demo_st2, st_store demo_st2)).1.

Lemma demo_rejects :
  apply demo_begin (st_world demo_st2, st_store demo_st2) =
    ((demo_rejected.1, demo_rejected.2), Err (InvalidOp BeginConvertTwice)).
Proof. vm_compute. reflexivity. Qed.

Lemma rejected_op_blocks_open_witness :
  open (DB := tables) demo_group disk_a None demo_rejected.1 = Err (InvalidOp BeginConvertTwice).
Proof.
  refine (rejected_op_blocks_open demo_group disk_a (Some disk_b) demo_w0 demo_s0 demo_st2 demo_begin
    demo_rejected.1 demo_rejected.2 BeginConvertTwice demo_group None
    demo_first_open demo_life eq_refl (proj2 demo_op_wf) _ demo_rejects (FileDisk_readable _ _)).
  vm_compute. discriminate.
Defined.


(** ** A backup that missed one operation

    The process dies after the primary's write and before the backup's; the
    next one opens both disks. *)
Definition gap_world : os_world := (write_and_sync disk_a 0 (frame (encode_op demo_create)) demo_w0).1.
Definition gap_store : MetaStore FileDisk tables :=
  get_ok dummy_store (open demo_group disk_a (Some disk_b) gap_world).
Definition gap_op : MetaOp := Link 1 [x66] 2.
Definition gap_ws : os_world * MetaStore FileDisk tables := (apply gap_op (gap_world, gap_store)).1.

