(* ===== verification/StoreTorn.v ===== *)
(** * Torn writes to the log

    A write to a [FileDisk] that fails leaves a prefix of its bytes, and a loss
    of power any part of what has not been synced.  A frame of the log of which
    a part is left is not found by the next scan, or it is found whole, unless
    what is left of it reads as another frame; which it does when the four
    bytes of the magic number are all that is left. *)

From Stdlib Require Import ZArith Lia.
From S2P Require Import Prelude Proto Crc32c Disk Framing Wal Codec Replicator Redb Store StoreSpec StoreRefine StoreRecovery.

#[local] Arguments contents : simpl never.
#[local] Arguments write_at : simpl never.
#[local] Arguments sync : simpl never.
#[local] Arguments Store.open : simpl never.
#[local] Opaque WAL_CAPACITY_BYTES.

Lemma Arc_FileDisk_readable (d : Arc FileDisk) w : readable d w.
Proof. exact (FileDisk_readable (deref d) w). Qed.

(** ** Writes cut short *)

(** The range at [c] of the file has taken the first [k] bytes of [bs]. *)
Definition cut_at (f f' : file) (c : Z) (bs : list byte) (k : nat) : Prop := f' = file_write f c (take k bs).

Lemma write_cut (d : Arc FileDisk) off bs w :
  exists k, cut_at (contents d w) (contents d (write_at d off bs w).1) off bs k.
Proof.
  change (write_at d off bs w) with (FileDisk_write_at (deref d) off bs w). unfold cut_at.
  change (contents d) with (fun w => file_at w (fd_path (deref d))). cbv beta.
  destruct (FileDisk_write_cases (deref d) off bs w) as [[-> ?]|[[e ->]|(fl & r & -> & _)]]; cbn [fst];
    [now exists 0%nat..|]. rewrite file_at_insert, decide_True by reflexivity. eauto.
Qed.

(** Of the bytes [bs] at [c] the log region has taken some. *)
Definition torn_byte (f : file) (c : Z) (bs : list byte) (i : Z) (b : byte) : Prop :=
  b = byte_at f i \/ c <= i < c + Zlen bs /\ bs !! Z.to_nat (i - c) = Some b.
Definition torn_at (f f' : file) (c : Z) (bs : list byte) : Prop :=
  forall i, 0 <= i < WAL_CAPACITY_BYTES -> torn_byte f c bs i (byte_at f' i).

Lemma cut_torn f f' c bs k i : cut_at f f' c bs k -> torn_byte f c bs i (byte_at f' i).
Proof.
  intros ->. unfold torn_byte. rewrite byte_at_write. case_decide as Hi; [|now left]. right.
  unfold Zlen in *. rewrite length_take in Hi. split; [lia|]. rewrite lookup_take_lt by lia.
  destruct (lookup_lt_is_Some_2 bs (Z.to_nat (i - c))) as [b Hb]; [lia|]. now rewrite Hb.
Qed.

(** A write and sync to a settled log, whatever its outcome, and then a loss
    of power. *)
Lemma write_and_sync_torn (d : Arc FileDisk) off bs w w' out w2 :
  settled d w 0 WAL_CAPACITY_BYTES -> write_and_sync d off bs w = (w', out) -> crashed w' w2 ->
  torn_at (contents d w) (contents d w2) off bs.
Proof.
  intros (_ & _ & Hs) E Hc i Hi. set (T := torn_byte (contents d w) off bs i).
  assert (H0 : T (byte_at (contents d w) i) /\ T (byte_at (durable d w) i)) by (rewrite Hs by exact Hi; split; now left).
  assert (Hmix : forall fs f, mixes fs f -> Forall (fun g => T (byte_at g i)) fs -> T (byte_at f i)).
  { intros fs f [_ Hm] Hf. specialize (Hm i). apply list_elem_of_fmap in Hm as (g & -> & Hg). rewrite Forall_forall in Hf. auto. }
  assert (H1 : T (byte_at (contents d w') i) /\ T (byte_at (durable d w') i)).
  { unfold write_and_sync, io_bind in E. destruct (write_cut d off bs w) as [k Hk].
    pose proof (cut_torn _ _ _ _ _ i Hk) as Hc1. pose proof (write_durable d d off bs w) as Hd1. cbv zeta in Hd1.
    destruct (write_at d off bs w) as [w1 r1]. cbn [fst] in *. destruct H0 as [H0 H0'].
    assert (Hd : T (byte_at (durable d w1) i)) by (apply (Hmix _ _ Hd1); repeat (constructor; [assumption|]); constructor).
    destruct r1 as [[]|e|]; [|now injection E as <- _..].
    pose proof (sync_contents d d w1) as Hs1. pose proof (sync_durable d d w1) as Hd2. destruct (sync d w1) as [w3 r3].
    injection E as <- _. cbn [fst] in *. rewrite Hs1. split; [exact Hc1|]. apply (Hmix _ _ Hd2). repeat (constructor; [assumption|]). constructor. }
  destruct (proj2 (crashed_settles _ _ d Hc) i) as [[-> _]|[[-> _]|[-> _]]]; apply H1.
Qed.

(** A frame [X] torn by a write at [c], after which nothing but zeros was
    there, reads as the frame of another payload [e]. *)
Definition misread (f' : file) (c : Z) (X : list byte) : Prop :=
  exists f e, torn_at f f' c (frame X) /\
    (forall i, c <= i < WAL_CAPACITY_BYTES -> byte_at f i = x00) /\ e <> X /\ file_has f' c (frame e).

Section Torn.
Implicit Types (w : os_world).

(** The frames of [ps] and zeros, as a scan sees them. *)
Lemma scan_log (d : Arc FileDisk) w ps :
  log_on d w ps false -> Zlen (wal_bytes ps) <= WAL_CAPACITY_BYTES ->
  Wal.scan d 0 w = Ok {| Wal.entries := ps; Wal.resume_at := Zlen (wal_bytes ps); Wal.corruption_at := None |}.
Proof.
  intros [Hlog Hz] Hfit. now apply wal_scan_exact; auto using wf_base_0, Arc_FileDisk_readable, small_payloads.
Qed.

(** What the log held before the torn frame is still there, and what followed
    it still zero. *)
Lemma torn_front (d : Arc FileDisk) w w' ps bs :
  log_on d w ps false -> Zlen (wal_bytes ps) <= WAL_CAPACITY_BYTES <= f_len (contents d w') ->
  torn_at (contents d w) (contents d w') (Zlen (wal_bytes ps)) bs -> file_has (contents d w') 0 (wal_bytes ps).
Proof.
  intros [Hs _] Hl Ht. eapply file_has_same; [|intros i Hi|exact Hs]; [lia|].
  destruct (Ht i) as [E|[? _]]; [lia|exact E|lia].
Qed.

Lemma torn_whole (d : Arc FileDisk) w w' ps p :
  log_on d w ps false -> Zlen (wal_bytes ps) <= WAL_CAPACITY_BYTES <= f_len (contents d w') ->
  torn_at (contents d w) (contents d w') (Zlen (wal_bytes ps)) (frame p) ->
  file_has (contents d w') (Zlen (wal_bytes ps)) (frame p) -> log_on d w' (ps ++ [p]) false.
Proof.
  intros Hlog Hl Ht Hf. pose proof (torn_front _ _ _ _ _ Hlog Hl Ht) as Hs. destruct Hlog as [_ Hz].
  pose proof (Zlen_nonneg (wal_bytes ps)). pose proof (Zlen_nonneg (frame p)). unfold log_on. rewrite wal_bytes_snoc, Zlen_app. split.
  - apply file_has_app; [lia|]. now split.
  - intros _ i Hi. destruct (Ht i) as [->|[? _]]; [lia| |lia]. apply Hz; [reflexivity|lia].
Qed.

(** What the scan finds after a frame has been torn. *)
Lemma scan_torn (d : Arc FileDisk) w w' ps p :
  log_on d w ps false -> Zlen (wal_bytes (ps ++ [p])) <= WAL_CAPACITY_BYTES <= f_len (contents d w') ->
  torn_at (contents d w) (contents d w') (Zlen (wal_bytes ps)) (frame p) ->
  (exists sc, Wal.scan d 0 w' = Ok sc /\ log_on d w' (Wal.entries sc) true /\
     (Wal.entries sc = ps \/ Wal.entries sc = ps ++ [p])) \/
  misread (contents d w') (Zlen (wal_bytes ps)) p.
Proof.
  intros Hlog [Hfit Hlen] Ht. pose proof (Zlen_nonneg (wal_bytes ps)). pose proof (Zlen_nonneg (frame p)).
  assert (Hfit0 : Zlen (wal_bytes ps) <= WAL_CAPACITY_BYTES) by (rewrite wal_bytes_snoc, Zlen_app in Hfit; lia).
  pose proof (torn_front _ _ _ _ _ Hlog (conj Hfit0 Hlen) Ht) as Hs'.
  destruct (wal_scan_stored d 0 w' ps wf_base_0 (Arc_FileDisk_readable d w') (small_payloads _ Hfit0) Hfit0 Hs')
    as (sc & Escan & [l Hl] & _ & _ & _ & Hhas).
  destruct l as [|e l]; [rewrite app_nil_r in Hl; left; exists sc; split_and!; [exact Escan| |now left]; split; [exact Hhas|discriminate]|].
  rewrite Hl in Hhas. replace (ps ++ e :: l) with ((ps ++ [e]) ++ l) in Hhas by now rewrite <- app_assoc.
  rewrite (enc_log_app wal_format), wal_bytes_snoc, <- app_assoc in Hhas.
  apply file_has_app in Hhas as [_ Hhas]; [|lia]. apply file_has_app in Hhas as [Hhas _]; [|lia]. rewrite Z.add_0_l in Hhas.
  destruct (decide (e = p)) as [->|Hne]; [left|right].
  - pose proof (torn_whole _ _ _ _ _ Hlog (conj Hfit0 Hlen) Ht Hhas) as Hlog'. eexists.
    split; [exact (scan_log _ _ _ Hlog' Hfit)|]. split; [exact (log_on_torn _ _ _ _ Hlog')|now right].
  - exists (contents d w), e. split_and!; auto. destruct Hlog as [_ Hz]. auto.
Qed.

(** A scan sees the file, not the handle. *)
Lemma scan_same_file (d d' : Arc FileDisk) w : same_disk d d' -> Wal.scan d 0 w = Wal.scan d' 0 w.
Proof.
  intros Hs. apply same_file in Hs.
  assert (Hl : forall st, Wal.scan_loop d 0 w st = Wal.scan_loop d' 0 w st).
  { intros [c es]. unfold Wal.scan_loop. cbn [read_at Arc_Disk FileDisk_Disk]. unfold FileDisk_read_at. now rewrite Hs. }
  unfold Wal.scan. f_equal. rewrite !loop_pos_nat. generalize (0, @nil (list byte)) as st.
  induction (Pos.to_nat _) as [|n IH]; intros st; [reflexivity|]. cbn [loop_nat]. rewrite Hl.
  destruct (Wal.scan_loop d' 0 w st); [apply IH|reflexivity].
Qed.

(** A frame of which only the magic number is left: the zeros after it read as
    an empty frame, whose checksum is right. *)
Lemma frame_nil : frame [] = to_le 4 WAL_MAGIC ++ replicate 8 x00.
Proof. vm_compute. reflexivity. Qed.

Lemma cut_magic (d : Arc FileDisk) w w' ps p :
  log_on d w ps false -> Zlen (wal_bytes ps) + 12 <= WAL_CAPACITY_BYTES -> WAL_CAPACITY_BYTES <= f_len (contents d w) ->
  cut_at (contents d w) (contents d w') (Zlen (wal_bytes ps)) (frame p) 4 -> log_on d w' (ps ++ [[]]) false.
Proof.
  intros Hlog Hfit Hlen Hc. pose proof Hlog as [_ Hz]. pose proof (Zlen_nonneg (wal_bytes ps)).
  set (c := Zlen (wal_bytes ps)) in *. set (f := contents d w) in *.
  assert (Hcut : contents d w' = file_write f c (to_le 4 WAL_MAGIC)).
  { unfold cut_at in Hc. rewrite Hc. reflexivity. }
  apply (torn_whole d w w' ps [] Hlog).
  - fold c. split; [lia|]. rewrite Hcut. pose proof (proj1 (f_len_write f c (to_le 4 WAL_MAGIC))). unfold f in *. lia.
  - intros i _. exact (cut_torn f _ c (frame []) 4 i Hcut).
  - fold c. rewrite Hcut, frame_nil. apply file_has_app; [lia|]. split; [apply file_has_write|].
    assert (Hm : Zlen (to_le 4 WAL_MAGIC) = 4) by reflexivity. rewrite Hm. apply file_has_bytes. unfold Zlen. rewrite length_replicate.
    split; [right; pose proof (proj1 (f_len_write f c (to_le 4 WAL_MAGIC))); lia|].
    apply get_bytes_zero. intros i Hi. rewrite byte_at_write, Hm, decide_False by lia. apply Hz; [reflexivity|]. fold c. lia.
Qed.
End Torn.

Section Store.
Context {DB : Type} `{!Redb DB} `{!RedbLaws DB} `{!RedbReliable DB}.

(** Every opening of such a log panics. *)
Lemma magic_only_blocks_open (s : MetaStore (Arc FileDisk) DB) w w' ps ops p g d backup :
  store_inv w s ps ops false -> Zlen (wal_bytes ps) + 12 <= WAL_CAPACITY_BYTES ->
  WAL_CAPACITY_BYTES <= f_len (contents (mr_primary_disk (ms_replicator s)) w) ->
  cut_at (contents (mr_primary_disk (ms_replicator s)) w) (contents (mr_primary_disk (ms_replicator s)) w') (ms_wal_cursor s) (frame p) 4 ->
  same_disk (mr_primary_disk (ms_replicator s)) d -> Store.open (DB := DB) g d backup w' = Panic.
Proof.
  intros [_ Hc Hfit Hlg Hwf Hlog _ (m & Hm & _)] Hroom Hlen Hcut Hs. rewrite Hc in Hcut.
  pose proof (cut_magic _ _ _ _ _ Hlog Hroom Hlen Hcut) as Hlog'.
  assert (Hfit' : Zlen (wal_bytes (ps ++ [[]])) <= WAL_CAPACITY_BYTES).
  { rewrite wal_bytes_snoc, Zlen_app, Zlen_frame. change (Zlen (@nil byte)) with 0. lia. }
  pose proof (scan_log _ _ _ Hlog' Hfit') as Hsc. rewrite (scan_same_file _ _ _ Hs) in Hsc.
  eapply open_undecodable; eauto; reflexivity.
Qed.
End Store.
