(* ===== verification/StoreReads.v ===== *)
(** * Reading the metadata store

    [get_inode], [lookup] and [readdir] against the abstract state, and the
    freshness of allocated inode ids. *)

From Stdlib Require Import ZArith Lia.
From stdpp Require Import sorting.
From S2P Require Import Prelude Proto Disk Codec Replicator Redb Store StoreSpec StoreRefine.

(** Between a prefix and one of its extensions in key order there are only
    extensions of the prefix. *)
Lemma key_between P a y : key_le P a = true -> key_le a (P ++ y) = true -> exists x, a = P ++ x.
Proof.
  revert a. induction P as [|p P IH]; intros a H1 H2; [now exists a|].
  destruct a as [|z a]; [discriminate|]. simpl in *.
  destruct (Z.eqb_spec (Z_of_byte p) (Z_of_byte z)) as [E|E].
  - rewrite E, Z.eqb_refl in H2. destruct (IH a H1 H2) as [x ->]. exists x. simpl. f_equal.
    rewrite <- (byte_of_Z_of_byte p), E. symmetry. apply byte_of_Z_of_byte.
  - destruct (Z.eqb_spec (Z_of_byte z) (Z_of_byte p)); [congruence|].
    apply Z.ltb_lt in H1, H2. lia.
Qed.

Lemma starts_with (P k : list byte) : length P = 8%nat -> (take 8 k = P <-> exists x, k = P ++ x).
Proof.
  intros HP. split.
  - intros <-. exists (drop 8 k). symmetry. apply take_drop.
  - intros [x ->]. rewrite <- HP. apply take_app_length.
Qed.

(** The loop of [readdir] over a sorted range returns the entries that start
    with the prefix, all of them. *)
Lemma readdir_loop_spec P l :
  length P = 8%nat -> StronglySorted (fun a b : list byte * Z => key_le a.1 b.1 = true) l -> NoDup l.*1 ->
  Forall (fun e => key_le P e.1 = true) l ->
  (forall n c, (P ++ n, c) ∈ l -> utf8_valid n = true) ->
  exists out, readdir_loop P (Ok <$> l) = Ok out /\ NoDup out.*1 /\
    forall n c, (n, c) ∈ out <-> (P ++ n, c) ∈ l.
Proof.
  intros HP Hs. induction Hs as [|[k v] l Hs IH Hle]; intros Hn Hge Hu.
  - exists []. split; [reflexivity|]. split; [constructor|]. intros n c. split; intros Hx; now apply elem_of_nil in Hx.
  - apply NoDup_cons in Hn as [Hni Hn]. apply Forall_cons_1 in Hge as [Hg Hge].
    rewrite fmap_cons. cbn [fst readdir_loop map_err result_bind] in *. case_bool_decide as Hk.
    + (* the first entry past the directory: nothing of it can follow *)
      exists []. split; [reflexivity|]. split; [constructor|]. intros n c. split; [intros Hx; now apply elem_of_nil in Hx|].
      intros Hx. exfalso. apply Hk. apply elem_of_cons in Hx as [[= <- _]|Hx].
      * apply starts_with; eauto.
      * rewrite Forall_forall in Hle. apply starts_with; [exact HP|]. eapply key_between; [exact Hg|].
        apply (Hle _ Hx).
    + destruct (proj1 (starts_with P k HP)) as [x ->]; [exact Hk|].
      rewrite <- HP, drop_app_length, (Hu x v) by now left.
      destruct IH as (out & -> & Hno & Hio); auto. { intros. apply (Hu n c). now right. }
      exists ((x, v) :: out). split; [reflexivity|]. split.
      * simpl. constructor; [|exact Hno]. intros [[n c] [E Hin]]%list_elem_of_fmap. simpl in E. subst n.
        apply Hio in Hin. apply Hni. apply list_elem_of_fmap. now exists (P ++ x, c).
      * intros n c. rewrite !elem_of_cons, Hio. split; intros [E|E]; auto; left; [now injection E as -> ->|].
        injection E as E ->. apply app_inv_head in E. now subst.
Qed.

Section Reads.
Context {D DB : Type} `{!Redb DB} `{!RedbLaws DB} `{!RedbReliable DB}.
Implicit Types (s : MetaStore D DB) (m : meta).

Lemma get_and_lookup n s m (id p : Z) name :
  refines s m -> wf_meta n m -> u64 p ->
  get_inode s id = Ok (m_inodes m !! id) /\ lookup_entry s p name = Ok (m_dirs m !! (p, name)).
Proof.
  intros [[Hi Hd _] _] [Hw _ _] Hp. unfold get_inode, lookup_entry.
  destruct (begin_read_total (ms_db s)) as [t Et]. rewrite Et. apply begin_read_ok in Et. simpl.
  rewrite !r_open_total. simpl. split.
  - destruct (r_inodes_get_total t id) as [o Eo]. rewrite Eo. apply r_inodes_get_ok in Eo. simpl.
    rewrite Eo, Et, Hi, lookup_fmap. destruct (m_inodes m !! id) as [r|] eqn:Er; simpl; [|reflexivity].
    destruct (Hw _ _ Er) as (Hwr & _). pose proof (run_decodes _ _ _ [] (decodes_inode r Hwr)) as E.
    rewrite app_nil_r in E. now rewrite E.
  - destruct (r_dirs_get_total t (dir_key p name)) as [o Eo]. rewrite Eo. apply r_dirs_get_ok in Eo. simpl.
    now rewrite Eo, Et, Hd.
Qed.

(** [readdir] lists a directory: it returns every entry of the parent and
    nothing else, each name once, however many other directories share the
    table. *)
Theorem readdir_lists n s m parent :
  refines s m -> wf_meta n m -> u64 parent ->
  exists l, readdir s parent = Ok l /\ NoDup l.*1 /\
    forall name c, (name, c) ∈ l <-> m_dirs m !! (parent, name) = Some c.
Proof.
  intros [[_ Hd _] _] [_ Hw _] Hp. unfold readdir.
  destruct (begin_read_total (ms_db s)) as [t Et]. rewrite Et. apply begin_read_ok in Et.
  cbn [map_err result_bind]. rewrite r_open_total. cbn [map_err result_bind].
  destruct (r_dirs_range_total t (to_le 8 parent)) as [l El]. rewrite El. cbn [map_err result_bind].
  destruct (r_dirs_range_ok _ _ _ El) as (l' & (Hs & Hn & Hin) & Hlen & Hpt).
  assert (l = l') as <-.
  { apply list_eq_same_length with (length l); auto; [now rewrite <- Hlen, length_fmap|].
    intros i x y _ Hx Hy. specialize (Hpt i x). rewrite list_lookup_fmap, Hx in Hpt. specialize (Hpt eq_refl). congruence. }
  rewrite Et in Hin.
  assert (Hdir : forall name c, (to_le 8 parent ++ name, c) ∈ l <-> m_dirs m !! (parent, name) = Some c).
  { intros name c. rewrite Hin. change (to_le 8 parent ++ name) with (dir_key parent name). rewrite Hd by exact Hp.
    split; [tauto|]. intros E. split; [exact E|]. unfold dir_key. clear.
    induction (to_le 8 parent) as [|b bs IH]; simpl; [reflexivity|]. now rewrite Z.eqb_refl. }
  destruct (readdir_loop_spec (to_le 8 parent) l) as (out & Eo & Hno & Hio); auto using length_to_le.
  - apply Forall_forall. intros [k v] Hk. now apply Hin in Hk as [_ Hk].
  - intros name c Hc. apply Hdir in Hc. apply Hw in Hc as (_ & [_ Hu] & _). exact Hu.
  - exists out. split; [exact Eo|]. split; [exact Hno|]. intros. now rewrite Hio, Hdir.
Qed.

(** Ids below the next one. *)
Definition ids_below m : Prop := map_Forall (fun id _ => id < m_next m) (m_inodes m).

(** No inode is created with the last [u64]. *)
Definition creates_below (op : MetaOp) : Prop :=
  match op with CreateInode r => 0 <= ir_inode r < 2 ^ 64 - 1 | _ => True end.

Lemma ids_below_apply k op m m' :
  ids_below m -> wf_meta k m -> creates_below op -> spec_apply op m = Ok m' -> ids_below m'.
Proof.
  intros Hb Hw Hc E. unfold ids_below in *.
  destruct op as [r|p nm c|p nm|i c|i|i xs|i xs|i sc|pm|g]; simpl in *;
    try (injection E as <-; exact Hb);
    try (apply on_inode_Ok in E as (r & r' & Eg & Er & ->); simpl;
         assert (ir_inode r' = i) as -> by
           (destruct (wf_inodes _ _ Hw _ _ Eg) as (_ & <- & _);
            repeat case_match; simplify_eq/=; reflexivity);
         apply map_Forall_insert_2; [|exact Hb]; now apply (Hb _ r)).
  injection E as <-. simpl. unfold as_u64. rewrite wrap_small by (unfold fits; lia).
  apply map_Forall_insert_2; [lia|]. eapply map_Forall_impl; [exact Hb|]. simpl. intros. lia.
Qed.

Lemma ids_below_run k ops m m' :
  ids_below m -> wf_meta k m -> 0 <= k -> k + total_weight ops < 2 ^ 32 -> Forall wf_op ops ->
  Forall creates_below ops -> spec_run ops m = Ok m' -> ids_below m'.
Proof.
  intros Hb Hw Hk Hlt Hop. revert k m Hb Hw Hk Hlt. induction Hop as [|op ops Ho Hop IH]; intros k m Hb Hw Hk Hlt Hc E; simpl in *.
  - now injection E as <-.
  - apply Forall_cons_1 in Hc as [Hc Hcs]. destruct (spec_apply op m) as [m1| |] eqn:E1; try discriminate.
    pose proof (op_weight_nonneg op). pose proof (total_weight_nonneg ops).
    apply (IH (k + op_weight op) m1); auto; try lia; [eapply ids_below_apply; eauto|].
    eapply wf_spec_apply; eauto. lia.
Qed.

(** Allocated inode ids are fresh.  In a store that holds the state of a
    run, [alloc_inode] returns an id that no inode has, and the next call a
    larger one. *)
Theorem alloc_inode_fresh s ops m :
  spec_run ops meta_init = Ok m -> refines s m -> Forall wf_op ops -> Forall creates_below ops ->
  total_weight ops < 2 ^ 32 -> ms_next_inode s < 2 ^ 64 - 1 ->
  m_inodes m !! (alloc_inode s).2 = None /\
  (alloc_inode s).2 < (alloc_inode (alloc_inode s).1).2.
Proof.
  intros Hrun [_ Hn] Hop Hc Hlt Hmax.
  assert (Hb : ids_below m).
  { eapply (ids_below_run 0); eauto using wf_meta_init; [apply map_Forall_empty|lia]. }
  assert (Hw : wf_meta (0 + total_weight ops) m) by (eapply wf_spec_run; eauto using wf_meta_init; lia).
  destruct (wf_next _ _ Hw). simpl. split.
  - destruct (m_inodes m !! ms_next_inode s) as [r|] eqn:E; [|reflexivity]. apply Hb in E. simpl in E. lia.
  - unfold as_u64. rewrite wrap_small by (unfold fits; lia). lia.
Qed.
End Reads.

(** ** A run: a file in directory 1 and another in directory 257, whose keys
    are neighbours in the table. *)
Definition rd_ops : list MetaOp :=
  [CreateInode demo_inode; Link 1 [x66] 2; Link 257 [x67] 2; Link 1 [x61] 2].
Definition rd_meta : meta := match spec_run rd_ops meta_init with Ok m => m | _ => meta_init end.
Definition rd_payloads : list (list byte) := @encode_op hash_iter_by_key <$> rd_ops.
Definition rd_store : MetaStore FileDisk tables := (replay rd_payloads demo_store).1.

(** The names of directory 1 come in key order. *)
Example readdir_order : readdir rd_store 1 = Ok [([x61], 2); ([x66], 2)].
Proof. vm_compute. reflexivity. Qed.
