(* ===== verification/Pool.v ===== *)
(** * The pool ([crates/tartine-meta/src/pool.rs])

    [Pool] ties the disks, placement and the metadata store together: it
    creates and reopens a pool of disk files, appends chunks, converts files
    and writes extents.  Definitions only; [PoolSpec] holds the abstract state
    and the invariant, [PoolRefine] the proofs.  The clock the source reads is
    an argument; memory allocation is taken to succeed. *)

From Stdlib Require Import ZArith Lia.
From S2P Require Import Prelude Proto Crc32c Disk Segment Wal Codec Replicator Redb Store CorePlacement.

Definition SUPERBLOCK_RESERVE_BYTES : Z := 4096.
Definition WAL_BASE_OFFSET : Z := SUPERBLOCK_RESERVE_BYTES.
Definition SEGMENT_BASE_OFFSET : Z := WAL_BASE_OFFSET + WAL_CAPACITY_BYTES.
Definition DISK_FILE_CAPACITY_BYTES : Z := SEGMENT_BASE_OFFSET + SEGMENT_SIZE_BYTES.

Definition ROOT_INODE : InodeId := 1.

(** [0o040000] and [0o100000]. *)
Definition S_IFDIR : Z := 0x4000.
Definition S_IFREG : Z := 0x8000.

Inductive PoolError :=
  | Io (e : io_error)
  | Meta (e : MetaStoreError)
  | Unplaceable
  | InodeNotFound
  | WrongMode
  | NoDisks.

(** Seconds since the epoch; [expect] panics before it. *)
Definition now_unix {E} (clock : Z) : result E Z := if clock <? 0 then Panic else Ok clock.

Record DiskHandle := { dh_disk : Arc FileDisk; dh_cursor : Z }.

Record Pool (DB : Type) := {
  pool_map : PoolMap;
  disks : gmap Z DiskHandle;
  p_meta : MetaStore (Arc FileDisk) DB;
}.
Arguments pool_map {DB} _.
Arguments disks {DB} _.
Arguments p_meta {DB} _.

Definition disk_ids_for (disk_paths : list path) : list DiskId :=
  (fun i => Z.of_nat i + 1) <$> seq 0 (length disk_paths).

(** The [f64] 1.0. *)
Definition weight_one : Z := 0x3ff0000000000000.

(** The entry that [format_with_classes] and [open_with_classes] give disk [i]. *)
Definition new_entry (i : nat) (class : DiskClass) : DiskEntry :=
  {| de_roles := {| role_data := true; role_metadata := (i <? 2)%nat |};
     de_state := Active; de_class := class; de_weight := weight_one;
     de_used_bytes := 0; de_capacity_bytes := DISK_FILE_CAPACITY_BYTES |}.

(** The loop over the disk paths that both share; [start] brings one disk up
    and says where its cursor is. *)
Fixpoint bring_up (start : path -> io os_world PoolError (Arc FileDisk * Z)) (i : nat)
    (disk_paths : list path) (classes : list DiskClass)
    (acc : gmap Z DiskEntry * gmap Z DiskHandle * list (Arc FileDisk)) :
    io os_world PoolError (gmap Z DiskEntry * gmap Z DiskHandle * list (Arc FileDisk)) :=
  match disk_paths, classes with
  | path :: disk_paths', class :: classes' =>
      let! (arc, cursor) := start path in
      let '(entries, handles, arcs) := acc in
      let id := Z.of_nat i + 1 in
      bring_up start (S i) disk_paths' classes'
        (<[id := new_entry i class]> entries,
         <[id := {| dh_disk := arc; dh_cursor := cursor |}]> handles, arcs ++ [arc])
  | _, _ => io_ret acc
  end.

Definition start_format (p : path) : io os_world PoolError (Arc FileDisk * Z) :=
  let! d := io_map_err Io (FileDisk_create p DISK_FILE_CAPACITY_BYTES) in io_ret ({| deref := d |}, 0).

Definition start_open (p : path) : io os_world PoolError (Arc FileDisk * Z) :=
  let! d := io_map_err Io (FileDisk_open p) in
  let arc := {| deref := d |} in
  let! scan := io_query (fun w => map_err Io (Segment.scan arc SEGMENT_BASE_OFFSET w)) in
  io_ret (arc, Segment.resume_at scan).

Section Pool.
Context {DB : Type} `{!Redb DB} `{!HashIter}.
Abbreviation P := (Pool DB).

(** What [format_with_classes] and [open_with_classes] do up to the metadata
    store's [open]. *)
Definition start_pool (start : path -> io os_world PoolError (Arc FileDisk * Z))
    (disk_paths : list path) (classes : list DiskClass) : io os_world PoolError P :=
  if decide (disk_paths = []) then io_err NoDisks
  else if negb (length disk_paths =? length classes)%nat then io_panic
  else
    let ids := disk_ids_for disk_paths in
    let! (entries, handles, arcs) := bring_up start 0 disk_paths classes (∅, ∅, []) in
    let! id0 := io_lift (unwrap (ids !! 0%nat)) in
    let! arc0 := io_lift (unwrap (arcs !! 0%nat)) in
    let group := {| mg_primary := id0; mg_backup := ids !! 1%nat; mg_epoch := 0 |} in
    let! backup_arc := match ids !! 1%nat with
                       | Some _ => let! a := io_lift (unwrap (arcs !! 1%nat)) in io_ret (Some a)
                       | None => io_ret None
                       end in
    let! meta := io_query (fun w => map_err Meta (Store.open group arc0 backup_arc w)) in
    io_ret {| pool_map := {| pm_epoch := 0; pm_disks := entries |}; disks := handles; p_meta := meta |}.

Definition root_inode (n_disks : nat) (now : Z) : InodeRecord :=
  {| ir_inode := ROOT_INODE; ir_mode := Writable; ir_size := 0;
     ir_redundancy := Replicated (replicate (2 `min` n_disks) (AnyOfClass None));
     ir_data := Extents []; ir_uid := 0; ir_gid := 0;
     ir_unix_mode := Z.lor S_IFDIR 0x1ed; ir_mtime_unix := now |}.

Definition set_meta (s : MetaStore (Arc FileDisk) DB) (p : P) : P :=
  {| pool_map := pool_map p; disks := disks p; p_meta := s |}.
Definition set_handle (id : Z) (h : DiskHandle) (p : P) : P :=
  {| pool_map := pool_map p; disks := <[id := h]> (disks p); p_meta := p_meta p |}.

(** [self.meta.apply(op)?]. *)
Definition meta_apply (op : MetaOp) : io (os_world * P) PoolError unit := fun wp =>
  let '((w', s'), r) := apply op (wp.1, p_meta wp.2) in ((w', set_meta s' wp.2), map_err Meta r).

Definition format_with_classes (disk_paths : list path) (classes : list DiskClass) (clock : Z) :
    io os_world PoolError P :=
  let! p := start_pool start_format disk_paths classes in
  let! now := io_lift (now_unix clock) in
  fun w => let '((w', p'), r) := meta_apply (CreateInode (root_inode (length disk_paths) now)) (w, p) in
    (w', let? _ := r in Ok p').

Definition format (disk_paths : list path) (clock : Z) : io os_world PoolError P :=
  format_with_classes disk_paths (replicate (length disk_paths) Hdd) clock.

Definition open_with_classes (disk_paths : list path) (classes : list DiskClass) : io os_world PoolError P :=
  start_pool start_open disk_paths classes.

Definition open (disk_paths : list path) : io os_world PoolError P :=
  open_with_classes disk_paths (replicate (length disk_paths) Hdd).

Definition disk_count (p : P) : nat := size (disks p).

Definition alloc_inode (p : P) : P * InodeId :=
  let '(s, id) := Store.alloc_inode (p_meta p) in (set_meta s p, id).
Definition get_inode (p : P) (id : InodeId) : result PoolError (option InodeRecord) :=
  map_err Meta (Store.get_inode (p_meta p) id).
Definition lookup (p : P) (parent : InodeId) (name : list byte) : result PoolError (option InodeId) :=
  map_err Meta (Store.lookup_entry (p_meta p) parent name).
Definition readdir (p : P) (parent : InodeId) : result PoolError (list (list byte * InodeId)) :=
  map_err Meta (Store.readdir (p_meta p) parent).

(** [create_file]. *)
Definition create_file (parent : InodeId) (name : list byte) (redundancy : RedundancyScheme)
    (uid gid unix_mode clock : Z) : io (os_world * P) PoolError InodeId :=
  let! p := io_self in
  let '(p, inode) := alloc_inode p in
  let! _ := io_set_self p in
  let! now := io_lift (now_unix clock) in
  let! _ := meta_apply (CreateInode
    {| ir_inode := inode; ir_mode := AppendOnly; ir_size := 0; ir_redundancy := redundancy;
       ir_data := ChunkLog []; ir_uid := uid; ir_gid := gid; ir_unix_mode := unix_mode;
       ir_mtime_unix := now |}) in
  let! _ := meta_apply (Link parent name inode) in
  io_ret inode.

Definition unlink (parent : InodeId) (name : list byte) : io (os_world * P) PoolError unit :=
  meta_apply (Unlink parent name).

Definition set_redundancy (inode : InodeId) (scheme : RedundancyScheme) : io (os_world * P) PoolError unit :=
  meta_apply (SetRedundancyScheme inode scheme).

(** [collect::<Option<Vec<_>>>]: all slots or nothing. *)
Definition place (p : P) (scheme : RedundancyScheme) (key : Z) : result PoolError (list Z) :=
  let? placed := map_err (fun _ => Unplaceable)
    (CorePlacement.place_redundancy (pool_map p) scheme key (fun e => role_data (de_roles e))) in
  ok_or (mapM id placed) Unplaceable.

(** The record for [inode], or [NotFound]. *)
Definition find_inode (p : P) (inode : InodeId) : result PoolError InodeRecord :=
  let? o := get_inode p inode in ok_or o InodeNotFound.

(** One round of the loop of [append]: a writer for the disk, the record, a
    sync, the new cursor. *)
Definition append_replica (record : SegRecord) (disk_id : Z) : io (os_world * P) PoolError (Z * Z) :=
  let! p := io_self in
  let! handle := io_lift (ok_or (disks p !! disk_id) Unplaceable) in
  let writer := SegmentWriter_resume (dh_disk handle) SEGMENT_BASE_OFFSET (dh_cursor handle) in
  let! writer := (fun wp =>
    let '((w', writer'), r) := (let! _ := Segment.append record in SegmentWriter_sync) (wp.1, writer) in
    ((w', wp.2), let? _ := map_err Io r in Ok writer')) in
  let written_at := dh_cursor handle in
  let! _ := io_set_self (set_handle disk_id {| dh_disk := dh_disk handle; dh_cursor := sw_cursor writer |} p) in
  io_ret (disk_id, written_at).

(** One round of the loop of [write_whole_file_extent]. *)
Definition extent_replica (content : list byte) (disk_id : Z) : io (os_world * P) PoolError (Z * Z) :=
  let! p := io_self in
  let! handle := io_lift (ok_or (disks p !! disk_id) Unplaceable) in
  let written_at := dh_cursor handle in
  let! _ := io_world (io_map_err Io (write_at (dh_disk handle) (as_u64 (SEGMENT_BASE_OFFSET + written_at)) content)) in
  let! _ := io_world (io_map_err Io (sync (dh_disk handle))) in
  let! _ := io_set_self (set_handle disk_id {| dh_disk := dh_disk handle;
                                               dh_cursor := as_u64 (dh_cursor handle + Zlen content) |} p) in
  io_ret (disk_id, written_at).

(** [for disk_id in &disk_ids { ...; replicas.push(..) }]. *)
Fixpoint for_each (f : Z -> io (os_world * P) PoolError (Z * Z)) (disk_ids : list Z) :
    io (os_world * P) PoolError (list (Z * Z)) :=
  match disk_ids with
  | [] => io_ret []
  | disk_id :: rest =>
      let! r := f disk_id in
      let! rs := for_each f rest in
      io_ret (r :: rs)
  end.

(** [append]. *)
Definition append (inode : InodeId) (payload : list byte) : io (os_world * P) PoolError unit :=
  let! p := io_self in
  let! rec := io_lift (find_inode p inode) in
  let! _ := match ir_mode rec with
            | AppendOnly | Converting => io_ret tt
            | Writable => io_err WrongMode
            end in
  let! chunk_seq := match ir_data rec with
                    | ChunkLog chunks => io_ret (Zlen chunks)
                    | Extents _ => io_err WrongMode
                    end in
  let key := placement_key inode chunk_seq in
  let! disk_ids := io_lift (place p (ir_redundancy rec) key) in
  let record := Record_new inode chunk_seq payload in
  let! replicas := for_each (append_replica record) disk_ids in
  meta_apply (AppendChunk inode
    {| cp_chunk_seq := chunk_seq; cp_replicas := replicas; cp_len := as_u32 (Zlen payload);
       cp_checksum := sr_checksum record |}).

(** [read_replicated]: the first replica only. *)
Definition read_replicated (p : P) (replicas : list (Z * Z)) (header_len : Z) (len : nat) (w : os_world) :
    result PoolError (list byte) :=
  let? (disk_id, offset) := ok_or (head replicas) Unplaceable in
  let? handle := ok_or (disks p !! disk_id) InodeNotFound in
  map_err Io (read_at (dh_disk handle) (as_u64 (SEGMENT_BASE_OFFSET + offset + header_len)) len w).

Fixpoint read_chunks (p : P) (chunks : list ChunkPointer) (w : os_world) : result PoolError (list byte) :=
  match chunks with
  | [] => Ok []
  | chunk :: rest =>
      let? bytes := read_replicated p (cp_replicas chunk) (Z.of_nat Segment.HEADER_LEN) (Z.to_nat (cp_len chunk)) w in
      let? out := read_chunks p rest w in
      Ok (bytes ++ out)
  end.

(** [out[start..start + bytes.len()].copy_from_slice(&bytes)] for each extent. *)
Fixpoint read_extents (p : P) (extents : list Extent) (out : list byte) (w : os_world) :
    result PoolError (list byte) :=
  match extents with
  | [] => Ok out
  | extent :: rest =>
      let? bytes := read_replicated p (ex_replicas extent) 0 (Z.to_nat (ex_len extent)) w in
      let start := ex_file_offset extent in
      let stop := as_u64 (start + Zlen bytes) in
      if (start <=? stop) && (stop <=? Zlen out)
      then read_extents p rest (splice (Z.to_nat start) bytes out) w
      else Panic
  end.

Definition read_full_content (p : P) (rec : InodeRecord) (w : os_world) : result PoolError (list byte) :=
  match ir_data rec with
  | ChunkLog chunks => read_chunks p chunks w
  | Extents extents => read_extents p extents (replicate (Z.to_nat (ir_size rec)) x00) w
  end.

(** [read]. *)
Definition read (p : P) (inode : InodeId) (offset len : Z) (w : os_world) : result PoolError (list byte) :=
  let? rec := find_inode p inode in
  let? content := read_full_content p rec w in
  let start := Z.min offset (Zlen content) in
  let stop := Z.min (Z.min (start + len) u64_max) (Zlen content) in
  unwrap (slice content (Z.to_nat start) (Z.to_nat stop)).

Definition begin_convert (inode : InodeId) : io (os_world * P) PoolError unit :=
  meta_apply (BeginConvert inode).

Definition write_whole_file_extent (inode : InodeId) (redundancy : RedundancyScheme) (file_offset : Z)
    (content : list byte) : io (os_world * P) PoolError (list Extent) :=
  if decide (content = []) then io_ret []
  else
    let key := placement_key inode u64_max in
    let! p := io_self in
    let! disk_ids := io_lift (place p redundancy key) in
    let sum := checksum content in
    let! replicas := for_each (extent_replica content) disk_ids in
    io_ret [{| ex_file_offset := file_offset; ex_len := as_u32 (Zlen content); ex_replicas := replicas;
               ex_checksum := sum |}].

Definition complete_convert (inode : InodeId) : io (os_world * P) PoolError unit :=
  let! p := io_self in
  let! rec := io_lift (find_inode p inode) in
  let! _ := match ir_mode rec with Converting => io_ret tt | _ => io_err WrongMode end in
  let! content := io_query (fun wp => read_full_content wp.2 rec wp.1) in
  let! extents := write_whole_file_extent inode (ir_redundancy rec) 0 content in
  meta_apply (CompleteConvert inode extents).

(** The patch of [write]: resize if needed, then copy. *)
Definition patch (content : list byte) (offset : Z) (data : list byte) : result PoolError (list byte) :=
  let stop := as_u64 (offset + Zlen data) in
  let content := if Zlen content <? stop then content ++ replicate (Z.to_nat (stop - Zlen content)) x00 else content in
  if offset <=? stop then Ok (splice (Z.to_nat offset) data content) else Panic.

Definition write (inode : InodeId) (offset : Z) (data : list byte) : io (os_world * P) PoolError unit :=
  let! p := io_self in
  let! rec := io_lift (find_inode p inode) in
  let! _ := match ir_mode rec with Writable => io_ret tt | _ => io_err WrongMode end in
  let! content := io_query (fun wp => read_full_content wp.2 rec wp.1) in
  let! content := io_lift (patch content offset data) in
  let! extents := write_whole_file_extent inode (ir_redundancy rec) 0 content in
  meta_apply (UpdateExtents inode extents).
End Pool.
