(* ===== verification/PoolSpec.v ===== *)
(** * What the pool promises

    Abstractly a pool is a namespace ([meta]) and a map from inode ids to file
    contents.  [pool_inv] relates a pool in a world of disks to such a state:
    every byte of every file is stored, on every replica and below that disk's
    cursor, and is durable there.  The lemmas here are about the disks: what the write loops of
    [append] and [write_whole_file_extent] do, and that they keep everything
    already stored. *)

From Stdlib Require Import ZArith Lia.
From S2P Require Import Prelude Proto Crc32c Disk Segment Wal Codec Replicator.
From S2P Require Import Redb Store StoreSpec StoreRefine StoreReads CorePlacement Pool.

#[local] Arguments contents : simpl never.
#[local] Arguments write_at : simpl never.
#[local] Arguments sync : simpl never.

Section Spec.
Context {DB : Type} `{!Redb DB} `{!RedbLaws DB}.
Implicit Types (w : os_world) (p : Pool DB).

(** [bs] is stored behind a header of [hdr] bytes at the place [r] names, a
    disk and an offset in its data region, below the disk's cursor; a loss of
    power leaves it there. *)
Definition stored (hdr : Z) (bs : list byte) w p (r : Z * Z) : Prop :=
  exists h, disks p !! r.1 = Some h /\ 0 <= r.2 /\ r.2 + hdr + Zlen bs <= dh_cursor h /\
    file_has (contents (dh_disk h) w) (SEGMENT_BASE_OFFSET + r.2 + hdr) bs /\
    settled (dh_disk h) w (SEGMENT_BASE_OFFSET + r.2 + hdr) (SEGMENT_BASE_OFFSET + r.2 + hdr + Zlen bs).

(** Every replica holds [bs]; there is at least one, and no disk has two. *)
Definition replicated (hdr : Z) (bs : list byte) w p (rs : list (Z * Z)) : Prop :=
  rs <> [] /\ NoDup rs.*1 /\ Forall (stored hdr bs w p) rs.

Definition chunk_holds w p (c : ChunkPointer) (bs : list byte) : Prop :=
  cp_len c = Zlen bs /\ cp_checksum c = checksum bs /\
  replicated (Z.of_nat Segment.HEADER_LEN) bs w p (cp_replicas c).

(** At most one extent, which is the whole file. *)
Definition extents_hold w p (xs : list Extent) (content : list byte) : Prop :=
  match xs with
  | [] => content = []
  | [x] => ex_file_offset x = 0 /\ ex_len x = Zlen content /\ ex_checksum x = checksum content /\
      replicated 0 content w p (ex_replicas x)
  | _ => False
  end.

(** The data of an inode record are the bytes [content]: a log of chunks
    before conversion, at most one extent after it. *)
Definition data_holds w p (r : InodeRecord) (content : list byte) : Prop :=
  ir_size r = Zlen content /\
  match ir_mode r, ir_data r with
  | Writable, Extents xs => extents_hold w p xs content
  | (AppendOnly | Converting), ChunkLog cs =>
      exists bss, content = concat bss /\ Forall2 (chunk_holds w p) cs bss
  | _, _ => False
  end.

(** The metadata store holds [m] and has room bookkeeping to write on. *)
Record meta_inv (s : MetaStore (Arc FileDisk) DB) (m : meta) : Prop := {
  mi_refines : refines s m;
  mi_base : ms_wal_base_offset s = 0;
  mi_cursor : 0 <= ms_wal_cursor s <= WAL_CAPACITY_BYTES;
  mi_wf : wf_meta (ms_wal_cursor s) m;
}.

(** Cursors are inside what a file offset can address, and two disk ids are
    two files. *)
Record disks_ok p : Prop := {
  do_cursors : map_Forall (fun _ h => 0 <= dh_cursor h /\ SEGMENT_BASE_OFFSET + dh_cursor h < 2 ^ 63) (disks p);
  do_distinct : forall i j hi hj, disks p !! i = Some hi -> disks p !! j = Some hj ->
    same_disk (dh_disk hi) (dh_disk hj) -> i = j;
  do_map : placeable (pool_map p);
  do_dom : forall id, is_Some (pm_disks (pool_map p) !! id) <-> is_Some (disks p !! id);
}.

(** Every policy asks for at least one replica. *)
Definition asks_replica (s : RedundancyScheme) : Prop := s <> Replicated [].

Record pool_inv w p (m : meta) (fc : gmap Z (list byte)) : Prop := {
  pi_meta : meta_inv (p_meta p) m;
  pi_below : ids_below m;
  pi_disks : disks_ok p;
  pi_policy : map_Forall (fun _ r => asks_replica (ir_redundancy r)) (m_inodes m);
  pi_data : forall id, option_Forall2 (data_holds w p) (m_inodes m !! id) (fc !! id);
}.

(** ** Growth: what is stored stays stored *)
Definition grows w p w' p' : Prop :=
  forall id h, disks p !! id = Some h -> exists h', disks p' !! id = Some h' /\
    same_disk (dh_disk h) (dh_disk h') /\ dh_cursor h <= dh_cursor h' /\
    (forall o bs, SEGMENT_BASE_OFFSET <= o -> o + Zlen bs <= SEGMENT_BASE_OFFSET + dh_cursor h ->
      file_has (contents (dh_disk h) w) o bs -> file_has (contents (dh_disk h) w') o bs) /\
    lasting (dh_disk h) w w' SEGMENT_BASE_OFFSET (SEGMENT_BASE_OFFSET + dh_cursor h).

Lemma grows_refl w p : grows w p w p.
Proof. intros id h E. exists h. split_and!; auto using lasting_refl; [now apply same_file|lia]. Qed.

Lemma grows_trans w1 p1 w2 p2 w3 p3 : grows w1 p1 w2 p2 -> grows w2 p2 w3 p3 -> grows w1 p1 w3 p3.
Proof.
  intros H1 H2 id h E. destruct (H1 id h E) as (h2 & E2 & D2 & C2 & F2 & S2).
  destruct (H2 id h2 E2) as (h3 & E3 & D3 & C3 & F3 & S3). exists h3.
  split; [exact E3|]. split; [rewrite same_file in *; congruence|]. split; [lia|]. split.
  - intros o bs Ho Hb Hf. rewrite (contents_same _ _ w3 D2). apply F3; [exact Ho|lia|].
    rewrite <- (contents_same _ _ w2 D2). now apply F2.
  - intros x y Hx Hy Hs. pose proof D2 as D2'. rewrite same_file in D2'. apply (settled_same (dh_disk h2)).
    { now apply same_file. } apply S3; [exact Hx|lia|]. apply (settled_same (dh_disk h)); [exact D2|]. now apply S2.
Qed.

(** Same disks, and the data regions are untouched. *)
Lemma grows_same w p w' p' :
  disks p' = disks p ->
  (forall (d : Arc FileDisk) o bs, SEGMENT_BASE_OFFSET <= o ->
     file_has (contents d w) o bs -> file_has (contents d w') o bs) ->
  (forall (d : Arc FileDisk) b, lasting d w w' SEGMENT_BASE_OFFSET b) -> grows w p w' p'.
Proof. intros E Hf Hs id h Eh. exists h. rewrite E. split_and!; auto; [now apply same_file|lia]. Qed.

Lemma grows_stay w p p' : disks p' = disks p -> grows w p w p'.
Proof. intros E. apply grows_same; auto using lasting_refl. Qed.

Lemma stored_grows hdr bs w p w' p' r : 0 <= hdr -> grows w p w' p' -> stored hdr bs w p r -> stored hdr bs w' p' r.
Proof.
  intros Hh Hg (h & E & H0 & Hc & Hf & Hs). destruct (Hg _ _ E) as (h' & E' & D & C & F & S). exists h'.
  rewrite <- (contents_same _ _ w' D). split_and!; auto; [lia|apply F; auto; lia|].
  apply (settled_same _ _ _ _ _ D). apply S; auto; lia.
Qed.

(** The places the data of a chunk, an extent or an inode are at, each with how
    far it reaches. *)
Definition chunk_places (c : ChunkPointer) : list (Z * (Z * Z)) :=
  pair (Z.of_nat Segment.HEADER_LEN + cp_len c) <$> cp_replicas c.
Definition extent_places (x : Extent) : list (Z * (Z * Z)) := pair (ex_len x) <$> ex_replicas x.
Definition data_places (d : DataLocator) : list (Z * (Z * Z)) :=
  match d with
  | ChunkLog cs => concat (chunk_places <$> cs)
  | Extents xs => concat (extent_places <$> xs)
  end.

(** Whatever keeps what is stored in those places keeps the contents of files. *)
Section Mono.
Context (w : os_world) (p : Pool DB) (w' : os_world) (p' : Pool DB) (P : Z * (Z * Z) -> Prop).
Hypothesis Hst : forall hdr bs r, 0 <= hdr -> P (hdr + Zlen bs, r) -> stored hdr bs w p r -> stored hdr bs w' p' r.

Lemma replicated_mono hdr bs rs :
  0 <= hdr -> Forall P (pair (hdr + Zlen bs) <$> rs) -> replicated hdr bs w p rs -> replicated hdr bs w' p' rs.
Proof.
  intros Hh HP (H1 & H2 & H3). split_and!; auto. rewrite Forall_fmap in HP.
  eapply Forall_impl; [exact (proj2 (Forall_and _ _) (conj HP H3))|]. intros r []. now apply Hst.
Qed.

Lemma chunk_mono c bs : Forall P (chunk_places c) -> chunk_holds w p c bs -> chunk_holds w' p' c bs.
Proof.
  unfold chunk_places. intros HP (H1 & H2 & H3). rewrite H1 in HP. split_and!; auto. apply replicated_mono; [lia|assumption..].
Qed.

Lemma extents_mono xs c : Forall P (data_places (Extents xs)) -> extents_hold w p xs c -> extents_hold w' p' xs c.
Proof.
  destruct xs as [|x [|]]; cbn [extents_hold]; auto. cbn [data_places fmap list_fmap concat]. rewrite app_nil_r.
  unfold extent_places. intros HP (? & El & ? & ?). rewrite El in HP. split_and!; auto. apply replicated_mono; [lia|assumption..].
Qed.

Lemma data_mono r c : Forall P (data_places (ir_data r)) -> data_holds w p r c -> data_holds w' p' r c.
Proof.
  intros HP [Hs Hd]. split; [exact Hs|].
  destruct (ir_mode r), (ir_data r) as [cs|xs]; auto using extents_mono;
    destruct Hd as (bss & -> & H); exists bss; (split; [reflexivity|]); clear Hs;
    cbn [data_places] in HP; induction H as [|c b cs bss Hc H IH]; constructor;
    cbn [fmap list_fmap concat] in HP; apply Forall_app in HP as [? ?]; auto using chunk_mono.
Qed.
End Mono.

Lemma everywhere {A} (l : list A) : Forall (fun _ => True) l.
Proof. now apply Forall_forall. Qed.

Lemma chunk_grows w p w' p' c bs : grows w p w' p' -> chunk_holds w p c bs -> chunk_holds w' p' c bs.
Proof. intros Hg. apply (chunk_mono w p w' p' (fun _ => True)); [|apply everywhere]. intros. now apply (stored_grows _ _ w p). Qed.

Lemma extents_grow w p w' p' xs c : grows w p w' p' -> extents_hold w p xs c -> extents_hold w' p' xs c.
Proof. intros Hg. apply (extents_mono w p w' p' (fun _ => True)); [|apply everywhere]. intros. now apply (stored_grows _ _ w p). Qed.

Lemma data_grows w p w' p' r c : grows w p w' p' -> data_holds w p r c -> data_holds w' p' r c.
Proof. intros Hg. apply (data_mono w p w' p' (fun _ => True)); [|apply everywhere]. intros. now apply (stored_grows _ _ w p). Qed.

(** ** Synced up to the cursor

    A sync is one of the whole disk, so where a write loop has moved a cursor,
    everything up to it is durable. *)
Definition tight w (h : DiskHandle) : Prop :=
  settled (dh_disk h) w SEGMENT_BASE_OFFSET (SEGMENT_BASE_OFFSET + dh_cursor h).

Definition reached p w' p' : Prop :=
  forall id h, disks p !! id = Some h -> exists h', disks p' !! id = Some h' /\
    dh_cursor h <= dh_cursor h' /\ (dh_cursor h' = dh_cursor h \/ tight w' h').

(** The place [r] is not below the cursor that its disk has in [p]. *)
Definition at_or_after p (r : Z * Z) : Prop := exists h, disks p !! r.1 = Some h /\ dh_cursor h <= r.2.

Lemma reached_same w p p' : disks p' = disks p -> reached p w p'.
Proof. intros E id h Eh. exists h. rewrite E. auto with lia. Qed.

Lemma reached_trans w1 p1 w2 p2 p : reached p w1 p1 -> reached p1 w2 p2 -> grows w1 p1 w2 p2 -> reached p w2 p2.
Proof.
  intros H1 H2 Hg id h Eh. destruct (H1 id h Eh) as (h1 & E1 & C1 & T1). destruct (H2 id h1 E1) as (h2 & E2 & C2 & T2).
  exists h2. split; [exact E2|]. split; [lia|]. destruct T2 as [T2|T2]; [|now right].
  destruct T1 as [T1|T1]; [left; lia|right]. destruct (Hg id h1 E1) as (h2' & E2' & Hd & _ & _ & Hl).
  rewrite E2 in E2'. injection E2' as <-. unfold tight. rewrite T2. apply (settled_same _ _ _ _ _ Hd). apply Hl; auto with lia.
Qed.

Lemma reached_set_handle w p id h h' :
  disks p !! id = Some h -> dh_cursor h <= dh_cursor h' -> tight w h' -> reached p w (set_handle id h' p).
Proof.
  intros E Hc Ht i hi Ei. cbn [set_handle disks]. destruct (decide (id = i)) as [<-|Hne].
  - rewrite E in Ei. injection Ei as <-. rewrite lookup_insert_eq. eauto.
  - rewrite lookup_insert_ne by exact Hne. exists hi. auto with lia.
Qed.

Lemma at_or_after_reached p w' p' r : reached p w' p' -> at_or_after p' r -> is_Some (disks p !! r.1) -> at_or_after p r.
Proof.
  intros Hr (h' & E' & Hc) [h E]. exists h. split; [exact E|]. destruct (Hr _ _ E) as (h2 & E2 & Hc2 & _).
  rewrite E' in E2. injection E2 as <-. lia.
Qed.

(** ** Writing one replica *)

Lemma write_room (d : Arc FileDisk) off bs w w' :
  write_at d off bs w = (w', Ok tt) -> bs <> [] -> off + Zlen bs < 2 ^ 63.
Proof.
  intros E Hb. change (FileDisk_write_at (deref d) off bs w = (w', Ok tt)) in E. unfold FileDisk_write_at in E.
  rewrite decide_False in E by exact Hb. destruct (Z.ltb_spec (2 ^ 63 - 1) (off + Zlen bs)); [discriminate|lia].
Qed.

(** A write at a disk's cursor or above leaves what lies below any cursor. *)
Lemma write_below p w id h off bs id' h' o b :
  disks_ok p -> disks p !! id = Some h -> SEGMENT_BASE_OFFSET + dh_cursor h <= off ->
  disks p !! id' = Some h' -> o + Zlen b <= SEGMENT_BASE_OFFSET + dh_cursor h' ->
  file_has (contents (dh_disk h') w) o b ->
  file_has (contents (dh_disk h') (write_at (dh_disk h) off bs w).1) o b.
Proof.
  intros Hok E Hoff E' Ho Hf. destruct (same_disk_dec (dh_disk h) (dh_disk h')) as [Hs|Hs].
  - assert (id = id') as <- by (eapply do_distinct; eauto). rewrite E in E'. injection E' as <-.
    apply write_keeps; [left; lia|exact Hf].
  - now rewrite write_other.
Qed.

(** Everything was just flushed, or nothing has happened. *)
Definition flushed w w' : Prop :=
  (forall d : Arc FileDisk, contents d w' = contents d w) /\ forall (d : Arc FileDisk) a b, lasting d w w' a b.

Lemma flushed_refl w : flushed w w.
Proof. split; auto using lasting_refl. Qed.

Lemma flushed_sync (d : Arc FileDisk) w : flushed w (sync d w).1.
Proof. split; intros d'; [apply sync_contents|intros a b; apply lasting_sync]. Qed.

Lemma set_handle_ok p id h c :
  disks_ok p -> disks p !! id = Some h -> 0 <= c -> SEGMENT_BASE_OFFSET + c < 2 ^ 63 ->
  disks_ok (set_handle id {| dh_disk := dh_disk h; dh_cursor := c |} p).
Proof.
  intros [Hc Hd Hm Hdom] E H0 Hlt. split; cbn [set_handle disks pool_map]; auto.
  - apply map_Forall_insert_2; auto.
  - assert (Hsame : forall i hi, <[id := {| dh_disk := dh_disk h; dh_cursor := c |}]> (disks p) !! i = Some hi ->
      exists hi0, disks p !! i = Some hi0 /\ dh_disk hi0 = dh_disk hi).
    { intros i hi [[<- <-]|[_ Ei]]%lookup_insert_Some; eauto. }
    intros i j hi hj (hi0 & Ei & Di)%Hsame (hj0 & Ej & Dj)%Hsame Hs. rewrite <- Di, <- Dj in Hs. eauto.
  - intros i. rewrite Hdom. destruct (decide (id = i)) as [<-|Hne].
    + rewrite lookup_insert_eq. split; intros _; eauto.
    + now rewrite lookup_insert_ne.
Qed.

(** The world after a write at the cursor, and the cursor moved past it. *)
Lemma write_keeps_disk p w id h bs w1 id' h' :
  disks_ok p -> disks p !! id = Some h -> disks p !! id' = Some h' ->
  flushed (write_at (dh_disk h) (SEGMENT_BASE_OFFSET + dh_cursor h) bs w).1 w1 ->
  (forall o b, SEGMENT_BASE_OFFSET <= o -> o + Zlen b <= SEGMENT_BASE_OFFSET + dh_cursor h' ->
     file_has (contents (dh_disk h') w) o b -> file_has (contents (dh_disk h') w1) o b) /\
  lasting (dh_disk h') w w1 SEGMENT_BASE_OFFSET (SEGMENT_BASE_OFFSET + dh_cursor h').
Proof.
  intros Hok E E' [Hw Hs]. split.
  - intros o b _ Hb Hf. rewrite Hw. eapply write_below; eauto. lia.
  - eapply lasting_trans; [|apply Hs]. apply lasting_write.
    destruct (same_disk_dec (dh_disk h) (dh_disk h')) as [Hd|Hd]; [|now left]. do 2 right.
    assert (id = id') as <- by (eapply do_distinct; eauto). rewrite E in E'. injection E' as <-. lia.
Qed.

Lemma write_grows p w id h bs c w1 :
  disks_ok p -> disks p !! id = Some h -> dh_cursor h <= c ->
  flushed (write_at (dh_disk h) (SEGMENT_BASE_OFFSET + dh_cursor h) bs w).1 w1 ->
  grows w p w1 (set_handle id {| dh_disk := dh_disk h; dh_cursor := c |} p) /\ grows w p w1 p.
Proof.
  intros Hok E Hc Hw. split; intros i hi Ei; destruct (write_keeps_disk _ _ _ _ _ _ _ _ Hok E Ei Hw) as [Hf Hs].
  - destruct (decide (id = i)) as [<-|Hne].
    + rewrite E in Ei. injection Ei as <-. eexists. cbn [set_handle disks]. rewrite lookup_insert_eq.
      split; [reflexivity|]. split; [now apply same_file|]. now split.
    + exists hi. cbn [set_handle disks]. rewrite lookup_insert_ne by exact Hne.
      split_and!; auto; [now apply same_file|lia].
  - exists hi. split_and!; auto; [now apply same_file|lia].
Qed.

(** ** Data phases

    What an operation does to the pool before it reaches the log: it writes to
    the data regions only, and leaves the metadata and the disks' files as they
    are. *)
Definition low_kept w w' : Prop := forall d : Arc FileDisk,
  kept d w w' 0 SEGMENT_BASE_OFFSET /\ lasting d w w' 0 SEGMENT_BASE_OFFSET /\ forall n, lasting d w w' n n.
Definition paths_of p : gmap Z path := (fun h => fd_path (deref (dh_disk h))) <$> disks p.

Record data_phase w p w' p' : Prop := {
  dp_grows : grows w p w' p';
  dp_disks : disks_ok p';
  dp_map : pool_map p' = pool_map p;
  dp_meta : p_meta p' = p_meta p;
  dp_low : low_kept w w';
  dp_paths : paths_of p' = paths_of p;
  dp_reached : reached p w' p';
}.

Lemma data_phase_refl w p : disks_ok p -> data_phase w p w p.
Proof. intros Hok. split; auto using grows_refl, reached_same. intros d. split_and!; auto using lasting_refl. now apply kept_eq. Qed.

Lemma data_phase_trans w1 p1 w2 p2 w3 p3 : data_phase w1 p1 w2 p2 -> data_phase w2 p2 w3 p3 -> data_phase w1 p1 w3 p3.
Proof.
  intros [H1 H2 H3 H4 H5 H6 H7] [G1 G2 G3 G4 G5 G6 G7]. split; try congruence; auto; [| |eapply reached_trans; eauto].
  - eapply grows_trans; eauto.
  - intros d. destruct (H5 d) as (? & ? & ?), (G5 d) as (? & ? & ?). split_and!; eauto using kept_trans, lasting_trans.
Qed.

(** A write at a handle's cursor, and perhaps a sync. *)
Lemma low_kept_write w w' (h : DiskHandle) bs :
  0 <= dh_cursor h -> flushed (write_at (dh_disk h) (SEGMENT_BASE_OFFSET + dh_cursor h) bs w).1 w' -> low_kept w w'.
Proof.
  intros H0 [Hw Hs] d. split; [eapply kept_trans; [|apply kept_eq, Hw]; apply kept_write; lia|].
  split; [|intros n]; (eapply lasting_trans; [|apply Hs]); apply lasting_write; lia.
Qed.

Lemma set_handle_paths p id h c :
  disks p !! id = Some h -> paths_of (set_handle id {| dh_disk := dh_disk h; dh_cursor := c |} p) = paths_of p.
Proof.
  intros E. unfold paths_of. cbn [set_handle disks]. rewrite fmap_insert. cbn [dh_disk].
  apply insert_id. now rewrite lookup_fmap, E.
Qed.

(** What one round of a write loop does. *)
Definition round_ok (hdr : Z) (bs : list byte) (id : Z) w p w' p' (out : result PoolError (Z * Z)) : Prop :=
  data_phase w p w' p' /\
  match out with
  | Ok r => r.1 = id /\ stored hdr bs w' p' r /\ at_or_after p r
  | Err e => exists x, e = Io x
  | Panic => False
  end.

Lemma base_cursor p id h :
  disks_ok p -> disks p !! id = Some h ->
  0 <= dh_cursor h /\ as_u64 (SEGMENT_BASE_OFFSET + dh_cursor h) = SEGMENT_BASE_OFFSET + dh_cursor h.
Proof.
  intros Hok E. destruct (do_cursors _ Hok _ _ E) as [H0 Hl]. split; [exact H0|].
  unfold as_u64. apply wrap_small. assert (0 <= SEGMENT_BASE_OFFSET) by (vm_compute; discriminate). split; lia.
Qed.

(** What a write and a successful sync leave is on stable storage. *)
Lemma synced_settled (d : Arc FileDisk) off bs w w1 w' x y :
  write_at d off bs w = (w1, Ok tt) -> sync d w1 = (w', Ok tt) -> bs <> [] -> y <= off + Zlen bs ->
  contents d w' = file_write (contents d w) off bs /\ settled d w' x y.
Proof.
  intros Ew Es Hne Hy. pose proof (sync_contents d d w1) as Hs. rewrite Es in Hs. cbn [fst] in Hs.
  rewrite (write_ok _ _ _ _ _ Ew) in Hs. split; [exact Hs|]. apply (settled_sync _ _ _ _ _ Es). rewrite Hs.
  pose proof (proj2 (f_len_write (contents d w) off bs) Hne). lia.
Qed.

(** A round that succeeds has written and synced a header and the data. *)
Lemma round_done hd bs p w id h w1 w' :
  disks_ok p -> disks p !! id = Some h -> hd ++ bs <> [] ->
  write_at (dh_disk h) (SEGMENT_BASE_OFFSET + dh_cursor h) (hd ++ bs) w = (w1, Ok tt) -> sync (dh_disk h) w1 = (w', Ok tt) ->
  round_ok (Zlen hd) bs id w p w' (set_handle id {| dh_disk := dh_disk h; dh_cursor := dh_cursor h + (Zlen hd + Zlen bs) |} p)
    (Ok (id, dh_cursor h)).
Proof.
  intros Hok Eh Hne Ew Es. destruct (base_cursor _ _ _ Hok Eh) as [H0 _]. pose proof (Zlen_nonneg hd). pose proof (Zlen_nonneg bs).
  assert (0 <= SEGMENT_BASE_OFFSET) by (vm_compute; discriminate). pose proof (write_room _ _ _ _ _ Ew Hne) as Hroom.
  pose proof (flushed_sync (dh_disk h) w1) as Hw. rewrite Es in Hw. cbn [fst] in Hw.
  set (off := SEGMENT_BASE_OFFSET + dh_cursor h) in *. assert (Hlen : Zlen (hd ++ bs) = Zlen hd + Zlen bs) by apply Zlen_app.
  assert (Hset : forall x y, y <= off + Zlen (hd ++ bs) -> contents (dh_disk h) w' = file_write (contents (dh_disk h) w) off (hd ++ bs) /\ 
    settled (dh_disk h) w' x y) by (intros x y; exact (synced_settled _ _ _ _ _ _ x y Ew Es Hne)).
  assert (Hw' : flushed (write_at (dh_disk h) off (hd ++ bs) w).1 w') by now rewrite Ew.
  split.
  - destruct (write_grows p w id h (hd ++ bs) (dh_cursor h + (Zlen hd + Zlen bs)) w' Hok Eh ltac:(lia) Hw') as [Hg _].
    split; auto; [apply set_handle_ok; auto; unfold off in *; lia|exact (low_kept_write _ _ h (hd ++ bs) H0 Hw')|now apply set_handle_paths|].
    apply (reached_set_handle _ _ _ h); [exact Eh|cbn; lia|]. apply Hset. cbn. unfold off. lia.
  - split; [reflexivity|]. split; [|exists h; split; [exact Eh|cbn; lia]]. eexists. cbn [set_handle disks fst snd]. rewrite lookup_insert_eq.
    split; [reflexivity|]. cbn [dh_cursor dh_disk]. fold off. split; [lia|]. split; [lia|].
    destruct (Hset (off + Zlen hd) (off + Zlen hd + Zlen bs) ltac:(lia)) as [Hc Hst]. split; [|exact Hst].
    pose proof (file_has_write (contents (dh_disk h) w) off (hd ++ bs)) as Hf. rewrite <- Hc in Hf.
    apply file_has_app in Hf; [apply Hf|unfold off; lia].
Qed.

(** One that fails may have written anything at the cursor or above. *)
Lemma round_failed hdr bs p w id h bytes w' e :
  disks_ok p -> disks p !! id = Some h -> flushed (write_at (dh_disk h) (SEGMENT_BASE_OFFSET + dh_cursor h) bytes w).1 w' ->
  round_ok hdr bs id w p w' p (Err (Io e)).
Proof.
  intros Hok Eh Hw. destruct (base_cursor _ _ _ Hok Eh) as [H0 _]. split; [|eauto].
  destruct (write_grows p w id h bytes (dh_cursor h) w' Hok Eh ltac:(lia) Hw) as [_ Hg].
  split; auto using reached_same. exact (low_kept_write _ _ h bytes H0 Hw).
Qed.

(** The cursor after a record has been written: it does not wrap. *)
Lemma replica_cursor (rec : SegRecord) h off :
  0 <= dh_cursor h /\ SEGMENT_BASE_OFFSET + dh_cursor h < 2 ^ 63 ->
  Zlen (encode rec) <= Z.max 0 (SEGMENT_SIZE_BYTES - dh_cursor h) -> off + Zlen (encode rec) < 2 ^ 63 ->
  off = SEGMENT_BASE_OFFSET + dh_cursor h ->
  as_u64 (dh_cursor h + Zlen (encode rec)) = dh_cursor h + (28 + Zlen (sr_payload rec)) /\
  0 <= Zlen (sr_payload rec) /\ Zlen (sr_payload rec) < 2 ^ 32.
Proof.
  intros [H0 Hc] Hr Hlt ->. rewrite Zlen_encode in *. pose proof (Zlen_nonneg (sr_payload rec)).
  assert (SEGMENT_SIZE_BYTES < 2 ^ 32) by reflexivity. assert (0 <= SEGMENT_BASE_OFFSET) by (vm_compute; discriminate).
  unfold as_u64. rewrite (wrap_small 64) by (split; lia). lia.
Qed.

Lemma append_replica_round inode seq payload id w p w' p' out :
  disks_ok p -> is_Some (disks p !! id) ->
  append_replica (Record_new inode seq payload) id (w, p) = ((w', p'), out) ->
  round_ok (Z.of_nat Segment.HEADER_LEN) payload id w p w' p' out /\
  (is_ok out = true -> Zlen payload < 2 ^ 32).
Proof.
  set (rec := Record_new inode seq payload). intros Hok [h Eh] E.
  destruct (base_cursor _ _ _ Hok Eh) as [H0 Hb].
  unfold append_replica, io_bind, io_self, io_lift, io_set_self, io_ret in E. cbn [fst snd] in E.
  rewrite Eh in E. cbn [ok_or] in E.
  destruct (Segment.append rec _) as [[w1 wr1] r1] eqn:Ea.
  apply append_cases in Ea. cbn [sw_base_offset sw_cursor sw_disk SegmentWriter_resume fst snd] in Ea.
  rewrite Hb in Ea.
  destruct Ea as [(Ee & -> & _)|(Hrem & Ew & [(-> & Eok & Ewr)|(e & -> & _ & Ewr)])].
  - injection Ee as -> ->. simplify_eq/=. split; [|discriminate]. split; [now apply data_phase_refl|eauto].
  - subst wr1. unfold SegmentWriter_sync, io_bind, io_self, io_world in E. cbn [fst snd sw_disk] in E.
    pose proof (flushed_sync (dh_disk h) w1) as Hw2. pose proof (sync_no_panic (dh_disk h) w1) as Hp.
    destruct (sync (dh_disk h) w1) as [w2 r2] eqn:Esy. cbn [fst snd] in Hw2, Hp. rewrite Ew in Hw2.
    destruct r2 as [[]|e|]; simplify_eq/=; [|split; [|discriminate]; now apply (round_failed _ _ _ _ _ h (encode rec))].
    destruct (write_at (dh_disk h) _ (encode rec) w) as [w1' rw] eqn:Ewr. cbn [fst snd] in *. subst rw.
    pose proof (write_room _ _ _ _ _ Ewr ltac:(discriminate)) as Hroom.
    destruct (replica_cursor rec h _ (do_cursors _ Hok _ _ Eh) Hrem Hroom eq_refl) as (-> & _ & Hlt). split; [|intros; exact Hlt].
    assert (Hhd : Zlen (header_of rec) = 28) by (unfold Zlen; now rewrite length_header_of).
    change (Z.of_nat Segment.HEADER_LEN) with 28. rewrite <- Hhd. rewrite encode_header in Ewr.
    exact (round_done (header_of rec) payload p w id h _ w' Hok Eh ltac:(discriminate) Ewr Esy).
  - subst wr1. simplify_eq/=. split; [|discriminate]. apply (round_failed _ _ _ _ _ h (encode rec)); auto. apply flushed_refl.
Qed.

Lemma extent_replica_round content id w p w' p' out :
  disks_ok p -> is_Some (disks p !! id) -> content <> [] ->
  extent_replica content id (w, p) = ((w', p'), out) -> round_ok 0 content id w p w' p' out.
Proof.
  intros Hok [h Eh] Hne E. destruct (base_cursor _ _ _ Hok Eh) as [H0 Hb].
  unfold extent_replica, io_bind, io_self, io_lift, io_world, io_map_err, io_set_self, io_ret in E. cbn [fst snd] in E.
  rewrite Eh in E. cbn [ok_or] in E. rewrite Hb in E.
  pose proof (write_no_panic (dh_disk h) (SEGMENT_BASE_OFFSET + dh_cursor h) content w) as Hpw.
  destruct (write_at (dh_disk h) _ content w) as [w1 r1] eqn:Ew. cbn [fst snd] in *.
  assert (Hfail : forall w2 e, flushed w1 w2 -> round_ok 0 content id w p w2 p (Err (Io e)))
    by (intros w2 e Hw2; apply (round_failed _ _ _ _ _ h content); auto; now rewrite Ew).
  destruct r1 as [[]|e|]; cbn [map_err] in E; [|simplify_eq/=; apply Hfail, flushed_refl|congruence].
  pose proof (flushed_sync (dh_disk h) w1) as Hs. pose proof (sync_no_panic (dh_disk h) w1) as Hp.
  destruct (sync (dh_disk h) w1) as [w2 r2] eqn:Esy. cbn [fst snd] in Hs, Hp.
  destruct r2 as [[]|e|]; simplify_eq/=; [|now apply Hfail].
  pose proof (write_room _ _ _ _ _ Ew Hne) as Hroom. pose proof (Zlen_nonneg content).
  assert (0 <= SEGMENT_BASE_OFFSET) by (vm_compute; discriminate).
  unfold as_u64 in *. rewrite (wrap_small 64 (dh_cursor h + _)) by (split; lia).
  exact (round_done [] content p w id h _ w' Hok Eh Hne Ew Esy).
Qed.
End Spec.
