(* ===== verification/PoolRefine.v ===== *)
(** * The pool implements a map from files to contents

    Every operation of the pool against the abstract state of [PoolSpec]: it
    keeps the invariant on every branch, errors and failing disks included,
    and on success has the effect on the file contents that its name says. *)

From Stdlib Require Import ZArith Lia.
From stdpp Require Import relations.
From S2P Require Import Prelude Proto KWritePath KPlacement Crc32c Disk Framing Segment Wal Codec.
From S2P Require Import Replicator Redb Store StoreSpec StoreRefine StoreRecovery StoreReads CorePlacement Pool PoolSpec.

#[local] Arguments contents : simpl never.
#[local] Arguments write_at : simpl never.
#[local] Arguments sync : simpl never.
#[local] Opaque WAL_CAPACITY_BYTES.

Section Ops.
Context {DB : Type} `{!Redb DB} `{!RedbLaws DB} `{!RedbReliable DB} `{HI : !HashIter}.
Implicit Types (w : os_world) (p : Pool DB).

(** ** The write loops *)
Lemma for_each_ok hdr bs (Q : Prop) f ids w p w' p' out :
  0 <= hdr ->
  (forall id w p w' p' out, disks_ok p -> is_Some (disks p !! id) -> f id (w, p) = ((w', p'), out) ->
     round_ok hdr bs id w p w' p' out /\ (is_ok out = true -> Q)) ->
  disks_ok p -> Forall (fun id => is_Some (pm_disks (pool_map p) !! id)) ids ->
  for_each f ids (w, p) = ((w', p'), out) ->
  data_phase w p w' p' /\
  match out with
  | Ok rs => rs.*1 = ids /\ Forall (stored hdr bs w' p') rs /\ Forall (at_or_after p) rs /\ (ids <> [] -> Q)
  | Err e => exists x, e = Io x
  | Panic => False
  end.
Proof.
  intros Hh Hf. revert w p w' p' out. induction ids as [|id ids IH]; intros w p w' p' out Hok Hids E.
  - injection E as <- <- <-. split; [now apply data_phase_refl|]. split_and!; auto. congruence.
  - apply Forall_cons in Hids as [Hid Hids]. cbn [for_each] in E. unfold io_bind, io_ret in E.
    destruct (f id (w, p)) as [[w1 p1] r1] eqn:E1.
    destruct (Hf _ _ _ _ _ _ Hok (proj1 (do_dom _ Hok id) Hid) E1) as [(Hp1 & Hr1) HQ].
    destruct r1 as [r|e|]; [|injection E as <- <- <-; split_and!; eauto|destruct Hr1].
    destruct (for_each f ids (w1, p1)) as [[w2 p2] r2] eqn:E2. rewrite <- (dp_map _ _ _ _ Hp1) in Hids.
    destruct (IH _ _ _ _ _ (dp_disks _ _ _ _ Hp1) Hids E2) as (Hp2 & Hr2).
    pose proof (data_phase_trans _ _ _ _ _ _ Hp1 Hp2) as Hp.
    destruct r2 as [rs|e|]; [| |destruct Hr2]; injection E as <- <- <-; (split; [exact Hp|]); [|exact Hr2].
    destruct Hr2 as (Hrs & Hst & Haf & _), Hr1 as (Hr & Hs1 & Ha1).
    split; [rewrite fmap_cons; congruence|]. split; [|split; [|auto]]; (constructor; [|]); auto.
    + apply (stored_grows _ _ w1 p1); [exact Hh|apply (dp_grows _ _ _ _ Hp2)|exact Hs1].
    + rewrite Forall_lookup in Haf |- *. intros i x Hx. apply (at_or_after_reached p w1 p1); [exact (dp_reached _ _ _ _ Hp1)|eauto|].
      apply (do_dom _ Hok). rewrite Forall_lookup in Hids. rewrite <- (dp_map _ _ _ _ Hp1). apply (Hids i). rewrite <- Hrs.
      now rewrite list_lookup_fmap, Hx.
Qed.

(** ** Placement *)
Lemma mapM_id_Some {A} (l : list (option A)) ids : mapM id l = Some ids -> l = Some <$> ids.
Proof. intros E. apply mapM_Some in E. induction E; csimpl; [done|]. unfold id in *. congruence. Qed.

Lemma place_ok p scheme key out :
  disks_ok p -> wf_scheme scheme -> place p scheme key = out ->
  match out with
  | Ok ids => NoDup ids /\ Forall (fun id => is_Some (pm_disks (pool_map p) !! id)) ids /\
      (length ids <= MAX_SELECT)%nat /\ (asks_replica scheme -> ids <> [])
  | Err e => e = Unplaceable
  | Panic => False
  end.
Proof.
  intros Hok Hw. unfold place. destruct scheme as [slots|d q]; intros Eout; subst out; [|reflexivity].
  rewrite placement_runs by apply (do_map _ Hok). cbn [map_err result_bind]. destruct Hw as [_ Hw].
  destruct (placement_spec (pool_map p) slots key (fun e => role_data (de_roles e)) (do_map _ Hok) Hw) as [Hl Hs].
  set (l := placement _ _ _ _) in *.
  destruct (mapM _ _) as [ids|] eqn:E; cbn [ok_or]; [|reflexivity].
  unfold DiskId, Uuid in *. apply mapM_id_Some in E. assert (Hlen : length l = length ids) by (rewrite E; apply length_fmap).
  assert (Hi : forall i id, ids !! i = Some id -> is_Some (pm_disks (pool_map p) !! id) /\ (Some id ∉ take i l)).
  { intros i id Ei. assert (Hlt : (i < length l)%nat) by (rewrite Hlen; now apply lookup_lt_Some in Ei).
    destruct (lookup_lt_is_Some_2 slots i) as [slot Eslot]; [lia|].
    destruct (Hs i slot Eslot Hlt) as (o & Eo & Ho). rewrite E, list_lookup_fmap, Ei in Eo. injection Eo as <-.
    destruct Ho as [(e & He & _) Hn]. eauto. }
  split; [|split; [|split]].
  - apply NoDup_alt. intros i j id Ei Ej. destruct (decide (i = j)) as [|Hne]; [assumption|exfalso].
    assert (forall i j, (i < j)%nat -> ids !! i = Some id -> ids !! j = Some id -> False) as Hord.
    { intros i0 j0 Hij E0 E1. destruct (Hi j0 id E1) as [_ Hn]. apply Hn.
      apply list_elem_of_lookup. exists i0. rewrite lookup_take_lt, E, list_lookup_fmap, E0 by lia. reflexivity. }
    destruct (lt_dec i j); eauto. apply (Hord j i); auto. lia.
  - apply Forall_lookup. intros i id Ei. now apply (Hi i).
  - lia.
  - intros Ha ->. destruct slots; [now destruct Ha|]. simpl in Hl, Hlen. unfold MAX_SELECT in Hl. lia.
Qed.

(** ** Metadata operations *)

(** The log has room for [n] more bytes. *)
Definition wal_room (s : MetaStore (Arc FileDisk) DB) (n : Z) : Prop := ms_wal_cursor s + n <= WAL_CAPACITY_BYTES.

Lemma meta_inv_step s s' m m' n c :
  refines s' m' -> ms_wal_base_offset s' = 0 -> ms_wal_cursor s' = c ->
  wf_meta n m' -> 0 <= n <= c -> c <= WAL_CAPACITY_BYTES -> meta_inv s m -> meta_inv s' m'.
Proof.
  intros Hr Hb Hc Hw Hn Hle _. split; auto; rewrite Hc; [lia|]. eapply wf_meta_weaken; [|exact Hw]. lia.
Qed.

(** What applying [op] to a store with the state [m] gives: the state it
    has in the end. *)
Definition local_meta (op : MetaOp) (m : meta) (s' : MetaStore (Arc FileDisk) DB) (r : result MetaStoreError unit) : Prop :=
  match r with
  | Ok _ => exists m', spec_apply op m = Ok m' /\ meta_inv s' m'
  | Err (InvalidOp x) => spec_apply op m = Err x /\ meta_inv s' m
  | _ => False
  end.

(** [s1] is [s] with the operation of [n] bytes logged. *)
Lemma apply_locally_meta s s1 s2 m op r n :
  meta_inv s m -> wf_op op -> 0 <= op_weight op <= n -> ms_wal_cursor s + n <= WAL_CAPACITY_BYTES ->
  refines s1 m -> ms_wal_base_offset s1 = 0 -> ms_wal_cursor s1 = ms_wal_cursor s + n ->
  apply_locally op s1 = (s2, r) -> ms_wal_cursor s2 <= ms_wal_cursor s + n /\ local_meta op m s2 r.
Proof.
  intros Hi Hop Hwt Hroom Hr1 Hb1 Hc1 El. pose proof Hi as [Hr Hb Hc Hw].
  assert (Hcap : WAL_CAPACITY_BYTES < 2 ^ 32) by reflexivity.
  pose proof (fun e => apply_locally_reliable op s1 e) as Hrel. rewrite El in Hrel.
  destruct (apply_locally_spec _ _ _ _ _ _ Hr1 Hw Hop El) as [(_ & Eb & Ecu) Hout].
  split; [lia|]. destruct r as [[]|[| | | |x]|]; cbn [local_outcome local_meta snd] in *; try contradiction.
  - destruct Hout as (m' & Hm' & Hr'). exists m'. split; [exact Hm'|].
    eapply (meta_inv_step s s2 m m' (ms_wal_cursor s + op_weight op)); eauto; try congruence; try lia.
    eapply wf_spec_apply; eauto; lia.
  - now destruct (Hrel e).
  - destruct Hout as [Hx ->]. split; [exact Hx|].
    eapply (meta_inv_step s s1 m m (ms_wal_cursor s)); eauto; lia.
Qed.

(** [apply], seen from the process: the operation's effect on the abstract
    state, and that it writes nothing past the log region. *)
Lemma apply_meta w s m op w' s' out :
  meta_inv s m -> wf_op op -> wal_room s (Zlen (frame (encode_op op))) -> apply op (w, s) = ((w', s'), out) ->
  (forall (d : Arc FileDisk) b, kept d w w' WAL_CAPACITY_BYTES b /\ lasting d w w' WAL_CAPACITY_BYTES b) /\
  ms_wal_cursor s' <= ms_wal_cursor s + Zlen (frame (encode_op op)) /\
  match out with
  | Ok _ => exists m', spec_apply op m = Ok m' /\ meta_inv s' m'
  | Err (CommitErr _) => meta_inv s' m
  | Err (InvalidOp x) => spec_apply op m = Err x /\ meta_inv s' m
  | _ => False
  end.
Proof.
  intros Hi Hop Hroom E. pose proof Hi as [Hr Hb Hc Hw]. unfold wal_room in Hroom.
  assert (Hcap : WAL_CAPACITY_BYTES < 2 ^ 32) by reflexivity.
  pose proof (logged_weight (encode_op op) op (ex_intro _ HI eq_refl)) as Hwt. pose proof (op_weight_nonneg op).
  pose proof (Zlen_frame (encode_op op)) as Hfr. set (n := Zlen (frame (encode_op op))) in *.
  assert (H64 : ms_wal_cursor s + n < 2 ^ 64) by lia. destruct (apply_stages _ _ _ _ _ _ Hb (proj1 Hc) H64 E) as (rc & Ec & Hrc). fold n in Hrc.
  split; [intros d b; split; [apply (commit_kept _ _ _ _ _ _ _ _ _ Ec)|apply (commit_lasting _ _ _ _ _ _ _ _ _ Ec)]; fold n; lia|].
  assert (Hloc : forall s1 s2 r, refines s1 m -> ms_wal_base_offset s1 = 0 -> ms_wal_cursor s1 = ms_wal_cursor s + n ->
    apply_locally op s1 = (s2, r) -> ms_wal_cursor s2 <= ms_wal_cursor s + n /\
      match r with
      | Ok _ => exists m', spec_apply op m = Ok m' /\ meta_inv s2 m'
      | Err (CommitErr _) => meta_inv s2 m
      | Err (InvalidOp x) => spec_apply op m = Err x /\ meta_inv s2 m
      | _ => False
      end).
  { intros s1 s2 r Hr1 Hb1 Hc1 El.
    destruct (apply_locally_meta s s1 s2 m op r n Hi Hop ltac:(lia) ltac:(lia) Hr1 Hb1 Hc1 El) as [Hcu Hl].
    split; [exact Hcu|]. destruct r as [|[]|]; auto; contradiction. }
  destruct rc as [[]|[e|e]|]; [| | |contradiction]; [now apply Hloc in Hrc..|].
  destruct Hrc as [-> ->]. split; [lia|exact Hi].
Qed.

Lemma base_above_log : WAL_CAPACITY_BYTES <= SEGMENT_BASE_OFFSET.
Proof. unfold SEGMENT_BASE_OFFSET, WAL_BASE_OFFSET, SUPERBLOCK_RESERVE_BYTES. lia. Qed.

(** The same through the pool. *)
Lemma meta_apply_ok w p m op w' p' out :
  meta_inv (p_meta p) m -> wf_op op -> wal_room (p_meta p) (Zlen (frame (encode_op op))) ->
  meta_apply op (w, p) = ((w', p'), out) ->
  disks p' = disks p /\ pool_map p' = pool_map p /\ grows w p w' p' /\
  ms_wal_cursor (p_meta p') <= ms_wal_cursor (p_meta p) + Zlen (frame (encode_op op)) /\
  match out with
  | Ok _ => exists m', spec_apply op m = Ok m' /\ meta_inv (p_meta p') m'
  | Err (Meta (CommitErr _)) => meta_inv (p_meta p') m
  | Err (Meta (InvalidOp x)) => spec_apply op m = Err x /\ meta_inv (p_meta p') m
  | _ => False
  end.
Proof.
  intros Hm Hop Hroom E. unfold meta_apply in E. cbn [fst snd] in E.
  destruct (apply op (w, p_meta p)) as [[w1 s1] r1] eqn:Ea. injection E as <- <- <-.
  destruct (apply_meta _ _ _ _ _ _ _ Hm Hop Hroom Ea) as (Hk & Hcu & Hout).
  split; [reflexivity|]. split; [reflexivity|]. split; [|split; [exact Hcu|]].
  - pose proof base_above_log. apply grows_same; [reflexivity| |].
    + intros d o bs Ho. apply (kept_has _ _ _ _ _ _ _ (proj1 (Hk d (o + Zlen bs)))); lia.
    + intros d b x y Hx. apply (proj2 (Hk d b)). lia.
  - destruct r1 as [|[]|]; exact Hout.
Qed.

Lemma disks_ok_same p p' : disks p' = disks p -> pool_map p' = pool_map p -> disks_ok p -> disks_ok p'.
Proof. intros E1 E2 [H1 H2 H3 H4]. split; rewrite ?E1, ?E2; auto. Qed.

(** ** Keeping the invariant *)
Lemma inv_keep w p m fc w' p' m' :
  pool_inv w p m fc -> grows w p w' p' -> disks_ok p' -> meta_inv (p_meta p') m' ->
  m_inodes m' = m_inodes m -> m_next m <= m_next m' -> pool_inv w' p' m' fc.
Proof.
  intros [Hm Hb Hd Hpol Hf] Hg Hok Hm' Ei En. split; auto; unfold ids_below; rewrite ?Ei; auto.
  - eapply map_Forall_impl; [exact Hb|]. simpl. intros. lia.
  - intros id. destruct (Hf id); constructor. eapply data_grows; eauto.
Qed.

(** It does not depend on what has not been synced. *)
Lemma stored_crashed hdr bs w w' p r : crashed w w' -> stored hdr bs w p r -> stored hdr bs w' p r.
Proof.
  intros Hc (h & E & H0 & Hcu & Hf & Hs). exists h. split_and!; auto; [|exact (proj1 (crashed_settled _ _ _ _ _ Hc Hs))].
  eapply crashed_has; eauto; lia.
Qed.

Lemma crashed_inv w w' p m fc : crashed w w' -> pool_inv w p m fc -> pool_inv w' p m fc.
Proof.
  intros Hc [H1 H2 H3 H4 Hf]. split; auto. intros id. destruct (Hf id) as [r c Hd|]; constructor.
  apply (data_mono w p w' p (fun _ => True)); [|apply everywhere|exact Hd]. intros hdr bs r0 _ _. now apply stored_crashed.
Qed.

Lemma inv_update w p m fc w' p' r r' c' :
  pool_inv w p m fc -> grows w p w' p' -> disks_ok p' -> m_inodes m !! ir_inode r' = Some r ->
  meta_inv (p_meta p') (with_inode r' m) -> asks_replica (ir_redundancy r') -> data_holds w' p' r' c' ->
  pool_inv w' p' (with_inode r' m) (<[ir_inode r' := c']> fc).
Proof.
  intros [Hm Hb Hd Hpol Hf] Hg Hok Er Hm' Ha Hc. split; auto; unfold ids_below; cbn [with_inode m_inodes m_next].
  - apply map_Forall_insert_2; [|exact Hb]. exact (Hb _ _ Er).
  - now apply map_Forall_insert_2.
  - intros id. destruct (decide (ir_inode r' = id)) as [<-|Hne].
    + rewrite !lookup_insert_eq. now constructor.
    + rewrite !lookup_insert_ne by exact Hne. destruct (Hf id); constructor. eapply data_grows; eauto.
Qed.

(** ** The course of an operation

    Every operation of the pool writes data first and then logs metadata
    operations; all but [create_file] log at most one.  [effect] says what an
    operation [X] that the log takes does to the contents, [course] how a run
    can go: past the data phase, at which [P] holds, it stops with an error of
    which [R] says what it is, or it logs an [X] of which [Q] says so. *)
Definition effect w p m (fc : gmap Z (list byte)) (X : MetaOp) (fc' : gmap Z (list byte)) : Prop :=
  wf_op X /\ wal_room (p_meta p) (Zlen (frame (encode_op X))) /\
  forall m' w' p', spec_apply X m = Ok m' -> grows w p w' p' -> disks_ok p' -> meta_inv (p_meta p') m' ->
    pool_inv w' p' m' fc'.

Definition course w p m (fc : gmap Z (list byte)) (P : os_world -> Pool DB -> Prop)
    (Q : MetaOp -> gmap Z (list byte) -> Prop) (R : PoolError -> Prop) w' p' (out : result PoolError unit) : Prop :=
  exists w1 p1, data_phase w p w1 p1 /\ P w1 p1 /\
    ((exists e, out = Err e /\ w' = w1 /\ p' = p1 /\ R e /\ forall x, e <> Meta x) \/
     (exists X fc', effect w1 p1 m fc X fc' /\ Q X fc' /\ meta_apply X (w1, p1) = ((w', p'), out))).

Lemma course_mono w p m fc (P P' : os_world -> Pool DB -> Prop) Q R Q' (R' : PoolError -> Prop) w' p' out :
  (forall w1 p1, P w1 p1 -> P' w1 p1) -> (forall X fc', Q X fc' -> Q' X fc') -> (forall e, R e -> R' e) ->
  course w p m fc P Q R w' p' out -> course w p m fc P' Q' R' w' p' out.
Proof.
  intros HP' HQ HR (w1 & p1 & Hp & HP & [(e & ? & ? & ? & ? & ?)|(X & fc' & He & Hx & E)]); exists w1, p1; (split; [exact Hp|split; [exact (HP' _ _ HP)|]]).
  - left. exists e. split_and!; auto.
  - right. exists X, fc'. split_and!; auto.
Qed.

(** A run that stops before it has changed anything. *)
Lemma course_stop w p m fc (P : os_world -> Pool DB -> Prop) (Q : MetaOp -> gmap Z (list byte) -> Prop) (R : PoolError -> Prop) e :
  disks_ok p -> P w p -> R e -> (forall x, e <> Meta x) -> course w p m fc P Q R w p (Err e).
Proof. intros Hok HP HR Hx. exists w, p. split; [now apply data_phase_refl|split; [exact HP|left; eauto 6]]. Qed.

(** A run that is one metadata operation. *)
Lemma course_meta w p m fc (P : os_world -> Pool DB -> Prop) (Q : MetaOp -> gmap Z (list byte) -> Prop) (R : PoolError -> Prop)
    X fc' w' p' out :
  disks_ok p -> P w p -> effect w p m fc X fc' -> Q X fc' -> meta_apply X (w, p) = ((w', p'), out) ->
  course w p m fc P Q R w' p' out.
Proof. intros Hok HP He HQ E. exists w, p. split; [now apply data_phase_refl|split; [exact HP|right; eauto 6]]. Qed.

(** The pool after a data phase: nothing it shows has changed. *)
Lemma data_phase_inv w p m fc w' p' : pool_inv w p m fc -> data_phase w p w' p' -> pool_inv w' p' m fc.
Proof.
  intros Hi [Hg Hok _ Em _ _]. apply (inv_keep w p m); auto; [|lia]. rewrite Em. apply (pi_meta _ _ _ _ Hi).
Qed.

(** What logging [X] comes to. *)
Lemma effect_outcome w p m fc X fc' w' p' out :
  pool_inv w p m fc -> effect w p m fc X fc' -> meta_apply X (w, p) = ((w', p'), out) ->
  disks p' = disks p /\ grows w p w' p' /\
  ms_wal_cursor (p_meta p') <= ms_wal_cursor (p_meta p) + Zlen (frame (encode_op X)) /\
  match out with
  | Ok _ => exists m', spec_apply X m = Ok m' /\ pool_inv w' p' m' fc'
  | Err (Meta (CommitErr _)) => pool_inv w' p' m fc
  | Err (Meta (InvalidOp x)) => spec_apply X m = Err x /\ pool_inv w' p' m fc
  | _ => False
  end.
Proof.
  intros Hi (Hop & Hroom & Heff) E.
  destruct (meta_apply_ok _ _ _ X _ _ _ (pi_meta _ _ _ _ Hi) Hop Hroom E) as (Ed & Em & Hg & Hcu & Hout).
  pose proof (disks_ok_same _ _ Ed Em (pi_disks _ _ _ _ Hi)) as Hok.
  assert (Hkeep : meta_inv (p_meta p') m -> pool_inv w' p' m fc) by (intros; apply (inv_keep w p m); auto; lia).
  do 3 (split; [assumption|]). destruct out as [[]|[|[]| | | |]|]; try contradiction; auto.
  - destruct Hout as (m' & Es & Hm'). eauto.
  - destruct Hout; auto.
Qed.

(** What an operation with a course comes to. *)
Lemma course_outcome w p m fc P Q R w' p' out :
  pool_inv w p m fc -> course w p m fc P Q R w' p' out ->
  match out with
  | Ok _ => exists X fc' m', Q X fc' /\ spec_apply X m = Ok m' /\ pool_inv w' p' m' fc'
  | Err e => pool_inv w' p' m fc /\
      match e with
      | Meta (CommitErr _) => exists X fc', Q X fc'
      | Meta (InvalidOp x) => exists X fc', Q X fc' /\ spec_apply X m = Err x
      | Meta _ => False
      | _ => R e
      end
  | Panic => False
  end.
Proof.
  intros Hi (w1 & p1 & Hp & _ & [(e & -> & -> & -> & HR & Hx)|(X & fc' & He & HQ & E)]).
  - split; [now apply (data_phase_inv w p)|]. destruct e; auto. now destruct (Hx e).
  - pose proof (data_phase_inv _ _ _ _ _ _ Hi Hp) as Hi1.
    destruct (effect_outcome _ _ _ _ _ _ _ _ _ Hi1 He E) as (_ & _ & _ & Hout).
    destruct out as [[]|[|[]| | | |]|]; try contradiction.
    + destruct Hout as (m' & Es & Hi'). eauto 6.
    + split; [exact Hout|eauto].
    + destruct Hout as [Es Hi']. split; [exact Hi'|eauto].
Qed.

(** The effect of an operation that replaces the record [r] by [r']. *)
Lemma effect_update w p m fc X r r' c' :
  pool_inv w p m fc -> wf_op X -> wal_room (p_meta p) (Zlen (frame (encode_op X))) ->
  m_inodes m !! ir_inode r' = Some r -> spec_apply X m = Ok (with_inode r' m) -> asks_replica (ir_redundancy r') ->
  (forall w' p', grows w p w' p' -> data_holds w' p' r' c') ->
  effect w p m fc X (<[ir_inode r' := c']> fc).
Proof.
  intros Hi Hop Hroom Er Es Ha Hd. split; [exact Hop|]. split; [exact Hroom|]. intros m' w' p' Em Hg Hok Hm'.
  rewrite Es in Em. injection Em as <-. apply (inv_update w p m fc w' p' r); auto.
Qed.

(** ** Reading *)
Lemma find_inode_ok p m (inode : Z) :
  meta_inv (p_meta p) m ->
  find_inode p inode = match m_inodes m !! inode with Some r => Ok r | None => Err InodeNotFound end.
Proof.
  intros Hm. unfold find_inode, get_inode.
  destruct (get_and_lookup _ _ _ inode 0 [] (mi_refines _ _ Hm) (mi_wf _ _ Hm) ltac:(split; lia)) as [-> _].
  cbn [map_err result_bind]. now destruct (m_inodes m !! inode).
Qed.

Lemma Arc_readable (d : Arc FileDisk) w off bs : file_has (contents d w) off bs -> read_at d off (length bs) w = Ok bs.
Proof. exact (FileDisk_readable (deref d) w off (length bs) bs). Qed.

Lemma stored_bounds hdr bs w p r :
  disks_ok p -> 0 <= hdr -> stored hdr bs w p r ->
  u128 r.1 /\ 0 <= r.2 /\ SEGMENT_BASE_OFFSET + r.2 + hdr + Zlen bs < 2 ^ 63.
Proof.
  intros Hok Hh (h & E & H0 & Hc & _). destruct (do_cursors _ Hok _ _ E) as [_ Hlt].
  split; [|lia]. destruct (proj2 (do_dom _ Hok r.1) (ex_intro _ h E)) as [e He].
  destruct (do_map _ Hok) as [(_ & _ & Hd) _]. now destruct (Hd _ _ He).
Qed.

Lemma read_replicated_ok hdr bs w p rs :
  disks_ok p -> 0 <= hdr -> replicated hdr bs w p rs -> read_replicated p rs hdr (length bs) w = Ok bs.
Proof.
  intros Hok Hh (Hne & _ & Hst). destruct rs as [|[id off] rs]; [congruence|]. apply Forall_cons in Hst as [Hs _].
  destruct (stored_bounds _ _ _ _ _ Hok Hh Hs) as (_ & H0 & Hlt). cbn [fst snd] in *.
  destruct Hs as (h & E & _ & _ & Hf & _). cbn [fst snd] in E, Hf.
  unfold read_replicated. cbn [head ok_or result_bind]. rewrite E. cbn [ok_or result_bind].
  pose proof (Zlen_nonneg bs). assert (0 <= SEGMENT_BASE_OFFSET) by (vm_compute; discriminate).
  unfold as_u64. rewrite wrap_small by (split; lia). now rewrite (Arc_readable _ _ _ _ Hf).
Qed.

Lemma read_chunks_ok w p cs bss :
  disks_ok p -> Forall2 (chunk_holds w p) cs bss -> read_chunks p cs w = Ok (concat bss).
Proof.
  intros Hok. induction 1 as [|c bs cs bss (Hl & _ & Hr) _ IH]; [reflexivity|]. cbn [read_chunks concat].
  rewrite Hl. unfold Zlen. rewrite Nat2Z.id, (read_replicated_ok (Z.of_nat Segment.HEADER_LEN) bs _ _ _ Hok ltac:(lia) Hr). cbn [result_bind].
  now rewrite IH.
Qed.

Lemma splice_all bs buf : length bs = length buf -> splice 0 bs buf = bs.
Proof. intros E. unfold splice. rewrite take_0, drop_ge by lia. now rewrite app_nil_r. Qed.

Lemma read_full_content_ok w p r c : disks_ok p -> data_holds w p r c -> read_full_content p r w = Ok c.
Proof.
  intros Hok [Hs Hd]. unfold read_full_content.
  destruct (ir_mode r), (ir_data r) as [cs|xs]; try contradiction.
  - destruct Hd as (bss & -> & H). now apply read_chunks_ok.
  - destruct Hd as (bss & -> & H). now apply read_chunks_ok.
  - destruct xs as [|x [|]]; cbn [extents_hold] in Hd; [| |contradiction].
    { subst c. now rewrite Hs. }
    destruct Hd as (H0 & Hl & _ & Hr). cbn [read_extents]. rewrite Hl, H0, Hs. replace (Z.to_nat (Zlen c)) with (length c) by (unfold Zlen; lia).
    rewrite (read_replicated_ok 0 c _ _ _ Hok ltac:(lia) Hr). cbn [result_bind].
    pose proof Hr as (Hne & _ & Hst). destruct (ex_replicas x) as [|a rs]; [congruence|]. apply Forall_cons in Hst as [Hst _].
    destruct (stored_bounds 0 c _ _ _ Hok ltac:(lia) Hst) as (_ & ? & Hlt). pose proof (Zlen_nonneg c).
    assert (0 <= SEGMENT_BASE_OFFSET) by (vm_compute; discriminate).
    unfold as_u64. rewrite Z.add_0_l, wrap_small by (split; lia).
    rewrite (proj2 (Z.leb_le 0 (Zlen c))), (proj2 (Z.leb_le (Zlen c) _)) by (unfold Zlen; rewrite ?length_replicate; lia).
    cbn [andb]. rewrite splice_all by now rewrite length_replicate. reflexivity.
Qed.

(** ** Sizes and widths of the operations the data path logs *)

(** Enough log space for one operation with sixteen replicas. *)
Definition data_op_room : Z := 512.

Lemma Zlen_replicas rs : Zlen (encode_replica_offsets rs) = 4 + 24 * Zlen rs.
Proof.
  unfold encode_replica_offsets, put_vec, put_u32. rewrite Zlen_app.
  assert (E : Zlen (concat ((fun '(id, offset) => encode_uuid id ++ put_u64 offset) <$> rs)) = 24 * Zlen rs).
  { induction rs as [|[a b] rs IH]; [reflexivity|]. rewrite fmap_cons. cbn [concat]. rewrite Zlen_app, IH, Zlen_cons.
    unfold encode_uuid, put_u128, put_u64, Zlen. rewrite length_app, !length_to_le. lia. }
  rewrite E. unfold Zlen. rewrite length_to_le. lia.
Qed.

Lemma append_op_size inode c :
  (length (cp_replicas c) <= MAX_SELECT)%nat -> Zlen (frame (encode_op (AppendChunk inode c))) <= data_op_room.
Proof.
  intros Hl. unfold MAX_SELECT in Hl. rewrite Zlen_frame. cbn [encode_op]. unfold encode_chunk_pointer.
  rewrite !Zlen_app, Zlen_replicas. unfold put_u8, put_u64, put_u32, Zlen, data_op_room. rewrite !length_to_le. lia.
Qed.

Definition one_extent (xs : list Extent) : Prop :=
  xs = [] \/ exists x, xs = [x] /\ (length (ex_replicas x) <= MAX_SELECT)%nat.

Lemma extents_op_size inode xs :
  one_extent xs -> Zlen (frame (encode_op (CompleteConvert inode xs))) <= data_op_room /\
    Zlen (frame (encode_op (UpdateExtents inode xs))) <= data_op_room.
Proof.
  intros Hx. assert (Hl : Zlen (put_vec encode_extent xs) <= 424).
  { unfold put_vec. rewrite Zlen_app. destruct Hx as [-> |(x & -> & Hl)].
    - unfold put_u32, Zlen. rewrite length_to_le. simpl. lia.
    - unfold MAX_SELECT in Hl. rewrite fmap_cons, fmap_nil. cbn [concat]. unfold encode_extent.
      rewrite app_nil_r, !Zlen_app, Zlen_replicas. unfold put_u64, put_u32, Zlen. rewrite !length_to_le. lia. }
  rewrite !Zlen_frame. cbn [encode_op]. rewrite !Zlen_app. unfold put_u8, put_u64, data_op_room.
  unfold Zlen at 1 2 4 5. rewrite !length_to_le. lia.
Qed.

Lemma replicas_wf hdr bs w p rs :
  disks_ok p -> 0 <= hdr -> (length rs <= MAX_SELECT)%nat -> Forall (stored hdr bs w p) rs -> wf_replicas rs.
Proof.
  intros Hok Hh Hl Hs. unfold MAX_SELECT in Hl. split; [unfold Zlen; split; lia|].
  eapply Forall_impl; [exact Hs|]. intros [id off] Hst.
  destruct (stored_bounds _ _ _ _ _ Hok Hh Hst) as (Hid & H0 & Hlt). cbn [fst snd] in *. split; [exact Hid|].
  pose proof (Zlen_nonneg bs). assert (0 <= SEGMENT_BASE_OFFSET) by (vm_compute; discriminate). split; lia.
Qed.

(** ** [read] *)
Lemma pool_inv_find w p m fc (inode : Z) :
  pool_inv w p m fc ->
  match find_inode p inode with
  | Ok r => exists c, m_inodes m !! inode = Some r /\ fc !! inode = Some c /\ data_holds w p r c /\
      wf_inode r /\ ir_inode r = inode /\ asks_replica (ir_redundancy r) /\ chunk_count r <= WAL_CAPACITY_BYTES
  | Err e => e = InodeNotFound /\ m_inodes m !! inode = None /\ fc !! inode = None
  | Panic => False
  end.
Proof.
  intros Hi. rewrite (find_inode_ok _ _ _ (pi_meta _ _ _ _ Hi)). pose proof (pi_data _ _ _ _ Hi inode) as Hd.
  destruct (m_inodes m !! inode) as [r|] eqn:Er; inversion Hd as [? c Hc E1 E2|E1 E2]; subst; [|auto].
  exists c. destruct (wf_inodes _ _ (mi_wf _ _ (pi_meta _ _ _ _ Hi)) _ _ Er) as (Hw & Hid & Hcc).
  pose proof (pi_policy _ _ _ _ Hi _ _ Er). destruct (mi_cursor _ _ (pi_meta _ _ _ _ Hi)).
  split_and!; auto. lia.
Qed.

(** What [read] returns: the bytes from [offset], at most [len] of them. *)
Definition content_slice (c : list byte) (offset len : Z) : list byte :=
  take (Z.to_nat len) (drop (Z.to_nat offset) c).

Lemma read_ok_content w p m fc (inode : Z) c offset len :
  pool_inv w p m fc -> fc !! inode = Some c -> 0 <= offset -> 0 <= len ->
  read p inode offset len w = Ok (content_slice c offset len).
Proof.
  intros Hi Hc Ho Hl. unfold read. pose proof (pool_inv_find _ _ _ _ inode Hi) as Hf.
  destruct (find_inode p inode) as [r|e|]; [|destruct Hf as (_ & _ & ?); congruence|contradiction].
  destruct Hf as (c' & _ & E & Hd & (_ & Hsz & _) & _). rewrite E in Hc. injection Hc as ->. cbn [result_bind].
  rewrite (proj1 Hd) in Hsz. destruct Hsz as [_ Hsz]. unfold u64_max.
  rewrite (read_full_content_ok _ _ _ _ (pi_disks _ _ _ _ Hi) Hd). cbn [result_bind].
  pose proof (Zlen_nonneg c). unfold slice. rewrite decide_True by (unfold Zlen in *; lia). cbn [unwrap].
  f_equal. unfold content_slice. unfold Zlen in *. destruct (Z.le_ge_cases offset (Z.of_nat (length c))) as [Hle|Hge].
  - rewrite (Z.min_l offset) by lia. destruct (Z.le_ge_cases (offset + len) (Z.of_nat (length c))).
    + rewrite !Z.min_l by lia. f_equal. lia.
    + rewrite (Z.min_r _ (Z.of_nat (length c))) by lia.
      rewrite !take_ge by (rewrite length_drop; lia). reflexivity.
  - rewrite !drop_ge by lia. now rewrite !take_nil.
Qed.

(** ** [append] *)

(** The record after [AppendChunk] holds the old bytes and the new ones. *)
Lemma data_append w p w' p' r c cs chunk payload :
  grows w p w' p' -> data_holds w p r c -> ir_mode r <> Writable -> ir_data r = ChunkLog cs ->
  chunk_holds w' p' chunk payload -> Zlen c + Zlen payload < 2 ^ 64 ->
  data_holds w' p' (set_size (as_u64 (ir_size r + cp_len chunk)) (set_data (ChunkLog (cs ++ [chunk])) r)) (c ++ payload).
Proof.
  intros Hg Hd Hm Hcs Hch Hlt. apply (data_grows _ _ _ _ _ _ Hg) in Hd as [Hs Hd].
  pose proof Hch as (Hl & _). pose proof (Zlen_nonneg c). pose proof (Zlen_nonneg payload).
  split; cbn [set_size set_data ir_size ir_mode ir_data].
  - rewrite Hs, Hl, Zlen_app. unfold as_u64. apply wrap_small. split; lia.
  - rewrite Hcs in Hd. destruct (ir_mode r); [| |congruence]; destruct Hd as (bss & -> & HF);
      exists (bss ++ [payload]); rewrite concat_app; simpl; rewrite app_nil_r; (split; [reflexivity|]);
      apply Forall2_app; auto.
Qed.

(** What an error of [append] before the log means. *)
Definition append_error m (fc : gmap Z (list byte)) (inode : Z) (e : PoolError) : Prop :=
  match e with
  | InodeNotFound => fc !! inode = None
  | WrongMode => exists r, m_inodes m !! inode = Some r /\ ir_mode r = Writable
  | Unplaceable | Io _ => is_Some (fc !! inode)
  | _ => False
  end.

Lemma wf_chunk_log r cs : wf_inode r -> ir_data r = ChunkLog cs -> u64 (Zlen cs).
Proof. intros (_ & _ & _ & Hd & _) E. rewrite E in Hd. destruct Hd as [Hl _]. unfold fits in *. lia. Qed.

(** The operation that [append] logs. *)
Definition append_op m (fc : gmap Z (list byte)) (inode : Z) payload (X : MetaOp) (fc' : gmap Z (list byte)) : Prop :=
  exists c r cs chunk, fc !! inode = Some c /\ m_inodes m !! inode = Some r /\ ir_mode r <> Writable /\
    ir_data r = ChunkLog cs /\ X = AppendChunk inode chunk /\ fc' = <[inode := c ++ payload]> fc /\
    spec_apply X m = Ok (with_inode (set_size (as_u64 (ir_size r + cp_len chunk)) (set_data (ChunkLog (cs ++ [chunk])) r)) m).

(** The operation an append logs is well formed. *)
Lemma append_op_wf w p (inode : Z) payload r cs rs :
  disks_ok p -> wf_inode r -> ir_inode r = inode -> chunk_count r <= WAL_CAPACITY_BYTES -> ir_data r = ChunkLog cs ->
  Forall (stored (Z.of_nat Segment.HEADER_LEN) payload w p) rs -> (length rs <= MAX_SELECT)%nat -> Zlen payload < 2 ^ 32 ->
  u64 inode /\ u64 (Zlen cs) /\
  wf_op (AppendChunk inode {| cp_chunk_seq := Zlen cs; cp_replicas := rs; cp_len := as_u32 (Zlen payload);
                              cp_checksum := checksum payload |}).
Proof.
  intros Hok Hwf Hid Hcc Ed Hst Hlen H32. pose proof (Zlen_nonneg payload). pose proof (Zlen_nonneg cs).
  assert (Hu : as_u32 (Zlen payload) = Zlen payload) by (apply wrap_small; split; lia).
  unfold chunk_count in Hcc. rewrite Ed in Hcc. assert (WAL_CAPACITY_BYTES < 2 ^ 32) by reflexivity.
  assert (u64 inode) by (rewrite <- Hid; apply Hwf). split; [assumption|]. split; [split; lia|]. split; [assumption|].
  split_and!; cbn [cp_chunk_seq cp_replicas cp_len cp_checksum]; [split; lia| |rewrite Hu; split; lia|apply checksum_fits].
  apply (replicas_wf (Z.of_nat Segment.HEADER_LEN) payload w p); auto. lia.
Qed.

(** The end of [append]: the replicas are written, log the chunk. *)
Lemma append_effect w p m fc (inode : Z) payload r c cs rs w1 p1 :
  pool_inv w p m fc -> wal_room (p_meta p) data_op_room -> Zlen c + Zlen payload < 2 ^ 64 ->
  find_inode p inode = Ok r -> fc !! inode = Some c -> ir_mode r <> Writable -> ir_data r = ChunkLog cs ->
  data_phase w p w1 p1 -> replicated (Z.of_nat Segment.HEADER_LEN) payload w1 p1 rs -> (length rs <= MAX_SELECT)%nat ->
  Zlen payload < 2 ^ 32 ->
  let X := AppendChunk inode {| cp_chunk_seq := Zlen cs; cp_replicas := rs;
      cp_len := as_u32 (Zlen payload); cp_checksum := checksum payload |} in
  let fc' := <[inode := c ++ payload]> fc in
  effect w1 p1 m fc X fc' /\ append_op m fc inode payload X fc'.
Proof.
  intros Hi Hroom Hlt Hfind Ec Em Ed Hp Hrep Hlen H32 X fc'.
  pose proof (pool_inv_find _ _ _ _ inode Hi) as Hf. rewrite Hfind in Hf.
  destruct Hf as (c0 & Er & Ec' & Hd & Hwf & Hid & Hask & Hcc). rewrite Ec in Ec'. injection Ec' as <-.
  set (chunk := {| cp_chunk_seq := Zlen cs |}) in *.
  pose proof (Zlen_nonneg payload). assert (Hu : as_u32 (Zlen payload) = Zlen payload) by (apply wrap_small; split; lia).
  assert (Hch : chunk_holds w1 p1 chunk payload) by (split; [exact Hu|now split]).
  assert (Hop : wf_op X) by (destruct Hrep as (_ & _ & Hst);
    eapply (append_op_wf w1 p1 inode payload r cs rs); eauto using dp_disks).
  set (r' := set_size (as_u64 (ir_size r + cp_len chunk)) (set_data (ChunkLog (cs ++ [chunk])) r)).
  assert (Hspec : spec_apply X m = Ok (with_inode r' m)).
  { cbn [X spec_apply]. unfold on_inode. rewrite Er. cbn [ok_or result_bind]. now rewrite Ed. }
  split; [|exists c, r, cs, chunk; split_and!; auto]. unfold fc'. replace inode with (ir_inode r') by exact Hid.
  apply (effect_update w1 p1 m fc X r); auto; [exact (data_phase_inv _ _ _ _ _ _ Hi Hp)| |now cbn; rewrite Hid|].
  - rewrite (dp_meta _ _ _ _ Hp). pose proof (append_op_size inode chunk Hlen) as Hsz. fold X in Hsz. unfold wal_room in *. lia.
  - intros w' p' Hg. refine (data_append w p w' p' r c cs chunk payload _ Hd Em Ed (chunk_grows _ _ _ _ _ _ Hg Hch) Hlt).
    eapply grows_trans; [apply (dp_grows _ _ _ _ Hp)|exact Hg].
Qed.

(** Its replicas are new. *)
Definition chunk_after p (X : MetaOp) : Prop :=
  match X with AppendChunk _ c => Forall (at_or_after p) (cp_replicas c) | _ => True end.

Lemma append_course w p m fc (P : os_world -> Pool DB -> Prop) (inode : Z) payload w' p' out :
  P w p ->
  (forall seq ids w1 p1 r, u64 inode -> u64 seq -> r <> Panic ->
     for_each (append_replica (Record_new inode seq payload)) ids (w, p) = ((w1, p1), r) -> P w1 p1) ->
  pool_inv w p m fc -> wal_room (p_meta p) data_op_room ->
  (forall c, fc !! inode = Some c -> Zlen c + Zlen payload < 2 ^ 64) ->
  Pool.append inode payload (w, p) = ((w', p'), out) ->
  course w p m fc P (fun X fc' => append_op m fc inode payload X fc' /\ chunk_after p X) (append_error m fc inode) w' p' out.
Proof.
  intros HP Hloop Hi Hroom Hlt E. unfold Pool.append, io_bind, io_self, io_lift in E. cbn [fst snd] in E.
  pose proof (pi_disks _ _ _ _ Hi) as Hok. pose proof (pool_inv_find _ _ _ _ inode Hi) as Hf.
  destruct (find_inode p inode) as [r|e|] eqn:Efi;
    [|destruct Hf as (-> & _ & Hn); injection E as <- <- <-; now apply course_stop|contradiction].
  destruct Hf as (c & Er & Ec & Hd & Hwf & Hid & Hask & Hcc). pose proof Hd as [_ Hdd].
  destruct (decide (ir_mode r = Writable)) as [Em|Em].
  { rewrite Em in E. injection E as <- <- <-. apply course_stop; cbn; eauto. }
  destruct (ir_data r) as [cs|xs] eqn:Ed; [|destruct (ir_mode r); contradiction].
  assert (E' : (let! disk_ids := io_lift (place p (ir_redundancy r) (placement_key inode (Zlen cs))) in
    let! replicas := for_each (append_replica (Record_new inode (Zlen cs) payload)) disk_ids in
    meta_apply (AppendChunk inode {| cp_chunk_seq := Zlen cs; cp_replicas := replicas;
      cp_len := as_u32 (Zlen payload); cp_checksum := checksum payload |})) (w, p) = ((w', p'), out))
    by (destruct (ir_mode r); [exact E|exact E|congruence]).
  clear E. unfold io_bind, io_lift in E'. pose proof Hwf as (_ & _ & Hws & _).
  destruct (place p _ _) as [ids|e|] eqn:Epl; apply (place_ok _ _ _ _ Hok Hws) in Epl; cbn iota in Epl; [| |destruct Epl].
  2: { subst e. injection E' as <- <- <-. apply course_stop; cbn; eauto. }
  destruct Epl as (Hnd & Hids & Hmax & Hne). specialize (Hne Hask).
  destruct (for_each _ ids (w, p)) as [[w1 p1] r1] eqn:Ef.
  destruct (for_each_ok (Z.of_nat Segment.HEADER_LEN) payload (Zlen payload < 2 ^ 32) _ _ _ _ _ _ _ ltac:(lia)
    ltac:(intros *; apply append_replica_round) Hok Hids Ef) as (Hp & Hr1).
  exists w1, p1. split; [exact Hp|]. rewrite <- Hid in Hloop, Ef.
  split. { apply (Hloop _ _ _ _ _ (proj1 Hwf) (wf_chunk_log _ _ Hwf Ed)) with (2 := Ef). now intros ->. }
  destruct r1 as [rs|e|]; [|destruct Hr1 as [x ->]; injection E' as <- <- <-; left; exists (Io x); split_and!; [done..|cbn; eauto|discriminate]|contradiction].
  right. destruct Hr1 as (Hrs & Hst & Haf & HQ). subst ids.
  destruct (append_effect w p m fc inode payload r c cs rs w1 p1) as [He HX]; eauto.
  - split; [intros ->; now apply Hne|now split].
  - now rewrite <- (length_fmap fst rs).
  - eexists _, _. split; [exact He|]. split; [|exact E']. split; [exact HX|exact Haf].
Qed.

Lemma append_spec w p m fc (inode : Z) payload w' p' out :
  pool_inv w p m fc -> wal_room (p_meta p) data_op_room ->
  (forall c, fc !! inode = Some c -> Zlen c + Zlen payload < 2 ^ 64) ->
  Pool.append inode payload (w, p) = ((w', p'), out) ->
  match out with
  | Ok _ => exists c m' chunk, fc !! inode = Some c /\ spec_apply (AppendChunk inode chunk) m = Ok m' /\
      pool_inv w' p' m' (<[inode := c ++ payload]> fc)
  | Err (Meta (CommitErr _)) => pool_inv w' p' m fc /\ is_Some (fc !! inode)
  | Err e => pool_inv w' p' m fc /\ append_error m fc inode e
  | Panic => False
  end.
Proof.
  intros Hi Hroom Hlt E. 
  pose proof (course_outcome _ _ _ _ _ _ _ _ _ _ Hi
    (append_course _ _ _ _ (fun _ _ => True) _ _ _ _ _ I ltac:(intros; exact I) Hi Hroom Hlt E)) as Hout.
  destruct out as [[]|e|]; [|destruct Hout as [Hi' He]|contradiction].
  - destruct Hout as (X & fc' & m' & ((c & r & cs & chunk & Ec & _ & _ & _ & -> & -> & _) & _) & Es & Hi'). eauto 6.
  - destruct e as [|[]| | | |]; auto; try contradiction.
    + destruct He as (X & fc' & (c & r & cs & chunk & Ec & _) & _). eauto.
    + destruct He as (X & fc' & ((c & r & cs & chunk & _ & _ & _ & _ & -> & _ & E1) & _) & E2). congruence.
Qed.

(** ** Extents *)
Lemma write_extent_ok w p (inode : Z) scheme content w' p' out :
  disks_ok p -> wf_scheme scheme -> asks_replica scheme -> Zlen content < 2 ^ 32 ->
  write_whole_file_extent inode scheme 0 content (w, p) = ((w', p'), out) ->
  data_phase w p w' p' /\
  match out with
  | Ok xs => one_extent xs /\ wf_vec wf_extent xs /\ extents_hold w' p' xs content
  | Err e => e = Unplaceable \/ exists x, e = Io x
  | Panic => False
  end.
Proof.
  intros Hok Hws Hask H32 E. unfold write_whole_file_extent in E. case_decide as Hc.
  { injection E as <- <- <-. split; [now apply data_phase_refl|]. split_and!; auto; [now left|].
    split; [vm_compute; split; congruence|constructor]. }
  unfold io_bind, io_self, io_lift, io_ret in E. cbn [snd] in E.
  destruct (place p _ _) as [ids|e|] eqn:Epl; apply (place_ok _ _ _ _ Hok Hws) in Epl; cbn iota in Epl; [| |destruct Epl].
  2: { injection E as <- <- <-. split; [now apply data_phase_refl|]. auto. }
  destruct Epl as (Hnd & Hids & Hmax & Hne). specialize (Hne Hask).
  destruct (for_each _ ids (w, p)) as [[w1 p1] r1] eqn:Ef.
  destruct (for_each_ok 0 content True _ _ _ _ _ _ _ ltac:(lia)
    ltac:(intros *; split; [eapply extent_replica_round; eauto|auto]) Hok Hids Ef) as (Hp & Hr1).
  destruct r1 as [rs|e|]; [| |contradiction]; injection E as <- <- <-; (split; [exact Hp|]); [|auto].
  destruct Hr1 as (Hrs & Hst & _). subst ids.
  assert (Hlen : (length rs <= MAX_SELECT)%nat) by now rewrite <- (length_fmap fst rs).
  pose proof (Zlen_nonneg content). assert (Hu : as_u32 (Zlen content) = Zlen content) by (apply wrap_small; split; lia).
  split; [right; eauto|]. split.
  - split; [vm_compute; split; congruence|]. constructor; [|constructor].
    split_and!; cbn [ex_file_offset ex_len ex_replicas ex_checksum]; [split; lia|rewrite Hu; split; lia| |apply checksum_fits].
    apply (replicas_wf 0 content w1 p1); [exact (dp_disks _ _ _ _ Hp)|lia|exact Hlen|exact Hst].
  - cbn [extents_hold ex_file_offset ex_len ex_replicas ex_checksum]. split_and!; auto.
    split; [intros ->; now apply Hne|now split].
Qed.

(** What an error of [complete_convert] or [write] before the log means; [ok]
    is the mode that the operation needs. *)
Definition extent_error m (fc : gmap Z (list byte)) (inode : Z) (ok : InodeMode) (e : PoolError) : Prop :=
  match e with
  | InodeNotFound => fc !! inode = None
  | WrongMode => exists r, m_inodes m !! inode = Some r /\ ir_mode r <> ok
  | Unplaceable | Io _ => is_Some (fc !! inode)
  | _ => False
  end.

(** The operation that they log: the record becomes [upd r xs]. *)
Definition extent_op m (fc : gmap Z (list byte)) (inode : Z) ok content (op : list Extent -> MetaOp)
    (upd : list Extent -> InodeRecord -> InodeRecord) (X : MetaOp) (fc' : gmap Z (list byte)) : Prop :=
  exists c r xs, fc !! inode = Some c /\ m_inodes m !! inode = Some r /\ ir_mode r = ok /\ X = op xs /\
    fc' = <[inode := content c]> fc /\ spec_apply X m = Ok (with_inode (upd xs r) m).

(** The common course of [complete_convert] and [write]: the content of the
    record is rewritten and the operation logged. *)
Lemma rewrite_course w p m fc (inode : Z) r c content op upd ok w' p' out :
  pool_inv w p m fc -> wal_room (p_meta p) data_op_room -> find_inode p inode = Ok r -> fc !! inode = Some c ->
  ir_mode r = ok -> Zlen (content c) < 2 ^ 32 ->
  (forall xs, one_extent xs -> Zlen (frame (encode_op (op xs))) <= data_op_room) ->
  (forall xs, u64 inode -> wf_vec wf_extent xs -> wf_op (op xs)) ->
  (forall xs, spec_apply (op xs) m = Ok (with_inode (upd xs r) m)) ->
  (forall xs, ir_inode (upd xs r) = ir_inode r /\ ir_redundancy (upd xs r) = ir_redundancy r /\
     ir_mode (upd xs r) = Writable /\ ir_data (upd xs r) = Extents xs) ->
  (forall xs w p, extents_hold w p xs (content c) -> ir_size (upd xs r) = Zlen (content c)) ->
  (let! xs := write_whole_file_extent inode (ir_redundancy r) 0 (content c) in meta_apply (op xs)) (w, p) = ((w', p'), out) ->
  course w p m fc (fun _ _ => True) (extent_op m fc inode ok content op upd) (extent_error m fc inode ok) w' p' out.
Proof.
  intros Hi Hroom Hfind Ec Em H32 Hsz Hwop Hspec Hupd Hsize E.
  pose proof (pool_inv_find _ _ _ _ inode Hi) as Hf. rewrite Hfind in Hf.
  destruct Hf as (c0 & Er & _ & Hd & Hwf & Hid & Hask & _). pose proof Hwf as (Hwi & _ & Hws & _).
  unfold io_bind in E. destruct (write_whole_file_extent _ _ _ _ _) as [[w1 p1] r1] eqn:Ew.
  destruct (write_extent_ok _ _ _ _ _ _ _ _ (pi_disks _ _ _ _ Hi) Hws Hask H32 Ew) as (Hp & Hr1).
  exists w1, p1. split; [exact Hp|]. split; [exact I|]. destruct r1 as [xs|e|]; [right|left|contradiction].
  2: { injection E as <- <- <-. exists e. split_and!; auto; destruct Hr1 as [-> |[x ->]]; cbn; eauto; discriminate. }
  destruct Hr1 as (Hone & Hwx & Hhold). rewrite Hid in Hwi. destruct (Hupd xs) as (Hi1 & Hi2 & Hi3 & Hi4).
  exists (op xs), (<[inode := content c]> fc). split; [|split; [|exact E]].
  2: { exists c, r, xs. split_and!; auto. }
  replace inode with (ir_inode (upd xs r)) by congruence.
  apply (effect_update w1 p1 m fc _ r); auto; [exact (data_phase_inv _ _ _ _ _ _ Hi Hp)| |rewrite Hi1, Hid; exact Er|now rewrite Hi2|].
  - rewrite (dp_meta _ _ _ _ Hp). pose proof (Hsz xs Hone). unfold wal_room in *. lia.
  - intros w2 p2 Hg. split; [now apply (Hsize xs w1 p1)|]. rewrite Hi3, Hi4. now apply (extents_grow w1 p1).
Qed.

Definition converted (xs : list Extent) (r : InodeRecord) : InodeRecord := set_data (Extents xs) (set_mode Writable r).
Definition rewritten (xs : list Extent) (r : InodeRecord) : InodeRecord :=
  set_data (Extents xs) (set_size (foldr Z.max 0 (file_end <$> xs)) r).

Lemma complete_convert_course w p m fc (inode : Z) w' p' out :
  pool_inv w p m fc -> wal_room (p_meta p) data_op_room ->
  (forall c, fc !! inode = Some c -> Zlen c < 2 ^ 32) ->
  complete_convert inode (w, p) = ((w', p'), out) ->
  course w p m fc (fun _ _ => True) (extent_op m fc inode Converting (fun c => c) (CompleteConvert inode) converted)
    (extent_error m fc inode Converting) w' p' out.
Proof.
  intros Hi Hroom H32 E. unfold complete_convert, io_bind, io_self, io_lift, io_query in E. cbn [fst snd] in E.
  pose proof (pi_disks _ _ _ _ Hi) as Hok. pose proof (pool_inv_find _ _ _ _ inode Hi) as Hf.
  destruct (find_inode p inode) as [r|e|] eqn:Efi;
    [|destruct Hf as (-> & _ & Hn); injection E as <- <- <-; now apply course_stop|contradiction].
  destruct Hf as (c & Er & Ec & Hd & _).
  destruct (decide (ir_mode r = Converting)) as [Em|Em].
  2: { destruct (ir_mode r) eqn:Em'; try congruence; injection E as <- <- <-; (apply course_stop; [exact Hok|exact I| |discriminate]);
         exists r; rewrite Em'; auto. }
  rewrite Em in E. unfold io_ret in E. cbn [fst snd] in E.
  rewrite (read_full_content_ok _ _ _ _ Hok Hd) in E.
  eapply (rewrite_course w p m fc inode r c (fun c => c)); eauto.
  - intros xs Hx. exact (proj1 (extents_op_size inode xs Hx)).
  - intros xs ? ?. now split.
  - intros xs. cbn [spec_apply]. unfold on_inode. rewrite Er. cbn [ok_or result_bind]. now rewrite Em.
  - intros xs ? ? _. apply Hd.
Qed.

(** The content after writing [data] at [offset]: zeros up to the offset if
    the file is shorter. *)
Definition overwrite (c : list byte) (offset : Z) (data : list byte) : list byte :=
  splice (Z.to_nat offset) data (c ++ replicate (Z.to_nat (offset + Zlen data - Zlen c)) x00).

Lemma patch_ok c offset data :
  0 <= offset -> offset + Zlen data < 2 ^ 64 -> patch c offset data = Ok (overwrite c offset data).
Proof.
  intros Ho Hlt. unfold patch, overwrite, as_u64. pose proof (Zlen_nonneg data).
  rewrite wrap_small by (split; lia). rewrite (proj2 (Z.leb_le _ _)) by lia. do 2 f_equal.
  destruct (Z.ltb_spec (Zlen c) (offset + Zlen data)); [reflexivity|].
  replace (Z.to_nat (offset + Zlen data - Zlen c)) with 0%nat by lia. now rewrite app_nil_r.
Qed.

Lemma Zlen_overwrite c offset data :
  0 <= offset -> Zlen (overwrite c offset data) = Z.max (Zlen c) (offset + Zlen data).
Proof.
  intros Ho. unfold overwrite, Zlen. rewrite length_splice; rewrite length_app, length_replicate; unfold Zlen; lia.
Qed.

Lemma write_course w p m fc (inode : Z) offset data w' p' out :
  pool_inv w p m fc -> wal_room (p_meta p) data_op_room -> 0 <= offset -> offset + Zlen data < 2 ^ 32 ->
  (forall c, fc !! inode = Some c -> Zlen c < 2 ^ 32) ->
  Pool.write inode offset data (w, p) = ((w', p'), out) ->
  course w p m fc (fun _ _ => True) (extent_op m fc inode Writable (fun c => overwrite c offset data) (UpdateExtents inode) rewritten)
    (extent_error m fc inode Writable) w' p' out.
Proof.
  intros Hi Hroom Ho Hlt H32 E. unfold Pool.write, io_bind, io_self, io_lift, io_query in E. cbn [fst snd] in E.
  pose proof (pi_disks _ _ _ _ Hi) as Hok. pose proof (pool_inv_find _ _ _ _ inode Hi) as Hf.
  destruct (find_inode p inode) as [r|e|] eqn:Efi;
    [|destruct Hf as (-> & _ & Hn); injection E as <- <- <-; now apply course_stop|contradiction].
  destruct Hf as (c & Er & Ec & Hd & _).
  destruct (decide (ir_mode r = Writable)) as [Em|Em].
  2: { destruct (ir_mode r) eqn:Em'; try congruence; injection E as <- <- <-; (apply course_stop; [exact Hok|exact I| |discriminate]);
         exists r; rewrite Em'; auto. }
  rewrite Em in E. unfold io_ret in E. cbn [fst snd] in E.
  rewrite (read_full_content_ok _ _ _ _ Hok Hd) in E. rewrite patch_ok in E by lia.
  pose proof (Zlen_overwrite c offset data Ho) as Hl. pose proof (Zlen_nonneg data). pose proof (H32 c Ec).
  eapply (rewrite_course w p m fc inode r c (fun c => overwrite c offset data)); eauto; [lia|..].
  - intros xs Hx. exact (proj2 (extents_op_size inode xs Hx)).
  - intros xs ? ?. now split.
  - intros xs. cbn [spec_apply]. unfold on_inode. rewrite Er. cbn [ok_or result_bind]. now rewrite Em.
  - intros xs w0 p0 Hx. cbn [rewritten set_data set_size ir_size]. destruct xs as [|x [|]]; [| |contradiction].
    + cbn [extents_hold] in Hx. now rewrite Hx.
    + destruct Hx as (Hx0 & Hxl & _). rewrite fmap_cons, fmap_nil. cbn [foldr]. unfold file_end.
      rewrite Hx0, Hxl. unfold as_u64. rewrite wrap_small by (split; lia). lia.
Qed.

(** What the two come to. *)
Lemma extent_spec w p m fc (inode : Z) ok content op upd w' p' out :
  pool_inv w p m fc ->
  course w p m fc (fun _ _ => True) (extent_op m fc inode ok content op upd) (extent_error m fc inode ok) w' p' out ->
  match out with
  | Ok _ => exists c r xs, fc !! inode = Some c /\ m_inodes m !! inode = Some r /\ ir_mode r = ok /\
      pool_inv w' p' (with_inode (upd xs r) m) (<[inode := content c]> fc)
  | Err (Meta (CommitErr _)) => pool_inv w' p' m fc /\ is_Some (fc !! inode)
  | Err e => pool_inv w' p' m fc /\ extent_error m fc inode ok e
  | Panic => False
  end.
Proof.
  intros Hi Hc. apply course_outcome in Hc; [|exact Hi]. destruct out as [[]|e|]; [|destruct Hc as [Hi' He]|contradiction].
  - destruct Hc as (X & fc' & m' & (c & r & xs & Ec & Er & Em & -> & -> & E1) & E2 & Hi'). rewrite E1 in E2.
    injection E2 as <-. exists c, r, xs. auto.
  - destruct e as [|[]| | | |]; auto; try contradiction.
    + destruct He as (X & fc' & c & r & xs & Ec & _). eauto.
    + destruct He as (X & fc' & (c & r & xs & _ & _ & _ & -> & _ & E1) & E2). congruence.
Qed.

(** ** Operations on metadata alone *)

(** [begin_convert] and [set_redundancy] change one record and no data. *)
Lemma touch_effect w p m fc op (inode : Z) (f : InodeRecord -> result invalid_op InodeRecord) :
  pool_inv w p m fc -> wf_op op -> wal_room (p_meta p) (Zlen (frame (encode_op op))) ->
  spec_apply op m = on_inode m inode f ->
  (forall r r', f r = Ok r' -> ir_inode r' = ir_inode r /\ (asks_replica (ir_redundancy r) -> asks_replica (ir_redundancy r')) /\
     forall w p c, data_holds w p r c -> data_holds w p r' c) ->
  effect w p m fc op fc.
Proof.
  intros Hi Hop Hroom Hspec Hf. split; [exact Hop|]. split; [exact Hroom|]. intros m' w' p' Em' Hg Hok Hm'.
  rewrite Hspec in Em'. apply on_inode_Ok in Em' as (r & r' & Er & Efr & ->). destruct (Hf _ _ Efr) as (Hid & Hask & Hdh).
  destruct (wf_inodes _ _ (mi_wf _ _ (pi_meta _ _ _ _ Hi)) _ _ Er) as (_ & Hr & _).
  pose proof (pi_data _ _ _ _ Hi inode) as Hd. rewrite Er in Hd. inversion Hd as [? c Hc E1 E2|]; subst.
  assert (Ei : <[ir_inode r' := c]> fc = fc) by (rewrite Hid; now apply insert_id).
  rewrite <- Ei. apply (inv_update w p m fc w' p' r r'); auto; [now rewrite Hid| |].
  - apply Hask. exact (pi_policy _ _ _ _ Hi _ _ Er).
  - apply Hdh. now apply (data_grows w p).
Qed.

Lemma begin_convert_room s (inode : Z) : wal_room s data_op_room -> wal_room s (Zlen (frame (encode_op (BeginConvert inode)))).
Proof.
  intros Hroom. rewrite Zlen_frame. cbn [encode_op]. rewrite Zlen_app. unfold put_u8, put_u64, Zlen. rewrite !length_to_le.
  unfold wal_room, data_op_room in *. lia.
Qed.

Lemma begin_convert_effect w p m fc (inode : Z) :
  pool_inv w p m fc -> u64 inode -> wal_room (p_meta p) data_op_room -> effect w p m fc (BeginConvert inode) fc.
Proof.
  intros Hi Hin Hroom. eapply touch_effect; [exact Hi|exact Hin|now apply begin_convert_room|reflexivity|].
  intros r r' Hf. cbn beta in Hf. destruct (ir_mode r) eqn:Em; try discriminate. injection Hf as <-. split_and!; auto.
  intros w0 p0 c. unfold data_holds. cbn [set_mode ir_size ir_mode ir_data]. now rewrite Em.
Qed.

Lemma set_redundancy_effect w p m fc (inode : Z) scheme :
  pool_inv w p m fc -> u64 inode -> wf_scheme scheme -> asks_replica scheme ->
  wal_room (p_meta p) (Zlen (frame (encode_op (SetRedundancyScheme inode scheme)))) ->
  effect w p m fc (SetRedundancyScheme inode scheme) fc.
Proof.
  intros Hi Hin Hws Hask Hroom. eapply touch_effect; [exact Hi|now split|exact Hroom|reflexivity|].
  intros r r' Hf. cbn beta in Hf. injection Hf as <-. split_and!; auto.
Qed.

Lemma set_redundancy_spec w p m fc (inode : Z) scheme w' p' out :
  pool_inv w p m fc -> u64 inode -> wf_scheme scheme -> asks_replica scheme ->
  wal_room (p_meta p) (Zlen (frame (encode_op (SetRedundancyScheme inode scheme)))) ->
  set_redundancy inode scheme (w, p) = ((w', p'), out) ->
  match out with
  | Ok _ => exists m', spec_apply (SetRedundancyScheme inode scheme) m = Ok m' /\ pool_inv w' p' m' fc
  | Err (Meta (InvalidOp x)) => spec_apply (SetRedundancyScheme inode scheme) m = Err x /\ pool_inv w' p' m fc
  | Err (Meta (CommitErr _)) => pool_inv w' p' m fc
  | _ => False
  end.
Proof.
  intros Hi Hin Hws Hask Hroom E.
  exact (proj2 (proj2 (proj2 (effect_outcome _ _ _ _ _ _ _ _ _ Hi (set_redundancy_effect _ _ _ _ _ _ Hi Hin Hws Hask Hroom) E)))).
Qed.

Lemma unlink_effect w p m fc (parent : Z) name :
  pool_inv w p m fc -> u64 parent -> wf_str name ->
  wal_room (p_meta p) (Zlen (frame (encode_op (Unlink parent name)))) -> effect w p m fc (Unlink parent name) fc.
Proof.
  intros Hi Hp Hn Hroom. split; [now split|]. split; [exact Hroom|]. intros m' w' p' [= <-] Hg Hok Hm'.
  apply (inv_keep w p m); auto. cbn. lia.
Qed.

Lemma link_effect w p m fc (parent : Z) name child :
  pool_inv w p m fc -> wf_op (Link parent name child) ->
  wal_room (p_meta p) (Zlen (frame (encode_op (Link parent name child)))) -> effect w p m fc (Link parent name child) fc.
Proof.
  intros Hi Hop Hroom. split; [exact Hop|]. split; [exact Hroom|]. intros m' w' p' [= <-] Hg Hok Hm'.
  apply (inv_keep w p m); auto. cbn. lia.
Qed.

(** ** [create_file] *)
Definition new_file (inode : Z) redundancy uid gid unix_mode now : InodeRecord :=
  {| ir_inode := inode; ir_mode := AppendOnly; ir_size := 0; ir_redundancy := redundancy;
     ir_data := ChunkLog []; ir_uid := uid; ir_gid := gid; ir_unix_mode := unix_mode; ir_mtime_unix := now |}.

Lemma alloc_inv w p m fc :
  pool_inv w p m fc -> m_next m < 2 ^ 64 - 1 ->
  (alloc_inode p).2 = m_next m /\ m_inodes m !! m_next m = None /\
  pool_inv w (alloc_inode p).1 {| m_inodes := m_inodes m; m_dirs := m_dirs m; m_next := m_next m + 1 |} fc /\
  ms_wal_cursor (p_meta (alloc_inode p).1) = ms_wal_cursor (p_meta p).
Proof.
  intros Hi Hlt. pose proof Hi as [[[Htr Hnx] Hb Hc Hw] Hbel Hok Hpol Hd]. destruct (wf_next _ _ Hw) as [Hn0 _].
  unfold alloc_inode, Store.alloc_inode. cbn [fst snd]. split; [exact Hnx|].
  split. { destruct (m_inodes m !! m_next m) as [r|] eqn:E; [|reflexivity]. pose proof (Hbel _ _ E). simpl in *. lia. }
  split; [|reflexivity]. apply (inv_keep w p m); auto; [now apply grows_stay|now apply (disks_ok_same p)| |cbn; lia].
  split; cbn [set_meta p_meta set_next_inode ms_wal_base_offset ms_wal_cursor]; auto.
  - split; cbn [ms_db ms_next_inode set_next_inode m_next].
    + destruct Htr as [T1 T2 T3]. split; auto.
    + rewrite Hnx. unfold as_u64. apply wrap_small. split; lia.
  - destruct Hw as [H1 H2 H3]. split; auto. cbn. split; lia.
Qed.

Lemma inv_create w p m fc w' p' r m' :
  pool_inv w p m fc -> grows w p w' p' -> disks_ok p' -> meta_inv (p_meta p') m' ->
  spec_apply (CreateInode r) m = Ok m' -> 0 <= ir_inode r < 2 ^ 64 - 1 -> asks_replica (ir_redundancy r) ->
  data_holds w' p' r [] -> pool_inv w' p' m' (<[ir_inode r := []]> fc).
Proof.
  intros Hi Hg Hok Hm' [= <-] Hid Hask Hdr. pose proof Hi as [Hm Hb Hd Hpol Hf]. split; auto.
  - eapply (ids_below_apply _ (CreateInode r) m); eauto using mi_wf.
  - cbn. now apply map_Forall_insert_2.
  - intros id. cbn [m_inodes]. destruct (decide (ir_inode r = id)) as [<-|Hne].
    + rewrite !lookup_insert_eq. now constructor.
    + rewrite !lookup_insert_ne by exact Hne. destruct (Hf id); constructor. eapply data_grows; eauto.
Qed.

Lemma create_effect w p m fc (inode : Z) redundancy uid gid unix_mode clock :
  let r := new_file inode redundancy uid gid unix_mode clock in
  pool_inv w p m fc -> 0 <= inode < 2 ^ 64 - 1 -> wf_op (CreateInode r) -> asks_replica redundancy ->
  wal_room (p_meta p) (Zlen (frame (encode_op (CreateInode r)))) ->
  effect w p m fc (CreateInode r) (<[inode := []]> fc).
Proof.
  intros r Hi Hid Hop Hask Hroom. split; [exact Hop|]. split; [exact Hroom|]. intros m' w' p' Em Hg Hok Hm'.
  eapply (inv_create w p m fc w' p' r); eauto. split; [reflexivity|]. exists []. split; [reflexivity|constructor].
Qed.

(** [create_file] hands out a number and logs two operations. *)
Lemma create_file_steps w p m fc (parent : Z) name redundancy uid gid unix_mode clock w' p' out :
  let r := new_file (m_next m) redundancy uid gid unix_mode clock in
  pool_inv w p m fc -> m_next m < 2 ^ 64 - 1 -> 0 <= clock ->
  create_file parent name redundancy uid gid unix_mode clock (w, p) = ((w', p'), out) ->
  exists w2 p2 r2, meta_apply (CreateInode r) (w, (alloc_inode p).1) = ((w2, p2), r2) /\
    match r2 with
    | Ok _ => exists r3, meta_apply (Link parent name (m_next m)) (w2, p2) = ((w', p'), r3) /\
        out = match r3 with Ok _ => Ok (m_next m) | Err e => Err e | Panic => Panic end
    | Err e => (w', p') = (w2, p2) /\ out = Err e
    | Panic => (w', p') = (w2, p2) /\ out = Panic
    end.
Proof.
  intros r Hi Hlt Hclk E. destruct (alloc_inv _ _ _ _ Hi Hlt) as (Eid & _).
  unfold create_file, io_bind, io_self, io_set_self, io_lift, io_ret in E. cbn [snd fst] in E.
  destruct (alloc_inode p) as [p1 inode] eqn:Ea. cbn [fst snd] in *. subst inode.
  unfold now_unix in E. rewrite (proj2 (Z.ltb_ge clock 0)) in E by lia. cbn [fst snd] in E.
  change ({| ir_inode := m_next m; ir_mode := AppendOnly |}) with r in E.
  destruct (meta_apply (CreateInode r) (w, p1)) as [[w2 p2] r2] eqn:E2. exists w2, p2, r2. split; [reflexivity|].
  destruct r2 as [[]|e|]; [|injection E as <- <- <-; now split..].
  destruct (meta_apply (Link parent name (m_next m)) (w2, p2)) as [[w3 p3] r3] eqn:E3. exists r3.
  destruct r3; injection E as <- <- <-; now split.
Qed.

Lemma create_file_spec w p m fc (parent : Z) name redundancy uid gid unix_mode clock w' p' out :
  pool_inv w p m fc -> m_next m < 2 ^ 64 - 1 -> 0 <= clock ->
  wf_op (CreateInode (new_file (m_next m) redundancy uid gid unix_mode clock)) -> wf_op (Link parent name (m_next m)) ->
  asks_replica redundancy ->
  wal_room (p_meta p) (Zlen (frame (encode_op (CreateInode (new_file (m_next m) redundancy uid gid unix_mode clock))))
    + Zlen (frame (encode_op (Link parent name (m_next m))))) ->
  create_file parent name redundancy uid gid unix_mode clock (w, p) = ((w', p'), out) ->
  fc !! m_next m = None /\
  match out with
  | Ok id => id = m_next m /\ exists m', pool_inv w' p' m' (<[id := []]> fc) /\
      m_inodes m' = <[id := new_file id redundancy uid gid unix_mode clock]> (m_inodes m) /\
      m_dirs m' = <[(parent, name) := id]> (m_dirs m)
  | Err (Meta (CommitErr _)) => exists m' fc', pool_inv w' p' m' fc' /\ m_dirs m' = m_dirs m /\
      (fc' = fc /\ m_inodes m' = m_inodes m \/
       fc' = <[m_next m := []]> fc /\
       m_inodes m' = <[m_next m := new_file (m_next m) redundancy uid gid unix_mode clock]> (m_inodes m))
  | _ => False
  end.
Proof.
  intros Hi Hlt Hclk Hw1 Hw2 Hask Hroom E. destruct (alloc_inv _ _ _ _ Hi Hlt) as (_ & Hnone & Hi1 & Ecur).
  split. { pose proof (pi_data _ _ _ _ Hi (m_next m)) as Hd. rewrite Hnone in Hd. now inversion Hd. }
  destruct (create_file_steps _ _ _ _ _ _ _ _ _ _ _ _ _ _ Hi Hlt Hclk E) as (w2 & p2 & r2 & E2 & Hr2). clear E.
  unfold wal_room in Hroom. rewrite <- Ecur in Hroom.
  set (m1 := {| m_inodes := m_inodes m |}) in *. set (r := new_file _ _ _ _ _ _) in *.
  pose proof (Zlen_nonneg (frame (encode_op (CreateInode r)))). pose proof (Zlen_nonneg (frame (encode_op (Link parent name (m_next m))))).
  destruct (wf_next _ _ (mi_wf _ _ (pi_meta _ _ _ _ Hi))) as [Hn0 _].
  pose proof (create_effect _ _ _ _ _ _ _ _ _ _ Hi1 (conj Hn0 Hlt) Hw1 Hask ltac:(unfold wal_room; fold r; lia)) as He.
  destruct (effect_outcome _ _ _ _ _ _ _ _ _ Hi1 He E2) as (_ & _ & Hcu & Hout). fold r in Hcu.
  destruct r2 as [[]|[|[]| | | |]|]; try contradiction; [| |destruct Hout; discriminate].
  2: { destruct Hr2 as [[= -> ->] ->]. exists m1, fc. split; [auto|]. split; [reflexivity|left; split; reflexivity]. }
  destruct Hout as (m2 & Em2 & Hi2). injection Em2 as Em2. destruct Hr2 as (r3 & E3 & ->).
  pose proof (link_effect _ _ _ _ parent name (m_next m) Hi2 Hw2 ltac:(unfold wal_room; lia)) as He3.
  destruct (effect_outcome _ _ _ _ _ _ _ _ _ Hi2 He3 E3) as (_ & _ & _ & Hout3).
  destruct r3 as [[]|[|[]| | | |]|]; try contradiction; [| |destruct Hout3; discriminate].
  - destruct Hout3 as (m3 & Em3 & Hi3). split; [reflexivity|]. exists m3. injection Em3 as <-. subst m2. split; [exact Hi3|split; reflexivity].
  - exists m2, (<[m_next m := []]> fc). split; [exact Hout3|]. subst m2. split; [reflexivity|right; split; reflexivity].
Qed.
End Ops.
