(* ===== verification/PoolFormat.v ===== *)
(** * Creating and reopening a pool: the loop over the disk paths

    [format_with_classes] and [open_with_classes] number the disks from 1 and
    build the pool map, the handles and the metadata group.  What that loop
    builds is stated once, for any way of starting a disk. *)

From Stdlib Require Import ZArith Lia.
From S2P Require Import Prelude Proto KPlacement Disk Segment Wal Codec Replicator Redb.
From S2P Require Import Store StoreSpec StoreRefine StoreRecovery StoreTorn StoreReads CorePlacement Pool PoolSpec PoolRefine.

#[local] Arguments contents : simpl never.
#[local] Arguments write_at : simpl never.
#[local] Opaque WAL_CAPACITY_BYTES SEGMENT_SIZE_BYTES.

(** ** Numbering from 1 *)
Fixpoint number {A} (i : nat) (l : list A) (m : gmap Z A) : gmap Z A :=
  match l with
  | [] => m
  | x :: l' => number (S i) l' (<[Z.of_nat i + 1 := x]> m)
  end.

Lemma number_lookup {A} i (l : list A) m (id : Z) :
  number i l m !! id =
    if decide (Z.of_nat i < id <= Z.of_nat i + Zlen l) then l !! Z.to_nat (id - 1 - Z.of_nat i) else m !! id.
Proof.
  revert i m. induction l as [|x l IH]; intros i m; cbn [number].
  - case_decide; [unfold Zlen in *; simpl in *; lia|reflexivity].
  - rewrite IH, Zlen_cons. pose proof (Zlen_nonneg l). destruct (decide (id = Z.of_nat i + 1)) as [->|Hne].
    + rewrite lookup_insert_eq. repeat case_decide; try lia.
      replace (Z.to_nat (Z.of_nat i + 1 - 1 - Z.of_nat i)) with 0%nat by lia. reflexivity.
    + rewrite lookup_insert_ne by lia. repeat case_decide; try lia; [|reflexivity].
      replace (Z.to_nat (id - 1 - Z.of_nat i)) with (S (Z.to_nat (id - 1 - Z.of_nat (S i)))) by lia. reflexivity.
Qed.

Lemma number_Some {A} (l : list A) (id : Z) x :
  number 0 l ∅ !! id = Some x -> exists j, id = Z.of_nat j + 1 /\ l !! j = Some x.
Proof.
  rewrite number_lookup. case_decide; [|now rewrite lookup_empty]. intros E. exists (Z.to_nat (id - 1 - Z.of_nat 0)).
  split; [lia|exact E].
Qed.

Lemma number_index {A} (l : list A) j x : l !! j = Some x -> number 0 l ∅ !! (Z.of_nat j + 1) = Some x.
Proof.
  intros E. pose proof (lookup_lt_Some _ _ _ E). rewrite number_lookup, decide_True by (unfold Zlen; lia).
  rewrite <- E. f_equal. lia.
Qed.

Lemma number_size {A} i (l : list A) m : (size (number i l m) <= size m + length l)%nat.
Proof.
  revert i m. induction l as [|x l IH]; intros i m; cbn [number length]; [lia|].
  etransitivity; [apply IH|]. destruct (m !! (Z.of_nat i + 1)) eqn:E.
  - rewrite map_size_insert_Some by eauto. lia.
  - rewrite map_size_insert_None by exact E. lia.
Qed.

Fixpoint new_entries (i : nat) (classes : list DiskClass) : list DiskEntry :=
  match classes with
  | [] => []
  | c :: cs => new_entry i c :: new_entries (S i) cs
  end.

Lemma length_new_entries i cs : length (new_entries i cs) = length cs.
Proof. revert i. induction cs; intros i; simpl; auto. Qed.

Lemma new_entries_wf i cs j e : new_entries i cs !! j = Some e -> wf_entry e /\ de_state e = Active /\ role_data (de_roles e) = true.
Proof.
  revert i j. induction cs as [|c cs IH]; intros i [|j] E; cbn in E; try discriminate; eauto. injection E as <-.
  split; [|split; reflexivity]. unfold wf_entry, fits. cbn -[Z.pow]. repeat split; vm_compute; congruence.
Qed.

(** ** The loop *)
Definition handle_of (ac : Arc FileDisk * Z) : DiskHandle := {| dh_disk := ac.1; dh_cursor := ac.2 |}.

(** [start] brought the disks of [paths] up, one after the other. *)
Inductive started (start : path -> io os_world PoolError (Arc FileDisk * Z)) :
    os_world -> list path -> list (Arc FileDisk * Z) -> os_world -> Prop :=
  | started_nil w : started start w [] [] w
  | started_cons w p ps ac l w1 w2 :
      start p w = (w1, Ok ac) -> started start w1 ps l w2 -> started start w (p :: ps) (ac :: l) w2.

Lemma started_length start w ps l w' : started start w ps l w' -> length l = length ps.
Proof. induction 1; simpl; auto. Qed.

Lemma bring_up_ok start i paths classes entries handles arcs w w' acc' :
  length paths = length classes ->
  bring_up start i paths classes (entries, handles, arcs) w = (w', Ok acc') ->
  exists l, started start w paths l w' /\
    acc' = (number i (new_entries i classes) entries, number i (handle_of <$> l) handles, arcs ++ l.*1).
Proof.
  revert i classes entries handles arcs w. induction paths as [|p ps IH]; intros i [|c cs] entries handles arcs w Hl E;
    try discriminate.
  - injection E as <- <-. exists []. split; [constructor|]. cbn. now rewrite app_nil_r.
  - cbn [bring_up] in E. unfold io_bind in E. destruct (start p w) as [w1 [[arc c0]|e|]] eqn:Es; try discriminate.
    destruct (IH (S i) cs _ _ _ w1 ltac:(now injection Hl) E) as (l & Hst & ->).
    exists ((arc, c0) :: l). split; [econstructor; eauto|]. cbn [new_entries]. rewrite !fmap_cons. cbn [number fst].
    now rewrite <- app_assoc.
Qed.

Lemma lookup_number_handles l (id : Z) h :
  number 0 (handle_of <$> l) ∅ !! id = Some h ->
  exists j ac, id = Z.of_nat j + 1 /\ l !! j = Some ac /\ h = handle_of ac.
Proof.
  intros (j & -> & E)%number_Some. rewrite list_lookup_fmap in E.
  destruct (l !! j) as [ac|] eqn:Ej; [|discriminate]. injection E as <-. eauto.
Qed.

Section Start.
#[local] Arguments number : simpl never.
#[local] Arguments Store.open : simpl never.
Context {DB : Type} `{!Redb DB} `{HI : !HashIter}.
Implicit Types (w : os_world) (p : Pool DB).

(** The pool [start_pool] builds over the disks [l], with the store [s]. *)
Definition pool_over (classes : list DiskClass) (l : list (Arc FileDisk * Z)) (s : MetaStore (Arc FileDisk) DB) : Pool DB :=
  {| pool_map := {| pm_epoch := 0; pm_disks := number 0 (new_entries 0 classes) ∅ |};
     disks := number 0 (handle_of <$> l) ∅; p_meta := s |}.

Lemma disk_ids_lookup (paths : list path) i : (i < length paths)%nat -> disk_ids_for paths !! i = Some (Z.of_nat i + 1).
Proof. intros Hi. unfold disk_ids_for. rewrite list_lookup_fmap, lookup_seq_lt by exact Hi. reflexivity. Qed.

(** The group: the first disk, and the second if there is one. *)
Definition group_of (n : nat) : MetaGroup :=
  {| mg_primary := 1; mg_backup := if (2 <=? n)%nat then Some 2 else None; mg_epoch := 0 |}.

Lemma start_pool_ok start paths classes w w' p :
  start_pool start paths classes w = (w', Ok p) ->
  exists ac l s, started start w paths (ac :: l) w' /\ length classes = length paths /\
    Store.open (group_of (length paths)) ac.1 (fst <$> head l) w' = Ok s /\ p = pool_over classes (ac :: l) s.
Proof.
  unfold start_pool. case_decide as Hne; [discriminate|].
  destruct (Nat.eqb_spec (length paths) (length classes)) as [Hl|]; [cbn [negb]|discriminate].
  intros E. unfold io_bind in E. destruct (bring_up start 0 paths classes _ w) as [w1 [acc|e|]] eqn:Eb; try discriminate.
  destruct (bring_up_ok _ _ _ _ _ _ _ _ _ _ Hl Eb) as (l & Hst & ->). pose proof (started_length _ _ _ _ _ Hst) as Hll.
  destruct l as [|ac l]; [destruct paths; [congruence|discriminate]|]. cbn [length] in Hll.
  rewrite disk_ids_lookup in E by lia. exists ac, l. unfold group_of.
  destruct l as [|ac2 l]; cbn [length] in Hll.
  - assert (E1 : disk_ids_for paths !! 1%nat = None).
    { apply lookup_ge_None. unfold disk_ids_for. rewrite length_fmap, length_seq. lia. }
    rewrite E1 in E. replace (2 <=? length paths)%nat with false by (symmetry; apply Nat.leb_gt; lia).
    simpl in E |- *. unfold io_query in E.
    destruct (Store.open _ _ _ w1) as [s|e|] eqn:Eo in E; try discriminate. injection E as <- <-.
    exists s. split_and!; auto.
  - rewrite disk_ids_lookup in E by lia.
    replace (2 <=? length paths)%nat with true by (symmetry; apply Nat.leb_le; lia).
    simpl in E |- *. unfold io_query in E.
    destruct (Store.open _ _ _ w1) as [s|e|] eqn:Eo in E; try discriminate. injection E as <- <-.
    exists s. split_and!; auto.
Qed.

(** The disks of such a pool are in order if their files are distinct and
    their cursors can be addressed. *)
Lemma pool_over_disks_ok classes l s :
  length classes = length l -> Zlen l < u32_max ->
  Forall (fun ac => 0 <= ac.2 /\ SEGMENT_BASE_OFFSET + ac.2 < 2 ^ 63) l ->
  NoDup ((fun ac : Arc FileDisk * Z => fd_path (deref ac.1)) <$> l) ->
  disks_ok (pool_over classes l s).
Proof.
  intros Hlen Hmax Hcur Hnd. split; cbn [pool_over disks pool_map pm_disks].
  - intros id h (j & ac & _ & Ej & ->)%lookup_number_handles. apply (Forall_lookup_1 _ _ _ _ Hcur Ej).
  - intros i j hi hj (a & ai & -> & Ea & ->)%lookup_number_handles (b & bi & -> & Eb & ->)%lookup_number_handles Hs.
    apply same_file in Hs. cbn [handle_of dh_disk] in Hs.
    assert (a = b) as ->; [|reflexivity]. eapply (NoDup_lookup _ _ _ _ Hnd); rewrite list_lookup_fmap; [now rewrite Ea|].
    rewrite Eb. cbn. now rewrite Hs.
  - pose proof (number_size 0 (new_entries 0 classes) ∅) as Hsz. rewrite map_size_empty, length_new_entries in Hsz.
    unfold Zlen, u32_max in *. split; [split; [|split]|]; cbn [pm_epoch pm_disks].
    + split; lia.
    + split; lia.
    + intros id e (j & -> & E)%number_Some. pose proof (lookup_lt_Some _ _ _ E) as Hj. rewrite length_new_entries in Hj.
      split; [split; lia|]. now apply new_entries_wf in E.
    + unfold u32_max. lia.
  - intros id. rewrite !number_lookup. unfold Zlen. rewrite length_new_entries, length_fmap, Hlen.
    case_decide; [|rewrite !lookup_empty; split; intros [? [=]]]. rewrite list_lookup_fmap.
    split; intros _; [rewrite fmap_is_Some|]; apply lookup_lt_is_Some_2; rewrite ?length_new_entries; lia.
Qed.
End Start.

(** ** Disks created fresh *)
Definition fresh_file : file := {| f_len := DISK_FILE_CAPACITY_BYTES; f_bytes := ∅ |}.
Definition new_disk (p : path) : Arc FileDisk := {| deref := {| fd_path := p; fd_capacity := DISK_FILE_CAPACITY_BYTES |} |}.

Lemma paths_of_new (l : list path) :
  (fun ac : Arc FileDisk * Z => fd_path (deref ac.1)) <$> ((fun q => (new_disk q, 0)) <$> l) = l.
Proof. induction l as [|q l IH]; [reflexivity|]. rewrite !fmap_cons, IH. reflexivity. Qed.

Lemma start_format_ok p w w1 ac :
  start_format p w = (w1, Ok ac) ->
  w_files w !! p = None /\ ac = (new_disk p, 0) /\
  w1 = {| w_files := <[p := fresh_file]> (w_files w); w_durable := <[p := fresh_file]> (w_durable w); w_fault := w_fault w |}.
Proof.
  unfold start_format, io_bind, io_map_err, FileDisk_create. destruct (w_files w !! p) eqn:E; [discriminate|].
  cbn. intros [= <- <-]. auto.
Qed.

(** The file at [p], just created, in both images. *)
Definition created w p : Prop := w_files w !! p = Some fresh_file /\ w_durable w !! p = Some fresh_file.

Lemma started_format w paths l w' :
  started start_format w paths l w' ->
  NoDup paths /\ l = (fun p => (new_disk p, 0)) <$> paths /\ w_fault w' = w_fault w /\
  (forall p, p ∈ paths -> w_files w !! p = None /\ created w' p) /\
  (forall p, p ∉ paths -> w_files w' !! p = w_files w !! p /\ w_durable w' !! p = w_durable w !! p).
Proof.
  induction 1 as [w|w p ps ac l w1 w2 Hs _ (Hnd & -> & Hf & Hin & Hout)].
  - split_and!; auto; [constructor|]. intros p Hp. now apply elem_of_nil in Hp.
  - apply start_format_ok in Hs as (Hnone & -> & ->). cbn [w_files w_durable w_fault] in *.
    assert (Hp : p ∉ ps). { intros Hp. destruct (Hin p Hp) as [E _]. now rewrite lookup_insert_eq in E. }
    split_and!; auto; [now constructor| |].
    + intros q [-> |Hq]%elem_of_cons; [destruct (Hout p Hp) as [E1 E2]; unfold created; rewrite E1, E2, !lookup_insert_eq; auto|].
      destruct (Hin q Hq) as [E ?]. rewrite lookup_insert_ne in E by congruence. auto.
    + intros q [Hqp Hq]%not_elem_of_cons. destruct (Hout q Hq) as [-> ->]. rewrite !lookup_insert_ne; auto.
Qed.

(** ** [format_with_classes] *)
Section Format.
Context {DB : Type} `{!Redb DB} `{!RedbLaws DB} `{!RedbReliable DB} `{HI : !HashIter}.
Implicit Types (w : os_world) (p : Pool DB).

Lemma root_op_size n now : Zlen (frame (encode_op (CreateInode (root_inode n now)))) <= data_op_room.
Proof.
  rewrite Zlen_frame. cbn [encode_op root_inode]. unfold encode_inode_record, encode_data_locator, encode_redundancy_scheme,
    put_vec. cbn [root_inode ir_inode ir_mode ir_size ir_redundancy ir_data ir_uid ir_gid ir_unix_mode ir_mtime_unix].
  assert (Hs : Zlen (concat (encode_replica_slot <$> replicate (2 `min` n) (AnyOfClass None))) <= 2).
  { destruct n as [|[|n]]; [discriminate..|]. replace (2 `min` S (S n))%nat with 2%nat by lia. discriminate. }
  change (concat (encode_extent <$> [])) with (@nil byte).
  rewrite !Zlen_app. unfold encode_inode_mode, put_u8, put_u32, put_u64. unfold Zlen in *. rewrite !length_to_le.
  unfold data_op_room. change (length []) with 0%nat. lia.
Qed.

Lemma root_inode_wf n now : 0 <= now < 2 ^ 64 -> wf_inode (root_inode n now).
Proof.
  intros Hn. unfold wf_inode. cbn [root_inode ir_inode ir_size ir_redundancy ir_data ir_uid ir_gid ir_unix_mode ir_mtime_unix].
  split; [split; [discriminate|reflexivity]|]. split; [split; [discriminate|reflexivity]|]. split.
  { split; [unfold Zlen; rewrite length_replicate; split; lia|]. apply Forall_replicate. exact I. }
  split; [split; [split; [discriminate|reflexivity]|constructor]|].
  do 3 (split; [split; [discriminate|reflexivity]|]). exact Hn.
Qed.

Lemma meta_inv_of_store s w ps ops torn :
  store_inv w s ps ops torn -> exists m, spec_run ops meta_init = Ok m /\ meta_inv s m.
Proof.
  intros Hi. destruct (si_state _ _ _ _ _ Hi) as (m & Em & Hr). exists m. split; [exact Em|].
  destruct (store_inv_wf _ _ _ _ _ _ Hi Em) as [Hw _]. pose proof (logged_total _ _ (si_logged _ _ _ _ _ Hi)).
  split; auto.
  - exact (si_base _ _ _ _ _ Hi).
  - rewrite (si_cursor _ _ _ _ _ Hi). split; [apply Zlen_nonneg|exact (si_fits _ _ _ _ _ Hi)].
  - rewrite (si_cursor _ _ _ _ _ Hi). now apply (wf_meta_weaken (total_weight ops)).
Qed.

(** The pool between the store's opening and the root's creation. *)
Lemma fresh_start paths classes w w' p :
  start_pool start_format paths classes w = (w', Ok p) -> Zlen paths < u32_max ->
  store_inv w' (p_meta p) [] [] false /\ pool_inv w' p meta_init ∅ /\ NoDup paths /\
  p = pool_over classes ((fun q => (new_disk q, 0)) <$> paths) (p_meta p) /\
  (forall q, q ∈ paths -> created w' q) /\ w_fault w' = w_fault w /\
  length classes = length paths /\
  head paths = Some (fd_path (deref (mr_primary_disk (ms_replicator (p_meta p))))).
Proof.
  intros E Hmax. apply start_pool_ok in E as (ac & l & s & Hst & Hcl & Eo & ->). cbn [pool_over p_meta].
  destruct (started_format _ _ _ _ Hst) as (Hnd & El & Hfl & Hin & _).
  destruct paths as [|q0 qs]; [discriminate|]. injection El as -> ->. cbn [fst] in Eo.
  assert (Hfirst : first_open (group_of (length (q0 :: qs))) (new_disk q0)
    (fst <$> head ((fun q => (new_disk q, 0)) <$> qs)) w' s).
  { split_and!; [|apply Arc_FileDisk_readable| |exact Eo].
    - intros i _. change (byte_at (file_at w' q0) i = x00). unfold file_at.
      destruct (Hin q0) as [_ [-> _]]; [now left|]. reflexivity.
    - intros b Hb. cbn in Hb. destruct qs as [|q1 qs]; [discriminate|]. injection Hb as <-.
      apply NoDup_cons in Hnd as [Hni _]. split; intros Hs; apply same_file in Hs; cbn in Hs; subst; apply Hni; now left. }
  destruct (first_open_inv _ _ _ _ _ Hfirst) as (_ & Hsi & Hrep).
  destruct (meta_inv_of_store _ _ _ _ _ Hsi) as (m & [= <-] & Hm).
  split; [exact Hsi|]. split; [|split_and!; auto; [now apply Hin|now rewrite Hrep]]. split; auto.
  - apply map_Forall_empty.
  - change ((new_disk q0, 0) :: _) with ((fun q => (new_disk q, 0)) <$> (q0 :: qs)). apply pool_over_disks_ok.
    + now rewrite length_fmap.
    + unfold Zlen in *. now rewrite length_fmap.
    + apply Forall_fmap, Forall_true. intros q. cbn. split; [lia|reflexivity].
    + now rewrite paths_of_new.
  - apply map_Forall_empty.
  - intros id. cbn. rewrite !lookup_empty. constructor.
Qed.

(** The state of a pool just created. *)
Definition root_meta (n : nat) (now : Z) : meta :=
  {| m_inodes := {[ROOT_INODE := root_inode n now]}; m_dirs := ∅; m_next := 2 |}.

Lemma format_ok paths classes clock w w' p :
  format_with_classes paths classes clock w = (w', Ok p) -> Zlen paths < u32_max -> clock < 2 ^ 64 ->
  pool_inv w' p (root_meta (length paths) clock) {[ROOT_INODE := []]}.
Proof.
  intros E Hmax Hclk. unfold format_with_classes, io_bind, io_lift in E.
  destruct (start_pool start_format paths classes w) as [w1 [p1|e|]] eqn:Es; try discriminate.
  destruct (fresh_start _ _ _ _ _ Es Hmax) as (Hsi & Hi & _).
  unfold now_unix in E. destruct (Z.ltb_spec clock 0) as [|H]; [discriminate|].
  destruct (meta_apply _ (w1, p1)) as [[w2 p2] r2] eqn:Ea. destruct r2 as [[]|e|]; try discriminate. injection E as <- <-.
  destruct (meta_apply_ok _ _ _ (CreateInode (root_inode (length paths) clock)) _ _ _ (pi_meta _ _ _ _ Hi)
    (root_inode_wf _ clock (conj H Hclk)) ltac:(unfold wal_room; rewrite (si_cursor _ _ _ _ _ Hsi);
      pose proof (root_op_size (length paths) clock); assert (data_op_room <= WAL_CAPACITY_BYTES) by discriminate;
      change (Zlen (wal_bytes [])) with 0; lia) Ea) as (Ed & Em & Hg & _ & Hout).
  destruct Hout as (m' & Em' & Hm'). pose proof Em' as Em2. injection Em2 as Em2.
  assert (Hroot : m' = root_meta (length paths) clock) by (rewrite <- Em2; reflexivity). rewrite <- Hroot.
  change {[ROOT_INODE := []]} with (<[ir_inode (root_inode (length paths) clock) := []]> (∅ : gmap Z (list byte))).
  eapply (inv_create w1 p1 meta_init ∅); eauto.
  - eapply disks_ok_same; eauto. exact (pi_disks _ _ _ _ Hi).
  - split; [discriminate|reflexivity].
  - intros [= Hr]. destruct (length paths) as [|n] eqn:En; [|discriminate].
    apply start_pool_ok in Es as (ac & l & s & Hst & _). apply started_length in Hst. rewrite En in Hst. discriminate.
  - split; reflexivity.
Qed.
End Format.
