(* ===== verification/PoolLife.v ===== *)
(** * The life of a pool

    The abstract file system: names, modes and contents, with one step per
    operation and outcome.  The pool's life (operations in any order, devices
    that start or stop failing at any time) is a step relation too, and every
    run of it is a run of the abstract file system. *)

From Stdlib Require Import ZArith Lia.
From stdpp Require Import relations.
From S2P Require Import Prelude Proto KPlacement Disk Segment Wal Codec Replicator Redb Store.
From S2P Require Import StoreSpec StoreRefine StoreRecovery StoreReads CorePlacement Pool PoolSpec PoolRefine PoolFormat.

(** ** The abstract file system *)
Record fs := {
  fs_names : gmap (Z * list byte) Z;
  fs_modes : gmap Z InodeMode;
  fs_data : gmap Z (list byte);
}.

(** The operations that change a pool. *)
Inductive pool_op :=
  | OpCreate (parent : Z) (name : list byte) (redundancy : RedundancyScheme) (uid gid unix_mode clock : Z)
  | OpUnlink (parent : Z) (name : list byte)
  | OpSetRedundancy (inode : Z) (scheme : RedundancyScheme)
  | OpAppend (inode : Z) (payload : list byte)
  | OpBeginConvert (inode : Z)
  | OpCompleteConvert (inode : Z)
  | OpWrite (inode offset : Z) (data : list byte).

Inductive fs_step (s : fs) : pool_op -> result PoolError unit -> fs -> Prop :=
  | fs_create parent name sch uid gid mode clock id :
      fs_data s !! id = None ->
      fs_step s (OpCreate parent name sch uid gid mode clock) (Ok tt)
        {| fs_names := <[(parent, name) := id]> (fs_names s);
           fs_modes := <[id := AppendOnly]> (fs_modes s); fs_data := <[id := []]> (fs_data s) |}
  (** The file was created, its name was not. *)
  | fs_create_orphan parent name sch uid gid mode clock id e :
      fs_data s !! id = None ->
      fs_step s (OpCreate parent name sch uid gid mode clock) (Err e)
        {| fs_names := fs_names s;
           fs_modes := <[id := AppendOnly]> (fs_modes s); fs_data := <[id := []]> (fs_data s) |}
  | fs_unlink parent name :
      fs_step s (OpUnlink parent name) (Ok tt)
        {| fs_names := delete (parent, name) (fs_names s); fs_modes := fs_modes s; fs_data := fs_data s |}
  | fs_set_redundancy id sch c :
      fs_data s !! id = Some c -> fs_step s (OpSetRedundancy id sch) (Ok tt) s
  | fs_append id payload c m :
      fs_data s !! id = Some c -> fs_modes s !! id = Some m -> m <> Writable ->
      fs_step s (OpAppend id payload) (Ok tt)
        {| fs_names := fs_names s; fs_modes := fs_modes s; fs_data := <[id := c ++ payload]> (fs_data s) |}
  | fs_begin_convert id :
      fs_modes s !! id = Some AppendOnly ->
      fs_step s (OpBeginConvert id) (Ok tt)
        {| fs_names := fs_names s; fs_modes := <[id := Converting]> (fs_modes s); fs_data := fs_data s |}
  | fs_complete_convert id :
      fs_modes s !! id = Some Converting ->
      fs_step s (OpCompleteConvert id) (Ok tt)
        {| fs_names := fs_names s; fs_modes := <[id := Writable]> (fs_modes s); fs_data := fs_data s |}
  | fs_write id offset data c :
      fs_data s !! id = Some c -> fs_modes s !! id = Some Writable ->
      fs_step s (OpWrite id offset data) (Ok tt)
        {| fs_names := fs_names s; fs_modes := fs_modes s; fs_data := <[id := overwrite c offset data]> (fs_data s) |}
  | fs_fails op e : fs_step s op (Err e) s.

(** The abstract state of a pool. *)
Definition fs_of (m : meta) (fc : gmap Z (list byte)) : fs :=
  {| fs_names := m_dirs m; fs_modes := ir_mode <$> m_inodes m; fs_data := fc |}.

Lemma fs_of_with m fc (id : Z) r : ir_inode r = id -> fs_of (with_inode r m) fc =
  {| fs_names := m_dirs m; fs_modes := <[id := ir_mode r]> (ir_mode <$> m_inodes m); fs_data := fc |}.
Proof. intros <-. unfold fs_of. cbn [with_inode m_inodes m_dirs]. now rewrite fmap_insert. Qed.

(** A record changed in other respects than its mode. *)
Lemma fs_of_touch m fc (id : Z) r r' :
  m_inodes m !! id = Some r -> ir_inode r' = id -> ir_mode r' = ir_mode r -> fs_of (with_inode r' m) fc = fs_of m fc.
Proof.
  intros Er Hid Hm. rewrite (fs_of_with m fc id) by exact Hid. unfold fs_of. f_equal. rewrite Hm. apply insert_id.
  now rewrite lookup_fmap, Er.
Qed.

Lemma fs_of_same m m' fc :
  m_inodes m' = m_inodes m -> m_dirs m' = m_dirs m -> fs_of m' fc = fs_of m fc.
Proof. unfold fs_of. now intros -> ->. Qed.

Section Life.
Context {DB : Type} `{!Redb DB} `{!RedbLaws DB} `{!RedbReliable DB} `{HI : !HashIter}.
Implicit Types (w : os_world) (p : Pool DB).

(** Discard a result. *)
Definition io_void {W E A} (m : io W E A) : io W E unit := let! _ := m in io_ret tt.

Definition run_op (op : pool_op) : io (os_world * Pool DB) PoolError unit :=
  match op with
  | OpCreate parent name sch uid gid mode clock => io_void (create_file parent name sch uid gid mode clock)
  | OpUnlink parent name => unlink parent name
  | OpSetRedundancy id sch => set_redundancy id sch
  | OpAppend id payload => Pool.append id payload
  | OpBeginConvert id => begin_convert id
  | OpCompleteConvert id => complete_convert id
  | OpWrite id offset data => Pool.write id offset data
  end.

(** What an operation needs: arguments of the source's types, a policy with a
    replica, room in the log, a content that the 32-bit length of an extent
    and the 64-bit size of a file can hold. *)
Definition op_fits (op : pool_op) p : Prop :=
  let room op := Zlen (frame (encode_op op)) in
  let next := ms_next_inode (p_meta p) in
  let size id n := match find_inode p id with Ok r => ir_size r < n | _ => True end in
  match op with
  | OpCreate parent name sch uid gid mode clock =>
      let r := new_file next sch uid gid mode clock in
      next < 2 ^ 64 - 1 /\ 0 <= clock /\ wf_op (CreateInode r) /\ wf_op (Link parent name next) /\
      asks_replica sch /\ wal_room (p_meta p) (room (CreateInode r) + room (Link parent name next))
  | OpUnlink parent name => wf_op (Unlink parent name) /\ wal_room (p_meta p) (room (Unlink parent name))
  | OpSetRedundancy id sch => wf_op (SetRedundancyScheme id sch) /\ asks_replica sch /\
      wal_room (p_meta p) (room (SetRedundancyScheme id sch))
  | OpAppend id payload => wal_room (p_meta p) data_op_room /\ size id (2 ^ 64 - Zlen payload)
  | OpBeginConvert id => u64 id /\ wal_room (p_meta p) data_op_room
  | OpCompleteConvert id => wal_room (p_meta p) data_op_room /\ size id (2 ^ 32)
  | OpWrite id offset data => wal_room (p_meta p) data_op_room /\ 0 <= offset /\ offset + Zlen data < 2 ^ 32 /\
      size id (2 ^ 32)
  end.

#[export] Instance op_fits_dec op p : Decision (op_fits op p).
Proof.
  destruct op; cbn [op_fits]; cbv zeta; unfold wal_room, asks_replica; repeat apply and_dec; try apply _;
    destruct (find_inode _ _); apply _.
Defined.

(** The recorded size is the length of the content. *)
Lemma size_content w p m fc (id : Z) n :
  pool_inv w p m fc -> match find_inode p id with Ok r => ir_size r < n | _ => True end ->
  forall c, fc !! id = Some c -> Zlen c < n.
Proof.
  intros Hi Hs c Hc. pose proof (pool_inv_find _ _ _ _ id Hi) as Hf.
  destruct (find_inode p id) as [r|e|]; [|destruct Hf as (_ & _ & ?); congruence|contradiction].
  destruct Hf as (c' & _ & Ec & [Hsz _] & _). congruence.
Qed.

Lemma pool_inv_ids w p m fc : pool_inv w p m fc -> map_Forall (fun i r => ir_inode r = i) (m_inodes m).
Proof. intros Hi id r Er. destruct (wf_inodes _ _ (mi_wf _ _ (pi_meta _ _ _ _ Hi)) _ _ Er) as (_ & ? & _). assumption. Qed.

Lemma modes_lookup m fc (id : Z) r : m_inodes m !! id = Some r -> fs_modes (fs_of m fc) !! id = Some (ir_mode r).
Proof. intros E. cbn [fs_of fs_modes]. now rewrite lookup_fmap, E. Qed.

(** A file that is made, or an inode that a failed link leaves without a name. *)
Lemma create_refines parent name sch uid gid mode clock w p m fc w' p' out :
  pool_inv w p m fc -> op_fits (OpCreate parent name sch uid gid mode clock) p ->
  run_op (OpCreate parent name sch uid gid mode clock) (w, p) = ((w', p'), out) ->
  exists m' fc', pool_inv w' p' m' fc' /\
    fs_step (fs_of m fc) (OpCreate parent name sch uid gid mode clock) out (fs_of m' fc').
Proof.
  intros Hi Hfit E. cbn [run_op op_fits] in *. rewrite (proj2 (mi_refines _ _ (pi_meta _ _ _ _ Hi))) in Hfit.
  destruct Hfit as (H1 & H2 & H3 & H4 & H5 & H6). unfold io_void, io_bind, io_ret in E.
  destruct (create_file _ _ _ _ _ _ _ (w, p)) as [[w1 p1] r1] eqn:Ec.
  destruct (create_file_spec _ _ _ _ _ _ _ _ _ _ _ _ _ _ Hi H1 H2 H3 H4 H5 H6 Ec) as [Hn Hout].
  destruct r1 as [id|[|[]| | | |]|]; try contradiction; injection E as <- <- <-.
  - destruct Hout as (-> & m' & Hi' & Ei & Ed). exists m', (<[m_next m := []]> fc). split; [exact Hi'|].
    unfold fs_of at 2. rewrite Ei, Ed, fmap_insert. now apply (fs_create (fs_of m fc)).
  - destruct Hout as (m' & fc' & Hi' & Ed & [[-> Ei]|[-> Ei]]); eexists m', _; (split; [exact Hi'|]).
    + rewrite (fs_of_same m m') by auto. constructor.
    + unfold fs_of at 2. rewrite Ei, Ed, fmap_insert. now apply (fs_create_orphan (fs_of m fc)).
Qed.

(** The file has the mode, or is there, as the store demands of the operation
    when it applies it: an operation that it rejects is in the log already. *)
Definition accepted (op : pool_op) (s : fs) : Prop :=
  match op with
  | OpSetRedundancy id _ => is_Some (fs_modes s !! id)
  | OpBeginConvert id => fs_modes s !! id = Some AppendOnly
  | _ => True
  end.

(** The metadata operations that an operation of the pool can log. *)
Definition may_log (op : pool_op) (X : MetaOp) : Prop :=
  match op, X with
  | OpCreate _ _ sch uid gid mode clock, CreateInode r => exists id, r = new_file id sch uid gid mode clock
  | OpCreate parent name _ _ _ _ _, Link parent' name' _ => parent' = parent /\ name' = name
  | OpUnlink parent name, Unlink parent' name' => parent' = parent /\ name' = name
  | OpSetRedundancy id sch, SetRedundancyScheme id' sch' => id' = id /\ sch' = sch
  | OpAppend id _, AppendChunk id' _ => id' = id
  | OpBeginConvert id, BeginConvert id' => id' = id
  | OpCompleteConvert id, CompleteConvert id' _ => id' = id
  | OpWrite id _ _, UpdateExtents id' _ => id' = id
  | _, _ => False
  end.

(** The metadata operation [X] is what [op] logs: taking effect, it is the step
    of the abstract file system. *)
Definition op_logs (op : pool_op) m fc (X : MetaOp) fc' : Prop :=
  may_log op X /\
  (forall m', spec_apply X m = Ok m' -> fs_step (fs_of m fc) op (Ok tt) (fs_of m' fc')) /\
  (accepted op (fs_of m fc) -> exists m', spec_apply X m = Ok m').

Lemma append_logs w p m fc (id : Z) payload X fc' :
  pool_inv w p m fc -> append_op m fc id payload X fc' -> op_logs (OpAppend id payload) m fc X fc'.
Proof.
  intros Hi (c & r & cs & chunk & Ec & Er & Em & Ed & -> & -> & Es). split; [reflexivity|]. split; [|eauto]. intros m' E. rewrite Es in E.
  injection E as <-. rewrite (fs_of_touch m _ id r) by (auto; exact (pool_inv_ids _ _ _ _ Hi _ _ Er)).
  apply (fs_append (fs_of m fc) id payload c (ir_mode r)); [exact Ec|now apply modes_lookup|exact Em].
Qed.

Lemma convert_logs w p m fc (id : Z) X fc' :
  pool_inv w p m fc -> extent_op m fc id Converting (fun c => c) (CompleteConvert id) converted X fc' ->
  op_logs (OpCompleteConvert id) m fc X fc'.
Proof.
  intros Hi (c & r & xs & Ec & Er & Em & -> & -> & Es). split; [reflexivity|]. split; [|eauto]. intros m' E. rewrite Es in E. injection E as <-.
  rewrite insert_id by exact Ec. rewrite (fs_of_with m fc id) by exact (pool_inv_ids _ _ _ _ Hi _ _ Er).
  apply (fs_complete_convert (fs_of m fc)). rewrite (modes_lookup _ _ _ _ Er). now rewrite Em.
Qed.

Lemma write_logs w p m fc (id : Z) offset data X fc' :
  pool_inv w p m fc ->
  extent_op m fc id Writable (fun c => overwrite c offset data) (UpdateExtents id) rewritten X fc' ->
  op_logs (OpWrite id offset data) m fc X fc'.
Proof.
  intros Hi (c & r & xs & Ec & Er & Em & -> & -> & Es). split; [reflexivity|]. split; [|eauto]. intros m' E. rewrite Es in E. injection E as <-.
  rewrite (fs_of_touch m _ id r) by (auto; exact (pool_inv_ids _ _ _ _ Hi _ _ Er)).
  apply (fs_write (fs_of m fc)); [exact Ec|]. rewrite (modes_lookup _ _ _ _ Er). now rewrite Em.
Qed.

Lemma begin_convert_logs w p m fc (id : Z) : pool_inv w p m fc -> op_logs (OpBeginConvert id) m fc (BeginConvert id) fc.
Proof.
  intros Hi. split; [reflexivity|]. split.
  - intros m' Es. apply on_inode_Ok in Es as (r & r' & Er & Es & ->).
    destruct (ir_mode r) eqn:Em; try discriminate. injection Es as <-.
    rewrite (fs_of_with m fc id) by exact (pool_inv_ids _ _ _ _ Hi _ _ Er).
    apply (fs_begin_convert (fs_of m fc)). rewrite (modes_lookup _ _ _ _ Er). now rewrite Em.
  - cbn [accepted fs_of fs_modes spec_apply]. rewrite lookup_fmap. intros Ha. unfold on_inode.
    destruct (m_inodes m !! id) as [r|]; [|discriminate]. cbn in *. injection Ha as ->. eauto.
Qed.

Lemma set_redundancy_logs w p m fc (id : Z) sch :
  pool_inv w p m fc -> op_logs (OpSetRedundancy id sch) m fc (SetRedundancyScheme id sch) fc.
Proof.
  intros Hi. split; [now split|]. split.
  - intros m' Es. apply on_inode_Ok in Es as (r & r' & Er & [= <-] & ->).
    rewrite (fs_of_touch m fc id r) by (auto; exact (pool_inv_ids _ _ _ _ Hi _ _ Er)).
    pose proof (pi_data _ _ _ _ Hi id) as Hd. rewrite Er in Hd. inversion Hd. econstructor. cbn. eauto.
  - cbn [accepted fs_of fs_modes spec_apply]. rewrite lookup_fmap. intros [mo Ha]. unfold on_inode.
    destruct (m_inodes m !! id) as [r|]; [|discriminate]. cbn. eauto.
Qed.

Lemma unlink_logs m fc parent name : op_logs (OpUnlink parent name) m fc (Unlink parent name) fc.
Proof. split; [now split|]. split; [|cbn; eauto]. intros m' [= <-]. constructor. Qed.

Definition is_create (op : pool_op) : bool := match op with OpCreate _ _ _ _ _ _ _ => true | _ => false end.

(** The operation writes no extent. *)
Definition appends_only (op : pool_op) : bool :=
  match op with OpCompleteConvert _ | OpWrite _ _ _ => false | _ => true end.

(** The course of every operation but a creation; what is shown of the write
    loop of an append holds of it. *)
Lemma op_course_at op w p m fc (P : os_world -> Pool DB -> Prop) w' p' out :
  is_create op = false -> P w p -> (appends_only op = true \/ forall w1 p1, P w1 p1) ->
  (forall id payload, op = OpAppend id payload -> forall seq ids w1 p1 r, u64 id -> u64 seq -> r <> Panic ->
     for_each (append_replica (Record_new id seq payload)) ids (w, p) = ((w1, p1), r) -> P w1 p1) ->
  pool_inv w p m fc -> op_fits op p -> run_op op (w, p) = ((w', p'), out) ->
  course w p m fc P (fun X fc' => op_logs op m fc X fc' /\ chunk_after p X) (fun _ => True) w' p' out.
Proof.
  intros Hc HP HPa Hloop Hi Hfit E. pose proof (pi_disks _ _ _ _ Hi) as Hok.
  destruct op as [|parent name|id sch|id payload|id|id|id offset data]; [discriminate|cbn [run_op op_fits] in *..].
  - destruct Hfit as [[H1 H2] H3]. eapply course_meta; eauto using unlink_effect. split; [apply unlink_logs|exact I].
  - destruct Hfit as [[H1 H2] [H3 H4]]. eapply course_meta; eauto using set_redundancy_effect.
    split; [now apply (set_redundancy_logs w p)|exact I].
  - destruct Hfit as [H1 H2].
    assert (H3 : forall c, fc !! id = Some c -> Zlen c + Zlen payload < 2 ^ 64)
      by (intros c Hc'; pose proof (size_content _ _ _ _ _ _ Hi H2 c Hc'); lia).
    eapply course_mono; [| | |exact (append_course _ _ _ _ P _ _ _ _ _ HP (Hloop _ _ eq_refl) Hi H1 H3 E)]; auto.
    intros X fc' [HX HS]. split; [now apply (append_logs w p)|exact HS].
  - destruct Hfit as [H1 H2]. eapply course_meta; eauto using begin_convert_effect.
    split; [now apply (begin_convert_logs w p)|exact I].
  - destruct HPa as [?|HPa]; [discriminate|]. destruct Hfit as [H1 H2].
    eapply course_mono; [| | |eapply complete_convert_course; eauto using size_content]; auto.
    intros X fc' HX. split; [now apply (convert_logs w p)|]. destruct HX as (? & ? & ? & _ & _ & _ & -> & _). exact I.
  - destruct HPa as [?|HPa]; [discriminate|]. destruct Hfit as (H1 & H2 & H3 & H4).
    eapply course_mono; [| | |eapply write_course; eauto using size_content]; auto.
    intros X fc' HX. split; [now apply (write_logs w p)|]. destruct HX as (? & ? & ? & _ & _ & _ & -> & _). exact I.
Qed.

Lemma op_course op w p m fc w' p' out :
  is_create op = false -> pool_inv w p m fc -> op_fits op p -> run_op op (w, p) = ((w', p'), out) ->
  course w p m fc (fun _ _ => True) (op_logs op m fc) (fun _ => True) w' p' out.
Proof.
  intros Hc Hi Hfit E. eapply course_mono; [| | |apply (op_course_at op w p m fc (fun _ _ => True))]; eauto.
  now intros X fc' [HX _].
Qed.

(** One operation of the pool is one step of the abstract file system. *)
Lemma run_op_refines op w p m fc w' p' out :
  pool_inv w p m fc -> op_fits op p -> run_op op (w, p) = ((w', p'), out) ->
  exists m' fc', pool_inv w' p' m' fc' /\ fs_step (fs_of m fc) op out (fs_of m' fc').
Proof.
  intros Hi Hfit E. destruct (is_create op) eqn:Hc.
  - destruct op; try discriminate. exact (create_refines _ _ _ _ _ _ _ _ _ _ _ _ _ _ Hi Hfit E).
  - pose proof (course_outcome _ _ _ _ _ _ _ _ _ _ Hi (op_course _ _ _ _ _ _ _ _ Hc Hi Hfit E)) as Hout.
    destruct out as [[]|e|]; [|destruct Hout as [Hi' _]; exists m, fc; split; [exact Hi'|constructor]|contradiction].
    destruct Hout as (X & fc' & m' & (_ & Hst & _) & Es & Hi'). exists m', fc'. auto.
Qed.

(** ** Runs *)

(** The pool [p] on the disks [w] is the file system [s]. *)
Definition represents w p (s : fs) : Prop := exists m fc, pool_inv w p m fc /\ s = fs_of m fc.

(** One event: an operation, a change in which devices fail and when, or the
    system writing back or dropping any of what has not been synced. *)
Inductive pool_step : os_world * Pool DB -> os_world * Pool DB -> Prop :=
  | step_op op w p wp' out : op_fits op p -> run_op op (w, p) = (wp', out) -> pool_step (w, p) wp'
  | step_fault w p faults : pool_step (w, p) ({| w_files := w_files w; w_durable := w_durable w; w_fault := faults |}, p)
  | step_crashed w p w' : crashed w w' -> pool_step (w, p) (w', p).

(** Some operation, with some outcome. *)
Definition fs_any (s s' : fs) : Prop := exists op out, fs_step s op out s'.

Lemma pool_step_represents w p w' p' s :
  pool_step (w, p) (w', p') -> represents w p s -> exists s', rtc fs_any s s' /\ represents w' p' s'.
Proof.
  intros Hs (m & fc & Hi & ->). inversion Hs as [op ? ? ? out Hfit E|? ? faults|? ? ? Hc]; subst.
  - destruct (run_op_refines _ _ _ _ _ _ _ _ Hi Hfit E) as (m' & fc' & Hi' & Hst).
    exists (fs_of m' fc'). split; [apply rtc_once; now exists op, out|now exists m', fc'].
  - exists (fs_of m fc). split; [apply rtc_refl|]. exists m, fc. split; [|reflexivity].
    eapply inv_keep; eauto; [now apply grows_same; [..|intros d b x y]|exact (pi_disks _ _ _ _ Hi)|exact (pi_meta _ _ _ _ Hi)|lia].
  - exists (fs_of m fc). split; [apply rtc_refl|]. exists m, fc. split; [now apply (crashed_inv w)|reflexivity].
Qed.

Lemma pool_run_represents wp wp' s :
  rtc pool_step wp wp' -> represents wp.1 wp.2 s -> exists s', rtc fs_any s s' /\ represents wp'.1 wp'.2 s'.
Proof.
  intros Hr. revert s. induction Hr as [|[w p] [w1 p1] wp' Hs _ IH]; intros s Hrep; [exists s; split; [apply rtc_refl|exact Hrep]|].
  destruct (pool_step_represents _ _ _ _ _ Hs Hrep) as (s1 & Hs1 & Hrep1).
  destruct (IH s1 Hrep1) as (s' & Hs' & Hrep'). exists s'. split; [now transitivity s1|exact Hrep'].
Qed.

(** What a pool shows of the file system it is. *)
Lemma represents_reads w p s :
  represents w p s ->
  (forall (id : Z) c offset len, fs_data s !! id = Some c -> 0 <= offset -> 0 <= len ->
     read p id offset len w = Ok (content_slice c offset len)) /\
  (forall (parent : Z) name, u64 parent -> lookup p parent name = Ok (fs_names s !! (parent, name))) /\
  (forall id : Z, fs_data s !! id = None -> forall offset len, read p id offset len w = Err InodeNotFound).
Proof.
  intros (m & fc & Hi & ->). pose proof (pi_meta _ _ _ _ Hi) as Hm. split_and!.
  - intros id c offset len Hc. now apply (read_ok_content w p m fc).
  - intros parent name Hp. unfold lookup.
    destruct (get_and_lookup _ _ _ 0 parent name (mi_refines _ _ Hm) (mi_wf _ _ Hm) Hp) as [_ ->]. reflexivity.
  - intros id Hn offset len. unfold read. pose proof (pool_inv_find _ _ _ _ id Hi) as Hf. cbn in Hn.
    destruct (find_inode p id) as [r|e|]; [destruct Hf as (c & _ & ? & _); congruence| |contradiction].
    destruct Hf as (-> & _). reflexivity.
Qed.
End Life.

(** The file system just after formatting: an empty root directory. *)
Definition fs_init : fs :=
  {| fs_names := ∅; fs_modes := {[ROOT_INODE := Writable]}; fs_data := {[ROOT_INODE := []]} |}.

Section Run.
Context {DB : Type} `{!Redb DB} `{!RedbLaws DB} `{!RedbReliable DB} `{HI : !HashIter}.

End Run.
