(* ===== verification/PoolOpen.v ===== *)
(** * Opening a pool

    [open_with_classes] step by step: on disks that lie at the given paths it
    succeeds as soon as the metadata store opens.  What the pool then answers
    depends on the store and on the files behind the handles only, so the pool
    opened can be compared with the one that was there before. *)

From Stdlib Require Import ZArith Lia.
From stdpp Require Import relations.
From S2P Require Import Prelude Proto KWritePath KPlacement Crc32c Disk Framing Segment Wal Codec.
From S2P Require Import Replicator Redb Store StoreSpec StoreRefine StoreRecovery StoreTorn StoreReads CorePlacement.
From S2P Require Import Pool PoolSpec PoolRefine PoolFormat PoolLife.

#[local] Arguments contents : simpl never.
#[local] Arguments Store.open : simpl never.
#[local] Arguments number : simpl never.
#[local] Opaque WAL_CAPACITY_BYTES.

Lemma segment_base : wf_base SEGMENT_BASE_OFFSET.
Proof. split; [discriminate|reflexivity]. Qed.

Section Opening.
Context {DB : Type} `{!Redb DB} `{!RedbLaws DB} `{!RedbReliable DB} `{HI : !HashIter}.
Implicit Types (w : os_world) (p : Pool DB).

(** ** [open_with_classes] *)

Lemma bring_up_world i paths classes acc w w' r : bring_up start_open i paths classes acc w = (w', r) -> w' = w.
Proof.
  revert i classes acc. induction paths as [|q paths IH]; intros i [|c classes] acc; cbn [bring_up];
    try now intros [= <- _]. unfold io_bind, start_open, io_bind, io_map_err, io_query, FileDisk_open.
  destruct (w_files w !! q); [|now intros [= <- _]]. cbn [map_err]. destruct (Segment.scan _ _ _); [|now intros [= <- _]..].
  cbn [map_err io_ret]. destruct acc as [[entries handles] arcs]. apply IH.
Qed.

(** The state a store holds is determined. *)
Lemma refines_fun (s : MetaStore (Arc FileDisk) DB) m1 m2 n1 n2 :
  refines s m1 -> refines s m2 -> wf_meta n1 m1 -> wf_meta n2 m2 -> m1 = m2.
Proof.
  intros H1 H2 W1 W2.
  assert (Ei : m_inodes m1 = m_inodes m2).
  { apply map_eq. intros id. destruct (get_and_lookup _ _ _ id 0 [] H1 W1) as [E1 _]; [split; [lia|reflexivity]|].
    destruct (get_and_lookup _ _ _ id 0 [] H2 W2) as [E2 _]; [split; [lia|reflexivity]|].
    pose proof (eq_trans (eq_sym E1) E2) as [= E]. exact E. }
  assert (Ed : m_dirs m1 = m_dirs m2).
  { apply map_eq. intros [parent name].
    destruct (decide (0 <= parent < 2 ^ 64)) as [Hu|Hu].
    - destruct (get_and_lookup _ _ _ 0 parent name H1 W1 Hu) as [_ E1].
      destruct (get_and_lookup _ _ _ 0 parent name H2 W2 Hu) as [_ E2].
      pose proof (eq_trans (eq_sym E1) E2) as [= E]. exact E.
    - destruct (m_dirs m1 !! (parent, name)) eqn:E1; [now destruct (wf_dirs _ _ W1 _ _ E1) as [? _]|].
      destruct (m_dirs m2 !! (parent, name)) eqn:E2; [now destruct (wf_dirs _ _ W2 _ _ E2) as [? _]|reflexivity]. }
  destruct H1 as [_ N1], H2 as [_ N2]. destruct m1, m2. cbn in *. congruence.
Qed.

(** Bringing up disks that all start without changing the world. *)
Lemma bring_up_all start (f : path -> Arc FileDisk * Z) i paths classes entries handles arcs w :
  length paths = length classes -> (forall q, q ∈ paths -> start q w = (w, Ok (f q))) ->
  bring_up start i paths classes (entries, handles, arcs) w =
    (w, Ok (number i (new_entries i classes) entries, number i (handle_of <$> (f <$> paths)) handles,
            arcs ++ (f <$> paths).*1)).
Proof.
  revert i classes entries handles arcs. induction paths as [|q qs IH]; intros i [|c cs] entries handles arcs Hl Hf;
    try discriminate; [cbn; now rewrite app_nil_r|].
  cbn [bring_up]. unfold io_bind. rewrite (Hf q) by now left. destruct (f q) as [arc cur] eqn:Eq.
  rewrite IH by (auto; intros q' Hq'; apply Hf; now right). rewrite !fmap_cons, Eq. cbn [new_entries number fst].
  now rewrite <- app_assoc.
Qed.

Lemma start_pool_runs start (f : path -> Arc FileDisk * Z) q0 qs classes w r :
  length (q0 :: qs) = length classes -> (forall q, q ∈ q0 :: qs -> start q w = (w, Ok (f q))) ->
  Store.open (group_of (length (q0 :: qs))) (f q0).1 (fst <$> head (f <$> qs)) w = r ->
  start_pool start (q0 :: qs) classes w = (w, let? s := map_err Meta r in Ok (pool_over classes (f <$> (q0 :: qs)) s)).
Proof.
  intros Hl Hf Ho. unfold start_pool. rewrite decide_False by discriminate.
  replace (length (q0 :: qs) =? length classes)%nat with true by (symmetry; now apply Nat.eqb_eq). cbn [negb].
  unfold io_bind at 1. rewrite (bring_up_all _ f) by auto. rewrite disk_ids_lookup by (simpl; lia).
  unfold io_bind, io_lift, io_query, io_ret, unwrap. cbn [lookup list_lookup fmap list_fmap app fst].
  unfold group_of in Ho. destruct qs as [|q1 qs].
  - replace (disk_ids_for [q0] !! 1%nat) with (@None DiskId) by reflexivity.
    change (2 <=? length [q0])%nat with false in Ho. cbn in Ho |- *. change (Z.of_nat 0 + 1) with 1; change (Z.of_nat 1 + 1) with 2. rewrite Ho. now destruct r.
  - rewrite disk_ids_lookup by (simpl; lia). change (2 <=? length (q0 :: q1 :: qs))%nat with true in Ho.
    cbn in Ho |- *. change (Z.of_nat 0 + 1) with 1; change (Z.of_nat 1 + 1) with 2. rewrite Ho. now destruct r.
Qed.

(** The handle that opening the file at [q] gives, and the cursor the scan finds. *)
Definition opened w (q : path) : Arc FileDisk := {| deref := {| fd_path := q; fd_capacity := f_len (file_at w q) |} |}.
Definition start_of w (q : path) : Arc FileDisk * Z :=
  (opened w q, match Segment.scan (opened w q) SEGMENT_BASE_OFFSET w with Ok r => Segment.resume_at r | _ => 0 end).

(** Opening writes nothing. *)
Lemma open_world paths classes w w' (r : result PoolError (Pool DB)) : open_with_classes paths classes w = (w', r) -> w' = w.
Proof.
  unfold open_with_classes, start_pool, io_bind, io_query, io_lift. case_decide; [now intros [= <- _]|].
  destruct (negb _); [now intros [= <- _]|].
  destruct (bring_up _ _ _ _ _ _) as [w1 [[[entries handles] arcs]|e|]] eqn:E.
  2,3: now intros [= <- _]; apply bring_up_world in E.
  apply bring_up_world in E as ->. destruct (unwrap _); [|now intros [= <- _]..]. destruct (unwrap _); [|now intros [= <- _]..].
  destruct (disk_ids_for paths !! 1%nat); [destruct (unwrap _); [|now intros [= <- _]..]|];
    cbn [io_ret]; (destruct (map_err _ _); now intros [= <- _]).
Qed.

(** The pool over the disks of [paths], opened in [w]: a handle of it is the
    handle the sound pool had, on the file opened again. *)
Definition reopened_over (classes : list DiskClass) (paths : list path) w (s : MetaStore (Arc FileDisk) DB) : Pool DB :=
  pool_over classes (start_of w <$> paths) s.

(** ** Disks at paths *)

(** Both images of the handle's file are as long as [format] makes it. *)
Definition full_length w (h : DiskHandle) : Prop :=
  settled (dh_disk h) w DISK_FILE_CAPACITY_BYTES DISK_FILE_CAPACITY_BYTES.

(** The disks of the pool are the files at [paths], in order, at full length. *)
Record on_paths (paths : list path) w p : Prop := {
  on_length : map_Forall (fun _ h => full_length w h) (disks p);
  on_number : paths_of p = number 0 paths ∅;
}.

Lemma on_disk paths w p (j : nat) q :
  on_paths paths w p -> paths !! j = Some q ->
  exists h, disks p !! (Z.of_nat j + 1) = Some h /\ fd_path (deref (dh_disk h)) = q.
Proof.
  intros Hs Hq. pose proof (number_index _ _ _ Hq) as E. rewrite <- (on_number _ _ _ Hs) in E. unfold paths_of in E.
  rewrite lookup_fmap in E. destruct (disks p !! (Z.of_nat j + 1)) as [h|]; [|discriminate]. injection E as E. eauto.
Qed.

Lemma on_path paths w p (id : Z) h :
  on_paths paths w p -> disks p !! id = Some h -> exists j : nat, id = Z.of_nat j + 1 /\ paths !! j = Some (fd_path (deref (dh_disk h))).
Proof.
  intros Hs E. assert (Hl : number 0 paths ∅ !! id = Some (fd_path (deref (dh_disk h))))
    by (rewrite <- (on_number _ _ _ Hs); unfold paths_of; rewrite lookup_fmap, E; reflexivity).
  apply number_Some in Hl as (j & -> & Hj). eauto.
Qed.

Lemma on_paths_NoDup paths w p : disks_ok p -> on_paths paths w p -> NoDup paths.
Proof.
  intros Hok Hs. apply NoDup_alt. intros i j q Hi Hj.
  destruct (on_disk _ _ _ _ _ Hs Hi) as (hi & Ei & Pi), (on_disk _ _ _ _ _ Hs Hj) as (hj & Ej & Pj).
  assert (Z.of_nat i + 1 = Z.of_nat j + 1); [|lia]. apply (do_distinct _ Hok _ _ _ _ Ei Ej). apply same_file. congruence.
Qed.

(** Each of them starts. *)
Lemma on_start paths w p q : on_paths paths w p -> q ∈ paths -> start_open q w = (w, Ok (start_of w q)).
Proof.
  intros Hs Hq. apply list_elem_of_lookup in Hq as [j Hj]. destruct (on_disk _ _ _ _ _ Hs Hj) as (h & Eh & <-).
  destruct (on_length _ _ _ Hs _ _ Eh) as [Hl _]. set (q := fd_path _) in *.
  change (contents (dh_disk h) w) with (file_at w q) in Hl.
  destruct (scan_returns (opened w q) SEGMENT_BASE_OFFSET w segment_base) as (r & Hscan & _).
  unfold start_open, io_bind, io_map_err, FileDisk_open. destruct (w_files w !! q) as [f|] eqn:Ef.
  - cbn [map_err]. replace {| fd_path := q; fd_capacity := f_len f |} with (deref (opened w q))
      by (unfold opened, file_at; now rewrite Ef). unfold io_query, start_of. change {| deref := deref (opened w q) |} with (opened w q).
    now rewrite Hscan.
  - unfold file_at in Hl. rewrite Ef in Hl. exfalso. now apply Hl.
Qed.

Lemma open_runs q0 qs classes w p r :
  on_paths (q0 :: qs) w p -> length classes = length (q0 :: qs) ->
  Store.open (group_of (length (q0 :: qs))) (opened w q0) (fst <$> head (start_of w <$> qs)) w = r ->
  open_with_classes (q0 :: qs) classes w = (w, let? s := map_err Meta r in Ok (reopened_over classes (q0 :: qs) w s)).
Proof.
  intros Hs Hcl Eo. apply start_pool_runs; [now symmetry| |exact Eo]. intros q Hq. exact (on_start _ _ _ _ Hs Hq).
Qed.

Lemma backup_elsewhere q0 qs w (b : Arc FileDisk) :
  NoDup (q0 :: qs) -> fst <$> head (start_of w <$> qs) = Some b -> ~ same_disk b (opened w q0).
Proof.
  intros Hnd Hb. destruct qs as [|q1 qs]; [discriminate|]. injection Hb as <-. intros Hx. apply same_file in Hx. cbn in Hx.
  subst. apply NoDup_cons in Hnd as [Hni _]. apply Hni. now left.
Qed.

(** The metadata store opens on a log of operations that the specification
    accepts. *)
Lemma store_opens (primary : Arc FileDisk) backup n w sc ops m torn :
  Wal.scan primary 0 w = Ok sc -> Forall2 logged (Wal.entries sc) ops -> Forall wf_op ops ->
  log_on primary w (Wal.entries sc) torn -> (forall b, backup = Some b -> ~ same_disk b primary) ->
  spec_run ops meta_init = Ok m ->
  exists s : MetaStore (Arc FileDisk) DB, Store.open (group_of n) primary backup w = Ok s /\ meta_inv s m /\
    store_inv w s (Wal.entries sc) ops torn /\ mr_primary_disk (ms_replicator s) = primary.
Proof.
  intros Es Hlg Hwf Hlog Hdist Hm. destruct (wal_scan_returns primary 0 w wf_base_0) as (r & Er & (Hra & Hle & _) & _).
  rewrite Es in Er. injection Er as ->.
  destruct (open_inv (DB := DB) (group_of n) primary backup w _ ops m torn Es Hlg Hwf Hra Hle Hlog) as (s & Eo & Hr & Ep & Hst).
  - intros b Hb. split; [exact (Hdist b Hb)|]. intros Hx. apply (Hdist b Hb). apply same_file. symmetry. now apply same_file.
  - exact Hm.
  - exists s. split; [exact Eo|]. split; [|split; [exact Hst|exact Ep]].
    destruct (meta_inv_of_store _ _ _ _ _ Hst) as (m1 & Em1 & Hm1). congruence.
Qed.

(** ** What a pool answers *)

(** Every query answers as the file system [s]. *)
Record answers w p (s : fs) : Prop := {
  an_read : forall (id : Z) c offset len, fs_data s !! id = Some c -> 0 <= offset -> 0 <= len ->
    read p id offset len w = Ok (content_slice c offset len);
  an_none : forall id : Z, fs_data s !! id = None ->
    get_inode p id = Ok None /\ forall offset len, read p id offset len w = Err InodeNotFound;
  an_inode : forall (id : Z) c, fs_data s !! id = Some c ->
    exists r, get_inode p id = Ok (Some r) /\ ir_inode r = id /\ fs_modes s !! id = Some (ir_mode r) /\ ir_size r = Zlen c;
  an_lookup : forall (parent : Z) name, u64 parent -> lookup p parent name = Ok (fs_names s !! (parent, name));
}.

Lemma inv_answers w p m fc : pool_inv w p m fc -> answers w p (fs_of m fc).
Proof.
  intros Hi. destruct (represents_reads w p (fs_of m fc)) as (H1 & H2 & H3); [now exists m, fc|].
  assert (Hget : forall id : Z, get_inode p id = Ok (m_inodes m !! id)).
  { intros id. unfold get_inode. pose proof (pi_meta _ _ _ _ Hi) as Hm.
    destruct (get_and_lookup _ _ _ id 0 [] (mi_refines _ _ Hm) (mi_wf _ _ Hm) ltac:(split; [lia|reflexivity])) as [E _].
    exact (f_equal (map_err Meta) E). }
  split; auto; intros id; pose proof (pi_data _ _ _ _ Hi id) as Hd; cbn [fs_of fs_data fs_modes]; rewrite Hget.
  - intros Hn. rewrite Hn in Hd. inversion Hd as [|Hx]. split; [reflexivity|]. now apply H3.
  - intros c Hc. rewrite Hc in Hd. inversion Hd as [r ? [Hsz _] Hx|]; subst. exists r.
    rewrite lookup_fmap, <- Hx. split; [reflexivity|]. split; [|now split]. symmetry in Hx. exact (pool_inv_ids _ _ _ _ Hi _ _ Hx).
Qed.

(** Two pools over the same files with the same metadata. *)
Definition same_view p p' : Prop := paths_of p = paths_of p' /\ p_meta p = p_meta p'.

Lemma view_replicated p p' rs hdr n w :
  paths_of p = paths_of p' -> read_replicated p rs hdr n w = read_replicated p' rs hdr n w.
Proof.
  intros Hv. unfold read_replicated. destruct (head rs) as [[id off]|]; [|reflexivity]. cbn [ok_or result_bind].
  assert (E : paths_of p !! id = paths_of p' !! id) by now rewrite Hv. unfold paths_of in E. rewrite !lookup_fmap in E.
  destruct (disks p !! id) as [h|], (disks p' !! id) as [h'|]; try discriminate; [|reflexivity]. injection E as E.
  cbn [ok_or result_bind]. f_equal. cbn [read_at Arc_Disk FileDisk_Disk]. unfold FileDisk_read_at. now rewrite E.
Qed.

Lemma view_content p p' r w : paths_of p = paths_of p' -> read_full_content p r w = read_full_content p' r w.
Proof.
  intros Hv. unfold read_full_content. destruct (ir_data r) as [cs|xs].
  - induction cs as [|c cs IH]; [reflexivity|]. cbn [read_chunks]. rewrite (view_replicated p p') by exact Hv.
    destruct (read_replicated _ _ _ _ _); [|reflexivity..]. cbn [result_bind]. now rewrite IH.
  - generalize (replicate (Z.to_nat (ir_size r)) x00) as out. induction xs as [|x xs IH]; intros out; [reflexivity|].
    cbn [read_extents]. rewrite (view_replicated p p') by exact Hv.
    destruct (read_replicated _ _ _ _ _); [|reflexivity..]. cbn [result_bind]. case_if; [apply IH|reflexivity].
Qed.

Lemma view_answers w p p' s : same_view p p' -> answers w p s -> answers w p' s.
Proof.
  intros [Hv Hm]. assert (Hread : forall (id : Z) offset len, read p' id offset len w = read p id offset len w).
  { intros. unfold read, find_inode, get_inode. rewrite Hm. destruct (map_err Meta _) as [o| |]; [|reflexivity..].
    cbn [result_bind]. destruct (ok_or o InodeNotFound) as [r| |]; [|reflexivity..]. cbn [result_bind]. now rewrite (view_content p p'). }
  intros [H1 H2 H3 H4]. unfold get_inode, lookup in *. rewrite Hm in *. split; auto.
  - intros. rewrite Hread. auto.
  - intros id Hn. destruct (H2 id Hn) as [? Hr]. split; [assumption|]. intros. rewrite Hread. apply Hr.
Qed.

Lemma paths_of_reopened classes paths w (s : MetaStore (Arc FileDisk) DB) :
  paths_of (reopened_over classes paths w s) = number 0 paths ∅.
Proof.
  unfold paths_of. cbn [reopened_over pool_over disks]. apply map_eq. intros id. rewrite lookup_fmap, !number_lookup.
  unfold Zlen. rewrite !length_fmap. case_decide; [|reflexivity]. rewrite !list_lookup_fmap. now destruct (paths !! _).
Qed.

(** A pool opened over the disks of [p] with the store [s] answers as [p] would
    with that store. *)
Lemma reopened_answers paths classes w p s m fc :
  on_paths paths w p -> pool_inv w (set_meta s p) m fc -> answers w (reopened_over classes paths w s) (fs_of m fc).
Proof.
  intros Hs Hi. apply (view_answers w (set_meta s p)); [|now apply inv_answers]. split; [|reflexivity].
  rewrite paths_of_reopened. exact (on_number _ _ _ Hs).
Qed.
End Opening.
