(* ===== verification/PoolLogged.v ===== *)
(** * Pools whose log is complete

    A pool is [logged] if its disks lie at the paths it was given and the log
    on the primary holds exactly the operations behind its metadata, with
    nothing but zeros after them, and the log is on stable storage.  Every operation that does not fail in the
    log keeps this, conversions and writes included; and a logged pool can be
    opened again and answers every query as before. *)

From Stdlib Require Import ZArith Lia.
From stdpp Require Import relations.
From S2P Require Import Prelude Proto KWritePath KPlacement Crc32c Disk Framing Segment Wal Codec.
From S2P Require Import Replicator Redb Store StoreSpec StoreRefine StoreRecovery StoreTorn StoreReads CorePlacement.
From S2P Require Import Pool PoolSpec PoolRefine PoolFormat PoolLife PoolOpen.

#[local] Arguments contents : simpl never.
#[local] Arguments Store.open : simpl never.
#[local] Arguments number : simpl never.
#[local] Opaque WAL_CAPACITY_BYTES.

Section Logged.
Context {DB : Type} `{!Redb DB} `{!RedbLaws DB} `{!RedbReliable DB} `{HI : !HashIter}.
Implicit Types (w : os_world) (p : Pool DB).

Lemma store_inv_kept w w' (s : MetaStore (Arc FileDisk) DB) ps ops :
  kept (mr_primary_disk (ms_replicator s)) w w' 0 WAL_CAPACITY_BYTES ->
  store_inv w s ps ops false -> store_inv w' s ps ops false.
Proof.
  intros Hk [H1 H2 H3 H4 H5 [H6 H7] H8 H9]. split; auto. split.
  - eapply kept_has; eauto; lia.
  - intros _ i Hi. destruct Hk as [_ Hk]. rewrite Hk by (pose proof (Zlen_nonneg (wal_bytes ps)); lia). now apply H7.
Qed.

Lemma capacity_above_log : WAL_CAPACITY_BYTES <= DISK_FILE_CAPACITY_BYTES.
Proof. pose proof base_above_log. assert (0 <= SEGMENT_SIZE_BYTES) by discriminate. unfold DISK_FILE_CAPACITY_BYTES. lia. Qed.

Record logged_pool (paths : list path) w p : Prop := {
  lo_on : on_paths paths w p;
  lo_store : exists ps ops, store_inv w (p_meta p) ps ops false;
  lo_primary : head paths = Some (fd_path (deref (mr_primary_disk (ms_replicator (p_meta p)))));
  lo_settled : settled (mr_primary_disk (ms_replicator (p_meta p))) w 0 WAL_CAPACITY_BYTES;
}.

(** No file has become shorter. *)
Definition grown w w' : Prop := forall (d : Arc FileDisk) n, WAL_CAPACITY_BYTES <= n -> lasting d w w' n n.

Lemma on_paths_grown paths w w' p p' : grown w w' -> paths_of p' = paths_of p -> on_paths paths w p -> on_paths paths w' p'.
Proof.
  intros Hg Hp [H1 H2]. split; [|congruence]. intros id h' E'.
  assert (E : paths_of p !! id = Some (fd_path (deref (dh_disk h')))) by (rewrite <- Hp; unfold paths_of; now rewrite lookup_fmap, E').
  unfold paths_of in E. rewrite lookup_fmap in E. destruct (disks p !! id) as [h|] eqn:Eh; [|discriminate]. injection E as E.
  pose proof (settled_same _ (dh_disk h') _ _ _ (proj2 (same_file _ _) E) (H1 _ _ Eh)) as Hl.
  apply (Hg (dh_disk h') DISK_FILE_CAPACITY_BYTES); auto with lia. exact capacity_above_log.
Qed.

Lemma logged_kept paths w w' p p' :
  grown w w' -> paths_of p' = paths_of p -> (exists ps ops, store_inv w' (p_meta p') ps ops false) ->
  mr_primary_disk (ms_replicator (p_meta p')) = mr_primary_disk (ms_replicator (p_meta p)) ->
  settled (mr_primary_disk (ms_replicator (p_meta p))) w' 0 WAL_CAPACITY_BYTES ->
  logged_pool paths w p -> logged_pool paths w' p'.
Proof. intros Hg Hp Hs Ep Hset [H1 H2 H3 _]. split; [now apply (on_paths_grown _ w _ p)|exact Hs|congruence|now rewrite Ep]. Qed.

(** ** What keeps it *)

Lemma logged_data_phase paths w p w' p' : data_phase w p w' p' -> logged_pool paths w p -> logged_pool paths w' p'.
Proof.
  intros [_ _ _ Em Hlow Hp] Hl. pose proof base_above_log as Hbase.
  apply (logged_kept paths w w' p); auto; [intros d n _; apply Hlow| |now rewrite Em|].
  2: { apply (proj1 (proj2 (Hlow _))); [lia|exact Hbase|exact (lo_settled _ _ _ Hl)]. }
  destruct (lo_store _ _ _ Hl) as (ps & ops & Hst). exists ps, ops. rewrite Em. eapply store_inv_kept; [|exact Hst].
  destruct (Hlow (mr_primary_disk (ms_replicator (p_meta p)))) as ([Hlen Hk] & _). split; [exact Hlen|].
  intros i Hi. apply Hk. lia.
Qed.

Lemma meta_apply_grown w p m op w' p' out :
  meta_inv (p_meta p) m -> wf_op op -> wal_room (p_meta p) (Zlen (frame (encode_op op))) ->
  meta_apply op (w, p) = ((w', p'), out) -> grown w w'.
Proof.
  intros Hm Hop Hroom E d n Hn. unfold meta_apply in E. cbn [fst snd] in E.
  destruct (apply op (w, p_meta p)) as [[w1 s1] r1] eqn:Ea. injection E as <- _ _.
  destruct (apply_meta _ _ _ _ _ _ _ Hm Hop Hroom Ea) as (Hk & _).
  intros x y Hx Hy. apply (proj2 (Hk d y)); lia.
Qed.

(** An operation that the primary takes settles its log. *)
Lemma apply_settles w (s : MetaStore (Arc FileDisk) DB) ps ops torn op w' s' :
  store_inv w s ps ops torn -> wal_room s (Zlen (frame (encode_op op))) -> apply op (w, s) = ((w', s'), Ok tt) ->
  WAL_CAPACITY_BYTES <= f_len (contents (mr_primary_disk (ms_replicator s)) w) ->
  settled (mr_primary_disk (ms_replicator s)) w' 0 WAL_CAPACITY_BYTES.
Proof.
  intros [Hb Hc _ _ _ _ Hd _] Hroom E Hlen. unfold wal_room in Hroom.
  assert (WAL_CAPACITY_BYTES < 2 ^ 64) by reflexivity. pose proof (Zlen_nonneg (wal_bytes ps)) as Hn. rewrite <- Hc in Hn.
  assert (H64 : ms_wal_cursor s + Zlen (frame (encode_op op)) < 2 ^ 64) by lia. destruct (apply_stages _ _ _ _ _ _ Hb Hn H64 E) as (rc & Ec & Hrc).
  apply (commit_settles _ _ _ _ _ _ _ _ Ec).
  - intros e ->. destruct Hrc as [_ ?]. discriminate.
  - intros b Hbd. exact (proj1 (Hd b Hbd)).
  - pose proof (proj1 (commit_kept _ _ _ _ _ _ (mr_primary_disk (ms_replicator s)) (ms_wal_cursor s) (ms_wal_cursor s) Ec ltac:(lia))). lia.
Qed.

(** A metadata operation that succeeds. *)
Lemma logged_meta_apply paths op w p w' p' :
  logged_pool paths w p -> wf_op op -> wal_room (p_meta p) (Zlen (frame (encode_op op))) ->
  meta_apply op (w, p) = ((w', p'), Ok tt) ->
  logged_pool paths w' p' /\ ms_wal_cursor (p_meta p') = ms_wal_cursor (p_meta p) + Zlen (frame (encode_op op)).
Proof.
  intros Hs Hop Hroom E.
  destruct (lo_store _ _ _ Hs) as (ps & ops & Hst). destruct (meta_inv_of_store _ _ _ _ _ Hst) as (m & _ & Hm).
  pose proof (meta_apply_grown _ _ _ _ _ _ _ Hm Hop Hroom E) as Hg. unfold meta_apply in E. cbn [fst snd] in E.
  destruct (apply op (w, p_meta p)) as [[w1 s1] r1] eqn:Ea. injection E as <- <- Er.
  destruct r1 as [[]|e|]; try discriminate.
  assert (Hroom2 : Zlen (wal_bytes ps) + Zlen (frame (encode_op op)) <= WAL_CAPACITY_BYTES)
    by (rewrite <- (si_cursor _ _ _ _ _ Hst); exact Hroom).
  destruct (apply_spec _ _ _ _ _ _ _ _ _ Hst Hop Hroom2 Ea) as [Ep Hst'].
  split; [|cbn [set_meta p_meta]; rewrite (si_cursor _ _ _ _ _ Hst), (si_cursor _ _ _ _ _ Hst'), wal_bytes_snoc; apply Zlen_app].
  pose proof (apply_settles _ _ _ _ _ _ _ _ Hst Hroom Ea (proj1 (lo_settled _ _ _ Hs))) as Hset.
  apply (logged_kept paths w w1 p); auto; cbn [set_meta p_meta]; eauto.
Qed.

(** The operation succeeds, or fails before it reaches the log. *)
Definition no_meta_error {A} (out : result PoolError A) : Prop :=
  match out with Ok _ => True | Err (Meta _) => False | Err _ => True | Panic => False end.

Lemma meta_apply_no_error op wp wp' (out : result PoolError unit) :
  meta_apply op wp = (wp', out) -> no_meta_error out -> out = Ok tt.
Proof. unfold meta_apply. destruct (apply _ _) as [[w1 s1] [[]|e|]]; intros [= <- <-]; simpl; tauto. Qed.

Lemma logged_course paths w p m fc P Q R w' p' out :
  course w p m fc P Q R w' p' out -> no_meta_error out -> logged_pool paths w p -> logged_pool paths w' p'.
Proof.
  intros (w1 & p1 & Hp & _ & [(e & _ & -> & -> & _)|(X & fc' & (Hop & Hroom & _) & _ & E)]) Hout Hl;
    pose proof (logged_data_phase _ _ _ _ _ Hp Hl) as Hl1; [exact Hl1|].
  rewrite (meta_apply_no_error _ _ _ _ E Hout) in E. exact (proj1 (logged_meta_apply _ _ _ _ _ _ Hl1 Hop Hroom E)).
Qed.

(** Creating a record under a number that has just been handed out is the same
    as creating it under the next one. *)
Lemma apply_locally_next (s s' : MetaStore (Arc FileDisk) DB) r k :
  Z.max k (as_u64 (ir_inode r + 1)) = Z.max (ms_next_inode s) (as_u64 (ir_inode r + 1)) ->
  apply_locally (CreateInode r) (set_next_inode k s) = (s', Ok tt) -> apply_locally (CreateInode r) s = (s', Ok tt).
Proof.
  intros Hk. unfold apply_locally, apply_in_txn, io_bind, io_get, io_lift. cbn [ms_db set_next_inode ms_next_inode].
  destruct (begin_write (ms_db s)) as [t|e|]; cbn [map_err]; [|discriminate..].
  destruct (w_open_table t INODES) as [[]|e|]; cbn [map_err]; [|discriminate..].
  destruct (w_open_table t DIR_ENTRIES) as [[]|e|]; cbn [map_err]; [|discriminate..].
  destruct (inodes_insert t _ _) as [t'|e|]; cbn [map_err]; [|discriminate..].
  destruct (txn_commit t' _) as [db rc]. unfold set_next_inode, set_db.
  cbn [ms_replicator ms_wal_base_offset ms_wal_cursor ms_db ms_next_inode]. now rewrite Hk.
Qed.

Lemma apply_create_next (s s' : MetaStore (Arc FileDisk) DB) r w w' :
  ir_inode r = ms_next_inode s -> 0 <= ms_next_inode s < 2 ^ 64 - 1 ->
  apply (CreateInode r) (w, (Store.alloc_inode s).1) = ((w', s'), Ok tt) -> apply (CreateInode r) (w, s) = ((w', s'), Ok tt).
Proof.
  intros Hr Hn. unfold apply, io_bind, io_self, io_set_self, io_on_self. cbn [fst snd Store.alloc_inode].
  set (k := as_u64 (ms_next_inode s + 1)). assert (Hk : k = ms_next_inode s + 1) by (apply wrap_small; split; lia).
  cbn [set_next_inode ms_replicator ms_wal_base_offset ms_wal_cursor].
  destruct (commit _ _ _ w) as [w1 [[]|[e|e]|]]; cbn [fst snd]; try discriminate.
  - cbn [ms_wal_cursor set_next_inode]. set (s1 := set_wal_cursor _ s).
    change (set_wal_cursor _ (set_next_inode k s)) with (set_next_inode k s1).
    destruct (apply_locally _ (set_next_inode k s1)) as [s2 r2] eqn:El. intros [= <- <- ->].
    rewrite (apply_locally_next s1 s2 r k); [reflexivity| |exact El]. rewrite Hr. fold k. cbn [s1 set_wal_cursor ms_next_inode]. lia.
  - cbn [ms_wal_cursor set_next_inode ms_replicator set_replicator]. set (s1 := set_wal_cursor _ (set_replicator _ s)).
    change (set_wal_cursor _ (set_replicator _ (set_next_inode k s))) with (set_next_inode k s1).
    destruct (apply_locally _ (set_next_inode k s1)) as [s2 r2] eqn:El. intros [= <- <- ->].
    rewrite (apply_locally_next s1 s2 r k); [reflexivity| |exact El]. rewrite Hr. fold k.
    cbn [s1 set_wal_cursor set_replicator ms_next_inode]. lia.
Qed.

(** Creating a record under the number that [alloc_inode] has handed out. *)
Lemma create_first w p m fc r w' p' :
  pool_inv w p m fc -> ir_inode r = m_next m -> m_next m < 2 ^ 64 - 1 ->
  meta_apply (CreateInode r) (w, (alloc_inode p).1) = ((w', p'), Ok tt) ->
  meta_apply (CreateInode r) (w, p) = ((w', p'), Ok tt).
Proof.
  intros Hi Hr Hlt E2. pose proof (pi_meta _ _ _ _ Hi) as [[_ Hn] _ _ Hw]. destruct (wf_next _ _ Hw) as [H0 _].
  unfold meta_apply, alloc_inode in *. cbn [fst snd set_meta p_meta Store.alloc_inode] in *.
  destruct (apply _ (w, set_next_inode _ _)) as [[w3 s3] r3] eqn:Ea. injection E2 as <- <- Er.
  destruct r3 as [[]|e|]; [|discriminate..].
  rewrite (apply_create_next (p_meta p) s3 r w w3 (eq_trans Hr (eq_sym Hn)) ltac:(rewrite Hn; lia) Ea). reflexivity.
Qed.

(** A creation that succeeds is two operations on the pool as it was. *)
Lemma create_applies (parent : Z) name sch uid gid mode clock w p m fc w' p' id :
  let r := new_file (m_next m) sch uid gid mode clock in
  pool_inv w p m fc -> m_next m < 2 ^ 64 - 1 -> 0 <= clock ->
  create_file parent name sch uid gid mode clock (w, p) = ((w', p'), Ok id) ->
  exists w1 p1, meta_apply (CreateInode r) (w, p) = ((w1, p1), Ok tt) /\
    meta_apply (Link parent name (m_next m)) (w1, p1) = ((w', p'), Ok tt).
Proof.
  intros r Hi Hlt Hclk E. destruct (create_file_steps _ _ _ _ _ _ _ _ _ _ _ _ _ _ Hi Hlt Hclk E) as (w2 & p2 & r2 & E2 & Hr2).
  destruct r2 as [[]|e|]; [|destruct Hr2; discriminate..]. destruct Hr2 as (r3 & E3 & Er3).
  destruct r3 as [[]|e|]; [|discriminate..]. exists w2, p2. split; [|exact E3]. now apply (create_first w p m fc).
Qed.

Lemma logged_create paths (parent : Z) name sch uid gid mode clock w p m fc w' p' id :
  op_fits (OpCreate parent name sch uid gid mode clock) p -> pool_inv w p m fc -> logged_pool paths w p ->
  create_file parent name sch uid gid mode clock (w, p) = ((w', p'), Ok id) -> logged_pool paths w' p'.
Proof.
  cbn [op_fits]. cbv zeta. intros Hfit Hi Hs E. rewrite (proj2 (mi_refines _ _ (pi_meta _ _ _ _ Hi))) in Hfit.
  destruct Hfit as (H1 & H2 & H3 & H4 & _ & H6).
  destruct (create_applies _ _ _ _ _ _ _ _ _ _ _ _ _ _ Hi H1 H2 E) as (w1 & p1 & Ec & El).
  pose proof (Zlen_nonneg (frame (encode_op (Link parent name (m_next m))))) as Hl.
  destruct (logged_meta_apply _ _ _ _ _ _ Hs H3 ltac:(unfold wal_room in *; lia) Ec) as [Hs1 Hcu].
  refine (proj1 (logged_meta_apply _ _ _ _ _ _ Hs1 H4 _ El)). unfold wal_room in *. lia.
Qed.

(** The operation left nothing in the log but what took effect: it succeeds, or
    it fails before it reaches the log. *)
Definition log_clean (op : pool_op) (out : result PoolError unit) : Prop :=
  if is_create op then out = Ok tt else no_meta_error out.

Lemma logged_op paths op w p m fc w' p' out :
  log_clean op out -> op_fits op p -> pool_inv w p m fc -> logged_pool paths w p -> run_op op (w, p) = ((w', p'), out) ->
  logged_pool paths w' p'.
Proof.
  unfold log_clean. intros Hno Hfit Hi Hs E. destruct (is_create op) eqn:Hc.
  - destruct op; try discriminate. subst out. cbn [run_op] in E. unfold io_void, io_bind, io_ret in E.
    destruct (create_file _ _ _ _ _ _ _ (w, p)) as [[w1 p1] r1] eqn:Ec.
    destruct r1 as [id|e|]; [|discriminate..]. injection E as <- <-. eapply logged_create; eauto.
  - eapply logged_course; eauto. exact (op_course _ _ _ _ _ _ _ _ Hc Hi Hfit E).
Qed.

(** Devices that start or stop failing. *)
Definition with_faults faults w : os_world := {| w_files := w_files w; w_durable := w_durable w; w_fault := faults |}.

Lemma faults_inv w p m fc faults : pool_inv w p m fc -> pool_inv (with_faults faults w) p m fc.
Proof.
  intros Hi. eapply inv_keep; eauto; [now apply grows_same; [..|intros d b x y]|exact (pi_disks _ _ _ _ Hi)|exact (pi_meta _ _ _ _ Hi)|lia].
Qed.

Lemma faults_logged paths w p faults : logged_pool paths w p -> logged_pool paths (with_faults faults w) p.
Proof.
  intros Hl. apply (logged_kept paths w _ p); auto; [now intros d n _ x y Hx Hy| |exact (lo_settled _ _ _ Hl)].
  destruct (lo_store _ _ _ Hl) as (ps & ops & Hst). exists ps, ops. eapply store_inv_kept; [|exact Hst]. now apply kept_eq.
Qed.

(** What has not been synced is written back or lost. *)
Lemma on_paths_crashed paths w w' p : crashed w w' -> on_paths paths w p -> on_paths paths w' p.
Proof. intros Hc [H1 H2]. split; [|exact H2]. intros id h E. exact (proj1 (crashed_settled _ _ _ _ _ Hc (H1 id h E))). Qed.

Lemma crashed_logged paths w w' p : crashed w w' -> logged_pool paths w p -> logged_pool paths w' p.
Proof.
  intros Hc [H1 (ps & ops & Hst) H3 H4]. destruct (crashed_settled _ _ _ _ _ Hc H4) as [H4' Hk].
  split; auto; [now apply (on_paths_crashed _ w)|].
  exists ps, ops. destruct Hst as [G1 G2 G3 G4 G5 [G6 G7] G8 G9]. split; auto. split.
  - eapply crashed_has; eauto; lia.
  - intros _ i Hi. rewrite Hk by (pose proof (Zlen_nonneg (wal_bytes ps)); lia). now apply G7.
Qed.

(** ** Opening it *)

Lemma set_meta_inv w p m fc s : pool_inv w p m fc -> meta_inv s m -> pool_inv w (set_meta s p) m fc.
Proof.
  intros Hi Hm. apply (inv_keep w p m); auto; [now apply grows_stay|now apply (disks_ok_same p), (pi_disks _ _ _ _ Hi)|lia].
Qed.

Lemma logged_open paths classes w p m fc :
  logged_pool paths w p -> pool_inv w p m fc -> length classes = length paths ->
  exists s ps ops, open_with_classes paths classes w = (w, Ok (reopened_over classes paths w s)) /\
    meta_inv s m /\ store_inv w s ps ops false /\
    head paths = Some (fd_path (deref (mr_primary_disk (ms_replicator s)))).
Proof.
  intros Hs Hi Hcl. pose proof (on_paths_NoDup _ _ _ (pi_disks _ _ _ _ Hi) (lo_on _ _ _ Hs)) as Hnd.
  destruct paths as [|q0 qs]; [now pose proof (lo_primary _ _ _ Hs)|]. pose proof (lo_primary _ _ _ Hs) as [= Hp0].
  assert (Hsame : same_disk (mr_primary_disk (ms_replicator (p_meta p))) (opened w q0)) by (apply same_file; now rewrite <- Hp0).
  destruct (lo_store _ _ _ Hs) as (ps & ops & Hst). pose proof Hst as [_ _ Hfit Hlg Hwf [Hlog Hz] _ (m0 & Hm0 & Hr0)].
  rewrite (contents_same _ _ w Hsame) in Hlog, Hz.
  pose proof (wal_scan_exact (opened w q0) 0 w ps wf_base_0 (Arc_FileDisk_readable _ w) (small_payloads _ Hfit) Hfit Hlog
    (fun i Hx => Hz eq_refl i ltac:(lia))) as Escan.
  destruct (store_opens (DB := DB) (opened w q0) (fst <$> head (start_of w <$> qs)) (length (q0 :: qs)) w _ ops m0 false Escan Hlg Hwf
    (conj Hlog Hz) (fun b => backup_elsewhere q0 qs w b Hnd) Hm0) as (s & Eo & Hms & Hst' & Ep).
  destruct (store_inv_wf _ _ _ _ _ _ Hst Hm0) as [Hw0 _].
  assert (m0 = m) as ->.
  { pose proof (pi_meta _ _ _ _ Hi) as [Hrm _ _ Hwm]. exact (refines_fun _ _ _ _ _ Hr0 Hrm Hw0 Hwm). }
  exists s, ps, ops. split; [exact (open_runs _ _ _ _ _ _ (lo_on _ _ _ Hs) Hcl Eo)|]. rewrite Ep. auto.
Qed.

(** A logged pool, opened again, answers as before, whatever it holds. *)
Lemma logged_answers paths classes w p m fc :
  logged_pool paths w p -> pool_inv w p m fc -> length classes = length paths ->
  exists p', open_with_classes paths classes w = (w, Ok p') /\ answers w p' (fs_of m fc).
Proof.
  intros Hs Hi Hcl. destruct (logged_open _ _ _ _ _ _ Hs Hi Hcl) as (s & ps & ops & E & Hm & _). eexists. split; [exact E|].
  apply (reopened_answers _ _ _ p); [exact (lo_on _ _ _ Hs)|now apply set_meta_inv].
Qed.
End Logged.
