(* ===== verification/PoolSound.v ===== *)
(** * Pools that a restart can rebuild

    The pool's open rebuilds the metadata by replaying the log and the cursors
    by scanning the data regions.  [PoolLogged] is about the log; a pool is
    [sound] if moreover every disk's data region holds the records of some
    appends up to its cursor, and every chunk is inside a run of such records
    that is on stable storage.  Operations that write no extent keep this, even
    those that fail on a data disk.  [PoolReopen] shows what it is good for. *)

From Stdlib Require Import ZArith Lia.
From stdpp Require Import relations.
From S2P Require Import Prelude Proto KWritePath KPlacement Crc32c Disk Framing Segment Wal Codec.
From S2P Require Import Replicator Redb Store StoreSpec StoreRefine StoreRecovery StoreTorn StoreReads CorePlacement.
From S2P Require Import Pool PoolSpec PoolRefine PoolFormat PoolLife PoolOpen PoolLogged.

#[local] Arguments contents : simpl never.
#[local] Arguments write_at : simpl never.
#[local] Arguments sync : simpl never.
#[local] Arguments Store.open : simpl never.
#[local] Arguments number : simpl never.
#[local] Opaque WAL_CAPACITY_BYTES.

(** ** Sound disks and logs *)

(** The data region of a handle's disk holds the records of some appends up
    to its cursor; behind it there may be what failed writes have left. *)
Definition seg_state_of (w : os_world) (h : DiskHandle) (rs : list SegRecord) : seg_state :=
  {| ss_world := w; ss_writer := SegmentWriter_resume (dh_disk h) SEGMENT_BASE_OFFSET (dh_cursor h);
     ss_acked := rs; ss_torn := true |}.
Definition seg_sound (w : os_world) (h : DiskHandle) : Prop :=
  exists rs, seg_inv (dh_disk h) SEGMENT_BASE_OFFSET (seg_state_of w h rs).

Lemma seg_sound_cursor w h : seg_sound w h -> 0 <= dh_cursor h <= SEGMENT_SIZE_BYTES.
Proof.
  intros [rs Hi]. pose proof (inv_cursor _ _ _ Hi) as Hc. pose proof (inv_fits _ _ _ Hi) as Hf.
  cbn [seg_state_of ss_writer ss_acked sw_cursor SegmentWriter_resume] in *. rewrite Hc. split; [apply Zlen_nonneg|exact Hf].
Qed.

Lemma seg_sound_fresh w (d : Arc FileDisk) :
  fresh d SEGMENT_BASE_OFFSET w -> seg_sound w {| dh_disk := d; dh_cursor := 0 |}.
Proof. intros Hf. exists []. destruct (seg_inv_init d _ w Hf). split; auto; discriminate. Qed.

(** Whatever is written from the cursor on. *)
Lemma seg_sound_kept w w' h :
  kept (dh_disk h) w w' SEGMENT_BASE_OFFSET (SEGMENT_BASE_OFFSET + dh_cursor h) -> seg_sound w h -> seg_sound w' h.
Proof.
  intros Hk [rs [H1 H2 H3 H4 H5 H6 H7]]. exists rs.
  cbn [seg_state_of ss_world ss_writer ss_acked ss_torn sw_cursor SegmentWriter_resume] in *.
  split; cbn [seg_state_of ss_world ss_writer ss_acked ss_torn sw_cursor SegmentWriter_resume]; auto; [|discriminate].
  eapply kept_has; [exact Hk| | |exact H6]; lia.
Qed.

Section Sound.
Context {DB : Type} `{!Redb DB} `{!RedbLaws DB} `{!RedbReliable DB} `{HI : !HashIter}.
Implicit Types (w : os_world) (p : Pool DB).

Definition segs_sound w p : Prop := map_Forall (fun _ h => seg_sound w h) (disks p).

(** The end [e] past the place [x] is inside a run of records that starts at
    the data region's base and is on stable storage. *)
Definition run_on w (h : DiskHandle) (rs : list SegRecord) : Prop :=
  Zlen (enc_log seg_format rs) <= dh_cursor h /\ Zlen (enc_log seg_format rs) <= SEGMENT_SIZE_BYTES /\ Forall wf_record rs /\
  file_has (contents (dh_disk h) w) SEGMENT_BASE_OFFSET (enc_log seg_format rs) /\
  settled (dh_disk h) w SEGMENT_BASE_OFFSET (SEGMENT_BASE_OFFSET + Zlen (enc_log seg_format rs)).
Definition anchored_at w p (ex : Z * (Z * Z)) : Prop :=
  exists h rs, disks p !! ex.2.1 = Some h /\ ex.2.2 + ex.1 <= Zlen (enc_log seg_format rs) /\ run_on w h rs.

(** All data are. *)
Definition anchored w p m : Prop := map_Forall (fun _ r => Forall (anchored_at w p) (data_places (ir_data r))) (m_inodes m).

Record sound (paths : list path) w p m : Prop := {
  so_logged : logged_pool paths w p; so_segments : segs_sound w p; so_anchored : anchored w p m }.

(** The disks keep what is below their cursors. *)
Lemma segs_kept w w' p p' :
  disks p' = disks p ->
  (forall i h, disks p !! i = Some h -> kept (dh_disk h) w w' SEGMENT_BASE_OFFSET (SEGMENT_BASE_OFFSET + dh_cursor h)) ->
  segs_sound w p -> segs_sound w' p'.
Proof. intros Ed Hk Hs i h E. rewrite Ed in E. eapply seg_sound_kept; [exact (Hk _ _ E)|exact (Hs _ _ E)]. Qed.

(** ** Chunks stay where a scan finds them *)

Lemma anchored_at_grows w p w' p' ex : grows w p w' p' -> anchored_at w p ex -> anchored_at w' p' ex.
Proof.
  intros Hg (h & rs & E & He & Hc & Hcap & Hwf & Hf & Hs). destruct (Hg _ _ E) as (h' & E' & Hd & Hcu & Hk & Hl). exists h', rs.
  split; [exact E'|]. split; [exact He|]. split; [lia|]. split; [exact Hcap|]. split; [exact Hwf|]. rewrite <- (contents_same _ _ w' Hd).
  split; [apply Hk; auto; lia|]. apply (settled_same _ _ _ _ _ Hd). apply Hl; auto; lia.
Qed.

Lemma anchored_grows w p w' p' m : grows w p w' p' -> anchored w p m -> anchored w' p' m.
Proof.
  intros Hg Ha. eapply map_Forall_impl; [exact Ha|]. intros id r Hr. eapply Forall_impl; [exact Hr|].
  intros ex. now apply anchored_at_grows.
Qed.

Lemma anchored_crashed w w' p m : crashed w w' -> anchored w p m -> anchored w' p m.
Proof.
  intros Hc Ha. eapply map_Forall_impl; [exact Ha|]. intros id r Hr. eapply Forall_impl; [exact Hr|].
  intros ex (h & rs & E & He & Hcu & Hcap & Hwf & Hf & Hs). exists h, rs. split; [exact E|]. split; [exact He|].
  split; [exact Hcu|]. split; [exact Hcap|]. split; [exact Hwf|]. split.
  - eapply crashed_has; eauto; lia.
  - exact (proj1 (crashed_settled _ _ _ _ _ Hc Hs)).
Qed.

(** What an operation of the log adds to an inode's places. *)
Definition new_places (X : MetaOp) : list (Z * (Z * Z)) :=
  match X with
  | CreateInode r => data_places (ir_data r)
  | AppendChunk _ c => chunk_places c
  | CompleteConvert _ xs | UpdateExtents _ xs => data_places (Extents xs)
  | _ => []
  end.

Lemma spec_apply_places (P : Z * (Z * Z) -> Prop) X m m' :
  spec_apply X m = Ok m' -> map_Forall (fun _ r => Forall P (data_places (ir_data r))) (m_inodes m) -> Forall P (new_places X) ->
  map_Forall (fun _ r => Forall P (data_places (ir_data r))) (m_inodes m').
Proof.
  intros E Hm Hn.
  assert (Hon : forall i f, on_inode m i f = Ok m' ->
    (forall r r', m_inodes m !! i = Some r -> f r = Ok r' -> Forall P (data_places (ir_data r'))) ->
    map_Forall (fun _ r => Forall P (data_places (ir_data r))) (m_inodes m')).
  { intros i f Eo Hf. apply on_inode_Ok in Eo as (r & r' & Er & Ef & ->). cbn [with_inode m_inodes].
    apply map_Forall_insert_2; [exact (Hf _ _ Er Ef)|exact Hm]. }
  destruct X as [r|pa nm ch|pa nm|i c|i|i xs|i xs|i s|pm|mg]; cbn [spec_apply new_places] in *;
    try (injection E as <-; cbn [m_inodes]; auto; now apply map_Forall_insert_2);
    apply (Hon _ _ E); intros r0 r' Er Ef; pose proof (Hm _ _ Er) as H0; cbn beta in H0.
  - destruct (ir_data r0) as [cs|] eqn:Ed; [|discriminate]. injection Ef as <-.
    cbn [ir_data set_size set_data data_places] in *. rewrite fmap_app, concat_app. apply Forall_app. split; [exact H0|].
    cbn [fmap list_fmap concat]. now rewrite app_nil_r.
  - destruct (ir_mode r0); try discriminate. injection Ef as <-. exact H0.
  - destruct (ir_mode r0); try discriminate. injection Ef as <-. exact Hn.
  - destruct (ir_mode r0); try discriminate. injection Ef as <-. exact Hn.
  - injection Ef as <-. exact H0.
Qed.

(** A chunk at or after the cursors of [p] on the disks of a pool whose segments
    are sound. *)
Lemma stored_anchored hdr bs w p w' p' x :
  0 < hdr -> stored hdr bs w' p' x -> at_or_after p x -> reached p w' p' -> segs_sound w' p' ->
  anchored_at w' p' (hdr + Zlen bs, x).
Proof.
  intros Hh (h' & E' & H0 & Hc & _) (h & E & Ha) Hr Hs. destruct (Hr _ _ E) as (h2 & E2 & _ & Ht).
  rewrite E' in E2. injection E2 as <-. pose proof (Zlen_nonneg bs). destruct Ht as [Ht|Ht]; [lia|].
  destruct (Hs _ _ E') as [rs [_ _ Hcu Hcap Hwf Hst _]].
  cbn [seg_state_of ss_world ss_writer ss_acked sw_cursor SegmentWriter_resume] in *. exists h', rs.
  split; [exact E'|]. cbn [fst snd]. split; [lia|]. unfold run_on. rewrite <- Hcu. split_and!; auto; lia.
Qed.

(** An operation that adds no places. *)
Lemma anchored_plain X w p m w' p' m' :
  new_places X = [] -> anchored w p m -> grows w p w' p' -> spec_apply X m = Ok m' -> anchored w' p' m'.
Proof.
  intros Hn Ha Hg E. apply (spec_apply_places _ X m); [exact E|exact (anchored_grows _ _ _ _ _ Hg Ha)|rewrite Hn; constructor].
Qed.

(** Neither conversions nor random writes. *)
Definition adds_chunks (X : MetaOp) : Prop := match X with AppendChunk _ _ => True | _ => new_places X = [] end.

Lemma may_log_adds op X : appends_only op = true -> may_log op X -> adds_chunks X.
Proof. destruct op, X; try discriminate; try contradiction; try (intros _ _; exact I); try reflexivity. now intros _ [id ->]. Qed.

(** The operation [X] of the log, after the data phase of an operation on [p]. *)
Lemma anchored_step w p m w' p' m' fc' X :
  pool_inv w' p' m' fc' -> spec_apply X m = Ok m' -> anchored w' p' m -> segs_sound w' p' -> reached p w' p' ->
  chunk_after p X -> adds_chunks X -> anchored w' p' m'.
Proof.
  intros Hi E Ha Hs Hr Hc Hn. apply (spec_apply_places _ X m); [exact E|exact Ha|].
  destruct X as [| | |i c| | | | | |]; cbn [adds_chunks] in Hn; try (rewrite Hn; constructor). cbn [new_places chunk_after] in *.
  apply on_inode_Ok in E as (r & r' & Er & Ef & ->). destruct (ir_data r) as [cs|] eqn:Ed; [|discriminate].
  pose proof (pi_data _ _ _ _ Hi (ir_inode r')) as Hd. cbn [with_inode m_inodes] in Hd. rewrite lookup_insert_eq in Hd.
  inversion Hd as [? c' [_ Hdd] Hy Hx|]; subst. injection Ef as <-. cbn [set_size set_data ir_mode ir_data] in Hdd.
  assert (exists bss, Forall2 (chunk_holds w' p') (cs ++ [c]) bss) as [bss Hb]
    by (destruct (ir_mode r); [destruct Hdd as (bss & _ & H); eauto..|contradiction]).
  apply Forall2_app_inv_l in Hb as (b1 & b2 & _ & Hb & _). apply Forall2_cons_inv_l in Hb as (bs & b3 & (Hlen & _ & _ & _ & Hst) & _ & ->).
  apply Forall_fmap, Forall_forall. intros x Hel. cbn [compose]. rewrite Hlen. rewrite Forall_forall in Hst, Hc.
  apply (stored_anchored _ _ w p); auto. reflexivity.
Qed.

(** A metadata operation, whatever its outcome. *)
Lemma segs_meta_apply w p m op w' p' out :
  segs_sound w p -> meta_inv (p_meta p) m -> wf_op op -> wal_room (p_meta p) (Zlen (frame (encode_op op))) ->
  meta_apply op (w, p) = ((w', p'), out) -> segs_sound w' p'.
Proof.
  intros Hs Hm Hop Hroom E. unfold meta_apply in E. cbn [fst snd] in E.
  destruct (apply op (w, p_meta p)) as [[w1 s1] r1] eqn:Ea. injection E as <- <- _.
  destruct (apply_meta _ _ _ _ _ _ _ Hm Hop Hroom Ea) as (Hk & _ & _).
  apply (segs_kept w w1 p); [reflexivity| |exact Hs]. intros i h _.
  destruct (Hk (dh_disk h) (SEGMENT_BASE_OFFSET + dh_cursor h)) as [[Hl Hb] _]. split; [exact Hl|].
  intros j Hj. apply Hb. pose proof base_above_log. lia.
Qed.

(** What is written at or behind the cursor of one disk. *)
Lemma cursor_write_kept w w' p id h bs i hi :
  disks_ok p -> disks p !! id = Some h -> disks p !! i = Some hi ->
  (forall d : Arc FileDisk, contents d w' = contents d w \/
     contents d w' = contents d (write_at (dh_disk h) (SEGMENT_BASE_OFFSET + dh_cursor h) bs w).1) ->
  kept (dh_disk hi) w w' SEGMENT_BASE_OFFSET (SEGMENT_BASE_OFFSET + dh_cursor hi).
Proof.
  intros Hok E Ei Hw. destruct (Hw (dh_disk hi)) as [Eq|Eq]; [now apply kept_eq|].
  eapply kept_trans; [|apply kept_eq, Eq]. destruct (decide (i = id)) as [->|Hne].
  - rewrite E in Ei. injection Ei as <-. apply kept_write. lia.
  - apply kept_eq, write_other. intros Hsm. apply Hne. symmetry. exact (do_distinct _ Hok _ _ _ _ E Ei Hsm).
Qed.

(** One replica of an append. *)
Lemma segs_append_replica record id w p w' p' r :
  disks_ok p -> segs_sound w p -> wf_record record ->
  append_replica record id (w, p) = ((w', p'), Ok r) -> segs_sound w' p'.
Proof.
  intros Hok Hs Hwf E. unfold append_replica, io_bind, io_self, io_lift, io_set_self, io_ret in E. cbn [fst snd] in E.
  destruct (disks p !! id) as [h|] eqn:Eh; [|discriminate]. cbn [ok_or] in E.
  destruct (Segment.append record _) as [[w1 wr1] r1] eqn:Ea.
  destruct (Hs _ _ Eh) as [rs Hseg].
  destruct r1 as [off|e|]; [|discriminate..]. pose proof Ea as Ec. apply append_cases in Ec. cbn [fst snd] in Ec.
  destruct Ec as [(_ & ? & _)|(_ & Ew & [(_ & _ & Ewr)|(e & ? & _)])]; try discriminate.
  destruct (seg_inv_append _ _ _ _ _ _ _ _ _ _ segment_base Hwf Hseg Ea) as [_ Hseg'].
  destruct (base_cursor _ _ _ Hok Eh) as [H0 Hb]. cbn [sw_base_offset sw_cursor sw_disk SegmentWriter_resume] in Ew, Ewr.
  rewrite Hb in Ew. unfold SegmentWriter_sync, io_bind, io_self, io_world in E. cbn [fst snd] in E. subst wr1.
  cbn [sw_disk] in E. pose proof (fun d : Arc FileDisk => sync_contents (dh_disk h) d w1) as Hsync.
  destruct (sync (dh_disk h) w1) as [w2 r2]. cbn [fst snd] in Hsync.
  destruct r2 as [[]|e|]; cbn in E; try discriminate. injection E as <- <- <-.
  cbn [set_handle disks]. apply map_Forall_lookup. intros i hi Ei. destruct (decide (i = id)) as [->|Hne].
  - cbn [set_handle disks] in Ei. rewrite lookup_insert_eq in Ei. injection Ei as <-. exists (rs ++ [record]).
    destruct Hseg' as [G1 G2 G3 G4 G5 G6 G7]. cbn [seg_state_of ss_world ss_writer ss_acked ss_torn] in *.
    split; cbn [seg_state_of ss_world ss_writer ss_acked ss_torn dh_disk dh_cursor sw_cursor SegmentWriter_resume sw_disk sw_base_offset];
      auto; rewrite Hsync; auto.
  - cbn [set_handle disks] in Ei. rewrite lookup_insert_ne in Ei by auto. eapply seg_sound_kept; [|exact (Hs _ _ Ei)].
    apply (cursor_write_kept w w2 p id h (encode record) i); auto. intros d. right. now rewrite Hsync, Ew.
Qed.

(** A replica that cannot be written: the pool does not change, and nothing
    below the disk's cursor does. *)
Lemma segs_append_replica_fails record id w p w' p' e :
  disks_ok p -> segs_sound w p -> append_replica record id (w, p) = ((w', p'), Err e) -> segs_sound w' p'.
Proof.
  intros Hok Hs E. unfold append_replica, io_bind, io_self, io_lift, io_set_self, io_ret in E. cbn [fst snd] in E.
  destruct (disks p !! id) as [h|] eqn:Eh; [cbn [ok_or] in E|now injection E as <- <- _].
  destruct (base_cursor _ _ _ Hok Eh) as [H0 Hb].
  destruct (Segment.append record _) as [[w1 wr1] r1] eqn:Ea.
  apply append_cases in Ea. cbn [fst snd sw_base_offset sw_cursor sw_disk SegmentWriter_resume] in Ea. rewrite Hb in Ea.
  assert (Hw : forall w2, (forall d : Arc FileDisk, contents d w2 = contents d w1) ->
    (w1 = w \/ w1 = (write_at (dh_disk h) (SEGMENT_BASE_OFFSET + dh_cursor h) (encode record) w).1) -> segs_sound w2 p).
  { intros w2 Hw2 Hw1. apply (segs_kept w w2 p p eq_refl); [|exact Hs]. intros i hi Ei.
    apply (cursor_write_kept w w2 p id h (encode record) i); auto. intros d. rewrite Hw2. destruct Hw1 as [->| ->]; auto. }
  destruct Ea as [(Ee & -> & _)|(_ & Ew & [(-> & _ & _)|(e' & -> & _ & _)])].
  - injection Ee as -> _. cbn in E. injection E as <- <- _. now apply Hw; [|left].
  - unfold SegmentWriter_sync, io_bind, io_self, io_world in E. cbn [fst snd] in E.
    pose proof (fun d : Arc FileDisk => sync_contents (sw_disk wr1) d w1) as Hsync.
    destruct (sync (sw_disk wr1) w1) as [w2 r2]. cbn [fst snd] in Hsync.
    destruct r2 as [[]|e2|]; cbn in E; try discriminate. injection E as <- <- _. apply Hw; auto.
  - cbn in E. injection E as <- <- _. apply Hw; auto.
Qed.

(** The write loop of an append. *)
Lemma segs_for_each (inode seq : Z) payload ids w p w' p' out :
  u64 inode -> u64 seq -> disks_ok p -> segs_sound w p ->
  for_each (append_replica (Record_new inode seq payload)) ids (w, p) = ((w', p'), out) -> out <> Panic -> segs_sound w' p'.
Proof.
  intros Hu Hq. revert w p out. induction ids as [|id ids IH]; intros w p out Hok Hs E Hout; [now injection E as <- <- <-|].
  cbn [for_each] in E. unfold io_bind, io_ret in E.
  destruct (append_replica _ id (w, p)) as [[w1 p1] r1] eqn:E1. destruct r1 as [r|e|].
  2: injection E as <- <- _; exact (segs_append_replica_fails _ _ _ _ _ _ _ Hok Hs E1).
  2: now injection E as _ _ <-.
  destruct (for_each _ ids (w1, p1)) as [[w2 p2] r2] eqn:E2.
  assert (Hr2 : r2 <> Panic) by (intros ->; now injection E as _ _ <-).
  assert (w2 = w' /\ p2 = p') as [-> ->] by (destruct r2; now injection E as <- <- _).
  assert (Hid : is_Some (disks p !! id)).
  { unfold append_replica, io_bind, io_self, io_lift in E1. cbn [fst snd] in E1.
    destruct (disks p !! id); [eauto|discriminate]. }
  destruct (append_replica_round _ _ _ _ _ _ _ _ _ Hok Hid E1) as [[Hph _] Hl]. specialize (Hl eq_refl).
  eapply IH; [exact (dp_disks _ _ _ _ Hph)| |exact E2|exact Hr2]. eapply segs_append_replica; [exact Hok|exact Hs| |exact E1].
  split_and!; auto. pose proof (Zlen_nonneg payload). split; assumption.
Qed.

(** The operation [X] of the log in a pool [p3] over the disks it has left: from
    the start of the operation that logs it. *)
Lemma anchored_logged w p m fc w1 p1 X fcX w' p' out p3 m3 fc3 :
  data_phase w p w1 p1 -> pool_inv w1 p1 m fc -> effect w1 p1 m fc X fcX -> meta_apply X (w1, p1) = ((w', p'), out) ->
  segs_sound w1 p1 -> anchored w p m -> chunk_after p X -> adds_chunks X ->
  disks p3 = disks p' -> spec_apply X m = Ok m3 -> pool_inv w' p3 m3 fc3 -> anchored w' p3 m3.
Proof.
  intros Hp Hi1 He E Hs Ha Hc Hn Ed EX Hi3. destruct (effect_outcome _ _ _ _ _ _ _ _ _ Hi1 He E) as (Ed1 & Hg & _).
  destruct He as (Hop & Hroom & _). pose proof (segs_meta_apply _ _ _ _ _ _ _ Hs (pi_meta _ _ _ _ Hi1) Hop Hroom E) as Hs'.
  assert (Hg3 : grows w1 p1 w' p3) by (unfold grows in *; now rewrite Ed).
  apply (anchored_step w p m w' p3 m3 fc3 X); auto.
  - apply (anchored_grows w1 p1); [exact Hg3|]. apply (anchored_grows w p); [exact (dp_grows _ _ _ _ Hp)|exact Ha].
  - unfold segs_sound. now rewrite Ed.
  - apply (reached_trans w1 p1); [exact (dp_reached _ _ _ _ Hp)|apply reached_same; congruence|exact Hg3].
Qed.

Lemma segs_course w p m fc Q R w' p' out :
  pool_inv w p m fc -> course w p m fc segs_sound Q R w' p' out -> segs_sound w' p'.
Proof.
  intros Hi (w1 & p1 & Hp & Hs & [(e & _ & -> & -> & _)|(X & fc' & (Hop & Hroom & _) & _ & E)]); [exact Hs|].
  eapply segs_meta_apply; [exact Hs| |exact Hop|exact Hroom|exact E].
  exact (pi_meta _ _ _ _ (data_phase_inv _ _ _ _ _ _ Hi Hp)).
Qed.

(** Such an operation, whatever its outcome. *)
Lemma segs_op op w p m fc w' p' out :
  appends_only op = true -> op_fits op p -> pool_inv w p m fc -> segs_sound w p -> run_op op (w, p) = ((w', p'), out) ->
  segs_sound w' p'.
Proof.
  intros Hno Hfit Hi Hs E. pose proof (pi_meta _ _ _ _ Hi) as Hm.
  destruct op as [parent name sch uid gid mode clock|parent name|id sch|id payload|id|id|id off data]; try discriminate; cbn [run_op] in E.
  - cbn [op_fits] in Hfit. cbv zeta in Hfit. rewrite (proj2 (mi_refines _ _ Hm)) in Hfit. destruct Hfit as (H1 & H2 & H3 & H4 & _ & H6).
    unfold io_void, io_bind, io_ret in E. destruct (create_file _ _ _ _ _ _ _ (w, p)) as [[w1 p1] r1] eqn:Ec.
    assert (w1 = w' /\ p1 = p') as [-> ->] by (destruct r1; now injection E as <- <- _). clear E.
    destruct (create_file_steps _ _ _ _ _ _ _ _ _ _ _ _ _ _ Hi H1 H2 Ec) as (w2 & p2 & r2 & E2 & Hr2).
    destruct (alloc_inv _ _ _ _ Hi H1) as (_ & _ & Hi1 & Ecur). unfold wal_room in H6. rewrite <- Ecur in H6.
    set (m1 := {| m_inodes := m_inodes m |}) in *. set (r := new_file _ _ _ _ _ _) in *.
    pose proof (Zlen_nonneg (frame (encode_op (CreateInode r)))). pose proof (Zlen_nonneg (frame (encode_op (Link parent name (m_next m))))).
    assert (Hr : wal_room (p_meta (alloc_inode p).1) (Zlen (frame (encode_op (CreateInode r))))) by (unfold wal_room; lia).
    pose proof (segs_meta_apply _ _ _ _ _ _ _ (Hs : segs_sound w (alloc_inode p).1) (pi_meta _ _ _ _ Hi1) H3 Hr E2) as Hs2.
    destruct r2 as [[]|e|]; [|destruct Hr2 as [[= -> ->] _]; exact Hs2..]. destruct Hr2 as (r3 & E3 & _).
    destruct (meta_apply_ok _ _ _ _ _ _ _ (pi_meta _ _ _ _ Hi1) H3 Hr E2) as (_ & _ & _ & Hcu & m' & _ & Hm').
    eapply segs_meta_apply; [exact Hs2|exact Hm'|exact H4| |exact E3]. unfold wal_room. lia.
  - destruct Hfit as [H1 H2]. exact (segs_meta_apply _ _ _ (Unlink parent name) _ _ _ Hs Hm H1 H2 E).
  - destruct Hfit as [H1 [_ H2]]. exact (segs_meta_apply _ _ _ (SetRedundancyScheme id sch) _ _ _ Hs Hm H1 H2 E).
  - destruct Hfit as [H1 H2]. pose proof (pi_disks _ _ _ _ Hi) as Hok.
    eapply segs_course; [exact Hi|]. apply (append_course w p m fc segs_sound id payload); auto.
    + intros seq ids w1 p1 r Hu Hq Hr Ef. exact (segs_for_each _ _ _ _ _ _ _ _ _ Hu Hq Hok Hs Ef Hr).
    + intros c Hc. pose proof (size_content _ _ _ _ _ _ Hi H2 c Hc). lia.
    + exact E.
  - destruct Hfit as [H1 H2].
    exact (segs_meta_apply _ _ _ (BeginConvert id) _ _ _ Hs Hm H1 (begin_convert_room _ _ H2) E).
Qed.

(** An operation that writes no extent and leaves nothing but itself in the
    log: it succeeds, or is an append that fails before it reaches the log. *)
Definition log_outcome (op : pool_op) (out : result PoolError unit) : Prop := appends_only op = true /\ log_clean op out.

(** A pool is one state only. *)
Lemma inv_unique w p m fc w' m' fc' : pool_inv w p m fc -> pool_inv w' p m' fc' -> m = m'.
Proof.
  intros [[H1 _ _ W1] _ _ _ _] [[H2 _ _ W2] _ _ _ _]. exact (refines_fun _ _ _ _ _ H1 H2 W1 W2).
Qed.

(** The course of such an operation: the records it writes are sound. *)
Lemma segs_course_at op w p m fc w' p' out :
  is_create op = false -> op_fits op p -> pool_inv w p m fc -> run_op op (w, p) = ((w', p'), out) ->
  course w p m fc (fun w1 p1 => appends_only op = true -> segs_sound w p -> segs_sound w1 p1)
    (fun X fc' => op_logs op m fc X fc' /\ chunk_after p X) (fun _ => True) w' p' out.
Proof.
  intros Hc Hfit Hi E. apply op_course_at; auto.
  - destruct (appends_only op); [now left|right; discriminate].
  - intros id payload -> seq ids w1 p1 r Hu Hq Hr Ef _ Hs.
    exact (segs_for_each _ _ _ _ _ _ _ _ _ Hu Hq (pi_disks _ _ _ _ Hi) Hs Ef Hr).
Qed.

(** A creation leaves the chunks where they are. *)
Lemma create_grows_anchored (parent : Z) name sch uid gid mode clock w p m fc w' p' id :
  let r := new_file (m_next m) sch uid gid mode clock in
  pool_inv w p m fc -> m_next m < 2 ^ 64 - 1 -> 0 <= clock -> wf_op (CreateInode r) -> wf_op (Link parent name (m_next m)) ->
  wal_room (p_meta p) (Zlen (frame (encode_op (CreateInode r))) + Zlen (frame (encode_op (Link parent name (m_next m))))) ->
  create_file parent name sch uid gid mode clock (w, p) = ((w', p'), Ok id) -> anchored w p m -> anchored w' p' m.
Proof.
  intros r Hi H1 H2 H3 H4 H6 E Ha. destruct (create_applies _ _ _ _ _ _ _ _ _ _ _ _ _ _ Hi H1 H2 E) as (w1 & p1 & E1 & E2).
  pose proof (Zlen_nonneg (frame (encode_op (Link parent name (m_next m))))).
  assert (Hr1 : wal_room (p_meta p) (Zlen (frame (encode_op (CreateInode r))))) by (unfold wal_room in *; lia).
  destruct (meta_apply_ok _ _ _ _ _ _ _ (pi_meta _ _ _ _ Hi) H3 Hr1 E1) as (_ & _ & Hg1 & Hcu & m1 & _ & Hm1).
  assert (Hr2 : wal_room (p_meta p1) (Zlen (frame (encode_op (Link parent name (m_next m)))))).
  { unfold wal_room in *. lia. }
  destruct (meta_apply_ok _ _ _ _ _ _ _ Hm1 H4 Hr2 E2) as (_ & _ & Hg2 & _).
  exact (anchored_grows _ _ _ _ _ (grows_trans _ _ _ _ _ _ Hg1 Hg2) Ha).
Qed.

Lemma anchored_op op w p m fc w' p' out m' fc' :
  log_outcome op out -> op_fits op p -> pool_inv w p m fc -> segs_sound w p -> anchored w p m ->
  run_op op (w, p) = ((w', p'), out) -> pool_inv w' p' m' fc' -> anchored w' p' m'.
Proof.
  intros [Hx Hcl] Hfit Hi Hs Ha E Hi'.
  destruct (is_create op) eqn:Hc.
  - unfold log_clean in Hcl. rewrite Hc in Hcl. destruct op as [parent name sch uid gid mode clock| | | | | |]; try discriminate. subst out.
    cbn [run_op op_fits] in *. cbv zeta in Hfit. rewrite (proj2 (mi_refines _ _ (pi_meta _ _ _ _ Hi))) in Hfit.
    destruct Hfit as (H1 & H2 & H3 & H4 & H5 & H6). unfold io_void, io_bind, io_ret in E.
    destruct (create_file _ _ _ _ _ _ _ (w, p)) as [[w2 p2] [id|e|]] eqn:Ec; try discriminate. injection E as -> ->.
    destruct (create_file_spec _ _ _ _ _ _ _ _ _ _ _ _ _ _ Hi H1 H2 H3 H4 H5 H6 Ec) as [_ (-> & m2 & Hi2 & Ei & _)].
    rewrite (inv_unique _ _ _ _ _ _ _ Hi' Hi2). unfold anchored. rewrite Ei. apply map_Forall_insert_2; [constructor|].
    exact (create_grows_anchored _ _ _ _ _ _ _ _ _ _ _ _ _ _ Hi H1 H2 H3 H4 H6 Ec Ha).
  - destruct (segs_course_at _ _ _ _ _ _ _ _ Hc Hfit Hi E) as (w1 & p1 & Hp & Hs1 & [(e & _ & -> & -> & _)|(X & fc2 & He & [(Hlog & _) Haf] & Ea)]).
    { rewrite (inv_unique _ _ _ _ _ _ _ Hi' (data_phase_inv _ _ _ _ _ _ Hi Hp)).
      exact (anchored_grows _ _ _ _ _ (dp_grows _ _ _ _ Hp) Ha). }
    unfold log_clean in Hcl. rewrite Hc in Hcl. pose proof (meta_apply_no_error _ _ _ _ Ea Hcl). subst out.
    pose proof (data_phase_inv _ _ _ _ _ _ Hi Hp) as Hi1.
    destruct (effect_outcome _ _ _ _ _ _ _ _ _ Hi1 He Ea) as (_ & _ & _ & m2 & Em & Hi2).
    rewrite (inv_unique _ _ _ _ _ _ _ Hi' Hi2).
    exact (anchored_logged _ _ _ _ _ _ _ _ _ _ _ _ _ _ Hp Hi1 He Ea (Hs1 Hx Hs) Ha Haf (may_log_adds _ _ Hx Hlog) eq_refl Em Hi2).
Qed.

Lemma sound_op paths op w p m fc w' p' out m' fc' :
  log_outcome op out -> op_fits op p -> pool_inv w p m fc -> sound paths w p m -> run_op op (w, p) = ((w', p'), out) ->
  pool_inv w' p' m' fc' -> sound paths w' p' m'.
Proof.
  intros Hlo Hfit Hi [Hl Hs Ha] E Hi'. pose proof Hlo as [Hx Hc].
  split; [eapply logged_op; eauto|eapply segs_op; eauto|eapply (anchored_op op w p m fc); eauto].
Qed.
End Sound.
