(* ===== verification/PoolReopen.v ===== *)
(** * Reopening a pool

    On a sound pool [open_with_classes] succeeds and gives the same files
    back, after a loss of power or not: a scan finds at least the run of synced
    records that each chunk is in, so the cursors of the pool opened are behind
    them.  A pool whose files have only been appended to therefore survives any
    number of restarts, with what failed appends have left on its disks. *)

From Stdlib Require Import ZArith Lia.
From stdpp Require Import relations.
From S2P Require Import Prelude Proto KWritePath KPlacement Crc32c Disk Framing Segment Wal Codec.
From S2P Require Import Replicator Redb Store StoreSpec StoreRefine StoreRecovery StoreTorn StoreReads CorePlacement.
From S2P Require Import Pool PoolSpec PoolRefine PoolFormat PoolLife PoolOpen PoolLogged PoolSound.

#[local] Arguments contents : simpl never.
#[local] Arguments Store.open : simpl never.
#[local] Arguments number : simpl never.
#[local] Opaque WAL_CAPACITY_BYTES.

Section Sound.
Context {DB : Type} `{!Redb DB} `{!RedbLaws DB} `{!RedbReliable DB} `{HI : !HashIter}.
Implicit Types (w : os_world) (p : Pool DB).

(** The scan of any file finds records that are there, and all of a run of
    records that starts at the base. *)
Lemma start_scans w q :
  seg_sound w (handle_of (start_of w q)) /\
  forall rs, Forall wf_record rs -> Zlen (enc_log seg_format rs) <= SEGMENT_SIZE_BYTES ->
    file_has (file_at w q) SEGMENT_BASE_OFFSET (enc_log seg_format rs) -> Zlen (enc_log seg_format rs) <= (start_of w q).2.
Proof.
  destruct (scan_returns (opened w q) SEGMENT_BASE_OFFSET w segment_base) as (r & E & (Hra & _) & _).
  unfold start_of. rewrite E. cbn [snd]. split; [now exists (Segment.records (to_result r)); apply seg_inv_scanned; [exact segment_base|]|].
  intros rs Hrs Hcap Hf.
  destruct (scan_finds_run _ _ _ rs _ segment_base (Arc_FileDisk_readable (opened w q) w) E Hrs Hcap Hf) as [k Hk].
  cbn [to_result Segment.records Segment.resume_at] in *. rewrite Hra, Hk, enc_log_app, Zlen_app.
  pose proof (Zlen_nonneg (enc_log seg_format k)). lia.
Qed.

Lemma reopened_lookup paths classes w p (s : MetaStore (Arc FileDisk) DB) (j : nat) q :
  on_paths paths w p -> paths !! j = Some q ->
  exists h, disks p !! (Z.of_nat j + 1) = Some h /\ same_disk (dh_disk h) (opened w q) /\
    disks (reopened_over classes paths w s) !! (Z.of_nat j + 1) = Some (handle_of (start_of w q)).
Proof.
  intros Hs Hj. destruct (on_disk _ _ _ _ _ Hs Hj) as (h & Eh & Eq). exists h. split; [exact Eh|].
  split; [now apply same_file|]. cbn [reopened_over pool_over disks]. apply number_index. now rewrite !list_lookup_fmap, Hj.
Qed.

Lemma reopened_handle paths classes w p (s : MetaStore (Arc FileDisk) DB) (id : Z) h' :
  on_paths paths w p -> disks (reopened_over classes paths w s) !! id = Some h' ->
  exists h, disks p !! id = Some h /\ same_disk (dh_disk h) (dh_disk h') /\ seg_sound w h'.
Proof.
  intros Hs E. pose proof E as (j & ac & -> & Ej & _)%lookup_number_handles. rewrite list_lookup_fmap in Ej.
  destruct (paths !! j) as [q|] eqn:Eq; [|discriminate].
  destruct (reopened_lookup _ classes _ _ s _ _ Hs Eq) as (h & Eh & Hsm & E2).
  rewrite E in E2. injection E2 as ->. exists h. split_and!; auto. apply start_scans.
Qed.

(** The cursor of a disk is behind every run of records found below the old one. *)
Lemma reopened_cursor paths classes w p (s : MetaStore (Arc FileDisk) DB) (id : Z) h rs :
  on_paths paths w p -> disks p !! id = Some h -> run_on w h rs ->
  exists h', disks (reopened_over classes paths w s) !! id = Some h' /\ same_disk (dh_disk h) (dh_disk h') /\ run_on w h' rs.
Proof.
  intros Hs Eh (_ & Hcap & Hwf & Hf & Hset). destruct (on_path _ _ _ _ _ Hs Eh) as (j & -> & Hj).
  destruct (reopened_lookup _ classes _ _ s _ _ Hs Hj) as (h2 & Eh2 & Hsm & Eh'). rewrite Eh in Eh2. injection Eh2 as <-.
  eexists. split; [exact Eh'|]. split; [exact Hsm|]. rewrite (contents_same _ _ w Hsm) in Hf.
  split; [exact (proj2 (start_scans w _) rs Hwf Hcap Hf)|]. split_and!; auto.
Qed.

Lemma reopened_anchored paths classes w p (s : MetaStore (Arc FileDisk) DB) ex :
  on_paths paths w p -> anchored_at w p ex -> anchored_at w (reopened_over classes paths w s) ex.
Proof.
  intros Hs (h & rs & E & He & Hr). destruct (reopened_cursor _ classes _ _ s _ _ _ Hs E Hr) as (h' & E' & _ & Hr').
  now exists h', rs.
Qed.

Lemma reopened_stored paths classes w p (s : MetaStore (Arc FileDisk) DB) hdr bs r :
  on_paths paths w p -> anchored_at w p (hdr + Zlen bs, r) -> stored hdr bs w p r ->
  stored hdr bs w (reopened_over classes paths w s) r.
Proof.
  intros Hs (h & rs & E & He & Hr) (h2 & E2 & H0 & _ & Hf & Hset). cbn [fst snd] in *. rewrite E in E2. injection E2 as <-.
  destruct (reopened_cursor _ classes _ _ s _ _ _ Hs E Hr) as (h' & E' & Hsm & Hc & _). exists h'.
  rewrite <- (contents_same _ _ w Hsm). split_and!; auto; [lia|exact (settled_same _ _ _ _ _ Hsm Hset)].
Qed.

Lemma reopened_disks_ok paths classes w (s : MetaStore (Arc FileDisk) DB) :
  NoDup paths -> length classes = length paths -> Zlen paths < u32_max -> disks_ok (reopened_over classes paths w s).
Proof.
  intros Hnd Hcl Hmax. apply pool_over_disks_ok.
  - now rewrite length_fmap.
  - unfold Zlen in *. now rewrite length_fmap.
  - apply Forall_fmap, Forall_forall. intros q _. cbn [compose]. pose proof (seg_sound_cursor _ _ (proj1 (start_scans w q))) as Hc.
    cbn [handle_of dh_cursor] in Hc. assert (SEGMENT_BASE_OFFSET + SEGMENT_SIZE_BYTES < 2 ^ 63) by reflexivity. lia.
  - rewrite <- list_fmap_compose. replace (_ <$> paths) with paths; [exact Hnd|].
    rewrite <- (list_fmap_id paths) at 1. apply list_fmap_ext. reflexivity.
Qed.

(** It keeps the invariant if the chunks are where a scan finds them. *)
Lemma reopened_inv paths classes w p (s : MetaStore (Arc FileDisk) DB) m fc :
  on_paths paths w p -> anchored w p m -> pool_inv w p m fc -> meta_inv s m ->
  length classes = length paths -> Zlen paths < u32_max ->
  pool_inv w (reopened_over classes paths w s) m fc.
Proof.
  intros Hs Ha [Hm Hb Hok Hpol Hd] Hms Hcl Hmax. split; auto.
  - apply reopened_disks_ok; auto. exact (on_paths_NoDup _ _ _ Hok Hs).
  - intros id. pose proof (Hd id) as Hid. inversion Hid as [r c Hr Er|]; constructor.
    apply (data_mono w p _ _ (anchored_at w p)); [|exact (Ha id r (eq_sym Er))|exact Hr].
    intros hdr bs x _. now apply reopened_stored.
Qed.

(** It is sound. *)
Lemma reopened_segs paths classes w p (s : MetaStore (Arc FileDisk) DB) m :
  on_paths paths w p -> anchored w p m ->
  let p' := reopened_over classes paths w s in on_paths paths w p' /\ segs_sound w p' /\ anchored w p' m.
Proof.
  intros Hs Ha. cbv zeta. split; [split; [|apply paths_of_reopened]|split].
  - intros id h' (h & Eh & Hsm & _)%(reopened_handle _ _ _ _ _ _ _ Hs).
    exact (settled_same _ _ _ _ _ Hsm (on_length _ _ _ Hs _ _ Eh)).
  - now intros id h' (h & _ & _ & Hseg)%(reopened_handle _ _ _ _ _ _ _ Hs).
  - intros id r Er. eapply Forall_impl; [exact (Ha id r Er)|]. intros ex. now apply reopened_anchored.
Qed.

(** Opening it, after a loss of power or not. *)
Lemma reopen_sound paths classes w w' p m fc :
  sound paths w p m -> pool_inv w p m fc -> crashed w w' -> length classes = length paths -> Zlen paths < u32_max ->
  exists p', open_with_classes paths classes w' = (w', Ok p') /\ pool_inv w' p' m fc /\ sound paths w' p' m.
Proof.
  intros [Hl _ Ha] Hi Hcr Hcl Hmax. apply (crashed_logged _ _ _ _ Hcr) in Hl. apply (crashed_inv _ _ _ _ _ Hcr) in Hi.
  apply (anchored_crashed _ _ _ _ Hcr) in Ha. pose proof (lo_on _ _ _ Hl) as Hon.
  destruct (logged_open _ _ _ _ _ _ Hl Hi Hcl) as (s & ps & ops & E & Hm & Hst & Hp).
  exists (reopened_over classes paths w' s). destruct (reopened_segs _ classes _ _ s _ Hon Ha) as (Hon' & Hsg' & Ha').
  split; [exact E|]. split; [exact (reopened_inv _ _ _ _ _ _ _ Hon Ha Hi Hm Hcl Hmax)|].
  split; [split; [exact Hon'|cbn; eauto|exact Hp|]|exact Hsg'|exact Ha']. cbn [reopened_over pool_over p_meta].
  refine (settled_same _ _ _ _ _ _ (lo_settled _ _ _ Hl)). apply same_file.
  pose proof (lo_primary _ _ _ Hl) as Hp'. rewrite Hp in Hp'. now injection Hp'.
Qed.

(** A pool whose disks have just been created, before and after the root
    directory is. *)
Lemma fresh_sound paths classes w0 w p :
  start_pool start_format paths classes w0 = (w, Ok p) -> Zlen paths < u32_max -> sound paths w p meta_init.
Proof.
  intros Es Hmax. destruct (fresh_start _ _ _ _ _ Es Hmax) as (Hst & _ & _ & Ep & Hfiles & _ & _ & Hprim).
  assert (Hh : forall (id : Z) h, disks p !! id = Some h ->
    exists j q, id = Z.of_nat j + 1 /\ paths !! j = Some q /\ h = handle_of (new_disk q, 0) /\
      file_at w q = fresh_file /\ durable_at w q = fresh_file).
  { intros id h E. rewrite Ep in E. cbn [pool_over disks] in E. apply lookup_number_handles in E as (j & ac & -> & Ej & ->).
    rewrite list_lookup_fmap in Ej. destruct (paths !! j) as [q|] eqn:Eq; [|discriminate]. injection Ej as <-.
    exists j, q. pose proof (list_elem_of_lookup_2 _ _ _ Eq) as Hel. split_and!; auto; unfold file_at, durable_at; destruct (Hfiles q Hel) as [E1 E2]; now rewrite ?E1, ?E2. }
  assert (Hset : forall (d : Arc FileDisk) a b, fd_path (deref d) ∈ paths -> b <= DISK_FILE_CAPACITY_BYTES -> settled d w a b).
  { intros d a b Hd Hb. destruct (Hfiles _ Hd) as [E1 E2]. unfold settled.
    change (contents d w) with (file_at w (fd_path (deref d))). change (durable d w) with (durable_at w (fd_path (deref d))).
    unfold file_at, durable_at. rewrite E1, E2. auto. }
  split; [split; [split|eauto|exact Hprim|]| |].
  - intros id h (j & q & _ & Hj & -> & _)%Hh. apply Hset; [|reflexivity]. exact (list_elem_of_lookup_2 _ _ _ Hj).
  - rewrite Ep. unfold paths_of. cbn [pool_over disks]. apply map_eq. intros id. rewrite lookup_fmap, !number_lookup.
    unfold Zlen. rewrite !length_fmap. case_decide; [|reflexivity]. rewrite !list_lookup_fmap. now destruct (paths !! _).
  - apply Hset; [|exact capacity_above_log]. apply list_elem_of_lookup. exists 0%nat. now rewrite <- head_lookup.
  - intros id h (j & q & _ & _ & -> & Hf & _)%Hh. apply seg_sound_fresh. intros i _.
    change (byte_at (file_at w q) i = x00). now rewrite Hf.
  - apply map_Forall_empty.
Qed.

Lemma format_sound paths classes clock w0 w p :
  format_with_classes paths classes clock w0 = (w, Ok p) -> Zlen paths < u32_max -> clock < 2 ^ 64 ->
  sound paths w p (root_meta (length paths) clock).
Proof.
  intros E Hmax Hclk. unfold format_with_classes, io_bind, io_lift in E.
  destruct (start_pool start_format paths classes w0) as [w1 [p1|e|]] eqn:Es; try discriminate.
  destruct (fresh_start _ _ _ _ _ Es Hmax) as (Hst & _). pose proof (fresh_sound _ _ _ _ _ Es Hmax) as Hs.
  unfold now_unix in E. destruct (Z.ltb_spec clock 0) as [|H]; [discriminate|].
  destruct (meta_apply _ (w1, p1)) as [[w2 p2] r2] eqn:Ea. destruct r2 as [[]|e|]; try discriminate. injection E as <- <-.
  assert (Hop : wf_op (CreateInode (root_inode (length paths) clock))) by exact (root_inode_wf (length paths) clock (conj H Hclk)).
  assert (Hroom : wal_room (p_meta p1) (Zlen (frame (encode_op (CreateInode (root_inode (length paths) clock)))))).
  { unfold wal_room. rewrite (si_cursor _ _ _ _ _ Hst). pose proof (root_op_size (length paths) clock).
    assert (data_op_room <= WAL_CAPACITY_BYTES) by discriminate. change (Zlen (wal_bytes [])) with 0. lia. }
  destruct Hs as [Hl Hsg _]. destruct (meta_inv_of_store _ _ _ _ _ Hst) as (m & _ & Hm).
  split; [exact (proj1 (logged_meta_apply _ _ _ _ _ _ Hl Hop Hroom Ea))|exact (segs_meta_apply _ _ _ _ _ _ _ Hsg Hm Hop Hroom Ea)|].
  apply map_Forall_insert_2; [constructor|apply map_Forall_empty].
Qed.

(** ** The life of a pool that holds no extents *)

(** Operations that write no extent and do not fail in the log, restarts, with
    or without a loss of power before them, and changes in which devices fail
    and when. *)
Inductive log_step (paths : list path) : os_world * Pool DB -> os_world * Pool DB -> Prop :=
  | log_op op w p wp' out : log_outcome op out -> op_fits op p -> run_op op (w, p) = (wp', out) -> log_step paths (w, p) wp'
  | log_reopen classes w p w' p' :
      length classes = length paths -> crashed w w' -> open_with_classes paths classes w' = (w', Ok p') ->
      log_step paths (w, p) (w', p')
  | log_fault w p faults : log_step paths (w, p) (with_faults faults w, p).

Definition sound_fs paths w p (s : fs) : Prop := exists m fc, pool_inv w p m fc /\ sound paths w p m /\ s = fs_of m fc.

Lemma log_step_sound paths w p w' p' s :
  Zlen paths < u32_max -> log_step paths (w, p) (w', p') -> sound_fs paths w p s ->
  exists s', rtc fs_any s s' /\ sound_fs paths w' p' s'.
Proof.
  intros Hmax Hs (m & fc & Hi & Hso & ->). inversion Hs as [op ? ? ? out Hno Hfit E|classes ? ? ? ? Hcl Hcr E|? ? faults]; subst.
  - destruct (run_op_refines _ _ _ _ _ _ _ _ Hi Hfit E) as (m' & fc' & Hi' & Hst). exists (fs_of m' fc').
    split; [apply rtc_once; now exists op, out|]. exists m', fc'. split_and!; auto. eapply sound_op; eauto.
  - destruct (reopen_sound _ classes _ _ _ _ _ Hso Hi Hcr Hcl Hmax) as (p2 & E2 & Hi2 & Hso2).
    rewrite E in E2. injection E2 as ->. exists (fs_of m fc). split; [apply rtc_refl|]. now exists m, fc.
  - exists (fs_of m fc). split; [apply rtc_refl|]. exists m, fc. destruct Hso as [Hl Hsg Ha].
    split; [now apply faults_inv|]. split; [|reflexivity]. split; [now apply faults_logged| |exact Ha].
    eapply segs_kept; [reflexivity| |exact Hsg]. intros i h _. now apply kept_eq.
Qed.

Lemma log_run_sound paths wp wp' s :
  Zlen paths < u32_max -> rtc (log_step paths) wp wp' -> sound_fs paths wp.1 wp.2 s ->
  exists s', rtc fs_any s s' /\ sound_fs paths wp'.1 wp'.2 s'.
Proof.
  intros Hmax Hr. revert s. induction Hr as [|[w p] [w1 p1] wp' Hs _ IH]; intros s Hso; [exists s; split; [apply rtc_refl|exact Hso]|].
  destruct (log_step_sound _ _ _ _ _ _ Hmax Hs Hso) as (s1 & Hs1 & Hso1).
  destruct (IH s1 Hso1) as (s' & Hs' & Hso'). exists s'. split; [now transitivity s1|exact Hso'].
Qed.

(** A restart loses nothing, as long as no file has been converted.  After
    formatting, any sequence of successful creations, unlinks, policy changes,
    beginnings of conversions and appends, with devices that fail and come
    back, with appends that fail because of it in the middle of writing their
    copies, and with any number of restarts in between, each after a loss of
    whatever had not been synced, opening the pool again after another such loss
    succeeds, whatever classes it is given, and the pool opened is the same file
    system, one that a run of the abstract one reaches: every file reads back
    the same, every name resolves the same. *)
Theorem pool_reopens paths classes clock w0 w p w' p' w2 classes' :
  format_with_classes paths classes clock w0 = (w, Ok p) -> Zlen paths < u32_max -> clock < 2 ^ 64 ->
  rtc (log_step paths) (w, p) (w', p') -> crashed w' w2 -> length classes' = length paths ->
  exists p2 s, open_with_classes paths classes' w2 = (w2, Ok p2) /\
    rtc fs_any fs_init s /\ represents w' p' s /\ represents w2 p2 s.
Proof.
  intros E Hmax Hclk Hrun Hcr Hcl.
  destruct (log_run_sound paths _ _ fs_init Hmax Hrun) as (s & Hs & m & fc & Hi & Hso & ->).
  { exists (root_meta (length paths) clock), {[ROOT_INODE := []]}.
    split; [exact (format_ok _ _ _ _ _ _ E Hmax Hclk)|]. split; [exact (format_sound _ _ _ _ _ _ E Hmax Hclk)|reflexivity]. }
  destruct (reopen_sound _ classes' _ _ _ _ _ Hso Hi Hcr Hcl Hmax) as (p2 & E2 & Hi2 & _).
  exists p2, (fs_of m fc). split_and!; auto; [now exists m, fc|now exists m, fc].
Qed.
End Sound.
