(* ===== verification/PoolCrash.v ===== *)
(** * Crashes

    What a restart finds after power was lost, or a device died, in the middle
    of an operation, and whatever had not been synced with it: the operation
    has happened or it has not, and if it was acknowledged it has, unless what
    is left of its frame in the log reads as another frame ([StoreTorn]). *)

From Stdlib Require Import ZArith Lia.
From stdpp Require Import relations.
From S2P Require Import Prelude Proto KWritePath KPlacement Crc32c Disk Framing Segment Wal Codec.
From S2P Require Import Replicator Redb Store StoreSpec StoreRefine StoreRecovery StoreTorn StoreReads CorePlacement.
From S2P Require Import Pool PoolSpec PoolRefine PoolFormat PoolLife PoolOpen PoolLogged PoolSound PoolReopen.

#[local] Arguments contents : simpl never.
#[local] Arguments write_at : simpl never.
#[local] Arguments sync : simpl never.
#[local] Arguments Store.open : simpl never.
#[local] Arguments number : simpl never.
#[local] Opaque WAL_CAPACITY_BYTES.

Section Crash.
Context {DB : Type} `{!Redb DB} `{!RedbLaws DB} `{!RedbReliable DB} `{HI : !HashIter}.
Implicit Types (w : os_world) (p : Pool DB).

(** A metadata operation that the primary did not take, and a loss of power. *)
Lemma meta_apply_torn w p m op w' p' e w2 :
  meta_inv (p_meta p) m -> wf_op op -> wal_room (p_meta p) (Zlen (frame (encode_op op))) ->
  meta_apply op (w, p) = ((w', p'), Err (Meta (CommitErr e))) -> crashed w' w2 ->
  let d := mr_primary_disk (ms_replicator (p_meta p)) in settled d w 0 WAL_CAPACITY_BYTES ->
  p' = p /\ torn_at (contents d w) (contents d w2) (ms_wal_cursor (p_meta p)) (frame (encode_op op)).
Proof.
  intros Hi Hop Hroom E Hcr d Hset. unfold meta_apply in E. cbn [fst snd] in E.
  destruct (apply op (w, p_meta p)) as [[w1 s1] r1] eqn:Ea. injection E as <- <- Er.
  destruct r1 as [|[c| | | |]|]; try discriminate. injection Er as ->.
  pose proof Hi as [Hr Hb [Hc0 Hc1] Hw]. unfold wal_room in Hroom. assert (WAL_CAPACITY_BYTES < 2 ^ 64) by reflexivity.
  assert (H64 : ms_wal_cursor (p_meta p) + Zlen (frame (encode_op op)) < 2 ^ 64) by lia.
  destruct (apply_stages _ _ _ _ _ _ Hb Hc0 H64 Ea) as (rc & Ec & Hrc).
  assert (Hloc : forall s, refines s m -> apply_locally op s = (s1, Err (CommitErr e)) -> False).
  { intros s Hrs El. destruct (apply_locally_spec _ _ _ _ _ _ Hrs Hw Hop El) as [_ Hx]. exact Hx. }
  destruct rc as [[]|[b|b]|]; [now apply Hloc in Hrc..| |contradiction]. destruct Hrc as [-> [= ->]].
  split; [now destruct p|].
  apply commit_outcome in Ec as [(b' & _ & Ec)|(w3 & _ & E2)]; [exact (write_and_sync_torn _ _ _ _ _ _ _ Hset Ec Hcr)|].
  exfalso. destruct (mr_backup_disk _); [|now destruct E2]. destruct E2 as [[? _]|(e' & ? & _)]; discriminate.
Qed.

(** The file the log is on is long enough for it. *)
Lemma primary_length paths w p :
  on_paths paths w p -> head paths = Some (fd_path (deref (mr_primary_disk (ms_replicator (p_meta p))))) ->
  WAL_CAPACITY_BYTES <= f_len (contents (mr_primary_disk (ms_replicator (p_meta p))) w).
Proof.
  intros Hon Hp. destruct paths as [|q0 qs]; [discriminate|]. injection Hp as Hp.
  destruct (on_disk _ _ _ 0 q0 Hon eq_refl) as (h & Eh & Hq). destruct (on_length _ _ _ Hon _ _ Eh) as [Hlen _].
  rewrite (contents_same (mr_primary_disk (ms_replicator (p_meta p))) (dh_disk h)) by (apply same_file; congruence).
  pose proof capacity_above_log. lia.
Qed.

(** The pool [p'] opened after a crash is the file system of [m] and [fc]; if
    the data regions held nothing but appends ([whole]), it is one in full. *)
Definition revived (whole : Prop) (paths : list path) w p' m fc : Prop :=
  answers w p' (fs_of m fc) /\ (whole -> Zlen paths < u32_max -> pool_inv w p' m fc).

(** A pool opens on what the scan of its log finds. *)
Lemma crash_open (whole : Prop) paths classes w p sc ops m fc :
  on_paths paths w p -> disks_ok p -> head paths = Some (fd_path (deref (mr_primary_disk (ms_replicator (p_meta p))))) ->
  Wal.scan (mr_primary_disk (ms_replicator (p_meta p))) 0 w = Ok sc ->
  log_on (mr_primary_disk (ms_replicator (p_meta p))) w (Wal.entries sc) true ->
  Forall2 logged (Wal.entries sc) ops -> Forall wf_op ops -> spec_run ops meta_init = Ok m ->
  (forall s, meta_inv s m -> pool_inv w (set_meta s p) m fc /\ (whole -> anchored w (set_meta s p) m)) ->
  length classes = length paths ->
  exists p', open_with_classes paths classes w = (w, Ok p') /\ revived whole paths w p' m fc.
Proof.
  intros Hon Hok Hp Hsc Hlog Hlg Hwf Hm Hinv Hcl. pose proof (on_paths_NoDup _ _ _ Hok Hon) as Hnd.
  destruct paths as [|q0 qs]; [discriminate|]. injection Hp as Hp.
  assert (Hsame : same_disk (mr_primary_disk (ms_replicator (p_meta p))) (opened w q0)) by (apply same_file; now rewrite <- Hp).
  rewrite (scan_same_file _ _ _ Hsame) in Hsc.
  assert (Hlog' : log_on (opened w q0) w (Wal.entries sc) true) by (unfold log_on in *; now rewrite <- (contents_same _ _ w Hsame)).
  destruct (store_opens (DB := DB) (opened w q0) (fst <$> head (start_of w <$> qs)) (length (q0 :: qs)) w sc ops m true Hsc Hlg Hwf
    Hlog' (fun b => backup_elsewhere q0 qs w b Hnd) Hm) as (s & Eo & Hms & _ & _).
  exists (reopened_over classes (q0 :: qs) w s). split; [exact (open_runs _ _ _ _ _ _ Hon Hcl Eo)|].
  destruct (Hinv s Hms) as [Hi Ha]. split.
  - now apply (reopened_answers _ _ _ p).
  - intros Hwh Hmax. apply (reopened_inv (q0 :: qs) classes w (set_meta s p) s m fc); auto.
    destruct Hon as [H1 H2]. now split.
Qed.

(** A metadata operation [X] that the primary did not take, on the pool [pa]:
    the pool [p], with a number handed out perhaps. *)
Lemma commit_crash (whole : Prop) paths classes w p pa m ma fc X fcX mX w' p' e w2 :
  logged_pool paths w p -> pool_inv w p m fc -> pool_inv w pa ma fc -> disks pa = disks p -> pool_map pa = pool_map p ->
  ms_replicator (p_meta pa) = ms_replicator (p_meta p) -> ms_wal_cursor (p_meta pa) = ms_wal_cursor (p_meta p) ->
  effect w pa ma fc X fcX -> spec_apply X ma = Ok mX -> spec_apply X m = Ok mX ->
  meta_apply X (w, pa) = ((w', p'), Err (Meta (CommitErr e))) -> crashed w' w2 -> length classes = length paths ->
  (whole -> anchored w p m) -> (whole -> forall p3, disks p3 = disks p' -> pool_inv w' p3 mX fcX -> anchored w' p3 mX) ->
  (exists p3 m3 fc3, open_with_classes paths classes w2 = (w2, Ok p3) /\ revived whole paths w2 p3 m3 fc3 /\
     ((m3 = m /\ fc3 = fc) \/ (m3 = mX /\ fc3 = fcX))) \/
  misread (contents (mr_primary_disk (ms_replicator (p_meta p'))) w2) (ms_wal_cursor (p_meta p')) (encode_op X).
Proof.
  intros Hl Hi Hia Ed Epm Erep Ecur (Hop & Hroom & Heff) EXa EX E Hcr Hcl Hkm HwX.
  pose proof (pi_meta _ _ _ _ Hia) as Hma. destruct (meta_apply_ok _ _ _ _ _ _ _ Hma Hop Hroom E) as (_ & _ & Hg & _ & _).
  pose proof (lo_settled _ _ _ Hl) as Hset. rewrite <- Erep in Hset.
  destruct (meta_apply_torn _ _ _ _ _ _ _ _ Hma Hop Hroom E Hcr Hset) as [-> Hk]. rewrite Erep, Ecur in *.
  destruct (lo_store _ _ _ Hl) as (ps & ops & Hst). pose proof Hst as [_ Hc Hfit Hlg Hwf Hlog _ (m0 & Hm0 & Hr0)].
  destruct (store_inv_wf _ _ _ _ _ _ Hst Hm0) as [Hw0 _].
  assert (m0 = m) as ->.
  { pose proof (pi_meta _ _ _ _ Hi) as [Hrm _ _ Hwm]. exact (refines_fun _ _ _ _ _ Hr0 Hrm Hw0 Hwm). }
  rewrite Hc in *. unfold wal_room in Hroom. rewrite Ecur in Hroom.
  assert (Hfit' : Zlen (wal_bytes (ps ++ [encode_op X])) <= WAL_CAPACITY_BYTES) by (rewrite wal_bytes_snoc, Zlen_app; lia).
  pose proof (disks_ok_same p pa Ed Epm (pi_disks _ _ _ _ Hi)) as Hok.
  assert (Hon : on_paths paths w2 pa).
  { apply (on_paths_crashed paths w' w2 pa Hcr). apply (on_paths_grown paths w w' p pa); [|unfold paths_of; now rewrite Ed|exact (lo_on _ _ _ Hl)].
    apply (meta_apply_grown _ _ _ _ _ _ _ Hma Hop ltac:(unfold wal_room; rewrite Ecur; exact Hroom) E). }
  assert (Hlen : WAL_CAPACITY_BYTES <= f_len (contents (mr_primary_disk (ms_replicator (p_meta p))) w2)).
  { rewrite <- Erep. apply (primary_length paths); [exact Hon|]. rewrite Erep. exact (lo_primary _ _ _ Hl). }
  destruct (scan_torn _ _ _ _ _ Hlog (conj Hfit' Hlen) Hk) as [(sc & Hsc & Hlog' & Hent)|Hmis]; [left|now right].
  assert (Hcase : exists ops3 m3 fc3, Forall2 logged (Wal.entries sc) ops3 /\ Forall wf_op ops3 /\ spec_run ops3 meta_init = Ok m3 /\
    (forall s, meta_inv s m3 -> pool_inv w2 (set_meta s pa) m3 fc3 /\ (whole -> anchored w2 (set_meta s pa) m3)) /\ ((m3 = m /\ fc3 = fc) \/ (m3 = mX /\ fc3 = fcX))).
  { destruct Hent as [-> | ->].
    - exists ops, m, fc. do 3 (split; [assumption|]). split; [|auto]. intros s Hs.
      assert (Hgp : grows w p w' (set_meta s pa)) by (unfold grows in *; now rewrite <- Ed).
      split; [|now intros Hwh; apply (anchored_crashed w' w2 _ _ Hcr), (anchored_grows w p); auto].
      apply (crashed_inv w' w2 _ _ _ Hcr), (inv_keep w p m); auto; [now apply (disks_ok_same pa)|lia].
    - exists (ops ++ [X]), mX, fcX. split; [apply Forall2_app; [exact Hlg|constructor; [now eexists|constructor]]|].
      split; [apply Forall_app; auto|]. split; [now rewrite (spec_run_snoc _ _ _ m)|]. split; [|auto].
      intros s Hs. assert (HiX : pool_inv w' (set_meta s pa) mX fcX) by (apply Heff; auto; now apply (disks_ok_same pa)).
      split; [now apply (crashed_inv w' w2 _ _ _ Hcr)|]. intros Hwh. now apply (anchored_crashed w' w2 _ _ Hcr), HwX. }
  destruct Hcase as (ops3 & m3 & fc3 & H1 & H2 & H3 & H4 & H5).
  destruct (crash_open whole paths classes w2 pa sc ops3 m3 fc3) as (p3 & Eo & Hrev); rewrite ?Erep; auto; [exact (lo_primary _ _ _ Hl)|].
  exists p3, m3, fc3. auto.
Qed.

(** What a restart in [w] makes of the pool [p], left by [op] with the outcome [out]
    in the file system [s]. *)
Definition survives (whole : Prop) (paths : list path) (classes : list DiskClass) (op : pool_op) (s : fs) w p (out : result PoolError unit) : Prop :=
  (exists p3 m3 fc3 out', open_with_classes paths classes w = (w, Ok p3) /\ fs_step s op out' (fs_of m3 fc3) /\
     (out = Ok tt -> out' = Ok tt) /\ revived whole paths w p3 m3 fc3) \/
  (exists X, may_log op X /\
     misread (contents (mr_primary_disk (ms_replicator (p_meta p))) w) (ms_wal_cursor (p_meta p)) (encode_op X)).

(** Nothing but what took effect is in the log. *)
Lemma logged_survives (whole : Prop) paths classes op s w0 w p m fc out :
  logged_pool paths w0 p -> pool_inv w0 p m fc -> crashed w0 w -> length classes = length paths -> fs_step s op out (fs_of m fc) ->
  (whole -> anchored w0 p m) -> survives whole paths classes op s w p out.
Proof.
  intros Hl Hi Hcr Hcl Hs Hwh. apply (crashed_logged _ _ _ _ Hcr) in Hl. apply (crashed_inv _ _ _ _ _ Hcr) in Hi. left.
  destruct (logged_open _ _ _ _ _ _ Hl Hi Hcl) as (st & ps & ops & E & Hm & _).
  pose proof (lo_on _ _ _ Hl) as Hon. exists (reopened_over classes paths w st), m, fc, out. split; [exact E|]. split; [exact Hs|].
  split; [auto|]. split; [apply (reopened_answers _ _ _ p); auto using set_meta_inv|].
  intros Hw Hmax. apply (reopened_inv paths classes w p st m fc); auto. apply (anchored_crashed w0); auto.
Qed.

(** The last operation of [op] did not reach the log, or is torn there. *)
Lemma commit_survives (whole : Prop) paths classes op s out' w p pa m ma fc X fcX mX w' p' e w2 :
  logged_pool paths w p -> pool_inv w p m fc -> pool_inv w pa ma fc -> disks pa = disks p -> pool_map pa = pool_map p ->
  ms_replicator (p_meta pa) = ms_replicator (p_meta p) -> ms_wal_cursor (p_meta pa) = ms_wal_cursor (p_meta p) ->
  effect w pa ma fc X fcX -> spec_apply X ma = Ok mX -> spec_apply X m = Ok mX -> may_log op X ->
  fs_step s op (Err (Meta (CommitErr e))) (fs_of m fc) -> fs_step s op out' (fs_of mX fcX) ->
  meta_apply X (w, pa) = ((w', p'), Err (Meta (CommitErr e))) -> crashed w' w2 -> length classes = length paths ->
  (whole -> anchored w p m) -> (whole -> forall p3, disks p3 = disks p' -> pool_inv w' p3 mX fcX -> anchored w' p3 mX) ->
  survives whole paths classes op s w2 p' (Err (Meta (CommitErr e))).
Proof.
  intros Hl Hi Hia Ed Epm Erep Ecur Heff EXa EX Hlog Hs0 HsX E Hcr Hcl Hwm HwX.
  destruct (commit_crash whole _ classes _ _ _ _ _ _ _ _ _ _ _ _ _ Hl Hi Hia Ed Epm Erep Ecur Heff EXa EX E Hcr Hcl Hwm HwX)
    as [(p3 & m3 & fc3 & Eo & Hrev & Hcase)|Hmis]; [left|right; eauto].
  destruct Hcase as [[-> ->]|[-> ->]]; [exists p3, m, fc, (Err (Meta (CommitErr e)))|exists p3, mX, fcX, out'];
    split_and!; auto; discriminate.
Qed.

(** An operation that writes no extent, on data regions that hold appends. *)
Definition intact (op : pool_op) w p m : Prop := appends_only op = true /\ segs_sound w p /\ anchored w p m.

Lemma op_survives paths classes op w p m fc w' p' out w2 :
  is_create op = false -> logged_pool paths w p -> pool_inv w p m fc -> op_fits op p -> accepted op (fs_of m fc) ->
  run_op op (w, p) = ((w', p'), out) -> crashed w' w2 -> length classes = length paths ->
  survives (intact op w p m) paths classes op (fs_of m fc) w2 p' out.
Proof.
  intros Hc Hl Hi Hfit Hacc E Hcr Hcl. pose proof (segs_course_at _ _ _ _ _ _ _ _ Hc Hfit Hi E) as Hcourse.
  destruct Hcourse as (w1 & p1 & Hp & Hs1 & [(e & -> & -> & -> & _ & _)|(X & fc' & He & ((Hlog & Hst & Hok) & Haf) & Ea)]);
    pose proof (data_phase_inv _ _ _ _ _ _ Hi Hp) as Hi1; pose proof (logged_data_phase _ _ _ _ _ Hp Hl) as Hl1;
    assert (Ha1 : intact op w p m -> anchored w1 p1 m) by (intros (_ & _ & Ha); exact (anchored_grows _ _ _ _ _ (dp_grows _ _ _ _ Hp) Ha)).
  { apply (logged_survives _ _ _ _ _ _ _ _ m fc _ Hl1 Hi1); auto. constructor. }
  assert (HaX : intact op w p m -> forall p3 m3 fc3, disks p3 = disks p' -> spec_apply X m = Ok m3 -> pool_inv w' p3 m3 fc3 -> anchored w' p3 m3).
  { intros (Hx & Hs & Ha) p3 m3 fc3. exact (anchored_logged _ _ _ _ _ _ _ _ _ _ _ _ _ _ Hp Hi1 He Ea (Hs1 Hx Hs) Ha Haf (may_log_adds _ _ Hx Hlog)). }
  destruct (Hok Hacc) as [mX EX]. destruct (effect_outcome _ _ _ _ _ _ _ _ _ Hi1 He Ea) as (_ & _ & _ & Hout).
  destruct out as [[]|[|[e| | | |x]| | | |]|]; try contradiction.
  - destruct Hout as (m' & Em & Hi'). destruct He as (Hop & Hroom & _).
    apply (logged_survives _ _ _ _ _ _ _ _ m' fc' _ (proj1 (logged_meta_apply _ _ _ _ _ _ Hl1 Hop Hroom Ea)) Hi'); auto.
    intros Hw. exact (HaX Hw p' m' fc' eq_refl Em Hi').
  - apply (commit_survives _ _ _ _ _ (Ok tt) w1 p1 p1 m m fc X fc' mX w' _ _ _ Hl1 Hi1 Hi1); auto; [constructor|].
    intros Hw p3 Ed3. exact (HaX Hw p3 mX fc' Ed3 EX).
  - destruct Hout. congruence.
Qed.

(** A creation is two operations of the log; it can be torn between them. *)
Lemma created_meta m fc (r : InodeRecord) :
  ir_inode r = m_next m -> 0 <= m_next m < 2 ^ 64 - 1 -> ir_mode r = AppendOnly ->
  exists mX, spec_apply (CreateInode r) m = Ok mX /\
    spec_apply (CreateInode r) {| m_inodes := m_inodes m; m_dirs := m_dirs m; m_next := m_next m + 1 |} = Ok mX /\
    fs_of mX (<[m_next m := []]> fc) =
      {| fs_names := m_dirs m; fs_modes := <[m_next m := AppendOnly]> (fs_modes (fs_of m fc)); fs_data := <[m_next m := []]> fc |}.
Proof.
  intros Hid Hn Hmode. cbn [spec_apply m_inodes m_dirs m_next]. rewrite Hid. unfold as_u64. rewrite wrap_small by (split; lia).
  eexists. split; [reflexivity|]. split; [do 2 f_equal; lia|]. unfold fs_of. cbn [m_inodes m_dirs fs_modes].
  now rewrite fmap_insert, Hmode.
Qed.

Lemma create_survives paths classes parent name sch uid gid mode clock w p m fc w' p' out w9 :
  let op := OpCreate parent name sch uid gid mode clock in
  logged_pool paths w p -> pool_inv w p m fc -> op_fits op p -> run_op op (w, p) = ((w', p'), out) ->
  crashed w' w9 -> length classes = length paths -> survives (intact op w p m) paths classes op (fs_of m fc) w9 p' out.
Proof.
  intros op Hl Hi Hfit E Hcr Hcl. cbn [op run_op op_fits] in *. cbv zeta in Hfit. rewrite (proj2 (mi_refines _ _ (pi_meta _ _ _ _ Hi))) in Hfit.
  destruct Hfit as (H1 & H2 & H3 & H4 & H5 & H6). unfold io_void, io_bind, io_ret in E.
  destruct (create_file _ _ _ _ _ _ _ (w, p)) as [[w1 p1] r1] eqn:Ec.
  assert (w1 = w' /\ p1 = p' /\ out = match r1 with Ok _ => Ok tt | Err e => Err e | Panic => Panic end) as (-> & -> & ->)
    by (destruct r1; now injection E as <- <- <-). clear E.
  destruct (create_file_steps _ _ _ _ _ _ _ _ _ _ _ _ _ _ Hi H1 H2 Ec) as (w2 & p2 & r2 & E2 & Hr2).
  destruct (alloc_inv _ _ _ _ Hi H1) as (_ & Hnone & Hi1 & Ecur). destruct (wf_next _ _ (mi_wf _ _ (pi_meta _ _ _ _ Hi))) as [Hn0 _].
  set (r := new_file (m_next m) sch uid gid mode clock) in *. set (fcX := <[m_next m := []]> fc).
  assert (Hfree : fs_data (fs_of m fc) !! m_next m = None).
  { pose proof (pi_data _ _ _ _ Hi (m_next m)) as Hd. rewrite Hnone in Hd. now inversion Hd. }
  destruct (created_meta m fc r eq_refl (conj Hn0 H1) eq_refl) as (mX & EX & EXa & Efs). fold fcX in Efs.
  pose proof (Zlen_nonneg (frame (encode_op (CreateInode r)))). pose proof (Zlen_nonneg (frame (encode_op (Link parent name (m_next m))))).
  assert (Hr : wal_room (p_meta p) (Zlen (frame (encode_op (CreateInode r))))) by (unfold wal_room in *; lia).
  pose proof Hr as Hra. unfold wal_room in Hra. rewrite <- Ecur in Hra.
  pose proof (create_effect _ _ _ _ _ _ _ _ _ _ Hi1 (conj Hn0 H1) H3 H5 Hra) as He.
  destruct (effect_outcome _ _ _ _ _ _ _ _ _ Hi1 He E2) as (_ & Hg2 & _ & Hout).
  assert (Ha2 : forall p3, disks p3 = disks p2 -> intact op w p m -> anchored w2 p3 mX).
  { intros p3 Ed3 (_ & _ & Ha). apply (anchored_plain (CreateInode r) w p m); auto. unfold grows in *. now rewrite Ed3. }
  destruct r2 as [[]|[|[e| | | |x]| | | |]|]; try contradiction; [| |destruct Hout; discriminate].
  2: { destruct Hr2 as [[= -> ->] ->].
    eapply (commit_survives _ paths classes op _ (Err (Meta (CommitErr e))) w p (alloc_inode p).1 m _ fc (CreateInode r) fcX mX);
      [exact Hl|exact Hi|exact Hi1|reflexivity..|exact Ecur|exact He|exact EXa|exact EX|now eexists|constructor| |exact E2|exact Hcr|exact Hcl|now intros (_ & _ & Ha)|auto].
    rewrite Efs. now apply (fs_create_orphan (fs_of m fc)). }
  destruct Hr2 as (r3 & E3 & ->). pose proof (create_first w p m fc r w2 p2 Hi eq_refl H1 E2) as E2'.
  destruct (logged_meta_apply _ _ _ _ _ _ Hl H3 Hr E2') as [Hl2 Hcu2]. destruct Hout as (m2 & Em2 & Hi2).
  unfold fcX in *. assert (m2 = mX) as -> by (pose proof (eq_trans (eq_sym Em2) EXa) as [= H7]; exact H7).
  assert (Hrl : wal_room (p_meta p2) (Zlen (frame (encode_op (Link parent name (m_next m)))))) by (unfold wal_room in *; rewrite Hcu2; lia).
  pose proof (link_effect _ _ _ _ parent name (m_next m) Hi2 H4 Hrl) as He3.
  destruct (effect_outcome _ _ _ _ _ _ _ _ _ Hi2 He3 E3) as (_ & Hg3 & _ & Hout3).
  assert (Ha3 : forall p3 m3, disks p3 = disks p' -> spec_apply (Link parent name (m_next m)) mX = Ok m3 -> intact op w p m -> anchored w' p3 m3).
  { intros p3 m3 Ed3 Em3 Hw. apply (anchored_plain (Link parent name (m_next m)) w2 p2 mX); auto. unfold grows in *. now rewrite Ed3. }
  assert (Hstep : forall m3, spec_apply (Link parent name (m_next m)) mX = Ok m3 ->
    fs_step (fs_of m fc) op (Ok tt) (fs_of m3 (<[m_next m := []]> fc))).
  { intros m3 [= <-]. unfold fs_of at 2. cbn [m_inodes m_dirs]. injection Efs as -> ->. now apply (fs_create (fs_of m fc)). }
  destruct r3 as [[]|[|[e| | | |x]| | | |]|]; try contradiction; [| |destruct Hout3; discriminate].
  - destruct Hout3 as (m3 & Em3 & Hi3).
    apply (logged_survives _ _ _ _ _ _ _ _ m3 (<[m_next m := []]> fc) _ (proj1 (logged_meta_apply _ _ _ _ _ _ Hl2 H4 Hrl E3)) Hi3); auto.
  - assert (exists m3, spec_apply (Link parent name (m_next m)) mX = Ok m3) as [m3 Em3] by (cbn; eauto).
    eapply (commit_survives _ paths classes op _ (Ok tt) w2 p2 p2 mX mX _ _ _ m3 _ _ _ _ Hl2 Hi2 Hi2);
      [reflexivity..|exact He3|exact Em3|exact Em3|now split| |exact (Hstep _ Em3)|exact E3|exact Hcr|exact Hcl|auto|intros Hw p3 Ed3 _; exact (Ha3 p3 m3 Ed3 Em3 Hw)].
    rewrite Efs. now apply (fs_create_orphan (fs_of m fc)).
Qed.

Lemma run_survives paths classes op w p m fc w' p' out w2 :
  logged_pool paths w p -> pool_inv w p m fc -> op_fits op p -> accepted op (fs_of m fc) ->
  run_op op (w, p) = ((w', p'), out) -> crashed w' w2 -> length classes = length paths ->
  survives (intact op w p m) paths classes op (fs_of m fc) w2 p' out.
Proof.
  intros Hl Hi Hfit Hacc E Hcr Hcl. destruct (is_create op) eqn:Hc; [|now apply (op_survives paths classes op w p m fc w')].
  destruct op; try discriminate. now apply (create_survives paths classes _ _ _ _ _ _ _ w p m fc w').
Qed.

(** ** Histories *)

(** Any operation that does not fail in the log, conversions and writes
    included, changes in which devices fail and when, and the system writing
    back or dropping any of what has not been synced. *)
Inductive clean_step : os_world * Pool DB -> os_world * Pool DB -> Prop :=
  | clean_op op w p wp' out : log_clean op out -> op_fits op p -> run_op op (w, p) = (wp', out) -> clean_step (w, p) wp'
  | clean_fault w p faults : clean_step (w, p) (with_faults faults w, p)
  | clean_crashed w p w' : crashed w w' -> clean_step (w, p) (w', p).

Lemma clean_run paths wp wp' m fc :
  rtc clean_step wp wp' -> logged_pool paths wp.1 wp.2 -> pool_inv wp.1 wp.2 m fc ->
  exists m' fc', rtc fs_any (fs_of m fc) (fs_of m' fc') /\ logged_pool paths wp'.1 wp'.2 /\ pool_inv wp'.1 wp'.2 m' fc'.
Proof.
  intros Hr. revert m fc. induction Hr as [|x y z Hs _ IH]; intros m fc Hl Hi; [exists m, fc; split; [apply rtc_refl|now split]|].
  destruct Hs as [op w p [w1 p1] out Hc Hfit E|w p faults|w p w1 Hcr]; cbn [fst snd] in *.
  - destruct (run_op_refines _ _ _ _ _ _ _ _ Hi Hfit E) as (m1 & fc1 & Hi1 & Hst).
    destruct (IH m1 fc1) as (m' & fc' & Hs' & Hl' & Hi'); [eapply logged_op; eauto|exact Hi1|].
    exists m', fc'. split; [|now split]. apply (rtc_l _ _ (fs_of m1 fc1)); [now exists op, out|exact Hs'].
  - apply IH; [now apply faults_logged|now apply faults_inv].
  - apply IH; [now apply (crashed_logged _ w)|now apply (crashed_inv w)].
Qed.

(** A history of a pool: operations that write no extent and restarts, then any
    operations; none of them fails in the log. *)
Definition history (paths : list path) (classes : list DiskClass) (clock : Z) w p : Prop :=
  exists w0 w1 p1 w2 p2, format_with_classes paths classes clock w0 = (w1, Ok p1) /\ Zlen paths < u32_max /\ clock < 2 ^ 64 /\
    rtc (log_step paths) (w1, p1) (w2, p2) /\ rtc clean_step (w2, p2) (w, p).

Lemma history_logged paths classes clock w p :
  history paths classes clock w p ->
  exists m fc, rtc fs_any fs_init (fs_of m fc) /\ logged_pool paths w p /\ pool_inv w p m fc.
Proof.
  intros (w0 & w1 & p1 & w2 & p2 & E & Hmax & Hclk & H1 & H2).
  destruct (log_run_sound paths _ _ fs_init Hmax H1) as (s & Hs & m & fc & Hi & Hso & ->).
  { exists (root_meta (length paths) clock), {[ROOT_INODE := []]}.
    split; [exact (format_ok _ _ _ _ _ _ E Hmax Hclk)|]. split; [exact (format_sound _ _ _ _ _ _ E Hmax Hclk)|reflexivity]. }
  destruct (clean_run paths _ _ m fc H2 (so_logged _ _ _ _ Hso) Hi) as (m' & fc' & Hs' & Hl & Hi').
  exists m', fc'. split; [now transitivity (fs_of m fc)|now split].
Qed.




(** ** The magic number alone *)

Lemma commit_four (r : MetaReplicator (Arc FileDisk)) bs off w :
  w_fault w !! fd_path (deref (mr_primary_disk r)) = Some 4 -> 4 < Zlen bs -> off + Zlen bs < 2 ^ 63 ->
  exists w', commit r bs off w = (w', Err (PrimaryUnavailable OtherIo)) /\
    cut_at (contents (mr_primary_disk r) w) (contents (mr_primary_disk r) w') off bs 4.
Proof.
  intros Hf Hl Hlt. unfold commit, write_and_sync, io_bind, io_map_err.
  change (write_at (mr_primary_disk r) off bs w) with (FileDisk_write_at (deref (mr_primary_disk r)) off bs w). unfold FileDisk_write_at.
  rewrite decide_False by (intros ->; discriminate). destruct (Z.ltb_spec (2 ^ 63 - 1) (off + Zlen bs)); [lia|].
  unfold fault_budget. rewrite Hf. replace (Z.min (Z.max 0 4) (Zlen bs)) with 4 by lia.
  destruct (Z.eqb_spec 4 (Zlen bs)); [lia|]. eexists. split; [reflexivity|]. unfold cut_at.
  change (contents (mr_primary_disk r)) with (fun w => file_at w (fd_path (deref (mr_primary_disk r)))). cbv beta.
  now rewrite file_at_insert, decide_True.
Qed.

Lemma meta_apply_four w p m X w' p' out :
  meta_inv (p_meta p) m -> wf_op X -> wal_room (p_meta p) (Zlen (frame (encode_op X))) ->
  let d := mr_primary_disk (ms_replicator (p_meta p)) in
  w_fault w !! fd_path (deref d) = Some 4 -> meta_apply X (w, p) = ((w', p'), out) ->
  (exists e, out = Err (Meta (CommitErr e))) /\ p' = p /\
  cut_at (contents d w) (contents d w') (ms_wal_cursor (p_meta p)) (frame (encode_op X)) 4.
Proof.
  intros [Hr Hb [Hc0 Hc1] Hw] Hop Hroom d Hf E. unfold meta_apply in E. cbn [fst snd] in E.
  destruct (apply X (w, p_meta p)) as [[w1 s1] r1] eqn:Ea. injection E as <- <- <-. unfold wal_room in Hroom.
  pose proof (Zlen_frame (encode_op X)) as Hfr. pose proof (Zlen_nonneg (encode_op X)).
  assert (WAL_CAPACITY_BYTES < 2 ^ 32) by reflexivity.
  assert (H64 : ms_wal_cursor (p_meta p) + Zlen (frame (encode_op X)) < 2 ^ 64) by lia.
  destruct (apply_stages _ _ _ _ _ _ Hb Hc0 H64 Ea) as (rc & Ec & Hrc).
  assert (H4 : 4 < Zlen (frame (encode_op X))) by lia. assert (H63 : ms_wal_cursor (p_meta p) + Zlen (frame (encode_op X)) < 2 ^ 63) by lia.
  destruct (commit_four _ _ _ _ Hf H4 H63) as (w2 & Ec' & Hcut). rewrite Ec in Ec'. injection Ec' as -> ->.
  destruct Hrc as [-> ->]. split; [now eexists|]. split; [now destruct p|exact Hcut].
Qed.

End Crash.
