(* ===== verification/PoolRuns.v ===== *)
(** * Runs of the pool

    A pool of two disks that goes through every operation, and runs that show
    where the pool loses data. *)

From Stdlib Require Import ZArith Lia.
From stdpp Require Import relations.
From S2P Require Import Prelude Proto KPlacement Disk Segment Wal Codec Replicator Redb Store.
From S2P Require Import StoreSpec StoreRefine StoreRecovery StoreReads CorePlacement Pool PoolSpec PoolRefine PoolFormat PoolLife PoolOpen PoolLogged PoolSound PoolReopen.

#[local] Existing Instance hash_iter_by_key.

Definition no_world : os_world := {| w_files := ∅; w_durable := ∅; w_fault := ∅ |}.
Definition demo_paths : list path := [path_a; path_b].
Definition demo_classes : list DiskClass := [Hdd; Ssd].
Definition two_copies : RedundancyScheme := Replicated [AnyOfClass None; AnyOfClass None].

(** A pool, or the store of nothing if it could not be made. *)
Definition dummy_pool : Pool tables :=
  {| pool_map := {| pm_epoch := 0; pm_disks := ∅ |}; disks := ∅;
     p_meta := {| ms_replicator := {| mr_group := demo_group; mr_primary_disk := new_disk []; mr_backup_disk := None |};
                  ms_wal_base_offset := 0; ms_wal_cursor := 0; ms_db := no_tables; ms_next_inode := 1 |} |}.
Definition started_or_dummy (r : os_world * result PoolError (Pool tables)) : os_world * Pool tables :=
  (r.1, get_ok dummy_pool r.2).

Definition demo_pool : os_world * Pool tables :=
  started_or_dummy (format_with_classes demo_paths demo_classes 1000 no_world).

(** A file is made, appended to, converted while the tail still grows, and
    written to; then the second disk dies in the middle of a write. *)
Definition demo_ops : list pool_op :=
  [OpCreate 1 [x66] two_copies 0 0 0x81a4 1001; OpAppend 2 [x61; x62; x63]; OpBeginConvert 2;
   OpAppend 2 [x64]; OpCompleteConvert 2; OpWrite 2 6 [x7a]; OpWrite 2 1 [x42]].

Fixpoint run_ops (ops : list pool_op) (wp : os_world * Pool tables) : os_world * Pool tables :=
  match ops with
  | [] => wp
  | op :: ops' => run_ops ops' (run_op op wp).1
  end.

(** Every operation fits where it runs. *)
Fixpoint ops_fit (ops : list pool_op) (wp : os_world * Pool tables) : bool :=
  match ops with
  | [] => true
  | op :: ops' => bool_decide (op_fits op wp.2) && ops_fit ops' (run_op op wp).1
  end.

Lemma run_ops_steps ops wp : ops_fit ops wp = true -> rtc pool_step wp (run_ops ops wp).
Proof.
  revert wp. induction ops as [|op ops IH]; intros [w p] Hf; [apply rtc_refl|]. cbn [ops_fit run_ops] in *.
  apply andb_true_iff in Hf as [Hf Hr]. apply bool_decide_eq_true in Hf. eapply rtc_l; [|now apply IH].
  econstructor; [exact Hf|apply surjective_pairing].
Qed.

Definition with_fault (faults : gmap path Z) (wp : os_world * Pool tables) : os_world * Pool tables :=
  ({| w_files := w_files wp.1; w_durable := w_durable wp.1; w_fault := faults |}, wp.2).

Definition demo_run : os_world * Pool tables :=
  run_ops [OpCreate 1 [x67] two_copies 0 0 0x81a4 1002; OpAppend 3 [x31]]
    (with_fault {[path_b := 10]} (run_ops demo_ops demo_pool)).

Lemma demo_run_steps : rtc pool_step demo_pool demo_run.
Proof.
  transitivity (run_ops demo_ops demo_pool); [apply run_ops_steps; vm_compute; reflexivity|].
  eapply rtc_l; [|apply run_ops_steps; vm_compute; reflexivity].
  destruct (run_ops demo_ops demo_pool) as [w p]. apply step_fault.
Qed.


(** The file's content, and its copies: the extent of the last write is on
    both disks. *)
Example demo_content :
  read demo_run.2 2 0 100 demo_run.1 = Ok [x61; x42; x63; x64; x00; x00; x7a] /\
  lookup demo_run.2 1 [x66] = Ok (Some 2).
Proof. vm_compute. auto. Qed.

(** ** Reopening a pool that has only been appended to *)

Definition log_ops : list pool_op :=
  [OpCreate 1 [x66] two_copies 0 0 0x81a4 1001; OpAppend 2 [x61; x62; x63]; OpBeginConvert 2; OpAppend 2 [x64]].
(** The second disk fails in the middle of an append, and comes back. *)
Definition log_faulty : os_world * Pool tables := with_fault {[path_b := 29]} (run_ops log_ops demo_pool).
Definition log_torn : os_world * Pool tables := run_ops [OpAppend 2 [x78; x79]] log_faulty.
Definition log_healed : os_world * Pool tables := with_fault ∅ log_torn.
Definition log_end : os_world * Pool tables := run_ops [OpSetRedundancy 2 (Replicated [AnyOfClass None])] log_healed.
(** Power is lost, and with it what the failed append wrote. *)
Definition log_dark : os_world := power_loss log_end.1.
Definition log_reopened : os_world * Pool tables :=
  started_or_dummy (open_with_classes demo_paths demo_classes log_dark).
Definition log_on_again : os_world * Pool tables := run_ops [OpAppend 2 [x65]] log_reopened.

Example log_torn_fails : is_ok (run_op (OpAppend 2 [x78; x79]) log_faulty).2 = false.
Proof. vm_compute. reflexivity. Qed.

Definition log_okb (op : pool_op) (out : result PoolError unit) : bool :=
  match op with
  | OpCompleteConvert _ | OpWrite _ _ _ => false
  | OpAppend _ _ => match out with Err (Meta _) | Panic => false | _ => true end
  | _ => is_ok out
  end.
Lemma log_okb_outcome op out : log_okb op out = true -> log_outcome op out.
Proof. destruct op, out as [[]|[]|]; now simpl. Qed.

(** Every operation fits where it runs, writes no extent and does not fail in
    the log. *)
Fixpoint ops_log (ops : list pool_op) (wp : os_world * Pool tables) : bool :=
  match ops with
  | [] => true
  | op :: ops' =>
      bool_decide (op_fits op wp.2) && (log_okb op (run_op op wp).2 && ops_log ops' (run_op op wp).1)
  end.

Lemma ops_log_steps ops wp : ops_log ops wp = true -> rtc (log_step demo_paths) wp (run_ops ops wp).
Proof.
  revert wp. induction ops as [|op ops IH]; intros [w p] Hf; [apply rtc_refl|]. cbn [ops_log run_ops snd] in *.
  rewrite !andb_true_iff in Hf. destruct Hf as (Hf & Ho & Hr). apply bool_decide_eq_true in Hf.
  eapply rtc_l; [|exact (IH _ Hr)]. destruct (run_op op (w, p)) as [wp1 out] eqn:E.
  exact (log_op _ op _ _ _ out (log_okb_outcome _ _ Ho) Hf E).
Qed.

(** An opening that succeeds, as a run. *)
Lemma reopened_runs paths classes w :
  is_ok (open_with_classes (DB := tables) paths classes w).2 = true ->
  let wp := started_or_dummy (open_with_classes paths classes w) in
  open_with_classes paths classes w = (w, Ok wp.2) /\ wp.1 = w.
Proof.
  intros Hok. cbv zeta. unfold started_or_dummy. destruct (open_with_classes paths classes w) as [w' r] eqn:E.
  pose proof (open_world _ _ _ _ _ E) as ->. destruct r; try discriminate. auto.
Qed.
(** Both images have the same files. *)
Lemma power_loss_demo w :
  bool_decide (dom (w_durable w) = dom (w_files w)) = true -> crashed w (power_loss w).
Proof. intros E. apply power_loss_crashed. now apply bool_decide_eq_true in E. Qed.

Lemma log_dark_crashed : crashed log_end.1 log_dark.
Proof. apply power_loss_demo. vm_compute. reflexivity. Qed.

Lemma log_reopened_ok : is_ok (open_with_classes (DB := tables) demo_paths demo_classes log_dark).2 = true.
Proof. vm_compute. reflexivity. Qed.

Lemma log_reopen_step : log_step demo_paths log_end log_reopened.
Proof.
  destruct (reopened_runs _ _ _ log_reopened_ok) as [Ho Hw].
  pose proof (log_reopen demo_paths demo_classes log_end.1 log_end.2 log_dark log_reopened.2 eq_refl log_dark_crashed Ho) as H.
  rewrite <- (surjective_pairing log_end) in H. rewrite <- Hw in H. unfold log_reopened.
  rewrite (surjective_pairing (started_or_dummy _)). exact H.
Qed.

Lemma log_fault_step faults wp : log_step demo_paths wp (with_fault faults wp).
Proof. destruct wp as [w p]. apply log_fault. Qed.

Lemma log_end_steps : rtc (log_step demo_paths) demo_pool log_end.
Proof.
  transitivity (run_ops log_ops demo_pool); [apply ops_log_steps; vm_compute; reflexivity|].
  eapply rtc_l; [exact (log_fault_step {[path_b := 29]} _)|].
  transitivity log_torn; [apply ops_log_steps; vm_compute; reflexivity|].
  eapply rtc_l; [exact (log_fault_step ∅ _)|]. apply ops_log_steps. vm_compute. reflexivity.
Qed.
Lemma log_on_again_steps : rtc (log_step demo_paths) log_reopened log_on_again.
Proof. unfold log_on_again. apply ops_log_steps. vm_compute. reflexivity. Qed.

Lemma log_steps : rtc (log_step demo_paths) demo_pool log_on_again.
Proof.
  etransitivity; [exact log_end_steps|]. exact (rtc_l _ _ _ _ log_reopen_step log_on_again_steps).
Qed.

(** What the reopened pool shows. *)
Example reopened_content :
  read log_on_again.2 2 0 100 log_on_again.1 = Ok [x61; x62; x63; x64; x65].
Proof. vm_compute. reflexivity. Qed.

(** ** Reopening a pool that holds extents *)

Definition reopened : os_world * Pool tables :=
  started_or_dummy (open_with_classes demo_paths demo_classes (run_ops demo_ops demo_pool).1).
Definition after_reopening : os_world * Pool tables :=
  run_ops [OpCreate 1 [x67] two_copies 0 0 0x81a4 1002; OpAppend 3 [x31; x31; x31; x31]] reopened.


(** ** A file with no replicas *)

Definition no_copies : os_world * Pool tables :=
  run_ops [OpCreate 1 [x66] two_copies 0 0 0x81a4 1001; OpAppend 2 [x61]; OpSetRedundancy 2 (Replicated [])] demo_pool.

