(* ===== verification/PoolCrashRuns.v ===== *)
(** * Crashes of a small pool

    The theorems of [PoolCrash] at a pool of two disks that has been through
    every operation, the devices of which die at a byte chosen. *)

From Stdlib Require Import ZArith Lia.
From stdpp Require Import relations.
From S2P Require Import Prelude Proto KPlacement Disk Segment Wal Codec Replicator Redb Store.
From S2P Require Import StoreSpec StoreRefine StoreRecovery StoreTorn StoreReads CorePlacement Pool PoolSpec PoolRefine PoolFormat PoolLife PoolOpen PoolLogged PoolSound PoolReopen PoolCrash PoolRuns.

#[local] Existing Instance hash_iter_by_key.

Definition cleanb (op : pool_op) (out : result PoolError unit) : bool :=
  if is_create op then is_ok out else match out with Err (Meta _) | Panic => false | _ => true end.
Lemma cleanb_clean op out : cleanb op out = true -> log_clean op out.
Proof. unfold cleanb, log_clean. destruct (is_create op), out as [[]|[]|]; now simpl. Qed.

(** Every operation fits where it runs and does not fail in the log. *)
Fixpoint ops_clean (ops : list pool_op) (wp : os_world * Pool tables) : bool :=
  match ops with
  | [] => true
  | op :: ops' =>
      bool_decide (op_fits op wp.2) && (cleanb op (run_op op wp).2 && ops_clean ops' (run_op op wp).1)
  end.

Lemma ops_clean_steps ops wp : ops_clean ops wp = true -> rtc clean_step wp (run_ops ops wp).
Proof.
  revert wp. induction ops as [|op ops IH]; intros [w p] Hf; [apply rtc_refl|]. cbn [ops_clean run_ops snd] in *.
  rewrite !andb_true_iff in Hf. destruct Hf as (Hf & Ho & Hr). apply bool_decide_eq_true in Hf.
  eapply rtc_l; [|exact (IH _ Hr)]. destruct (run_op op (w, p)) as [wp1 out] eqn:E.
  exact (clean_op op _ _ _ out (cleanb_clean _ _ Ho) Hf E).
Qed.

Lemma clean_fault_step faults wp : clean_step wp (with_fault faults wp).
Proof. destruct wp as [w p]. apply clean_fault. Qed.

(** The pool with a converted file, and devices about to die. *)
Definition grown_pool : os_world * Pool tables := run_ops demo_ops demo_pool.

Lemma demo_format : format_with_classes demo_paths demo_classes 1000 no_world = (demo_pool.1, Ok demo_pool.2).
Proof. vm_compute. reflexivity. Qed.

Lemma grown_history faults :
  history demo_paths demo_classes 1000 (with_fault faults grown_pool).1 (with_fault faults grown_pool).2.
Proof.
  exists no_world, demo_pool.1, demo_pool.2, demo_pool.1, demo_pool.2. split; [exact demo_format|].
  split; [reflexivity|]. split; [reflexivity|]. split; [apply rtc_refl|]. rewrite <- !surjective_pairing.
  eapply rtc_r; [|apply clean_fault_step]. unfold grown_pool. apply ops_clean_steps. vm_compute. reflexivity.
Qed.


(** The first disk takes the write's data, seven bytes, and sixty more: its
    frame in the log is cut short. *)
Definition dying_pool : os_world * Pool tables := with_fault {[path_a := 67]} grown_pool.
Definition dying_op : pool_op := OpWrite 2 0 [x51].
Definition dead_pool : os_world * Pool tables := (run_op dying_op dying_pool).1.

(** The write fails; the pool opened then has the old content, whether what was
    left of the frame is lost with the power or not. *)
Definition dark_world : os_world := power_loss dead_pool.1.

Example dead_content :
  is_ok (run_op dying_op dying_pool).2 = false /\
  let after w := let reborn := started_or_dummy (open_with_classes demo_paths demo_classes w) in read reborn.2 2 0 100 reborn.1 in
  after dead_pool.1 = Ok [x61; x42; x63; x64; x00; x00; x7a] /\ after dark_world = after dead_pool.1.
Proof. vm_compute. auto. Qed.


(** A pool with appends only; the second disk dies in the middle of a record. *)
Definition fading_pool : os_world * Pool tables := with_fault {[path_b := 30]} log_end.
Definition fading_op : pool_op := OpAppend 2 [x65; x66].
Definition faded_pool : os_world * Pool tables := (run_op fading_op fading_pool).1.
(** The power goes too, and the first disk's copy, which was synced, stays. *)
Definition faded_dark : os_world := power_loss faded_pool.1.


(** ** Shown, and not durable

    The first disk takes all of an unlink's frame, but not the sync: the unlink
    fails.  The device comes back, and the daemon is started again.  The opening
    replays the frame, which is in the cache only, and does not sync the log it
    has read: the file is gone.  Then the power is lost before another
    operation has synced the log, and the file is back. *)
Definition unsynced_op : pool_op := OpUnlink 1 [x66].
Definition unsynced_pool : os_world * Pool tables :=
  run_ops [unsynced_op] (with_fault {[path_a := Zlen (frame (encode_op (Unlink 1 [x66])))]} log_end).
Definition replayed_pool : os_world * Pool tables :=
  started_or_dummy (open_with_classes demo_paths demo_classes (with_faults ∅ unsynced_pool.1)).
Definition relapsed_pool : os_world * Pool tables :=
  started_or_dummy (open_with_classes demo_paths demo_classes (power_loss replayed_pool.1)).

Example replayed_not_durable :
  is_ok (run_op unsynced_op (with_fault {[path_a := Zlen (frame (encode_op (Unlink 1 [x66])))]} log_end)).2 = false /\
  lookup unsynced_pool.2 1 [x66] = Ok (Some 2) /\ lookup replayed_pool.2 1 [x66] = Ok None /\
  lookup relapsed_pool.2 1 [x66] = Ok (Some 2).
Proof. vm_compute. auto. Qed.

(** ** A pool that cannot be opened again *)

(** The first disk takes four bytes more. *)
Definition doomed_pool : os_world * Pool tables := with_fault {[path_a := 4]} grown_pool.
Definition doomed_op : MetaOp := Unlink 1 [x66].
Definition lost_pool : os_world * Pool tables := (meta_apply doomed_op doomed_pool).1.

