(* ===== verification/PoolLive.v ===== *)
(** * Healthy pools make progress

    On devices that do not fail, with room on the disks and in the log, and
    with enough disks for the policies, every operation succeeds. *)

From Stdlib Require Import ZArith Lia.
From stdpp Require Import relations.
From S2P Require Import Prelude Proto KWritePath KPlacement Crc32c Disk Framing Segment Wal Codec.
From S2P Require Import Replicator Redb Store StoreSpec StoreRefine StoreRecovery StoreReads CorePlacement.
From S2P Require Import Pool PoolSpec PoolRefine PoolFormat PoolLife PoolRuns.

#[local] Arguments contents : simpl never.

(** No device is failing. *)
Definition no_faults (w : os_world) : Prop := w_fault w = ∅.

(** ** Writes *)

Lemma write_live (d : Arc FileDisk) off bs w :
  no_faults w -> off + Zlen bs < 2 ^ 63 -> exists w', write_at d off bs w = (w', Ok tt) /\ no_faults w'.
Proof.
  intros Hn Hl. cbn [write_at Arc_Disk FileDisk_Disk]. unfold FileDisk_write_at.
  case_decide; [eauto|]. destruct (Z.ltb_spec (2 ^ 63 - 1) (off + Zlen bs)); [lia|].
  unfold fault_budget. rewrite Hn, lookup_empty, Z.eqb_refl. eexists. split; [reflexivity|].
  unfold no_faults. cbn [w_fault]. now rewrite alter_empty.
Qed.

Lemma sync_live (d : Arc FileDisk) w : no_faults w -> exists w', sync d w = (w', Ok tt) /\ no_faults w'.
Proof. intros Hn. cbn [sync Arc_Disk FileDisk_Disk]. unfold FileDisk_sync. rewrite Hn, lookup_empty. eexists. split; [reflexivity|exact Hn]. Qed.

Lemma write_and_sync_live (d : Arc FileDisk) off bs w :
  no_faults w -> off + Zlen bs < 2 ^ 63 -> exists w', write_and_sync d off bs w = (w', Ok tt) /\ no_faults w'.
Proof.
  intros Hn Hl. destruct (write_live d off bs w Hn Hl) as (w1 & E & Hn1).
  destruct (sync_live d w1 Hn1) as (w' & E2 & Hn'). exists w'. split; [|exact Hn'].
  unfold write_and_sync, io_bind. now rewrite E, E2.
Qed.

Lemma commit_live (r : MetaReplicator (Arc FileDisk)) bs off w :
  no_faults w -> off + Zlen bs < 2 ^ 63 -> exists w', commit r bs off w = (w', Ok tt) /\ no_faults w'.
Proof.
  intros Hn Hl. destruct (write_and_sync_live (mr_primary_disk r) off bs w Hn Hl) as (w1 & E1 & Hn1).
  unfold commit, io_bind, io_map_err. rewrite E1. cbn [map_err]. destruct (mr_backup_disk r) as [b|]; [|eauto].
  destruct (write_and_sync_live b off bs w1 Hn1 Hl) as (w2 & E2 & Hn2). exists w2. now rewrite E2.
Qed.

(** ** Placement *)

#[export] Instance slot_matches_dec slot id e : Decision (slot_matches slot id e).
Proof. unfold slot_matches. destruct slot as [[c|]|pid]; apply _. Defined.

(** The disks of the pool that a slot accepts. *)
Definition choices (pool : PoolMap) (slot : ReplicaSlot) : gset Z :=
  dom (filter (fun '(id, e) => role_data (de_roles e) = true /\ slot_matches slot id e) (pm_disks pool)).

(** Every slot accepts more disks than there are slots before it. *)
Definition enough_disks (pool : PoolMap) (slots : list ReplicaSlot) : Prop :=
  (length slots <= MAX_SELECT)%nat /\
  forall i slot, slots !! i = Some slot -> (i < size (choices pool slot))%nat.

Section Live.
Context {DB : Type} `{!Redb DB} `{!RedbLaws DB} `{!RedbReliable DB} `{HI : !HashIter}.
Implicit Types (w : os_world) (p : Pool DB).

Lemma place_live p slots key :
  disks_ok p -> Forall wf_slot slots -> enough_disks (pool_map p) slots -> exists ids, place p (Replicated slots) key = Ok ids.
Proof.
  intros Hok Hw [Hmax Hk]. unfold place. rewrite placement_runs by apply (do_map _ Hok). cbn [map_err result_bind].
  destruct (placement_spec (pool_map p) _ key (fun e => role_data (de_roles e)) (do_map _ Hok) Hw) as [Hl Hs].
  set (l := placement _ _ _ _) in *.
  assert (Hall : forall i, (i < length slots)%nat -> exists id, l !! i = Some (Some id)).
  { intros i Hi. destruct (lookup_lt_is_Some_2 slots i Hi) as [slot Eslot]. destruct (Hs i slot Eslot) as (o & Eo & Ho); [lia|].
    destruct o as [id|]; [eauto|exfalso].
    assert (Hincl : Some <$> elements (choices (pool_map p) slot) ⊆ take i l).
    { intros x (id & -> & Hid)%list_elem_of_fmap. apply elem_of_elements in Hid. unfold choices in Hid.
      apply elem_of_dom in Hid as [e He]. apply map_lookup_filter_Some in He as [He [Hrole Hm]]. exact (Ho id e He Hrole Hm). }
    assert (Hnd : NoDup (Some <$> elements (choices (pool_map p) slot))) by (apply NoDup_fmap_2; [apply _|apply NoDup_elements]).
    pose proof (submseteq_length _ _ (NoDup_submseteq _ _ Hnd Hincl)) as Hlen.
    assert (Hsz : size (choices (pool_map p) slot) = length (elements (choices (pool_map p) slot))) by reflexivity.
    rewrite length_fmap, length_take in Hlen. pose proof (Hk _ _ Eslot). unfold DiskId, Uuid in *. lia. }
  destruct (mapM id l) as [ids|] eqn:E; [exists ids; unfold DiskId, Uuid in *; now rewrite E|exfalso].
  apply mapM_None in E as (x & Hx & Hn)%Exists_exists. apply list_elem_of_lookup in Hx as [i Hi].
  pose proof (lookup_lt_Some _ _ _ Hi). destruct (Hall i ltac:(lia)) as [d Hd].
  rewrite Hd in Hi. injection Hi as <-. discriminate Hn.
Qed.

(** ** The write loops *)

(** A round of [f] succeeds on every disk whose handle has [room], and leaves
    the other handles as they are. *)
Definition live_round (room : DiskHandle -> Prop) (f : Z -> io (os_world * Pool DB) PoolError (Z * Z)) : Prop :=
  forall id h w p, no_faults w -> disks_ok p -> disks p !! id = Some h -> room h ->
  exists w' p' r, f id (w, p) = ((w', p'), Ok r) /\ no_faults w' /\ disks_ok p' /\ forall i, i <> id -> disks p' !! i = disks p !! i.

Lemma append_replica_live inode seq payload :
  live_round (fun h => dh_cursor h + 28 + Zlen payload <= SEGMENT_SIZE_BYTES) (append_replica (Record_new inode seq payload)).
Proof.
  intros id h w p Hn Hok Eh Hroom. destruct (base_cursor _ _ _ Hok Eh) as [H0 Hb]. set (record := Record_new inode seq payload).
  pose proof (do_cursors _ Hok _ _ Eh) as [_ H63]. pose proof (Zlen_nonneg (encode record)).
  assert (Hb63 : SEGMENT_BASE_OFFSET + SEGMENT_SIZE_BYTES < 2 ^ 63) by reflexivity.
  assert (Hl : Zlen (encode record) = 28 + Zlen payload) by apply Zlen_encode.
  destruct (write_live (dh_disk h) (SEGMENT_BASE_OFFSET + dh_cursor h) (encode record) w Hn ltac:(lia)) as (w1 & E1 & Hn1).
  destruct (sync_live (dh_disk h) w1 Hn1) as (w2 & E2 & Hn2).
  assert (E : exists p' r, append_replica record id (w, p) = ((w2, p'), Ok r) /\ forall i, i <> id -> disks p' !! i = disks p !! i).
  { unfold append_replica, io_bind, io_self, io_lift, io_set_self, io_ret. cbn [fst snd]. rewrite Eh. cbn [ok_or].
    unfold Segment.append, SegmentWriter_sync, io_bind, io_self, io_world, io_set_self, io_ret, Segment.remaining.
    cbn [fst snd SegmentWriter_resume sw_disk sw_base_offset sw_cursor].
    destruct (Z.ltb_spec (Z.max 0 (SEGMENT_SIZE_BYTES - dh_cursor h)) (Zlen (encode record))); [lia|].
    cbn [fst snd]. rewrite Hb, E1. cbn [fst snd sw_disk]. rewrite E2. cbn [fst snd map_err].
    eexists _, _. split; [reflexivity|]. intros i Hi. cbn [set_handle disks]. now rewrite lookup_insert_ne. }
  destruct E as (p' & r & E & Hkeep). exists w2, p', r. split; [exact E|]. split; [exact Hn2|]. split; [|exact Hkeep].
  destruct (append_replica_round _ _ _ _ _ _ _ _ _ Hok (mk_is_Some _ _ Eh) E) as [[Hp _] _]. exact (dp_disks _ _ _ _ Hp).
Qed.

Lemma extent_replica_live content :
  content <> [] -> live_round (fun h => SEGMENT_BASE_OFFSET + dh_cursor h + Zlen content < 2 ^ 63) (extent_replica content).
Proof.
  intros Hne id h w p Hn Hok Eh Hroom. destruct (base_cursor _ _ _ Hok Eh) as [H0 Hb].
  destruct (write_live (dh_disk h) (SEGMENT_BASE_OFFSET + dh_cursor h) content w Hn Hroom) as (w1 & E1 & Hn1).
  destruct (sync_live (dh_disk h) w1 Hn1) as (w2 & E2 & Hn2).
  assert (E : exists p' r, extent_replica content id (w, p) = ((w2, p'), Ok r) /\ forall i, i <> id -> disks p' !! i = disks p !! i).
  { unfold extent_replica, io_bind, io_self, io_lift, io_world, io_map_err, io_set_self, io_ret. cbn [fst snd]. rewrite Eh. cbn [ok_or].
    rewrite Hb, E1. cbn [fst snd map_err]. rewrite E2. cbn [fst snd map_err].
    eexists _, _. split; [reflexivity|]. intros i Hi. cbn [set_handle disks]. now rewrite lookup_insert_ne. }
  destruct E as (p' & r & E & Hkeep). exists w2, p', r. split; [exact E|]. split; [exact Hn2|]. split; [|exact Hkeep].
  destruct (extent_replica_round _ _ _ _ _ _ _ Hok (mk_is_Some _ _ Eh) Hne E) as [Hp _]. exact (dp_disks _ _ _ _ Hp).
Qed.

Lemma for_each_live room f ids w p :
  live_round room f -> no_faults w -> disks_ok p -> NoDup ids ->
  Forall (fun id => exists h, disks p !! id = Some h /\ room h) ids ->
  exists w' p' rs, for_each f ids (w, p) = ((w', p'), Ok rs) /\ no_faults w'.
Proof.
  intros Hf. revert w p. induction ids as [|id ids IH]; intros w p Hn Hok Hnd Hroom; [eexists _, _, _; now split|].
  apply NoDup_cons in Hnd as [Hni Hnd]. apply Forall_cons in Hroom as [(h & Eh & Hh) Hroom].
  destruct (Hf _ _ _ _ Hn Hok Eh Hh) as (w1 & p1 & r & E1 & Hn1 & Hok1 & Hkeep).
  destruct (IH w1 p1 Hn1 Hok1 Hnd) as (w2 & p2 & rs & E2 & Hn2).
  { apply Forall_forall. intros i Hi. destruct (proj1 (Forall_forall _ _) Hroom i Hi) as (hi & Ei & Hri). exists hi.
    split; [|exact Hri]. rewrite Hkeep; [exact Ei|]. now intros ->. }
  eexists w2, p2, _. split; [|exact Hn2]. cbn [for_each]. unfold io_bind, io_ret. now rewrite E1, E2.
Qed.

(** Every disk has room. *)
Definition all_room (room : DiskHandle -> Prop) p : Prop := forall i h, disks p !! i = Some h -> room h.

Lemma loop_live room f slots key ids w p :
  live_round room f -> no_faults w -> disks_ok p -> wf_scheme (Replicated slots) -> all_room room p ->
  place p (Replicated slots) key = Ok ids ->
  exists w' p' rs, for_each f ids (w, p) = ((w', p'), Ok rs) /\ no_faults w'.
Proof.
  intros Hf Hn Hok Hw Hroom Epl. destruct (place_ok _ _ _ _ Hok Hw Epl) as (Hnd & Hids & _ & _).
  apply (for_each_live room f ids w p Hf Hn Hok Hnd). eapply Forall_impl; [exact Hids|].
  intros i Hx. apply (do_dom _ Hok) in Hx as [h Eh]. eauto.
Qed.

Lemma write_extent_live w p (inode : Z) slots content :
  no_faults w -> disks_ok p -> wf_scheme (Replicated slots) -> enough_disks (pool_map p) slots ->
  all_room (fun h => SEGMENT_BASE_OFFSET + dh_cursor h + Zlen content < 2 ^ 63) p ->
  exists w' p' xs, write_whole_file_extent inode (Replicated slots) 0 content (w, p) = ((w', p'), Ok xs) /\ no_faults w'.
Proof.
  intros Hn Hok Hw Hd Hroom. unfold write_whole_file_extent. case_decide as Hc; [eexists _, _, _; now split|].
  destruct (place_live p slots (placement_key inode u64_max) Hok (proj2 Hw) Hd) as [ids Epl].
  destruct (loop_live _ _ _ _ _ _ _ (extent_replica_live content Hc) Hn Hok Hw Hroom Epl) as (w1 & p1 & rs & Ef & Hn1).
  unfold io_bind, io_self, io_lift, io_ret. cbn [snd]. rewrite Epl, Ef. eexists _, _, _. now split.
Qed.

(** ** The metadata *)

Lemma meta_apply_live w p m op m' :
  no_faults w -> meta_inv (p_meta p) m -> wf_op op -> wal_room (p_meta p) (Zlen (frame (encode_op op))) ->
  spec_apply op m = Ok m' -> exists w' p', meta_apply op (w, p) = ((w', p'), Ok tt) /\ no_faults w'.
Proof.
  intros Hn Hi Hop Hroom Hs. destruct (meta_apply op (w, p)) as [[w' p'] out] eqn:E.
  destruct (meta_apply_ok _ _ _ _ _ _ _ Hi Hop Hroom E) as (_ & _ & _ & _ & Hout). exists w', p'.
  unfold meta_apply in E. cbn [fst snd] in E. destruct (apply op (w, p_meta p)) as [[w1 s1] r1] eqn:Ea. injection E as -> _ <-.
  pose proof Hi as [Hr Hb [Hc0 Hc1] Hw]. unfold wal_room in Hroom. assert (WAL_CAPACITY_BYTES < 2 ^ 32) by reflexivity.
  assert (H64 : ms_wal_cursor (p_meta p) + Zlen (frame (encode_op op)) < 2 ^ 64) by lia.
  assert (H63 : ms_wal_cursor (p_meta p) + Zlen (frame (encode_op op)) < 2 ^ 63) by lia.
  destruct (apply_stages _ _ _ _ _ _ Hb Hc0 H64 Ea) as (rc & Ec & Hrc).
  destruct (commit_live (ms_replicator (p_meta p)) (frame (encode_op op)) (ms_wal_cursor (p_meta p)) w Hn H63) as (w2 & Ec' & Hn2).
  rewrite Ec in Ec'. injection Ec' as -> ->. split; [|exact Hn2].
  destruct (apply_locally_spec _ _ _ _ _ _ (Hr : refines (set_wal_cursor _ (p_meta p)) m) Hw Hop Hrc) as [_ Hx].
  destruct r1 as [[]|[]|]; cbn [map_err] in *; try contradiction; [reflexivity|]. destruct Hout; congruence.
Qed.

(** An effect that takes place. *)
Lemma effect_live w p m fc X fc' m' :
  no_faults w -> pool_inv w p m fc -> effect w p m fc X fc' -> spec_apply X m = Ok m' ->
  exists w' p', meta_apply X (w, p) = ((w', p'), Ok tt) /\ no_faults w'.
Proof. intros Hn Hi (Hop & Hroom & _) Es. exact (meta_apply_live _ _ _ _ _ Hn (pi_meta _ _ _ _ Hi) Hop Hroom Es). Qed.

(** ** The operations *)

Definition enough_for p (r : InodeRecord) : Prop := exists slots, ir_redundancy r = Replicated slots /\ enough_disks (pool_map p) slots.

Lemma append_live w p m fc (id : Z) payload r :
  pool_inv w p m fc -> no_faults w -> op_fits (OpAppend id payload) p ->
  m_inodes m !! id = Some r -> ir_mode r <> Writable -> enough_for p r ->
  all_room (fun h => dh_cursor h + 28 + Zlen payload <= SEGMENT_SIZE_BYTES) p ->
  exists w' p', Pool.append id payload (w, p) = ((w', p'), Ok tt) /\ no_faults w'.
Proof.
  intros Hi Hn Hfit Er Em (slots & Hred & Hen) Hroom. pose proof (pi_disks _ _ _ _ Hi) as Hok.
  assert (Hsize : forall c, fc !! id = Some c -> Zlen c + Zlen payload < 2 ^ 64).
  { intros c Hc. pose proof (size_content _ _ _ _ _ _ Hi (proj2 Hfit) c Hc). lia. }
  unfold Pool.append, io_bind, io_self, io_lift. cbn [fst snd].
  pose proof (pool_inv_find _ _ _ _ id Hi) as Hf. pose proof (find_inode_ok _ _ id (pi_meta _ _ _ _ Hi)) as Efi. rewrite Er in Efi.
  rewrite Efi in Hf |- *. destruct Hf as (c & _ & Ec & Hd & Hwf & Hid & Hask & Hcc). pose proof Hd as [_ Hdd].
  destruct (ir_data r) as [cs|xs] eqn:Ed; [|destruct (ir_mode r); contradiction].
  pose proof Hwf as (_ & _ & Hws & _). rewrite Hred in Hws, Hask.
  destruct (place_live p slots (placement_key id (Zlen cs)) Hok (proj2 Hws) Hen) as [ids Epl].
  destruct (loop_live _ _ _ _ _ _ _ (append_replica_live id (Zlen cs) payload) Hn Hok Hws Hroom Epl) as (w1 & p1 & rs & Ef & Hn1).
  destruct (place_ok _ _ _ _ Hok Hws Epl) as (Hnd & Hids & Hlen & Hne). specialize (Hne Hask).
  destruct (for_each_ok (Z.of_nat Segment.HEADER_LEN) payload (Zlen payload < 2 ^ 32) _ _ _ _ _ _ _ ltac:(lia)
    ltac:(intros *; apply append_replica_round) Hok Hids Ef) as (Hp & Hrs & Hst & _ & HQ).
  destruct (append_effect w p m fc id payload r c cs rs w1 p1 Hi (proj1 Hfit) (Hsize c Ec) Efi Ec Em Ed Hp) as [He HX].
  { split; [intros ->; apply Hne; now rewrite <- Hrs|]. split; [now rewrite Hrs|exact Hst]. }
  { now rewrite <- (length_fmap fst rs), Hrs. }
  { exact (HQ Hne). }
  destruct HX as (_ & r0 & cs0 & ch0 & _ & _ & _ & _ & _ & _ & Es).
  destruct (effect_live _ _ _ _ _ _ _ Hn1 (data_phase_inv _ _ _ _ _ _ Hi Hp) He Es) as (w2 & p2 & Ea & Hn2).
  exists w2, p2. split; [|exact Hn2]. destruct (ir_mode r); [| |congruence]; unfold io_ret; cbn [fst snd]; rewrite Hred, Epl, Ef; exact Ea.
Qed.

(** The common course of [complete_convert] and [write]. *)
Lemma rewrite_live w p m fc (id : Z) r content (op : list Extent -> MetaOp) m' :
  pool_inv w p m fc -> no_faults w -> wal_room (p_meta p) data_op_room -> find_inode p id = Ok r -> enough_for p r ->
  Zlen content < 2 ^ 32 -> all_room (fun h => SEGMENT_BASE_OFFSET + dh_cursor h + Zlen content < 2 ^ 63) p ->
  (forall xs, one_extent xs -> Zlen (frame (encode_op (op xs))) <= data_op_room) ->
  (forall xs, u64 id -> wf_vec wf_extent xs -> wf_op (op xs)) ->
  (forall xs, spec_apply (op xs) m = Ok (m' xs)) ->
  exists w' p', (let! xs := write_whole_file_extent id (ir_redundancy r) 0 content in meta_apply (op xs)) (w, p) =
    ((w', p'), Ok tt) /\ no_faults w'.
Proof.
  intros Hi Hn Hroom Hfind (slots & Hred & Hen) H32 Hdr Hsz Hwop Hspec. pose proof (pi_disks _ _ _ _ Hi) as Hok.
  pose proof (pool_inv_find _ _ _ _ id Hi) as Hf. rewrite Hfind in Hf.
  destruct Hf as (c & _ & _ & _ & Hwf & Hid & Hask & _). pose proof Hwf as (Hwi & _ & Hws & _). rewrite Hred in *. rewrite Hid in Hwi.
  destruct (write_extent_live w p id slots content Hn Hok Hws Hen Hdr) as (w1 & p1 & xs & Ew & Hn1).
  destruct (write_extent_ok _ _ _ _ _ _ _ _ Hok Hws Hask H32 Ew) as (Hp & Hone & Hwx & _).
  pose proof (data_phase_inv _ _ _ _ _ _ Hi Hp) as Hi1.
  assert (Hr : wal_room (p_meta p1) (Zlen (frame (encode_op (op xs))))).
  { rewrite (dp_meta _ _ _ _ Hp). pose proof (Hsz xs Hone). unfold wal_room in *. lia. }
  destruct (meta_apply_live w1 p1 m (op xs) _ Hn1 (pi_meta _ _ _ _ Hi1) (Hwop xs Hwi Hwx) Hr (Hspec xs)) as (w2 & p2 & Ea & Hn2).
  exists w2, p2. split; [|exact Hn2]. unfold io_bind. now rewrite Ew.
Qed.

Lemma complete_convert_live w p m fc (id : Z) r c :
  pool_inv w p m fc -> no_faults w -> op_fits (OpCompleteConvert id) p -> m_inodes m !! id = Some r -> fc !! id = Some c ->
  ir_mode r = Converting -> enough_for p r -> all_room (fun h => SEGMENT_BASE_OFFSET + dh_cursor h + Zlen c < 2 ^ 63) p ->
  exists w' p', complete_convert id (w, p) = ((w', p'), Ok tt) /\ no_faults w'.
Proof.
  intros Hi Hn [Hroom Hsz] Er Ec Em Hen Hdr. pose proof (size_content _ _ _ _ _ _ Hi Hsz c Ec) as H32.
  pose proof (pool_inv_find _ _ _ _ id Hi) as Hf. pose proof (find_inode_ok _ _ id (pi_meta _ _ _ _ Hi)) as Efi. rewrite Er in Efi.
  rewrite Efi in Hf. destruct Hf as (c0 & _ & Ec0 & Hd & _). rewrite Ec in Ec0. injection Ec0 as <-.
  unfold complete_convert, io_bind at 1 2 3 4, io_self, io_lift, io_query, io_ret. cbn [fst snd]. rewrite Efi, Em. cbn [fst snd].
  rewrite (read_full_content_ok _ _ _ _ (pi_disks _ _ _ _ Hi) Hd).
  apply (rewrite_live w p m fc id r c (CompleteConvert id) (fun xs => with_inode (converted xs r) m)); auto.
  - intros xs Hx. exact (proj1 (extents_op_size id xs Hx)).
  - intros xs ? ?. now split.
  - intros xs. cbn [spec_apply]. unfold on_inode. rewrite Er. cbn [ok_or result_bind]. now rewrite Em.
Qed.

Lemma write_file_live w p m fc (id : Z) offset data r c :
  pool_inv w p m fc -> no_faults w -> op_fits (OpWrite id offset data) p -> m_inodes m !! id = Some r -> fc !! id = Some c ->
  ir_mode r = Writable -> enough_for p r ->
  all_room (fun h => SEGMENT_BASE_OFFSET + dh_cursor h + Z.max (Zlen c) (offset + Zlen data) < 2 ^ 63) p ->
  exists w' p', Pool.write id offset data (w, p) = ((w', p'), Ok tt) /\ no_faults w'.
Proof.
  intros Hi Hn (Hroom & Ho & Hlt & Hsz) Er Ec Em Hen Hdr. pose proof (size_content _ _ _ _ _ _ Hi Hsz c Ec) as H32.
  pose proof (pool_inv_find _ _ _ _ id Hi) as Hf. pose proof (find_inode_ok _ _ id (pi_meta _ _ _ _ Hi)) as Efi. rewrite Er in Efi.
  rewrite Efi in Hf. destruct Hf as (c0 & _ & Ec0 & Hd & _). rewrite Ec in Ec0. injection Ec0 as <-.
  unfold Pool.write, io_bind at 1 2 3 4 5, io_self, io_lift, io_query, io_ret. cbn [fst snd]. rewrite Efi, Em. cbn [fst snd].
  rewrite (read_full_content_ok _ _ _ _ (pi_disks _ _ _ _ Hi) Hd), patch_ok by lia.
  pose proof (Zlen_overwrite c offset data Ho) as Hl. pose proof (Zlen_nonneg data).
  apply (rewrite_live w p m fc id r (overwrite c offset data) (UpdateExtents id) (fun xs => with_inode (rewritten xs r) m)); auto.
  - lia.
  - intros i h Eh. pose proof (Hdr i h Eh) as Hx. cbn beta in *. lia.
  - intros xs Hx. exact (proj2 (extents_op_size id xs Hx)).
  - intros xs ? ?. now split.
  - intros xs. cbn [spec_apply]. unfold on_inode. rewrite Er. cbn [ok_or result_bind]. now rewrite Em.
Qed.

Lemma create_live w p m fc parent name sch uid gid mode clock :
  pool_inv w p m fc -> no_faults w -> op_fits (OpCreate parent name sch uid gid mode clock) p ->
  exists w' p', run_op (OpCreate parent name sch uid gid mode clock) (w, p) = ((w', p'), Ok tt) /\ no_faults w'.
Proof.
  intros Hi Hn Hfit. cbn [op_fits] in Hfit. cbv zeta in Hfit. rewrite (proj2 (mi_refines _ _ (pi_meta _ _ _ _ Hi))) in Hfit.
  destruct Hfit as (H1 & H2 & H3 & H4 & H5 & H6).
  destruct (alloc_inv _ _ _ _ Hi H1) as (Eid & _ & Hi1 & Ecur). unfold wal_room in H6. rewrite <- Ecur in H6.
  destruct (wf_next _ _ (mi_wf _ _ (pi_meta _ _ _ _ Hi))) as [Hn0 _].
  set (m1 := {| m_inodes := m_inodes m |}) in *. set (r := new_file (m_next m) sch uid gid mode clock) in *.
  pose proof (Zlen_nonneg (frame (encode_op (CreateInode r)))). pose proof (Zlen_nonneg (frame (encode_op (Link parent name (m_next m))))).
  assert (Hr1 : wal_room (p_meta (alloc_inode p).1) (Zlen (frame (encode_op (CreateInode r))))) by (unfold wal_room; lia).
  pose proof (create_effect _ _ _ _ _ _ _ _ _ _ Hi1 (conj Hn0 H1) H3 H5 Hr1) as He.
  destruct (effect_live _ _ _ _ _ _ _ Hn Hi1 He eq_refl) as (w1 & p1 & E1 & Hn1).
  destruct (effect_outcome _ _ _ _ _ _ _ _ _ Hi1 He E1) as (_ & _ & Hcu & m2 & Em2 & Hi2). fold r in Hcu.
  assert (Hr2 : wal_room (p_meta p1) (Zlen (frame (encode_op (Link parent name (m_next m)))))) by (unfold wal_room; lia).
  destruct (effect_live _ _ _ _ _ _ _ Hn1 Hi2 (link_effect _ _ _ _ parent name (m_next m) Hi2 H4 Hr2) eq_refl) as (w2 & p2 & E2 & Hn2).
  exists w2, p2. split; [|exact Hn2]. cbn [run_op]. unfold io_void, create_file, io_bind, io_self, io_set_self, io_lift, io_ret. cbn [fst snd].
  destruct (alloc_inode p) as [pa inode] eqn:Ea. cbn [fst snd] in *. subst inode.
  unfold now_unix. rewrite (proj2 (Z.ltb_ge clock 0)) by lia. cbn [fst snd].
  fold (new_file (m_next m) sch uid gid mode clock). now rewrite E1, E2.
Qed.

(** The file is there in the mode that the operation needs, its policy can be
    met, and there is room for its bytes on the disks. *)
Definition ready (op : pool_op) p m (fc : gmap Z (list byte)) : Prop :=
  match op with
  | OpCreate _ _ _ _ _ _ _ | OpUnlink _ _ => True
  | OpSetRedundancy id _ => is_Some (m_inodes m !! id)
  | OpBeginConvert id => exists r, m_inodes m !! id = Some r /\ ir_mode r = AppendOnly
  | OpAppend id payload => exists r, m_inodes m !! id = Some r /\ ir_mode r <> Writable /\ enough_for p r /\
      all_room (fun h => dh_cursor h + 28 + Zlen payload <= SEGMENT_SIZE_BYTES) p
  | OpCompleteConvert id => exists r c, m_inodes m !! id = Some r /\ fc !! id = Some c /\ ir_mode r = Converting /\
      enough_for p r /\ all_room (fun h => SEGMENT_BASE_OFFSET + dh_cursor h + Zlen c < 2 ^ 63) p
  | OpWrite id offset data => exists r c, m_inodes m !! id = Some r /\ fc !! id = Some c /\ ir_mode r = Writable /\
      enough_for p r /\ all_room (fun h => SEGMENT_BASE_OFFSET + dh_cursor h + Z.max (Zlen c) (offset + Zlen data) < 2 ^ 63) p
  end.

Lemma run_op_live op w p m fc :
  pool_inv w p m fc -> no_faults w -> op_fits op p -> ready op p m fc ->
  exists w' p', run_op op (w, p) = ((w', p'), Ok tt) /\ no_faults w'.
Proof.
  intros Hi Hn Hfit Hready.
  destruct op as [parent name sch uid gid mode clock|parent name|id sch|id payload|id|id|id offset data];
    [now apply (create_live w p m fc)|cbn [run_op op_fits ready] in *..].
  - destruct Hfit as [[H1 H2] H3]. exact (effect_live _ _ _ _ _ _ _ Hn Hi (unlink_effect _ _ _ _ _ _ Hi H1 H2 H3) eq_refl).
  - destruct Hfit as [[H1 H2] [H3 H4]], Hready as [r Er].
    eapply (effect_live w p m fc _ _ _ Hn Hi (set_redundancy_effect _ _ _ _ _ _ Hi H1 H2 H3 H4)).
    cbn [spec_apply]. unfold on_inode. now rewrite Er.
  - destruct Hready as (r & Er & Em & Hen & Hroom). now apply (append_live w p m fc id payload r).
  - destruct Hfit as [H1 H2], Hready as (r & Er & Em).
    eapply (effect_live w p m fc _ _ _ Hn Hi (begin_convert_effect _ _ _ _ _ Hi H1 H2)).
    cbn [spec_apply]. unfold on_inode. rewrite Er. cbn [ok_or result_bind]. now rewrite Em.
  - destruct Hready as (r & c & Er & Ec & Em & Hen & Hroom). now apply (complete_convert_live w p m fc id r c).
  - destruct Hready as (r & c & Er & Ec & Em & Hen & Hroom). now apply (write_file_live w p m fc id offset data r c).
Qed.

(** C9: a healthy pool refuses nothing.  With no device failing, room on the
    disks and in the log, and a policy that the disks can meet, every operation
    that the file's mode allows succeeds and has its effect, and the pool is
    healthy afterwards. *)
Theorem healthy_pool_progresses op w p m fc :
  pool_inv w p m fc -> no_faults w -> op_fits op p -> ready op p m fc ->
  exists w' p' s', run_op op (w, p) = ((w', p'), Ok tt) /\ no_faults w' /\
    fs_step (fs_of m fc) op (Ok tt) s' /\ represents w' p' s'.
Proof.
  intros Hi Hn Hfit Hready. destruct (run_op_live _ _ _ _ _ Hi Hn Hfit Hready) as (w' & p' & E & Hn').
  destruct (run_op_refines _ _ _ _ _ _ _ _ Hi Hfit E) as (m' & fc' & Hi' & Hst).
  exists w', p', (fs_of m' fc'). split; [exact E|]. split; [exact Hn'|]. split; [exact Hst|now exists m', fc'].
Qed.

(** Appending to a healthy pool: the bytes can be read back. *)
Theorem append_succeeds w p m fc (id : Z) payload r c :
  pool_inv w p m fc -> no_faults w -> op_fits (OpAppend id payload) p ->
  m_inodes m !! id = Some r -> fc !! id = Some c -> ir_mode r <> Writable -> enough_for p r ->
  all_room (fun h => dh_cursor h + 28 + Zlen payload <= SEGMENT_SIZE_BYTES) p ->
  exists w' p', Pool.append id payload (w, p) = ((w', p'), Ok tt) /\
    Pool.read p' id 0 (Zlen c + Zlen payload) w' = Ok (c ++ payload).
Proof.
  intros Hi Hn Hfit Er Ec Em Hen Hroom. destruct (append_live _ _ _ _ _ _ _ Hi Hn Hfit Er Em Hen Hroom) as (w' & p' & E & _).
  exists w', p'. split; [exact E|].
  destruct (run_op_refines (OpAppend id payload) _ _ _ _ _ _ _ Hi Hfit E) as (m' & fc' & Hi' & Hs).
  assert (Hc : fc' !! id = Some (c ++ payload)).
  { inversion Hs as [| | | |? ? c0 ? Hc0| | | |]; subst. cbn [fs_of fs_data] in *. rewrite Ec in Hc0. injection Hc0 as <-.
    apply lookup_insert_eq. }
  rewrite (read_ok_content _ _ _ _ _ _ _ _ Hi' Hc) by (unfold Zlen; lia). unfold content_slice.
  rewrite drop_0, take_ge; [reflexivity|]. rewrite length_app. unfold Zlen. lia.
Qed.
End Live.

(** ** A run *)
#[local] Existing Instance hash_iter_by_key.

(** The pool of [PoolRuns] with its converted file, on healthy disks. *)
Definition live_pool : os_world * Pool tables := run_ops demo_ops demo_pool.
Definition live_op : pool_op := OpWrite 2 3 [x51; x52].

Lemma live_pool_inv : exists m fc, pool_inv live_pool.1 live_pool.2 m fc.
Proof.
  destruct (pool_run_represents demo_pool live_pool fs_init) as (s & _ & m & fc & Hi & _); [| |now exists m, fc].
  - unfold live_pool. apply run_ops_steps. vm_compute. reflexivity.
  - exists (root_meta (length demo_paths) 1000), {[ROOT_INODE := []]}. split; [|reflexivity].
    apply (format_ok demo_paths demo_classes 1000 no_world); [vm_compute; reflexivity|reflexivity..].
Qed.

(** The record of the file. *)
Definition live_record : InodeRecord := get_ok (root_inode 0 0) (find_inode live_pool.2 2).

Lemma live_choices slot : slot = AnyOfClass None -> size (choices (pool_map live_pool.2) slot) = 2%nat.
Proof. intros ->. vm_compute. reflexivity. Qed.

Lemma healthy_pool_progresses_witness :
  exists m fc w' p' s', run_op live_op live_pool = ((w', p'), Ok tt) /\ no_faults w' /\
    fs_step (fs_of m fc) live_op (Ok tt) s' /\ represents w' p' s'.
Proof.
  destruct live_pool_inv as (m & fc & Hi). exists m, fc. pose proof (pool_inv_find _ _ _ _ 2 Hi) as Hf.
  replace (find_inode live_pool.2 2) with (Ok (E := PoolError) live_record) in Hf by (vm_compute; reflexivity).
  destruct Hf as (c & Er & Ec & [Hsz _] & _). replace (ir_size live_record) with 7 in Hsz by (vm_compute; reflexivity).
  rewrite (surjective_pairing live_pool). apply (healthy_pool_progresses live_op live_pool.1 live_pool.2 m fc Hi).
  - vm_compute. reflexivity.
  - apply (bool_decide_unpack _). vm_compute. exact I.
  - exists live_record, c. split; [exact Er|]. split; [exact Ec|]. split; [vm_compute; reflexivity|]. split.
    + exists [AnyOfClass None; AnyOfClass None]. split; [vm_compute; reflexivity|]. split; [vm_compute; lia|].
      intros [|[|i]] slot E; try discriminate; injection E as <-; rewrite live_choices by reflexivity; lia.
    + rewrite <- Hsz. intros i h Eh. revert i h Eh.
      apply (map_Forall_to_list (fun _ h => SEGMENT_BASE_OFFSET + dh_cursor h + Z.max 7 (3 + Zlen [x51; x52]) < 2 ^ 63)).
      apply (bool_decide_unpack _). vm_compute. exact I.
Defined.
