(* ===== verification/Fuse.v ===== *)
(** * The FUSE front end ([crates/tartine-fuse/src/lib.rs])

    The [fuser::Filesystem] callbacks.  Every callback holds the pool's lock
    from its first use of the pool to its reply, so a callback is one step on
    the pool.  The reply object is called exactly once: the call made on it is
    the callback's result, [Err] for [reply.error].  The fields of the request
    that a callback ignores are not arguments.  Definitions only; [FuseSpec]
    holds the proofs. *)

From Stdlib Require Import ZArith Lia.
From S2P Require Import Prelude Proto Disk Codec Redb Store CorePlacement FuseWritePath Ioctl Pool.

(** The codes of [fuser::Errno] that the callbacks reply with. *)
Inductive Errno :=
  | ENOENT | EPERM | ENOSPC | EINVAL | EIO | EEXIST | EAGAIN | EALREADY | EOPNOTSUPP | ENOTTY.
Inductive FileType := Directory | RegularFile.

#[export] Instance Errno_eq_dec : EqDecision Errno.
Proof. solve_decision. Defined.

(** [fuser::FileAttr]; times in seconds since the epoch. *)
Record FileAttr := {
  fa_ino : Z; fa_size : Z; fa_blocks : Z;
  fa_atime : Z; fa_mtime : Z; fa_ctime : Z; fa_crtime : Z;
  fa_kind : FileType; fa_perm : Z; fa_nlink : Z; fa_uid : Z; fa_gid : Z;
  fa_rdev : Z; fa_blksize : Z; fa_flags : Z;
}.

(** [Duration::from_secs(1)]. *)
Definition TTL : Z := 1.

Definition get_state (inode : InodeRecord) : TartineState :=
  {| ts_mode := match ir_mode inode with
                | AppendOnly => TARTINE_MODE_APPEND_ONLY
                | Converting => TARTINE_MODE_CONVERTING
                | Writable => TARTINE_MODE_WRITABLE
                end;
     ts_pad := 0; ts_bytes_total := ir_size inode; ts_bytes_converted := ir_size inode |}.

Definition default_redundancy (disk_count : nat) : RedundancyScheme :=
  Replicated (replicate (2 `min` (disk_count `max` 1)) (AnyOfClass None)).

Definition errno_for (e : PoolError) : Errno :=
  match e with
  | InodeNotFound => ENOENT
  | WrongMode => EPERM
  | Unplaceable => ENOSPC
  | NoDisks => EINVAL
  | Io _ | Meta _ => EIO
  end.

(** [rec.unix_mode & S_IFDIR == S_IFDIR]. *)
Definition kind_of (rec : InodeRecord) : FileType :=
  if Z.land (ir_unix_mode rec) S_IFDIR =? S_IFDIR then Directory else RegularFile.

(** [UNIX_EPOCH + Duration::from_secs(secs)]: a [SystemTime] holds its seconds
    in an [i64] and the addition panics past it. *)
Definition system_time {E} (secs : Z) : result E Z := if secs <? 2 ^ 63 then Ok secs else Panic.

Definition attr_of {E} (rec : InodeRecord) : result E FileAttr :=
  let? time := system_time (ir_mtime_unix rec) in
  Ok {| fa_ino := ir_inode rec; fa_size := ir_size rec; fa_blocks := (ir_size rec + 511) / 512;
        fa_atime := time; fa_mtime := time; fa_ctime := time; fa_crtime := time;
        fa_kind := kind_of rec; fa_perm := wrap 16 (Z.land (ir_unix_mode rec) 0xfff); fa_nlink := 1;
        fa_uid := ir_uid rec; fa_gid := ir_gid rec; fa_rdev := 0; fa_blksize := 4096; fa_flags := 0 |}.

(** [OsStr::to_str]. *)
Definition name_str (name : list byte) : option (list byte) := if utf8_valid name then Some name else None.

Section Fuse.
Context {DB : Type} `{!Redb DB} `{!HashIter}.
Abbreviation P := (Pool DB).

(** [match pool.get_inode(ino) { Ok(Some(rec)) => .., Ok(None) => ENOENT,
    Err(_) => EIO }], which five callbacks share. *)
Definition inode_or_errno (p : P) (ino : Z) : result Errno InodeRecord :=
  match Pool.get_inode p ino with
  | Ok (Some rec) => Ok rec
  | Ok None => Err ENOENT
  | Err _ => Err EIO
  | Panic => Panic
  end.

(** [reply.entry(&TTL, &attr, Generation(0))]. *)
Definition lookup (p : P) (parent : Z) (name : list byte) : result Errno (Z * FileAttr * Z) :=
  match name_str name with
  | None => Err EINVAL
  | Some name =>
      match Pool.lookup p parent name with
      | Ok (Some child) =>
          match Pool.get_inode p child with
          | Ok (Some rec) => let? attr := attr_of rec in Ok (TTL, attr, 0)
          | Panic => Panic
          | _ => Err EIO
          end
      | Ok None => Err ENOENT
      | Err _ => Err EIO
      | Panic => Panic
      end
  end.

(** [reply.attr(&TTL, &attr)]. *)
Definition getattr (p : P) (ino : Z) : result Errno (Z * FileAttr) :=
  let? rec := inode_or_errno p ino in
  let? attr := attr_of rec in Ok (TTL, attr).

Definition setattr (p : P) (ino : Z) (size : option Z) : result Errno (Z * FileAttr) :=
  let? rec := inode_or_errno p ino in
  let? _ := match size with
            | Some new_size =>
                if negb (new_size =? ir_size rec) then
                  match truncate_allowed rec with
                  | Ok _ => Ok tt
                  | Err _ => Err EPERM
                  | Panic => Panic
                  end
                else Ok tt
            | None => Ok tt
            end in
  let? attr := attr_of rec in Ok (TTL, attr).

(** [reply.created(&TTL, &attr, Generation(0), FileHandle(0), FopenFlags::empty())]. *)
Definition create (uid gid clock : Z) (parent : Z) (name : list byte) (mode : Z) :
    io (os_world * P) Errno (Z * FileAttr * Z * Z * Z) :=
  match name_str name with
  | None => io_err EINVAL
  | Some name =>
      let! p := io_self in
      match Pool.lookup p parent name with
      | Ok (Some _) => io_err EEXIST
      | Panic => io_panic
      | _ =>
          let unix_mode := Z.lor S_IFREG (Z.land mode 0xfff) in
          let redundancy := default_redundancy (disk_count p) in
          let! inode := io_map_err errno_for (create_file parent name redundancy uid gid unix_mode clock) in
          let! p := io_self in
          match Pool.get_inode p inode with
          | Ok (Some rec) => let! attr := io_lift (attr_of rec) in io_ret (TTL, attr, 0, 0, 0)
          | Panic => io_panic
          | _ => io_err EIO
          end
      end
  end.

Definition unlink (parent : Z) (name : list byte) : io (os_world * P) Errno unit :=
  match name_str name with
  | None => io_err EINVAL
  | Some name => io_map_err errno_for (Pool.unlink parent name)
  end.

Definition read (p : P) (ino offset size : Z) (w : os_world) : result Errno (list byte) :=
  map_err errno_for (Pool.read p ino offset size w).

(** [reply.written(data.len() as u32)]. *)
Definition write (ino offset : Z) (data : list byte) : io (os_world * P) Errno Z :=
  let! p := io_self in
  let! rec := io_lift (inode_or_errno p ino) in
  match classify_write rec offset (length data) with
  | Ok WkAppend =>
      let! _ := io_map_err errno_for (Pool.append ino data) in io_ret (as_u32 (Zlen data))
  | Ok RandomWrite =>
      let! _ := io_map_err errno_for (Pool.write ino offset data) in io_ret (as_u32 (Zlen data))
  | Err (NotAppendOnlyOrder | RandomWriteDenied) => io_err EPERM
  | Err ConversionInProgress => io_err EAGAIN
  | Panic => io_panic
  end.

(** The [entries] of [readdir]: [.], [..] and the children. *)
Fixpoint child_entries (p : P) (children : list (list byte * Z)) : result Errno (list (Z * FileType * list byte)) :=
  match children with
  | [] => Ok []
  | (name, child) :: rest =>
      let? kind := match Pool.get_inode p child with
                   | Ok (Some rec) => Ok (kind_of rec)
                   | Panic => Panic
                   | _ => Ok RegularFile
                   end in
      let? es := child_entries p rest in
      Ok ((child, kind, name) :: es)
  end.

Definition dir_entries (p : P) (ino : Z) : result Errno (list (Z * FileType * list byte)) :=
  let? children := map_err (fun _ => EIO) (Pool.readdir p ino) in
  let? es := child_entries p children in
  Ok ([(ino, Directory, [x2e]); (ino, Directory, [x2e; x2e])] ++ es).

(** [ReplyDirectory]: its state and its [add], which says whether the buffer
    was full. *)
Section Readdir.
Context {R : Type} (add : R -> Z -> Z -> FileType -> list byte -> R * bool).

(** The loop over [entries.into_iter().enumerate().skip(..)]; [i] is the
    index of the first of [es]. *)
Fixpoint add_entries (i : Z) (es : list (Z * FileType * list byte)) (reply : R) : R :=
  match es with
  | [] => reply
  | (ino, kind, name) :: rest =>
      let '(reply, full) := add reply ino (i + 1) kind name in
      if full then reply else add_entries (i + 1) rest reply
  end.

Definition readdir (p : P) (ino offset : Z) (reply : R) : result Errno R :=
  let? entries := dir_entries p ino in
  Ok (add_entries offset (drop (Z.to_nat offset) entries) reply).
End Readdir.

(** [in_data.get(0..4)] as a little-endian [u32]. *)
Definition convert_flags (in_data : list byte) : option Z := from_le <$> slice in_data 0 4.

(** [reply.ioctl(0, data)]. *)
Definition ioctl (ino cmd : Z) (in_data : list byte) : io (os_world * P) Errno (Z * list byte) :=
  if cmd =? TARTINE_IOC_MAKE_WRITABLE then
    match convert_flags in_data with
    | None => io_err EINVAL
    | Some flags =>
        let! _ := io_map_err (fun _ => EALREADY) (Pool.begin_convert ino) in
        if negb (Z.land flags TARTINE_CONVERT_FLAG_WAIT =? 0) then
          let! _ := io_map_err errno_for (Pool.complete_convert ino) in io_ret (0, [])
        else io_ret (0, [])
    end
  else if cmd =? TARTINE_IOC_GET_STATE then
    let! p := io_self in
    let! rec := io_lift (inode_or_errno p ino) in
    io_ret (0, TartineState_to_bytes (get_state rec))
  else if cmd =? TARTINE_IOC_SET_REDUNDANCY then
    match decode_set_redundancy in_data with
    | None => io_err EINVAL
    | Some (ErasureCoded _ _) => io_err EOPNOTSUPP
    | Some scheme => let! _ := io_map_err errno_for (set_redundancy ino scheme) in io_ret (0, [])
    end
  else if cmd =? TARTINE_IOC_GET_REDUNDANCY then
    let! p := io_self in
    let! rec := io_lift (inode_or_errno p ino) in
    io_ret (0, encode_set_redundancy (ir_redundancy rec))
  else io_err ENOTTY.
End Fuse.
