(* ===== verification/FuseSpec.v ===== *)
(** * What the mount promises

    Requests of the kernel as steps on the pool; every request is a step of
    the abstract file system, or two for a conversion that is waited for. *)

From Stdlib Require Import ZArith Lia.
From stdpp Require Import relations.
From S2P Require Import Prelude Proto KPlacement Disk Segment Wal Codec Replicator Redb Store StoreSpec StoreRefine.
From S2P Require Import StoreRecovery StoreReads CorePlacement Pool PoolSpec PoolRefine PoolFormat PoolLife.
From S2P Require Import KWritePath FuseWritePath Ioctl Fuse.

(** The requests that can change the pool; the callbacks for the others take
    it by shared reference. *)
Inductive request :=
  | RqCreate (uid gid clock parent : Z) (name : list byte) (mode : Z)
  | RqUnlink (parent : Z) (name : list byte)
  | RqWrite (ino offset : Z) (data : list byte)
  | RqIoctl (ino cmd : Z) (in_data : list byte).

(** What a request does to the file system: nothing, one operation, or a
    conversion begun and completed. *)
Inductive fs_request (s : fs) : fs -> Prop :=
  | request_nothing : fs_request s s
  | request_op op out s' :
      fs_step s op out s' -> (forall id, op <> OpCompleteConvert id) -> fs_request s s'
  | request_convert id s1 out s' :
      fs_step s (OpBeginConvert id) (Ok tt) s1 -> fs_step s1 (OpCompleteConvert id) out s' -> fs_request s s'.

(** Both maps of the file system have the same files. *)
Definition fs_ok (s : fs) : Prop := forall id, is_Some (fs_data s !! id) <-> is_Some (fs_modes s !! id).

(** The order of a file's life. *)
Definition mode_le (a b : InodeMode) : Prop := FuseWritePath.mode_to_u32 a <= FuseWritePath.mode_to_u32 b.

#[export] Instance mode_le_preorder : PreOrder mode_le.
Proof. split; unfold mode_le; [intros ?|intros ???]; lia. Qed.

(** A file with content [c] and mode [m] becomes one with [c'] and [m']: the
    mode never goes back, and the content only grows until it is writable. *)
Definition file_grows (c : list byte) (m : InodeMode) (c' : list byte) (m' : InodeMode) : Prop :=
  mode_le m m' /\ (m' = Writable \/ c `prefix_of` c').

Lemma file_grows_refl c m : file_grows c m c m.
Proof. split; [reflexivity|now right]. Qed.

Lemma Writable_top m m' : mode_le m m' -> m = Writable -> m' = Writable.
Proof. intros H ->. destruct m'; [now destruct H..|reflexivity]. Qed.

Lemma file_grows_trans c1 m1 c2 m2 c3 m3 : file_grows c1 m1 c2 m2 -> file_grows c2 m2 c3 m3 -> file_grows c1 m1 c3 m3.
Proof.
  intros [H1 H2] [H3 H4]. split; [now transitivity m2|]. destruct H4 as [|H4]; [now left|].
  destruct H2 as [H2|H2]; [left; now apply (Writable_top m2)|right; now transitivity c2].
Qed.

(** Every file of [s] is in [s'], grown. *)
Definition fs_grows (s s' : fs) : Prop :=
  forall id c m, fs_data s !! id = Some c -> fs_modes s !! id = Some m ->
    exists c' m', fs_data s' !! id = Some c' /\ fs_modes s' !! id = Some m' /\ file_grows c m c' m'.

#[export] Instance fs_grows_preorder : PreOrder fs_grows.
Proof.
  split; [intros s id c m Hc Hm; exists c, m; auto using file_grows_refl|].
  intros s1 s2 s3 H1 H2 id c m Hc Hm. destruct (H1 id c m Hc Hm) as (c2 & m2 & Hc2 & Hm2 & G).
  destruct (H2 id c2 m2 Hc2 Hm2) as (c3 & m3 & ? & ? & G'). exists c3, m3. eauto using file_grows_trans.
Qed.

(** One file changes. *)
Lemma fs_grows_update s s' (id : Z) c m c' m' :
  fs_data s !! id = Some c -> fs_modes s !! id = Some m -> file_grows c m c' m' ->
  fs_data s' = <[id := c']> (fs_data s) -> fs_modes s' = <[id := m']> (fs_modes s) -> fs_grows s s'.
Proof.
  intros Hc Hm G Ed Em i ci mi Hci Hmi. rewrite Ed, Em. destruct (decide (i = id)) as [->|Hne].
  - rewrite !lookup_insert_eq. simplify_eq. eauto.
  - rewrite !lookup_insert_ne by auto. exists ci, mi. auto using file_grows_refl.
Qed.

Lemma fs_grows_new s s' (id : Z) c' m' :
  fs_data s !! id = None -> fs_data s' = <[id := c']> (fs_data s) -> fs_modes s' = <[id := m']> (fs_modes s) -> fs_grows s s'.
Proof.
  intros Hn Ed Em i c m Hc Hm. rewrite Ed, Em, !lookup_insert_ne by congruence. exists c, m. auto using file_grows_refl.
Qed.

Lemma fs_step_grows s op out s' : fs_ok s -> fs_step s op out s' -> fs_grows s s'.
Proof.
  intros Hok Hs.
  assert (Hdat : forall id m, fs_modes s !! id = Some m -> exists c, fs_data s !! id = Some c)
    by (intros id m E; apply (Hok id); eauto).
  destruct Hs as [? ? ? ? ? ? ? id Hn|? ? ? ? ? ? ? id e Hn| |? ? c Hc|id payload c m Hc Hm Hw|id Hm|id Hm|id off data c Hc Hm|].
  - eapply fs_grows_new; eauto.
  - eapply fs_grows_new; eauto.
  - intros i c m Hc Hm. exists c, m. auto using file_grows_refl.
  - reflexivity.
  - eapply (fs_grows_update _ _ id c m (c ++ payload) m); auto; [|symmetry; now apply insert_id].
    split; [reflexivity|right; now apply prefix_app_r].
  - destruct (Hdat _ _ Hm) as [c Hc]. eapply (fs_grows_update _ _ id c _ c); eauto; [|symmetry; now apply insert_id].
    split; [discriminate|now right].
  - destruct (Hdat _ _ Hm) as [c Hc]. eapply (fs_grows_update _ _ id c _ c); eauto; [|symmetry; now apply insert_id].
    split; [discriminate|now left].
  - eapply (fs_grows_update _ _ id c _ (overwrite c off data) Writable); eauto; [|symmetry; now apply insert_id].
    split; [reflexivity|now left].
  - reflexivity.
Qed.

Lemma fs_grows_ok s op out s' : fs_ok s -> fs_step s op out s' -> fs_ok s'.
Proof.
  intros Hok Hs i. specialize (Hok i).
  destruct Hs as [? ? ? ? ? ? ? id Hn|? ? ? ? ? ? ? id e Hn| |? ? c Hc|id payload c m Hc Hm Hw|id Hm|id Hm|id off data c Hc Hm|];
    cbn [fs_data fs_modes] in *; auto; destruct (decide (i = id)) as [->|];
    rewrite ?lookup_insert_eq, ?lookup_insert_ne by auto; rewrite ?Hm, ?Hc in *;
    first [tauto|split; intros; [now eauto|apply Hok; now eauto]|split; intros; eauto].
Qed.

(** A file that is converting stays so: the only request that completes a
    conversion has begun it from append-only. *)
Lemma fs_step_stuck s op out s' (id : Z) c :
  fs_ok s -> fs_step s op out s' -> fs_data s !! id = Some c -> fs_modes s !! id = Some Converting ->
  op <> OpCompleteConvert id -> fs_modes s' !! id = Some Converting.
Proof.
  intros Hok Hs Hc Hm Hop.
  destruct Hs as [? ? ? ? ? ? ? i Hn|? ? ? ? ? ? ? i e Hn| | | |i Hi|i Hi| |]; cbn [fs_modes]; auto;
    destruct (decide (i = id)) as [->|]; rewrite ?lookup_insert_ne by auto; congruence.
Qed.

Lemma fs_request_grows s s' : fs_ok s -> fs_request s s' -> fs_ok s' /\ fs_grows s s'.
Proof.
  intros Hok [|op out s2 Hs _|id s1 out s2 H1 H2]; [split; [exact Hok|reflexivity]| |].
  - eauto using fs_grows_ok, fs_step_grows.
  - pose proof (fs_grows_ok _ _ _ _ Hok H1) as Hok1. split; [eapply fs_grows_ok; eauto|].
    transitivity s1; eapply fs_step_grows; eauto.
Qed.

Lemma fs_request_stuck s s' (id : Z) :
  fs_ok s -> fs_request s s' -> fs_modes s !! id = Some Converting -> fs_modes s' !! id = Some Converting.
Proof.
  intros Hok Hr Hm. destruct (proj2 (Hok id) (mk_is_Some _ _ Hm)) as [c Hc].
  destruct Hr as [|op out s2 Hs Hop|i s1 out s2 H1 H2]; [exact Hm|eapply fs_step_stuck; eauto|].
  assert (Hne : i <> id) by (intros ->; inversion H1; congruence).
  assert (Hm1 : fs_modes s1 !! id = Some Converting) by (eapply fs_step_stuck; eauto; discriminate).
  pose proof (fs_grows_ok _ _ _ _ Hok H1) as Hok1. destruct (proj2 (Hok1 id) (mk_is_Some _ _ Hm1)) as [c1 Hc1].
  eapply fs_step_stuck; eauto. intros [= ->]. now apply Hne.
Qed.

Section Mount.
Context {DB : Type} `{!Redb DB} `{!RedbLaws DB} `{!RedbReliable DB} `{HI : !HashIter}.
Implicit Types (w : os_world) (p : Pool DB).

Definition serve (rq : request) : io (os_world * Pool DB) Errno unit :=
  match rq with
  | RqCreate uid gid clock parent name mode => io_void (Fuse.create uid gid clock parent name mode)
  | RqUnlink parent name => Fuse.unlink parent name
  | RqWrite ino offset data => io_void (Fuse.write ino offset data)
  | RqIoctl ino cmd in_data => io_void (Fuse.ioctl ino cmd in_data)
  end.

(** The operation that a write turns into. *)
Definition write_op p (ino offset : Z) (data : list byte) : pool_op :=
  match find_inode p ino with
  | Ok r => match ir_mode r with Writable => OpWrite ino offset data | _ => OpAppend ino data end
  | _ => OpAppend ino data
  end.

(** The mode that [create] records. *)
Definition file_mode (mode : Z) : Z := Z.lor S_IFREG (Z.land mode 0xfff).

(** What a request needs is what its operations need. *)
Definition request_fits (rq : request) (wp : os_world * Pool DB) : Prop :=
  match rq with
  | RqCreate uid gid clock parent name mode => u64 parent /\ clock < 2 ^ 63 /\
      op_fits (OpCreate parent name (default_redundancy (disk_count wp.2)) uid gid (file_mode mode) clock) wp.2
  | RqUnlink parent name => op_fits (OpUnlink parent name) wp.2
  | RqWrite ino offset data => op_fits (write_op wp.2 ino offset data) wp.2
  | RqIoctl ino cmd in_data =>
      if cmd =? TARTINE_IOC_MAKE_WRITABLE then
        op_fits (OpBeginConvert ino) wp.2 /\ op_fits (OpCompleteConvert ino) (run_op (OpBeginConvert ino) wp).1.2
      else if cmd =? TARTINE_IOC_SET_REDUNDANCY then
        match decode_set_redundancy in_data with
        | Some (Replicated slots) => op_fits (OpSetRedundancy ino (Replicated slots)) wp.2
        | _ => True
        end
      else True
  end.

#[export] Instance request_fits_dec rq wp : Decision (request_fits rq wp).
Proof.
  destruct rq as [| | |ino cmd in_data]; cbn [request_fits]; repeat apply and_dec; try apply _.
  destruct (cmd =? _); [apply and_dec; apply _|]. destruct (cmd =? _); [|apply _].
  destruct (decode_set_redundancy in_data) as [[]|]; apply _.
Defined.

Lemma pool_inv_get w p m fc (id : Z) : pool_inv w p m fc -> Pool.get_inode p id = Ok (m_inodes m !! id).
Proof.
  intros Hi. pose proof (pi_meta _ _ _ _ Hi) as Hm. unfold Pool.get_inode.
  destruct (get_and_lookup _ _ _ id 0 [] (mi_refines _ _ Hm) (mi_wf _ _ Hm)) as [E _]; [split; [lia|reflexivity]|].
  now rewrite E.
Qed.

Lemma pool_inv_lookup w p m fc (parent : Z) name :
  pool_inv w p m fc -> u64 parent -> Pool.lookup p parent name = Ok (m_dirs m !! (parent, name)).
Proof.
  intros Hi Hp. pose proof (pi_meta _ _ _ _ Hi) as Hm. unfold Pool.lookup.
  destruct (get_and_lookup _ _ _ 0 parent name (mi_refines _ _ Hm) (mi_wf _ _ Hm) Hp) as [_ E]. now rewrite E.
Qed.

Lemma pool_inv_inode w p m fc (id : Z) :
  pool_inv w p m fc ->
  inode_or_errno p id = match m_inodes m !! id with Some r => Ok r | None => Err ENOENT end.
Proof. intros Hi. unfold inode_or_errno. rewrite (pool_inv_get _ _ _ _ _ Hi). now destruct (m_inodes m !! id). Qed.

(** Record and content of a file exist together, and the record's size is the content's. *)
Lemma pool_inv_file w p m fc (id : Z) r :
  pool_inv w p m fc -> m_inodes m !! id = Some r -> exists c, fc !! id = Some c /\ ir_size r = Zlen c /\ find_inode p id = Ok r.
Proof.
  intros Hi Er. pose proof (pool_inv_find _ _ _ _ id Hi) as Hf. rewrite (find_inode_ok _ _ id (pi_meta _ _ _ _ Hi)), Er in Hf.
  destruct Hf as (c & _ & Ec & [Hsz _] & _). exists c. split_and!; auto.
  now rewrite (find_inode_ok _ _ id (pi_meta _ _ _ _ Hi)), Er.
Qed.

Lemma pool_inv_fs_ok w p m fc : pool_inv w p m fc -> fs_ok (fs_of m fc).
Proof.
  intros Hi id. cbn [fs_of fs_data fs_modes]. rewrite lookup_fmap, fmap_is_Some.
  pose proof (pi_data _ _ _ _ Hi id) as Hd. inversion Hd; split; intros Hs; eauto; inversion Hs; discriminate.
Qed.

(** An operation under a change of the error type. *)
Lemma run_mapped {A} (f : PoolError -> Errno) (k : io (os_world * Pool DB) Errno A) (op : pool_op) wp wp' out :
  (let! _ := io_map_err f (run_op op) in k) wp = (wp', out) ->
  exists wp1 out1, run_op op wp = (wp1, out1) /\
    match out1 with Ok _ => k wp1 = (wp', out) | Err e => wp' = wp1 /\ out = Err (f e) | Panic => wp' = wp1 /\ out = Panic end.
Proof.
  unfold io_bind, io_map_err. destruct (run_op op wp) as [wp1 out1]. intros E. exists wp1, out1. split; [reflexivity|].
  destruct out1; cbn [map_err] in E; [exact E|now injection E as <- <-..].
Qed.

(** [write], branch by branch. *)
Lemma write_cases w p m fc (ino offset : Z) data :
  pool_inv w p m fc ->
  Fuse.write ino offset data (w, p) =
    match m_inodes m !! ino with
    | None => ((w, p), Err ENOENT)
    | Some r =>
        let go op := (let! _ := io_map_err errno_for (run_op op) in io_ret (as_u32 (Zlen data))) (w, p) in
        match ir_mode r with
        | Writable => go (OpWrite ino offset data)
        | AppendOnly => if offset =? ir_size r then go (OpAppend ino data) else ((w, p), Err EPERM)
        | Converting => if offset =? ir_size r then go (OpAppend ino data) else ((w, p), Err EAGAIN)
        end
    end.
Proof.
  intros Hi. unfold Fuse.write, io_self, io_lift. unfold io_bind at 1 2. cbn [snd].
  rewrite (pool_inv_inode _ _ _ _ _ Hi). destruct (m_inodes m !! ino) as [r|]; [|reflexivity].
  unfold classify_write, tartine_classify_write. cbv zeta.
  destruct (ir_mode r); simpl; try destruct (offset =? ir_size r); reflexivity.
Qed.

(** The operations of the pool that a request can turn into. *)
Definition may_serve (rq : request) (op : pool_op) : Prop :=
  match rq, op with
  | RqCreate uid gid clock parent name mode, OpCreate parent' name' _ uid' gid' mode' clock' =>
      parent' = parent /\ name' = name /\ uid' = uid /\ gid' = gid /\ mode' = file_mode mode /\ clock' = clock
  | RqUnlink parent name, OpUnlink parent' name' => parent' = parent /\ name' = name
  | RqWrite ino _ data, OpAppend id data' => id = ino /\ data' = data
  | RqWrite ino offset data, OpWrite id offset' data' => id = ino /\ offset' = offset /\ data' = data
  | RqIoctl ino cmd _, OpBeginConvert id => id = ino /\ cmd = TARTINE_IOC_MAKE_WRITABLE
  | RqIoctl ino cmd _, OpCompleteConvert id => id = ino /\ cmd = TARTINE_IOC_MAKE_WRITABLE
  | RqIoctl ino cmd in_data, OpSetRedundancy id sch =>
      id = ino /\ cmd = TARTINE_IOC_SET_REDUNDANCY /\ decode_set_redundancy in_data = Some sch
  | _, _ => False
  end.

(** What a request does to the pool: nothing, one operation, or a conversion
    begun and then completed; if the answer is a success ([ok]), it is. *)
Inductive serves (rq : request) (wp wp' : os_world * Pool DB) (ok : Prop) : Prop :=
  | serves_nothing : wp' = wp -> serves rq wp wp' ok
  | serves_op op out :
      may_serve rq op -> (forall id, op <> OpCompleteConvert id) -> op_fits op wp.2 -> run_op op wp = (wp', out) ->
      (ok -> out = Ok tt) -> serves rq wp wp' ok
  | serves_convert id wp1 out :
      may_serve rq (OpCompleteConvert id) -> op_fits (OpBeginConvert id) wp.2 -> run_op (OpBeginConvert id) wp = (wp1, Ok tt) ->
      op_fits (OpCompleteConvert id) wp1.2 -> run_op (OpCompleteConvert id) wp1 = (wp', out) ->
      (ok -> out = Ok tt) -> serves rq wp wp' ok.

Definition served {A} (rq : request) (wp wp' : os_world * Pool DB) (out : result Errno A) : Prop :=
  out <> Panic /\ serves rq wp wp' (is_ok out = true).

Lemma served_nothing {A} rq wp (out : result Errno A) : out <> Panic -> served rq wp wp out.
Proof. intros Hp. split; [exact Hp|now apply serves_nothing]. Qed.

Lemma run_op_no_panic op w p m fc : pool_inv w p m fc -> op_fits op p -> (run_op op (w, p)).2 <> Panic.
Proof.
  intros Hi Hf. destruct (run_op op (w, p)) as [[w1 p1] out] eqn:E.
  destruct (run_op_refines _ _ _ _ _ _ _ _ Hi Hf E) as (m' & fc' & _ & Hs). cbn. intros ->. inversion Hs.
Qed.

(** A request that is one operation and then only replies. *)
Lemma served_op {A} (k : io (os_world * Pool DB) Errno A) f rq op w p m fc wp' out :
  pool_inv w p m fc -> op_fits op p -> may_serve rq op -> (forall id, op <> OpCompleteConvert id) ->
  (forall wp, exists r, k wp = (wp, r) /\ r <> Panic) ->
  (let! _ := io_map_err f (run_op op) in k) (w, p) = (wp', out) -> served rq (w, p) wp' out.
Proof.
  intros Hi Hf Hrq Hop Hk E. destruct (run_mapped _ _ _ _ _ _ E) as (wp1 & out1 & E1 & Hout).
  pose proof (run_op_no_panic _ _ _ _ _ Hi Hf) as Hnp. rewrite E1 in Hnp.
  destruct (Hk wp1) as (r & Ek & Hr). destruct out1 as [[]|e|]; [| |now destruct Hnp].
  - rewrite Ek in Hout. injection Hout as <- <-. split; [exact Hr|]. now apply (serves_op _ _ _ _ op (Ok tt)).
  - destruct Hout as [-> ->]. split; [discriminate|]. now apply (serves_op _ _ _ _ op (Err e)).
Qed.

Lemma served_void {A} (k : io (os_world * Pool DB) Errno A) rq wp wp' out :
  (forall out1, k wp = (wp', out1) -> served rq wp wp' out1) -> io_void k wp = (wp', out) -> served rq wp wp' out.
Proof.
  unfold io_void, io_bind, io_ret. destruct (k wp) as [wp1 r]. intros H E.
  assert (wp1 = wp') as -> by (destruct r; now injection E).
  destruct (H r eq_refl) as [Hp Hs]. destruct r as [a|e|]; [| |now destruct Hp]; injection E as <-; (split; [discriminate|exact Hs]).
Qed.

Lemma create_served uid gid clock (parent : Z) name mode w p m fc wp' out :
  pool_inv w p m fc -> let rq := RqCreate uid gid clock parent name mode in request_fits rq (w, p) ->
  Fuse.create uid gid clock parent name mode (w, p) = (wp', out) -> served rq (w, p) wp' out.
Proof.
  intros Hi rq (Hp & Hclk & Hfit) E. unfold Fuse.create in E.
  destruct (name_str name) as [name'|] eqn:En; [|injection E as <- <-; now apply served_nothing].
  assert (name' = name) as -> by (unfold name_str in En; destruct (utf8_valid name); congruence).
  unfold io_bind at 1, io_self at 1 in E. cbn [snd] in E. rewrite (pool_inv_lookup _ _ _ _ _ _ Hi Hp) in E.
  destruct (m_dirs m !! (parent, name)) as [x|]; [injection E as <- <-; now apply served_nothing|].
  pose proof (proj2 (mi_refines _ _ (pi_meta _ _ _ _ Hi))) as Hnext. pose proof Hfit as Hfit0.
  cbn [snd op_fits] in Hfit. cbv zeta in E. rewrite Hnext in Hfit. destruct Hfit as (H1 & H2 & H3 & H4 & H5 & H6).
  unfold io_bind, io_map_err in E. fold (file_mode mode) in E.
  destruct (create_file parent name _ uid gid (file_mode mode) clock (w, p)) as [[w1 p1] r1] eqn:Ec.
  destruct (create_file_spec _ _ _ _ _ _ _ _ _ _ _ _ _ _ Hi H1 H2 H3 H4 H5 H6 Ec) as [_ Hout].
  assert (Er : run_op (OpCreate parent name (default_redundancy (disk_count p)) uid gid (file_mode mode) clock) (w, p) =
    ((w1, p1), let? _ := r1 in Ok tt)).
  { cbn [run_op]. unfold io_void, io_bind. rewrite Ec. now destruct r1. }
  assert (Hserves : forall ok : Prop, (ok -> (let? _ := r1 in Ok tt) = Ok tt) -> serves rq (w, p) (w1, p1) ok).
  { intros ok Hok. refine (serves_op _ (w, p) _ _ _ _ _ _ Hfit0 Er Hok); [repeat split|discriminate]. }
  destruct r1 as [id|e|]; cbn [map_err] in E; [|injection E as <- <-; split; [discriminate|now apply Hserves]|contradiction].
  destruct Hout as (-> & m1 & Hi1 & Ei & _). unfold io_self in E. cbn [snd] in E.
  rewrite (pool_inv_get _ _ _ _ _ Hi1), Ei, lookup_insert_eq in E. unfold io_lift, attr_of, system_time in E.
  cbn [ir_mtime_unix new_file] in E. destruct (Z.ltb_spec clock (2 ^ 63)); [|lia].
  injection E as <- <-. split; [discriminate|now apply Hserves].
Qed.

Lemma write_served (ino offset : Z) data w p m fc wp' out :
  pool_inv w p m fc -> op_fits (write_op p ino offset data) p ->
  Fuse.write ino offset data (w, p) = (wp', out) -> served (RqWrite ino offset data) (w, p) wp' out.
Proof.
  intros Hi Hfit E. rewrite (write_cases _ _ _ _ _ _ _ Hi) in E. cbv zeta in E.
  assert (Hret : forall wp : os_world * Pool DB, exists r : result Errno Z,
    io_ret (as_u32 (Zlen data)) wp = (wp, r) /\ r <> Panic) by (intros wp; eexists; split; [reflexivity|discriminate]).
  destruct (m_inodes m !! ino) as [r|] eqn:Er; [|injection E as <- <-; now apply served_nothing].
  destruct (pool_inv_file _ _ _ _ _ _ Hi Er) as (c & _ & _ & Ef). unfold write_op in Hfit. rewrite Ef in Hfit.
  destruct (ir_mode r); [destruct (offset =? ir_size r)..|]; try (injection E as <- <-; now apply served_nothing);
    (eapply served_op; [exact Hi|exact Hfit| |discriminate|exact Hret|exact E]); repeat split.
Qed.

Lemma convert_served (ino flags : Z) in_data w p m fc wp' out :
  pool_inv w p m fc -> op_fits (OpBeginConvert ino) p ->
  op_fits (OpCompleteConvert ino) (run_op (OpBeginConvert ino) (w, p)).1.2 ->
  (let! _ := io_map_err (fun _ => EALREADY) (Pool.begin_convert ino) in
   if negb (Z.land flags TARTINE_CONVERT_FLAG_WAIT =? 0)
   then let! _ := io_map_err errno_for (Pool.complete_convert ino) in io_ret (0, [])
   else io_ret (0, ([] : list byte))) (w, p) = (wp', out) ->
  served (RqIoctl ino TARTINE_IOC_MAKE_WRITABLE in_data) (w, p) wp' out.
Proof.
  intros Hi Hf1 Hf2 E. destruct (run_mapped _ _ (OpBeginConvert ino) _ _ _ E) as ([w1 p1] & out1 & E1 & Hout).
  destruct (run_op_refines _ _ _ _ _ _ _ _ Hi Hf1 E1) as (m1 & fc1 & Hi1 & Hs1). rewrite E1 in Hf2. cbn [fst snd] in Hf2.
  assert (Hone : forall ok : Prop, (ok -> out1 = Ok tt) -> serves (RqIoctl ino TARTINE_IOC_MAKE_WRITABLE in_data) (w, p) (w1, p1) ok)
    by (intros ok Hok; refine (serves_op _ (w, p) _ _ _ _ _ _ Hf1 E1 Hok); [now split|discriminate]).
  destruct out1 as [[]|e|]; [|destruct Hout as [-> ->]; split; [discriminate|now apply Hone]|inversion Hs1].
  destruct (negb _); [|injection Hout as <- <-; split; [discriminate|now apply Hone]].
  destruct (run_mapped _ _ (OpCompleteConvert ino) _ _ _ Hout) as (wp2 & out2 & E2 & Hout2).
  pose proof (run_op_no_panic _ _ _ _ _ Hi1 Hf2) as Hnp. rewrite E2 in Hnp.
  assert (Htwo : forall ok : Prop, (ok -> out2 = Ok tt) -> serves (RqIoctl ino TARTINE_IOC_MAKE_WRITABLE in_data) (w, p) wp2 ok)
    by (intros ok Hok; eapply serves_convert; [now split|exact Hf1|exact E1|exact Hf2|exact E2|exact Hok]).
  destruct out2 as [[]|e|]; [injection Hout2 as <- <-|destruct Hout2 as [-> ->]|now destruct Hnp]; (split; [discriminate|now apply Htwo]).
Qed.

Lemma ioctl_served (ino cmd : Z) in_data w p m fc wp' out :
  pool_inv w p m fc -> let rq := RqIoctl ino cmd in_data in request_fits rq (w, p) ->
  Fuse.ioctl ino cmd in_data (w, p) = (wp', out) -> served rq (w, p) wp' out.
Proof.
  intros Hi rq Hfit E. unfold Fuse.ioctl in E. subst rq. cbn [request_fits snd] in Hfit.
  assert (Hquery : forall f : InodeRecord -> list byte,
    (let! p0 := io_self in let! rec := io_lift (inode_or_errno p0 ino) in io_ret (0, f rec)) (w, p) = (wp', out) ->
    served (RqIoctl ino cmd in_data) (w, p) wp' out).
  { intros f. unfold io_bind, io_self, io_lift. cbn [snd]. rewrite (pool_inv_inode _ _ _ _ _ Hi).
    destruct (m_inodes m !! ino); intros [= <- <-]; now apply served_nothing. }
  assert (Herr : forall e, ((w, p), Err e) = (wp', out) -> served (RqIoctl ino cmd in_data) (w, p) wp' out)
    by (intros e [= <- <-]; now apply served_nothing).
  destruct (Z.eqb_spec cmd TARTINE_IOC_MAKE_WRITABLE) as [->|_].
  { destruct (convert_flags in_data) as [flags|]; [|now apply (Herr EINVAL)].
    destruct Hfit as [Hf1 Hf2]. exact (convert_served ino flags _ _ _ _ _ _ _ Hi Hf1 Hf2 E). }
  destruct (cmd =? TARTINE_IOC_GET_STATE); [exact (Hquery (fun r => TartineState_to_bytes (get_state r)) E)|].
  destruct (Z.eqb_spec cmd TARTINE_IOC_SET_REDUNDANCY) as [->|_].
  { destruct (decode_set_redundancy in_data) as [[slots|]|] eqn:Ed; [|now apply (Herr EOPNOTSUPP)|now apply (Herr EINVAL)].
    refine (served_op _ _ _ (OpSetRedundancy ino (Replicated slots)) _ _ _ _ _ _ Hi Hfit _ _ _ E); [now split_and!|discriminate|].
    intros wp. eexists. split; [reflexivity|discriminate]. }
  destruct (cmd =? TARTINE_IOC_GET_REDUNDANCY);
    [exact (Hquery (fun r => encode_set_redundancy (ir_redundancy r)) E)|]. now apply (Herr ENOTTY).
Qed.

(** A request is served without a panic and is at most two operations. *)
Lemma serve_ops rq w p m fc wp' out :
  pool_inv w p m fc -> request_fits rq (w, p) -> serve rq (w, p) = (wp', out) -> served rq (w, p) wp' out.
Proof.
  intros Hi Hfit. destruct rq as [uid gid clock parent name mode|parent name|ino offset data|ino cmd in_data]; cbn [serve].
  - apply served_void. intros out1. now apply (create_served _ _ _ _ _ _ w p m fc).
  - unfold Fuse.unlink. destruct (name_str name) as [name'|] eqn:En; intros E; [|injection E as <- <-; now apply served_nothing].
    assert (name' = name) as -> by (unfold name_str in En; destruct (utf8_valid name); congruence).
    refine (served_op (io_ret tt) errno_for _ (OpUnlink parent name) _ _ _ _ _ _ Hi Hfit _ _ _ _); [now split|discriminate| |].
    + intros wp. eexists. split; [reflexivity|discriminate].
    + unfold io_bind, io_map_err, io_ret in *. cbn [run_op].
      destruct (Pool.unlink parent name (w, p)) as [wp1 [[]|e|]]; exact E.
  - apply served_void. intros out1. now apply (write_served _ _ _ w p m fc).
  - apply served_void. intros out1. now apply (ioctl_served _ _ _ w p m fc).
Qed.

(** It is a step of the file system. *)
Lemma serve_refines rq w p m fc w' p' out :
  pool_inv w p m fc -> request_fits rq (w, p) -> serve rq (w, p) = ((w', p'), out) ->
  out <> Panic /\ exists m' fc', pool_inv w' p' m' fc' /\ fs_request (fs_of m fc) (fs_of m' fc').
Proof.
  intros Hi Hfit E. destruct (serve_ops _ _ _ _ _ _ _ Hi Hfit E) as [Hp Hs]. split; [exact Hp|].
  destruct Hs as [[= -> ->]|op out1 _ Hop Hf E1 _|id [w1 p1] out1 _ Hf1 E1 Hf2 E2 _]; cbn [snd] in *.
  - exists m, fc. split; [exact Hi|constructor].
  - destruct (run_op_refines _ _ _ _ _ _ _ _ Hi Hf E1) as (m' & fc' & Hi' & Hst).
    exists m', fc'. split; [exact Hi'|]. now apply (request_op _ op out1).
  - destruct (run_op_refines _ _ _ _ _ _ _ _ Hi Hf1 E1) as (m1 & fc1 & Hi1 & Hs1).
    destruct (run_op_refines _ _ _ _ _ _ _ _ Hi1 Hf2 E2) as (m2 & fc2 & Hi2 & Hs2).
    exists m2, fc2. split; [exact Hi2|]. exact (request_convert _ _ _ _ _ Hs1 Hs2).
Qed.

(** ** The life of a mount *)
Inductive mount_step : os_world * Pool DB -> os_world * Pool DB -> Prop :=
  | mount_request rq wp wp' out : request_fits rq wp -> serve rq wp = (wp', out) -> mount_step wp wp'
  | mount_fault w p faults : mount_step (w, p) ({| w_files := w_files w; w_durable := w_durable w; w_fault := faults |}, p)
  | mount_crashed w p w' : crashed w w' -> mount_step (w, p) (w', p).

Lemma mount_run wp wp' s :
  rtc mount_step wp wp' -> represents wp.1 wp.2 s ->
  exists s', represents wp'.1 wp'.2 s' /\ rtc fs_request s s'.
Proof.
  intros Hr. revert s. induction Hr as [|[w p] [w1 p1] wp' Hs _ IH]; intros s Hrep.
  { exists s. split; [exact Hrep|constructor]. }
  assert (H : exists s1, represents w1 p1 s1 /\ fs_request s s1).
  { destruct Hrep as (m & fc & Hi & ->). inversion Hs as [rq ? ? out Hfit E|? ? faults|? ? ? Hc]; subst.
    - destruct (serve_refines _ _ _ _ _ _ _ _ Hi Hfit E) as (_ & m' & fc' & Hi' & Hq).
      exists (fs_of m' fc'). split; [now exists m', fc'|exact Hq].
    - exists (fs_of m fc). split; [|constructor]. exists m, fc. split; [|reflexivity].
      eapply inv_keep; eauto; [now apply grows_same; [..|intros d b x y]|exact (pi_disks _ _ _ _ Hi)|exact (pi_meta _ _ _ _ Hi)|lia].
    - exists (fs_of m fc). split; [|constructor]. exists m, fc. split; [now apply (crashed_inv w)|reflexivity]. }
  destruct H as (s1 & Hrep1 & Hq). destruct (IH s1 Hrep1) as (s' & Hrep' & Hqs). exists s'.
  split; [exact Hrep'|]. now apply (rtc_l _ _ s1).
Qed.

Lemma represents_ok w p s : represents w p s -> fs_ok s.
Proof. intros (m & fc & Hi & ->). eapply pool_inv_fs_ok, Hi. Qed.

Lemma fs_requests_grow s s' : fs_ok s -> rtc fs_request s s' -> fs_ok s' /\ fs_grows s s'.
Proof.
  intros Hok Hr. induction Hr as [|s s1 s' H _ IH]; [split; [exact Hok|reflexivity]|].
  destruct (fs_request_grows _ _ Hok H) as [Hok1 Hg]. destruct (IH Hok1) as [Hok' Hg'].
  split; [exact Hok'|]. now transitivity s1.
Qed.

Lemma fs_requests_stuck s s' (id : Z) :
  fs_ok s -> rtc fs_request s s' -> fs_modes s !! id = Some Converting -> fs_modes s' !! id = Some Converting.
Proof.
  intros Hok Hr. induction Hr as [|s s1 s' H _ IH]; [auto|]. intros Hm.
  apply IH; [exact (proj1 (fs_request_grows _ _ Hok H))|now apply (fs_request_stuck s)].
Qed.

(** The file [id] as the mount shows it. *)
Definition shows w p (id : Z) (c : list byte) (m : InodeMode) : Prop :=
  exists r, Pool.get_inode p id = Ok (Some r) /\ ir_mode r = m /\ ir_size r = Zlen c /\
    Fuse.read p id 0 (Zlen c) w = Ok c.

Lemma represents_shows w p s (id : Z) c m :
  represents w p s -> shows w p id c m <-> fs_data s !! id = Some c /\ fs_modes s !! id = Some m.
Proof.
  intros (mm & fc & Hi & ->). cbn [fs_of fs_data fs_modes]. rewrite lookup_fmap. unfold shows.
  assert (Hread : forall c, fc !! id = Some c -> Fuse.read p id 0 (Zlen c) w = Ok c).
  { intros c0 Hc0. unfold Fuse.read. rewrite (read_ok_content _ _ _ _ _ _ _ _ Hi Hc0) by (unfold Zlen; lia).
    cbn [map_err]. unfold content_slice, Zlen. rewrite Nat2Z.id. now rewrite drop_0, firstn_all. }
  rewrite (pool_inv_get _ _ _ _ id Hi). split.
  - intros (r & [= Er] & Hm & Hsz & Hrd). destruct (pool_inv_file _ _ _ _ _ _ Hi Er) as (c' & Ec & Hsz' & _).
    rewrite Er. split; [|simpl; congruence]. rewrite Ec. f_equal. pose proof (Hread _ Ec) as H.
    rewrite <- Hsz', Hsz in H. congruence.
  - intros [Ec Em]. destruct (mm.(m_inodes) !! id) as [r|] eqn:Er; [|discriminate]. injection Em as <-.
    destruct (pool_inv_file _ _ _ _ _ _ Hi Er) as (c' & Ec' & Hsz & _). exists r. split_and!; auto; congruence.
Qed.
End Mount.
