(* ===== verification/FuseMount.v ===== *)
(** * The mount's guarantees

    What a user of the mounted file system relies on: written data stays, the
    answer to every write, the redundancy ioctls. *)

From Stdlib Require Import ZArith Lia.
From stdpp Require Import relations.
From S2P Require Import Prelude Proto KPlacement Disk Segment Wal Codec Replicator Redb Store StoreSpec StoreRefine.
From S2P Require Import StoreRecovery StoreReads CorePlacement Pool PoolSpec PoolRefine PoolFormat PoolLife.
From S2P Require Import KWritePath FuseWritePath Ioctl Fuse FuseSpec.

Section Mount.
Context {DB : Type} `{!Redb DB} `{!RedbLaws DB} `{!RedbReliable DB} `{HI : !HashIter}.
Implicit Types (w : os_world) (p : Pool DB).

Lemma format_represents paths classes clock w0 w p :
  format_with_classes paths classes clock w0 = (w, Ok p) -> Zlen paths < u32_max -> clock < 2 ^ 64 ->
  represents w p fs_init.
Proof. intros E H1 H2. eexists _, _. split; [exact (format_ok _ _ _ _ _ _ E H1 H2)|reflexivity]. Qed.

(** What a mount showed, it still shows, grown. *)
Lemma shows_later w p s w1 p1 w2 p2 (id : Z) c m :
  represents w p s -> rtc mount_step (w, p) (w1, p1) -> rtc mount_step (w1, p1) (w2, p2) -> shows w1 p1 id c m ->
  exists c' m', shows w2 p2 id c' m' /\ file_grows c m c' m' /\ (m = Converting -> m' = Converting).
Proof.
  intros H0 H1 H2 Hsh. destruct (mount_run _ _ _ H1 H0) as (s1 & Hr1 & _). cbn [fst snd] in Hr1.
  destruct (mount_run _ _ _ H2 Hr1) as (s2 & Hr2 & Hq). cbn [fst snd] in Hr2.
  destruct (proj1 (represents_shows _ _ _ _ _ _ Hr1) Hsh) as [Hc Hm]. pose proof (represents_ok _ _ _ Hr1) as Hok.
  destruct (proj2 (fs_requests_grow _ _ Hok Hq) id c m Hc Hm) as (c' & m' & Hc' & Hm' & Hg). exists c', m'.
  split; [exact (proj2 (represents_shows _ _ _ _ _ _ Hr2) (conj Hc' Hm'))|]. split; [exact Hg|].
  intros ->. pose proof (fs_requests_stuck _ _ id Hok Hq Hm). congruence.
Qed.


(** C12: a conversion that is not waited for never ends.  Once a file is
    converting between two requests, no sequence of requests makes it writable
    or append-only again; it still takes appends. *)
Theorem converting_for_ever paths classes clock w0 w p w1 p1 w2 p2 (id : Z) c :
  format_with_classes paths classes clock w0 = (w, Ok p) -> Zlen paths < u32_max -> clock < 2 ^ 64 ->
  rtc mount_step (w, p) (w1, p1) -> rtc mount_step (w1, p1) (w2, p2) -> shows w1 p1 id c Converting ->
  exists c', shows w2 p2 id c' Converting /\ c `prefix_of` c'.
Proof.
  intros E H1 H2 Hr1 Hr2 Hsh. pose proof (format_represents _ _ _ _ _ _ E H1 H2) as Hrep.
  destruct (shows_later _ _ _ _ _ _ _ _ _ _ Hrep Hr1 Hr2 Hsh) as (c' & m' & Hs' & [_ Hc] & Hst).
  rewrite (Hst eq_refl) in Hs', Hc. destruct Hc as [|Hc]; [discriminate|eauto].
Qed.

(** ** Writes *)

(** The file system with another content for [id]. *)
Definition with_content (id : Z) (c : list byte) (s : fs) : fs :=
  {| fs_names := fs_names s; fs_modes := fs_modes s; fs_data := <[id := c]> (fs_data s) |}.

(** The request was carried out and acknowledged in full, or failed and
    changed nothing. *)
Definition all_or_nothing w' p' (out : result Errno Z) (n : Z) (s s' : fs) : Prop :=
  (out = Ok n /\ represents w' p' s') \/ (exists e, out = Err e /\ represents w' p' s).

Lemma write_op_all_or_nothing op n w p s w' p' out s' :
  represents w p s -> op_fits op p -> (forall s1, fs_step s op (Ok tt) s1 -> s1 = s') ->
  (forall e s1, fs_step s op (Err e) s1 -> s1 = s) ->
  (let! _ := io_map_err errno_for (run_op op) in io_ret n) (w, p) = ((w', p'), out) ->
  all_or_nothing w' p' out n s s'.
Proof.
  intros (m & fc & Hi & ->) Hfit Hok Herr E. destruct (run_mapped _ _ _ _ _ _ E) as ([w1 p1] & out1 & E1 & Hout).
  destruct (run_op_refines _ _ _ _ _ _ _ _ Hi Hfit E1) as (m' & fc' & Hi' & Hs).
  assert (Hrep : represents w1 p1 (fs_of m' fc')) by now exists m', fc'.
  destruct out1 as [[]|e|].
  - injection Hout as <- <- <-. left. rewrite <- (Hok _ Hs). auto.
  - destruct Hout as [[= -> ->] ->]. right. rewrite <- (Herr _ _ Hs). eauto.
  - inversion Hs.
Qed.

(** C5: the answer to a write.  There is no file, [ENOENT]; an append-only
    file takes exactly the writes at its end and answers the others with
    [EPERM], a converting one with [EAGAIN]; a writable file takes every write.
    A write that is taken is carried out and acknowledged in full, or fails and
    changes no file, whatever the devices do; one that is not taken changes
    nothing at all. *)
Theorem write_reply w p s (ino offset : Z) data w' p' out :
  represents w p s -> request_fits (RqWrite ino offset data) (w, p) ->
  Fuse.write ino offset data (w, p) = ((w', p'), out) ->
  match fs_data s !! ino, fs_modes s !! ino with
  | Some c, Some mode =>
      let taken c' := all_or_nothing w' p' out (as_u32 (Zlen data)) s (with_content ino c' s) in
      let refused e := out = Err e /\ (w', p') = (w, p) in
      match mode with
      | Writable => taken (overwrite c offset data)
      | AppendOnly => if offset =? Zlen c then taken (c ++ data) else refused EPERM
      | Converting => if offset =? Zlen c then taken (c ++ data) else refused EAGAIN
      end
  | _, _ => out = Err ENOENT /\ (w', p') = (w, p)
  end.
Proof.
  intros Hrep Hfit E. pose proof Hrep as (m & fc & Hi & ->). cbn [fs_of fs_data fs_modes] in *.
  rewrite (write_cases _ _ _ _ _ _ _ Hi) in E. rewrite lookup_fmap. cbv zeta in *. cbn [request_fits snd] in Hfit.
  destruct (m_inodes m !! ino) as [r|] eqn:Er.
  - destruct (pool_inv_file _ _ _ _ _ _ Hi Er) as (c & Ec & Hsz & Ef). unfold write_op in Hfit. rewrite Ef in Hfit.
    rewrite Ec. cbn [fmap option_fmap option_map]. rewrite Hsz in E.
    destruct (ir_mode r); [destruct (offset =? Zlen c)..|]; try (injection E as <- <- <-; now split);
      eapply write_op_all_or_nothing; try exact E; try exact Hrep; try exact Hfit;
      try (intros e s1 Hs; now inversion Hs); intros s1 Hs; inversion Hs; subst; unfold with_content; repeat f_equal;
      cbn [fs_of fs_data] in *; congruence.
  - injection E as <- <- <-. now destruct (fc !! ino).
Qed.

(** The answer to a change of attributes: a new size is refused with [EPERM]
    before a file is writable; every other change is answered with the
    attributes as they are.  In particular a truncation of a writable file is
    acknowledged and not carried out. *)
Theorem setattr_reply w p s (ino : Z) size :
  represents w p s ->
  setattr p ino size =
    match fs_data s !! ino, fs_modes s !! ino, size with
    | Some c, Some (AppendOnly | Converting), Some n => if n =? Zlen c then getattr p ino else Err EPERM
    | _, _, _ => getattr p ino
    end.
Proof.
  intros (m & fc & Hi & ->). cbn [fs_of fs_data fs_modes]. unfold setattr, getattr. rewrite lookup_fmap.
  rewrite (pool_inv_inode _ _ _ _ _ Hi). destruct (m_inodes m !! ino) as [r|] eqn:Er.
  - destruct (pool_inv_file _ _ _ _ _ _ Hi Er) as (c & Ec & Hsz & _). rewrite Ec. cbn [fmap option_fmap option_map result_bind]. rewrite ?Hsz.
    destruct size as [n|]; [|now destruct (ir_mode r)]. unfold truncate_allowed.
    destruct (ir_mode r); simpl; destruct (n =? Zlen c); reflexivity.
  - simpl. now destruct (fc !! ino).
Qed.

(** ** The redundancy ioctls *)

Lemma decode_set_redundancy_length buf slots :
  decode_set_redundancy buf = Some (Replicated slots) -> (length slots <= MAX_SELECT)%nat.
Proof.
  unfold decode_set_redundancy. destruct (negb _); [discriminate|].
  destruct (_ =? TARTINE_REDUNDANCY_REPLICATED); [|destruct (_ =? _); discriminate].
  destruct (Z.ltb_spec (Z.of_nat MAX_SELECT) (from_le (field buf 4 8))); [discriminate|].
  destruct (mapM _ _) as [l|] eqn:El; [|discriminate]. intros [= <-]. apply length_mapM in El. rewrite length_seq in El. lia.
Qed.

(** The redundancy ioctls agree: after a policy has been set and
    acknowledged, reading it back answers with a buffer that means the same
    policy, and reading changes nothing; an erasure code is refused with
    [EOPNOTSUPP] and a buffer that is no policy with [EINVAL], without an
    effect. *)
Lemma set_then_get_redundancy w p s (ino : Z) in_data w' p' out :
  represents w p s -> request_fits (RqIoctl ino TARTINE_IOC_SET_REDUNDANCY in_data) (w, p) ->
  Fuse.ioctl ino TARTINE_IOC_SET_REDUNDANCY in_data (w, p) = ((w', p'), out) ->
  match decode_set_redundancy in_data with
  | None => out = Err EINVAL /\ (w', p') = (w, p)
  | Some (ErasureCoded _ _) => out = Err EOPNOTSUPP /\ (w', p') = (w, p)
  | Some scheme => represents w' p' s /\ out <> Panic /\
      (is_ok out = true -> out = Ok (0, []) /\ exists buf,
         (forall data, Fuse.ioctl ino TARTINE_IOC_GET_REDUNDANCY data (w', p') = ((w', p'), Ok (0, buf))) /\
         decode_set_redundancy buf = Some scheme)
  end.
Proof.
  intros (m & fc & Hi & ->) Hfit E. unfold Fuse.ioctl in E. cbn [request_fits snd] in Hfit.
  change (TARTINE_IOC_SET_REDUNDANCY =? TARTINE_IOC_MAKE_WRITABLE) with false in *.
  change (TARTINE_IOC_SET_REDUNDANCY =? TARTINE_IOC_GET_STATE) with false in *.
  change (TARTINE_IOC_SET_REDUNDANCY =? TARTINE_IOC_SET_REDUNDANCY) with true in *. cbv iota in E, Hfit.
  destruct (decode_set_redundancy in_data) as [[slots|]|] eqn:Ed; try (injection E as <- <- <-; now split).
  destruct (run_mapped _ _ (OpSetRedundancy ino (Replicated slots)) _ _ _ E) as ([w1 p1] & out1 & E1 & Hout).
  pose proof Hfit as [[Hu Hw] [Ha Hroom]].
  pose proof (set_redundancy_spec _ _ _ _ _ _ _ _ _ Hi Hu Hw Ha Hroom E1) as Hspec.
  destruct (run_op_refines _ _ _ _ _ _ _ _ Hi Hfit E1) as (m' & fc' & Hi' & Hs).
  assert (Hrep : represents w1 p1 (fs_of m fc)).
  { exists m', fc'. split; [exact Hi'|]. inversion Hs; unfold fs_of; congruence. }
  destruct out1 as [[]|e|]; [|destruct Hout as [[= -> ->] ->]; split_and!; [exact Hrep|discriminate..]|inversion Hs].
  injection Hout as <- <- <-. split; [exact Hrep|]. split; [discriminate|]. intros _. split; [reflexivity|].
  destruct Hspec as (m1 & Es & Hi1). apply on_inode_Ok in Es as (r & r' & Er & [= <-] & ->).
  exists (encode_set_redundancy (Replicated slots)). split.
  - intros data. unfold Fuse.ioctl.
    change (TARTINE_IOC_GET_REDUNDANCY =? TARTINE_IOC_MAKE_WRITABLE) with false.
    change (TARTINE_IOC_GET_REDUNDANCY =? TARTINE_IOC_GET_STATE) with false.
    change (TARTINE_IOC_GET_REDUNDANCY =? TARTINE_IOC_SET_REDUNDANCY) with false.
    change (TARTINE_IOC_GET_REDUNDANCY =? TARTINE_IOC_GET_REDUNDANCY) with true. cbv iota.
    unfold io_bind, io_self, io_lift. cbn [snd]. rewrite (pool_inv_inode _ _ _ _ _ Hi1).
    cbn [with_inode m_inodes]. pose proof (pool_inv_ids _ _ _ _ Hi _ _ Er) as Hid. cbn [ir_inode] in *.
    simpl. rewrite Hid, lookup_insert_eq. reflexivity.
  - destruct (decode_encode_replicated slots (proj2 Hw)) as [_ H]. rewrite H, take_ge; [reflexivity|].
    exact (decode_set_redundancy_length _ _ Ed).
Qed.
End Mount.
