(* ===== verification/FuseDir.v ===== *)
(** * Listing a directory through the mount

    The kernel lists a directory page by page: it asks again from the offset
    of the last entry it got until a page is empty.  The reply buffer is
    [fuser]'s, so it is a parameter with the documented behaviour of
    [ReplyDirectory::add] as its laws. *)

From Stdlib Require Import ZArith Lia.
From S2P Require Import Prelude Proto Disk Codec Redb Store StoreSpec StoreRefine StoreReads CorePlacement.
From S2P Require Import Pool PoolSpec PoolRefine PoolFormat PoolLife Fuse FuseSpec.

Abbreviation entry := (Z * FileType * list byte)%type.

(** A directory reply buffer: [add] with what it has been given so far, and
    the empty buffer the kernel sends with its [n]-th request. *)
Class ReplyBuffer (R : Type) := {
  rb_add : R -> Z -> Z -> FileType -> list byte -> R * bool;
  rb_listed : R -> list (Z * entry);
  rb_fresh : nat -> R;
}.
(** [add] appends, or says that the buffer is full and leaves it; an empty
    buffer takes at least one entry. *)
Class ReplyBufferLaws (R : Type) `{!ReplyBuffer R} := {
  rb_add_ok : forall r ino off kind name r',
    rb_add r ino off kind name = (r', false) -> rb_listed r' = rb_listed r ++ [(off, (ino, kind, name))];
  rb_add_full : forall r ino off kind name r', rb_add r ino off kind name = (r', true) -> rb_listed r' = rb_listed r;
  rb_fresh_empty : forall n, rb_listed (rb_fresh n) = [];
  rb_fresh_room : forall n ino off kind name, (rb_add (rb_fresh n) ino off kind name).2 = false;
}.

(** Entries with the offsets that [readdir] gives them. *)
Fixpoint with_offsets (i : Z) (es : list entry) : list (Z * entry) :=
  match es with
  | [] => []
  | e :: rest => (i + 1, e) :: with_offsets (i + 1) rest
  end.

Lemma with_offsets_snd i es : (with_offsets i es).*2 = es.
Proof. revert i. induction es as [|e es IH]; intros i; [reflexivity|]. simpl. now rewrite IH. Qed.

Lemma last_with_offsets i e es : exists x, last (with_offsets i (e :: es)) = Some (i + Zlen (e :: es), x).
Proof.
  revert i e. induction es as [|e' es IH]; intros i e; [now exists e|].
  destruct (IH (i + 1) e') as [x Hx]. exists x. cbn [with_offsets] in *. rewrite last_cons, Hx.
  f_equal. f_equal. rewrite !Zlen_cons. lia.
Qed.

Section Pages.
Context {R : Type} `{!ReplyBuffer R} `{!ReplyBufferLaws R}.

(** A page holds the entries up to some point. *)
Lemma add_entries_prefix i es r :
  exists k, (k <= length es)%nat /\ rb_listed (add_entries rb_add i es r) = rb_listed r ++ with_offsets i (take k es).
Proof.
  revert i r. induction es as [|[[ino kind] name] es IH]; intros i r; cbn [add_entries].
  { exists 0%nat. split; [simpl; lia|]. simpl. now rewrite app_nil_r. }
  destruct (rb_add r ino (i + 1) kind name) as [r' []] eqn:E.
  - exists 0%nat. split; [simpl; lia|]. apply rb_add_full in E. simpl. now rewrite app_nil_r.
  - apply rb_add_ok in E. destruct (IH (i + 1) r') as (k & Hk & El). exists (S k). split; [simpl; lia|].
    rewrite El, E, <- app_assoc. reflexivity.
Qed.

Lemma first_page i es n :
  exists k, (k <= length es)%nat /\ (es <> [] -> (0 < k)%nat) /\
    rb_listed (add_entries rb_add i es (rb_fresh n)) = with_offsets i (take k es).
Proof.
  destruct es as [|[[ino kind] name] es]; cbn [add_entries].
  { exists 0%nat. split; [simpl; lia|]. split; [congruence|]. exact (rb_fresh_empty n). }
  pose proof (rb_fresh_room n ino (i + 1) kind name) as Hf.
  destruct (rb_add (rb_fresh n) ino (i + 1) kind name) as [r' full] eqn:E. cbn [snd] in Hf. subst full.
  apply rb_add_ok in E. destruct (add_entries_prefix (i + 1) es r') as (k & Hk & El). exists (S k).
  split_and!; [simpl; lia|lia|]. now rewrite El, E, rb_fresh_empty.
Qed.

Context {DB : Type} `{!Redb DB} `{!RedbLaws DB} `{!RedbReliable DB} `{HI : !HashIter}.
Implicit Types (w : os_world) (p : Pool DB).

(** At most [n] requests for pages, the first one from [offset]. *)
Fixpoint pages (n : nat) p (ino offset : Z) : result Errno (list entry) :=
  match n with
  | O => Ok []
  | S n' =>
      let? r := Fuse.readdir rb_add p ino offset (rb_fresh n') in
      match last (rb_listed r) with
      | None => Ok []
      | Some (offset', _) => let? rest := pages n' p ino offset' in Ok ((rb_listed r).*2 ++ rest)
      end
  end.

Lemma pages_list n p ino es k :
  dir_entries p ino = Ok es -> (length es - k < n)%nat -> pages n p ino (Z.of_nat k) = Ok (drop k es).
Proof.
  intros He. revert k. induction n as [|n IH]; intros k Hn; [lia|]. cbn [pages]. unfold Fuse.readdir.
  rewrite He. cbn [result_bind]. rewrite Nat2Z.id.
  destruct (first_page (Z.of_nat k) (drop k es) n) as (j & Hj & Hpos & El). rewrite El.
  destruct (drop k es) as [|e rest] eqn:Ed.
  { assert (j = 0%nat) as -> by (simpl in Hj; lia). reflexivity. }
  assert (Hlen : (length es = k + S (length rest))%nat).
  { assert (Hl : length (drop k es) = S (length rest)) by now rewrite Ed. rewrite length_drop in Hl. lia. }
  destruct j as [|j]; [specialize (Hpos ltac:(discriminate)); lia|]. cbn [take].
  destruct (last_with_offsets (Z.of_nat k) e (take j rest)) as [x Hx]. rewrite Hx, with_offsets_snd.
  assert (Hoff : Z.of_nat k + Zlen (e :: take j rest) = Z.of_nat (k + S j)).
  { unfold Zlen. simpl in *. rewrite length_take. lia. }
  rewrite Hoff, IH by (simpl in Hj; lia). cbn [result_bind]. f_equal.
  rewrite <- drop_drop, Ed. simpl. now rewrite take_drop.
Qed.

(** The kind that [readdir] reports for a child. *)
Definition child_kind p (child : Z) : FileType :=
  match Pool.get_inode p child with Ok (Some rec) => kind_of rec | _ => RegularFile end.

Lemma child_entries_ok w p m fc children :
  pool_inv w p m fc ->
  child_entries p children = Ok ((fun nc : list byte * Z => (nc.2, child_kind p nc.2, nc.1)) <$> children).
Proof.
  intros Hi. induction children as [|[name c] rest IH]; [reflexivity|]. cbn [child_entries]. unfold child_kind.
  rewrite (pool_inv_get _ _ _ _ _ Hi), IH. rewrite fmap_cons. cbn [fst snd].
  rewrite (pool_inv_get _ _ _ _ _ Hi). now destruct (m_inodes m !! c).
Qed.

Lemma dir_entries_ok w p s (ino : Z) :
  represents w p s -> u64 ino ->
  exists l, NoDup l.*1 /\ (forall name c, (name, c) ∈ l <-> fs_names s !! (ino, name) = Some c) /\
    dir_entries p ino = Ok ([(ino, Directory, [x2e]); (ino, Directory, [x2e; x2e])] ++
      ((fun nc : list byte * Z => (nc.2, child_kind p nc.2, nc.1)) <$> l)).
Proof.
  intros (m & fc & Hi & ->) Hu. pose proof (pi_meta _ _ _ _ Hi) as Hm.
  destruct (readdir_lists _ _ _ ino (mi_refines _ _ Hm) (mi_wf _ _ Hm) Hu) as (l & El & Hno & Hin). exists l.
  split_and!; auto. unfold dir_entries, Pool.readdir. rewrite El. cbn [map_err result_bind].
  now rewrite (child_entries_ok _ _ _ _ _ Hi).
Qed.

(** C10: a directory is listed completely.  Whatever the sizes of the kernel's
    buffers, asking for pages until one is empty ends, and the pages together
    are [.], [..] and every file of the directory, each exactly once and with
    its kind; no entry is lost or repeated at a page boundary. *)
Theorem listing_is_complete w p s (ino : Z) :
  represents w p s -> u64 ino ->
  exists l, NoDup l.*1 /\ (forall name c, (name, c) ∈ l <-> fs_names s !! (ino, name) = Some c) /\
    forall n, (length l + 2 < n)%nat -> pages n p ino 0 = Ok (
      [(ino, Directory, [x2e]); (ino, Directory, [x2e; x2e])] ++
      ((fun nc : list byte * Z => (nc.2, child_kind p nc.2, nc.1)) <$> l)).
Proof.
  intros Hrep Hu. destruct (dir_entries_ok _ _ _ _ Hrep Hu) as (l & H1 & H2 & He). exists l. split_and!; auto.
  intros n Hn. apply (pages_list n p ino _ 0 He). rewrite length_app, length_fmap. simpl. lia.
Qed.
End Pages.
