(* ===== verification/FuseRuns.v ===== *)
(** * Runs of the mount

    Witnesses of the mount's theorems on a pool of two disks, and the request
    that makes a pool unopenable. *)

From Stdlib Require Import ZArith Lia.
From stdpp Require Import relations.
From S2P Require Import Prelude Proto KPlacement Disk Segment Wal Codec Replicator Redb Store StoreSpec StoreRefine.
From S2P Require Import StoreRecovery StoreReads CorePlacement Pool PoolSpec PoolRefine PoolFormat PoolLife PoolRuns.
From S2P Require Import FuseWritePath Ioctl Fuse FuseSpec FuseMount FuseDir.

#[local] Existing Instance hash_iter_by_key.

Fixpoint serve_all (rqs : list request) (wp : os_world * Pool tables) : os_world * Pool tables :=
  match rqs with
  | [] => wp
  | rq :: rest => serve_all rest (serve rq wp).1
  end.

Fixpoint all_fit (rqs : list request) (wp : os_world * Pool tables) : bool :=
  match rqs with
  | [] => true
  | rq :: rest => bool_decide (request_fits rq wp) && all_fit rest (serve rq wp).1
  end.

Lemma serve_all_steps rqs wp : all_fit rqs wp = true -> rtc mount_step wp (serve_all rqs wp).
Proof.
  revert wp. induction rqs as [|rq rest IH]; intros wp Hf; [apply rtc_refl|]. cbn [all_fit serve_all] in *.
  apply andb_true_iff in Hf as [Hf Hr]. apply bool_decide_eq_true in Hf. eapply rtc_l; [|now apply IH].
  econstructor; [exact Hf|apply surjective_pairing].
Qed.

(** What the mount shows of a file, if anything. *)
Definition shown (wp : os_world * Pool tables) (id : Z) : option (list byte * InodeMode) :=
  match Pool.get_inode wp.2 id with
  | Ok (Some r) =>
      match Fuse.read wp.2 id 0 (ir_size r) wp.1 with
      | Ok c => if ir_size r =? Zlen c then Some (c, ir_mode r) else None
      | _ => None
      end
  | _ => None
  end.

Lemma shown_shows wp id c m : shown wp id = Some (c, m) -> shows wp.1 wp.2 id c m.
Proof.
  unfold shown, shows. destruct (Pool.get_inode wp.2 id) as [[r|]|?|]; try discriminate.
  destruct (Fuse.read wp.2 id 0 (ir_size r) wp.1) as [c'|?|] eqn:E; try discriminate.
  destruct (Z.eqb_spec (ir_size r) (Zlen c')); [|discriminate]. intros [= -> <-]. exists r. split_and!; auto. congruence.
Qed.

(** A file is made and written to; it is made writable without waiting; a disk
    fails, and another append is refused for it. *)
Definition no_flags : list byte := [x00; x00; x00; x00].
Definition mount_start : list request :=
  [RqCreate 0 0 1001 1 [x66] 0x1a4; RqWrite 2 0 [x61; x62; x63]].
Definition mounted : os_world * Pool tables := serve_all mount_start demo_pool.
Definition converting : os_world * Pool tables :=
  serve_all [RqIoctl 2 TARTINE_IOC_MAKE_WRITABLE no_flags] mounted.
Definition mounted_on : os_world * Pool tables :=
  serve_all [RqWrite 2 3 [x64]; RqIoctl 2 TARTINE_IOC_MAKE_WRITABLE no_flags; RqUnlink 1 [x66]]
    (with_fault {[path_b := 5]} converting).

Lemma mounted_steps : rtc mount_step demo_pool mounted.
Proof. apply serve_all_steps. vm_compute. reflexivity. Qed.
Lemma converting_steps : rtc mount_step mounted converting.
Proof. apply serve_all_steps. vm_compute. reflexivity. Qed.
Lemma mounted_on_steps : rtc mount_step converting mounted_on.
Proof.
  assert (H : all_fit [RqWrite 2 3 [x64]; RqIoctl 2 TARTINE_IOC_MAKE_WRITABLE no_flags; RqUnlink 1 [x66]]
    (with_fault {[path_b := 5]} converting) = true) by (vm_compute; reflexivity).
  refine (rtc_l _ _ _ _ _ (serve_all_steps _ _ H)). destruct converting as [w p]. apply mount_fault.
Qed.

Lemma demo_pool_formatted :
  format_with_classes demo_paths demo_classes 1000 no_world = (demo_pool.1, Ok demo_pool.2).
Proof. vm_compute. reflexivity. Qed.


Lemma converting_for_ever_witness :
  exists c', shows mounted_on.1 mounted_on.2 2 c' Converting /\ [x61; x62; x63] `prefix_of` c'.
Proof.
  refine (converting_for_ever demo_paths demo_classes 1000 no_world demo_pool.1 demo_pool.2 converting.1 converting.2
    mounted_on.1 mounted_on.2 2 [x61; x62; x63] demo_pool_formatted _ _ _ _ _).
  - reflexivity.
  - reflexivity.
  - rewrite <- !surjective_pairing. etransitivity; [exact mounted_steps|exact converting_steps].
  - rewrite <- !surjective_pairing. exact mounted_on_steps.
  - apply shown_shows. vm_compute. reflexivity.
Defined.

(** The states in between are file systems. *)
Lemma mounted_represents : exists s, represents mounted.1 mounted.2 s.
Proof.
  destruct (mount_run _ _ fs_init mounted_steps) as (s & H & _); [|now exists s].
  apply (format_represents demo_paths demo_classes 1000 no_world); [exact demo_pool_formatted|reflexivity..].
Qed.

Lemma write_reply_witness :
  exists s, represents mounted.1 mounted.2 s /\
    match fs_data s !! 2, fs_modes s !! 2 with
    | Some c, Some AppendOnly =>
        if 3 =? Zlen c
        then all_or_nothing (Fuse.write 2 3 [x64] (mounted.1, mounted.2)).1.1
               (Fuse.write 2 3 [x64] (mounted.1, mounted.2)).1.2
               (Fuse.write 2 3 [x64] (mounted.1, mounted.2)).2 (as_u32 (Zlen [x64])) s (with_content 2 (c ++ [x64]) s)
        else True
    | _, _ => True
    end.
Proof.
  destruct mounted_represents as [s Hs]. exists s. split; [exact Hs|].
  assert (Hfit : request_fits (RqWrite 2 3 [x64]) (mounted.1, mounted.2)).
  { rewrite <- surjective_pairing. apply (bool_decide_unpack _). vm_compute. exact I. }
  pose proof (write_reply mounted.1 mounted.2 s 2 3 [x64] _ _ _ Hs Hfit
    (eq_trans (surjective_pairing _) (f_equal2 pair (surjective_pairing _) eq_refl))) as H.
  cbv zeta in H. destruct (fs_data s !! 2) as [c|]; [|exact I]. destruct (fs_modes s !! 2) as [[]|]; try exact I.
  destruct (3 =? Zlen c); [exact H|exact I].
Defined.

(** A buffer with room for [n] more entries. *)
#[local] Instance bounded_buffer : ReplyBuffer (nat * list (Z * entry)) := {|
  rb_add r ino off kind name :=
    match r.1 with O => (r, true) | S n => ((n, r.2 ++ [(off, (ino, kind, name))]), false) end;
  rb_listed r := r.2;
  rb_fresh n := (S (n mod 2), []);
|}.
#[local] Instance bounded_buffer_laws : ReplyBufferLaws (nat * list (Z * entry)).
Proof.
  split; cbn.
  - intros [[|n] l] ino off kind name r'; intros [= <-]. reflexivity.
  - intros [[|n] l] ino off kind name r'; intros [= <-]. reflexivity.
  - reflexivity.
  - reflexivity.
Defined.

Lemma listing_is_complete_witness :
  exists l, NoDup l.*1 /\ forall n, (length l + 2 < n)%nat ->
    pages n mounted.2 1 0 = Ok ([(1, Directory, [x2e]); (1, Directory, [x2e; x2e])] ++
      ((fun nc : list byte * Z => (nc.2, child_kind mounted.2 nc.2, nc.1)) <$> l)).
Proof.
  destruct mounted_represents as [s Hs].
  destruct (listing_is_complete mounted.1 mounted.2 s 1 Hs) as (l & Hn & _ & Hp); [split; [discriminate|reflexivity]|].
  exists l. split; [exact Hn|exact Hp].
Defined.

Example mounted_pages :
  pages 4 mounted.2 1 0 = Ok [(1, Directory, [x2e]); (1, Directory, [x2e; x2e]); (2, RegularFile, [x66])].
Proof. vm_compute. reflexivity. Qed.

(** ** A second request to make a file writable *)

