(* ===== verification/Ctl.v ===== *)
(** * The control tool ([crates/tartinectl/src/main.rs])

    Arguments are lists of characters, the program's name first.  A command
    opens the file and makes one [ioctl]; opening and the system call are
    parameters.  [Err n] is [process::exit(n)], what is printed on success is
    the result. *)

From Stdlib Require Import ZArith Lia String.
From S2P Require Import Prelude Proto RedundancySpec Ioctl.

Open Scope Z_scope.

Inductive ctl_output :=
  | RedundancySet (path spec : chars)
  | RedundancyIs (path spec : chars)
  | Converted (path : chars) (wait : bool).

Section Tool.
Context {W F E : Type}.
(** [OpenOptions::new().read(true).write(true).open(path)]. *)
Context (open_rw : chars -> io W E F).
(** [libc::ioctl]: the command and the buffer; the buffer after the call, or
    the error for a result other than 0. *)
Context (sys_ioctl : F -> Z -> list byte -> io W E (list byte)).

Definition usage {A} : io W Z A := io_err 2.
Definition unimplemented {A} : io W Z A := io_err 1.

Definition arg (args : list chars) (i : nat) : result Z chars := ok_or (args !! i) 2.

Definition open_for_ioctl (path : chars) : io W Z F := io_map_err (fun _ => 1) (open_rw path).

Definition check_ioctl {A} (call : io W E A) : io W Z A := io_map_err (fun _ => 1) call.

Definition ctl_set_redundancy (path spec : chars) : io W Z ctl_output :=
  let! scheme := io_lift (map_err (fun _ => 2) (parse spec)) in
  let! file := open_for_ioctl path in
  let wire := encode_set_redundancy scheme in
  let! _ := check_ioctl (sys_ioctl file TARTINE_IOC_SET_REDUNDANCY wire) in
  io_ret (RedundancySet path spec).

Definition ctl_get_redundancy (path : chars) : io W Z ctl_output :=
  let! file := open_for_ioctl path in
  let wire := replicate REDUNDANCY_WIRE_SIZE x00 in
  let! wire := check_ioctl (sys_ioctl file TARTINE_IOC_GET_REDUNDANCY wire) in
  match decode_set_redundancy wire with
  | Some scheme => io_ret (RedundancyIs path (RedundancySpec.format scheme))
  | None => io_err 1
  end.

Definition ctl_convert (path : chars) (wait : bool) : io W Z ctl_output :=
  let! file := open_for_ioctl path in
  let flags := if wait then TARTINE_CONVERT_FLAG_WAIT else 0 in
  let! _ := check_ioctl (sys_ioctl file TARTINE_IOC_MAKE_WRITABLE (to_le 4 flags)) in
  io_ret (Converted path wait).

(** A word of the command line against a literal. *)
Definition is_word (s : string) (o : option chars) : bool := bool_decide (o = Some (lit s)).

Definition ctl_main (args : list chars) : io W Z ctl_output :=
  let w1 := args !! 1%nat in
  let w2 := args !! 2%nat in
  if is_word "disk" w1 then
    if is_word "add" w2 then unimplemented
    else if is_word "remove" w2 then unimplemented
    else usage
  else if is_word "meta" w1 then
    if is_word "set-disks" w2 then unimplemented else usage
  else if is_word "file" w1 then
    if is_word "set-redundancy" w2 then
      let! path := io_lift (arg args 3) in
      let! spec := io_lift (arg args 4) in
      ctl_set_redundancy path spec
    else if is_word "get-redundancy" w2 then
      let! path := io_lift (arg args 3) in
      ctl_get_redundancy path
    else usage
  else if is_word "convert" w1 then
    let! path := io_lift (arg args 2) in
    ctl_convert path (existsb (fun a => bool_decide (a = lit "--wait")) args)
  else if is_word "fs" w1 then
    if is_word "set-default-redundancy" w2 then unimplemented else usage
  else usage.
End Tool.
