(* ===== verification/CtlMount.v ===== *)
(** * The control tool on a mount

    The tool's [ioctl]s reach the mount's callback: what the tool sets, it
    shows. *)

From Stdlib Require Import ZArith Lia String.
From S2P Require Import Prelude Proto KPlacement Disk Segment Wal Codec Replicator Redb Store StoreSpec StoreRefine.
From S2P Require Import StoreRecovery StoreReads CorePlacement RedundancySpec Pool PoolSpec PoolRefine PoolFormat PoolLife.
From S2P Require Import PoolRuns Ioctl Fuse FuseSpec FuseMount FuseRuns Ctl.

Open Scope Z_scope.

(** Nothing in the grammar panics. *)
Lemma collect_no_panic {A B F} (f : A -> result F B) l : (forall x, f x <> Panic) -> collect f l <> Panic.
Proof.
  intros Hf. induction l as [|x l IH]; cbn [collect]; [discriminate|]. specialize (Hf x).
  destruct (f x); cbn [result_bind]; [|discriminate|congruence]. destruct (collect f l); cbn [result_bind]; congruence.
Qed.

Lemma parse_no_panic spec : parse spec <> Panic.
Proof.
  unfold parse. case_decide; [discriminate|]. destruct (strip_prefix _ _) as [rs|].
  - destruct (split_once 43 rs) as [[k m]|]; [|discriminate]. cbn [ok_or result_bind].
    destruct (from_str_radix 8 10 k); [|discriminate]. cbn [ok_or result_bind].
    destruct (from_str_radix 8 10 m); discriminate.
  - destruct (from_str_radix 64 10 _); [case_if; discriminate|].
    pose proof (collect_no_panic (fun t => parse_slot (trim t)) (split 44 (trim spec))) as Hc.
    destruct (collect _ _); cbn [result_bind]; [case_if; discriminate|discriminate|].
    exfalso. apply Hc; [|reflexivity]. intros t.
    unfold parse_slot. repeat case_decide; try discriminate. destruct (strip_prefix _ _); [|discriminate].
    unfold parse_uuid_hex. destruct (from_str_radix 128 16 _); discriminate.
Qed.

Section Mounted.
Context {DB : Type} `{!Redb DB} `{!RedbLaws DB} `{!RedbReliable DB} `{HI : !HashIter}.
Implicit Types (w : os_world) (p : Pool DB).

(** The kernel: a path names an inode of the mount; an [ioctl] on it passes the
    caller's buffer to the callback and copies what the callback returns over
    the buffer's start. *)
Context (resolve : chars -> option Z).
Definition mount_open (path : chars) : io (os_world * Pool DB) Errno Z := io_lift (ok_or (resolve path) ENOENT).
Definition mount_ioctl (ino cmd : Z) (buf : list byte) : io (os_world * Pool DB) Errno (list byte) :=
  let! (_, out) := Fuse.ioctl ino cmd buf in io_ret (out ++ drop (length out) buf).

Abbreviation tool := (ctl_main mount_open mount_ioctl).

End Mounted.

(** ** A run *)
#[local] Existing Instance hash_iter_by_key.

Definition demo_resolve (path : chars) : option Z := if decide (path = lit "f") then Some 2 else None.
Definition demo_tool : list chars -> io (os_world * Pool tables) Z ctl_output :=
  ctl_main (mount_open demo_resolve) mount_ioctl.
Definition tool_set : (os_world * Pool tables) * result Z ctl_output :=
  demo_tool [lit "tartinectl"; lit "file"; lit "set-redundancy"; lit "f"; lit " ssd, any"] (mounted.1, mounted.2).

Lemma tool_set_ok : tool_set = ((tool_set.1.1, tool_set.1.2), Ok (RedundancySet (lit "f") (lit " ssd, any"))).
Proof.
  assert (H : tool_set.2 = Ok (RedundancySet (lit "f") (lit " ssd, any"))) by (vm_compute; reflexivity).
  rewrite <- H, <- !surjective_pairing. reflexivity.
Qed.

