(* ===== verification/Daemon.v ===== *)
(** * The daemon ([crates/tartined/src/main.rs])

    Command-line arguments are byte strings, the program's name first (a Rust
    [String] is UTF-8, and the literals and the separator compared with are
    ASCII).  [Err n] is [process::exit(n)].  What [fuser::mount2] does with the
    pool is a parameter.  The path of the database only names the file that
    holds it, so [redb_path]'s default is left out. *)

From Stdlib Require Import ZArith Lia Strings.String Strings.Byte.
From stdpp Require Import relations.
From S2P Require Import Prelude Proto KPlacement Disk Segment Wal Codec Replicator Redb Store.
From S2P Require Import StoreSpec StoreRefine StoreRecovery StoreReads CorePlacement Pool PoolSpec PoolRefine PoolFormat.
From S2P Require Import PoolLife PoolOpen PoolLogged PoolSound PoolReopen PoolRuns Fuse FuseSpec.

#[local] Open Scope list_scope.

Definition word : Type := list byte.

(** A literal. *)
Definition text (s : string) : word := list_byte_of_string s.

(** [str::split_once]: before and after the first separator. *)
Fixpoint split_once_at (sep : byte) (s : word) : option (word * word) :=
  match s with
  | [] => None
  | b :: s' =>
      if decide (b = sep) then Some ([], s')
      else match split_once_at sep s' with Some (x, y) => Some (b :: x, y) | None => None end
  end.

(** The variables of [main] that its loop over the arguments fills. *)
Record Options := {
  o_disks : list path; o_classes : list DiskClass;
  o_redb : option path; o_mountpoint : option path;
}.
Definition no_options : Options := {| o_disks := []; o_classes := []; o_redb := None; o_mountpoint := None |}.
Definition push_disk (p : path) (c : DiskClass) (o : Options) : Options :=
  {| o_disks := o_disks o ++ [p]; o_classes := o_classes o ++ [c]; o_redb := o_redb o; o_mountpoint := o_mountpoint o |}.
Definition set_redb (p : path) (o : Options) : Options :=
  {| o_disks := o_disks o; o_classes := o_classes o; o_redb := Some p; o_mountpoint := o_mountpoint o |}.
Definition set_mountpoint (p : path) (o : Options) : Options :=
  {| o_disks := o_disks o; o_classes := o_classes o; o_redb := o_redb o; o_mountpoint := Some p |}.

Definition usage {A} : result Z A := Err 2.

Definition parse_class (s : word) : result Z DiskClass :=
  if decide (s = text "hdd") then Ok Hdd
  else if decide (s = text "ssd") then Ok Ssd
  else if decide (s = text "nvme") then Ok Nvme
  else Err 2.

(** [path[:class]], a disk with no suffix being [hdd]. *)
Definition parse_disk (spec : word) : result Z (path * DiskClass) :=
  match split_once_at x3a spec with
  | Some (p, c) => let? class := parse_class c in Ok (p, class)
  | None => Ok (spec, Hdd)
  end.

(** The [while] loop, over the arguments from [i] on. *)
Fixpoint parse_args (args : list word) (o : Options) : result Z Options :=
  match args with
  | [] => Ok o
  | a :: rest =>
      if decide (a = text "--disk") then
        match rest with
        | [] => usage
        | spec :: rest' => let? (p, class) := parse_disk spec in parse_args rest' (push_disk p class o)
        end
      else if decide (a = text "--redb") then
        match rest with
        | [] => usage
        | p :: rest' => parse_args rest' (set_redb p o)
        end
      else
        match o_mountpoint o with
        | Some _ => usage
        | None => parse_args rest (set_mountpoint a o)
        end
  end.

(** What [main] does before it touches a disk: the mount point and the disks. *)
Definition parse_command (args : list word) : result Z (path * list path * list DiskClass) :=
  let? o := parse_args (drop 1 args) no_options in
  match o_mountpoint o, o_disks o with
  | Some mountpoint, _ :: _ => Ok (mountpoint, o_disks o, o_classes o)
  | _, _ => usage
  end.

(** [Path::exists]. *)
Definition path_exists (w : os_world) (p : path) : bool := bool_decide (is_Some (w_files w !! p)).

Section Main.
Context {DB : Type} `{!Redb DB} `{!HashIter} {E : Type}.
(** [fuser::mount2]: serves requests until it is unmounted. *)
Context (mount2 : path -> io (os_world * Pool DB) E unit).

Definition start_daemon (disk_paths : list path) (classes : list DiskClass) (clock : Z) :
    io os_world Z (Pool DB) := fun w =>
  let all_exist := forallb (path_exists w) disk_paths in
  io_map_err (fun _ => 1)
    (if all_exist then open_with_classes disk_paths classes else format_with_classes disk_paths classes clock) w.

Definition daemon_main (args : list word) (clock : Z) : io os_world Z unit :=
  let! command := io_lift (parse_command args) in
  let '(mountpoint, disk_paths, classes) := command in
  let! p := start_daemon disk_paths classes clock in
  fun w => let '((w', _), r) := mount2 mountpoint (w, p) in (w', map_err (fun _ => 1) r).
End Main.

(** ** The command line *)
Lemma parse_args_app xs ys o o' : parse_args xs o = Ok o' -> parse_args (xs ++ ys) o = parse_args ys o'.
Proof.
  remember (length xs) as n eqn:Hn. revert xs o Hn. induction n as [n IH] using lt_wf_ind. intros xs o -> E.
  destruct xs as [|a xs]; [now injection E as ->|]. cbn [parse_args app] in *. repeat case_decide.
  - destruct xs as [|spec xs]; [discriminate|]. cbn [app]. destruct (parse_disk spec) as [[p c]|e|]; try discriminate.
    cbn [result_bind] in *. eapply IH; [|reflexivity|exact E]. cbn [length]. lia.
  - destruct xs as [|p xs]; [discriminate|]. cbn [app]. eapply IH; [|reflexivity|exact E]. cbn [length]. lia.
  - destruct (o_mountpoint o); [discriminate|]. eapply IH; [|reflexivity|exact E]. cbn [length]. lia.
Qed.

Definition class_name (c : DiskClass) : word := text match c with Hdd => "hdd" | Ssd => "ssd" | Nvme => "nvme" end.
Definition disk_words (d : path * DiskClass) : list word := [text "--disk"; d.1 ++ [x3a] ++ class_name d.2].

Lemma split_once_at_app sep a b : sep ∉ a -> split_once_at sep (a ++ sep :: b) = Some (a, b).
Proof.
  induction a as [|x a IH]; intros Ha; cbn [app split_once_at]; [now rewrite decide_True|].
  apply not_elem_of_cons in Ha as [Hx Ha]. now rewrite decide_False, IH by congruence.
Qed.

Lemma parse_disk_words p c : x3a ∉ p -> parse_disk (p ++ [x3a] ++ class_name c) = Ok (p, c).
Proof.
  intros Hp. unfold parse_disk. cbn [app]. rewrite split_once_at_app by exact Hp. now destruct c.
Qed.

Lemma parse_args_disk spec rest o :
  parse_args (text "--disk" :: spec :: rest) o =
    let? (p, class) := parse_disk spec in parse_args rest (push_disk p class o).
Proof. reflexivity. Qed.

Lemma parse_disks_words ds o :
  Forall (fun d => x3a ∉ d.1) ds ->
  parse_args (concat (disk_words <$> ds)) o =
    Ok {| o_disks := o_disks o ++ ds.*1; o_classes := o_classes o ++ ds.*2; o_redb := o_redb o; o_mountpoint := o_mountpoint o |}.
Proof.
  intros Hd. revert o. induction Hd as [|[p c] ds Hp _ IH]; intros o.
  - cbn. rewrite !app_nil_r. now destruct o.
  - rewrite fmap_cons. change (concat (disk_words (p, c) :: (disk_words <$> ds))) with (text "--disk" :: (p ++ [x3a] ++ class_name c) :: concat (disk_words <$> ds)).
    rewrite parse_args_disk, (parse_disk_words p c Hp). cbn [result_bind]. rewrite IH. cbn. now rewrite <- !app_assoc.
Qed.

(** The documented form of the command line: at least one disk, each with its
    class, and the mount point.  A disk with no suffix is a rotating one. *)
Theorem parse_command_words name ds mountpoint :
  ds <> [] -> Forall (fun d => x3a ∉ d.1) ds -> mountpoint <> text "--disk" -> mountpoint <> text "--redb" ->
  parse_command (name :: concat (disk_words <$> ds) ++ [mountpoint]) = Ok (mountpoint, ds.*1, ds.*2).
Proof.
  intros Hne Hd H1 H2. unfold parse_command. rewrite skipn_cons, drop_0.
  rewrite (parse_args_app _ [mountpoint] _ _ (parse_disks_words ds no_options Hd)). cbn [parse_args].
  rewrite !decide_False by assumption. cbn. now destruct ds.
Qed.

Lemma parse_args_aligned args o o' :
  parse_args args o = Ok o' -> length (o_classes o) = length (o_disks o) -> length (o_classes o') = length (o_disks o').
Proof.
  remember (length args) as n eqn:Hn. revert args o Hn. induction n as [n IH] using lt_wf_ind. intros args o -> E Hl.
  destruct args as [|a args]; [now injection E as <-|]. cbn [parse_args] in E. repeat case_decide.
  - destruct args as [|spec args]; [discriminate|]. destruct (parse_disk spec) as [[p c]|e|]; try discriminate.
    cbn [result_bind] in E. eapply IH; [|reflexivity|exact E|]; cbn; [lia|]. rewrite !length_app. cbn. lia.
  - destruct args as [|p args]; [discriminate|]. eapply IH; [|reflexivity|exact E|exact Hl]. cbn. lia.
  - destruct (o_mountpoint o); [discriminate|]. eapply IH; [|reflexivity|exact E|exact Hl]. cbn. lia.
Qed.

Lemma parse_command_aligned args mountpoint ps cs :
  parse_command args = Ok (mountpoint, ps, cs) -> ps <> [] /\ length cs = length ps.
Proof.
  unfold parse_command. destruct (parse_args _ no_options) as [o|e|] eqn:E; try discriminate. cbn [result_bind].
  apply parse_args_aligned in E; [|reflexivity]. destruct (o_mountpoint o), (o_disks o) eqn:Ed; try discriminate.
  intros [= <- <- <-]. split; [discriminate|exact E].
Qed.

(** ** Starting again *)
Section Restart.
Context {DB : Type} `{!Redb DB} `{!RedbLaws DB} `{!RedbReliable DB} `{HI : !HashIter}.
Implicit Types (w : os_world) (p : Pool DB).

Lemma sound_paths_exist paths w p m : sound paths w p m -> forallb (path_exists w) paths = true.
Proof.
  intros Hs. apply forallb_forall. intros q Hq. apply list_elem_of_In, list_elem_of_lookup in Hq as [j Hj].
  pose proof (lo_on _ _ _ (so_logged _ _ _ _ Hs)) as Hon.
  destruct (on_disk _ _ _ _ _ Hon Hj) as (h & Eh & <-). destruct (on_length _ _ _ Hon _ _ Eh) as [Hl _].
  apply bool_decide_eq_true. change (DISK_FILE_CAPACITY_BYTES <= f_len (file_at w (fd_path (deref (dh_disk h))))) in Hl.
  unfold file_at in Hl. destruct (w_files w !! _); [eauto|]. exfalso. cbn in Hl. discriminate Hl || now apply Hl.
Qed.

Lemma start_daemon_reopens paths classes clock w w' p m fc :
  sound paths w p m -> pool_inv w p m fc -> crashed w w' -> length classes = length paths -> Zlen paths < u32_max ->
  exists p', start_daemon paths classes clock w' = (w', Ok p') /\ pool_inv w' p' m fc.
Proof.
  intros Hs Hi Hcr Hcl Hmax. destruct (reopen_sound _ _ _ _ _ _ _ Hs Hi Hcr Hcl Hmax) as (p' & E & Hi' & Hs').
  exists p'. split; [|exact Hi']. unfold start_daemon. rewrite (sound_paths_exist _ _ _ _ Hs').
  unfold io_map_err. now rewrite E.
Qed.

Lemma daemon_main_started {E} (mount2 : path -> io (os_world * Pool DB) E unit) args clock mountpoint ps cs w w1 p1 :
  parse_command args = Ok (mountpoint, ps, cs) -> start_daemon ps cs clock w = (w1, Ok p1) ->
  daemon_main mount2 args clock w = (let '((w', _), r) := mount2 mountpoint (w1, p1) in (w', map_err (fun _ => 1) r)).
Proof. intros Ec Es. unfold daemon_main, io_bind, io_lift. rewrite Ec, Es. reflexivity. Qed.

(** C6: the daemon can be stopped and started again.  Started with a command
    line one of whose disks does not exist, it formats a pool; after any run of
    the mount in which no file was converted and no operation failed in the
    log (appends may fail on the data disks), with restarts in between, and with
    or without a loss of power before each start, starting it with the same
    command line mounts, at the same place, a pool that is the same file system,
    and changes no disk before it does. *)
Theorem daemon_restarts {E} args mountpoint ps cs clock clock' w0 w p w' p' w2
    (mount2 : path -> io (os_world * Pool DB) E unit) :
  parse_command args = Ok (mountpoint, ps, cs) -> Zlen ps < u32_max -> clock < 2 ^ 64 ->
  forallb (path_exists w0) ps = false ->
  start_daemon ps cs clock w0 = (w, Ok p) -> rtc (log_step ps) (w, p) (w', p') -> crashed w' w2 ->
  exists p2 s, rtc fs_any fs_init s /\ represents w' p' s /\ represents w2 p2 s /\
    daemon_main mount2 args clock' w2 =
      (let '((w3, _), r) := mount2 mountpoint (w2, p2) in (w3, map_err (fun _ => 1) r)).
Proof.
  intros Ec Hmax Hclk Hne Es Hrun Hcr. destruct (parse_command_aligned _ _ _ _ Ec) as [_ Hcl].
  unfold start_daemon, io_map_err in Es. rewrite Hne in Es.
  destruct (format_with_classes ps cs clock w0) as [w1 [p1|e|]] eqn:Ef; try discriminate. injection Es as -> ->.
  destruct (log_run_sound ps _ _ fs_init Hmax Hrun) as (s & Hs & m & fc & Hi & Hso & ->).
  { exists (root_meta (length ps) clock), {[ROOT_INODE := []]}.
    split; [exact (format_ok _ _ _ _ _ _ Ef Hmax Hclk)|]. split; [exact (format_sound _ _ _ _ _ _ Ef Hmax Hclk)|reflexivity]. }
  destruct (start_daemon_reopens _ _ clock' _ _ _ _ _ Hso Hi Hcr Hcl Hmax) as (p2 & E2 & Hi2).
  exists p2, (fs_of m fc). split; [exact Hs|]. split; [now exists m, fc|]. split; [now exists m, fc|].
  exact (daemon_main_started _ _ _ _ _ _ _ _ _ Ec E2).
Qed.

(** C37: a first start that is interrupted is not resumed.  Stopped between the
    creation of two disks, every later start with the same command line fails
    with exit code 1; stopped after the last disk and before the root directory
    is logged, the next start mounts a pool that has no root directory. *)
Theorem interrupted_format args mountpoint ps cs clock w0 :
  parse_command args = Ok (mountpoint, ps, cs) -> Zlen ps < u32_max ->
  (forall (k : nat) acc w1, (0 < k)%nat ->
     bring_up start_format 0 (take k ps) (take k cs) (∅, ∅, []) w0 = (w1, Ok acc) ->
     forallb (path_exists w1) ps = false -> start_daemon (DB := DB) ps cs clock w1 = (w1, Err 1)) /\
  (forall w1 p1, start_pool start_format ps cs w0 = (w1, Ok p1) ->
     exists p, start_daemon (DB := DB) ps cs clock w1 = (w1, Ok p) /\
       represents w1 p {| fs_names := ∅; fs_modes := ∅; fs_data := ∅ |} /\ getattr p ROOT_INODE = Err ENOENT).
Proof.
  intros Ec Hmax. destruct (parse_command_aligned _ _ _ _ Ec) as [Hne Hcl]. split.
  - intros k acc w1 Hk Eb Hmiss. destruct k as [|k]; [lia|]. destruct ps as [|q qs]; [done|]. destruct cs as [|c cs]; [done|].
    cbn [take] in Eb. apply bring_up_ok in Eb as (l & Hst & _); [|cbn; rewrite !length_take; cbn in Hcl; lia].
    apply started_format in Hst as (_ & _ & _ & Hin & _). destruct (Hin q) as [_ [Eq _]]; [now left|].
    unfold start_daemon, io_map_err. rewrite Hmiss. unfold format_with_classes, start_pool, io_bind.
    rewrite decide_False by discriminate. replace (length (q :: qs) =? length (c :: cs))%nat with true
      by (symmetry; apply Nat.eqb_eq; auto). cbn [negb bring_up].
    unfold io_bind, start_format, io_bind, io_map_err, FileDisk_create. now rewrite Eq.
  - intros w1 p1 Es. destruct (fresh_start _ _ _ _ _ Es Hmax) as (_ & Hi & _).
    destruct (start_daemon_reopens _ _ clock _ _ _ _ _ (fresh_sound _ _ _ _ _ Es Hmax) Hi (crashed_refl _) Hcl Hmax) as (p & E & Hi').
    exists p. split; [exact E|]. split; [now exists meta_init, ∅|].
    unfold getattr. now rewrite (pool_inv_inode _ _ _ _ ROOT_INODE Hi').
Qed.
End Restart.

(** ** A run *)
#[local] Existing Instance hash_iter_by_key.

Definition demo_command : list word :=
  [text "tartined"; text "--disk"; path_a; text "--redb"; text "db"; text "/mnt"; text "--disk"; path_b ++ text ":ssd"].
Lemma demo_command_ok : parse_command demo_command = Ok (text "/mnt", demo_paths, demo_classes).
Proof. vm_compute. reflexivity. Qed.

Lemma daemon_restarts_witness :
  let w2 := power_loss log_on_again.1 in
  exists p2 s, rtc fs_any fs_init s /\ represents log_on_again.1 log_on_again.2 s /\ represents w2 p2 s /\
    daemon_main (E := Z) (fun _ => io_ret tt) demo_command 2000 w2 = (w2, Ok tt).
Proof.
  refine (daemon_restarts demo_command (text "/mnt") demo_paths demo_classes 1000 2000 no_world demo_pool.1 demo_pool.2
    log_on_again.1 log_on_again.2 (power_loss log_on_again.1) (fun _ => io_ret tt) demo_command_ok _ _ _ _ _ (power_loss_demo _ _)).
  - reflexivity.
  - reflexivity.
  - vm_compute. reflexivity.
  - vm_compute. reflexivity.
  - rewrite <- !surjective_pairing. exact log_steps.
  - vm_compute. reflexivity.
Defined.

(** Two disks created, and one of two. *)
Definition two_created : os_world * Pool tables := started_or_dummy (start_pool start_format demo_paths demo_classes no_world).
Definition one_created : os_world := (bring_up start_format 0 (take 1 demo_paths) (take 1 demo_classes) (∅, ∅, []) no_world).1.

Lemma interrupted_format_witness :
  start_daemon (DB := tables) demo_paths demo_classes 2000 one_created = (one_created, Err 1) /\
  exists p, start_daemon (DB := tables) demo_paths demo_classes 2000 two_created.1 = (two_created.1, Ok p) /\
    represents two_created.1 p {| fs_names := ∅; fs_modes := ∅; fs_data := ∅ |} /\ getattr p ROOT_INODE = Err ENOENT.
Proof.
  destruct (interrupted_format (DB := tables) demo_command (text "/mnt") demo_paths demo_classes 2000 no_world
    demo_command_ok eq_refl) as [Hone Htwo].
  split.
  - refine (Hone 1%nat (get_ok (∅, ∅, []) (bring_up start_format 0 (take 1 demo_paths) (take 1 demo_classes) (∅, ∅, []) no_world).2)
      one_created _ _ _); [lia|vm_compute; reflexivity|vm_compute; reflexivity].
  - refine (Htwo two_created.1 two_created.2 _). vm_compute. reflexivity.
Defined.
