(* ===== verification/DaemonCrash.v ===== *)
(** * The mount after a crash

    A request of the kernel in the middle of which power is lost, with all or
    part of what had not been synced, and the daemon started again with the same
    command line: what it mounts is a file system in which the request has been
    served or not.  This joins the mount ([FuseSpec]), the pool after a crash
    ([PoolCrash]) and the daemon. *)

From Stdlib Require Import ZArith Lia String.
From stdpp Require Import relations.
From S2P Require Import Prelude Proto Disk Segment Wal Codec Replicator Redb Store StoreSpec StoreRefine StoreRecovery StoreTorn.
From S2P Require Import Pool PoolSpec PoolRefine PoolFormat PoolLife PoolOpen PoolLogged PoolSound PoolReopen PoolCrash PoolRuns PoolCrashRuns.
From S2P Require Import KWritePath FuseWritePath Ioctl Fuse FuseSpec Daemon.

Section Crash.
Context {DB : Type} `{!Redb DB} `{!RedbLaws DB} `{!RedbReliable DB} `{HI : !HashIter}.
Implicit Types (w : os_world) (p : Pool DB).

(** A pool that opens has all its disks. *)
Lemma started_open_exist w paths l w' : started start_open w paths l w' -> forallb (path_exists w) paths = true.
Proof.
  induction 1 as [|w q qs ac l w1 w2 Es _ IH]; [reflexivity|]. cbn [forallb].
  unfold start_open, io_bind, io_map_err, FileDisk_open in Es. unfold path_exists at 1.
  destruct (w_files w !! q) as [f|]; [|discriminate]. cbn [map_err] in Es. unfold io_query, io_ret in Es.
  destruct (map_err Io _) as [sc|e|]; try discriminate. injection Es as <- _. exact IH.
Qed.

Lemma opens_paths_exist paths classes w w' p :
  length classes = length paths -> open_with_classes (DB := DB) paths classes w = (w', Ok p) -> forallb (path_exists w) paths = true.
Proof.
  intros Hcl E. unfold open_with_classes, start_pool in E. case_decide; [discriminate|].
  destruct (negb _); [discriminate|]. unfold io_bind at 1 in E.
  destruct (bring_up start_open 0 paths classes (∅, ∅, []) w) as [w1 [acc|e|]] eqn:Eb; try discriminate.
  apply bring_up_ok in Eb as (l & Hst & _); [|now symmetry]. now apply started_open_exist in Hst.
Qed.

Lemma start_daemon_opens paths classes clock w w' p :
  length classes = length paths -> open_with_classes (DB := DB) paths classes w = (w', Ok p) ->
  start_daemon paths classes clock w = (w', Ok p).
Proof.
  intros Hcl E. unfold start_daemon. rewrite (opens_paths_exist _ _ _ _ _ Hcl E). unfold io_map_err. now rewrite E.
Qed.

(** ** A request *)

(** What the store rejects is in the log already. *)
Definition request_accepted (rq : request) (s : fs) : Prop := forall op, may_serve rq op -> accepted op s.

(** What a request makes of the file system: nothing, one operation, whatever
    its outcome, or a conversion begun and then completed. *)
Inductive fs_serves (rq : request) (s : fs) : fs -> Prop :=
  | fs_serves_nothing : fs_serves rq s s
  | fs_serves_op op out s' : may_serve rq op -> fs_step s op out s' -> fs_serves rq s s'
  | fs_serves_convert id s1 out s' :
      may_serve rq (OpCompleteConvert id) -> fs_step s (OpBeginConvert id) (Ok tt) s1 ->
      fs_step s1 (OpCompleteConvert id) out s' -> fs_serves rq s s'.

(** What is left of a frame in the log reads as another one. *)
Definition torn_log w p (X : MetaOp) : Prop :=
  misread (contents (mr_primary_disk (ms_replicator (p_meta p))) w) (ms_wal_cursor (p_meta p)) (encode_op X).

Lemma log_clean_ok op : log_clean op (Ok tt).
Proof. unfold log_clean. now destruct (is_create op). Qed.

Lemma op_crash paths classes op w p m fc w' p' out w2 :
  logged_pool paths w p -> pool_inv w p m fc -> op_fits op p -> accepted op (fs_of m fc) ->
  run_op op (w, p) = ((w', p'), out) -> crashed w' w2 -> length classes = length paths ->
  (exists p2 s' out', open_with_classes paths classes w2 = (w2, Ok p2) /\ fs_step (fs_of m fc) op out' s' /\
     answers w2 p2 s' /\ (out = Ok tt -> represents w' p' s')) \/
  (exists X, may_log op X /\ torn_log w2 p' X).
Proof.
  intros Hl Hi Hfit Hacc E Hcr Hcl. destruct (run_op_refines _ _ _ _ _ _ _ _ Hi Hfit E) as (m1 & fc1 & Hi1 & Hs1).
  destruct (run_survives paths classes op w p m fc w' p' out w2 Hl Hi Hfit Hacc E Hcr Hcl)
    as [(p2 & m2 & fc2 & out' & Eo & Hst & _ & Ha & _)|Hmis]; [left|now right].
  destruct out as [[]|e|]; [|exists p2, (fs_of m2 fc2), out'; split_and!; auto; discriminate|inversion Hs1].
  pose proof (logged_op _ _ _ _ _ _ _ _ _ (log_clean_ok op) Hfit Hi Hl E) as Hl1.
  destruct (logged_answers _ classes _ _ _ _ (crashed_logged _ _ _ _ Hcr Hl1) (crashed_inv _ _ _ _ _ Hcr Hi1) Hcl) as (p3 & Eo3 & Ha3).
  exists p3, (fs_of m1 fc1), (Ok tt). split_and!; auto. intros _. now exists m1, fc1.
Qed.

Lemma serves_crash paths classes rq w p m fc w' p' ok w2 :
  logged_pool paths w p -> pool_inv w p m fc -> serves rq (w, p) (w', p') ok -> request_accepted rq (fs_of m fc) ->
  crashed w' w2 -> length classes = length paths ->
  (exists p2 s', open_with_classes paths classes w2 = (w2, Ok p2) /\ fs_serves rq (fs_of m fc) s' /\ answers w2 p2 s' /\
     (ok -> represents w' p' s')) \/
  (exists op X, may_serve rq op /\ may_log op X /\ torn_log w2 p' X).
Proof.
  intros Hl Hi Hs Hacc Hcr Hcl.
  destruct Hs as [[= -> ->]|op out Hrq Hop Hfit E Hok|id [w1 p1] out Hrq Hf1 E1 Hf2 E2 Hok]; cbn [snd] in *.
  - left. destruct (logged_answers _ classes _ _ _ _ (crashed_logged _ _ _ _ Hcr Hl) (crashed_inv _ _ _ _ _ Hcr Hi) Hcl) as (p2 & Eo & Ha).
    exists p2, (fs_of m fc). split_and!; auto; [constructor|intros _; now exists m, fc].
  - destruct (op_crash paths classes op _ _ _ _ _ _ _ _ Hl Hi Hfit (Hacc _ Hrq) E Hcr Hcl)
      as [(p2 & s' & out' & Eo & Hst & Ha & Hr)|(X & H1 & H2)]; [left|right; now exists op, X].
    exists p2, s'. split_and!; auto. now apply (fs_serves_op _ _ op out').
  - destruct (run_op_refines _ _ _ _ _ _ _ _ Hi Hf1 E1) as (m1 & fc1 & Hi1 & Hs1).
    pose proof (logged_op _ (OpBeginConvert id) _ _ _ _ _ _ _ (log_clean_ok _) Hf1 Hi Hl E1) as Hl1.
    destruct (op_crash paths classes (OpCompleteConvert id) _ _ _ _ _ _ _ _ Hl1 Hi1 Hf2 I E2 Hcr Hcl)
      as [(p2 & s' & out' & Eo & Hst & Ha & Hr)|(X & H1 & H2)]; [left|right; now exists (OpCompleteConvert id), X].
    exists p2, s'. split_and!; auto. exact (fs_serves_convert _ _ _ _ _ _ Hrq Hs1 Hst).
Qed.

End Crash.

(** ** A run *)
#[local] Existing Instance hash_iter_by_key.

(** A write through the mount while the first disk is about to die. *)
Definition dying_request : request := RqWrite 2 0 [x51].
Definition dead_mount : os_world * Pool tables := (serve dying_request dying_pool).1.

Lemma dying_request_accepted s : request_accepted dying_request s.
Proof. intros [] Hs; now destruct Hs. Qed.

(** Power is lost with it. *)
Definition dark_mount : os_world := power_loss dead_mount.1.

