(* ===== verification/Testing.v ===== *)
(** * Running the repository's unit tests on the model

    The harness of the [..Tests] files: a [#[test]] function becomes a program
    of the model, step by step, and the file's [Example]s run them all.  They
    check the definitions against what the authors of the code expected of it,
    independently of the theorems.  A failed assertion panics, as does an
    [unwrap] of an error.  A test starts without any files; the names of the
    temporary directory and the process are left out of paths. *)

From Stdlib Require Import ZArith Lia String.
From stdpp Require Import sorting.
From S2P Require Import Prelude Disk.

(** A byte string literal. *)
Definition bytes (s : string) : list byte := list_byte_of_string s.
Arguments bytes s%_string_scope.

Definition test : Type := io os_world Empty_set unit.
Definition no_files : os_world := {| w_files := ∅; w_durable := ∅; w_fault := ∅ |}.
Definition passes (t : test) : bool := is_ok (t no_files).2.

Section Harness.
Context {W E F A S : Type}.

(** [assert!], [assert_eq!], [assert_ne!]. *)
Definition assert (b : bool) : io W E unit := if b then io_ret tt else io_panic.
Definition assert_eq `{EqDecision A} (x y : A) : io W E unit := assert (bool_decide (x = y)).
Definition assert_ne `{EqDecision A} (x y : A) : io W E unit := assert (negb (bool_decide (x = y))).

(** [e.unwrap()], [e.unwrap_err()] and [o.unwrap()] for values. *)
Definition unwrap_ok (r : result E A) : io W F A :=
  match r with Ok a => io_ret a | _ => io_panic end.
Definition unwrap_err (r : result E A) : io W F E :=
  match r with Err e => io_ret e | _ => io_panic end.
Definition unwrap_some (o : option A) : io W F A :=
  match o with Some a => io_ret a | None => io_panic end.

(** [f(..).unwrap()], where [f] has effects or reads the world. *)
Definition run_ok (m : io W E A) : io W F A := fun w =>
  match m w with (w', Ok a) => (w', Ok a) | (w', _) => (w', Panic) end.
Definition read_ok_or_panic (f : W -> result E A) : io W F A := fun w => unwrap_ok (f w) w.

(** [x.method(..)] on the local variable [x] whose value is [s]: the result and
    the variable's new value; [.unwrap()]ed. *)
Definition call (s : S) (m : io (W * S) E A) : io W F (result E A * S) := fun w =>
  let '((w', s'), r) := m (w, s) in
  match r with Panic => (w', Panic) | _ => (w', Ok (r, s')) end.
Definition call_ok (s : S) (m : io (W * S) E A) : io W F (A * S) := fun w =>
  let '((w', s'), r) := m (w, s) in
  match r with Ok a => (w', Ok (a, s')) | _ => (w', Panic) end.
End Harness.

(** [for x in xs { body }], with [body]'s local variables as its state. *)
Fixpoint for_in {W E A S} (xs : list A) (body : A -> S -> io W E S) (s : S) : io W E S :=
  match xs with
  | [] => io_ret s
  | x :: xs' => let! s := body x s in for_in xs' body s
  end.

(** [Vec::dedup]. *)
Fixpoint dedup {A} `{EqDecision A} (l : list A) : list A :=
  match l with
  | [] => []
  | x :: l' =>
      match l' with
      | [] => [x]
      | y :: _ => if decide (x = y) then dedup l' else x :: dedup l'
      end
  end.
(** [v.sort_unstable(); v.dedup()]. *)
Definition sorted_dedup (l : list Z) : list Z := dedup (merge_sort Z.le l).

(** [std::fs::remove_file]. *)
Definition remove_file (p : path) : io os_world io_error unit := fun w =>
  match w_files w !! p with
  | Some _ => ({| w_files := delete p (w_files w); w_durable := delete p (w_durable w); w_fault := w_fault w |}, Ok tt)
  | None => (w, Err NotFound)
  end.
(** [let _ = std::fs::remove_file(&path)]. *)
Definition try_remove {E} (p : path) : io os_world E unit := fun w => ((remove_file p w).1, Ok tt).

(** [OpenOptions::new().write(true).open(&path)] and [set_len]. *)
Definition set_len (p : path) (n : Z) : io os_world io_error unit := fun w =>
  match w_files w !! p with
  | Some f =>
      ({| w_files := <[p := {| f_len := n; f_bytes := filter (fun kv => kv.1 < n) (f_bytes f) |}]> (w_files w);
          w_durable := w_durable w; w_fault := w_fault w |}, Ok tt)
  | None => (w, Err NotFound)
  end.
