(* ===== verification/KcoreTests.v ===== *)
(** * The unit tests of [crates/tartine-kcore]

    The module [tests] of [src/write_path.rs] and of [src/placement.rs], run on
    the model.  Left out are the three statistical ones, over thousands of
    keys. *)

From Stdlib Require Import ZArith Lia String.
From S2P Require Import Prelude KWritePath KScore KPlacement Disk Testing.

(** ** [write_path.rs] *)

Definition append_only_accepts_write_at_eof : test :=
  assert_eq (tartine_classify_write MODE_APPEND_ONLY 100 100) WRITE_KIND_APPEND.

Definition append_only_rejects_write_before_eof : test :=
  assert_eq (tartine_classify_write MODE_APPEND_ONLY 100 50) ERR_NOT_APPEND_ORDER.

Definition append_only_rejects_truncate : test :=
  assert_eq (tartine_truncate_allowed MODE_APPEND_ONLY) ERR_RANDOM_WRITE_DENIED.

Definition converting_still_accepts_tail_append_but_not_random_write : test :=
  let! _ := assert_eq (tartine_classify_write MODE_CONVERTING 100 100) WRITE_KIND_APPEND in
  assert_eq (tartine_classify_write MODE_CONVERTING 100 10) ERR_CONVERSION_IN_PROGRESS.

Definition convert_is_one_way : test :=
  let converting := tartine_begin_convert MODE_APPEND_ONLY in
  let! _ := assert_eq converting MODE_CONVERTING in
  let writable := tartine_complete_convert (as_u32 converting) in
  let! _ := assert_eq writable MODE_WRITABLE in
  let! _ := assert_eq (tartine_begin_convert (as_u32 writable)) ERR_ALREADY_WRITABLE in
  let! _ := assert_eq (tartine_classify_write (as_u32 writable) 100 0) WRITE_KIND_RANDOM in
  assert_eq (tartine_truncate_allowed (as_u32 writable)) 0.

Example write_path_tests_pass :
  forallb passes [append_only_accepts_write_at_eof; append_only_rejects_write_before_eof;
    append_only_rejects_truncate; converting_still_accepts_tail_append_but_not_random_write; convert_is_one_way] = true.
Proof. vm_compute. reflexivity. Qed.

(** ** [placement.rs] *)

Definition candidate (id class : Z) : DiskCandidate :=
  {| disk_id_hi := 0; disk_id_lo := id; weight_milli := 1000; active := 1; class := class |}.

Definition candidates (n : nat) : list DiskCandidate := (fun i => candidate (Z.of_nat i + 1) CLASS_HDD) <$> seq 0 n.

(** [c.active = 0]. *)
Definition deactivate (c : DiskCandidate) : DiskCandidate :=
  {| disk_id_hi := disk_id_hi c; disk_id_lo := disk_id_lo c; weight_milli := weight_milli c; active := 0; class := class c |}.

Definition neg_log2_q16_sanity : test :=
  let! _ := assert_eq (neg_log2_q16 u64_max) 0 in
  let! _ := assert_eq (neg_log2_q16 0) (Z.shiftl 64 16) in
  assert_eq (neg_log2_q16 (Z.shiftl 1 63 - 1)) (Z.shiftl 1 16).

Definition picks_requested_count_no_duplicates : test :=
  let c := candidates 5 in
  let '(out, n) := hrw_select c 42 (replicate 3 0) in
  let! _ := assert_eq n 3%nat in
  assert_eq (length (sorted_dedup out)) 3%nat.

Definition fewer_active_than_requested_returns_fewer : test :=
  let c := candidates 5 in
  let c := take 2 c ++ (deactivate <$> drop 2 c) in
  let '(out, n) := hrw_select c 7 (replicate 3 0) in
  assert_eq n 2%nat.

Definition class_slot (class : Z) : ReplicaSlotSpec :=
  {| required_class := class; pinned := 0; pad := [0; 0]; pinned_id_hi := 0; pinned_id_lo := 0 |}.

Definition any_slot : ReplicaSlotSpec :=
  {| required_class := CLASS_ANY; pinned := 0; pad := [0; 0]; pinned_id_hi := 0; pinned_id_lo := 0 |}.

Definition pinned_slot (id : Z) : ReplicaSlotSpec :=
  {| required_class := CLASS_ANY; pinned := 1; pad := [0; 0]; pinned_id_hi := 0; pinned_id_lo := id |}.

Definition place_redundancy_matches_hrw_select_for_uniform_any_slots : test :=
  let c := candidates 6 in
  let slots := [any_slot; any_slot; any_slot] in
  let '(placed, n) := place_redundancy c 123 slots (replicate 3 0) in
  let! _ := assert_eq n 3%nat in
  let '(expected, n) := hrw_select c 123 (replicate 3 0) in
  let! _ := assert_eq n 3%nat in
  assert_eq placed expected.

(** [c[out[i] as usize]]. *)
Definition at_out (c : list DiskCandidate) (out : list Z) (i : nat) : io os_world Empty_set DiskCandidate :=
  let! j := unwrap_some (out !! i) in unwrap_some (c !! Z.to_nat j).

Definition place_redundancy_honors_per_slot_class : test :=
  let c := candidates 4 ++ [candidate 5 CLASS_SSD; candidate 6 CLASS_SSD] in
  let slots := [class_slot CLASS_HDD; class_slot CLASS_SSD] in
  let '(out, n) := place_redundancy c 7 slots (replicate 2 0) in
  let! _ := assert_eq n 2%nat in
  let! c0 := at_out c out 0 in
  let! _ := assert (class c0 =? CLASS_HDD) in
  let! c1 := at_out c out 1 in
  assert (class c1 =? CLASS_SSD).

Definition place_redundancy_pinned_slot_picks_exact_disk : test :=
  let c := candidates 5 in
  let slots := [pinned_slot 3] in
  let '(out, n) := place_redundancy c 99 slots (replicate 1 0) in
  let! _ := assert_eq n 1%nat in
  let! c0 := at_out c out 0 in
  assert_eq (disk_id_lo c0) 3.

Definition place_redundancy_pinned_slot_inactive_disk_is_unplaced : test :=
  let c := alter deactivate 2%nat (candidates 5) in
  let slots := [pinned_slot 3] in
  let '(out, n) := place_redundancy c 99 slots (replicate 1 0) in
  let! _ := assert_eq n 1%nat in
  assert_eq (out !! 0%nat) (Some UNPLACED).

Definition place_redundancy_unsatisfiable_class_is_unplaced_without_blocking_other_slots : test :=
  let c := candidates 3 in
  let slots := [class_slot CLASS_HDD; class_slot CLASS_SSD] in
  let '(out, n) := place_redundancy c 5 slots (replicate 2 0) in
  let! _ := assert_eq n 2%nat in
  let! o0 := unwrap_some (out !! 0%nat) in
  let! _ := assert_ne o0 UNPLACED in
  let! o1 := unwrap_some (out !! 1%nat) in
  assert_eq o1 UNPLACED.

Definition place_redundancy_never_double_places_the_same_disk : test :=
  let c := candidates 3 in
  let slots := [any_slot; any_slot; any_slot] in
  let '(out, n) := place_redundancy c 11 slots (replicate 3 0) in
  let! _ := assert_eq n 3%nat in
  assert_eq (length (sorted_dedup out)) 3%nat.

Example kcore_placement_tests_pass :
  forallb passes [neg_log2_q16_sanity; picks_requested_count_no_duplicates; fewer_active_than_requested_returns_fewer;
    place_redundancy_matches_hrw_select_for_uniform_any_slots; place_redundancy_honors_per_slot_class;
    place_redundancy_pinned_slot_picks_exact_disk; place_redundancy_pinned_slot_inactive_disk_is_unplaced;
    place_redundancy_unsatisfiable_class_is_unplaced_without_blocking_other_slots;
    place_redundancy_never_double_places_the_same_disk] = true.
Proof. vm_compute. reflexivity. Qed.
