(* ===== verification/CoreTests.v ===== *)
(** * The unit tests of [crates/tartine-core]

    The modules [tests] of [crc32c.rs], [disk.rs], [segment.rs],
    [placement.rs] and [redundancy_spec.rs], run on the model, except the
    statistical one of [placement.rs]. *)

From Stdlib Require Import ZArith Lia String.
From S2P Require Import Prelude Proto Crc32c Disk Segment CorePlacement RedundancySpec Testing.

#[local] Existing Instance hash_iter_by_key.

(** ** [crc32c.rs] *)

Definition matches_standard_check_value : test := assert_eq (checksum (bytes "123456789")) 0xe3069283.
Definition empty_input_is_zero : test := assert_eq (checksum (bytes "")) 0.

Example crc32c_tests_pass : forallb passes [matches_standard_check_value; empty_input_is_zero] = true.
Proof. vm_compute. reflexivity. Qed.

(** ** [disk.rs] *)

Definition disk_tempfile_path (name : path) : path := bytes "tartine-filedisk-test-" ++ name.

Definition write_then_read_back : test :=
  let path := disk_tempfile_path (bytes "roundtrip") in
  let! _ := try_remove path in
  let! disk := run_ok (FileDisk_create path 4096) in
  let! _ := run_ok (write_at disk 100 (bytes "hello disk")) in
  let! _ := run_ok (sync disk) in
  let! buf := read_ok_or_panic (read_at disk 100 10) in
  let! _ := assert_eq buf (bytes "hello disk") in
  run_ok (remove_file path).

Definition persists_across_reopen : test :=
  let path := disk_tempfile_path (bytes "persist") in
  let! _ := try_remove path in
  let! disk := run_ok (FileDisk_create path 4096) in
  let! _ := run_ok (write_at disk 0 (bytes "still here")) in
  let! _ := run_ok (sync disk) in
  let! disk := run_ok (FileDisk_open path) in
  let! _ := assert_eq (capacity_bytes disk) 4096 in
  let! buf := read_ok_or_panic (read_at disk 0 10) in
  let! _ := assert_eq buf (bytes "still here") in
  run_ok (remove_file path).

Definition read_past_end_of_file_errors : test :=
  let path := disk_tempfile_path (bytes "short-read") in
  let! _ := try_remove path in
  let! disk := run_ok (FileDisk_create path 16) in
  let! err := (fun w => unwrap_err (read_at disk 0 32 w) w) in
  let! _ := assert_eq err UnexpectedEof in
  run_ok (remove_file path).

Example disk_tests_pass :
  forallb passes [write_then_read_back; persists_across_reopen; read_past_end_of_file_errors] = true.
Proof. vm_compute. reflexivity. Qed.

(** ** [segment.rs] *)

Definition segment_tempfile_path (name : path) : path := bytes "tartine-segment-test-" ++ name.

Definition disk_of (name : path) (capacity : Z) : io os_world Empty_set (path * FileDisk) :=
  let path := segment_tempfile_path name in
  let! _ := try_remove path in
  let! disk := run_ok (FileDisk_create path capacity) in
  io_ret (path, disk).

(** [result.records[i].payload]. *)
Definition payload_at (result : ScanResult) (i : nat) : io os_world Empty_set (list byte) :=
  let! r := unwrap_some (records result !! i) in io_ret (sr_payload r).

Definition round_trips_multiple_records : test :=
  let! (path, disk) := disk_of (bytes "roundtrip") 4096 in
  let w := SegmentWriter_new disk 0 in
  let! (_, w) := call_ok w (append (Record_new 1 0 (bytes "first"))) in
  let! (_, w) := call_ok w (append (Record_new 1 1 (bytes "second"))) in
  let! (_, w) := call_ok w (append (Record_new 2 0 (bytes ""))) in
  let! (_, w) := call_ok w SegmentWriter_sync in
  let! reader := run_ok (FileDisk_open path) in
  let! result := read_ok_or_panic (scan reader 0) in
  let! _ := assert_eq (length (records result)) 3%nat in
  let! p0 := payload_at result 0 in
  let! _ := assert_eq p0 (bytes "first") in
  let! p1 := payload_at result 1 in
  let! _ := assert_eq p1 (bytes "second") in
  let! p2 := payload_at result 2 in
  let! _ := assert_eq p2 (bytes "") in
  let! _ := assert_eq (corruption_at result) None in
  let! _ := assert_eq (resume_at result) (sw_cursor w) in
  run_ok (remove_file path).

Definition recovers_from_truncated_trailing_record : test :=
  let! (path, disk) := disk_of (bytes "truncated") 4096 in
  let w := SegmentWriter_new disk 0 in
  let! (_, w) := call_ok w (append (Record_new 1 0 (bytes "complete"))) in
  let good_cursor := sw_cursor w in
  let! (_, w) := call_ok w (append (Record_new 1 1 (bytes "never finishes"))) in
  let! (_, w) := call_ok w SegmentWriter_sync in
  let! _ := run_ok (set_len path (good_cursor + Z.of_nat HEADER_LEN + 3)) in
  let! reader := run_ok (FileDisk_open path) in
  let! result := read_ok_or_panic (scan reader 0) in
  let! _ := assert_eq (length (records result)) 1%nat in
  let! p0 := payload_at result 0 in
  let! _ := assert_eq p0 (bytes "complete") in
  let! _ := assert_eq (corruption_at result) None in
  let! _ := assert_eq (resume_at result) good_cursor in
  run_ok (remove_file path).

Definition detects_corruption_in_a_fully_present_record : test :=
  let! (path, disk) := disk_of (bytes "corrupt") 4096 in
  let w := SegmentWriter_new disk 0 in
  let! (_, w) := call_ok w (append (Record_new 1 0 (bytes "good"))) in
  let bad := Record_new 1 1 (bytes "bitrotted") in
  let bad := {| sr_inode := sr_inode bad; sr_chunk_seq := sr_chunk_seq bad; sr_payload := sr_payload bad;
                sr_checksum := Z.lxor (sr_checksum bad) 0xffffffff |} in
  let! (_, w) := call_ok w (append bad) in
  let! (_, w) := call_ok w SegmentWriter_sync in
  let! reader := run_ok (FileDisk_open path) in
  let! result := read_ok_or_panic (scan reader 0) in
  let! _ := assert_eq (length (records result)) 1%nat in
  let! p0 := payload_at result 0 in
  let! _ := assert_eq p0 (bytes "good") in
  let! _ := assert (bool_decide (is_Some (corruption_at result))) in
  run_ok (remove_file path).

Definition scan_of_untouched_disk_finds_nothing : test :=
  let! (path, disk) := disk_of (bytes "empty") 4096 in
  let! result := read_ok_or_panic (scan disk 0) in
  let! _ := assert (length (records result) =? 0)%nat in
  let! _ := assert_eq (resume_at result) 0 in
  let! _ := assert_eq (corruption_at result) None in
  run_ok (remove_file path).

Definition writer_can_resume_after_recovery : test :=
  let! (path, disk) := disk_of (bytes "resume") 4096 in
  let w := SegmentWriter_new disk 0 in
  let! (_, w) := call_ok w (append (Record_new 1 0 (bytes "before crash"))) in
  let! (_, w) := call_ok w SegmentWriter_sync in
  let! reader := run_ok (FileDisk_open path) in
  let! result := read_ok_or_panic (scan reader 0) in
  let! disk2 := run_ok (FileDisk_open path) in
  let w2 := SegmentWriter_resume disk2 0 (resume_at result) in
  let! (_, w2) := call_ok w2 (append (Record_new 1 1 (bytes "after recovery"))) in
  let! (_, w2) := call_ok w2 SegmentWriter_sync in
  let! reader2 := run_ok (FileDisk_open path) in
  let! result2 := read_ok_or_panic (scan reader2 0) in
  let! _ := assert_eq (length (records result2)) 2%nat in
  let! p1 := payload_at result2 1 in
  let! _ := assert_eq p1 (bytes "after recovery") in
  run_ok (remove_file path).

Example segment_tests_pass :
  forallb passes [round_trips_multiple_records; recovers_from_truncated_trailing_record;
    detects_corruption_in_a_fully_present_record; scan_of_untouched_disk_finds_nothing;
    writer_can_resume_after_recovery] = true.
Proof. vm_compute. reflexivity. Qed.

(** ** [placement.rs] *)

Definition disk_entry (class : DiskClass) : DiskEntry :=
  {| de_roles := {| role_data := true; role_metadata := false |}; de_state := Active; de_class := class;
     de_weight := 0x3ff0000000000000; de_used_bytes := 0; de_capacity_bytes := 1 |}.

Definition pool_of (n : nat) : PoolMap :=
  {| pm_epoch := 0; pm_disks := list_to_map ((fun i => (Z.of_nat i + 1, disk_entry Hdd)) <$> seq 0 n) |}.

(** [|e| e.roles.data]. *)
Definition data_role (e : DiskEntry) : bool := role_data (de_roles e).

(** [targets] panics where the model has [None]. *)
Definition picks_requested_count : test :=
  let pool := pool_of 5 in
  let key := placement_key 42 0 in
  let! t := unwrap_some (targets pool key 3 data_role) in
  let! _ := assert_eq (length t) 3%nat in
  assert_eq (length (remove_dups t)) 3%nat.

(** [pool.disks[&id].class]. *)
Definition class_of (pool : PoolMap) (id : DiskId) : io os_world Empty_set DiskClass :=
  let! e := unwrap_some (pm_disks pool !! id) in io_ret (de_class e).

(** [placed[i].expect(..)]. *)
Definition placed_at (placed : list (option DiskId)) (i : nat) : io os_world Empty_set DiskId :=
  let! o := unwrap_some (placed !! i) in unwrap_some o.

Definition place_redundancy_one_hdd_one_ssd : test :=
  let pool := pool_of 3 in
  let pool := {| pm_epoch := pm_epoch pool;
                 pm_disks := <[101 := disk_entry Ssd]> (<[100 := disk_entry Ssd]> (pm_disks pool)) |} in
  let scheme := Replicated [AnyOfClass (Some Hdd); AnyOfClass (Some Ssd)] in
  let! placed := unwrap_ok (place_redundancy pool scheme 7 data_role) in
  let! _ := assert_eq (length placed) 2%nat in
  let! hdd_disk := placed_at placed 0 in
  let! ssd_disk := placed_at placed 1 in
  let! c0 := class_of pool hdd_disk in
  let! _ := assert_eq c0 Hdd in
  let! c1 := class_of pool ssd_disk in
  assert_eq c1 Ssd.

Definition place_redundancy_pinned_disk : test :=
  let pool := pool_of 5 in
  let pinned : DiskId := 3 in
  let scheme := Replicated [Pinned pinned] in
  let! placed := unwrap_ok (place_redundancy pool scheme 42 data_role) in
  assert (bool_decide (placed = [Some pinned])).

Definition place_redundancy_unreplicated_any_disk_is_just_one_slot : test :=
  let pool := pool_of 5 in
  let scheme := Replicated [AnyOfClass None] in
  let! placed := unwrap_ok (place_redundancy pool scheme 1 data_role) in
  let! _ := assert_eq (length placed) 1%nat in
  let! o := unwrap_some (placed !! 0%nat) in
  assert (bool_decide (is_Some o)).

Definition place_redundancy_rejects_erasure_coded : test :=
  let pool := pool_of 5 in
  let scheme := ErasureCoded 4 2 in
  let! e := unwrap_err (place_redundancy pool scheme 1 data_role) in
  match e with ErasureCodedUnimplemented => io_ret tt end.

Example core_placement_tests_pass :
  forallb passes [picks_requested_count; place_redundancy_one_hdd_one_ssd; place_redundancy_pinned_disk;
    place_redundancy_unreplicated_any_disk_is_just_one_slot; place_redundancy_rejects_erasure_coded] = true.
Proof. vm_compute. reflexivity. Qed.

(** ** [redundancy_spec.rs] *)

(** [assert_eq!(parse(spec).unwrap(), scheme)]. *)
Definition parses_to (spec : chars) (scheme : RedundancyScheme) : test :=
  let! s := unwrap_ok (parse spec) in assert_eq s scheme.

Definition bare_count_is_n_any_slots : test := parses_to (lit "3") (Replicated (replicate 3 (AnyOfClass None))).
Definition unreplicated_on_ssd : test := parses_to (lit "ssd") (Replicated [AnyOfClass (Some Ssd)]).
Definition unreplicated_pinned_to_a_disk : test :=
  let spec := lit "disk:00000000000000000000000000002a" in
  parses_to spec (Replicated [Pinned 42]).
Definition one_hdd_one_ssd : test :=
  parses_to (lit "hdd,ssd") (Replicated [AnyOfClass (Some Hdd); AnyOfClass (Some Ssd)]).
Definition erasure_coding_syntax_parses_but_is_reserved : test := parses_to (lit "rs:4+2") (ErasureCoded 4 2).

Definition round_trips_through_format : test :=
  for_in [lit "any"; lit "ssd"; lit "hdd,ssd"; lit "rs:4+2"] (fun spec _ =>
    let! scheme := unwrap_ok (parse spec) in
    let! s := unwrap_ok (parse (format scheme)) in
    assert_eq s scheme) tt.

Definition rejects_garbage : test :=
  let! _ := assert (match parse (lit "banana") with Err (UnknownSlot _) => true | _ => false end) in
  let! _ := assert (match parse (lit "") with Err Empty => true | _ => false end) in
  let! _ := assert (match parse (lit "disk:not-hex") with Err (BadUuid _) => true | _ => false end) in
  assert (match parse (lit "rs:4") with Err (BadErasureCoding _) => true | _ => false end).

Example redundancy_spec_tests_pass :
  forallb passes [bare_count_is_n_any_slots; unreplicated_on_ssd; unreplicated_pinned_to_a_disk; one_hdd_one_ssd;
    erasure_coding_syntax_parses_but_is_reserved; round_trips_through_format; rejects_garbage] = true.
Proof. vm_compute. reflexivity. Qed.
