(* ===== verification/FuseTests.v ===== *)
(** * The unit tests of [crates/tartine-fuse]

    The module [redundancy_wire_tests] of [ioctl.rs] and the module [tests] of
    [write_path.rs], run on the model. *)

From Stdlib Require Import ZArith Lia String.
From S2P Require Import Prelude Proto Disk FuseWritePath Ioctl Testing.

(** ** [ioctl.rs] *)

Definition round_trips_any_and_class_and_pinned_slots : test :=
  let scheme := Replicated [AnyOfClass None; AnyOfClass (Some Ssd); Pinned 0x123456789abcdef0] in
  let wire := encode_set_redundancy scheme in
  let! _ := assert_eq (length wire) REDUNDANCY_WIRE_SIZE in
  let! decoded := unwrap_some (decode_set_redundancy wire) in
  assert_eq decoded scheme.

Definition round_trips_erasure_coded_reservation : test :=
  let scheme := ErasureCoded 4 2 in
  let wire := encode_set_redundancy scheme in
  let! decoded := unwrap_some (decode_set_redundancy wire) in
  assert_eq decoded scheme.

Definition rejects_wrong_length : test :=
  assert (bool_decide (decode_set_redundancy (replicate 10 x00) = None)).

Example ioctl_tests_pass :
  forallb passes [round_trips_any_and_class_and_pinned_slots; round_trips_erasure_coded_reservation;
    rejects_wrong_length] = true.
Proof. vm_compute. reflexivity. Qed.

(** ** [write_path.rs] *)

Definition append_only_inode (size : Z) : InodeRecord :=
  {| ir_inode := 1; ir_mode := AppendOnly; ir_size := size;
     ir_redundancy := Replicated (replicate 2 (AnyOfClass None)); ir_data := ChunkLog [];
     ir_uid := 0; ir_gid := 0; ir_unix_mode := 0x1a4; ir_mtime_unix := 0 |}.

(** [matches!(.., Ok(kind))], [.. == Err(e)]. *)
Definition is_append (r : result WriteError WriteKind) : bool :=
  match r with Ok WkAppend => true | _ => false end.
Definition is_random_write (r : result WriteError WriteKind) : bool :=
  match r with Ok RandomWrite => true | _ => false end.
Definition fails_with {A} (r : result WriteError A) (e : WriteError) : bool :=
  match r, e with
  | Err NotAppendOnlyOrder, NotAppendOnlyOrder => true
  | Err RandomWriteDenied, RandomWriteDenied => true
  | Err ConversionInProgress, ConversionInProgress => true
  | _, _ => false
  end.

(** [begin_convert(&mut inode).unwrap()]: the inode after the call. *)
Definition begin_convert_ok (inode : InodeRecord) : io os_world Empty_set InodeRecord :=
  let '(inode, r) := begin_convert inode in let! _ := unwrap_ok r in io_ret inode.

Definition append_only_accepts_write_at_eof : test :=
  let inode := append_only_inode 100 in
  assert (is_append (classify_write inode 100 10)).

Definition append_only_rejects_write_before_eof : test :=
  let inode := append_only_inode 100 in
  assert (fails_with (classify_write inode 50 10) NotAppendOnlyOrder).

Definition append_only_rejects_truncate : test :=
  let inode := append_only_inode 100 in
  assert (fails_with (truncate_allowed inode) RandomWriteDenied).

Definition converting_still_accepts_tail_append_but_not_random_write : test :=
  let inode := append_only_inode 100 in
  let! inode := begin_convert_ok inode in
  let! _ := assert (is_append (classify_write inode 100 10)) in
  assert (fails_with (classify_write inode 10 10) ConversionInProgress).

Definition convert_is_one_way : test :=
  let inode := append_only_inode 100 in
  let! inode := begin_convert_ok inode in
  let! inode := unwrap_ok (complete_convert inode []) in
  let! _ := assert_eq (ir_mode inode) Writable in
  let '(inode, r) := begin_convert inode in
  let! _ := assert (match r with Err AlreadyWritable => true | _ => false end) in
  let! _ := assert (is_random_write (classify_write inode 0 10)) in
  assert (is_ok (truncate_allowed inode)).

Example fuse_write_path_tests_pass :
  forallb passes [append_only_accepts_write_at_eof; append_only_rejects_write_before_eof;
    append_only_rejects_truncate; converting_still_accepts_tail_append_but_not_random_write; convert_is_one_way] = true.
Proof. vm_compute. reflexivity. Qed.
