(* ===== verification/MetaTests.v ===== *)
(** * The unit tests of [crates/tartine-meta], below the pool

    The modules [tests] of [wal.rs], [codec.rs] and [store.rs], run on the
    model, with the in-memory database.  That two operations print the same
    ([format!] of [{:?}]) is that they are equal. *)

From Stdlib Require Import ZArith Lia String.
From S2P Require Import Prelude Proto Disk Wal Codec Replicator Redb Store Testing.

#[local] Existing Instance hash_iter_by_key.

#[local] Instance PoolMap_eq_dec : EqDecision PoolMap.
Proof. intros [e1 d1] [e2 d2]. destruct (decide (e1 = e2 /\ d1 = d2)); [left|right]; naive_solver. Defined.
#[local] Instance MetaOp_eq_dec : EqDecision MetaOp.
Proof. solve_decision. Defined.

(** ** [wal.rs] *)

Definition wal_tempfile_path (name : path) : path := bytes "tartine-wal-test-" ++ name.

Definition round_trips_multiple_entries : test :=
  let path := wal_tempfile_path (bytes "roundtrip") in
  let! _ := try_remove path in
  let! disk := run_ok (FileDisk_create path WAL_CAPACITY_BYTES) in
  let! cursor := for_in [bytes "first entry"; bytes "second"; bytes ""] (fun payload cursor =>
    let f := build_frame payload in
    let! _ := run_ok (write_at disk cursor f) in
    io_ret (cursor + Zlen f)) 0 in
  let! _ := run_ok (sync disk) in
  let! result := read_ok_or_panic (scan disk 0) in
  let! _ := assert_eq (entries result) [bytes "first entry"; bytes "second"; bytes ""] in
  let! _ := assert_eq (resume_at result) cursor in
  let! _ := assert_eq (corruption_at result) None in
  run_ok (remove_file path).

Definition recovers_from_truncated_trailing_entry : test :=
  let path := wal_tempfile_path (bytes "truncated") in
  let! _ := try_remove path in
  let! disk := run_ok (FileDisk_create path WAL_CAPACITY_BYTES) in
  let f1 := build_frame (bytes "complete entry") in
  let! _ := run_ok (write_at disk 0 f1) in
  let good_cursor := Zlen f1 in
  let f2 := build_frame (bytes "this one gets cut off") in
  let! _ := run_ok (write_at disk good_cursor f2) in
  let! _ := run_ok (sync disk) in
  let! _ := run_ok (set_len path (good_cursor + 5)) in
  let! reader := run_ok (FileDisk_open path) in
  let! result := read_ok_or_panic (scan reader 0) in
  let! _ := assert_eq (entries result) [bytes "complete entry"] in
  let! _ := assert_eq (resume_at result) good_cursor in
  let! _ := assert_eq (corruption_at result) None in
  run_ok (remove_file path).

Example wal_tests_pass : forallb passes [round_trips_multiple_entries; recovers_from_truncated_trailing_entry] = true.
Proof. vm_compute. reflexivity. Qed.

(** ** [codec.rs] *)

Definition sample_inode_record : InodeRecord :=
  {| ir_inode := 42; ir_mode := AppendOnly; ir_size := 100;
     ir_redundancy := Replicated [AnyOfClass (Some Ssd); Pinned 7];
     ir_data := ChunkLog [{| cp_chunk_seq := 0; cp_replicas := [(1, 0); (2, 0)]; cp_len := 100; cp_checksum := 0xdeadbeef |}];
     ir_uid := 1000; ir_gid := 1000; ir_unix_mode := 0x1a4; ir_mtime_unix := 1700000000 |}.

Definition inode_record_round_trips : test :=
  let rec := sample_inode_record in
  let bytes := encode_inode_record rec in
  let! decoded := unwrap_some (run_dec decode_inode_record bytes) in
  let! _ := assert_eq (ir_inode decoded) (ir_inode rec) in
  let! _ := assert_eq (ir_mode decoded) (ir_mode rec) in
  assert_eq (ir_redundancy decoded) (ir_redundancy rec).

Definition every_meta_op_variant_round_trips : test :=
  let extents := [{| ex_file_offset := 0; ex_len := 5; ex_replicas := [(1, 0)]; ex_checksum := 9 |}] in
  let ops :=
    [CreateInode sample_inode_record;
     Link 1 (bytes "foo") 2;
     Unlink 1 (bytes "foo");
     AppendChunk 2 {| cp_chunk_seq := 0; cp_replicas := [(1, 0)]; cp_len := 5; cp_checksum := 9 |};
     BeginConvert 2;
     CompleteConvert 2 extents;
     SetRedundancyScheme 2 (Replicated (replicate 3 (AnyOfClass None)));
     UpdateExtents 2 extents] in
  for_in ops (fun op _ =>
    let bytes := encode_op op in
    let! decoded := unwrap_some (decode_op bytes) in
    assert_eq op decoded) tt.

Definition pool_map_round_trips : test :=
  let disks : gmap Z DiskEntry :=
    <[1 := {| de_roles := {| role_data := true; role_metadata := false |}; de_state := Active; de_class := Nvme;
              de_weight := 0x4004000000000000; de_used_bytes := 10; de_capacity_bytes := 100 |}]> ∅ in
  let pm := {| pm_epoch := 3; pm_disks := disks |} in
  let bytes := encode_pool_map pm in
  let! decoded := unwrap_some (run_dec decode_pool_map bytes) in
  let! _ := assert_eq (pm_epoch decoded) (pm_epoch pm) in
  let! e := unwrap_some (pm_disks decoded !! (1 : Z)) in
  let! _ := assert_eq (de_weight e) 0x4004000000000000 in
  assert_eq (de_class e) Nvme.

Example codec_tests_pass :
  forallb passes [inode_record_round_trips; every_meta_op_variant_round_trips; pool_map_round_trips] = true.
Proof. vm_compute. reflexivity. Qed.

(** ** [store.rs] *)

(** A disk with a switch that makes every call fail; no test turns it. *)
Record FlakyDisk := { inner : FileDisk; fail : bool }.
Definition FlakyDisk_new (inner : FileDisk) (fail : bool) : FlakyDisk := {| inner := inner; fail := fail |}.

#[local] Instance FlakyDisk_Disk : Disk os_world FlakyDisk := {
  read_at d offset n w := if fail d then Err OtherIo else read_at (inner d) offset n w;
  write_at d offset buf w := if fail d then (w, Err OtherIo) else write_at (inner d) offset buf w;
  sync d w := if fail d then (w, Err OtherIo) else sync (inner d) w;
  capacity_bytes d := capacity_bytes (inner d);
}.

Definition store_tempfile_path (name : path) : path := bytes "tartine-metastore-test-" ++ name.

Definition root_record : InodeRecord :=
  {| ir_inode := 1; ir_mode := Writable; ir_size := 0; ir_redundancy := Replicated (replicate 2 (AnyOfClass None));
     ir_data := Extents []; ir_uid := 0; ir_gid := 0; ir_unix_mode := 0x1ed; ir_mtime_unix := 0 |}.
(** [record.inode = id]. *)
Definition with_inode (id : InodeId) (r : InodeRecord) : InodeRecord :=
  {| ir_inode := id; ir_mode := ir_mode r; ir_size := ir_size r; ir_redundancy := ir_redundancy r;
     ir_data := ir_data r; ir_uid := ir_uid r; ir_gid := ir_gid r; ir_unix_mode := ir_unix_mode r;
     ir_mtime_unix := ir_mtime_unix r |}.

Definition open_pair (name : path) : path * path * path :=
  (store_tempfile_path (name ++ bytes "-primary"), store_tempfile_path (name ++ bytes "-backup"),
   store_tempfile_path (name ++ bytes "-redb")).

(** [for path in [..] { let _ = std::fs::remove_file(path); }]. *)
Definition remove_all {E} (paths : list path) : io os_world E unit := for_in paths (fun p _ => try_remove p) tt.

(** [MetaStore::open(..).unwrap()], [store.apply(op).unwrap()], and
    [store.get_inode(id).unwrap().unwrap()]. *)
Definition open_unwrap {D} `{!Disk os_world D} (group : MetaGroup) (primary : D) (backup : option D) :
    io os_world Empty_set (MetaStore D tables) :=
  read_ok_or_panic (Store.open group primary backup).
Definition apply_unwrap {D} `{!Disk os_world D} (store : MetaStore D tables) (op : MetaOp) :
    io os_world Empty_set (MetaStore D tables) :=
  let! (_, store) := call_ok store (apply op) in io_ret store.
Definition inode_of {D} (store : MetaStore D tables) (id : InodeId) : io os_world Empty_set InodeRecord :=
  let! o := unwrap_ok (get_inode store id) in unwrap_some o.

Definition test_group : MetaGroup := {| mg_primary := 1; mg_backup := Some 2; mg_epoch := 0 |}.

Definition create_link_and_read_back : test :=
  let '(p, b, r) := open_pair (bytes "basic") in
  let! _ := remove_all [p; b; r] in
  let! primary := run_ok (FileDisk_create p WAL_CAPACITY_BYTES) in
  let! backup := run_ok (FileDisk_create b WAL_CAPACITY_BYTES) in
  let group := test_group in
  let! store := open_unwrap group primary (Some backup) in
  let! store := apply_unwrap store (CreateInode root_record) in
  let '(store, child_id) := alloc_inode store in
  let child := set_data (ChunkLog []) (set_mode AppendOnly (with_inode child_id root_record)) in
  let! store := apply_unwrap store (CreateInode child) in
  let! store := apply_unwrap store (Link 1 (bytes "f") child_id) in
  let! found := unwrap_ok (lookup_entry store 1 (bytes "f")) in
  let! _ := assert (bool_decide (found = Some child_id)) in
  let! listed := unwrap_ok (readdir store 1) in
  let! _ := assert (bool_decide (listed = [(bytes "f", child_id)])) in
  let! rec := inode_of store child_id in
  let! _ := assert_eq (ir_mode rec) AppendOnly in
  remove_all [p; b; r].

Definition survives_reopen_via_wal_replay : test :=
  let '(p, b, r) := open_pair (bytes "reopen") in
  let! _ := remove_all [p; b; r] in
  let group := test_group in
  let! primary := run_ok (FileDisk_create p WAL_CAPACITY_BYTES) in
  let! backup := run_ok (FileDisk_create b WAL_CAPACITY_BYTES) in
  let! store := open_unwrap group primary (Some backup) in
  let! store := apply_unwrap store (CreateInode root_record) in
  let '(store, child_id) := alloc_inode store in
  let child := with_inode child_id root_record in
  let! store := apply_unwrap store (CreateInode child) in
  let! store := apply_unwrap store (Link 1 (bytes "persisted") child_id) in
  let! primary2 := run_ok (FileDisk_open p) in
  let! backup2 := run_ok (FileDisk_open b) in
  let! store2 := open_unwrap group primary2 (Some backup2) in
  let! found := unwrap_ok (lookup_entry store2 1 (bytes "persisted")) in
  let! _ := assert (bool_decide (is_Some found)) in
  remove_all [p; b; r].

Definition append_chunk_updates_size_and_chunk_log : test :=
  let '(p, b, r) := open_pair (bytes "append") in
  let! _ := remove_all [p; b; r] in
  let group := test_group in
  let! primary := run_ok (FileDisk_create p WAL_CAPACITY_BYTES) in
  let! backup := run_ok (FileDisk_create b WAL_CAPACITY_BYTES) in
  let! store := open_unwrap group primary (Some backup) in
  let file := set_data (ChunkLog []) (set_size 0 (set_mode AppendOnly (with_inode 2 root_record))) in
  let! store := apply_unwrap store (CreateInode file) in
  let! store := apply_unwrap store (AppendChunk 2 {| cp_chunk_seq := 0; cp_replicas := [(9, 0)]; cp_len := 5; cp_checksum := 1 |}) in
  let! rec := inode_of store 2 in
  let! _ := assert_eq (ir_size rec) 5 in
  let! _ := match ir_data rec with
            | ChunkLog chunks => assert_eq (length chunks) 1%nat
            | Extents _ => io_panic
            end in
  remove_all [p; b; r].

Definition convert_transitions_mode_and_data_locator : test :=
  let '(p, b, r) := open_pair (bytes "convert") in
  let! _ := remove_all [p; b; r] in
  let group := test_group in
  let! primary := run_ok (FileDisk_create p WAL_CAPACITY_BYTES) in
  let! backup := run_ok (FileDisk_create b WAL_CAPACITY_BYTES) in
  let! store := open_unwrap group primary (Some backup) in
  let file := set_data (ChunkLog []) (set_mode AppendOnly (with_inode 2 root_record)) in
  let! store := apply_unwrap store (CreateInode file) in
  let! store := apply_unwrap store (BeginConvert 2) in
  let! rec := inode_of store 2 in
  let! _ := assert_eq (ir_mode rec) Converting in
  let! store := apply_unwrap store (CompleteConvert 2 []) in
  let! rec := inode_of store 2 in
  let! _ := assert_eq (ir_mode rec) Writable in
  let! _ := assert (match ir_data rec with Extents _ => true | _ => false end) in
  remove_all [p; b; r].

Definition opens_and_commits_with_no_backup_from_the_start : test :=
  let '(p, _, r) := open_pair (bytes "nobackup") in
  let! _ := remove_all [p; r] in
  let! primary := run_ok (FileDisk_create p WAL_CAPACITY_BYTES) in
  let group := {| mg_primary := 1; mg_backup := None; mg_epoch := 0 |} in
  let! store := open_unwrap group primary None in
  let! _ := assert (bool_decide (mg_backup (Store.group store) = None)) in
  let! store := apply_unwrap store (CreateInode root_record) in
  let! found := unwrap_ok (get_inode store 1) in
  let! _ := assert (bool_decide (is_Some found)) in
  let! primary2 := run_ok (FileDisk_open p) in
  let! store2 := open_unwrap group primary2 None in
  let! found := unwrap_ok (get_inode store2 1) in
  let! _ := assert (bool_decide (is_Some found)) in
  remove_all [p; r].

Definition backup_failure_fences_but_keeps_serving_degraded : test :=
  let '(p, b, r) := open_pair (bytes "fence") in
  let! _ := remove_all [p; b; r] in
  let group := test_group in
  let! primary := run_ok (FileDisk_create p WAL_CAPACITY_BYTES) in
  let primary := FlakyDisk_new primary false in
  let! backup := run_ok (FileDisk_create b WAL_CAPACITY_BYTES) in
  let backup := FlakyDisk_new backup true in
  let! store := open_unwrap group primary (Some backup) in
  let! _ := assert (bool_decide (is_Some (mg_backup (Store.group store)))) in
  let! _ := assert_eq (mg_epoch (Store.group store)) 0 in
  let! store := apply_unwrap store (CreateInode root_record) in
  let! _ := assert (bool_decide (mg_backup (Store.group store) = None)) in
  let! _ := assert_eq (mg_epoch (Store.group store)) 1 in
  let! found := unwrap_ok (get_inode store 1) in
  let! _ := assert (bool_decide (is_Some found)) in
  let '(store, child_id) := alloc_inode store in
  let child := with_inode child_id root_record in
  let! store := apply_unwrap store (CreateInode child) in
  let! store := apply_unwrap store (Link 1 (bytes "still-works") child_id) in
  let! found := unwrap_ok (lookup_entry store 1 (bytes "still-works")) in
  let! _ := assert (bool_decide (found = Some child_id)) in
  remove_all [p; b; r].

Example store_tests_pass :
  forallb passes [create_link_and_read_back; survives_reopen_via_wal_replay; append_chunk_updates_size_and_chunk_log;
    convert_transitions_mode_and_data_locator; opens_and_commits_with_no_backup_from_the_start;
    backup_failure_fences_but_keeps_serving_degraded] = true.
Proof. vm_compute. reflexivity. Qed.
