(* ===== verification/PoolTests.v ===== *)
(** * The unit tests of the pool ([crates/tartine-meta/src/pool.rs])

    The module [tests] of [pool.rs], run on the model, with the in-memory
    database and a clock that stands still. *)

From Stdlib Require Import ZArith Lia String.
From stdpp Require Import sorting.
From S2P Require Import Prelude Proto Disk Segment Replicator Redb Store Pool Testing.

#[local] Existing Instance hash_iter_by_key.

Record TestPaths := { tp_disks : list path; tp_redb : path }.

(** [format!("disk{i}")] for a digit. *)
Definition disk_name (i : nat) : path := bytes "disk" ++ [byte_of_Z (48 + Z.of_nat i)].

Definition TestPaths_new (name : path) (n_disks : nat) : io os_world Empty_set TestPaths :=
  let p := bytes "tartine-pool-test-" ++ name ++ bytes "/" in
  let disks := (fun i => p ++ disk_name i) <$> seq 0 n_disks in
  let redb := p ++ bytes "meta.redb" in
  let! _ := for_in (disks ++ [redb]) (fun f _ => try_remove f) tt in
  io_ret {| tp_disks := disks; tp_redb := redb |}.

Definition TestPaths_drop (t : TestPaths) : test :=
  for_in (tp_disks t ++ [tp_redb t]) (fun f _ => try_remove f) tt.

Definition any_n (n : nat) : RedundancyScheme := Replicated (replicate n (AnyOfClass None)).

Definition test_clock : Z := 1700000000.
Abbreviation TestPool := (Pool.Pool tables).

(** [Pool::format(..).unwrap()], [pool.create_file(..).unwrap()] in the root
    directory, the operations that return nothing, and the queries. *)
Definition format_unwrap (t : TestPaths) : io os_world Empty_set TestPool := run_ok (Pool.format (tp_disks t) test_clock).
Definition create_unwrap (pool : TestPool) (name : path) (scheme : RedundancyScheme) (uid gid mode : Z) :
    io os_world Empty_set (InodeId * TestPool) :=
  call_ok pool (create_file ROOT_INODE name scheme uid gid mode test_clock).
Definition do_unwrap (pool : TestPool) (op : io (os_world * TestPool) PoolError unit) : io os_world Empty_set TestPool :=
  let! (_, pool) := call_ok pool op in io_ret pool.
Definition read_unwrap (pool : TestPool) (inode : InodeId) (offset len : Z) : io os_world Empty_set (list byte) :=
  read_ok_or_panic (Pool.read pool inode offset len).
Definition inode_of (pool : TestPool) (id : InodeId) : io os_world Empty_set InodeRecord :=
  let! o := unwrap_ok (Pool.get_inode pool id) in unwrap_some o.

(** [matches!(pool.op(..), Err(PoolError::WrongMode))]. *)
Definition wrong_mode (pool : TestPool) (op : io (os_world * TestPool) PoolError unit) : test :=
  let! (r, _) := call pool op in assert (match r with Err WrongMode => true | _ => false end).

Definition format_creates_root_and_pool_is_immediately_usable : test :=
  let! t := TestPaths_new (bytes "format") 3 in
  let! pool := format_unwrap t in
  let! root := inode_of pool ROOT_INODE in
  let! _ := assert_eq (ir_mode root) Writable in
  let! listed := unwrap_ok (Pool.readdir pool ROOT_INODE) in
  let! _ := assert (bool_decide (listed = [])) in
  TestPaths_drop t.

Definition create_append_and_read_back : test :=
  let! t := TestPaths_new (bytes "append") 3 in
  let! pool := format_unwrap t in
  let! (inode, pool) := create_unwrap pool (bytes "f") (any_n 2) 1000 1000 0x1a4 in
  let! pool := do_unwrap pool (append inode (bytes "hello ")) in
  let! pool := do_unwrap pool (append inode (bytes "world")) in
  let! found := unwrap_ok (lookup pool ROOT_INODE (bytes "f")) in
  let! _ := assert (bool_decide (found = Some inode)) in
  let! content := read_unwrap pool inode 0 100 in
  let! _ := assert_eq content (bytes "hello world") in
  let! content := read_unwrap pool inode 6 5 in
  let! _ := assert_eq content (bytes "world") in
  let! rec := inode_of pool inode in
  let! _ := assert_eq (ir_size rec) 11 in
  TestPaths_drop t.

Definition append_rejects_wrong_mode : test :=
  let! t := TestPaths_new (bytes "wrongmode") 2 in
  let! pool := format_unwrap t in
  let! _ := wrong_mode pool (append ROOT_INODE (bytes "x")) in
  TestPaths_drop t.

Definition convert_then_random_write_round_trips : test :=
  let! t := TestPaths_new (bytes "convert") 2 in
  let! pool := format_unwrap t in
  let! (inode, pool) := create_unwrap pool (bytes "f") (any_n 2) 0 0 0x1a4 in
  let! pool := do_unwrap pool (append inode (bytes "hello" ++ [x0a])) in
  let! content := read_unwrap pool inode 0 100 in
  let! _ := assert_eq content (bytes "hello" ++ [x0a]) in
  let! pool := do_unwrap pool (begin_convert inode) in
  let! rec := inode_of pool inode in
  let! _ := assert_eq (ir_mode rec) Converting in
  let! pool := do_unwrap pool (complete_convert inode) in
  let! rec := inode_of pool inode in
  let! _ := assert_eq (ir_mode rec) Writable in
  let! _ := assert (match ir_data rec with Extents _ => true | _ => false end) in
  let! content := read_unwrap pool inode 0 100 in
  let! _ := assert_eq content (bytes "hello" ++ [x0a]) in
  let! pool := do_unwrap pool (write inode 2 (bytes "L")) in
  let! content := read_unwrap pool inode 0 100 in
  let! _ := assert_eq content (bytes "heLlo" ++ [x0a]) in
  let! pool := do_unwrap pool (write inode 6 (bytes "more")) in
  let! content := read_unwrap pool inode 0 100 in
  let! _ := assert_eq content (bytes "heLlo" ++ [x0a] ++ bytes "more") in
  TestPaths_drop t.

Definition append_after_convert_is_rejected : test :=
  let! t := TestPaths_new (bytes "noappendafterconvert") 2 in
  let! pool := format_unwrap t in
  let! (inode, pool) := create_unwrap pool (bytes "f") (any_n 2) 0 0 0x1a4 in
  let! pool := do_unwrap pool (append inode (bytes "x")) in
  let! pool := do_unwrap pool (begin_convert inode) in
  let! pool := do_unwrap pool (complete_convert inode) in
  let! _ := wrong_mode pool (append inode (bytes "y")) in
  TestPaths_drop t.

Definition write_before_convert_is_rejected : test :=
  let! t := TestPaths_new (bytes "nowritebeforeconvert") 2 in
  let! pool := format_unwrap t in
  let! (inode, pool) := create_unwrap pool (bytes "f") (any_n 2) 0 0 0x1a4 in
  let! pool := do_unwrap pool (append inode (bytes "x")) in
  let! _ := wrong_mode pool (write inode 0 (bytes "y")) in
  TestPaths_drop t.

Definition survives_reopen_after_crash : test :=
  let! t := TestPaths_new (bytes "reopen") 3 in
  let! pool := format_unwrap t in
  let! (inode, pool) := create_unwrap pool (bytes "f") (any_n 2) 0 0 0x1a4 in
  let! pool := do_unwrap pool (append inode (bytes "first")) in
  let! pool := do_unwrap pool (append inode (bytes "second")) in
  let! pool2 := run_ok (Pool.open (tp_disks t)) in
  let! found := unwrap_ok (lookup pool2 ROOT_INODE (bytes "f")) in
  let! _ := assert (bool_decide (found = Some inode)) in
  let! content := read_unwrap pool2 inode 0 100 in
  let! _ := assert_eq content (bytes "firstsecond") in
  TestPaths_drop t.

Definition replication_factor_places_on_distinct_disks : test :=
  let! t := TestPaths_new (bytes "replicas") 4 in
  let! pool := format_unwrap t in
  let! (inode, pool) := create_unwrap pool (bytes "f") (any_n 3) 0 0 0x1a4 in
  let! pool := do_unwrap pool (append inode (bytes "triplicated")) in
  let! rec := inode_of pool inode in
  let! chunks := match ir_data rec with ChunkLog chunks => io_ret chunks | Extents _ => io_panic end in
  let! _ := assert_eq (length chunks) 1%nat in
  let! chunk := unwrap_some (chunks !! 0%nat) in
  let! _ := assert_eq (length (cp_replicas chunk)) 3%nat in
  let disk_ids := sorted_dedup (fst <$> cp_replicas chunk) in
  let! _ := assert_eq (length disk_ids) 3%nat in
  let! _ := for_in (cp_replicas chunk) (fun '(disk_id, offset) _ =>
    let! handle := unwrap_some (disks pool !! disk_id) in
    let! buf := read_ok_or_panic (read_at (dh_disk handle)
                  (SEGMENT_BASE_OFFSET + offset + Z.of_nat Segment.HEADER_LEN) (length (bytes "triplicated"))) in
    assert_eq buf (bytes "triplicated")) tt in
  TestPaths_drop t.

Definition format_rejects_zero_disks : test :=
  let! t := TestPaths_new (bytes "zerodisks") 0 in
  let! _ := (fun w =>
    let '(w', r) := Pool.format (DB := tables) (tp_disks t) test_clock w in
    assert (match r with Err NoDisks => true | _ => false end) w') in
  TestPaths_drop t.

Definition format_and_use_single_disk_pool : test :=
  let! t := TestPaths_new (bytes "single") 1 in
  let! pool := format_unwrap t in
  let! _ := assert_eq (disk_count pool) 1%nat in
  let! root := inode_of pool ROOT_INODE in
  let! _ := match ir_redundancy root with
            | Replicated slots => assert_eq (length slots) 1%nat
            | _ => io_panic
            end in
  let! (inode, pool) := create_unwrap pool (bytes "f") (any_n 1) 0 0 0x1a4 in
  let! pool := do_unwrap pool (append inode (bytes "hello" ++ [x0a])) in
  let! content := read_unwrap pool inode 0 100 in
  let! _ := assert_eq content (bytes "hello" ++ [x0a]) in
  let! pool := do_unwrap pool (begin_convert inode) in
  let! pool := do_unwrap pool (complete_convert inode) in
  let! content := read_unwrap pool inode 0 100 in
  let! _ := assert_eq content (bytes "hello" ++ [x0a]) in
  let! pool := do_unwrap pool (write inode 2 (bytes "L")) in
  let! content := read_unwrap pool inode 0 100 in
  let! _ := assert_eq content (bytes "heLlo" ++ [x0a]) in
  TestPaths_drop t.

Definition unlink_removes_directory_entry : test :=
  let! t := TestPaths_new (bytes "unlink") 2 in
  let! pool := format_unwrap t in
  let! (inode, pool) := create_unwrap pool (bytes "f") (any_n 2) 0 0 0x1a4 in
  let! found := unwrap_ok (lookup pool ROOT_INODE (bytes "f")) in
  let! _ := assert (bool_decide (found = Some inode)) in
  let! pool := do_unwrap pool (unlink ROOT_INODE (bytes "f")) in
  let! found := unwrap_ok (lookup pool ROOT_INODE (bytes "f")) in
  let! _ := assert (bool_decide (found = None)) in
  TestPaths_drop t.

Example pool_tests_pass :
  forallb passes [format_creates_root_and_pool_is_immediately_usable; create_append_and_read_back;
    append_rejects_wrong_mode; convert_then_random_write_round_trips; append_after_convert_is_rejected;
    write_before_convert_is_rejected; survives_reopen_after_crash; replication_factor_places_on_distinct_disks;
    format_rejects_zero_disks; format_and_use_single_disk_pool; unlink_removes_directory_entry] = true.
Proof. vm_compute. reflexivity. Qed.
